(* ===== verification/_CoqProject ===== *)
-Q . S2P
Prelude.v
GoStd.v
GoTime.v
RouteTypes.v
DeepCopy.v
Objects.v
Env.v
Trace.v
Mem.v
Store.v
Webhook.v
Common.v
Conflicts.v
Headers.v
Builders.v
Conditions.v
Metrics.v
Health.v
Certs.v
Canary.v
Children.v
Schema.v
Keys.v
Main.v
Reconcile.v
Stages.v
Runs.v
ReconcileProps.v
Watches.v
Fleet.v
Deletions.v
Provision.v
Quiesce.v
System.v
