(* ===== verification/Prelude.v ===== *)
(** * Verification of the Route operator for Istio and the Gateway API

    The program is a Kubernetes operator in Go.  A user writes a [Route]
    (api/v1alpha1/route_types.go); an admission webhook
    (api/v1alpha1/route_webhook.go) fills in and checks it; a controller
    (internal/controller/route_controller.go, with helpers.go and metrics.go)
    turns it into HTTPRoutes, a VirtualService, DestinationRules, EnvoyFilters,
    a RequestAuthentication and an AuthorizationPolicy, and publishes a status,
    events and metrics; cmd/main.go starts both.  All of this is modelled,
    function by function, under the names of the source.

    ** How code becomes definitions

    Pure functions are functions.  A function that calls the API server, the
    clock, HTTP, the recorder or Prometheus, or touches the reconciler's
    fields, is a run of the monad [M] (this file): it ends with a value or by a
    panic, in a new state [St E] (Env.v) of three parts: the environment [E],
    the [RouteReconciler] (recorder, mutex, the two canary maps, which are nil
    until made), and the log of the calls made so far with their results.
    Go errors are [result]s, a nil pointer is [None], a nil map is [None] where
    it matters that writing to it panics, integers are [Z] kept at their width
    by [int32], [int64] and [uint64] of GoStd.v, strings are byte strings,
    instants and durations are nanoseconds.  What the source uses of Go's
    standard library is defined in GoStd.v and GoTime.v ([ParseUint],
    [strings.HasPrefix], sorting by bytes, UTF-8 validity, [time.ParseDuration]
    with its wrap-around and its floating-point fractions, RFC 3339 dates).
    [ParseDuration] loops with fuel, the length of the text; [pd_loop_fuel]
    shows that this is enough, since every round consumes a byte.

    Code outside the repository is a parameter.  [KubeEnv] (Env.v) has one
    operation per call to the API server, the clock and HTTP; [GoLibs] the pure
    library functions (PEM, X.509, protobuf structs, owner references,
    finalizers); [ApiMachinery] (DeepCopy.v) the deep copies of apimachinery's
    structs; [Handlers] (Watches.v) controller-runtime's event handlers.
    Nothing is assumed of them, except where a theorem names a class of laws:
    [StructLaws] (structpb accepts valid UTF-8), [OwnerLaws] (setting a
    controller reference changes nothing but the owner references, and the
    reference names the Route; UIDs are not modelled), [ChildStore] (what the
    server stores and lists; no other client writes these objects during one
    reconcile), [OwnersStored] and [LabelsStored] (it keeps owner references
    and labels), [Cluster] and [FinalizerLaws] (the same for Routes, Services
    and Endpoints; storing a Route may default its Gateway), [StatusUpdates]
    (a status update that changes nothing leaves the object as it is),
    [ApiMachineryLaws], [HandlerLaws], [GoRuntime] and [Operator] for start-up.
    Mem.v is an in-memory cluster that satisfies those of the cluster and the
    libraries; the witnesses run on it.

    ** The files

    - Prelude, GoStd, GoTime: the monad and its proof rules, Go.
    - RouteTypes, Objects: the API types of the operator, and those of the
      Kubernetes, Gateway API and Istio objects that it reads and writes.
    - DeepCopy: zz_generated.deepcopy.go over a memory of its own; it is what
      allows the other files to treat structs as values.
    - Env, Trace, Mem, Store: the environment, runs as traces of it, the
      in-memory cluster, the interface to the store of generated objects.
    - Webhook: defaulting, hostname and conflict validation.
    - Common, Conflicts, Headers, Builders, Conditions, Metrics, Health, Certs,
      Canary, Children, Keys: the controller's parts, one Module each.
    - Schema: the validation and default markers of route_types.go.
    - Main: from the flags to [mgr.Start].
    - Reconcile: [RouteReconciler.Reconcile], one definition per stage, and the
      deferred outcome counter.  Stages, Runs, ReconcileProps: its properties.
    - Watches: [SetupWithManager], and which events enqueue which requests.
    - Fleet: several Routes over time, against an interface to the stores of
      Routes, Services and Endpoints.  Deletions and Provision add the
      generated objects, Quiesce the reconciles that the operator's own writes
      bring about.
    - System: all of it as one step relation, users and webhook included, with
      the admitted Routes that are yet to be stored.

    ** Specifications and theorems

    - Reconcile.  Children.v states what a Route calls for, as a list of
      objects ([desired]) and of keys to delete ([retired]).  Stages.v shows
      what each stage does, Runs.v gathers it into an inductive specification
      of whole runs over the log ([body_run], [body_panic]), and
      [Reconcile_refines] says every run is one of these.  From it follow:
      nothing is written before finalizer, conflict check and backend check
      ([Reconcile_writes_gated]); a success leaves every desired object in
      the cluster, no retired one, and touches no other
      ([Reconcile_converges], through Trace.v and Store.v); the
      status tells the truth, and says Degraded only of a failure that the log
      shows ([Reconcile_status_sound]); outcome labels agree with results, the
      probe interval of a canary included ([Reconcile_outcomes]); the only
      panics, in any sequence of reconciles since start-up, come from invalid
      UTF-8; a deletion lists and deletes every object of its labels before it
      gives up the finalizer ([handleDeletion_correct]); and of the
      objects that the spec no longer calls for only the policies and the
      rate-limit filter go away ([leftovers_stay]).
    - Watches.  Of all that a successful run leaves in the cluster, someone
      else's change comes back to the Route for the HTTPRoutes and for nothing
      else ([drift_wakes_by_kind]).
    - Fleet.  [due_phase] says which phase a Route should show, from the Routes,
      Services and Endpoints stored.  A reconcile that returns nil leaves its
      Route in that phase and no other Route worse ([Reconcile_cluster]); so
      after any sequence of reconciles, failed and repeated ones included, in
      which the last one of each live Route returned nil, each shows the phase
      due to it, and of clashing Routes at most one is Active
      ([fleet_settles]).  If names keep the Routes apart, every Active one then
      has its objects, and none that it retires, also while other Routes are
      being deleted ([fleet_provisions]).
    - System.  From any state of the system ([operating]: any cluster to start
      with, admissions that overlap), once every live Route was reconciled the
      ones that must give way are Degraded and the others in the phase of their
      backends, Active with all their objects if those are ready and names keep
      the Routes apart ([operator_serves]).  Two side conditions make the guard
      superfluous: a cluster that starts without clashing Routes, and no two
      admissions in flight at once ([serialized]); by induction over those
      steps no two live Routes clash ([admission_keeps_compatible]).
      [ex_overlapping] is a state that violates the second condition, with two
      Routes that clash.
    - Quiesce.  The chain of reconciles that the operator's own status writes
      bring about is finite ([status_feedback_ends]), because [setCondition]
      keeps the transition time of a verdict that stays the same.
    - Schema.  What the schema accepts can be built ([valid_spec_builds]), and
      the controller reads an omitted field as the schema's default
      ([schema_defaults_agree]).
    - DeepCopy.  The copy reads as the original and shares no memory with it
      ([DeepCopyObject_correct]).
    - Conflicts and Webhook.  The two declarations of rule identities agree;
      [routePrecedes] is a strict total order; of two clashing live Routes
      exactly one gives way; some Route always proceeds; what the webhook
      admits the controller does not degrade; hostnames are matched as
      declared ([host_matches], [gateway_admits]).
    - Canary.  The two critical sections of [evaluateCanaryRollback] are
      definitions of their own, so histories interleave them with those of
      other routes: the failure count is the streak of failures modulo the
      threshold, a rollback lasts exactly its cooldown.
    - Builders, Headers, Keys.  The Gateway API and Istio renderings of a rule
      agree, header operations and ports included; weights sum to 100; rate
      limits and body sizes are rendered as the spec says, leaf by leaf
      ([leaves]), or refused; generated names never collide within a Route, and
      across Routes only as [key_ownership] lists.
    - Health, Certs, Conditions, Metrics: each function meets its description
      on every branch, by the answers it got.
    - Main.  Start-up follows its plan up to the first failure, with each
      server's own certificate.

    Examples ([ex_...]) evaluate the model on concrete inputs, among them runs
    that show known limits of the program: updates that the webhook refuses
    while a Route is being deleted, deletions that leave objects behind
    ([ex_cleanup_refused]), homonymous Routes that share objects
    ([ex_homonyms], [ex_redirect_collision]), stale condition messages
    ([ex_stale_message]), objects left behind by an edited spec
    ([ex_leftovers]), body limits and ages that the schema lets through
    ([ex_bodySize], [ex_maxAge]).

    ** What is not modelled

    Logging; context cancellation; the registration of types, webhooks and
    collectors (groupversion_info.go and the [init] functions, which hand
    constants to libraries); flag parsing; charts and manifests; the test
    utilities.  The other files treat structs as values: no code of the
    operator relies on two pointers to one object, except the Route that a run
    passes on, which is threaded through it.  In DeepCopy.v [DeepCopyInto] is
    only ever given a new struct to fill, as in all its calls; a call that
    fills one in use is not considered.  Reconciles run one at a time, as with
    the default of one worker; the webhook runs separately and shares no state.
    In System.v the webhook's answer is one step and the storing of the Route
    another, with anything in between; a webhook that reads a stale cache is
    one that was asked earlier.  An update is stored over whatever version of
    the Route is there, resource versions of Routes are not modelled.
    Reads are answers of the environment at the time of the call: a stale cache
    is an environment that answers so, except for [ChildStore] and [Cluster],
    whose theorems assume reads to be current and deletions of generated
    objects to take effect at once.

    ** Next

    The second reconcile's effect on the generated objects (an update that
    changes nothing); completion of deletions; names that keep a fleet apart,
    as a check; several workers. *)
From Stdlib Require Export ZArith Lia Ascii.
From stdpp Require Export base gmap sets list strings pretty sorting.
#[export] Set Default Goal Selector "!".
#[export] Set Warnings "-clear-no-such-hyp".

Create HintDb igro.
Create Rewrite HintDb igro.

(** ** Results of Go calls: a value, or an [error] *)

(** An [error] as the controller looks at it: the text [Error()] returns and
    what [errors.IsNotFound] answers about it. *)
Record error := mkError { err_notfound : bool; err_text : string }.

Inductive result (A : Type) : Type :=
| Ok (a : A)
| Err (e : error).
Arguments Ok {A} a.
Arguments Err {A} e.

#[export] Instance error_eq_dec : EqDecision error.
Proof. solve_decision. Defined.

(** [errors.IsNotFound(err)] *)
Definition IsNotFound (e : error) : bool := err_notfound e.

(** [fmt.Errorf] of a text: an error that is no API status. *)
Definition Errorf (text : string) : error := mkError false text.

(** ** Stateful calls that may panic *)

Inductive outcome (A : Type) : Type :=
| Ret (a : A)
| Panic (msg : string).
Arguments Ret {A} a.
Arguments Panic {A} msg.

(** A Go function over the state [St]: it ends with a value or by a panic. *)
Definition M (St A : Type) : Type := St → outcome A * St.

#[export] Instance M_ret St : MRet (M St) := λ A a s, (Ret a, s).
#[export] Instance M_bind St : MBind (M St) := λ A B f m s,
  match m s with
  | (Ret a, s') => f a s'
  | (Panic msg, s') => (Panic msg, s')
  end.

Definition panic {St A} (msg : string) : M St A := λ s, (Panic msg, s).
Definition gets {St A} (f : St → A) : M St A := λ s, (Ret (f s), s).
Definition modify {St} (f : St → St) : M St unit := λ s, (Ret tt, f s).

(** [for _, x := range l] with an accumulator. *)
Fixpoint foldM {St A B} (f : B → A → M St B) (b : B) (l : list A) : M St B :=
  match l with
  | [] => mret b
  | x :: l' => b' ← f b x; foldM f b' l'
  end.

(** [for i, x := range l]: the elements with their indices. *)
Definition indexed {A} (l : list A) : list (nat * A) := imap pair l.

(** ** A weakest-precondition reading of [M]

    [wp m Q X s]: run from [s], [m] either returns [a] in a state that
    satisfies [Q a], or panics in a state that satisfies [X]. *)
Definition wp {St A} (m : M St A) (Q : A → St → Prop) (X : St → Prop) (s : St) : Prop :=
  match m s with
  | (Ret a, s') => Q a s'
  | (Panic _, s') => X s'
  end.

Section wp.
Context {St : Type}.
Implicit Types (s : St) (X : St → Prop).

Lemma wp_ret {A} (a : A) Q X s : Q a s → wp (mret a) Q X s.
Proof. done. Qed.

Lemma wp_bind {A B} (m : M St A) (f : A → M St B) Q X s :
  wp m (λ a s', wp (f a) Q X s') X s → wp (m ≫= f) Q X s.
Proof. unfold wp, mbind, M_bind. by destruct (m s) as [[] ?]. Qed.

Lemma wp_panic {A} msg (Q : A → St → Prop) X s : X s → wp (panic msg) Q X s.
Proof. done. Qed.

Lemma wp_gets {A} (f : St → A) Q X s : Q (f s) s → wp (gets f) Q X s.
Proof. done. Qed.

Lemma wp_modify f (Q : unit → St → Prop) X s : Q tt (f s) → wp (modify f) Q X s.
Proof. done. Qed.

Lemma wp_mono {A} (m : M St A) (Q Q' : A → St → Prop) X X' s :
  wp m Q X s → (∀ a s', Q a s' → Q' a s') → (∀ s', X s' → X' s') → wp m Q' X' s.
Proof. unfold wp. destruct (m s) as [[] ?]; auto. Qed.

Lemma wp_and {A} (m : M St A) (Q Q' : A → St → Prop) X X' s :
  wp m Q X s → wp m Q' X' s →
  wp m (λ a s', Q a s' ∧ Q' a s') (λ s', X s' ∧ X' s') s.
Proof. unfold wp. destruct (m s) as [[] ?]; auto. Qed.

(** The loop rule: an invariant indexed by the elements already visited. *)
Lemma wp_foldM {A B} (f : B → A → M St B) (I : list A → B → St → Prop) X l :
  (∀ done x todo b s, l = done ++ x :: todo → I done b s →
     wp (f b x) (λ b' s', I (done ++ [x]) b' s') X s) →
  ∀ b s, I [] b s → wp (foldM f b l) (λ b' s', I l b' s') X s.
Proof.
  intros Hstep.
  assert (∀ todo done b s, l = done ++ todo → I done b s →
    wp (foldM f b todo) (λ b' s', I l b' s') X s) as Hgen.
  { induction todo as [|x todo IH]; intros done b s Hl HI; simpl.
    - rewrite app_nil_r in Hl; subst. by apply wp_ret.
    - apply wp_bind. eapply wp_mono; [by eapply Hstep| |done].
      intros b' s' HI'. eapply IH; [|exact HI']. by rewrite <-app_assoc. }
  intros b s HI. by eapply (Hgen l []).
Qed.
End wp.

(** ** Relations every run respects

    [m] relates each state to the one it ends in, whether it returns or
    panics.  For a preorder this composes, which is how the facts about the
    trace of calls and about untouched parts of the state are derived. *)
Definition respects {St A} (R : relation St) (m : M St A) : Prop := ∀ s, R s (m s).2.

Section respects.
Context {St : Type} (R : relation St) `{!PreOrder R}.

Lemma respects_ret {A} (a : A) : respects R (mret a : M St A).
Proof. intros s. simpl. reflexivity. Qed.
Lemma respects_panic {A} msg : respects R (panic msg : M St A).
Proof. intros s. simpl. reflexivity. Qed.
Lemma respects_gets {A} (f : St → A) : respects R (gets f).
Proof. intros s. simpl. reflexivity. Qed.
Lemma respects_modify f : (∀ s, R s (f s)) → respects R (modify f).
Proof. intros Hf s. apply Hf. Qed.

Lemma respects_bind {A B} (m : M St A) (f : A → M St B) :
  respects R m → (∀ a, respects R (f a)) → respects R (m ≫= f).
Proof.
  intros Hm Hf s. specialize (Hm s). unfold mbind, M_bind.
  destruct (m s) as [[a|msg] s'] eqn:E; simpl in *; [|done].
  transitivity s'; [done|]. apply Hf.
Qed.

Lemma respects_foldM {A B} (f : B → A → M St B) b l :
  (∀ b x, respects R (f b x)) → respects R (foldM f b l).
Proof.
  intros Hf. revert b. induction l as [|x l IH]; intros b; simpl.
  - apply respects_ret.
  - apply respects_bind; auto.
Qed.

(** The continuation may rely on what the first part returns. *)
Lemma respects_bind_wp {A B} (Q : A → Prop) (m : M St A) (f : A → M St B) :
  respects R m → (∀ s, wp m (λ a _, Q a) (λ _, True) s) → (∀ a, Q a → respects R (f a)) →
  respects R (m ≫= f).
Proof.
  intros Hm HQ Hf s. specialize (Hm s). specialize (HQ s). unfold wp in HQ.
  unfold mbind, M_bind. destruct (m s) as [[a|msg] s']; simpl in *; [|done].
  transitivity s'; [done|]. by apply Hf.
Qed.
End respects.

(** [wp_step] performs one symbolic step; [wp_steps] all that apply. *)
Ltac wp_step :=
  match goal with
  | |- wp (_ ≫= _) _ _ _ => apply wp_bind
  | |- wp (mret _) _ _ _ => apply wp_ret
  | |- wp (panic _) _ _ _ => apply wp_panic
  | |- wp (gets _) _ _ _ => apply wp_gets
  | |- wp (modify _) _ _ _ => apply wp_modify
  end.
Ltac wp_steps := repeat (wp_step; cbn beta).

#[export] Hint Resolve respects_ret respects_panic respects_gets : igro.

(** ** Lists, options and strings shared by the components *)

(** [len(s) > 0] on a Go slice or map seen as a list. *)
Definition nonempty {A} (l : list A) : bool := negb (bool_decide (length l = 0)).

Lemma nonempty_true {A} (l : list A) : nonempty l = true ↔ l ≠ [].
Proof. unfold nonempty. destruct l; simpl; split; naive_solver. Qed.
Lemma nonempty_false {A} (l : list A) : nonempty l = false ↔ l = [].
Proof. unfold nonempty. destruct l; simpl; split; naive_solver. Qed.

(** Prefix order of lists as growth of a log. *)
Definition grows {A} (l l' : list A) : Prop := ∃ k, l' = l ++ k.
#[export] Instance grows_preorder {A} : PreOrder (@grows A).
Proof.
  split.
  - intros l. exists []. by rewrite app_nil_r.
  - intros l1 l2 l3 [k ->] [k' ->]. exists (k ++ k'). by rewrite app_assoc.
Qed.

(** [if s != t] is [if s == t] with its branches swapped. *)
Lemma if_ne {A} (s t : string) (a b : A) :
  (if bool_decide (s ≠ t) then a else b) = if bool_decide (s = t) then b else a.
Proof. by repeat case_bool_decide. Qed.
Lemma if_empty_id (s : string) : (if bool_decide (s = "") then "" else s) = s.
Proof. by case_bool_decide. Qed.

Lemma string_app_cons (c : ascii) (s t : string) : String c s +:+ t = String c (s +:+ t).
Proof. done. Qed.
Lemma string_app_nil (s : string) : "" +:+ s = s.
Proof. done. Qed.
Lemma string_app_nil_r (s : string) : s +:+ "" = s.
Proof. induction s as [|c s IH]; [done|]. by rewrite string_app_cons, IH. Qed.
Lemma string_app_assoc (s t u : string) : (s +:+ t) +:+ u = s +:+ (t +:+ u).
Proof. induction s as [|c s IH]; [done|]. by rewrite !string_app_cons, IH. Qed.
Lemma string_length_app (s t : string) :
  String.length (s +:+ t) = String.length s + String.length t.
Proof. induction s as [|c s IH]; [done|]. rewrite string_app_cons. simpl. by rewrite IH. Qed.
Lemma string_app_inj_r (s t u : string) : s +:+ u = t +:+ u → s = t.
Proof.
  revert t. induction s as [|c s IH]; intros [|d t] H.
  - done.
  - apply (f_equal String.length) in H. rewrite !string_length_app in H. simpl in H. lia.
  - apply (f_equal String.length) in H. rewrite !string_length_app in H. simpl in H. lia.
  - rewrite !string_app_cons in H. injection H as -> H. f_equal. by apply IH.
Qed.
#[export] Hint Rewrite string_app_nil string_app_nil_r string_app_assoc string_app_cons
  string_length_app : igro.
