(* ===== verification/GoStd.v ===== *)
(** * The part of Go and its standard library the operator relies on

    Fixed-width integers with their wrap-around, the [strings], [strconv],
    [sort] and [time] functions the source calls, on byte strings.  Instants
    ([time.Time]) are nanoseconds since the zero [Time]; durations are int64
    nanoseconds. *)
From Stdlib Require Import SpecFloat.
From S2P Require Import Prelude.
Local Open Scope Z_scope.

(** ** Machine integers *)

Definition wrapS (w z : Z) : Z := (z + 2 ^ (w - 1)) mod 2 ^ w - 2 ^ (w - 1).
Definition int32 : Z → Z := wrapS 32.
Definition int64 : Z → Z := wrapS 64.
Definition uint32 (z : Z) : Z := z mod 2 ^ 32.
Definition uint64 (z : Z) : Z := z mod 2 ^ 64.

Definition isInt32 (z : Z) : Prop := -2147483648 ≤ z ≤ 2147483647.
Definition isInt64 (z : Z) : Prop := -9223372036854775808 ≤ z ≤ 9223372036854775807.
#[export] Instance isInt32_dec z : Decision (isInt32 z).
Proof. unfold isInt32. apply _. Defined.
#[export] Instance isInt64_dec z : Decision (isInt64 z).
Proof. unfold isInt64. apply _. Defined.

Lemma int32_id z : isInt32 z → int32 z = z.
Proof.
  unfold isInt32, int32, wrapS. intros H. change (32 - 1) with 31.
  change (2 ^ 31) with 2147483648. change (2 ^ 32) with 4294967296.
  rewrite Z.mod_small; lia.
Qed.
Lemma int64_id z : isInt64 z → int64 z = z.
Proof.
  unfold isInt64, int64, wrapS. intros H. change (64 - 1) with 63.
  change (2 ^ 63) with 9223372036854775808. change (2 ^ 64) with 18446744073709551616.
  rewrite Z.mod_small; lia.
Qed.
Lemma int32_range z : isInt32 (int32 z).
Proof.
  unfold isInt32, int32, wrapS. change (32 - 1) with 31.
  change (2 ^ 31) with 2147483648. change (2 ^ 32) with 4294967296.
  pose proof (Z.mod_pos_bound (z + 2147483648) 4294967296). lia.
Qed.
Lemma int32_mod z : (int32 z - z) mod 2 ^ 32 = 0.
Proof.
  unfold int32, wrapS. change (32 - 1) with 31.
  pose proof (Z.div_mod (z + 2 ^ 31) (2 ^ 32) ltac:(done)) as Hd.
  replace ((z + 2 ^ 31) mod 2 ^ 32 - 2 ^ 31 - z)
    with (- ((z + 2 ^ 31) / 2 ^ 32) * 2 ^ 32) by lia.
  by apply Z_mod_mult.
Qed.
Lemma uint32_id z : 0 ≤ z ≤ 4294967295 → uint32 z = z.
Proof. intros H. unfold uint32. change (2 ^ 32) with 4294967296. rewrite Z.mod_small; lia. Qed.

(** [%d] *)
Definition fmt_d (z : Z) : string := pretty z.

(** ** strings *)

Fixpoint str_drop (n : nat) (s : string) : string :=
  match n, s with
  | S n, String _ s' => str_drop n s'
  | _, _ => s
  end.

Fixpoint HasPrefix (s pre : string) {struct pre} : bool :=
  match pre, s with
  | EmptyString, _ => true
  | String c pre', String d s' => bool_decide (c = d) && HasPrefix s' pre'
  | String _ _, EmptyString => false
  end.

Definition HasSuffix (s suf : string) : bool :=
  bool_decide (String.length suf ≤ String.length s)%nat &&
  bool_decide (str_drop (String.length s - String.length suf) s = suf).

Definition TrimPrefix (s pre : string) : string :=
  if HasPrefix s pre then str_drop (String.length pre) s else s.

(** [strings.Join(l, sep)] *)
Definition Join (l : list string) (sep : string) : string := String.concat sep l.

(** [strings.NewReplacer] with single-byte old strings: a byte map. *)
Fixpoint str_map (f : ascii → ascii) (s : string) : string :=
  match s with
  | EmptyString => EmptyString
  | String c s' => String (f c) (str_map f s')
  end.

(** The order of Go's [<] on strings, and [sort.Strings]. *)
Definition str_lt (s t : string) : bool := String.ltb s t.
Definition sort_Strings (l : list string) : list string := merge_sort String.le l.

Lemma str_drop_length (s t : string) : str_drop (String.length s) (s +:+ t) = t.
Proof. induction s as [|c s IH]; [by destruct t|]. exact IH. Qed.

Lemma HasPrefix_spec s pre : HasPrefix s pre = true ↔ ∃ t, s = pre +:+ t.
Proof.
  revert s. induction pre as [|c pre IH]; intros s; simpl.
  - split; [|done]. intros _. by exists s.
  - destruct s as [|d s].
    + split; [done|]. intros [t Ht]. done.
    + rewrite andb_true_iff, bool_decide_eq_true, IH. split.
      * intros [-> [t ->]]. by exists t.
      * intros [t Ht]. rewrite string_app_cons in Ht. injection Ht as -> ->. eauto.
Qed.

Lemma str_drop_split n s :
  (n ≤ String.length s)%nat → ∃ p, s = p +:+ str_drop n s ∧ String.length p = n.
Proof.
  revert s. induction n as [|n IH]; intros s Hn.
  - exists "". by destruct s.
  - destruct s as [|c s]; simpl in *; [lia|].
    destruct (IH s) as [p [Hp Hl]]; [lia|]. exists (String c p).
    split; [|simpl; by rewrite Hl]. rewrite string_app_cons. by f_equal.
Qed.

Lemma HasSuffix_spec s suf : HasSuffix s suf = true ↔ ∃ p, s = p +:+ suf.
Proof.
  unfold HasSuffix. rewrite andb_true_iff, !bool_decide_eq_true. split.
  - intros [Hl Hd]. destruct (str_drop_split (String.length s - String.length suf) s)
      as [p [Hp _]]; [lia|]. exists p. by rewrite Hd in Hp.
  - intros [p ->]. rewrite string_length_app. split; [lia|].
    replace (String.length p + String.length suf - String.length suf)%nat
      with (String.length p) by lia. apply str_drop_length.
Qed.

Lemma TrimPrefix_app pre s : TrimPrefix (pre +:+ s) pre = s.
Proof.
  unfold TrimPrefix. assert (HasPrefix (pre +:+ s) pre = true) as ->
    by (apply HasPrefix_spec; eauto). apply str_drop_length.
Qed.

Lemma sort_Strings_perm l : sort_Strings l ≡ₚ l.
Proof. apply merge_sort_Permutation. Qed.
Lemma sort_Strings_sorted l : StronglySorted String.le (sort_Strings l).
Proof. apply StronglySorted_merge_sort; apply _. Qed.

(** The result does not depend on the order the elements come in, which is
    what makes ranging over a Go map before sorting deterministic. *)
Lemma sort_Strings_canonical l l' : l ≡ₚ l' → sort_Strings l = sort_Strings l'.
Proof.
  intros Hp. eapply (StronglySorted_unique String.le);
    [apply sort_Strings_sorted..|]. by rewrite !sort_Strings_perm.
Qed.

(** ** strconv *)

Definition is_digit (c : ascii) : bool :=
  let n := N_of_ascii c in (48 <=? n)%N && (n <=? 57)%N.
Definition digit_val (c : ascii) : Z := Z.of_N (N_of_ascii c) - 48.

Inductive numErr := ErrSyntax | ErrRange.
#[export] Instance numErr_eq_dec : EqDecision numErr.
Proof. solve_decision. Defined.

(** [strconv.ParseUint(s, 10, bits)]: the loop over the bytes of [s], in
    uint64 arithmetic, with its cutoff and its two error kinds. *)
Definition parseUint_cutoff : Z := 1844674407370955162.
Fixpoint parseUint_loop (maxVal n : Z) (s : string) : numErr + Z :=
  match s with
  | EmptyString => inr n
  | String c s' =>
      if negb (is_digit c) then inl ErrSyntax
      else if parseUint_cutoff <=? n then inl ErrRange
      else
        let n10 := uint64 (n * 10) in
        let n1 := uint64 (n10 + digit_val c) in
        if (n1 <? n10) || (maxVal <? n1) then inl ErrRange
        else parseUint_loop maxVal n1 s'
  end.
Definition ParseUint (s : string) (bits : Z) : numErr + Z :=
  match s with
  | EmptyString => inl ErrSyntax
  | _ => parseUint_loop (2 ^ bits - 1) 0 s
  end.

(** The number a string of digits denotes, read after [acc]. *)
Fixpoint decimal_from (acc : Z) (s : string) : Z :=
  match s with
  | EmptyString => acc
  | String c s' => decimal_from (acc * 10 + digit_val c) s'
  end.
Fixpoint all_digits (s : string) : bool :=
  match s with
  | EmptyString => true
  | String c s' => is_digit c && all_digits s'
  end.

Lemma digit_val_range c : is_digit c = true → 0 ≤ digit_val c ≤ 9.
Proof.
  unfold is_digit, digit_val. rewrite andb_true_iff, !N.leb_le. lia.
Qed.

Lemma decimal_from_ge acc s : all_digits s = true → 0 ≤ acc → acc ≤ decimal_from acc s.
Proof.
  revert acc. induction s as [|c s IH]; intros acc; simpl; [lia|].
  intros [Hc Hs]%andb_true_iff Hacc. apply digit_val_range in Hc.
  specialize (IH (acc * 10 + digit_val c) Hs). lia.
Qed.

Lemma parseUint_loop_spec bits n s v :
  0 ≤ bits ≤ 32 → 0 ≤ n ≤ 2 ^ bits - 1 →
  parseUint_loop (2 ^ bits - 1) n s = inr v ↔
  all_digits s = true ∧ decimal_from n s = v ∧ v ≤ 2 ^ bits - 1.
Proof.
  intros Hbits. assert (2 ^ bits ≤ 4294967296) as Hp
    by (change 4294967296 with (2 ^ 32); apply Z.pow_le_mono_r; lia).
  revert n. induction s as [|c s IH]; intros n Hn; simpl.
  { split; [intros [= <-]|intros (_ & <- & _)]; [|done]. split_and!; try done; lia. }
  destruct (is_digit c) eqn:Hc; simpl; [|split; [done|by intros [? _]]].
  pose proof (digit_val_range c Hc) as Hd. unfold parseUint_cutoff.
  destruct (Z.leb_spec 1844674407370955162 n); [lia|].
  assert (uint64 (n * 10) = n * 10) as ->
    by (unfold uint64; change (2 ^ 64) with 18446744073709551616; rewrite Z.mod_small; lia).
  assert (uint64 (n * 10 + digit_val c) = n * 10 + digit_val c) as ->
    by (unfold uint64; change (2 ^ 64) with 18446744073709551616; rewrite Z.mod_small; lia).
  destruct (Z.ltb_spec (n * 10 + digit_val c) (n * 10)); [lia|]; simpl.
  destruct (Z.ltb_spec (2 ^ bits - 1) (n * 10 + digit_val c)) as [Hgt|Hle].
  - split; [done|]. intros (Hs & <- & Hv).
    pose proof (decimal_from_ge (n * 10 + digit_val c) s Hs). lia.
  - apply IH. lia.
Qed.

(** What [ParseUint] accepts: exactly the non-empty digit strings whose value
    fits, with that value. *)
Lemma ParseUint_spec bits s v :
  0 ≤ bits ≤ 32 →
  ParseUint s bits = inr v ↔
  s ≠ "" ∧ all_digits s = true ∧ decimal_from 0 s = v ∧ v ≤ 2 ^ bits - 1.
Proof.
  intros Hb. assert (0 ≤ 0 ≤ 2 ^ bits - 1) as H0
    by (pose proof (Z.pow_pos_nonneg 2 bits); lia).
  unfold ParseUint. destruct s as [|c s].
  - split; [done|]. by intros (? & _).
  - rewrite parseUint_loop_spec by done. split; [intros ?; by split|by intros [_ ?]].
Qed.

(** The decimal text [%d] prints of a natural number. *)
Lemma pretty_N_char_digit (x : N) :
  (x < 10)%N → is_digit (pretty_N_char x) = true ∧ digit_val (pretty_N_char x) = Z.of_N x.
Proof.
  intros Hx. assert (x = 0 ∨ x = 1 ∨ x = 2 ∨ x = 3 ∨ x = 4 ∨ x = 5 ∨ x = 6 ∨ x = 7
    ∨ x = 8 ∨ x = 9)%N as Hc by lia. destruct_or! Hc; subst; by vm_compute.
Qed.

Lemma pretty_N_go_decimal (x : N) s :
  all_digits s = true →
  all_digits (pretty_N_go x s) = true ∧
  decimal_from 0 (pretty_N_go x s) = decimal_from (Z.of_N x) s.
Proof.
  revert s. induction (N.lt_wf_0 x) as [x _ IH]; intros s Hs.
  destruct (decide (x = 0)%N) as [->|Hx]; [done|].
  rewrite pretty_N_go_step by lia.
  assert (x mod 10 < 10)%N as Hm by (by apply N.mod_lt).
  destruct (pretty_N_char_digit _ Hm) as [Hd Hv].
  destruct (IH (x / 10)%N ltac:(apply N.div_lt; lia)
    (String (pretty_N_char (x mod 10)) s)) as [H1 H2].
  { simpl. by rewrite Hd. }
  split; [done|]. rewrite H2. simpl. rewrite Hv. f_equal.
  pose proof (N.div_mod x 10 ltac:(done)). lia.
Qed.

Lemma pretty_N_nonempty (x : N) : pretty x ≠ "".
Proof.
  unfold pretty, pretty_N. case_decide as Hx; [done|]. intros He.
  destruct (pretty_N_go_decimal x "" eq_refl) as [_ Hd]. rewrite He in Hd. simpl in Hd. lia.
Qed.

Lemma fmt_d_decimal z : 0 ≤ z →
  fmt_d z ≠ "" ∧ all_digits (fmt_d z) = true ∧ decimal_from 0 (fmt_d z) = z.
Proof.
  intros Hz. assert (∃ x : N, z = Z.of_N x) as [x ->] by (exists (Z.to_N z); lia).
  assert (fmt_d (Z.of_N x) = pretty x) as -> by (by destruct x).
  split; [apply pretty_N_nonempty|]. unfold pretty, pretty_N.
  case_decide as Hx; [by subst|].
  destruct (pretty_N_go_decimal x "" eq_refl) as [H1 H2]. split; [done|]. by rewrite H2.
Qed.

#[export] Instance fmt_d_inj : Inj (=) (=) fmt_d.
Proof. intros x y H. by apply (inj pretty) in H. Qed.

Lemma all_digits_app s t : all_digits (s +:+ t) = all_digits s && all_digits t.
Proof.
  induction s as [|c s IH]; [done|]. rewrite string_app_cons. simpl. rewrite IH.
  by rewrite andb_assoc.
Qed.

(** ** The order of strings *)

Lemma str_lt_le s t : str_lt s t = true ↔ String.le s t ∧ s ≠ t.
Proof.
  unfold str_lt, String.ltb, String.le, String.leb.
  destruct (String.compare s t) eqn:Hc; simpl.
  - apply String.compare_eq_iff in Hc. naive_solver.
  - split; [|done]. intros _. split; [done|]. intros ->.
    pose proof (String.compare_antisym t t) as Ha. by rewrite Hc in Ha.
  - split; [done|by intros [? _]].
Qed.

Lemma str_lt_irrefl s : str_lt s s = false.
Proof. apply not_true_is_false. rewrite str_lt_le. naive_solver. Qed.
Lemma str_lt_trans s t u : str_lt s t = true → str_lt t u = true → str_lt s u = true.
Proof.
  rewrite !str_lt_le. intros [H1 N1] [H2 N2]. split; [by etrans|].
  intros ->. apply N2. by apply (anti_symm String.le).
Qed.
Lemma str_lt_total s t : s ≠ t → str_lt s t = negb (str_lt t s).
Proof.
  intros Hne. destruct (total String.le s t) as [Hle|Hle].
  - assert (str_lt s t = true) as -> by (by rewrite str_lt_le).
    assert (str_lt t s = false) as ->; [|done]. apply not_true_is_false.
    rewrite str_lt_le. intros [Hle' _]. apply Hne. by apply (anti_symm String.le).
  - assert (str_lt t s = true) as -> by (by rewrite str_lt_le).
    apply not_true_is_false. rewrite str_lt_le. intros [Hle' _]. apply Hne.
    by apply (anti_symm String.le).
Qed.
#[export] Hint Resolve str_lt_irrefl str_lt_trans str_lt_total : igro.

(** ** Valid UTF-8

    [utf8.ValidString] as an automaton over the bytes: how many continuation
    bytes are still due, and the narrower range of the first one after the
    lead bytes E0, ED, F0 and F4. *)
Inductive utf8_state := U0 | U1 | U2 | U3 | UE0 | UED | UF0 | UF4.
Definition utf8_step (st : utf8_state) (c : ascii) : option utf8_state :=
  let b := Z.of_N (N_of_ascii c) in
  let within lo hi next := if (lo <=? b) && (b <=? hi) then Some next else None in
  match st with
  | U0 =>
      if b <? 128 then Some U0
      else if b <? 194 then None
      else if b <? 224 then Some U1
      else if b =? 224 then Some UE0
      else if b =? 237 then Some UED
      else if b <? 240 then Some U2
      else if b =? 240 then Some UF0
      else if b <? 244 then Some U3
      else if b =? 244 then Some UF4
      else None
  | U1 => within 128 191 U0
  | U2 => within 128 191 U1
  | U3 => within 128 191 U2
  | UE0 => within 160 191 U1
  | UED => within 128 159 U1
  | UF0 => within 144 191 U2
  | UF4 => within 128 143 U2
  end.
Fixpoint utf8_run (st : utf8_state) (s : string) : option utf8_state :=
  match s with
  | EmptyString => Some st
  | String c s' => match utf8_step st c with Some st' => utf8_run st' s' | None => None end
  end.
Definition ValidString (s : string) : bool :=
  match utf8_run U0 s with Some U0 => true | _ => false end.

Lemma utf8_run_app st s t :
  utf8_run st (s +:+ t) = match utf8_run st s with Some st' => utf8_run st' t | None => None end.
Proof.
  revert st. induction s as [|c s IH]; intros st; [done|]. rewrite string_app_cons. simpl.
  destruct (utf8_step st c); [apply IH|done].
Qed.

Lemma ValidString_app s t : ValidString s = true → ValidString t = true → ValidString (s +:+ t) = true.
Proof.
  unfold ValidString. rewrite utf8_run_app. by destruct (utf8_run U0 s) as [[]|].
Qed.

(** Replacing some ASCII bytes by ASCII bytes keeps a string valid. *)
Lemma ValidString_str_map f s :
  (∀ c, f c = c ∨ (Z.of_N (N_of_ascii c) < 128 ∧ Z.of_N (N_of_ascii (f c)) < 128)) →
  ValidString s = true → ValidString (str_map f s) = true.
Proof.
  intros Hf. unfold ValidString.
  assert (∀ st st', utf8_run st s = Some st' → utf8_run st (str_map f s) = Some st') as Hrun.
  { induction s as [|c s IH]; intros st st'; simpl; [done|].
    destruct (utf8_step st c) as [st1|] eqn:Hst; [|done]. intros Hr.
    assert (utf8_step st (f c) = Some st1) as ->; [|by apply IH].
    destruct (Hf c) as [->|[H1 H2]]; [done|]. revert Hst. unfold utf8_step.
    assert (0 ≤ Z.of_N (N_of_ascii c)) by lia. assert (0 ≤ Z.of_N (N_of_ascii (f c))) by lia.
    destruct st; simpl;
      repeat match goal with |- context [?x <=? ?y] => destruct (Z.leb_spec x y); try lia end;
      try done.
    destruct (Z.ltb_spec (Z.of_N (N_of_ascii c)) 128); [|lia].
    destruct (Z.ltb_spec (Z.of_N (N_of_ascii (f c))) 128); [done|lia]. }
  destruct (utf8_run U0 s) as [[]|] eqn:Hs; try done. by rewrite (Hrun _ _ Hs).
Qed.

Lemma ValidString_digits s : all_digits s = true → ValidString s = true.
Proof.
  unfold ValidString. induction s as [|c s IH]; [done|]. simpl.
  intros [Hc Hs]%andb_true_iff. pose proof (digit_val_range c Hc) as Hd.
  unfold digit_val in Hd. destruct (Z.ltb_spec (Z.of_N (N_of_ascii c)) 128); [|lia].
  by apply IH.
Qed.
