(* ===== verification/GoTime.v ===== *)
(** * Go's [time]: durations, their parser and printer, instants

    A [time.Duration] is an int64 number of nanoseconds; a [time.Time] is the
    number of nanoseconds since the zero [Time] (January 1, year 1, UTC).
    [ParseDuration] follows the scanner of the standard library byte by byte,
    its float64 computation of fractions included ([SpecFloat], binary64). *)
From Stdlib Require Import SpecFloat.
From S2P Require Import Prelude GoStd.
Local Open Scope Z_scope.

Definition Nanosecond : Z := 1.
Definition Microsecond : Z := 1000.
Definition Millisecond : Z := 1000000.
Definition Second : Z := 1000000000.
Definition Minute : Z := 60 * Second.
Definition Hour : Z := 60 * Minute.

Definition maxDuration : Z := 9223372036854775807.
Definition minDuration : Z := -9223372036854775808.

(** ** ParseDuration *)

(** float64 arithmetic, as used for the fraction of a duration. *)
Definition f64 (z : Z) : spec_float := binary_normalize 53 1024 z 0 false.
Definition f64_mul : spec_float → spec_float → spec_float := SFmul 53 1024.
Definition f64_div : spec_float → spec_float → spec_float := SFdiv 53 1024.
Definition f64_trunc (f : spec_float) : Z :=
  match f with
  | S754_finite false m e => if 0 <=? e then Zpos m * 2 ^ e else Zpos m / 2 ^ (- e)
  | _ => 0
  end.

Arguments f64 : simpl never.
Arguments f64_mul : simpl never.
Arguments f64_div : simpl never.
Arguments uint64 : simpl never.

Fixpoint leadingInt (x : Z) (s : string) : option (Z * string) :=
  match s with
  | EmptyString => Some (x, s)
  | String c s' =>
      if is_digit c then
        if 2 ^ 63 / 10 <? x then None
        else
          let x' := uint64 (x * 10 + digit_val c) in
          if 2 ^ 63 <? x' then None else leadingInt x' s'
      else Some (x, s)
  end.

Fixpoint leadingFraction (x : Z) (scale : spec_float) (overflow : bool) (s : string)
    : Z * spec_float * string :=
  match s with
  | EmptyString => (x, scale, s)
  | String c s' =>
      if is_digit c then
        if overflow then leadingFraction x scale true s'
        else if (2 ^ 63 - 1) / 10 <? x then leadingFraction x scale true s'
        else
          let y := uint64 (x * 10 + digit_val c) in
          if 2 ^ 63 <? y then leadingFraction x scale true s'
          else leadingFraction y (f64_mul scale (f64 10)) false s'
      else (x, scale, s)
  end.

(** The unit: the bytes up to the next ['.'] or digit. *)
Fixpoint span_unit (s : string) : string * string :=
  match s with
  | EmptyString => (EmptyString, EmptyString)
  | String c s' =>
      if bool_decide (c = "."%char) || is_digit c then (EmptyString, s)
      else let '(u, r) := span_unit s' in (String c u, r)
  end.

(** The two spellings of the micro sign are the bytes C2 B5 and CE BC. *)
Definition micro_sign_us : string := String "194"%char (String "181"%char "s").
Definition greek_mu_us : string := String "206"%char (String "188"%char "s").

Definition unitMap (u : string) : option Z :=
  if bool_decide (u = "ns") then Some Nanosecond
  else if bool_decide (u = "us") then Some Microsecond
  else if bool_decide (u = micro_sign_us) then Some Microsecond
  else if bool_decide (u = greek_mu_us) then Some Microsecond
  else if bool_decide (u = "ms") then Some Millisecond
  else if bool_decide (u = "s") then Some Second
  else if bool_decide (u = "m") then Some Minute
  else if bool_decide (u = "h") then Some Hour
  else None.

(** One [<number><unit>] group: the nanoseconds it stands for and the rest. *)
Definition pd_group (s : string) : option (Z * string) :=
  match s with
  | EmptyString => None
  | String c _ =>
      if negb (bool_decide (c = "."%char) || is_digit c) then None else
      '(v, s1) ← leadingInt 0 s;
      let pre := negb (bool_decide (String.length s = String.length s1)) in
      let '(f, scale, s2, post) :=
        match s1 with
        | String d s1' =>
            if bool_decide (d = "."%char) then
              let '(f, scale, s2) := leadingFraction 0 (f64 1) false s1' in
              (f, scale, s2, negb (bool_decide (String.length s1' = String.length s2)))
            else (0, f64 1, s1, false)
        | EmptyString => (0, f64 1, s1, false)
        end in
      if negb pre && negb post then None else
      let '(u, s3) := span_unit s2 in
      if bool_decide (u = "") then None else
      unit ← unitMap u;
      if 2 ^ 63 / unit <? v then None else
      let v1 := uint64 (v * unit) in
      if 0 <? f then
        let v2 := uint64 (v1 + f64_trunc (f64_mul (f64 f) (f64_div (f64 unit) scale))) in
        if 2 ^ 63 <? v2 then None else Some (v2, s3)
      else Some (v1, s3)
  end.

(** The loop over the groups; [Some None] is Go's error, [None] fuel that ran
    out, which [pd_loop_fuel] excludes. *)
Fixpoint pd_loop (fuel : nat) (d : Z) (s : string) : option (option Z) :=
  match s with
  | EmptyString => Some (Some d)
  | _ =>
      match fuel with
      | O => None
      | S fuel' =>
          match pd_group s with
          | None => Some None
          | Some (v, s') =>
              let d' := uint64 (d + v) in
              if 2 ^ 63 <? d' then Some None else pd_loop fuel' d' s'
          end
      end
  end.

(** [time.ParseDuration(s)]: [None] for an error (the callers drop its text). *)
Definition ParseDuration (s : string) : option Z :=
  let '(neg, s1) :=
    match s with
    | String c s' =>
        if bool_decide (c = "-"%char) then (true, s')
        else if bool_decide (c = "+"%char) then (false, s') else (false, s)
    | EmptyString => (false, s)
    end in
  if bool_decide (s1 = "0") then Some 0
  else if bool_decide (s1 = "") then None
  else
    match pd_loop (String.length s1) 0 s1 with
    | Some (Some d) =>
        if neg then Some (int64 (- d))
        else if 2 ^ 63 - 1 <? d then None else Some d
    | _ => None
    end.

Example ParseDuration_60s : ParseDuration "60s" = Some (60 * Second).
Proof. by vm_compute. Qed.
Example ParseDuration_mixed : ParseDuration "-1h2m3.25s" = Some (-3723250000000).
Proof. by vm_compute. Qed.
Example ParseDuration_frac : ParseDuration "0.3333333333333333333h" = Some (20 * Minute).
Proof. by vm_compute. Qed.
Example ParseDuration_bad : ParseDuration "bad-duration" = None ∧ ParseDuration "3" = None.
Proof. by vm_compute. Qed.
Example ParseDuration_wrap :
  ParseDuration "9223372036854775808ns9223372036854775808ns" = Some 0.
Proof. by vm_compute. Qed.

(** *** Every group consumes input, so the loop ends *)

Lemma leadingInt_length x s v r :
  leadingInt x s = Some (v, r) → (String.length r ≤ String.length s)%nat.
Proof.
  revert x. induction s as [|c s IH]; intros x; simpl.
  { intros [= <- <-]. done. }
  repeat case_match; intros Hs; first [done|apply IH in Hs; lia|simplify_eq/=; lia].
Qed.
Lemma leadingFraction_length x sc o s v sc' r :
  leadingFraction x sc o s = (v, sc', r) → (String.length r ≤ String.length s)%nat.
Proof.
  revert x sc o. induction s as [|c s IH]; intros x sc o; simpl.
  { by intros [= <- <- <-]. }
  repeat case_match; intros Hs; first [apply IH in Hs; lia|simplify_eq/=; lia].
Qed.
Lemma span_unit_length s u r :
  span_unit s = (u, r) → String.length s = (String.length u + String.length r)%nat.
Proof.
  revert u r. induction s as [|c s IH]; intros u r; simpl; [by intros [= <- <-]|].
  case_match; [by intros [= <- <-]|].
  destruct (span_unit s) as [u' r'] eqn:E. intros [= <- <-]. simpl. by rewrite (IH u' r').
Qed.

Lemma pd_group_shorter s v r :
  pd_group s = Some (v, r) → (String.length r < String.length s)%nat.
Proof.
  unfold pd_group. destruct s as [|c s]; [done|].
  destruct (negb (bool_decide (c = "."%char) || is_digit c)); [done|].
  destruct (leadingInt 0 (String c s)) as [[n s1]|] eqn:E1; [|done]. cbn [mbind option_bind].
  apply leadingInt_length in E1.
  destruct (match s1 with EmptyString => _ | String _ _ => _ end)
    as [[[f scale] s2] post] eqn:E2.
  assert (String.length s2 ≤ String.length s1)%nat as H2.
  { destruct s1 as [|d s1']; [by simplify_eq/=|]. case_match; [|by simplify_eq/=].
    destruct (leadingFraction 0 (f64 1) false s1') as [[f' sc'] s2'] eqn:E3 in E2.
    apply leadingFraction_length in E3. injection E2 as <- <- <- <-. simpl. lia. }
  cbv beta iota zeta. destruct (negb _ && negb post); [done|]. destruct (span_unit s2) as [u s3] eqn:E3.
  apply span_unit_length in E3. case_bool_decide as Hu; [done|].
  assert (0 < String.length u)%nat by (destruct u; [done|simpl; lia]).
  destruct (unitMap u) as [unit|]; [|done]. cbn [mbind option_bind].
  repeat case_match; intros Hr; first [done|injection Hr as <- <-; lia].
Qed.

Lemma pd_loop_fuel fuel d s :
  (String.length s ≤ fuel)%nat → ∃ r, pd_loop fuel d s = Some r.
Proof.
  revert d s. induction fuel as [|fuel IH]; intros d s Hl.
  { destruct s; [eexists; done|simpl in Hl; lia]. }
  destruct s as [|c s]; [eexists; done|]. cbn [pd_loop].
  destruct (pd_group (String c s)) as [[v s']|] eqn:E; [|by eexists].
  apply pd_group_shorter in E.
  destruct (2 ^ 63 <? _); [by eexists|]. apply IH. simpl in *. lia.
Qed.

Lemma uint64_range z : 0 ≤ uint64 z < 2 ^ 64.
Proof. unfold uint64. by apply Z.mod_pos_bound. Qed.

Lemma pd_loop_range fuel d s d' :
  0 ≤ d ≤ 2 ^ 63 → pd_loop fuel d s = Some (Some d') → 0 ≤ d' ≤ 2 ^ 63.
Proof.
  revert d s. induction fuel as [|fuel IH]; intros d s Hd; destruct s as [|c s];
    cbn [pd_loop].
  1,3: by intros [= <-].
  { done. }
  destruct (pd_group (String c s)) as [[v s']|]; [|done].
  destruct (2 ^ 63 <? uint64 (d + v)) eqn:Hlt; [done|]. intros Hl. apply IH in Hl; [done|].
  apply Z.ltb_ge in Hlt. pose proof (uint64_range (d + v)). lia.
Qed.

(** Whatever the text, a parsed duration fits its int64. *)
Lemma ParseDuration_isInt64 s d : ParseDuration s = Some d → isInt64 d.
Proof.
  unfold ParseDuration.
  destruct (match s with EmptyString => _ | String _ _ => _ end) as [neg s1].
  unfold isInt64. case_bool_decide; [intros [= <-]; lia|]. case_bool_decide; [done|].
  destruct (pd_loop (String.length s1) 0 s1) as [[d'|]|] eqn:E; [|done..].
  apply pd_loop_range in E; [|lia]. change (2 ^ 63) with 9223372036854775808 in E.
  destruct neg.
  - intros [= <-]. destruct (decide (d' = 9223372036854775808)) as [->|]; [by vm_compute|].
    rewrite int64_id; unfold isInt64; lia.
  - destruct (2 ^ 63 - 1 <? d') eqn:Hlt; [done|]. intros [= <-]. apply Z.ltb_ge in Hlt. lia.
Qed.

(** ** Duration arithmetic and printing *)

(** [t.Sub(u)]: the difference, saturated at the int64 bounds. *)
Definition Sub (t u : Z) : Z := Z.min maxDuration (Z.max minDuration (t - u)).

(** [d.Round(m)], half away from zero. *)
Definition lessThanHalf (x y : Z) : bool := uint64 (uint64 x + uint64 x) <? uint64 y.
Definition Round (d m : Z) : Z :=
  if m <=? 0 then d
  else
    let r := Z.rem d m in
    if d <? 0 then
      let r := int64 (- r) in
      if lessThanHalf r m then int64 (d + r)
      else let d1 := int64 (d - m + r) in if d1 <? d then d1 else minDuration
    else
      if lessThanHalf r m then int64 (d - r)
      else let d1 := int64 (d + m - r) in if d <? d1 then d1 else maxDuration.

(** Left-pad with zeroes to a width. *)
Definition pad (w : nat) (s : string) : string :=
  Nat.iter (w - String.length s) (String "0") s.

(** [fmtFrac]: the fraction of [v / 10^prec] without trailing zeroes. *)
Fixpoint fmtFrac (v : Z) (prec : nat) (printing : bool) (acc : string) : string * Z :=
  match prec with
  | O => ((if printing then "." +:+ acc else acc), v)
  | S prec' =>
      let digit := v mod 10 in
      let printing' := printing || negb (bool_decide (digit = 0)) in
      fmtFrac (v / 10) prec' printing' (if printing' then fmt_d digit +:+ acc else acc)
  end.

(** [d.String()] *)
Definition Duration_String (d : Z) : string :=
  let u := Z.abs d in
  let body :=
    if u <? Second then
      if bool_decide (u = 0) then "0s"
      else
        let '(prec, suffix) :=
          if u <? Microsecond then (0%nat, "ns")
          else if u <? Millisecond then (3%nat, micro_sign_us) else (6%nat, "ms") in
        let '(frac, v) := fmtFrac u prec false "" in fmt_d v +:+ frac +:+ suffix
    else
      let '(frac, secs) := fmtFrac u 9 false "" in
      let s := fmt_d (secs mod 60) +:+ frac +:+ "s" in
      let mins := secs / 60 in
      if 0 <? mins then
        let m := fmt_d (mins mod 60) +:+ "m" +:+ s in
        let hours := mins / 60 in
        if 0 <? hours then fmt_d hours +:+ "h" +:+ m else m
      else s in
  if d <? 0 then "-" +:+ body else body.

Example Duration_String_examples :
  Duration_String (72 * Hour) = "72h0m0s" ∧ Duration_String 1500000000 = "1.5s" ∧
  Duration_String (-2 * Minute) = "-2m0s" ∧ Duration_String 1100 = "1.1" +:+ micro_sign_us.
Proof. by vm_compute. Qed.

(** ** Instants *)

Definition zeroTime : Z := 0.
Definition IsZero (t : Z) : bool := bool_decide (t = zeroTime).
Definition Before (t u : Z) : bool := t <? u.
Definition After (t u : Z) : bool := u <? t.
Definition Add (t d : Z) : Z := t + d.

(** The proleptic Gregorian date of a day counted from January 1, year 1. *)
Definition civil_date (days : Z) : Z * Z * Z :=
  let z := days + 306 in
  let era := z / 146097 in
  let doe := z mod 146097 in
  let yoe := (doe - doe / 1460 + doe / 36524 - doe / 146096) / 365 in
  let doy := doe - (365 * yoe + yoe / 4 - yoe / 100) in
  let mp := (5 * doy + 2) / 153 in
  let day := doy - (153 * mp + 2) / 5 + 1 in
  let month := if mp <? 10 then mp + 3 else mp - 9 in
  (yoe + era * 400 + (if month <=? 2 then 1 else 0), month, day).

(** [t.Format(time.RFC3339)] for a UTC time in the years 0 to 9999. *)
Definition FormatRFC3339 (t : Z) : string :=
  let secs := t / Second in
  let '(y, mo, d) := civil_date (secs / 86400) in
  let sod := secs mod 86400 in
  pad 4 (fmt_d y) +:+ "-" +:+ pad 2 (fmt_d mo) +:+ "-" +:+ pad 2 (fmt_d d) +:+ "T" +:+
  pad 2 (fmt_d (sod / 3600)) +:+ ":" +:+ pad 2 (fmt_d (sod / 60 mod 60)) +:+ ":" +:+
  pad 2 (fmt_d (sod mod 60)) +:+ "Z".

Example FormatRFC3339_zero : FormatRFC3339 zeroTime = "0001-01-01T00:00:00Z".
Proof. by vm_compute. Qed.
Example FormatRFC3339_unix :
  FormatRFC3339 (62135596800 * Second) = "1970-01-01T00:00:00Z" ∧
  FormatRFC3339 ((62135596800 + 1709210096) * Second) = "2024-02-29T12:34:56Z".
Proof. by vm_compute. Qed.
