(* ===== verification/RouteTypes.v ===== *)
(** * The Route API (api/v1alpha1/route_types.go)

    The structs of the custom resource, field by field: a pointer is an
    [option], a slice a [list], a Go map a [gmap] (the source only ranges over
    and measures maps and slices, so nil and empty are one value), an [int32]
    or [int] a [Z].  [ObjectMeta] and [Condition] are the apimachinery structs,
    restricted to the fields the operator reads or writes. *)
From S2P Require Import Prelude.

Record NamespacedName := mkNN { nn_Namespace : string; nn_Name : string }.
#[export] Instance NamespacedName_eq_dec : EqDecision NamespacedName.
Proof. solve_decision. Defined.
#[export] Instance NamespacedName_countable : Countable NamespacedName.
Proof.
  refine (inj_countable' (λ n, (nn_Namespace n, nn_Name n)) (λ p, mkNN p.1 p.2) _).
  by intros [].
Defined.

(** A controller owner reference, by the UID-bearing parts of its owner. *)
Record OwnerReference := mkOwnerRef { or_Kind : string; or_Name : string; or_Controller : bool }.

Record ObjectMeta := mkMeta {
  m_Name : string;
  m_Namespace : string;
  m_Labels : gmap string string;
  m_ResourceVersion : string;
  m_Generation : Z;
  m_CreationTimestamp : Z;
  m_DeletionTimestamp : option Z;
  m_Finalizers : list string;
  m_OwnerReferences : list OwnerReference
}.

(** The [ObjectMeta] literal of the generated objects. *)
Definition newMeta (name namespace : string) (labels : gmap string string) : ObjectMeta :=
  mkMeta name namespace labels "" 0 0%Z None [] [].

(** ** RouteSpec *)

Record RouteBackend := mkBackend {
  be_ServiceName : string;
  be_ServicePort : Z;
  be_Protocol : string
}.

Record RouteHeaderOperations := mkHeaderOps {
  ho_Set : gmap string string;
  ho_Add : gmap string string;
  ho_Remove : list string
}.

Record RouteHeaders := mkHeaders {
  rh_Request : option RouteHeaderOperations;
  rh_Response : option RouteHeaderOperations
}.

Record RouteRule := mkRule {
  rr_Host : string;
  rr_Path : string;
  rr_Backend : RouteBackend;
  rr_Headers : option RouteHeaders
}.

Record RouteCORS := mkCORS {
  co_AllowOrigins : list string;
  co_AllowMethods : list string;
  co_AllowHeaders : list string;
  co_MaxAge : string
}.

Record RouteGateway := mkGateway { rg_Name : string; rg_Namespace : string }.

Record RouteRetries := mkRetries {
  re_Attempts : Z;
  re_PerTryTimeout : string;
  re_RetryOn : string
}.

Record RouteAuth := mkAuth {
  au_Issuer : string;
  au_JWKSURI : string;
  au_Audiences : list string;
  au_ForwardOriginalToken : option bool
}.

Record RouteRateLimit := mkRateLimit {
  rl_RequestsPerUnit : Z;
  rl_Unit : string;
  rl_Burst : option Z
}.

Record RouteCanaryRollback := mkRollback {
  rb_FiveXXThreshold : Z;
  rb_ProbePath : string;
  rb_IntervalSeconds : option Z;
  rb_CooldownSeconds : option Z
}.

Record RouteCanary := mkCanary {
  ca_Backend : RouteBackend;
  ca_Weight : Z;
  ca_RollbackOn5xx : option RouteCanaryRollback
}.

Record RouteSpec := mkSpec {
  rs_Rules : list RouteRule;
  rs_SSLRedirect : option bool;
  rs_Timeout : string;
  rs_MaxBodySize : string;
  rs_CORS : option RouteCORS;
  rs_Gateway : option RouteGateway;
  rs_Retries : option RouteRetries;
  rs_Auth : option RouteAuth;
  rs_RateLimit : option RouteRateLimit;
  rs_Canary : option RouteCanary
}.

(** ** RouteStatus *)

(** [RouteConditionType] and its constants. *)
Definition RouteConditionReady : string := "Ready".
Definition RouteConditionSynced : string := "Synced".
Definition RouteConditionCertificateHealthy : string := "CertificateHealthy".

(** [RoutePhase] and its constants. *)
Definition RoutePhasePending : string := "Pending".
Definition RoutePhaseProvisioning : string := "Provisioning".
Definition RoutePhaseActive : string := "Active".
Definition RoutePhaseDegraded : string := "Degraded".

(** [metav1.ConditionStatus] *)
Definition ConditionTrue : string := "True".
Definition ConditionFalse : string := "False".
Definition ConditionUnknown : string := "Unknown".

Record Condition := mkCondition {
  cond_Type : string;
  cond_Status : string;
  cond_Reason : string;
  cond_Message : string;
  cond_LastTransitionTime : Z;
  cond_ObservedGeneration : Z
}.

Record RouteStatus := mkStatus {
  st_Phase : string;
  st_Conditions : list Condition;
  st_ManagedResources : Z
}.

Record Route := mkRoute {
  r_Meta : ObjectMeta;
  r_Spec : RouteSpec;
  r_Status : RouteStatus
}.

Definition r_Name (r : Route) : string := m_Name (r_Meta r).
Definition r_Namespace (r : Route) : string := m_Namespace (r_Meta r).
Definition r_NN (r : Route) : NamespacedName := mkNN (r_Namespace r) (r_Name r).

(** [route.DeletionTimestamp.IsZero()]: a nil pointer and the zero time are. *)
Definition deletionIsZero (r : Route) : bool :=
  match m_DeletionTimestamp (r_Meta r) with
  | None => true
  | Some t => bool_decide (t = 0%Z)
  end.

(** ** Assignments to fields of a [Route] *)

Definition set_Finalizers (fs : list string) (r : Route) : Route :=
  let m := r_Meta r in
  mkRoute (mkMeta (m_Name m) (m_Namespace m) (m_Labels m) (m_ResourceVersion m)
             (m_Generation m) (m_CreationTimestamp m) (m_DeletionTimestamp m) fs
             (m_OwnerReferences m)) (r_Spec r) (r_Status r).
Definition set_DeletionTimestamp (t : option Z) (r : Route) : Route :=
  let m := r_Meta r in
  mkRoute (mkMeta (m_Name m) (m_Namespace m) (m_Labels m) (m_ResourceVersion m)
             (m_Generation m) (m_CreationTimestamp m) t (m_Finalizers m)
             (m_OwnerReferences m)) (r_Spec r) (r_Status r).
Definition set_Spec_Gateway (g : option RouteGateway) (r : Route) : Route :=
  let s := r_Spec r in
  mkRoute (r_Meta r)
    (mkSpec (rs_Rules s) (rs_SSLRedirect s) (rs_Timeout s) (rs_MaxBodySize s) (rs_CORS s) g
       (rs_Retries s) (rs_Auth s) (rs_RateLimit s) (rs_Canary s)) (r_Status r).
Definition set_Phase (p : string) (r : Route) : Route :=
  let s := r_Status r in
  mkRoute (r_Meta r) (r_Spec r) (mkStatus p (st_Conditions s) (st_ManagedResources s)).
Definition set_ManagedResources (n : Z) (r : Route) : Route :=
  let s := r_Status r in
  mkRoute (r_Meta r) (r_Spec r) (mkStatus (st_Phase s) (st_Conditions s) n).
Definition set_Conditions (cs : list Condition) (r : Route) : Route :=
  let s := r_Status r in
  mkRoute (r_Meta r) (r_Spec r) (mkStatus (st_Phase s) cs (st_ManagedResources s)).
