(* ===== verification/DeepCopy.v ===== *)
(** * Deep copies (api/v1alpha1/zz_generated.deepcopy.go)

    The rest of the development treats the structs of RouteTypes.v as values.
    This file justifies it for the generated copies, through which
    controller-runtime hands objects out of its cache: it models Go's memory,
    with pointers, slices over shared arrays and maps, and the structs as they
    lie in it, and shows that a deep copy reads as the original and shares no
    memory with it.

    A struct is declared once, over a representation [R] of its pointers,
    slices and maps: [inMemory], where they are addresses, and [asTree], where
    they are what they lead to.  [DeepCopyInto(out)] first assigns all of
    [*out], and [out] is new in every call of the file; it is a function from
    the contents of [*in] to those it leaves in [*out], which allocates. *)
From S2P Require Import Prelude RouteTypes.

Module DeepCopy.

(** ** Memory *)

(** A typed address; [nil] is [None]. *)
Record Ptr (A : Type) := mkPtr { addr : option positive }.
Arguments mkPtr {A}.
Arguments addr {A}.

(** A slice that is not nil: an array, the offset of its first element, its
    length and its capacity. *)
Record header := mkHeader { sl_array : positive; sl_off : nat; sl_len : nat; sl_cap : nat }.
Record Slice (A : Type) := mkSlice { hdr : option header }.
Arguments mkSlice {A}.
Arguments hdr {A}.

(** A [map[string]string]: the address of the table. *)
Record StrMap := mkStrMap { table : option positive }.

(** What stands for pointers, slices and maps in a struct. *)
Record repr := mkRepr { ptr : Type → Type; slice : Type → Type; strmap : Type }.
Definition inMemory : repr := mkRepr Ptr Slice StrMap.
Definition asTree : repr :=
  mkRepr option (λ A, option (list A)) (option (gmap string string)).

(** ** The structs, over a representation *)

Section structs.
Context (R : repr).

Record RouteHeaderOperationsOf := mkHeaderOperations {
  gho_Set : strmap R; gho_Add : strmap R; gho_Remove : slice R string }.
Record RouteHeadersOf := mkHeaders {
  grh_Request : ptr R RouteHeaderOperationsOf; grh_Response : ptr R RouteHeaderOperationsOf }.
Record RouteRuleOf := mkRule {
  grr_Host : string; grr_Path : string; grr_Backend : RouteBackend;
  grr_Headers : ptr R RouteHeadersOf }.
Record RouteCORSOf := mkCORS {
  gco_AllowOrigins : slice R string; gco_AllowMethods : slice R string;
  gco_AllowHeaders : slice R string; gco_MaxAge : string }.
Record RouteAuthOf := mkAuth {
  gau_Issuer : string; gau_JWKSURI : string; gau_Audiences : slice R string;
  gau_ForwardOriginalToken : ptr R bool }.
Record RouteRateLimitOf := mkRateLimit {
  grl_RequestsPerUnit : Z; grl_Unit : string; grl_Burst : ptr R Z }.
Record RouteCanaryRollbackOf := mkRollback {
  grb_FiveXXThreshold : Z; grb_ProbePath : string; grb_IntervalSeconds : ptr R Z;
  grb_CooldownSeconds : ptr R Z }.
Record RouteCanaryOf := mkCanary {
  gca_Backend : RouteBackend; gca_Weight : Z;
  gca_RollbackOn5xx : ptr R RouteCanaryRollbackOf }.
Record RouteSpecOf := mkSpec {
  grs_Rules : slice R RouteRuleOf; grs_SSLRedirect : ptr R bool; grs_Timeout : string;
  grs_MaxBodySize : string; grs_CORS : ptr R RouteCORSOf; grs_Gateway : ptr R RouteGateway;
  grs_Retries : ptr R RouteRetries; grs_Auth : ptr R RouteAuthOf;
  grs_RateLimit : ptr R RouteRateLimitOf; grs_Canary : ptr R RouteCanaryOf }.
Record RouteStatusOf := mkStatus {
  gst_Phase : string; gst_Conditions : slice R Condition; gst_ManagedResources : Z }.

(** The structs of apimachinery: the fields of RouteTypes.v. *)
Record TypeMeta := mkTypeMeta { tm_Kind : string; tm_APIVersion : string }.
Record ObjectMetaOf := mkObjectMeta {
  gm_Name : string; gm_Namespace : string; gm_Labels : strmap R; gm_ResourceVersion : string;
  gm_Generation : Z; gm_CreationTimestamp : Z; gm_DeletionTimestamp : ptr R Z;
  gm_Finalizers : slice R string; gm_OwnerReferences : slice R OwnerReference }.
Record ListMetaOf := mkListMeta {
  glm_ResourceVersion : string; glm_Continue : string; glm_RemainingItemCount : ptr R Z }.

Record RouteOf := mkRoute {
  gr_TypeMeta : TypeMeta; gr_ObjectMeta : ObjectMetaOf; gr_Spec : RouteSpecOf;
  gr_Status : RouteStatusOf }.
Record RouteListOf := mkRouteList {
  grt_TypeMeta : TypeMeta; grt_ListMeta : ListMetaOf; grt_Items : slice R RouteOf }.
End structs.
Arguments mkHeaderOperations {R}. Arguments gho_Set {R}. Arguments gho_Add {R}. Arguments
gho_Remove {R}.
Arguments mkHeaders {R}. Arguments grh_Request {R}. Arguments grh_Response {R}.
Arguments mkRule {R}. Arguments grr_Host {R}. Arguments grr_Path {R}. Arguments grr_Backend {R}.
Arguments grr_Headers {R}.
Arguments mkCORS {R}. Arguments gco_AllowOrigins {R}. Arguments gco_AllowMethods {R}. Arguments
gco_AllowHeaders {R}. Arguments gco_MaxAge {R}.
Arguments mkAuth {R}. Arguments gau_Issuer {R}. Arguments gau_JWKSURI {R}. Arguments gau_Audiences
{R}. Arguments gau_ForwardOriginalToken {R}.
Arguments mkRateLimit {R}. Arguments grl_RequestsPerUnit {R}. Arguments grl_Unit {R}. Arguments
grl_Burst {R}.
Arguments mkRollback {R}. Arguments grb_FiveXXThreshold {R}. Arguments grb_ProbePath {R}.
Arguments grb_IntervalSeconds {R}. Arguments grb_CooldownSeconds {R}.
Arguments mkCanary {R}. Arguments gca_Backend {R}. Arguments gca_Weight {R}. Arguments
gca_RollbackOn5xx {R}.
Arguments mkSpec {R}. Arguments grs_Rules {R}. Arguments grs_SSLRedirect {R}. Arguments
grs_Timeout {R}. Arguments grs_MaxBodySize {R}. Arguments grs_CORS {R}. Arguments grs_Gateway {R}.
Arguments grs_Retries {R}. Arguments grs_Auth {R}. Arguments grs_RateLimit {R}. Arguments
grs_Canary {R}.
Arguments mkStatus {R}. Arguments gst_Phase {R}. Arguments gst_Conditions {R}. Arguments
gst_ManagedResources {R}.
Arguments mkObjectMeta {R}. Arguments gm_Name {R}. Arguments gm_Namespace {R}. Arguments gm_Labels
{R}. Arguments gm_ResourceVersion {R}. Arguments gm_Generation {R}. Arguments gm_CreationTimestamp
{R}. Arguments gm_DeletionTimestamp {R}. Arguments gm_Finalizers {R}. Arguments gm_OwnerReferences
{R}.
Arguments mkListMeta {R}. Arguments glm_ResourceVersion {R}. Arguments glm_Continue {R}. Arguments
glm_RemainingItemCount {R}.
Arguments mkRoute {R}. Arguments gr_TypeMeta {R}. Arguments gr_ObjectMeta {R}. Arguments gr_Spec
{R}. Arguments gr_Status {R}.
Arguments mkRouteList {R}. Arguments grt_TypeMeta {R}. Arguments grt_ListMeta {R}. Arguments
grt_Items {R}.

(** Allocated objects, by type; [int32], [int64] and [Time] are integers. *)
Inductive obj : Type :=
| OBool (b : bool)
| OInt (z : Z)
| OStrMap (m : gmap string string)
| OHeaderOperations (x : RouteHeaderOperationsOf inMemory)
| OHeaders (x : RouteHeadersOf inMemory)
| ORule (x : RouteRuleOf inMemory)
| OBackend (x : RouteBackend)
| OCORS (x : RouteCORSOf inMemory)
| OGateway (x : RouteGateway)
| ORetries (x : RouteRetries)
| OAuth (x : RouteAuthOf inMemory)
| ORateLimit (x : RouteRateLimitOf inMemory)
| ORollback (x : RouteCanaryRollbackOf inMemory)
| OCanary (x : RouteCanaryOf inMemory)
| OSpec (x : RouteSpecOf inMemory)
| OStatus (x : RouteStatusOf inMemory)
| ORoute (x : RouteOf inMemory)
| ORouteList (x : RouteListOf inMemory)
| OStrings (xs : list string)
| ORules (xs : list (RouteRuleOf inMemory))
| OConditions (xs : list Condition)
| OOwners (xs : list OwnerReference)
| ORoutes (xs : list (RouteOf inMemory)).

Local Notation Heap := (gmap positive obj).

(** The types of objects, with how they are stored. *)
Class Cell (A : Type) := {
  cell : A → obj;
  uncell : obj → option A;
  uncell_cell a : uncell (cell a) = Some a
}.
(** Go's zero values. *)
Class Zero (A : Type) := zero : A.

#[export] Instance Bool_cell : Cell bool.
Proof. by exists OBool (λ o, match o with OBool x => Some x | _ => None end). Defined.
#[export] Instance Int_cell : Cell Z.
Proof. by exists OInt (λ o, match o with OInt x => Some x | _ => None end). Defined.
#[export] Instance StrMap_cell : Cell (gmap string string).
Proof. by exists OStrMap (λ o, match o with OStrMap x => Some x | _ => None end). Defined.
#[export] Instance HeaderOperations_cell : Cell (RouteHeaderOperationsOf inMemory).
Proof.
  by exists OHeaderOperations (λ o, match o with OHeaderOperations x => Some x | _ => None end).
Defined.
#[export] Instance Headers_cell : Cell (RouteHeadersOf inMemory).
Proof. by exists OHeaders (λ o, match o with OHeaders x => Some x | _ => None end). Defined.
#[export] Instance Rule_cell : Cell (RouteRuleOf inMemory).
Proof. by exists ORule (λ o, match o with ORule x => Some x | _ => None end). Defined.
#[export] Instance Backend_cell : Cell RouteBackend.
Proof. by exists OBackend (λ o, match o with OBackend x => Some x | _ => None end). Defined.
#[export] Instance CORS_cell : Cell (RouteCORSOf inMemory).
Proof. by exists OCORS (λ o, match o with OCORS x => Some x | _ => None end). Defined.
#[export] Instance Gateway_cell : Cell RouteGateway.
Proof. by exists OGateway (λ o, match o with OGateway x => Some x | _ => None end). Defined.
#[export] Instance Retries_cell : Cell RouteRetries.
Proof. by exists ORetries (λ o, match o with ORetries x => Some x | _ => None end). Defined.
#[export] Instance Auth_cell : Cell (RouteAuthOf inMemory).
Proof. by exists OAuth (λ o, match o with OAuth x => Some x | _ => None end). Defined.
#[export] Instance RateLimit_cell : Cell (RouteRateLimitOf inMemory).
Proof. by exists ORateLimit (λ o, match o with ORateLimit x => Some x | _ => None end). Defined.
#[export] Instance Rollback_cell : Cell (RouteCanaryRollbackOf inMemory).
Proof. by exists ORollback (λ o, match o with ORollback x => Some x | _ => None end). Defined.
#[export] Instance Canary_cell : Cell (RouteCanaryOf inMemory).
Proof. by exists OCanary (λ o, match o with OCanary x => Some x | _ => None end). Defined.
#[export] Instance Spec_cell : Cell (RouteSpecOf inMemory).
Proof. by exists OSpec (λ o, match o with OSpec x => Some x | _ => None end). Defined.
#[export] Instance Status_cell : Cell (RouteStatusOf inMemory).
Proof. by exists OStatus (λ o, match o with OStatus x => Some x | _ => None end). Defined.
#[export] Instance Route_cell : Cell (RouteOf inMemory).
Proof. by exists ORoute (λ o, match o with ORoute x => Some x | _ => None end). Defined.
#[export] Instance RouteList_cell : Cell (RouteListOf inMemory).
Proof. by exists ORouteList (λ o, match o with ORouteList x => Some x | _ => None end). Defined.
#[export] Instance Strings_cell : Cell (list string).
Proof. by exists OStrings (λ o, match o with OStrings x => Some x | _ => None end). Defined.
#[export] Instance Rules_cell : Cell (list (RouteRuleOf inMemory)).
Proof. by exists ORules (λ o, match o with ORules x => Some x | _ => None end). Defined.
#[export] Instance Conditions_cell : Cell (list Condition).
Proof. by exists OConditions (λ o, match o with OConditions x => Some x | _ => None end). Defined.
#[export] Instance Owners_cell : Cell (list OwnerReference).
Proof. by exists OOwners (λ o, match o with OOwners x => Some x | _ => None end). Defined.
#[export] Instance Routes_cell : Cell (list (RouteOf inMemory)).
Proof. by exists ORoutes (λ o, match o with ORoutes x => Some x | _ => None end). Defined.

#[export] Instance string_zero : Zero string := "".
#[export] Instance Z_zero : Zero Z := 0%Z.
#[export] Instance bool_zero : Zero bool := false.
#[export] Instance Ptr_zero A : Zero (Ptr A) := mkPtr None.
#[export] Instance Slice_zero A : Zero (Slice A) := mkSlice None.
#[export] Instance StrMap_zero : Zero StrMap := mkStrMap None.
#[export] Instance RouteBackend_zero : Zero RouteBackend :=
  RouteTypes.mkBackend zero zero zero.
#[export] Instance RouteGateway_zero : Zero RouteGateway :=
  RouteTypes.mkGateway zero zero.
#[export] Instance RouteRetries_zero : Zero RouteRetries :=
  RouteTypes.mkRetries zero zero zero.
#[export] Instance Condition_zero : Zero Condition :=
  mkCondition zero zero zero zero zero zero.
#[export] Instance OwnerReference_zero : Zero OwnerReference :=
  mkOwnerRef zero zero zero.
#[export] Instance RouteHeaderOperations_zero : Zero (RouteHeaderOperationsOf inMemory) :=
  mkHeaderOperations zero zero zero.
#[export] Instance RouteHeaders_zero : Zero (RouteHeadersOf inMemory) :=
  mkHeaders zero zero.
#[export] Instance RouteRule_zero : Zero (RouteRuleOf inMemory) :=
  mkRule zero zero zero zero.
#[export] Instance RouteCORS_zero : Zero (RouteCORSOf inMemory) :=
  mkCORS zero zero zero zero.
#[export] Instance RouteAuth_zero : Zero (RouteAuthOf inMemory) :=
  mkAuth zero zero zero zero.
#[export] Instance RouteRateLimit_zero : Zero (RouteRateLimitOf inMemory) :=
  mkRateLimit zero zero zero.
#[export] Instance RouteCanaryRollback_zero : Zero (RouteCanaryRollbackOf inMemory) :=
  mkRollback zero zero zero zero.
#[export] Instance RouteCanary_zero : Zero (RouteCanaryOf inMemory) :=
  mkCanary zero zero zero.
#[export] Instance RouteSpec_zero : Zero (RouteSpecOf inMemory) :=
  mkSpec zero zero zero zero zero zero zero zero zero zero.
#[export] Instance RouteStatus_zero : Zero (RouteStatusOf inMemory) :=
  mkStatus zero zero zero.
#[export] Instance TypeMeta_zero : Zero TypeMeta :=
  mkTypeMeta zero zero.
#[export] Instance ObjectMeta_zero : Zero (ObjectMetaOf inMemory) :=
  mkObjectMeta zero zero zero zero zero zero zero zero zero.
#[export] Instance ListMeta_zero : Zero (ListMetaOf inMemory) :=
  mkListMeta zero zero zero.
#[export] Instance Route_zero : Zero (RouteOf inMemory) :=
  mkRoute zero zero zero zero.
#[export] Instance RouteList_zero : Zero (RouteListOf inMemory) :=
  mkRouteList zero zero zero.

(** ** Go's operations on memory *)

Definition nilDereference {A} : M Heap A :=
  panic "runtime error: invalid memory address or nil pointer dereference".
Definition outOfRange {A} : M Heap A := panic "runtime error: index out of range".

Definition object `{Cell A} (h : Heap) (l : positive) : option A := h !! l ≫= uncell.

(** An address that nothing uses, for [x]. *)
Definition allocate `{Cell A} (x : A) : M Heap positive :=
  λ h, let l := fresh (dom h) in (Ret l, <[l := cell x]> h).
Definition read `{Cell A} (l : positive) : M Heap A :=
  λ h, match object h l with Some x => (Ret x, h) | None => nilDereference h end.
Definition write `{Cell A} (l : positive) (x : A) : M Heap unit := modify <[l := cell x]>.

(** [new(T)], [*p], and [*p = x] *)
Definition new A `{Cell A, Zero A} : M Heap (Ptr A) := l ← allocate zero; mret (mkPtr (Some l)).
Definition load `{Cell A} (p : Ptr A) : M Heap A :=
  match addr p with Some l => read l | None => nilDereference end.
Definition store `{Cell A} (p : Ptr A) (x : A) : M Heap unit :=
  match addr p with Some l => write l x | None => nilDereference end.

(** [make([]T, n)], [len(s)], [s[i]], and [s[i] = x] *)
Definition make A `{Cell (list A), Zero A} (n : nat) : M Heap (Slice A) :=
  l ← allocate (replicate n zero); mret (mkSlice (Some (mkHeader l 0 n n))).
Definition len {A} (s : Slice A) : nat :=
  match hdr s with Some d => sl_len d | None => 0 end.
Definition index `{Cell (list A)} (s : Slice A) (i : nat) : M Heap A :=
  match hdr s with
  | Some d =>
      xs ← read (sl_array d);
      match (if bool_decide (i < sl_len d) then xs !! (sl_off d + i) else None) with
      | Some x => mret x
      | None => outOfRange
      end
  | None => outOfRange
  end.
Definition setIndex `{Cell (list A)} (s : Slice A) (i : nat) (x : A) : M Heap unit :=
  match hdr s with
  | Some d =>
      xs ← read (sl_array d);
      if bool_decide (i < sl_len d) then write (sl_array d) (<[sl_off d + i := x]> xs)
      else outOfRange
  | None => outOfRange
  end.

(** [for key, val := range m] reads the entries, in an order that Go leaves
    open, and [m[key] = val] sets one. *)
Definition entries (m : StrMap) : M Heap (list (string * string)) :=
  match table m with
  | Some l => t ← read (A := gmap string string) l; mret (map_to_list t)
  | None => mret []
  end.
Definition setKey (m : StrMap) (kv : string * string) : M Heap unit :=
  match table m with
  | Some l => t ← read (A := gmap string string) l; write l (<[kv.1 := kv.2]> t)
  | None => panic "assignment to entry in nil map"
  end.

(** ** The generated functions

    Each [if in.F != nil { ... }] of the generated code is one of four forms.
    A nil field stays the nil that [*out = *in] put there. *)

(** [*out = new(T)], then [DeepCopyInto] from [**in] to [**out] *)
Definition copyPointer `{Cell A, Zero A} (into : A → M Heap A) (p : Ptr A) : M Heap (Ptr A) :=
  match addr p with
  | None => mret p
  | Some _ =>
      out ← new A;
      x ← load p;
      y ← into x;
      store out y;;
      mret out
  end.

(** [*out = new(T); **out = **in], for a [T] without pointers *)
Definition copyPlain `{Cell A, Zero A} (p : Ptr A) : M Heap (Ptr A) := copyPointer mret p.

(** [*out = make([]T, len( *in))], then [DeepCopyInto] from each element to its copy *)
Definition copySlice `{Cell (list A), Zero A} (into : A → M Heap A) (s : Slice A) :
    M Heap (Slice A) :=
  match hdr s with
  | None => mret s
  | Some _ =>
      out ← make A (len s);
      foldM (λ _ i, x ← index s i; y ← into x; setIndex out i y) tt (seq 0 (len s));;
      mret out
  end.

(** [*out = make([]string, len( *in)); copy( *out, *in)]: element by element *)
Definition copyStrings (s : Slice string) : M Heap (Slice string) := copySlice mret s.

(** [*out = make(map[string]string, len( *in)); for key, val := range *in { ( *out)[key] = val }] *)
Definition copyMap (m : StrMap) : M Heap StrMap :=
  match table m with
  | None => mret m
  | Some _ =>
      l ← allocate (A := gmap string string) ∅;
      let out := mkStrMap (Some l) in
      kvs ← entries m;
      foldM (λ _ kv, setKey out kv) tt kvs;;
      mret out
  end.

(** The [DeepCopyInto] of apimachinery's structs. *)
Class ApiMachinery := {
  ObjectMeta_DeepCopyInto : ObjectMetaOf inMemory → M Heap (ObjectMetaOf inMemory);
  ListMeta_DeepCopyInto : ListMetaOf inMemory → M Heap (ListMetaOf inMemory);
  Condition_DeepCopyInto : Condition → M Heap Condition
}.

Section generated.
Context `{!ApiMachinery}.

Definition RouteAuth_DeepCopyInto (x : RouteAuthOf inMemory) : M Heap (RouteAuthOf inMemory) :=
  audiences ← copyStrings (gau_Audiences x);
  forward ← copyPlain (A := bool) (gau_ForwardOriginalToken x);
  mret (mkAuth (gau_Issuer x) (gau_JWKSURI x) audiences forward : RouteAuthOf inMemory).
Definition RouteAuth_DeepCopy : Ptr (RouteAuthOf inMemory) → M Heap (Ptr (RouteAuthOf inMemory)) :=
  copyPointer RouteAuth_DeepCopyInto.

Definition RouteBackend_DeepCopyInto (x : RouteBackend) : M Heap RouteBackend := mret x.
Definition RouteBackend_DeepCopy : Ptr RouteBackend → M Heap (Ptr RouteBackend) :=
  copyPointer RouteBackend_DeepCopyInto.

Definition RouteCORS_DeepCopyInto (x : RouteCORSOf inMemory) : M Heap (RouteCORSOf inMemory) :=
  origins ← copyStrings (gco_AllowOrigins x);
  methods ← copyStrings (gco_AllowMethods x);
  headers ← copyStrings (gco_AllowHeaders x);
  mret (mkCORS origins methods headers (gco_MaxAge x) : RouteCORSOf inMemory).
Definition RouteCORS_DeepCopy : Ptr (RouteCORSOf inMemory) → M Heap (Ptr (RouteCORSOf inMemory)) :=
  copyPointer RouteCORS_DeepCopyInto.

Definition RouteCanaryRollback_DeepCopyInto (x : RouteCanaryRollbackOf inMemory) :
    M Heap (RouteCanaryRollbackOf inMemory) :=
  interval ← copyPlain (A := Z) (grb_IntervalSeconds x);
  cooldown ← copyPlain (A := Z) (grb_CooldownSeconds x);
  mret (mkRollback (grb_FiveXXThreshold x) (grb_ProbePath x) interval cooldown
    : RouteCanaryRollbackOf inMemory).
Definition RouteCanaryRollback_DeepCopy :
    Ptr (RouteCanaryRollbackOf inMemory) → M Heap (Ptr (RouteCanaryRollbackOf inMemory)) :=
  copyPointer RouteCanaryRollback_DeepCopyInto.

Definition RouteCanary_DeepCopyInto (x : RouteCanaryOf inMemory) :
    M Heap (RouteCanaryOf inMemory) :=
  rollback ← copyPointer RouteCanaryRollback_DeepCopyInto (gca_RollbackOn5xx x);
  mret (mkCanary (gca_Backend x) (gca_Weight x) rollback : RouteCanaryOf inMemory).
Definition RouteCanary_DeepCopy :
    Ptr (RouteCanaryOf inMemory) → M Heap (Ptr (RouteCanaryOf inMemory)) :=
  copyPointer RouteCanary_DeepCopyInto.

Definition RouteGateway_DeepCopyInto (x : RouteGateway) : M Heap RouteGateway := mret x.
Definition RouteGateway_DeepCopy : Ptr RouteGateway → M Heap (Ptr RouteGateway) :=
  copyPointer RouteGateway_DeepCopyInto.

Definition RouteHeaderOperations_DeepCopyInto (x : RouteHeaderOperationsOf inMemory) :
    M Heap (RouteHeaderOperationsOf inMemory) :=
  set ← copyMap (gho_Set x);
  add ← copyMap (gho_Add x);
  remove ← copyStrings (gho_Remove x);
  mret (mkHeaderOperations set add remove : RouteHeaderOperationsOf inMemory).
Definition RouteHeaderOperations_DeepCopy :
    Ptr (RouteHeaderOperationsOf inMemory) → M Heap (Ptr (RouteHeaderOperationsOf inMemory)) :=
  copyPointer RouteHeaderOperations_DeepCopyInto.

Definition RouteHeaders_DeepCopyInto (x : RouteHeadersOf inMemory) :
    M Heap (RouteHeadersOf inMemory) :=
  request ← copyPointer RouteHeaderOperations_DeepCopyInto (grh_Request x);
  response ← copyPointer RouteHeaderOperations_DeepCopyInto (grh_Response x);
  mret (mkHeaders request response : RouteHeadersOf inMemory).
Definition RouteHeaders_DeepCopy :
    Ptr (RouteHeadersOf inMemory) → M Heap (Ptr (RouteHeadersOf inMemory)) :=
  copyPointer RouteHeaders_DeepCopyInto.

Definition RouteRateLimit_DeepCopyInto (x : RouteRateLimitOf inMemory) :
    M Heap (RouteRateLimitOf inMemory) :=
  burst ← copyPlain (A := Z) (grl_Burst x);
  mret (mkRateLimit (grl_RequestsPerUnit x) (grl_Unit x) burst : RouteRateLimitOf inMemory).
Definition RouteRateLimit_DeepCopy :
    Ptr (RouteRateLimitOf inMemory) → M Heap (Ptr (RouteRateLimitOf inMemory)) :=
  copyPointer RouteRateLimit_DeepCopyInto.

Definition RouteRetries_DeepCopyInto (x : RouteRetries) : M Heap RouteRetries := mret x.
Definition RouteRetries_DeepCopy : Ptr RouteRetries → M Heap (Ptr RouteRetries) :=
  copyPointer RouteRetries_DeepCopyInto.

Definition RouteRule_DeepCopyInto (x : RouteRuleOf inMemory) : M Heap (RouteRuleOf inMemory) :=
  headers ← copyPointer RouteHeaders_DeepCopyInto (grr_Headers x);
  mret (mkRule (grr_Host x) (grr_Path x) (grr_Backend x) headers : RouteRuleOf inMemory).
Definition RouteRule_DeepCopy : Ptr (RouteRuleOf inMemory) → M Heap (Ptr (RouteRuleOf inMemory)) :=
  copyPointer RouteRule_DeepCopyInto.

Definition RouteSpec_DeepCopyInto (x : RouteSpecOf inMemory) : M Heap (RouteSpecOf inMemory) :=
  rules ← copySlice RouteRule_DeepCopyInto (grs_Rules x);
  redirect ← copyPlain (A := bool) (grs_SSLRedirect x);
  cors ← copyPointer RouteCORS_DeepCopyInto (grs_CORS x);
  gateway ← copyPlain (A := RouteGateway) (grs_Gateway x);
  retries ← copyPlain (A := RouteRetries) (grs_Retries x);
  auth ← copyPointer RouteAuth_DeepCopyInto (grs_Auth x);
  rateLimit ← copyPointer RouteRateLimit_DeepCopyInto (grs_RateLimit x);
  canary ← copyPointer RouteCanary_DeepCopyInto (grs_Canary x);
  mret (mkSpec rules redirect (grs_Timeout x) (grs_MaxBodySize x) cors gateway retries auth
    rateLimit canary : RouteSpecOf inMemory).
Definition RouteSpec_DeepCopy : Ptr (RouteSpecOf inMemory) → M Heap (Ptr (RouteSpecOf inMemory)) :=
  copyPointer RouteSpec_DeepCopyInto.

Definition RouteStatus_DeepCopyInto (x : RouteStatusOf inMemory) :
    M Heap (RouteStatusOf inMemory) :=
  conditions ← copySlice Condition_DeepCopyInto (gst_Conditions x);
  mret (mkStatus (gst_Phase x) conditions (gst_ManagedResources x) : RouteStatusOf inMemory).
Definition RouteStatus_DeepCopy :
    Ptr (RouteStatusOf inMemory) → M Heap (Ptr (RouteStatusOf inMemory)) :=
  copyPointer RouteStatus_DeepCopyInto.

Definition Route_DeepCopyInto (x : RouteOf inMemory) : M Heap (RouteOf inMemory) :=
  meta ← ObjectMeta_DeepCopyInto (gr_ObjectMeta x);
  spec ← RouteSpec_DeepCopyInto (gr_Spec x);
  status ← RouteStatus_DeepCopyInto (gr_Status x);
  mret (mkRoute (gr_TypeMeta x) meta spec status : RouteOf inMemory).
Definition Route_DeepCopy : Ptr (RouteOf inMemory) → M Heap (Ptr (RouteOf inMemory)) :=
  copyPointer Route_DeepCopyInto.

Definition RouteList_DeepCopyInto (x : RouteListOf inMemory) : M Heap (RouteListOf inMemory) :=
  meta ← ListMeta_DeepCopyInto (grt_ListMeta x);
  items ← copySlice Route_DeepCopyInto (grt_Items x);
  mret (mkRouteList (grt_TypeMeta x) meta items : RouteListOf inMemory).
Definition RouteList_DeepCopy :
    Ptr (RouteListOf inMemory) → M Heap (Ptr (RouteListOf inMemory)) :=
  copyPointer RouteList_DeepCopyInto.

(** A [runtime.Object] that is not the nil interface. *)
Inductive Object :=
| RouteObject (p : Ptr (RouteOf inMemory))
| RouteListObject (p : Ptr (RouteListOf inMemory)).

Definition Route_DeepCopyObject (p : Ptr (RouteOf inMemory)) : M Heap (option Object) :=
  c ← Route_DeepCopy p;
  match addr c with Some _ => mret (Some (RouteObject c)) | None => mret None end.
Definition RouteList_DeepCopyObject (p : Ptr (RouteListOf inMemory)) : M Heap (option Object) :=
  c ← RouteList_DeepCopy p;
  match addr c with Some _ => mret (Some (RouteListObject c)) | None => mret None end.

(** The method of the interface, by the dynamic type. *)
Definition DeepCopyObject (o : Object) : M Heap (option Object) :=
  match o with
  | RouteObject p => Route_DeepCopyObject p
  | RouteListObject p => RouteList_DeepCopyObject p
  end.
End generated.

(** ** What memory holds

    [reads h x]: what the struct [x] stands for in [h], if all its addresses
    are allocated and its slices lie within their arrays.  As a tree it keeps
    nil apart from empty, like [reflect.DeepEqual]. *)
Class Reads (A B : Type) := {
  reads : Heap → A → option B;
  reads_mono h h' x v : h ⊆ h' → reads h x = Some v → reads h' x = Some v
}.
#[export] Hint Mode Reads ! - : typeclass_instances.

Lemma object_mono `{Cell A} h h' l (x : A) :
  h ⊆ h' → object h l = Some x → object h' l = Some x.
Proof.
  unfold object. intros Hsub (o & Ho & Hx)%bind_Some. apply bind_Some. exists o.
  split; [|done]. by eapply lookup_weaken.
Qed.
Lemma object_insert `{Cell A} h l (x : A) : object (<[l := cell x]> h) l = Some x.
Proof. unfold object. rewrite lookup_insert_eq. apply uncell_cell. Qed.
Lemma object_insert_ne `{Cell A} h l l' o :
  l ≠ l' → object (A := A) (<[l := o]> h) l' = object h l'.
Proof. unfold object. intros Hne. by rewrite lookup_insert_ne. Qed.

Definition readPtr {A B} `{Cell A, Reads A B} (h : Heap) (p : Ptr A) : option (option B) :=
  match addr p with
  | None => Some None
  | Some l => x ← object (A := A) h l; y ← reads h x; Some (Some y)
  end.
Definition segment {A} (d : header) (xs : list A) : option (list A) :=
  if bool_decide (sl_off d + sl_len d ≤ length xs)
  then Some (take (sl_len d) (drop (sl_off d) xs)) else None.
Definition readSlice {A B} `{Cell (list A), Reads A B} (h : Heap) (s : Slice A) :
    option (option (list B)) :=
  match hdr s with
  | None => Some None
  | Some d =>
      xs ← object (A := list A) h (sl_array d);
      ys ← segment d xs;
      zs ← mapM (reads h) ys;
      Some (Some zs)
  end.
Definition readMap (h : Heap) (m : StrMap) : option (option (gmap string string)) :=
  match table m with
  | None => Some None
  | Some l => t ← object (A := gmap string string) h l; Some (Some t)
  end.

(** Types without addresses stand for themselves. *)
Definition flat_reads A : Reads A A.
Proof. by refine {| reads _ x := Some x |}. Defined.
#[export] Instance string_reads : Reads string string := flat_reads _.
#[export] Instance Z_reads : Reads Z Z := flat_reads _.
#[export] Instance bool_reads : Reads bool bool := flat_reads _.
#[export] Instance RouteBackend_reads : Reads RouteBackend RouteBackend := flat_reads _.
#[export] Instance RouteGateway_reads : Reads RouteGateway RouteGateway := flat_reads _.
#[export] Instance RouteRetries_reads : Reads RouteRetries RouteRetries := flat_reads _.
#[export] Instance Condition_reads : Reads Condition Condition := flat_reads _.
#[export] Instance OwnerReference_reads : Reads OwnerReference OwnerReference := flat_reads _.

#[export] Instance Ptr_reads {A B} `{!Cell A, !Reads A B} : Reads (Ptr A) (option B).
Proof.
  refine {| reads := readPtr |}. intros h h' [[l|]] v Hsub; [|done].
  unfold readPtr. simpl. intros (x & Hx & (y & Hy & [= <-])%bind_Some)%bind_Some.
  by rewrite (object_mono _ _ _ _ Hsub Hx); simpl; rewrite (reads_mono _ _ _ _ Hsub Hy).
Defined.
#[export] Instance Slice_reads {A B} `{!Cell (list A), !Reads A B} :
  Reads (Slice A) (option (list B)).
Proof.
  refine {| reads := readSlice |}. intros h h' [[d|]] v Hsub; [|done]. unfold readSlice. simpl.
  intros (xs & Hx & (ys & Hy & (zs & Hz & [= <-])%bind_Some)%bind_Some)%bind_Some.
  rewrite (object_mono _ _ _ _ Hsub Hx). simpl. rewrite Hy. simpl.
  assert (mapM (reads h') ys = Some zs) as ->; [|done].
  apply mapM_Some. apply mapM_Some in Hz. eapply Forall2_impl; [exact Hz|].
  intros x z. by apply reads_mono.
Defined.
#[export] Instance StrMap_reads : Reads StrMap (option (gmap string string)).
Proof.
  refine {| reads := readMap |}. intros h h' [[l|]] v Hsub; [|done].
  unfold readMap. simpl. intros (t & Ht & [= <-])%bind_Some.
  by rewrite (object_mono _ _ _ _ Hsub Ht).
Defined.

(** A struct stands for the struct of what its fields stand for. *)
Ltac reads_fields :=
  let Hsub := fresh in let Hr := fresh in
  intros ? ? ? ? Hsub Hr; match type of Hr with ?rd _ _ = _ => unfold rd in Hr |- * end;
  repeat (let E := fresh in let y := fresh in
          apply bind_Some in Hr as (y & E & Hr);
          rewrite (reads_mono _ _ _ _ Hsub E); cbn [mbind option_bind]);
  exact Hr.

Definition read_RouteHeaderOperations (h : Heap) (x : RouteHeaderOperationsOf inMemory) :
    option (RouteHeaderOperationsOf asTree) :=
  sets ← reads h (gho_Set x);
  add ← reads h (gho_Add x);
  remove ← reads h (gho_Remove x);
  Some (mkHeaderOperations sets add remove).
#[export] Instance RouteHeaderOperations_reads :
    Reads (RouteHeaderOperationsOf inMemory) (RouteHeaderOperationsOf asTree).
Proof. exists read_RouteHeaderOperations. reads_fields. Defined.
Definition read_RouteHeaders (h : Heap) (x : RouteHeadersOf inMemory) :
    option (RouteHeadersOf asTree) :=
  request ← reads h (grh_Request x);
  response ← reads h (grh_Response x);
  Some (mkHeaders request response).
#[export] Instance RouteHeaders_reads : Reads (RouteHeadersOf inMemory) (RouteHeadersOf asTree).
Proof. exists read_RouteHeaders. reads_fields. Defined.
Definition read_RouteRule (h : Heap) (x : RouteRuleOf inMemory) : option (RouteRuleOf asTree) :=
  headers ← reads h (grr_Headers x);
  Some (mkRule (grr_Host x) (grr_Path x) (grr_Backend x) headers).
#[export] Instance RouteRule_reads : Reads (RouteRuleOf inMemory) (RouteRuleOf asTree).
Proof. exists read_RouteRule. reads_fields. Defined.
Definition read_RouteCORS (h : Heap) (x : RouteCORSOf inMemory) : option (RouteCORSOf asTree) :=
  allowOrigins ← reads h (gco_AllowOrigins x);
  allowMethods ← reads h (gco_AllowMethods x);
  allowHeaders ← reads h (gco_AllowHeaders x);
  Some (mkCORS allowOrigins allowMethods allowHeaders (gco_MaxAge x)).
#[export] Instance RouteCORS_reads : Reads (RouteCORSOf inMemory) (RouteCORSOf asTree).
Proof. exists read_RouteCORS. reads_fields. Defined.
Definition read_RouteAuth (h : Heap) (x : RouteAuthOf inMemory) : option (RouteAuthOf asTree) :=
  audiences ← reads h (gau_Audiences x);
  forwardOriginalToken ← reads h (gau_ForwardOriginalToken x);
  Some (mkAuth (gau_Issuer x) (gau_JWKSURI x) audiences forwardOriginalToken).
#[export] Instance RouteAuth_reads : Reads (RouteAuthOf inMemory) (RouteAuthOf asTree).
Proof. exists read_RouteAuth. reads_fields. Defined.
Definition read_RouteRateLimit (h : Heap) (x : RouteRateLimitOf inMemory) :
    option (RouteRateLimitOf asTree) :=
  burst ← reads h (grl_Burst x);
  Some (mkRateLimit (grl_RequestsPerUnit x) (grl_Unit x) burst).
#[export] Instance RouteRateLimit_reads :
    Reads (RouteRateLimitOf inMemory) (RouteRateLimitOf asTree).
Proof. exists read_RouteRateLimit. reads_fields. Defined.
Definition read_RouteCanaryRollback (h : Heap) (x : RouteCanaryRollbackOf inMemory) :
    option (RouteCanaryRollbackOf asTree) :=
  intervalSeconds ← reads h (grb_IntervalSeconds x);
  cooldownSeconds ← reads h (grb_CooldownSeconds x);
  Some (mkRollback (grb_FiveXXThreshold x) (grb_ProbePath x) intervalSeconds
    cooldownSeconds).
#[export] Instance RouteCanaryRollback_reads :
    Reads (RouteCanaryRollbackOf inMemory) (RouteCanaryRollbackOf asTree).
Proof. exists read_RouteCanaryRollback. reads_fields. Defined.
Definition read_RouteCanary (h : Heap) (x : RouteCanaryOf inMemory) :
    option (RouteCanaryOf asTree) :=
  rollbackOn5xx ← reads h (gca_RollbackOn5xx x);
  Some (mkCanary (gca_Backend x) (gca_Weight x) rollbackOn5xx).
#[export] Instance RouteCanary_reads : Reads (RouteCanaryOf inMemory) (RouteCanaryOf asTree).
Proof. exists read_RouteCanary. reads_fields. Defined.
Definition read_RouteSpec (h : Heap) (x : RouteSpecOf inMemory) : option (RouteSpecOf asTree) :=
  rules ← reads h (grs_Rules x);
  sSLRedirect ← reads h (grs_SSLRedirect x);
  cORS ← reads h (grs_CORS x);
  gateway ← reads h (grs_Gateway x);
  retries ← reads h (grs_Retries x);
  auth ← reads h (grs_Auth x);
  rateLimit ← reads h (grs_RateLimit x);
  canary ← reads h (grs_Canary x);
  Some (mkSpec rules sSLRedirect (grs_Timeout x) (grs_MaxBodySize x) cORS gateway
    retries auth rateLimit canary).
#[export] Instance RouteSpec_reads : Reads (RouteSpecOf inMemory) (RouteSpecOf asTree).
Proof. exists read_RouteSpec. reads_fields. Defined.
Definition read_RouteStatus (h : Heap) (x : RouteStatusOf inMemory) :
    option (RouteStatusOf asTree) :=
  conditions ← reads h (gst_Conditions x);
  Some (mkStatus (gst_Phase x) conditions (gst_ManagedResources x)).
#[export] Instance RouteStatus_reads : Reads (RouteStatusOf inMemory) (RouteStatusOf asTree).
Proof. exists read_RouteStatus. reads_fields. Defined.
Definition read_ObjectMeta (h : Heap) (x : ObjectMetaOf inMemory) : option (ObjectMetaOf asTree) :=
  labels ← reads h (gm_Labels x);
  deletionTimestamp ← reads h (gm_DeletionTimestamp x);
  finalizers ← reads h (gm_Finalizers x);
  ownerReferences ← reads h (gm_OwnerReferences x);
  Some (mkObjectMeta (gm_Name x) (gm_Namespace x) labels (gm_ResourceVersion x)
    (gm_Generation x) (gm_CreationTimestamp x) deletionTimestamp finalizers
    ownerReferences).
#[export] Instance ObjectMeta_reads : Reads (ObjectMetaOf inMemory) (ObjectMetaOf asTree).
Proof. exists read_ObjectMeta. reads_fields. Defined.
Definition read_ListMeta (h : Heap) (x : ListMetaOf inMemory) : option (ListMetaOf asTree) :=
  remainingItemCount ← reads h (glm_RemainingItemCount x);
  Some (mkListMeta (glm_ResourceVersion x) (glm_Continue x) remainingItemCount).
#[export] Instance ListMeta_reads : Reads (ListMetaOf inMemory) (ListMetaOf asTree).
Proof. exists read_ListMeta. reads_fields. Defined.
Definition read_Route (h : Heap) (x : RouteOf inMemory) : option (RouteOf asTree) :=
  objectMeta ← reads h (gr_ObjectMeta x);
  spec ← reads h (gr_Spec x);
  status ← reads h (gr_Status x);
  Some (mkRoute (gr_TypeMeta x) objectMeta spec status).
#[export] Instance Route_reads : Reads (RouteOf inMemory) (RouteOf asTree).
Proof. exists read_Route. reads_fields. Defined.
Definition read_RouteList (h : Heap) (x : RouteListOf inMemory) : option (RouteListOf asTree) :=
  listMeta ← reads h (grt_ListMeta x);
  items ← reads h (grt_Items x);
  Some (mkRouteList (grt_TypeMeta x) listMeta items).
#[export] Instance RouteList_reads : Reads (RouteListOf inMemory) (RouteListOf asTree).
Proof. exists read_RouteList. reads_fields. Defined.

(** ** Running a copy

    [allocs h m Q]: from [h], [m] returns and leaves [h] as it was, beside what
    it allocated, which satisfies [Q] with the value returned. *)
Definition allocs {A} (h : Heap) (m : M Heap A) (Q : Heap → A → Prop) : Prop :=
  ∃ a hf, m h = (Ret a, h ∪ hf) ∧ h ##ₘ hf ∧ Q hf a.

(** The contract of a [DeepCopyInto]: the copy reads, in the new memory alone,
    as the original does. *)
Class Copies {A B} `{Reads A B} (into : A → M Heap A) : Prop :=
  copies h x v : reads h x = Some v → allocs h (into x) (λ hf x', reads hf x' = Some v).

Lemma allocs_ret {A} h (a : A) (Q : Heap → A → Prop) : Q ∅ a → allocs h (mret a) Q.
Proof.
  intros HQ. exists a, ∅. rewrite (right_id_L ∅ (∪)). split; [done|].
  split; [apply map_disjoint_empty_r|done].
Qed.
Lemma allocs_bind {A A'} h (m : M Heap A) (k : A → M Heap A') Q1 (Q : Heap → A' → Prop) :
  allocs h m Q1 →
  (∀ a hf, h ##ₘ hf → Q1 hf a →
     allocs (h ∪ hf) (k a) (λ hf2 b, hf ##ₘ hf2 → Q (hf ∪ hf2) b)) →
  allocs h (m ≫= k) Q.
Proof.
  intros (a & hf & Hm & Hd & H1) Hk. destruct (Hk a hf Hd H1) as (b & hf2 & Hm2 & Hd2 & HQ).
  apply map_disjoint_union_l in Hd2 as [Hd2 Hd2']. exists b, (hf ∪ hf2).
  unfold mbind, M_bind. rewrite Hm, Hm2, (assoc_L (∪)). split; [done|].
  split; [by apply map_disjoint_union_r|by apply HQ].
Qed.

Lemma flat_copies {A} `{!Reads A A} :
  (∀ (h : Heap) (x : A), reads h x = Some x) → Copies (mret (M := M Heap) (A := A)).
Proof. intros Hflat h x v Hr. apply allocs_ret. by rewrite Hflat in Hr |- *. Qed.
#[export] Instance RouteGateway_copies : Copies RouteGateway_DeepCopyInto.
Proof. by apply flat_copies. Qed.
#[export] Instance RouteRetries_copies : Copies RouteRetries_DeepCopyInto.
Proof. by apply flat_copies. Qed.
#[export] Instance RouteBackend_copies : Copies RouteBackend_DeepCopyInto.
Proof. by apply flat_copies. Qed.

Lemma run_bind {St A A'} (m : M St A) (k : A → M St A') s a s' :
  m s = (Ret a, s') → (m ≫= k) s = k a s'.
Proof. unfold mbind, M_bind. by intros ->. Qed.

(** A fresh address joins the new memory. *)
Lemma fresh_free (h : Heap) : h !! fresh (dom h) = None.
Proof. apply not_elem_of_dom, is_fresh. Qed.
Lemma insert_new (h hf : Heap) l o :
  h !! l = None → <[l := o]> (h ∪ hf) = h ∪ <[l := o]> hf.
Proof. intros. by apply insert_union_r. Qed.
Lemma disjoint_insert (h hf : Heap) l o : h !! l = None → h ##ₘ hf → h ##ₘ <[l := o]> hf.
Proof. intros. by apply map_disjoint_insert_r. Qed.
Lemma read_object `{Cell A} (h : Heap) l (x : A) : object h l = Some x → read l h = (Ret x, h).
Proof. unfold read. by intros ->. Qed.

#[export] Instance copyPointer_copies {A B} `{!Cell A, !Zero A, !Reads A B} (into : A → M Heap A) :
  Copies into → Copies (copyPointer into).
Proof.
  intros Hinto h [[l0|]] v Hr; [|by apply allocs_ret].
  cbn in Hr. unfold readPtr in Hr. cbn in Hr.
  apply bind_Some in Hr as (x & Hx & Hr). apply bind_Some in Hr as (y & Hy & [= <-]).
  unfold copyPointer. cbn. set (l := fresh (dom h)). pose proof (fresh_free h) as Hl.
  set (h1 := <[l := cell zero]> h).
  assert (h ⊆ h1) as Hsub by by apply insert_subseteq.
  destruct (Hinto h1 x y (reads_mono _ _ _ _ Hsub Hy)) as (x' & hf & Hrun & Hd & Hrx).
  apply map_disjoint_insert_l in Hd as [Hlf Hd].
  exists (mkPtr (Some l)), (<[l := cell x']> hf). split_and!.
  - rewrite (run_bind _ _ h (mkPtr (Some l)) h1) by done.
    rewrite (run_bind _ _ _ _ _ (read_object h1 l0 x (object_mono _ _ _ _ Hsub Hx))).
    rewrite (run_bind _ _ _ _ _ Hrun). cbn. unfold mbind, M_bind. cbn. f_equal.
    unfold h1. rewrite <-insert_union_l, insert_insert_eq. by apply insert_new.
  - by apply disjoint_insert.
  - cbn. unfold readPtr. cbn. rewrite object_insert. cbn.
    rewrite (reads_mono hf _ x' y); [done| |done]. by apply insert_subseteq.
Qed.

(** ** Slices *)

Lemma segment_spec {A} d (xs ys : list A) :
  segment d xs = Some ys →
  length ys = sl_len d ∧ ∀ i, i < sl_len d → xs !! (sl_off d + i) = ys !! i.
Proof.
  unfold segment. case_bool_decide; [|done]. intros [= <-]. split.
  - rewrite length_take, length_drop. lia.
  - intros i Hi. by rewrite lookup_take_lt, lookup_drop.
Qed.

Section loop.
Context {A B} `{!Cell (list A), !Zero A, !Reads A B} (into : A → M Heap A) `{!Copies into}.
Context (h : Heap) (d : header) (xs ys : list A) (vs : list B) (l : positive).
Context (Hxs : object h (sl_array d) = Some xs) (Hys : segment d xs = Some ys).
Context (Hvs : Forall2 (λ x v, reads h x = Some v) ys vs) (Hl : h !! l = None).

Let n : nat := sl_len d.
Let src : Slice A := mkSlice (Some d).
Let out : Slice A := mkSlice (Some (mkHeader l 0 n n)).
Let body : unit → nat → M Heap unit := λ _ i, x ← index src i; y ← into x; setIndex out i y.

(** The loop of [DeepCopyInto] over the elements, from [i] on. *)
Lemma copy_loop k i xs' hf :
  i + k = n → length xs' = i → h ##ₘ hf → hf !! l = None →
  Forall2 (λ x v, reads hf x = Some v) xs' (take i vs) →
  ∃ zs hf', foldM body tt (seq i k) (h ∪ <[l := cell (xs' ++ replicate k zero)]> hf) =
      (Ret tt, h ∪ <[l := cell zs]> hf') ∧
    h ##ₘ hf' ∧ hf' !! l = None ∧ Forall2 (λ x v, reads hf' x = Some v) zs vs.
Proof.
  destruct (segment_spec _ _ _ Hys) as [Hylen Hylook]. fold n in Hylen, Hylook.
  pose proof (Forall2_length _ _ _ Hvs) as Hlv. rewrite Hylen in Hlv.
  revert i xs' hf. induction k as [|k IH]; intros i xs' hf Hi Hlen Hd Hfl Hall.
  { exists xs', hf. simpl. rewrite app_nil_r. split_and!; [done..|].
    rewrite take_ge in Hall; [done|lia]. }
  set (c := <[l := cell (xs' ++ replicate (S k) zero)]> hf).
  assert (h ⊆ h ∪ c) as Hsub by apply map_union_subseteq_l.
  destruct (lookup_lt_is_Some_2 ys i) as [x Hx]; [lia|].
  destruct (Forall2_lookup_l _ _ _ _ _ Hvs Hx) as (v & Hv & Hrx).
  destruct (copies (h ∪ c) x v (reads_mono _ _ _ _ Hsub Hrx)) as (y & hf2 & Hrun & Hd2 & Hry).
  apply map_disjoint_union_l in Hd2 as [Hd2 Hd2'].
  apply map_disjoint_insert_l in Hd2' as [Hl2 Hd2'].
  assert (index src i (h ∪ c) = (Ret x, h ∪ c)) as Hidx.
  { unfold index, src. cbn [hdr].
    rewrite (run_bind _ _ _ _ _ (read_object _ _ _ (object_mono _ _ _ _ Hsub Hxs))).
    rewrite bool_decide_eq_true_2 by lia. by rewrite Hylook, Hx by lia. }
  assert (setIndex out i y (h ∪ c ∪ hf2) =
    (Ret tt, h ∪ <[l := cell ((xs' ++ [y]) ++ replicate k zero)]> (hf ∪ hf2))) as Hset.
  { unfold setIndex, out. cbn [hdr sl_array sl_off sl_len].
    assert (h ∪ c ∪ hf2 = <[l := cell (xs' ++ replicate (S k) zero)]> (h ∪ (hf ∪ hf2))) as ->.
    { unfold c. by rewrite <-insert_new, <-insert_union_l, (assoc_L (∪)). }
    rewrite (run_bind _ _ _ _ _ (read_object _ _ _ (object_insert _ _ _))).
    rewrite bool_decide_eq_true_2 by lia. unfold write, modify. f_equal.
    rewrite insert_insert_eq, insert_new by done. simpl. rewrite <-(app_assoc xs').
    by rewrite <-Hlen, insert_app_r_alt, Nat.sub_diag by lia. }
  destruct (IH (S i) (xs' ++ [y]) (hf ∪ hf2)) as (zs & hf' & Hloop & Hrest).
  - lia.
  - rewrite length_app. simpl. lia.
  - by apply map_disjoint_union_r.
  - by apply lookup_union_None.
  - rewrite (take_S_r _ _ v) by done. apply Forall2_app; [|apply Forall2_cons; split; [|done]].
    + eapply Forall2_impl; [exact Hall|]. intros ? ?. apply reads_mono, map_union_subseteq_l.
    + revert Hry. apply reads_mono. by apply map_union_subseteq_r.
  - exists zs, hf'. split; [|done]. simpl. rewrite <-Hloop.
    apply (run_bind (body tt i) (λ b, foldM body b (seq (S i) k))). unfold body.
    by rewrite (run_bind _ _ _ _ _ Hidx), (run_bind _ _ _ _ _ Hrun).
Qed.
End loop.

#[export] Instance copySlice_copies {A B} `{!Cell (list A), !Zero A, !Reads A B}
    (into : A → M Heap A) : Copies into → Copies (copySlice into).
Proof.
  intros Hinto h [[d|]] v Hr; [|by apply allocs_ret].
  cbn in Hr. unfold readSlice in Hr. cbn in Hr.
  apply bind_Some in Hr as (xs & Hx & Hr). apply bind_Some in Hr as (ys & Hy & Hr).
  apply bind_Some in Hr as (vs & Hv & [= <-]). apply mapM_Some in Hv.
  set (l := fresh (dom h)). pose proof (fresh_free h) as Hl. fold l in Hl.
  destruct (copy_loop into h d xs ys vs l Hx Hy Hv Hl (sl_len d) 0 [] ∅)
    as (zs & hf & Hloop & Hd & Hlf & Hall);
    [done|done|apply map_disjoint_empty_r|done|by constructor|].
  exists (mkSlice (Some (mkHeader l 0 (sl_len d) (sl_len d)))), (<[l := cell zs]> hf). split_and!.
  - unfold copySlice. cbn [hdr]. unfold len. cbn [hdr].
    rewrite (run_bind _ _ h (mkSlice (Some (mkHeader l 0 (sl_len d) (sl_len d))))
      (<[l := cell (replicate (sl_len d) zero)]> h)) by done.
    rewrite <-insert_new, (right_id_L ∅ (∪)) in Hloop by done.
    by rewrite (run_bind _ _ _ _ _ Hloop).
  - by apply disjoint_insert.
  - cbn. unfold readSlice. cbn. rewrite object_insert. cbn.
    pose proof (Forall2_length _ _ _ Hv) as Hlen. destruct (segment_spec _ _ _ Hy) as [Hylen _].
    pose proof (Forall2_length _ _ _ Hall) as Hlen'.
    unfold segment. cbn. rewrite bool_decide_eq_true_2 by lia. cbn.
    rewrite take_ge, drop_0 by (rewrite ?drop_0; lia).
    assert (mapM (reads (<[l:=cell zs]> hf)) zs = Some vs) as ->; [|done].
    apply mapM_Some. eapply Forall2_impl; [exact Hall|]. intros ? ?.
    by apply reads_mono, insert_subseteq.
Qed.

(** ** Maps *)

Lemma setKeys l (kvs : list (string * string)) (t : gmap string string) (h : Heap) :
  foldM (λ _ kv, setKey (mkStrMap (Some l)) kv) tt kvs (<[l := cell t]> h) =
    (Ret tt, <[l := cell (foldl (λ t kv, <[kv.1 := kv.2]> t) t kvs)]> h).
Proof.
  revert t. induction kvs as [|kv kvs IH]; intros t; [done|]. cbn [foldM foldl]. rewrite <-IH.
  apply (run_bind _ (λ b, foldM (λ _ kv, setKey _ kv) b kvs)). unfold setKey. cbn [table].
  rewrite (run_bind _ _ _ _ _ (read_object _ l t (object_insert _ l t))).
  unfold write, modify. by rewrite insert_insert_eq.
Qed.

(** Whatever the order of the range. *)
Lemma setKeys_all (kvs : list (string * string)) (t : gmap string string) :
  kvs ≡ₚ map_to_list t → foldl (λ t kv, <[kv.1 := kv.2]> t) ∅ kvs = t.
Proof.
  intros Hp. rewrite <-(list_to_map_to_list t).
  transitivity (list_to_map (M := gmap string string) (reverse kvs)).
  - clear Hp. induction kvs as [|kv kvs IH] using rev_ind; [done|].
    rewrite foldl_app, reverse_snoc. simpl. by rewrite IH.
  - apply list_to_map_proper; [|by rewrite reverse_Permutation].
    rewrite reverse_Permutation, Hp. apply NoDup_fst_map_to_list.
Qed.

#[export] Instance copyMap_copies : Copies copyMap.
Proof.
  intros h [[l0|]] v Hr; [|by apply allocs_ret].
  cbn in Hr. unfold readMap in Hr. cbn in Hr. apply bind_Some in Hr as (t & Ht & [= <-]).
  set (l := fresh (dom h)). pose proof (fresh_free h) as Hl. fold l in Hl.
  set (h1 := <[l := cell (∅ : gmap string string)]> h).
  assert (h ⊆ h1) as Hsub by by apply insert_subseteq.
  exists (mkStrMap (Some l)), {[l := cell t]}. split_and!.
  - unfold copyMap. cbn [table]. rewrite (run_bind _ _ h l h1) by done.
    rewrite (run_bind (entries _) _ h1 (map_to_list t) h1).
    + unfold h1. rewrite (run_bind _ _ _ _ _ (setKeys l (map_to_list t) ∅ h)).
      rewrite (setKeys_all _ t) by done.
      unfold mret, M_ret. by rewrite <-insert_empty, <-insert_new, (right_id_L ∅ (∪)).
    + unfold entries. cbn [table].
      by rewrite (run_bind _ _ _ _ _ (read_object _ _ _ (object_mono _ _ _ _ Hsub Ht))).
  - by apply map_disjoint_singleton_r.
  - change (readMap {[l := cell t]} (mkStrMap (Some l)) = Some (Some t)).
    unfold readMap. cbn [table]. by rewrite <-insert_empty, object_insert.
Qed.

(** ** The generated functions meet the contract *)

#[export] Instance copyPlain_copies {A} `{!Cell A, !Zero A, !Reads A A} :
  Copies (mret (M := M Heap) (A := A)) → Copies (copyPlain (A := A)).
Proof. apply copyPointer_copies. Qed.
#[export] Instance Z_copies : Copies (mret (M := M Heap) (A := Z)).
Proof. by apply flat_copies. Qed.
#[export] Instance bool_copies : Copies (mret (M := M Heap) (A := bool)).
Proof. by apply flat_copies. Qed.
#[export] Instance copyStrings_copies : Copies copyStrings.
Proof. apply copySlice_copies. by apply flat_copies. Qed.

(** [h ⊆ h ∪ hf1 ∪ ...] and [hf ⊆ hf1 ∪ (hf ∪ ...)] *)
Ltac solve_part :=
  solve [ reflexivity | apply map_union_subseteq_l
        | apply map_union_subseteq_l'; solve_part
        | apply map_union_subseteq_r'; [assumption|solve_part] ].
(** One field after the other, then the struct. *)
Tactic Notation "copy_fields" constr(read) reference(into) :=
  let Hr := fresh "Hr" in
  intros h x v Hr; change (read h x = Some v) in Hr; unfold read in Hr; unfold into;
  repeat (let y := fresh "y" in let E := fresh "E" in apply bind_Some in Hr as (y & E & Hr));
  injection Hr as <-;
  repeat match goal with
  | E : reads h ?f = Some _ |- allocs ?h' (?m ?f ≫= _) _ =>
      let Hd := fresh "Hd" in let Hf := fresh "Hf" in
      eapply allocs_bind; [apply copies; eapply (reads_mono h h'); [solve_part|exact E]|];
      intros ? ? Hd Hf; cbn beta in Hf |- *
  end;
  apply allocs_ret; intros;
  match goal with |- reads ?h ?x = Some ?v => change (read h x = Some v) end; unfold read;
  repeat match goal with
  | |- reads ?h ?f ≫= _ = _ =>
      let f' := eval hnf in f in
      match goal with E : reads ?hf f' = Some ?y |- _ =>
        apply bind_Some; exists y; split; [eapply (reads_mono hf h); [solve_part|exact E]|]
      end
  end;
  reflexivity.

Section generated_copies.
Context `{!ApiMachinery}.

#[export] Instance RouteAuth_copies : Copies RouteAuth_DeepCopyInto.
Proof. copy_fields read_RouteAuth RouteAuth_DeepCopyInto. Qed.
#[export] Instance RouteCORS_copies : Copies RouteCORS_DeepCopyInto.
Proof. copy_fields read_RouteCORS RouteCORS_DeepCopyInto. Qed.
#[export] Instance RouteCanaryRollback_copies : Copies RouteCanaryRollback_DeepCopyInto.
Proof. copy_fields read_RouteCanaryRollback RouteCanaryRollback_DeepCopyInto. Qed.
#[export] Instance RouteCanary_copies : Copies RouteCanary_DeepCopyInto.
Proof. copy_fields read_RouteCanary RouteCanary_DeepCopyInto. Qed.
#[export] Instance RouteHeaderOperations_copies : Copies RouteHeaderOperations_DeepCopyInto.
Proof. copy_fields read_RouteHeaderOperations RouteHeaderOperations_DeepCopyInto. Qed.
#[export] Instance RouteHeaders_copies : Copies RouteHeaders_DeepCopyInto.
Proof. copy_fields read_RouteHeaders RouteHeaders_DeepCopyInto. Qed.
#[export] Instance RouteRateLimit_copies : Copies RouteRateLimit_DeepCopyInto.
Proof. copy_fields read_RouteRateLimit RouteRateLimit_DeepCopyInto. Qed.
#[export] Instance RouteRule_copies : Copies RouteRule_DeepCopyInto.
Proof. copy_fields read_RouteRule RouteRule_DeepCopyInto. Qed.
#[export] Instance RouteSpec_copies : Copies RouteSpec_DeepCopyInto.
Proof. copy_fields read_RouteSpec RouteSpec_DeepCopyInto. Qed.

(** What apimachinery's generated functions promise: the same. *)
Class ApiMachineryLaws := {
  #[global] ObjectMeta_copies :: Copies ObjectMeta_DeepCopyInto;
  #[global] ListMeta_copies :: Copies ListMeta_DeepCopyInto;
  #[global] Condition_copies :: Copies Condition_DeepCopyInto
}.
Context `{!ApiMachineryLaws}.

#[export] Instance RouteStatus_copies : Copies RouteStatus_DeepCopyInto.
Proof. copy_fields read_RouteStatus RouteStatus_DeepCopyInto. Qed.
#[export] Instance Route_copies : Copies Route_DeepCopyInto.
Proof. copy_fields read_Route Route_DeepCopyInto. Qed.
#[export] Instance RouteList_copies : Copies RouteList_DeepCopyInto.
Proof. copy_fields read_RouteList RouteList_DeepCopyInto. Qed.

(** ** Objects *)

(** What an object of the interface stands for. *)
Definition read_Object (h : Heap) (o : Object) :
    option (option (RouteOf asTree) + option (RouteListOf asTree)) :=
  match o with
  | RouteObject p => inl <$> reads h p
  | RouteListObject p => inr <$> reads h p
  end.

Lemma read_Object_mono h h' o t : h ⊆ h' → read_Object h o = Some t → read_Object h' o = Some t.
Proof.
  intros Hsub. destruct o; cbn [read_Object]; intros (v & Hv & ->)%fmap_Some;
    by rewrite (reads_mono _ _ _ _ Hsub Hv).
Qed.

Lemma Route_DeepCopy_copies : Copies Route_DeepCopy.
Proof. apply copyPointer_copies, _. Qed.
Lemma RouteList_DeepCopy_copies : Copies RouteList_DeepCopy.
Proof. apply copyPointer_copies, _. Qed.

(** [DeepCopyObject] returns nil for a typed nil pointer, else a copy in new
    memory. *)
Lemma DeepCopyObject_copies h o t :
  read_Object h o = Some t →
  allocs h (DeepCopyObject o) (λ hf c,
    match c with
    | Some c => read_Object hf c = Some t
    | None => hf = ∅ ∧ (t = inl None ∨ t = inr None)
    end).
Proof.
  destruct o as [[[l|]]|[[l|]]]; cbn [read_Object DeepCopyObject]; intros (v & Hv & ->)%fmap_Some.
  - destruct (Route_DeepCopy_copies h _ v Hv) as ([a] & hf & Hrun & Hd & Hr).
    unfold Route_DeepCopyObject. eexists _, hf. rewrite (run_bind _ _ _ _ _ Hrun).
    destruct a as [a|]; [split_and!; [done..|]; cbn [read_Object]; by rewrite Hr|].
    cbn in Hv, Hr. unfold readPtr in Hv, Hr. cbn in Hv, Hr. simplify_option_eq.
  - injection Hv as <-. apply allocs_ret. by auto.
  - destruct (RouteList_DeepCopy_copies h _ v Hv) as ([a] & hf & Hrun & Hd & Hr).
    unfold RouteList_DeepCopyObject. eexists _, hf. rewrite (run_bind _ _ _ _ _ Hrun).
    destruct a as [a|]; [split_and!; [done..|]; cbn [read_Object]; by rewrite Hr|].
    cbn in Hv, Hr. unfold readPtr in Hv, Hr. cbn in Hv, Hr. simplify_option_eq.
  - injection Hv as <-. apply allocs_ret. by auto.
Qed.

(** C18: [DeepCopyObject] of a [Route] or [RouteList] that lies well in memory,
    however its pointers and slices overlap, does not panic and changes nothing
    that was allocated.  A typed nil gives the nil interface.  Else the result
    stands for the same tree, nil kept apart from empty; it keeps standing for
    it whatever is later written to the addresses there were before, and the
    original whatever is written to those there were not. *)
Theorem DeepCopyObject_correct h o t :
  read_Object h o = Some t →
  ∃ c h', DeepCopyObject o h = (Ret c, h') ∧ h ⊆ h' ∧
  match c with
  | None => h' = h ∧ (t = inl None ∨ t = inr None)
  | Some c =>
      read_Object h' c = Some t ∧
      (∀ h2 : Heap, (∀ l, l ∉ dom h → h2 !! l = h' !! l) → read_Object h2 c = Some t) ∧
      (∀ h2 : Heap, (∀ l, l ∈ dom h → h2 !! l = h' !! l) → read_Object h2 o = Some t)
  end.
Proof.
  intros Ho. destruct (DeepCopyObject_copies h o t Ho) as (c & hf & Hrun & Hd & Hc).
  exists c, (h ∪ hf). split; [done|]. split; [apply map_union_subseteq_l|].
  destruct c as [c|]; [|destruct Hc as [-> Hc]; by rewrite (right_id_L ∅ (∪))].
  split; [|split].
  - revert Hc. apply read_Object_mono. by apply map_union_subseteq_r.
  - intros h2 H2. revert Hc. apply read_Object_mono, map_subseteq_spec. intros l x Hx.
    assert (h !! l = None) as Hn by by eapply map_disjoint_Some_r.
    rewrite H2, lookup_union_r by (done || by apply not_elem_of_dom). done.
  - intros h2 H2. revert Ho. apply read_Object_mono, map_subseteq_spec. intros l x Hx.
    rewrite H2 by by apply elem_of_dom_2 in Hx. by apply lookup_union_Some_l.
Qed.
End generated_copies.

(** ** The values of the other files *)

Definition route_of_ops (x : RouteHeaderOperationsOf asTree) : RouteHeaderOperations :=
  RouteTypes.mkHeaderOps (default ∅ (gho_Set x)) (default ∅ (gho_Add x))
    (default [] (gho_Remove x)).
Definition route_of_headers (x : RouteHeadersOf asTree) : RouteHeaders :=
  RouteTypes.mkHeaders (route_of_ops <$> grh_Request x) (route_of_ops <$> grh_Response x).
Definition route_of_rule (x : RouteRuleOf asTree) : RouteRule :=
  RouteTypes.mkRule (grr_Host x) (grr_Path x) (grr_Backend x) (route_of_headers <$> grr_Headers x).
Definition route_of_cors (x : RouteCORSOf asTree) : RouteCORS :=
  RouteTypes.mkCORS (default [] (gco_AllowOrigins x)) (default [] (gco_AllowMethods x))
    (default [] (gco_AllowHeaders x)) (gco_MaxAge x).
Definition route_of_auth (x : RouteAuthOf asTree) : RouteAuth :=
  RouteTypes.mkAuth (gau_Issuer x) (gau_JWKSURI x) (default [] (gau_Audiences x))
    (gau_ForwardOriginalToken x).
Definition route_of_rateLimit (x : RouteRateLimitOf asTree) : RouteRateLimit :=
  RouteTypes.mkRateLimit (grl_RequestsPerUnit x) (grl_Unit x) (grl_Burst x).
Definition route_of_rollback (x : RouteCanaryRollbackOf asTree) : RouteCanaryRollback :=
  RouteTypes.mkRollback (grb_FiveXXThreshold x) (grb_ProbePath x) (grb_IntervalSeconds x)
    (grb_CooldownSeconds x).
Definition route_of_canary (x : RouteCanaryOf asTree) : RouteCanary :=
  RouteTypes.mkCanary (gca_Backend x) (gca_Weight x) (route_of_rollback <$> gca_RollbackOn5xx x).
Definition route_of_spec (x : RouteSpecOf asTree) : RouteSpec :=
  RouteTypes.mkSpec (route_of_rule <$> default [] (grs_Rules x)) (grs_SSLRedirect x)
    (grs_Timeout x) (grs_MaxBodySize x) (route_of_cors <$> grs_CORS x) (grs_Gateway x)
    (grs_Retries x) (route_of_auth <$> grs_Auth x) (route_of_rateLimit <$> grs_RateLimit x)
    (route_of_canary <$> grs_Canary x).
Definition route_of_status (x : RouteStatusOf asTree) : RouteStatus :=
  RouteTypes.mkStatus (gst_Phase x) (default [] (gst_Conditions x)) (gst_ManagedResources x).
Definition route_of_meta (x : ObjectMetaOf asTree) : ObjectMeta :=
  RouteTypes.mkMeta (gm_Name x) (gm_Namespace x) (default ∅ (gm_Labels x)) (gm_ResourceVersion x)
    (gm_Generation x) (gm_CreationTimestamp x) (gm_DeletionTimestamp x)
    (default [] (gm_Finalizers x)) (default [] (gm_OwnerReferences x)).
Definition route_of (x : RouteOf asTree) : Route :=
  RouteTypes.mkRoute (route_of_meta (gr_ObjectMeta x)) (route_of_spec (gr_Spec x))
    (route_of_status (gr_Status x)).

(** The [Route] of RouteTypes.v that lies at [p]. *)
Definition route_at (h : Heap) (p : Ptr (RouteOf inMemory)) : option Route :=
  r ← reads h p; route_of <$> r.

(** ** Apimachinery's structs, copied the same way *)

Definition memObjectMeta_DeepCopyInto (x : ObjectMetaOf inMemory) :
    M Heap (ObjectMetaOf inMemory) :=
  labels ← copyMap (gm_Labels x);
  deletion ← copyPlain (A := Z) (gm_DeletionTimestamp x);
  finalizers ← copyStrings (gm_Finalizers x);
  owners ← copySlice mret (gm_OwnerReferences x);
  mret (mkObjectMeta (gm_Name x) (gm_Namespace x) labels (gm_ResourceVersion x)
    (gm_Generation x) (gm_CreationTimestamp x) deletion finalizers owners
    : ObjectMetaOf inMemory).
Definition memListMeta_DeepCopyInto (x : ListMetaOf inMemory) : M Heap (ListMetaOf inMemory) :=
  remaining ← copyPlain (A := Z) (glm_RemainingItemCount x);
  mret (mkListMeta (glm_ResourceVersion x) (glm_Continue x) remaining : ListMetaOf inMemory).

Definition memMachinery : ApiMachinery := {|
  ObjectMeta_DeepCopyInto := memObjectMeta_DeepCopyInto;
  ListMeta_DeepCopyInto := memListMeta_DeepCopyInto;
  Condition_DeepCopyInto := mret
|}.

#[export] Instance owners_copies : Copies (mret (M := M Heap) (A := OwnerReference)).
Proof. by apply flat_copies. Qed.
Lemma memObjectMeta_copies : Copies memObjectMeta_DeepCopyInto.
Proof. copy_fields read_ObjectMeta memObjectMeta_DeepCopyInto. Qed.
Lemma memListMeta_copies : Copies memListMeta_DeepCopyInto.
Proof. copy_fields read_ListMeta memListMeta_DeepCopyInto. Qed.
Lemma memMachineryLaws : @ApiMachineryLaws memMachinery.
Proof.
  split; [exact memObjectMeta_copies|exact memListMeta_copies|by apply flat_copies].
Qed.

(** A Route whose rules share their headers, and whose slices of a CORS policy
    share an array. *)
Definition ex_rule (path : string) : RouteRuleOf inMemory :=
  mkRule (R := inMemory) "a.example" path (mkBackend "svc" 80 "") (mkPtr (Some 7%positive)).
Definition ex_slice (l : positive) (off n : nat) : Slice string :=
  mkSlice (Some (mkHeader l off n n)).
Definition ex_heap : Heap := list_to_map
  [ (1%positive, ORoute (mkRoute (R := inMemory) (mkTypeMeta "Route" "v1alpha1")
      (mkObjectMeta (R := inMemory) "app" "demo" (mkStrMap None) "7" 1 100
         (mkPtr None) (ex_slice 2 0 1)
         (mkSlice None))
      (mkSpec (R := inMemory) (mkSlice (Some (mkHeader 3 0 2 4)))
         (mkPtr (Some 4%positive)) "" "1024"
         (mkPtr (Some 5%positive)) (mkPtr None) (mkPtr None) (mkPtr None) (mkPtr None)
         (mkPtr None))
      (mkStatus (R := inMemory) "Active" (mkSlice (Some (mkHeader 9 0 0 0))) 3)));
    (2%positive, OStrings ["istio-gateway-api-operator.io/finalizer"]);
    (3%positive, ORules [ex_rule "/"; ex_rule "/api"; zero; zero]);
    (4%positive, OBool true);
    (5%positive, OCORS (mkCORS (R := inMemory) (ex_slice 6 0 2) (ex_slice 6 1 2)
       (mkSlice None) "24h"));
    (6%positive, OStrings ["x"; "GET"; "PUT"]);
    (7%positive, OHeaders (mkHeaders (R := inMemory) (mkPtr (Some 8%positive)) (mkPtr None)));
    (8%positive, OHeaderOperations (mkHeaderOperations (R := inMemory) (mkStrMap (Some 10%positive))
       (mkStrMap None) (mkSlice None)));
    (9%positive, OConditions []);
    (10%positive, OStrMap {["x-env" := "demo"]}) ].
Definition ex_object : Object := RouteObject (mkPtr (Some 1%positive)).
Definition ex_headers : option (RouteHeadersOf asTree) :=
  Some (mkHeaders (R := asTree)
    (Some (mkHeaderOperations (R := asTree) (Some {["x-env" := "demo"]}) None None)) None).
Definition ex_tree : RouteOf asTree :=
  mkRoute (R := asTree) (mkTypeMeta "Route" "v1alpha1")
    (mkObjectMeta (R := asTree) "app" "demo" None "7" 1 100 None
       (Some ["istio-gateway-api-operator.io/finalizer"]) None)
    (mkSpec (R := asTree)
       (Some [mkRule (R := asTree) "a.example" "/" (mkBackend "svc" 80 "") ex_headers;
              mkRule (R := asTree) "a.example" "/api" (mkBackend "svc" 80 "") ex_headers])
       (Some true) "" "1024"
       (Some (mkCORS (R := asTree) (Some ["x"; "GET"]) (Some ["GET"; "PUT"]) None "24h"))
       None None None None None)
    (mkStatus (R := asTree) "Active" (Some []) 3).

Definition ex_meaning : option (RouteOf asTree) + option (RouteListOf asTree) :=
  inl (Some ex_tree).
Example ex_reads : read_Object ex_heap ex_object = Some ex_meaning.
Proof. reflexivity. Qed.

(** A write to the copy's finalizers leaves the original alone; a plain copy
    of the struct would not. *)
Definition ex_copy : outcome (option Object) * Heap :=
  DeepCopyObject (H := memMachinery) ex_object ex_heap.
Example ex_independent :
  match ex_copy with
  | (Ret (Some (RouteObject p)), h) =>
      match load p h with
      | (Ret r, _) =>
          match setIndex (gm_Finalizers (gr_ObjectMeta r)) 0 "other" h with
          | (Ret _, h') =>
              (λ q, m_Finalizers ∘ r_Meta <$> route_at h' q) <$> [p; mkPtr (Some 1%positive)] =
              [Some ["other"]; Some ["istio-gateway-api-operator.io/finalizer"]]
          | _ => False
          end
      | _ => False
      end
  | _ => False
  end.
Proof. vm_compute. reflexivity. Qed.

Lemma DeepCopyObject_correct_witness :
  read_Object ex_heap ex_object = Some ex_meaning ∧
  ∃ c h', DeepCopyObject (H := memMachinery) ex_object ex_heap = (Ret c, h') ∧ ex_heap ⊆ h' ∧
  match c with
  | None => h' = ex_heap ∧ (ex_meaning = inl None ∨ ex_meaning = inr None)
  | Some c =>
      read_Object h' c = Some ex_meaning ∧
      (∀ h2 : Heap, (∀ l, l ∉ dom ex_heap → h2 !! l = h' !! l) →
         read_Object h2 c = Some ex_meaning) ∧
      (∀ h2 : Heap, (∀ l, l ∈ dom ex_heap → h2 !! l = h' !! l) →
         read_Object h2 ex_object = Some ex_meaning)
  end.
Proof.
  split; [reflexivity|].
  exact (@DeepCopyObject_correct memMachinery memMachineryLaws ex_heap ex_object ex_meaning
    ex_reads).
Defined.
End DeepCopy.
