(* ===== verification/Objects.v ===== *)
(** * The objects the operator reads and generates

    Plain data: the fields of the Gateway API, Istio and core structs that the
    source reads or fills in.  A generated object is a [Child]: its metadata
    and one of the six kinds of spec. *)
From S2P Require Import Prelude RouteTypes.

(** ** Objects that are only read *)

Record SecretObjectReference := mkSecretRef {
  sr_Group : option string;
  sr_Kind : option string;
  sr_Name : string;
  sr_Namespace : option string
}.
Record Listener := mkListener {
  li_Hostname : option string;
  li_Protocol : string;
  (** [listener.TLS], by its [CertificateRefs] *)
  li_TLS : option (list SecretObjectReference)
}.
Record Gateway := mkGw { gw_Listeners : list Listener }.

Record Secret := mkSecret {
  se_Namespace : string;
  se_Name : string;
  se_Data : gmap string string
}.
Record Service := mkService { svc_Name : string }.
(** [ep.Subsets], each by its ready [Addresses]. *)
Record Endpoints := mkEndpoints { ep_Subsets : list (list string) }.

#[local] Set Warnings "-register-all".

(** ** Protobuf values *)

(** [durationpb.Duration] and [structpb.Struct]. *)
Record pbDuration := mkPbDuration { pb_Seconds : Z; pb_Nanos : Z }.
Inductive pbValue :=
| PbNumber (n : Z)
| PbString (s : string)
| PbStruct (fields : list (string * pbValue)).
Definition pbStruct : Type := list (string * pbValue).

(** The values of a [map[string]any] literal of the source. *)
Inductive goAny :=
| AString (s : string)
| AInt64 (n : Z)
| AUint64 (n : Z)
| AMap (fields : list (string * goAny)).
Definition goMap : Type := list (string * goAny).

(** ** Gateway API: HTTPRoute *)

Record ParentReference := mkParentRef {
  pr_Name : string;
  pr_Namespace : option string;
  pr_SectionName : option string
}.
Inductive PathMatchType := PathMatchExact | PathMatchPathPrefix | PathMatchRegularExpression.
Record HTTPPathMatch := mkPathMatch { pm_Type : option PathMatchType; pm_Value : option string }.
Record HTTPBackendRef := mkBackendRef {
  br_Name : string;
  br_Port : option Z;
  br_Weight : option Z
}.
Record HTTPHeader := mkHTTPHeader { hh_Name : string; hh_Value : string }.
Record HTTPHeaderFilter := mkHeaderFilter {
  hf_Set : list HTTPHeader;
  hf_Add : list HTTPHeader;
  hf_Remove : list string
}.
Record HTTPRequestRedirectFilter := mkRedirect {
  rf_Scheme : option string;
  rf_StatusCode : option Z
}.
Inductive HTTPRouteFilterType :=
| HTTPRouteFilterRequestHeaderModifier
| HTTPRouteFilterResponseHeaderModifier
| HTTPRouteFilterRequestRedirect.
Record HTTPRouteFilter := mkFilter {
  fi_Type : HTTPRouteFilterType;
  fi_RequestHeaderModifier : option HTTPHeaderFilter;
  fi_ResponseHeaderModifier : option HTTPHeaderFilter;
  fi_RequestRedirect : option HTTPRequestRedirectFilter
}.
Record HTTPRouteRule := mkHTTPRouteRule {
  hrr_Matches : list HTTPPathMatch;
  hrr_Filters : list HTTPRouteFilter;
  hrr_BackendRefs : list HTTPBackendRef
}.
Record HTTPRouteSpec := mkHTTPRouteSpec {
  hr_ParentRefs : list ParentReference;
  hr_Hostnames : list string;
  hr_Rules : list HTTPRouteRule
}.

(** ** Istio: VirtualService and DestinationRule *)

Inductive StringMatch :=
| StringMatch_Exact (s : string)
| StringMatch_Prefix (s : string)
| StringMatch_Regex (s : string).
Record HTTPMatchRequest := mkMatchRequest {
  mr_Uri : option StringMatch;
  mr_Headers : gmap string StringMatch
}.
Record HTTPRouteDestination := mkDestination {
  de_Host : string;
  de_Port : option Z;
  de_Weight : Z
}.
Record CorsPolicy := mkCorsPolicy {
  cp_AllowOrigins : list StringMatch;
  cp_AllowMethods : list string;
  cp_AllowHeaders : list string;
  cp_MaxAge : option pbDuration
}.
Record HeaderOperations := mkIstioHeaderOps {
  io_Set : gmap string string;
  io_Add : gmap string string;
  io_Remove : list string
}.
Record Headers := mkIstioHeaders {
  ih_Request : option HeaderOperations;
  ih_Response : option HeaderOperations
}.
Record HTTPRetry := mkHTTPRetry {
  ry_Attempts : Z;
  ry_PerTryTimeout : option pbDuration;
  ry_RetryOn : string
}.
Record IstioHTTPRoute := mkIstioHTTPRoute {
  ir_Match : list HTTPMatchRequest;
  ir_Route : list HTTPRouteDestination;
  ir_Timeout : option pbDuration;
  ir_Retries : option HTTPRetry;
  ir_CorsPolicy : option CorsPolicy;
  ir_Headers : option Headers
}.
Record VirtualServiceSpec := mkVirtualServiceSpec {
  vs_Hosts : list string;
  vs_Gateways : list string;
  vs_Http : list IstioHTTPRoute
}.

Inductive TLSmode := ClientTLSSettings_DISABLE | ClientTLSSettings_SIMPLE | ClientTLSSettings_MUTUAL.
Record ClientTLSSettings := mkTLSSettings {
  ts_Mode : TLSmode;
  ts_InsecureSkipVerify : option bool
}.
Record PortTrafficPolicy := mkPortPolicy {
  pp_Port : option Z;
  pp_Tls : option ClientTLSSettings
}.
Record DestinationRuleSpec := mkDestinationRuleSpec {
  dr_Host : string;
  dr_PortLevelSettings : list PortTrafficPolicy
}.

(** ** Istio: EnvoyFilter *)

Inductive ApplyTo := EnvoyFilter_HTTP_FILTER | EnvoyFilter_HTTP_ROUTE.
Inductive PatchContext := EnvoyFilter_ANY | EnvoyFilter_GATEWAY.
Inductive ObjectMatch :=
| MatchListener (filterName subFilterName : string)
| MatchRouteConfiguration (vhostName : string).
Inductive PatchOperation := Patch_MERGE | Patch_INSERT_BEFORE.
Record EnvoyConfigObjectPatch := mkPatch {
  ep_ApplyTo : ApplyTo;
  ep_Context : PatchContext;
  ep_Match : ObjectMatch;
  ep_Operation : PatchOperation;
  ep_Value : pbStruct
}.
Record EnvoyFilterSpec := mkEnvoyFilterSpec {
  ef_WorkloadSelector : gmap string string;
  ef_ConfigPatches : list EnvoyConfigObjectPatch
}.

(** ** Istio: RequestAuthentication and AuthorizationPolicy *)

Record JWTRule := mkJWTRule {
  jw_Issuer : string;
  jw_JwksUri : string;
  jw_Audiences : list string;
  jw_ForwardOriginalToken : bool
}.
Record RequestAuthenticationSpec := mkRequestAuthenticationSpec {
  ra_Selector : gmap string string;
  ra_JwtRules : list JWTRule
}.
Inductive AuthzAction := AuthorizationPolicy_ALLOW | AuthorizationPolicy_DENY.
Record AuthzRule := mkAuthzRule {
  (** [From], each source by its [RequestPrincipals] *)
  az_From : list (list string);
  (** [To], each operation by its [Hosts] and [Paths] *)
  az_To : list (list string * list string)
}.
Record AuthorizationPolicySpec := mkAuthorizationPolicySpec {
  ap_Selector : gmap string string;
  ap_Action : AuthzAction;
  ap_Rules : list AuthzRule
}.

(** ** Generated objects *)

Inductive Kind :=
| KHTTPRoute | KVirtualService | KDestinationRule | KEnvoyFilter
| KRequestAuthentication | KAuthorizationPolicy.
#[export] Instance Kind_eq_dec : EqDecision Kind.
Proof. solve_decision. Defined.
#[export] Instance Kind_countable : Countable Kind.
Proof.
  refine (inj_countable'
    (λ k, match k with KHTTPRoute => 0 | KVirtualService => 1 | KDestinationRule => 2
          | KEnvoyFilter => 3 | KRequestAuthentication => 4 | KAuthorizationPolicy => 5 end)
    (λ n, match n with 0 => KHTTPRoute | 1 => KVirtualService | 2 => KDestinationRule
          | 3 => KEnvoyFilter | 4 => KRequestAuthentication | _ => KAuthorizationPolicy end) _).
  by intros [].
Defined.

Inductive ChildSpec :=
| SHTTPRoute (s : HTTPRouteSpec)
| SVirtualService (s : VirtualServiceSpec)
| SDestinationRule (s : DestinationRuleSpec)
| SEnvoyFilter (s : EnvoyFilterSpec)
| SRequestAuthentication (s : RequestAuthenticationSpec)
| SAuthorizationPolicy (s : AuthorizationPolicySpec).

Record Child := mkChild { c_Meta : ObjectMeta; c_Spec : ChildSpec }.

Definition spec_kind (s : ChildSpec) : Kind :=
  match s with
  | SHTTPRoute _ => KHTTPRoute
  | SVirtualService _ => KVirtualService
  | SDestinationRule _ => KDestinationRule
  | SEnvoyFilter _ => KEnvoyFilter
  | SRequestAuthentication _ => KRequestAuthentication
  | SAuthorizationPolicy _ => KAuthorizationPolicy
  end.
Definition c_Kind (c : Child) : Kind := spec_kind (c_Spec c).
Definition c_NN (c : Child) : NamespacedName :=
  mkNN (m_Namespace (c_Meta c)) (m_Name (c_Meta c)).
(** What identifies an object in the cluster. *)
Notation ObjKey := (Kind * NamespacedName)%type.
Definition c_Key (c : Child) : ObjKey := (c_Kind c, c_NN c).

(** [obj.SetOwnerReferences(os)] *)
Definition set_Owners (os : list OwnerReference) (c : Child) : Child :=
  let m := c_Meta c in
  mkChild (mkMeta (m_Name m) (m_Namespace m) (m_Labels m) (m_ResourceVersion m)
             (m_Generation m) (m_CreationTimestamp m) (m_DeletionTimestamp m) (m_Finalizers m)
             os) (c_Spec c).

(** [obj.SetResourceVersion(v)] *)
Definition SetResourceVersion (v : string) (c : Child) : Child :=
  let m := c_Meta c in
  mkChild (mkMeta (m_Name m) (m_Namespace m) (m_Labels m) v (m_Generation m)
             (m_CreationTimestamp m) (m_DeletionTimestamp m) (m_Finalizers m)
             (m_OwnerReferences m)) (c_Spec c).

Lemma SetResourceVersion_key v c : c_Key (SetResourceVersion v c) = c_Key c.
Proof. done. Qed.
