(* ===== verification/Env.v ===== *)
(** * The outside world: library functions, the cluster, and the log of calls

    Third-party code is an argument of the model: [GoLibs] collects the pure
    library functions the source calls, [KubeEnv] the effectful ones (the
    Kubernetes client, the clock, the HTTP client) over an abstract
    environment [E].  [St E] is what a run of the controller threads: the
    environment, the fields of the [RouteReconciler], and the log of the calls
    made so far, results included. *)
From S2P Require Import Prelude RouteTypes Objects.

(** ** Pure library functions *)

(** The [field.Error]s the webhook builds. *)
Inductive FieldError :=
| FieldNotFound (path value : string)
| FieldInvalid (path value detail : string)
| FieldForbidden (path detail : string).

Class GoLibs := {
  (** structpb.NewStruct, durationpb.New *)
  structpb_NewStruct : goMap → result pbStruct;
  durationpb_New : Z → pbDuration;
  (** the [%q] verb *)
  strconv_Quote : string → string;
  (** encoding/pem and crypto/x509: the block's bytes, the NotAfter instant *)
  pem_Decode : string → option string;
  x509_ParseCertificate : string → result Z;
  (** http.NewRequestWithContext: its error, if the URL does not parse *)
  http_NewRequest : string → option error;
  (** controllerutil *)
  ContainsFinalizer : Route → string → bool;
  AddFinalizer : Route → string → Route;
  RemoveFinalizer : Route → string → Route;
  SetControllerReference : Route → Child → result Child;
  (** apierrors.NewInvalid, for the Route kind *)
  apierrors_NewInvalid : string → list FieldError → error
}.

(** ** The environment *)

Class KubeEnv (E : Type) := {
  env_now : E → Z * E;
  env_httpDo : string → E → result Z * E;
  env_getRoute : NamespacedName → E → result Route * E;
  env_updateRoute : Route → E → result Route * E;
  env_updateRouteStatus : Route → E → result Route * E;
  env_listRoutes : E → result (list Route) * E;
  env_getService : NamespacedName → E → result Service * E;
  env_getEndpoints : NamespacedName → E → result Endpoints * E;
  env_getGateway : NamespacedName → E → result Gateway * E;
  env_getSecret : NamespacedName → E → result Secret * E;
  env_getChild : Kind → NamespacedName → E → result Child * E;
  env_listChildren : Kind → gmap string string → string → E → result (list Child) * E;
  env_createChild : Child → E → result unit * E;
  env_updateChild : Child → E → result unit * E;
  env_deleteChild : Kind → NamespacedName → E → result unit * E
}.

(** ** The log of calls *)

Inductive GaugeVec := routeStatusPhase | routeBackendHealth | routeManagedResources.
#[export] Instance GaugeVec_eq_dec : EqDecision GaugeVec.
Proof. solve_decision. Defined.

Inductive EventType := EventTypeNormal | EventTypeWarning.

Inductive Call :=
| CNow (t : Z)
| CHttp (url : string) (r : result Z)
| CGetRoute (n : NamespacedName) (r : result Route)
| CUpdateRoute (route : Route) (r : result Route)
| CUpdateRouteStatus (route : Route) (r : result Route)
| CListRoutes (r : result (list Route))
| CGetService (n : NamespacedName) (r : result Service)
| CGetEndpoints (n : NamespacedName) (r : result Endpoints)
| CGetGateway (n : NamespacedName) (r : result Gateway)
| CGetSecret (n : NamespacedName) (r : result Secret)
| CGetChild (k : Kind) (n : NamespacedName) (r : result Child)
| CListChildren (k : Kind) (labels : gmap string string) (ns : string) (r : result (list Child))
| CCreateChild (c : Child) (r : result unit)
| CUpdateChild (c : Child) (r : result unit)
| CDeleteChild (k : Kind) (n : NamespacedName) (r : result unit)
(** [Recorder.Event], and the Prometheus vectors *)
| CEvent (t : EventType) (reason message : string)
| CCounterInc (label : string)
| CGaugeSet (v : GaugeVec) (labels : list string) (value : Z)
| CGaugeDelete (v : GaugeVec) (labels : list string).

(** ** The controller's state *)

(** [RouteReconciler]: whether a recorder is set, whether the mutex is held,
    and the two maps of the canary logic ([None] is Go's nil map). *)
Record RouteReconciler := mkReconciler {
  rc_Recorder : bool;
  rc_canaryStateMu : bool;
  rc_canaryFailureCounts : option (gmap string Z);
  rc_canaryRollbackUntil : option (gmap string Z)
}.

Record St (E : Type) := mkSt {
  s_env : E;
  s_rec : RouteReconciler;
  s_log : list Call
}.
Arguments mkSt {E}.
Arguments s_env {E}.
Arguments s_rec {E}.
Arguments s_log {E}.

(** ** The calls, each logged with its result *)

Section calls.
Context {E : Type} `{KubeEnv E}.

Definition kcall {A} (op : E → A * E) (entry : A → Call) : M (St E) A := λ s,
  let '(a, e) := op (s_env s) in (Ret a, mkSt e (s_rec s) (s_log s ++ [entry a])).
Definition emit (c : Call) : M (St E) unit := λ s,
  (Ret tt, mkSt (s_env s) (s_rec s) (s_log s ++ [c])).

Definition Now : M (St E) Z := kcall env_now CNow.
Definition httpDo (url : string) : M (St E) (result Z) := kcall (env_httpDo url) (CHttp url).
Definition getRoute n : M (St E) (result Route) := kcall (env_getRoute n) (CGetRoute n).
Definition updateRoute r : M (St E) (result Route) :=
  kcall (env_updateRoute r) (CUpdateRoute r).
Definition updateRouteStatus r : M (St E) (result Route) :=
  kcall (env_updateRouteStatus r) (CUpdateRouteStatus r).
Definition listRoutes : M (St E) (result (list Route)) := kcall env_listRoutes CListRoutes.
Definition getService n : M (St E) (result Service) := kcall (env_getService n) (CGetService n).
Definition getEndpoints n : M (St E) (result Endpoints) :=
  kcall (env_getEndpoints n) (CGetEndpoints n).
Definition getGateway n : M (St E) (result Gateway) := kcall (env_getGateway n) (CGetGateway n).
Definition getSecret n : M (St E) (result Secret) := kcall (env_getSecret n) (CGetSecret n).
Definition getChild k n : M (St E) (result Child) := kcall (env_getChild k n) (CGetChild k n).
Definition listChildren k labels ns : M (St E) (result (list Child)) :=
  kcall (env_listChildren k labels ns) (CListChildren k labels ns).
Definition createChild c : M (St E) (result unit) := kcall (env_createChild c) (CCreateChild c).
Definition updateChild c : M (St E) (result unit) := kcall (env_updateChild c) (CUpdateChild c).
Definition deleteChild k n : M (St E) (result unit) :=
  kcall (env_deleteChild k n) (CDeleteChild k n).

(** [r.Recorder.Event(...)] under its [r.Recorder != nil] guard. *)
Definition recordEvent (t : EventType) (reason message : string) : M (St E) unit :=
  rc ← gets s_rec; if rc_Recorder rc then emit (CEvent t reason message) else mret tt.

Definition modifyRec (f : RouteReconciler → RouteReconciler) : M (St E) unit :=
  modify (λ s, mkSt (s_env s) (f (s_rec s)) (s_log s)).

(** [sync.Mutex]: locking a mutex this goroutine holds blocks for ever,
    unlocking a free one is a fatal error; both are panics here. *)
Definition Lock : M (St E) unit :=
  rc ← gets s_rec;
  if rc_canaryStateMu rc then panic "all goroutines are asleep - deadlock!"
  else modifyRec (λ rc, mkReconciler (rc_Recorder rc) true (rc_canaryFailureCounts rc)
                          (rc_canaryRollbackUntil rc)).
Definition Unlock : M (St E) unit :=
  rc ← gets s_rec;
  if rc_canaryStateMu rc then
    modifyRec (λ rc, mkReconciler (rc_Recorder rc) false (rc_canaryFailureCounts rc)
                       (rc_canaryRollbackUntil rc))
  else panic "sync: unlock of unlocked mutex".

(** ** What a call does to the state *)

Definition env_of (s : St E) : E := s_env s.

Lemma wp_kcall {A} op (entry : A → Call) Q X s :
  (∀ a e, op (s_env s) = (a, e) → Q a (mkSt e (s_rec s) (s_log s ++ [entry a]))) →
  wp (kcall op entry) Q X s.
Proof. unfold wp, kcall. destruct (op (s_env s)) as [a e] eqn:Hop. intros HQ. by apply HQ. Qed.

Lemma wp_emit c (Q : unit → St E → Prop) X s :
  Q tt (mkSt (s_env s) (s_rec s) (s_log s ++ [c])) → wp (emit c) Q X s.
Proof. done. Qed.

Lemma wp_modifyRec f (Q : unit → St E → Prop) X s :
  Q tt (mkSt (s_env s) (f (s_rec s)) (s_log s)) → wp (modifyRec f) Q X s.
Proof. done. Qed.

Lemma wp_recordEvent t reason msg (Q : unit → St E → Prop) X s :
  Q tt (mkSt (s_env s) (s_rec s) (s_log s ++
     if rc_Recorder (s_rec s) then [CEvent t reason msg] else [])) →
  wp (recordEvent t reason msg) Q X s.
Proof.
  intros HQ. unfold recordEvent. wp_steps. destruct (rc_Recorder (s_rec s)).
  - by apply wp_emit.
  - apply wp_ret. rewrite app_nil_r in HQ. by destruct s.
Qed.

(** ** Growth of the log *)

(** Every run extends the log by entries that satisfy [P]. *)
Definition logs (P : Call → Prop) (s s' : St E) : Prop :=
  ∃ k, s_log s' = s_log s ++ k ∧ Forall P k.

#[export] Instance logs_preorder P : PreOrder (logs P).
Proof.
  split.
  - intros s. exists []. by rewrite app_nil_r.
  - intros s1 s2 s3 (k & Hk & HP) (k' & Hk' & HP'). exists (k ++ k').
    rewrite Hk', Hk, app_assoc. split; [done|]. by apply Forall_app.
Qed.

Lemma logs_mono (P Q : Call → Prop) s s' :
  (∀ c, P c → Q c) → logs P s s' → logs Q s s'.
Proof. intros HPQ (k & Hk & HP). exists k. split; [done|]. by eapply Forall_impl. Qed.

Lemma respects_kcall {A} P op (entry : A → Call) :
  (∀ a, P (entry a)) → respects (logs P) (kcall op entry).
Proof.
  intros HP s. unfold kcall. destruct (op (s_env s)) as [a e]. exists [entry a]. simpl.
  by repeat constructor.
Qed.
Lemma respects_emit P c : P c → respects (logs P) (emit c).
Proof. intros HP s. exists [c]. by repeat constructor. Qed.
Lemma respects_modifyRec P f : respects (logs P) (modifyRec f).
Proof. intros s. exists []. simpl. by rewrite app_nil_r. Qed.

Lemma respects_recordEvent P t reason msg :
  P (CEvent t reason msg) → respects (logs P) (recordEvent t reason msg).
Proof.
  intros HP. unfold recordEvent. apply respects_bind; [apply _|apply respects_gets; apply _|].
  intros rc. destruct (rc_Recorder rc); [by apply respects_emit|apply respects_ret; apply _].
Qed.
Lemma respects_Lock P : respects (logs P) Lock.
Proof.
  unfold Lock. apply respects_bind; [apply _|apply respects_gets; apply _|].
  intros rc. destruct (rc_canaryStateMu rc);
    [apply respects_panic; apply _|apply respects_modifyRec].
Qed.
Lemma respects_Unlock P : respects (logs P) Unlock.
Proof.
  unfold Unlock. apply respects_bind; [apply _|apply respects_gets; apply _|].
  intros rc. destruct (rc_canaryStateMu rc);
    [apply respects_modifyRec|apply respects_panic; apply _].
Qed.
End calls.

Create HintDb logs.
#[export] Hint Resolve respects_modifyRec respects_Lock respects_Unlock : logs.

(** [follow hints leaf] proves [respects R m] by following the structure of
    [m]: components already done come from the hint database behind [hints];
    [leaf] proves the goals left for single calls. *)
Ltac follow_step hints leaf :=
  match goal with
  | |- respects _ _ => solve [hints]
  | |- respects _ (_ ≫= _) => apply respects_bind; [apply _| |intros ?]
  | |- respects _ (mret _) => apply respects_ret; apply _
  | |- respects _ (panic _) => apply respects_panic; apply _
  | |- respects _ (gets _) => apply respects_gets; apply _
  | |- respects _ (foldM _ _ _) => apply respects_foldM; [apply _|intros ??]
  | |- respects _ (kcall _ _) => leaf
  | |- respects _ (emit _) => leaf
  | |- respects _ (match ?x with _ => _ end) => destruct x
  | |- respects _ Now => unfold Now
  | |- respects _ (httpDo _) => unfold httpDo
  | |- respects _ (getRoute _) => unfold getRoute
  | |- respects _ (updateRoute _) => unfold updateRoute
  | |- respects _ (updateRouteStatus _) => unfold updateRouteStatus
  | |- respects _ listRoutes => unfold listRoutes
  | |- respects _ (getService _) => unfold getService
  | |- respects _ (getEndpoints _) => unfold getEndpoints
  | |- respects _ (getGateway _) => unfold getGateway
  | |- respects _ (getSecret _) => unfold getSecret
  | |- respects _ (getChild _ _) => unfold getChild
  | |- respects _ (listChildren _ _ _) => unfold listChildren
  | |- respects _ (createChild _) => unfold createChild
  | |- respects _ (updateChild _) => unfold updateChild
  | |- respects _ (deleteChild _ _) => unfold deleteChild
  end.
Ltac follow hints leaf := repeat (follow_step hints leaf; cbv beta).
