(* ===== verification/Trace.v ===== *)
(** * The log as a trace of the environment

    [call_step c e e']: the call [c], with the result it holds, takes the
    environment from [e] to [e'].  [traces] says that a run's log extends by a
    sequence of calls that explains its effect on the environment; every
    function of the model does ([trace_steps] proves it by following its
    structure), so facts about the cluster follow from facts about the log. *)
From S2P Require Import Prelude RouteTypes Objects Env.

Section trace.
Context {E : Type} `{KubeEnv E}.

Definition call_step (c : Call) (e e' : E) : Prop :=
  match c with
  | CNow t => env_now e = (t, e')
  | CHttp url r => env_httpDo url e = (r, e')
  | CGetRoute n r => env_getRoute n e = (r, e')
  | CUpdateRoute route r => env_updateRoute route e = (r, e')
  | CUpdateRouteStatus route r => env_updateRouteStatus route e = (r, e')
  | CListRoutes r => env_listRoutes e = (r, e')
  | CGetService n r => env_getService n e = (r, e')
  | CGetEndpoints n r => env_getEndpoints n e = (r, e')
  | CGetGateway n r => env_getGateway n e = (r, e')
  | CGetSecret n r => env_getSecret n e = (r, e')
  | CGetChild k n r => env_getChild k n e = (r, e')
  | CListChildren k labels ns r => env_listChildren k labels ns e = (r, e')
  | CCreateChild c r => env_createChild c e = (r, e')
  | CUpdateChild c r => env_updateChild c e = (r, e')
  | CDeleteChild k n r => env_deleteChild k n e = (r, e')
  | CEvent _ _ _ | CCounterInc _ | CGaugeSet _ _ _ | CGaugeDelete _ _ => e' = e
  end.

Inductive trace : list Call → E → E → Prop :=
| trace_nil e : trace [] e e
| trace_cons c k e e' e'' : call_step c e e' → trace k e' e'' → trace (c :: k) e e''.

Definition traces (s s' : St E) : Prop :=
  ∃ k, s_log s' = s_log s ++ k ∧ trace k (s_env s) (s_env s').

Lemma trace_app k k' e e' e'' : trace k e e' → trace k' e' e'' → trace (k ++ k') e e''.
Proof. induction 1; intros; simpl; [done|]. econstructor; eauto. Qed.

#[export] Instance traces_preorder : PreOrder traces.
Proof.
  split.
  - intros s. exists []. rewrite app_nil_r. split; [done|constructor].
  - intros s1 s2 s3 (k & Hk & Ht) (k' & Hk' & Ht'). exists (k ++ k').
    rewrite Hk', Hk, app_assoc. split; [done|]. by eapply trace_app.
Qed.

Lemma traces_kcall {A} op (entry : A → Call) :
  (∀ e, call_step (entry (op e).1) e (op e).2) → respects traces (kcall op entry).
Proof.
  intros Hop s. unfold kcall. specialize (Hop (s_env s)).
  destruct (op (s_env s)) as [a e]. exists [entry a]. simpl in *. split; [done|].
  econstructor; [done|constructor].
Qed.
Lemma traces_emit c : (∀ e, call_step c e e) → respects traces (emit c).
Proof.
  intros Hc s. exists [c]. simpl. split; [done|]. econstructor; [apply Hc|constructor].
Qed.
Lemma traces_modifyRec f : respects traces (modifyRec f).
Proof. intros s. exists []. simpl. rewrite app_nil_r. split; [done|constructor]. Qed.

Lemma traces_recordEvent t reason msg : respects traces (recordEvent t reason msg).
Proof.
  unfold recordEvent. apply respects_bind; [apply _|apply respects_gets; apply _|].
  intros rc. destruct (rc_Recorder rc); [by apply traces_emit|apply respects_ret; apply _].
Qed.
Lemma traces_Lock : respects traces Lock.
Proof.
  unfold Lock. apply respects_bind; [apply _|apply respects_gets; apply _|].
  intros rc. destruct (rc_canaryStateMu rc);
    [apply respects_panic; apply _|apply traces_modifyRec].
Qed.
Lemma traces_Unlock : respects traces Unlock.
Proof.
  unfold Unlock. apply respects_bind; [apply _|apply respects_gets; apply _|].
  intros rc. destruct (rc_canaryStateMu rc);
    [apply traces_modifyRec|apply respects_panic; apply _].
Qed.
End trace.

Create HintDb traces.
#[export] Hint Resolve traces_modifyRec traces_recordEvent traces_Lock traces_Unlock : traces.

Ltac trace_steps :=
  follow ltac:(eauto with traces nocore)
    ltac:(first [apply traces_emit; intros ?; reflexivity
                |apply traces_kcall; intros ?; simpl; apply surjective_pairing]).
