(* ===== verification/Mem.v ===== *)
(** * A concrete environment

    An in-memory cluster in the manner of controller-runtime's fake client,
    with a clock that each reading advances by one millisecond, scripted HTTP
    answers, and writes or lists that can be denied; and concrete library
    functions.  They instantiate [KubeEnv] and [GoLibs], discharge the laws the
    theorems assume, and let witnesses run the model. *)
From S2P Require Import Prelude GoStd GoTime RouteTypes Objects Env.

(** ** Library functions *)

Fixpoint toValue (v : goAny) : pbValue :=
  match v with
  | AString s => PbString s
  | AInt64 n => PbNumber n
  | AUint64 n => PbNumber n
  | AMap fs => PbStruct (map (λ '(k, x), (k, toValue x)) fs)
  end.

(** Whether all the strings of a value are valid UTF-8. *)
Fixpoint goAny_valid (v : goAny) : bool :=
  match v with
  | AString s => ValidString s
  | AInt64 _ | AUint64 _ => true
  | AMap fs => forallb (λ '(k, x), ValidString k && goAny_valid x) fs
  end.

Definition dquote : string := String "034"%char "".

Definition mem_ContainsFinalizer (r : Route) (f : string) : bool :=
  bool_decide (f ∈ m_Finalizers (r_Meta r)).
Definition mem_AddFinalizer (r : Route) (f : string) : Route :=
  if mem_ContainsFinalizer r f then r else set_Finalizers (m_Finalizers (r_Meta r) ++ [f]) r.
Definition mem_RemoveFinalizer (r : Route) (f : string) : Route :=
  set_Finalizers (filter (λ g, g ≠ f) (m_Finalizers (r_Meta r))) r.

Definition mem_SetControllerReference (r : Route) (c : Child) : result Child :=
  match m_OwnerReferences (c_Meta c) with
  | [] => Ok (set_Owners [mkOwnerRef "Route" (r_Name r) true] c)
  | _ => Err (Errorf "already owned by another controller")
  end.

#[export] Instance memLibs : GoLibs := {|
  structpb_NewStruct m :=
    if goAny_valid (AMap m) then Ok (map (λ '(k, x), (k, toValue x)) m)
    else Err (Errorf "proto: string field contains invalid UTF-8");
  durationpb_New d := mkPbDuration (Z.quot d 1000000000) (Z.rem d 1000000000);
  strconv_Quote s := dquote +:+ s +:+ dquote;
  pem_Decode s := if HasPrefix s "pem:" then Some (TrimPrefix s "pem:") else None;
  x509_ParseCertificate s :=
    match ParseUint s 32 with
    | inr secs => Ok (secs * Second)%Z
    | inl _ => Err (Errorf "x509: malformed certificate")
    end;
  http_NewRequest _ := None;
  ContainsFinalizer := mem_ContainsFinalizer;
  AddFinalizer := mem_AddFinalizer;
  RemoveFinalizer := mem_RemoveFinalizer;
  SetControllerReference := mem_SetControllerReference;
  apierrors_NewInvalid name _ := Errorf ("Route " +:+ name +:+ " is invalid")
|}.

(** ** The cluster *)

Record Mem := mkMem {
  mem_routes : gmap NamespacedName Route;
  mem_services : gmap NamespacedName Service;
  mem_endpoints : gmap NamespacedName Endpoints;
  mem_gateways : gmap NamespacedName Gateway;
  mem_secrets : gmap NamespacedName Secret;
  mem_children : gmap ObjKey Child;
  mem_clock : Z;
  mem_http : list (result Z);
  mem_version : Z;
  (** objects whose writes, kinds whose lists, are refused *)
  mem_denied : gset ObjKey;
  mem_deniedLists : gset Kind
}.

Definition mem_empty (clock : Z) : Mem :=
  mkMem ∅ ∅ ∅ ∅ ∅ ∅ clock [] 1 ∅ ∅.

Definition with_routes f (m : Mem) : Mem :=
  mkMem (f (mem_routes m)) (mem_services m) (mem_endpoints m) (mem_gateways m) (mem_secrets m)
    (mem_children m) (mem_clock m) (mem_http m) (mem_version m + 1) (mem_denied m)
    (mem_deniedLists m).
Definition with_children f (m : Mem) : Mem :=
  mkMem (mem_routes m) (mem_services m) (mem_endpoints m) (mem_gateways m) (mem_secrets m)
    (f (mem_children m)) (mem_clock m) (mem_http m) (mem_version m + 1) (mem_denied m)
    (mem_deniedLists m).
Definition with_clock t (m : Mem) : Mem :=
  mkMem (mem_routes m) (mem_services m) (mem_endpoints m) (mem_gateways m) (mem_secrets m)
    (mem_children m) t (mem_http m) (mem_version m) (mem_denied m) (mem_deniedLists m).
Definition with_http h (m : Mem) : Mem :=
  mkMem (mem_routes m) (mem_services m) (mem_endpoints m) (mem_gateways m) (mem_secrets m)
    (mem_children m) (mem_clock m) h (mem_version m) (mem_denied m) (mem_deniedLists m).

Definition errNotFound : error := mkError true "not found".
Definition errConflict : error := mkError false "the object has been modified".
Definition errExists : error := mkError false "already exists".
Definition errForbidden : error := mkError false "forbidden".

Definition found {K A} `{Countable K} (k : K) (store : gmap K A) : result A :=
  match store !! k with Some a => Ok a | None => Err errNotFound end.

(** The Routes stored under their own name, the only ones the server knows. *)
Definition mem_known (m : Mem) : gmap NamespacedName Route :=
  filter (λ x, r_NN x.2 = x.1) (mem_routes m).

(** A write of a route keeps the stored status; the last finalizer leaving a
    route under deletion removes it. *)
Definition mem_updateRoute (r : Route) (m : Mem) : result Route * Mem :=
  match mem_known m !! r_NN r with
  | None => (Err errNotFound, m)
  | Some old =>
      let new := mkRoute (r_Meta r) (r_Spec r) (r_Status old) in
      if negb (deletionIsZero new) && bool_decide (m_Finalizers (r_Meta new) = []) then
        (Ok new, with_routes (delete (r_NN r)) m)
      else (Ok new, with_routes <[r_NN r := new]> m)
  end.
Definition mem_updateRouteStatus (r : Route) (m : Mem) : result Route * Mem :=
  match mem_known m !! r_NN r with
  | None => (Err errNotFound, m)
  | Some old =>
      let new := mkRoute (r_Meta old) (r_Spec old) (r_Status r) in
      (Ok new, with_routes <[r_NN r := new]> m)
  end.

Definition mem_store (c : Child) (m : Mem) : Mem :=
  with_children <[c_Key c := SetResourceVersion (fmt_d (mem_version m)) c]> m.

Definition mem_createChild (c : Child) (m : Mem) : result unit * Mem :=
  if bool_decide (c_Key c ∈ mem_denied m) then (Err errForbidden, m)
  else match mem_children m !! c_Key c with
       | Some _ => (Err errExists, m)
       | None => (Ok tt, mem_store c m)
       end.
Definition mem_updateChild (c : Child) (m : Mem) : result unit * Mem :=
  if bool_decide (c_Key c ∈ mem_denied m) then (Err errForbidden, m)
  else match mem_children m !! c_Key c with
       | None => (Err errNotFound, m)
       | Some old =>
           if bool_decide (m_ResourceVersion (c_Meta c) = m_ResourceVersion (c_Meta old))
           then (Ok tt, mem_store c m) else (Err errConflict, m)
       end.
Definition mem_deleteChild (k : Kind) (n : NamespacedName) (m : Mem) : result unit * Mem :=
  if bool_decide ((k, n) ∈ mem_denied m) then (Err errForbidden, m)
  else match mem_children m !! (k, n) with
       | None => (Err errNotFound, m)
       | Some _ => (Ok tt, with_children (delete (k, n)) m)
       end.

(** The objects of a kind in a namespace that carry the labels. *)
Definition selects (labels : gmap string string) (c : Child) : bool :=
  bool_decide (labels ⊆ m_Labels (c_Meta c)).
Definition mem_listChildren (k : Kind) (labels : gmap string string) (ns : string) (m : Mem)
    : result (list Child) * Mem :=
  if bool_decide (k ∈ mem_deniedLists m) then (Err errForbidden, m)
  else (Ok (filter (λ x, x.1 = c_Key x.2 ∧ c_Kind x.2 = k ∧ nn_Namespace (c_NN x.2) = ns ∧
                         selects labels x.2 = true) (map_to_list (mem_children m))).*2, m).

#[export] Instance memEnv : KubeEnv Mem := {|
  env_now m := (mem_clock m, with_clock (mem_clock m + Millisecond) m);
  env_httpDo url m :=
    match mem_http m with
    | [] => (Err (Errorf "connection refused"), m)
    | r :: rs => (r, with_http rs m)
    end;
  env_getRoute n m := (found n (mem_known m), m);
  env_updateRoute := mem_updateRoute;
  env_updateRouteStatus := mem_updateRouteStatus;
  env_listRoutes m := (Ok (map_to_list (mem_known m)).*2, m);
  env_getService n m := (found n (mem_services m), m);
  env_getEndpoints n m := (found n (mem_endpoints m), m);
  env_getGateway n m := (found n (mem_gateways m), m);
  env_getSecret n m := (found n (mem_secrets m), m);
  env_getChild k n m := (found (k, n) (mem_children m), m);
  env_listChildren := mem_listChildren;
  env_createChild := mem_createChild;
  env_updateChild := mem_updateChild;
  env_deleteChild := mem_deleteChild
|}.
