(* ===== verification/Store.v ===== *)
(** * The cluster's store of generated objects

    [ChildStore] states what the API server promises about the objects the
    operator writes: a view of an environment as a finite map, and how each
    call reads or changes it.  No other client runs between two calls of a
    reconcile.  [store_trace] turns a log into its effect on the map; the
    in-memory cluster is an instance. *)
From S2P Require Import Prelude GoStd RouteTypes Objects Env Trace Mem.

Class ChildStore (E : Type) `{KubeEnv E} := {
  children : E → gmap ObjKey Child;
  (** what the server keeps of an object it accepts *)
  stored_as : Child → Child → Prop;
  stored_as_key c c' : stored_as c c' → c_Key c' = c_Key c;
  (** accepted writes store the object, refused ones change nothing *)
  createChild_law c e r e' : env_createChild c e = (r, e') →
    match r with
    | Ok _ => ∃ c', stored_as c c' ∧ children e' = <[c_Key c := c']> (children e)
    | Err _ => children e' = children e
    end;
  updateChild_law c e r e' : env_updateChild c e = (r, e') →
    match r with
    | Ok _ => ∃ c', stored_as c c' ∧ children e' = <[c_Key c := c']> (children e)
    | Err _ => children e' = children e
    end;
  deleteChild_law k n e r e' : env_deleteChild k n e = (r, e') →
    match r with
    | Ok _ => children e' = delete (k, n) (children e)
    | Err err => children e' = children e ∧
        (IsNotFound err = true → children e !! (k, n) = None)
    end;
  (** reads tell what is stored *)
  getChild_law k n e r e' : env_getChild k n e = (r, e') → children e' = children e ∧
    match r with
    | Ok c => children e !! (k, n) = Some c
    | Err err => IsNotFound err = true → children e !! (k, n) = None
    end;
  listChildren_law k labels ns e r e' : env_listChildren k labels ns e = (r, e') →
    children e' = children e ∧
    match r with
    | Ok cs => ∀ c, c ∈ cs ↔ children e !! c_Key c = Some c ∧ c_Kind c = k ∧
        nn_Namespace (c_NN c) = ns ∧ labels ⊆ m_Labels (c_Meta c)
    | Err _ => True
    end;
  (** the other calls do not concern these objects *)
  now_frame e : children (env_now e).2 = children e;
  httpDo_frame url e : children (env_httpDo url e).2 = children e;
  getRoute_frame n e : children (env_getRoute n e).2 = children e;
  updateRoute_frame r e : children (env_updateRoute r e).2 = children e;
  updateRouteStatus_frame r e : children (env_updateRouteStatus r e).2 = children e;
  listRoutes_frame e : children (env_listRoutes e).2 = children e;
  getService_frame n e : children (env_getService n e).2 = children e;
  getEndpoints_frame n e : children (env_getEndpoints n e).2 = children e;
  getGateway_frame n e : children (env_getGateway n e).2 = children e;
  getSecret_frame n e : children (env_getSecret n e).2 = children e
}.

(** The object a call writes, if it is accepted; the key it deletes. *)
Definition accepted (c : Call) : option Child :=
  match c with
  | CCreateChild c (Ok _) | CUpdateChild c (Ok _) => Some c
  | _ => None
  end.
Definition deleted (c : Call) : option ObjKey :=
  match c with CDeleteChild k n (Ok _) => Some (k, n) | _ => None end.

(** The server deleted the object of a key, or had none. *)
Definition removed (k : list Call) (key : ObjKey) : Prop :=
  ∃ r, CDeleteChild key.1 key.2 r ∈ k ∧
    match r with Ok _ => True | Err err => IsNotFound err = true end.

(** The key of the object a call may change. *)
Definition touches (c : Call) : option ObjKey :=
  match c with
  | CCreateChild c _ | CUpdateChild c _ => Some (c_Key c)
  | CDeleteChild k n _ => Some (k, n)
  | _ => None
  end.

Section store.
Context {E : Type} `{ChildStore E}.

Lemma call_step_store c (e e' : E) : call_step c e e' →
  match accepted c, deleted c with
  | Some o, _ => ∃ o', stored_as o o' ∧ children e' = <[c_Key o := o']> (children e)
  | None, Some key => children e' = delete key (children e)
  | None, None => children e' = children e
  end.
Proof.
  destruct c; simpl; intros Hc; try (by subst);
    try (apply (f_equal snd) in Hc; simpl in Hc; subst e';
         first [apply now_frame|apply httpDo_frame|apply getRoute_frame|apply updateRoute_frame
               |apply updateRouteStatus_frame|apply listRoutes_frame|apply getService_frame
               |apply getEndpoints_frame|apply getGateway_frame|apply getSecret_frame]).
  - by apply getChild_law in Hc as [-> _].
  - by apply listChildren_law in Hc as [-> _].
  - apply createChild_law in Hc. by destruct r.
  - apply updateChild_law in Hc. by destruct r.
  - apply deleteChild_law in Hc. destruct r; [done|]. by destruct Hc.
Qed.

(** A key no call touches keeps its object. *)
Lemma store_untouched k (e e' : E) key :
  trace k e e' → Forall (λ c, touches c ≠ Some key) k → children e' !! key = children e !! key.
Proof.
  induction 1 as [|c k e e' e'' Hc _ IH]; [done|]. intros [Ht Hall]%Forall_cons.
  rewrite IH by done. apply call_step_store in Hc.
  destruct c as [| | | | | | | | | | | |c r|c r|kd n r| | | |];
    cbn [accepted deleted touches] in Hc, Ht; try (by rewrite Hc); destruct r;
    cbn in Hc; try (by rewrite Hc).
  - destruct Hc as (o' & _ & ->). rewrite lookup_insert_ne; congruence.
  - destruct Hc as (o' & _ & ->). rewrite lookup_insert_ne; congruence.
  - rewrite Hc. apply lookup_delete_ne. intros Heq. apply Ht. by f_equal.
Qed.

(** A key that some call writes, and none deletes, ends up with one of the
    objects written to it. *)
Lemma store_written k (e e' : E) key :
  trace k e e' → (∃ c o, c ∈ k ∧ accepted c = Some o ∧ c_Key o = key) →
  Forall (λ c, deleted c ≠ Some key) k →
  ∃ c o o', c ∈ k ∧ accepted c = Some o ∧ c_Key o = key ∧ stored_as o o' ∧
    children e' !! key = Some o'.
Proof.
  intros Ht Hw Hd.
  assert (∀ e0, trace k e0 e' →
    (∃ c o o', c ∈ k ∧ accepted c = Some o ∧ c_Key o = key ∧ stored_as o o' ∧
      children e' !! key = Some o') ∨
    (Forall (λ c, ∀ o, accepted c = Some o → c_Key o ≠ key) k ∧
     children e' !! key = children e0 !! key)) as Hgen.
  { clear Hw e Ht. induction k as [|c k IH]; intros e0 Ht; inversion Ht; subst.
    { right. by split. }
    apply Forall_cons in Hd as [Hd Hds].
    edestruct IH as [(c' & o & o' & ? & ?)|[Hno Heq]]; [done|done|left|].
    { exists c', o, o'. set_solver. }
    match goal with Hs : call_step _ _ _ |- _ => apply call_step_store in Hs; rename Hs into Hc end.
    destruct (accepted c) as [o|] eqn:Ha.
    - destruct Hc as (o' & Hst & Hc). destruct (decide (c_Key o = key)) as [Hk|Hk].
      + left. exists c, o, o'. split_and!; [set_solver|done..|].
        by rewrite Heq, Hc, <-Hk, lookup_insert_eq.
      + right. split; [constructor; [|done]; naive_solver|].
        by rewrite Heq, Hc, lookup_insert_ne.
    - right. split; [constructor; [|done]; naive_solver|]. destruct (deleted c) as [key'|].
      + rewrite Heq, Hc. apply lookup_delete_ne. intros ->. by apply Hd.
      + by rewrite Heq, Hc. }
  destruct (Hgen e Ht) as [?|[Hno _]]; [done|].
  destruct Hw as (c & o & Hin & Ha & Hk). rewrite Forall_forall in Hno.
  by destruct (Hno c Hin o Ha).
Qed.

(** A removed key that no call writes ends up without object. *)
Lemma store_removed k (e e' : E) key :
  trace k e e' → removed k key → Forall (λ c, ∀ o, accepted c = Some o → c_Key o ≠ key) k →
  children e' !! key = None.
Proof.
  intros Ht Hr. assert (children e !! key = None ∨ removed k key) as Hor by auto. clear Hr.
  revert Hor. induction Ht as [e|c k e e1 e' Hc _ IH]; intros Hor.
  { destruct Hor as [?|(r & ?%elem_of_nil & _)]; done. }
  intros [Hacc Hall]%Forall_cons. apply IH; [|done].
  destruct Hor as [Hnone|(r & [Heq|Hin]%elem_of_cons & Hr)].
  - left. apply call_step_store in Hc. destruct (accepted c) as [o|].
    + destruct Hc as (o' & _ & ->). rewrite lookup_insert_ne; auto.
    + destruct (deleted c); rewrite Hc; [|done]. apply lookup_delete_None. auto.
  - left. subst c. simpl in Hc. apply deleteChild_law in Hc. destruct key as [kd n], r as [u|err].
    + rewrite Hc. apply lookup_delete_eq.
    + destruct Hc as [-> Hn]. auto.
  - right. by exists r.
Qed.
End store.

(** ** The in-memory cluster keeps its promises *)

#[export] Instance memStore : ChildStore Mem.
Proof.
  refine {| children := mem_children;
            stored_as c c' := ∃ v, c' = SetResourceVersion v c |}.
  - by intros c c' [v ->].
  - intros c e r e'. simpl. unfold mem_createChild. intros Hc.
    repeat case_match; simplify_eq; try done. eexists. split; [by eexists|done].
  - intros c e r e'. simpl. unfold mem_updateChild. intros Hc.
    repeat case_match; simplify_eq; try done. eexists. split; [by eexists|done].
  - intros k n e r e'. simpl. unfold mem_deleteChild. intros Hc.
    repeat case_match; simplify_eq; done.
  - intros k n e r e' [= <- <-]. split; [done|]. unfold found.
    destruct (mem_children e !! (k, n)) eqn:Hk; [done|]. by intros _.
  - intros k labels ns e r e'. simpl. unfold mem_listChildren. intros Hc.
    case_match; simplify_eq; [done|]. split; [done|]. intros c.
    rewrite list_elem_of_fmap. unfold selects. split.
    + intros ([key c'] & -> & ((Hk & Hkd & Hns & Hl) & Hin)%list_elem_of_filter). cbn [fst snd] in *.
      apply bool_decide_eq_true in Hl. subst key. apply elem_of_map_to_list in Hin. done.
    + intros (Hk & Hkd & Hns & Hl). exists (c_Key c, c). split; [done|].
      apply list_elem_of_filter. cbn [fst snd]. rewrite bool_decide_eq_true.
      split; [done|]. by apply elem_of_map_to_list.
  - done.
  - intros url e. simpl. by destruct (mem_http e).
  - done.
  - intros r e. simpl. unfold mem_updateRoute. by repeat case_match.
  - intros r e. simpl. unfold mem_updateRouteStatus. by repeat case_match.
  - done.
  - done.
  - done.
  - done.
  - done.
Defined.
