(* ===== verification/Webhook.v ===== *)
(** * The admission webhook (api/v1alpha1/route_webhook.go)

    [Default] fills in the gateway reference; [validateRoute] rejects hosts the
    Gateway's listeners do not cover and rules another live Route already
    claims.  The webhook's calls run over the environment alone: it has no
    state of its own beyond the client, whose presence is an argument. *)
From S2P Require Import Prelude GoStd RouteTypes Objects Env Mem.

Module Webhook.

Definition defaultGatewayName : string := "istio-gateway".
Definition defaultGatewayNamespace : string := "istio-system".

Record routeRuleIdentity := mkIdentity {
  id_GatewayNamespace : string;
  id_GatewayName : string;
  id_Host : string;
  id_Path : string
}.
#[export] Instance routeRuleIdentity_eq_dec : EqDecision routeRuleIdentity.
Proof. solve_decision. Defined.
#[export] Instance routeRuleIdentity_countable : Countable routeRuleIdentity.
Proof.
  refine (inj_countable'
    (λ i, (id_GatewayNamespace i, id_GatewayName i, id_Host i, id_Path i))
    (λ '(a, b, c, d), mkIdentity a b c d) _).
  by intros [].
Defined.

(** ** Defaulting *)

(** [routeDefaulter.Default]: the mutated object. *)
Definition Default (obj : Route) : Route :=
  let g := match rs_Gateway (r_Spec obj) with None => mkGateway "" "" | Some g => g end in
  let g := if bool_decide (rg_Name g = "")
           then mkGateway defaultGatewayName (rg_Namespace g) else g in
  let g := if bool_decide (rg_Namespace g = "")
           then mkGateway (rg_Name g) defaultGatewayNamespace else g in
  set_Spec_Gateway (Some g) obj.

(** ** Identities of rules *)

Definition normalizeRoutePath (path : string) : string :=
  if bool_decide (path = "") then "/" else path.

(** [(name, namespace)] *)
Definition gatewayRefFromSpec (gw : option RouteGateway) : string * string :=
  match gw with
  | None => (defaultGatewayName, defaultGatewayNamespace)
  | Some gw =>
      (if bool_decide (rg_Name gw ≠ "") then rg_Name gw else defaultGatewayName,
       if bool_decide (rg_Namespace gw ≠ "") then rg_Namespace gw else defaultGatewayNamespace)
  end.

Definition buildRuleIdentity (route : Route) (rule : RouteRule) : routeRuleIdentity :=
  let '(gwName, gwNs) := gatewayRefFromSpec (rs_Gateway (r_Spec route)) in
  mkIdentity gwNs gwName (rr_Host rule) (normalizeRoutePath (rr_Path rule)).

(** ** Hostname patterns *)

(** The loop of [gatewayHostPatterns], from its [seen] and [patterns]. *)
Fixpoint gatewayHostPatterns_from (seen : gset string) (patterns : list string)
    (listeners : list Listener) : list string :=
  match listeners with
  | [] => patterns
  | l :: listeners' =>
      match li_Hostname l with
      | None => []
      | Some h =>
          if bool_decide (h = "") then []
          else if bool_decide (h ∈ seen) then gatewayHostPatterns_from seen patterns listeners'
          else gatewayHostPatterns_from ({[h]} ∪ seen) (patterns ++ [h]) listeners'
      end
  end.
Definition gatewayHostPatterns (gw : Gateway) : list string :=
  gatewayHostPatterns_from ∅ [] (gw_Listeners gw).

Definition hostMatchesPattern (host pattern : string) : bool :=
  if bool_decide (pattern = "*") then true
  else if HasPrefix pattern "*." then
    let suffix := TrimPrefix pattern "*." in
    if negb (HasSuffix host ("." +:+ suffix)) then false
    else bool_decide (host ≠ suffix)
  else bool_decide (host = pattern).

Fixpoint hostMatchesAnyPattern (host : string) (patterns : list string) : bool :=
  match patterns with
  | [] => false
  | pattern :: patterns' =>
      if hostMatchesPattern host pattern then true else hostMatchesAnyPattern host patterns'
  end.

(** ** Validation *)

Section validate.
Context {E : Type} `{GoLibs, KubeEnv E}.

(** One call of [routeWebhookClient]. *)
Definition client {A} (op : E → A * E) : M E A := λ e, let '(a, e') := op e in (Ret a, e').

(** The [allErrs] of [validateGatewayHostnames]. *)
Definition hostnameErrors (allowedPatterns : list string) (rules : list RouteRule)
    : list FieldError :=
  omap (λ '(i, rule),
    if negb (hostMatchesAnyPattern (rr_Host rule) allowedPatterns) then
      Some (FieldInvalid ("spec.rules[" +:+ fmt_d (Z.of_nat i) +:+ "].host") (rr_Host rule)
        ("host must match one of gateway listener hostnames: " +:+ Join allowedPatterns ", "))
    else None) (indexed rules).

Definition validateGatewayHostnames (route : Route) : M E (option error) :=
  let '(gwName, gwNs) := gatewayRefFromSpec (rs_Gateway (r_Spec route)) in
  gw ← client (env_getGateway (mkNN gwNs gwName));
  match gw with
  | Err err =>
      if IsNotFound err then
        mret (Some (apierrors_NewInvalid (r_Name route)
          [FieldNotFound "spec.gateway" (gwNs +:+ "/" +:+ gwName)]))
      else mret (Some err)
  | Ok gw =>
      let allowedPatterns := gatewayHostPatterns gw in
      if bool_decide (length allowedPatterns = 0) then mret None
      else
        let allErrs := hostnameErrors allowedPatterns (rs_Rules (r_Spec route)) in
        if nonempty allErrs then mret (Some (apierrors_NewInvalid (r_Name route) allErrs))
        else mret None
  end.

(** [currentRules]: the identities of the route's own rules. *)
Definition currentRules (route : Route) : gset routeRuleIdentity :=
  list_to_set (buildRuleIdentity route <$> rs_Rules (r_Spec route)).

(** The inner loop over [other]'s rules, up to its [break]. *)
Fixpoint firstConflict (current : gset routeRuleIdentity) (other : Route)
    (rules : list RouteRule) : option FieldError :=
  match rules with
  | [] => None
  | otherRule :: rules' =>
      let id := buildRuleIdentity other otherRule in
      if bool_decide (id ∈ current) then
        Some (FieldForbidden "spec.rules"
          ("conflicts with existing Route " +:+ r_Namespace other +:+ "/" +:+ r_Name other +:+
           " for gateway " +:+ id_GatewayNamespace id +:+ "/" +:+ id_GatewayName id +:+
           " host=" +:+ id_Host id +:+ " path=" +:+ id_Path id))
      else firstConflict current other rules'
  end.

Definition conflictErrors (route : Route) (items : list Route) : list FieldError :=
  omap (λ other,
    if bool_decide (r_Namespace other = r_Namespace route)
       && bool_decide (r_Name other = r_Name route) then None
    else if negb (deletionIsZero other) then None
    else firstConflict (currentRules route) other (rs_Rules (r_Spec other))) items.

Definition validateRouteConflicts (route : Route) : M E (option error) :=
  allRoutes ← client env_listRoutes;
  match allRoutes with
  | Err err => mret (Some err)
  | Ok items =>
      let allErrs := conflictErrors route items in
      if nonempty allErrs then mret (Some (apierrors_NewInvalid (r_Name route) allErrs))
      else mret None
  end.

(** [haveClient] is [routeWebhookClient != nil]. *)
Definition validateRoute (haveClient : bool) (route : Route) : M E (option error) :=
  if negb haveClient then mret (Some (Errorf "route webhook client is not initialized"))
  else
    err ← validateGatewayHostnames route;
    match err with
    | Some err => mret (Some err)
    | None =>
        err ← validateRouteConflicts route;
        match err with
        | Some err => mret (Some err)
        | None => mret None
        end
    end.

Definition ValidateCreate (haveClient : bool) (obj : Route) : M E (option error) :=
  validateRoute haveClient obj.
Definition ValidateUpdate (haveClient : bool) (oldObj newObj : Route) : M E (option error) :=
  validateRoute haveClient newObj.
Definition ValidateDelete (obj : Route) : M E (option error) := mret None.
End validate.

(** ** Specifications *)

(** When a hostname is covered by a listener pattern. *)
Inductive host_matches : string → string → Prop :=
| match_any host : host_matches host "*"
| match_wildcard label suffix : host_matches (label +:+ "." +:+ suffix) ("*." +:+ suffix)
| match_exact host : HasPrefix host "*." = false → host_matches host host.

(** The hosts a Gateway admits: all of them when some listener names no
    hostname (or there is no listener). *)
Definition gateway_admits (gw : Gateway) (host : string) : Prop :=
  gw_Listeners gw = [] ∨
  (∃ l, l ∈ gw_Listeners gw ∧ (li_Hostname l = None ∨ li_Hostname l = Some "")) ∨
  (∃ l h, l ∈ gw_Listeners gw ∧ li_Hostname l = Some h ∧ host_matches host h).

(** Two routes claim the same gateway, host and path. *)
Definition clash (a b : Route) : Prop :=
  ∃ ra rb, ra ∈ rs_Rules (r_Spec a) ∧ rb ∈ rs_Rules (r_Spec b) ∧
    buildRuleIdentity a ra = buildRuleIdentity b rb.

(** [other] is another route, not being deleted, that clashes with [route]. *)
Definition live_rival (route other : Route) : Prop :=
  r_NN other ≠ r_NN route ∧ deletionIsZero other = true ∧ clash route other.

(** ** Lemmas *)

Lemma hostMatchesPattern_host_matches host pattern :
  hostMatchesPattern host pattern = true ↔ host_matches host pattern.
Proof.
  unfold hostMatchesPattern. case_bool_decide as Hs.
  { subst. split; [intros _; constructor|done]. }
  destruct (HasPrefix pattern "*.") eqn:Hp.
  - apply HasPrefix_spec in Hp as [suffix ->]. rewrite TrimPrefix_app.
    destruct (HasSuffix host ("." +:+ suffix)) eqn:Hh; simpl.
    + apply HasSuffix_spec in Hh as [p ->]. rewrite bool_decide_eq_true.
      split; [intros _; constructor|]. intros _ Heq.
      apply (f_equal String.length) in Heq. rewrite !string_length_app in Heq. simpl in Heq. lia.
    + split; [done|]. intros Hm. exfalso. inversion Hm as [| |h Hpre]; subst.
      * match goal with Heq : "" +:+ _ = "" +:+ _ |- _ =>
          rewrite !string_app_nil in Heq; subst end.
        assert (HasSuffix (label +:+ "." +:+ suffix) ("." +:+ suffix) = true) by
          (apply HasSuffix_spec; by exists label). congruence.
      * assert (HasPrefix ("*." +:+ suffix) "*." = true) by (apply HasPrefix_spec; eauto).
        congruence.
  - rewrite bool_decide_eq_true. split; [intros ->; by constructor|].
    intros Hm. inversion Hm as [|label suf|]; subst; [done| |done].
    assert (HasPrefix ("*." +:+ suf) "*." = true) by (apply HasPrefix_spec; eauto). congruence.
Qed.

Lemma hostMatchesAnyPattern_spec host ps :
  hostMatchesAnyPattern host ps = true ↔ ∃ p, p ∈ ps ∧ host_matches host p.
Proof.
  induction ps as [|p ps IH]; simpl; [set_solver|].
  destruct (hostMatchesPattern host p) eqn:Hp.
  - split; [|done]. intros _. exists p. rewrite <-hostMatchesPattern_host_matches. set_solver.
  - rewrite IH. split; [set_solver|]. intros (q & Hq & Hm).
    apply elem_of_cons in Hq as [->|Hq]; [|eauto].
    apply hostMatchesPattern_host_matches in Hm. congruence.
Qed.

Definition listener_open (l : Listener) : Prop :=
  li_Hostname l = None ∨ li_Hostname l = Some "".

(** The patterns are the listeners' hostnames, or none when a listener is open. *)
Lemma gatewayHostPatterns_from_spec seen ps ls :
  (∀ h, h ∈ seen ↔ h ∈ ps) →
  (Exists listener_open ls ∧ gatewayHostPatterns_from seen ps ls = []) ∨
  (Forall (λ l, ¬ listener_open l) ls ∧
   ∀ h, h ∈ gatewayHostPatterns_from seen ps ls ↔
        h ∈ ps ∨ ∃ l, l ∈ ls ∧ li_Hostname l = Some h).
Proof.
  unfold listener_open. revert seen ps.
  induction ls as [|l ls IH]; intros seen ps Hseen; simpl; [right; set_solver|].
  destruct (li_Hostname l) as [h|] eqn:Hh; [|left; split; [constructor; auto|done]].
  case_bool_decide as He; [subst; left; split; [constructor; auto|done]|].
  assert (¬ (Some h = None ∨ Some h = Some "")) as Hn by naive_solver.
  case_bool_decide as Hin.
  - destruct (IH seen ps Hseen) as [[Hex Heq]|[Hall Hps]]; [left|right].
    + split; [by constructor 2|done].
    + split; [constructor; [by rewrite Hh|done]|]. intros h'. rewrite Hps.
      split; [set_solver|]. intros [?|(l' & [->|Hl']%elem_of_cons & Hl'h)]; [auto| |eauto].
      left. apply Hseen. congruence.
  - destruct (IH ({[h]} ∪ seen) (ps ++ [h])) as [[Hex Heq]|[Hall Hps]]; [set_solver|left|right].
    + split; [by constructor 2|done].
    + split; [constructor; [by rewrite Hh|done]|]. intros h'. rewrite Hps, elem_of_app,
        list_elem_of_singleton. split.
      * intros [[?| ->]|(l' & ? & ?)]; [auto| |]; right; [exists l|exists l']; set_solver.
      * intros [?|(l' & [->|Hl']%elem_of_cons & Hl'h)]; [auto| |eauto].
        left. right. congruence.
Qed.

Lemma gateway_admits_patterns gw host :
  gateway_admits gw host ↔
  gatewayHostPatterns gw = [] ∨ hostMatchesAnyPattern host (gatewayHostPatterns gw) = true.
Proof.
  unfold gateway_admits, gatewayHostPatterns. rewrite hostMatchesAnyPattern_spec.
  destruct (gatewayHostPatterns_from_spec ∅ [] (gw_Listeners gw)) as [[Hex Heq]|[Hall Hps]];
    [set_solver|..].
  - split; [auto|]. intros _. right; left. by apply Exists_exists in Hex.
  - split.
    + intros [Hnil|[(l & Hl & Ho)|(l & h & Hl & Hh & Hm)]].
      * left. rewrite Hnil. done.
      * rewrite Forall_forall in Hall. by destruct (Hall l Hl).
      * right. exists h. split; [|done]. apply Hps. eauto.
    + intros [Hnil|(p & Hp & Hm)].
      * left. destruct (gw_Listeners gw) as [|l ls] eqn:Hls; [done|]. exfalso.
        apply Forall_cons in Hall as [Hl _].
        destruct (li_Hostname l) as [h|] eqn:Hh; [|apply Hl; by left].
        assert (h ∈ gatewayHostPatterns_from ∅ [] (l :: ls)) as Hin
          by (apply Hps; right; exists l; set_solver).
        rewrite Hnil in Hin. set_solver.
      * right; right. apply Hps in Hp as [?|(l & Hl & Hh)]; [set_solver|]. eauto.
Qed.

Lemma webhook_rules_spec route i :
  i ∈ currentRules route ↔
  ∃ rule, rule ∈ rs_Rules (r_Spec route) ∧ i = buildRuleIdentity route rule.
Proof.
  unfold currentRules. rewrite elem_of_list_to_set, list_elem_of_fmap. naive_solver.
Qed.

Lemma firstConflict_spec route other rules :
  is_Some (firstConflict (currentRules route) other rules) ↔
  ∃ ra rb, ra ∈ rs_Rules (r_Spec route) ∧ rb ∈ rules ∧
    buildRuleIdentity route ra = buildRuleIdentity other rb.
Proof.
  induction rules as [|rb rules IH]; simpl.
  { split; [by intros [? ?]|set_solver]. }
  case_bool_decide as Hin.
  - split; [|by eexists]. intros _. apply webhook_rules_spec in Hin as (ra & Hra & Heq).
    exists ra, rb. set_solver.
  - rewrite IH. split.
    + intros (ra & rb' & ? & ? & ?). exists ra, rb'. set_solver.
    + intros (ra & rb' & Hra & [->|Hrb]%elem_of_cons & Heq); [|eauto].
      exfalso. apply Hin, webhook_rules_spec. eauto.
Qed.

(** The step of [conflictErrors] reports exactly the live rivals. *)
Lemma conflictErrors_in route items :
  conflictErrors route items ≠ [] ↔ ∃ other, other ∈ items ∧ live_rival route other.
Proof.
  induction items as [|other items IH]; simpl.
  { split; [done|set_solver]. }
  assert (live_rival route other ↔
    is_Some (if bool_decide (r_Namespace other = r_Namespace route)
                && bool_decide (r_Name other = r_Name route) then None
             else if negb (deletionIsZero other) then None
             else firstConflict (currentRules route) other (rs_Rules (r_Spec other)))) as Hstep.
  { unfold live_rival, r_NN, clash.
    assert (is_Some (None : option FieldError) ↔ False) as HN by (split; [by intros [? ?]|done]).
    repeat case_bool_decide; simpl; destruct (deletionIsZero other); simpl;
      rewrite ?firstConflict_spec, ?HN; clear HN; naive_solver congruence. }
  destruct (if bool_decide _ && bool_decide _ then _ else _) as [e|] eqn:He.
  - split; [|done]. intros _. exists other. split; [set_solver|]. apply Hstep. by eexists.
  - rewrite IH. split; [set_solver|]. intros (o & [->|Ho]%elem_of_cons & Hr); [|eauto].
    apply Hstep in Hr as [? ?]. done.
Qed.

Lemma hostnameErrors_nil ps rules :
  hostnameErrors ps rules = [] ↔
  ∀ rule, rule ∈ rules → hostMatchesAnyPattern (rr_Host rule) ps = true.
Proof.
  unfold hostnameErrors, indexed.
  assert (∀ n, omap (λ '(i, rule),
      if negb (hostMatchesAnyPattern (rr_Host rule) ps) then
        Some (FieldInvalid ("spec.rules[" +:+ fmt_d (Z.of_nat i) +:+ "].host") (rr_Host rule)
          ("host must match one of gateway listener hostnames: " +:+ Join ps ", "))
      else None) (imap (λ i, pair (n + i)) rules) = [] ↔
    ∀ rule, rule ∈ rules → hostMatchesAnyPattern (rr_Host rule) ps = true) as Hgen.
  { induction rules as [|rule rules IH]; intros n; simpl; [set_solver|].
    assert (imap ((λ i : nat, pair (n + i)) ∘ S) rules = imap (λ i, pair (S n + i)) rules) as ->
      by (apply imap_ext; intros; unfold compose; f_equal; lia).
    specialize (IH (S n)).
    destruct (hostMatchesAnyPattern (rr_Host rule) ps) eqn:Hm; simpl.
    - rewrite IH. set_solver.
    - split; [done|]. intros Hall. rewrite (Hall rule) in Hm; [done|set_solver]. }
  exact (Hgen 0).
Qed.

Section claims.
Context {E : Type} `{GoLibs, KubeEnv E}.

(** A hostname passes [hostMatchesPattern] exactly when the pattern is
    ["*"], or is ["*." ++ suffix] and the host is some label, a dot and that
    suffix (so never the bare suffix), or is the host itself. *)
Theorem hostMatchesPattern_correct host pattern :
  hostMatchesPattern host pattern = true ↔ host_matches host pattern.
Proof. apply hostMatchesPattern_host_matches. Qed.

(** C31: [validateGatewayHostnames] accepts a route exactly when the Gateway
    it refers to exists and admits the host of every rule; a missing Gateway
    and every other client error are reported. *)
Theorem validateGatewayHostnames_correct route (e : E) :
  let ref := gatewayRefFromSpec (rs_Gateway (r_Spec route)) in
  let res := (validateGatewayHostnames route e).1 in
  match (env_getGateway (mkNN ref.2 ref.1) e).1 with
  | Ok gw => res = Ret None ↔
      ∀ rule, rule ∈ rs_Rules (r_Spec route) → gateway_admits gw (rr_Host rule)
  | Err err => ∃ err', res = Ret (Some err') ∧ (IsNotFound err = false → err' = err)
  end.
Proof.
  unfold validateGatewayHostnames.
  destruct (gatewayRefFromSpec (rs_Gateway (r_Spec route))) as [name ns]. simpl.
  unfold mbind, M_bind, client.
  destruct (env_getGateway (mkNN ns name) e) as [[gw|err] e']; simpl.
  - setoid_rewrite gateway_admits_patterns.
    destruct (gatewayHostPatterns gw) as [|p ps] eqn:Hps; simpl; [naive_solver|].
    destruct (nonempty _) eqn:Hne; simpl.
    + split; [done|]. intros Hall. apply nonempty_true in Hne. destruct Hne.
      apply hostnameErrors_nil. intros rule Hr. by destruct (Hall rule Hr).
    + split; [|done]. intros _ rule Hr. right. apply nonempty_false in Hne.
      exact (proj1 (hostnameErrors_nil _ _) Hne rule Hr).
  - destruct (IsNotFound err); eexists; split; done.
Qed.

(** C17: [validateRouteConflicts] accepts a route exactly when no other Route
    of the list, unless it is being deleted, claims one of its (gateway,
    host, path) triples. *)
Theorem validateRouteConflicts_correct route items (e e' : E) :
  env_listRoutes e = (Ok items, e') →
  (validateRouteConflicts route e).1 = Ret None ↔
  ¬ ∃ other, other ∈ items ∧ live_rival route other.
Proof.
  intros Hl. unfold validateRouteConflicts, mbind, M_bind, client. rewrite Hl.
  rewrite <-conflictErrors_in. destruct (nonempty _) eqn:Hne; simpl.
  - apply nonempty_true in Hne. naive_solver.
  - apply nonempty_false in Hne. naive_solver.
Qed.

(** C33: defaulting is idempotent, always leaves a complete gateway reference,
    and changes neither the identity of any rule nor any other field. *)
Theorem Default_correct route :
  Default (Default route) = Default route ∧
  (∃ g, rs_Gateway (r_Spec (Default route)) = Some g ∧ rg_Name g ≠ "" ∧ rg_Namespace g ≠ "") ∧
  (∀ rule, buildRuleIdentity (Default route) rule = buildRuleIdentity route rule) ∧
  set_Spec_Gateway (rs_Gateway (r_Spec route)) (Default route) = route.
Proof.
  destruct route as [meta [rules redir tmo size cors gw re au rl ca] status].
  unfold Default, set_Spec_Gateway, buildRuleIdentity, gatewayRefFromSpec. simpl.
  destruct gw as [[n ns]|]; simpl; repeat (case_bool_decide; simplify_eq/=); eauto 10.
Qed.

(** C32: the verdict on an update does not depend on whether the Route is being
    deleted, nor on its finalizers; so when its Gateway cannot be read, the
    update that drops the finalizer of a Route under deletion is rejected. *)
Theorem ValidateUpdate_blocks_deletion haveClient oldObj route (e : E) err fs t :
  let ref := gatewayRefFromSpec (rs_Gateway (r_Spec route)) in
  (env_getGateway (mkNN ref.2 ref.1) e).1 = Err err →
  ValidateUpdate haveClient oldObj (set_Finalizers fs (set_DeletionTimestamp t route)) e =
    ValidateUpdate haveClient oldObj route e ∧
  ∃ err' e', ValidateUpdate haveClient oldObj route e = (Ret (Some err'), e').
Proof.
  intros ref He. split; [done|]. unfold ValidateUpdate, validateRoute.
  destruct haveClient; simpl; [|by eauto].
  unfold validateGatewayHostnames, ref in *.
  destruct (gatewayRefFromSpec (rs_Gateway (r_Spec route))) as [name ns]. simpl in He.
  unfold mbind, M_bind, client.
  destruct (env_getGateway (mkNN ns name) e) as [[gw|err'] e']; simplify_eq/=.
  destruct (IsNotFound err); simpl; eauto.
Qed.
End claims.

(** ** Concrete runs *)

Definition ex_meta (name : string) (created : Z) (deleted : option Z) : ObjectMeta :=
  mkMeta name "demo" ∅ "" 1 created deleted ["istio-gateway-api-operator.io/finalizer"] [].
Definition ex_spec (host path : string) : RouteSpec :=
  mkSpec [mkRule host path (mkBackend "svc" 8080 "") None] None "" "" None None None None None
    None.
Definition ex_route (name host : string) (created : Z) (deleted : option Z) : Route :=
  mkRoute (ex_meta name created deleted) (ex_spec host "") (mkStatus "" [] 0).
Definition ex_cluster (gws : gmap NamespacedName Gateway) (routes : list Route) : Mem :=
  mkMem (list_to_map ((λ r, (r_NN r, r)) <$> routes)) ∅ ∅ gws ∅ ∅ 1000 [] 1 ∅ ∅.
Definition ex_gateways : gmap NamespacedName Gateway :=
  {[ mkNN "istio-system" "istio-gateway" :=
       mkGw [mkListener (Some "*.example.com") "HTTPS" None] ]}.

Lemma validateRouteConflicts_correct_witness :
  (validateRouteConflicts (ex_route "b" "api.example.com" 2 None)
     (ex_cluster ex_gateways [ex_route "a" "api.example.com" 1 None])).1 = Ret None ↔
  ¬ ∃ other, other ∈ [ex_route "a" "api.example.com" 1 None] ∧
      live_rival (ex_route "b" "api.example.com" 2 None) other.
Proof. eapply validateRouteConflicts_correct. vm_compute. reflexivity. Defined.

Lemma ValidateUpdate_blocks_deletion_witness :
  let r := ex_route "a" "api.example.com" 1 None in
  ValidateUpdate true r (set_Finalizers [] (set_DeletionTimestamp (Some 5%Z) r)) (ex_cluster ∅ [])
    = ValidateUpdate true r r (ex_cluster ∅ []) ∧
  ∃ err' e', ValidateUpdate true r r (ex_cluster ∅ []) = (Ret (Some err'), e').
Proof. apply (ValidateUpdate_blocks_deletion true _ _ _ errNotFound). by vm_compute. Defined.

Example ex_hosts :
  hostMatchesPattern "api.example.com" "*.example.com" = true ∧
  hostMatchesPattern "example.com" "*.example.com" = false ∧
  hostMatchesPattern "api.other.com" "*.example.com" = false ∧
  hostMatchesPattern "a.b.example.com" "*.example.com" = true.
Proof. by vm_compute. Qed.
Example ex_validate :
  (validateRoute true (ex_route "a" "api.example.com" 1 None)
     (ex_cluster ex_gateways [])).1 = Ret None ∧
  (validateRoute true (ex_route "a" "api.other.com" 1 None)
     (ex_cluster ex_gateways [])).1 ≠ Ret None ∧
  (validateRoute true (ex_route "b" "api.example.com" 2 None)
     (ex_cluster ex_gateways [ex_route "a" "api.example.com" 1 None])).1 ≠ Ret None.
Proof. by vm_compute. Qed.
End Webhook.
