(* ===== verification/Common.v ===== *)
(** * Constants and small functions of internal/controller/route_controller.go *)
From S2P Require Import Prelude GoStd GoTime RouteTypes Objects.

Definition routeFinalizer : string := "istio-gateway-api-operator.io/finalizer".
Definition managedByLabel : string := "istio-gateway-api-operator.io/managed-by".
Definition routeNameLabel : string := "istio-gateway-api-operator.io/route-name".
Definition requeueDelay : Z := 15 * Second.
Definition certWarnBefore : Z := 30 * 24 * Hour.
Definition defaultCanaryProbeInterval : Z := 30 * Second.
Definition defaultCanaryCooldown : Z := 5 * Minute.

(** [(name, namespace)] of the Gateway a route refers to. *)
Definition gatewayRef (route : Route) : string * string :=
  let name := "istio-gateway" in
  let ns := "istio-system" in
  match rs_Gateway (r_Spec route) with
  | None => (name, ns)
  | Some gw =>
      (if bool_decide (rg_Name gw ≠ "") then rg_Name gw else name,
       if bool_decide (rg_Namespace gw ≠ "") then rg_Namespace gw else ns)
  end.

Definition managedLabels (route : Route) : gmap string string :=
  {[ managedByLabel := "route-operator"; routeNameLabel := r_Name route ]}.

Definition routeKey (route : Route) : string := r_Namespace route +:+ "/" +:+ r_Name route.

Definition routeRuleBackends (rule : RouteRule) (canary : option RouteCanary)
    : list RouteBackend :=
  rr_Backend rule :: match canary with Some c => [ca_Backend c] | None => [] end.

(** The loop of [uniqueHostsFromRules], from its [seen] and [hosts]. *)
Fixpoint uniqueHosts_from (seen : gset string) (hosts : list string) (rules : list RouteRule)
    : list string :=
  match rules with
  | [] => hosts
  | r :: rules' =>
      if bool_decide (rr_Host r ∈ seen) then uniqueHosts_from seen hosts rules'
      else uniqueHosts_from ({[rr_Host r]} ∪ seen) (hosts ++ [rr_Host r]) rules'
  end.
Definition uniqueHostsFromRules (rules : list RouteRule) : list string :=
  uniqueHosts_from ∅ [] rules.

(** Each host once, in the order of first use. *)
Lemma uniqueHosts_from_spec seen hosts rules :
  (∀ h, h ∈ seen ↔ h ∈ hosts) → NoDup hosts →
  NoDup (uniqueHosts_from seen hosts rules) ∧
  (∀ h, h ∈ uniqueHosts_from seen hosts rules ↔ h ∈ hosts ∨ h ∈ rr_Host <$> rules).
Proof.
  revert seen hosts. induction rules as [|r rules IH]; intros seen hosts Hs Hn; simpl.
  { split; [done|set_solver]. }
  case_bool_decide as Hin.
  - destruct (IH seen hosts Hs Hn) as [H1 H2]. split; [done|]. intros h. rewrite H2.
    apply Hs in Hin. set_solver.
  - destruct (IH ({[rr_Host r]} ∪ seen) (hosts ++ [rr_Host r])) as [H1 H2].
    + set_solver.
    + apply NoDup_app. rewrite Hs in Hin. split_and!; [done|set_solver|apply NoDup_singleton].
    + split; [done|]. intros h. rewrite H2. set_solver.
Qed.

(** The elements of a list, each where it first occurs. *)
Fixpoint first_uses (l : list string) : list string :=
  match l with
  | [] => []
  | h :: l' => h :: filter (λ x, x ≠ h) (first_uses l')
  end.

Lemma uniqueHosts_from_first_uses seen hosts rules :
  uniqueHosts_from seen hosts rules =
  hosts ++ filter (λ h, h ∉ seen) (first_uses (rr_Host <$> rules)).
Proof.
  revert seen hosts. induction rules as [|r rules IH]; intros seen hosts; simpl.
  { by rewrite app_nil_r. }
  rewrite filter_cons, list_filter_filter. case_bool_decide as Hin; rewrite IH.
  - rewrite decide_False by tauto. f_equal. apply list_filter_iff. set_solver.
  - rewrite decide_True, <-app_assoc by done. simpl. do 2 f_equal.
    apply list_filter_iff. set_solver.
Qed.
Lemma uniqueHostsFromRules_first_uses rules :
  uniqueHostsFromRules rules = first_uses (rr_Host <$> rules).
Proof.
  unfold uniqueHostsFromRules. rewrite uniqueHosts_from_first_uses. simpl.
  induction (first_uses _) as [|h l IH]; [done|]. by rewrite filter_cons_True, IH by set_solver.
Qed.

Lemma uniqueHostsFromRules_spec rules :
  NoDup (uniqueHostsFromRules rules) ∧
  (∀ h, h ∈ uniqueHostsFromRules rules ↔ ∃ r, r ∈ rules ∧ rr_Host r = h).
Proof.
  destruct (uniqueHosts_from_spec ∅ [] rules) as [H1 H2]; [set_solver|constructor|].
  split; [done|]. intros h. unfold uniqueHostsFromRules. rewrite H2, list_elem_of_fmap.
  set_solver.
Qed.
