(* ===== verification/Conflicts.v ===== *)
(** * The runtime conflict guard (evaluateRouteConflicts and its helpers)

    Two Routes that claim the same gateway, host and path are arbitrated by
    age, then by namespace and name: each Route computes the live Routes it
    loses to. *)
From S2P Require Import Prelude GoStd GoTime RouteTypes Objects Env Mem Common.
From S2P Require Webhook.
Local Open Scope Z_scope.

Module Conflicts.

(** The controller package declares its own [routeRuleIdentity]. *)
Record routeRuleIdentity := mkIdentity {
  id_GatewayNamespace : string;
  id_GatewayName : string;
  id_Host : string;
  id_Path : string
}.
#[export] Instance routeRuleIdentity_eq_dec : EqDecision routeRuleIdentity.
Proof. solve_decision. Defined.
#[export] Instance routeRuleIdentity_countable : Countable routeRuleIdentity.
Proof.
  refine (inj_countable'
    (λ i, (id_GatewayNamespace i, id_GatewayName i, id_Host i, id_Path i))
    (λ '(a, b, c, d), mkIdentity a b c d) _).
  by intros [].
Defined.

Definition normalizeRoutePath (path : string) : string :=
  if bool_decide (path = "") then "/" else path.

Definition ruleIdentity (route : Route) (rule : RouteRule) : routeRuleIdentity :=
  let gwName := "istio-gateway" in
  let gwNs := "istio-system" in
  let '(gwName, gwNs) :=
    match rs_Gateway (r_Spec route) with
    | None => (gwName, gwNs)
    | Some gw =>
        (if bool_decide (rg_Name gw ≠ "") then rg_Name gw else gwName,
         if bool_decide (rg_Namespace gw ≠ "") then rg_Namespace gw else gwNs)
    end in
  mkIdentity gwNs gwName (rr_Host rule) (normalizeRoutePath (rr_Path rule)).

Definition routePrecedes (a b : Route) : bool :=
  let ta := m_CreationTimestamp (r_Meta a) in
  let tb := m_CreationTimestamp (r_Meta b) in
  if negb (bool_decide (ta = tb)) then Before ta tb
  else if negb (bool_decide (r_Namespace a = r_Namespace b))
  then str_lt (r_Namespace a) (r_Namespace b)
  else str_lt (r_Name a) (r_Name b).

Definition currentRules (route : Route) : gset routeRuleIdentity :=
  list_to_set (ruleIdentity route <$> rs_Rules (r_Spec route)).

Definition conflictText (other : Route) (id : routeRuleIdentity) : string :=
  r_Namespace other +:+ "/" +:+ r_Name other +:+ " host=" +:+ id_Host id +:+
  " path=" +:+ id_Path id +:+ " gateway=" +:+ id_GatewayNamespace id +:+ "/" +:+
  id_GatewayName id.

(** The inner loop over the rules of [other]. *)
Definition addConflicts (route other : Route) (conflicts : gset string) (rules : list RouteRule)
    : gset string :=
  foldl (λ cs otherRule,
    let id := ruleIdentity other otherRule in
    if bool_decide (id ∈ currentRules route) then {[conflictText other id]} ∪ cs else cs)
    conflicts rules.

(** One iteration of the loop over the listed routes. *)
Definition conflictsWith (route : Route) (conflicts : gset string) (other : Route)
    : gset string :=
  if bool_decide (r_Name other = r_Name route)
     && bool_decide (r_Namespace other = r_Namespace route) then conflicts
  else if negb (deletionIsZero other) then conflicts
  else if negb (routePrecedes route other) then
    addConflicts route other conflicts (rs_Rules (r_Spec other))
  else conflicts.

(** The sorted conflict messages of a route among the listed ones. *)
Definition routeConflicts (route : Route) (items : list Route) : list string :=
  sort_Strings (elements (foldl (conflictsWith route) ∅ items)).

Definition evaluateRouteConflicts {E} `{KubeEnv E} (route : Route)
    : M (St E) (result (list string)) :=
  allRoutes ← listRoutes;
  match allRoutes with
  | Err err => mret (Err err)
  | Ok items => mret (Ok (routeConflicts route items))
  end.

(** ** Specification *)

Definition clash (a b : Route) : Prop :=
  ∃ ra rb, ra ∈ rs_Rules (r_Spec a) ∧ rb ∈ rs_Rules (r_Spec b) ∧
    ruleIdentity a ra = ruleIdentity b rb.

(** [route] must give way to [other]. *)
Definition loses_to (route other : Route) : Prop :=
  r_NN other ≠ r_NN route ∧ deletionIsZero other = true ∧
  routePrecedes route other = false ∧ clash route other.

(** ** Lemmas *)

Lemma currentRules_spec route i :
  i ∈ currentRules route ↔
  ∃ rule, rule ∈ rs_Rules (r_Spec route) ∧ i = ruleIdentity route rule.
Proof.
  unfold currentRules. rewrite elem_of_list_to_set, list_elem_of_fmap. naive_solver.
Qed.

Lemma inner_loop route other rules cs s :
  s ∈ addConflicts route other cs rules ↔
  s ∈ cs ∨ ∃ ra rb, ra ∈ rs_Rules (r_Spec route) ∧ rb ∈ rules ∧
    ruleIdentity route ra = ruleIdentity other rb ∧
    s = conflictText other (ruleIdentity other rb).
Proof.
  unfold addConflicts. revert cs.
  induction rules as [|rb rules IH]; intros cs; simpl; [set_solver|]. rewrite IH. clear IH. case_bool_decide as Hin.
  - apply currentRules_spec in Hin as (ra & Hra & Heq). rewrite elem_of_union,
      elem_of_singleton. split.
    + intros [[->|?]|(ra' & rb' & ? & ? & ? & ?)]; [|auto|]; right.
      * exists ra, rb. set_solver.
      * exists ra', rb'. set_solver.
    + intros [?|(ra' & rb' & ? & [->|?]%elem_of_cons & ? & ?)]; [auto|auto|].
      right. eauto 10.
  - split.
    + intros [?|(ra' & rb' & ? & ? & ? & ?)]; [auto|]. right. exists ra', rb'. set_solver.
    + intros [?|(ra' & rb' & ? & [->|?]%elem_of_cons & ? & ?)]; [auto| |].
      * exfalso. apply Hin, currentRules_spec. eauto.
      * right. eauto 10.
Qed.

Lemma conflictsWith_spec route cs other s :
  s ∈ conflictsWith route cs other ↔
  s ∈ cs ∨ (r_NN other ≠ r_NN route ∧ deletionIsZero other = true ∧
    routePrecedes route other = false ∧
    ∃ ra rb, ra ∈ rs_Rules (r_Spec route) ∧ rb ∈ rs_Rules (r_Spec other) ∧
      ruleIdentity route ra = ruleIdentity other rb ∧
      s = conflictText other (ruleIdentity other rb)).
Proof.
  unfold conflictsWith, r_NN.
  destruct (bool_decide (r_Name other = r_Name route)
    && bool_decide (r_Namespace other = r_Namespace route)) eqn:Hk.
  { apply andb_true_iff in Hk as [->%bool_decide_eq_true ->%bool_decide_eq_true].
    naive_solver. }
  assert (mkNN (r_Namespace other) (r_Name other) ≠ mkNN (r_Namespace route) (r_Name route))
    as Hne.
  { intros [= H1 H2]. rewrite H1, H2, !bool_decide_eq_true_2 in Hk by done. done. }
  destruct (deletionIsZero other); simpl; [|naive_solver].
  destruct (routePrecedes route other); simpl; [naive_solver|].
  rewrite inner_loop. naive_solver.
Qed.

Lemma conflictsFold_spec route items cs s :
  s ∈ foldl (conflictsWith route) cs items ↔
  s ∈ cs ∨ ∃ other, other ∈ items ∧ s ∈ conflictsWith route ∅ other.
Proof.
  revert cs. induction items as [|other items IH]; intros cs; simpl; [set_solver|].
  rewrite IH, conflictsWith_spec. setoid_rewrite conflictsWith_spec. set_solver.
Qed.

Lemma routeConflicts_elem route items s :
  s ∈ routeConflicts route items ↔
  ∃ other rb, other ∈ items ∧ loses_to route other ∧ rb ∈ rs_Rules (r_Spec other) ∧
    ruleIdentity other rb ∈ currentRules route ∧
    s = conflictText other (ruleIdentity other rb).
Proof.
  unfold routeConflicts. rewrite (sort_Strings_perm _), elem_of_elements, conflictsFold_spec.
  setoid_rewrite conflictsWith_spec. setoid_rewrite currentRules_spec. unfold loses_to, clash.
  split.
  - intros [?|(other & Hin & [?|(Hne & Hd & Hp & ra & rb & Hra & Hrb & Heq & ->)])];
      [set_solver..|]. exists other, rb. split_and!; eauto 10.
  - intros (other & rb & Hin & (Hne & Hd & Hp & _) & Hrb & (ra & Hra & Heq) & ->).
    right. exists other. split; [done|]. right. split_and!; [done..|].
    exists ra, rb. split_and!; done.
Qed.

Lemma routeConflicts_nil route items :
  routeConflicts route items = [] ↔ ∀ other, other ∈ items → ¬ loses_to route other.
Proof.
  split.
  - intros Hnil other Hin Hl. pose proof Hl as (_ & _ & _ & ra & rb & Hra & Hrb & Heq).
    assert (conflictText other (ruleIdentity other rb) ∈ routeConflicts route items) as Hs.
    { apply routeConflicts_elem. exists other, rb. split_and!; [done..| |done].
      apply currentRules_spec. eauto. }
    rewrite Hnil in Hs. set_solver.
  - intros Hall. destruct (routeConflicts route items) as [|s l] eqn:Hs; [done|].
    assert (s ∈ routeConflicts route items) as Hin by (rewrite Hs; set_solver).
    apply routeConflicts_elem in Hin as (other & rb & Hin & Hl & _). by destruct (Hall other).
Qed.

Lemma routePrecedes_total a b :
  r_NN a ≠ r_NN b → routePrecedes a b = negb (routePrecedes b a).
Proof.
  unfold routePrecedes, r_NN, Before. intros Hne.
  destruct (decide (m_CreationTimestamp (r_Meta a) = m_CreationTimestamp (r_Meta b))) as [Ht|Ht].
  - rewrite Ht, !bool_decide_eq_true_2 by done. simpl.
    destruct (decide (r_Namespace a = r_Namespace b)) as [Hn|Hn].
    + rewrite Hn, !bool_decide_eq_true_2 by done. simpl. apply str_lt_total. congruence.
    + rewrite !bool_decide_eq_false_2 by congruence. simpl. by apply str_lt_total.
  - rewrite (bool_decide_eq_false_2 (_ = m_CreationTimestamp (r_Meta b))) by done.
    rewrite (bool_decide_eq_false_2 (_ = m_CreationTimestamp (r_Meta a))) by done. simpl.
    destruct (Z.ltb_spec (m_CreationTimestamp (r_Meta a)) (m_CreationTimestamp (r_Meta b))),
      (Z.ltb_spec (m_CreationTimestamp (r_Meta b)) (m_CreationTimestamp (r_Meta a)));
      simpl; first [done|lia].
Qed.

Lemma routePrecedes_trans a b c :
  routePrecedes a b = true → routePrecedes b c = true → routePrecedes a c = true.
Proof.
  unfold routePrecedes, Before. repeat case_bool_decide; simpl; intros;
    try lia; try congruence; eauto with igro.
  match goal with Hab : str_lt ?x ?y = true, Hbc : str_lt ?y ?z = true, Heq : ?x = ?z |- _ =>
    pose proof (str_lt_trans _ _ _ Hab Hbc) as Hac; rewrite Heq, str_lt_irrefl in Hac end.
  done.
Qed.

Lemma routePrecedes_irrefl a : routePrecedes a a = false.
Proof. unfold routePrecedes. rewrite !bool_decide_eq_true_2 by done. apply str_lt_irrefl. Qed.

Lemma clash_sym a b : clash a b → clash b a.
Proof. intros (ra & rb & ? & ? & ?). exists rb, ra. auto. Qed.

Lemma identity_agree route rule :
  let i := Webhook.Webhook.buildRuleIdentity route rule in
  ruleIdentity route rule =
    mkIdentity (Webhook.Webhook.id_GatewayNamespace i) (Webhook.Webhook.id_GatewayName i)
      (Webhook.Webhook.id_Host i) (Webhook.Webhook.id_Path i).
Proof.
  unfold ruleIdentity, Webhook.Webhook.buildRuleIdentity, Webhook.Webhook.gatewayRefFromSpec.
  by destruct (rs_Gateway (r_Spec route)).
Qed.

Lemma clash_agree a b : clash a b ↔ Webhook.Webhook.clash a b.
Proof.
  unfold clash, Webhook.Webhook.clash. setoid_rewrite identity_agree. simpl.
  split; intros (ra & rb & ? & ? & Heq); exists ra, rb; split_and!; try done.
  - destruct (Webhook.Webhook.buildRuleIdentity a ra), (Webhook.Webhook.buildRuleIdentity b rb).
    by simplify_eq/=.
  - by rewrite Heq.
Qed.

(** Some route of a list with distinct names precedes all the others. *)
Lemma first_route_exists items :
  items ≠ [] → NoDup (r_NN <$> items) →
  ∃ w, w ∈ items ∧ ∀ o, o ∈ items → r_NN o ≠ r_NN w → routePrecedes w o = true.
Proof.
  induction items as [|x items IH]; [done|]. intros _. rewrite fmap_cons, NoDup_cons.
  intros [Hx Hnd].
  assert (items = [] ∨ items ≠ []) as [->|Hnil] by (destruct items; auto).
  { exists x. split; [set_solver|]. intros o Ho Hne. apply list_elem_of_singleton in Ho.
    by subst. }
  destruct IH as (w & Hw & Hmin); [done|done|].
  assert (r_NN x ≠ r_NN w) as Hxw.
  { intros Heq. apply Hx. rewrite Heq. by apply list_elem_of_fmap_2. }
  destruct (routePrecedes w x) eqn:Hwx.
  - exists w. split; [set_solver|]. intros o [->|Ho]%elem_of_cons Hne; [done|]. by apply Hmin.
  - exists x. split; [set_solver|]. intros o [->|Ho]%elem_of_cons Hne; [done|].
    rewrite (routePrecedes_total w x), negb_false_iff in Hwx by done.
    destruct (decide (r_NN o = r_NN w)) as [Heq|Hne'].
    + assert (o = w) as ->; [|done].
      apply list_elem_of_lookup in Ho as [i Hi]. apply list_elem_of_lookup in Hw as [j Hj].
      assert (i = j) as <-; [|congruence].
      eapply (NoDup_lookup (r_NN <$> items) i j (r_NN w) Hnd).
      * by rewrite list_lookup_fmap, Hi, <-Heq.
      * by rewrite list_lookup_fmap, Hj.
    + eapply routePrecedes_trans; [exact Hwx|]. by apply Hmin.
Qed.

Section claims.
Context {E : Type} `{GoLibs, KubeEnv E}.

(** The webhook and the controller, which each declare their own identity
    type and defaulting, give every rule the same identity, so they agree on
    which Routes clash. *)
Theorem identities_agree a b rule :
  (let i := Webhook.Webhook.buildRuleIdentity a rule in
   ruleIdentity a rule =
     mkIdentity (Webhook.Webhook.id_GatewayNamespace i) (Webhook.Webhook.id_GatewayName i)
       (Webhook.Webhook.id_Host i) (Webhook.Webhook.id_Path i)) ∧
  (clash a b ↔ Webhook.Webhook.clash a b).
Proof. split; [apply identity_agree|apply clash_agree]. Qed.

(** [routePrecedes] is a strict order that is total on Routes with
    different namespaced names. *)
Theorem routePrecedes_strict_total a b c :
  routePrecedes a a = false ∧
  (routePrecedes a b = true → routePrecedes b c = true → routePrecedes a c = true) ∧
  (r_NN a ≠ r_NN b → routePrecedes a b = negb (routePrecedes b a)).
Proof.
  split_and!; [apply routePrecedes_irrefl|apply routePrecedes_trans|apply routePrecedes_total].
Qed.

(** C12: of two live Routes that claim the same gateway, host and path,
    exactly one gives way: they never both serve it, and never block each
    other. *)
Theorem conflict_arbitration items a b :
  a ∈ items → b ∈ items → r_NN a ≠ r_NN b →
  deletionIsZero a = true → deletionIsZero b = true → clash a b →
  ¬ (routeConflicts a items = [] ∧ routeConflicts b items = []) ∧
  (loses_to a b ↔ ¬ loses_to b a).
Proof.
  intros Ha Hb Hne Hda Hdb Hc. pose proof (routePrecedes_total a b Hne) as Ht.
  pose proof (clash_sym _ _ Hc) as Hc'. unfold loses_to. split.
  - rewrite !routeConflicts_nil. intros [Hna Hnb].
    destruct (routePrecedes a b) eqn:Hab.
    + apply (Hnb a Ha). split_and!; try done. by destruct (routePrecedes b a).
    + apply (Hna b Hb). split_and!; done.
  - rewrite Ht. destruct (routePrecedes b a); simpl; naive_solver.
Qed.

(** C29: arbitration never starves the cluster: among Routes with distinct
    names some Route has no conflict to report, and a Route that precedes all
    others is such a one. *)
Theorem conflict_progress items :
  NoDup (r_NN <$> items) → items ≠ [] →
  (∃ w, w ∈ items ∧ routeConflicts w items = []) ∧
  (∀ r, (∀ o, o ∈ items → r_NN o ≠ r_NN r → routePrecedes r o = true) →
    routeConflicts r items = []).
Proof.
  intros Hnd Hne.
  assert (∀ r, (∀ o, o ∈ items → r_NN o ≠ r_NN r → routePrecedes r o = true) →
    routeConflicts r items = []) as Hfirst.
  { intros r Hr. apply routeConflicts_nil. intros o Ho (Hne' & _ & Hp & _).
    by rewrite Hr in Hp. }
  split; [|done]. destruct (first_route_exists items Hne Hnd) as (w & Hw & Hmin). eauto.
Qed.

(** The runtime guard never degrades a Route the webhook would admit
    against the same list. *)
Theorem webhook_stronger_than_runtime route items (e e' : E) :
  env_listRoutes e = (Ok items, e') →
  (Webhook.Webhook.validateRouteConflicts route e).1 = Ret None →
  routeConflicts route items = [].
Proof.
  intros Hl. unfold Webhook.Webhook.validateRouteConflicts, mbind, M_bind,
    Webhook.Webhook.client. rewrite Hl. intros Hv. apply routeConflicts_nil.
  intros other Hin (Hne & Hd & _ & Hc).
  assert (Webhook.Webhook.conflictErrors route items ≠ []) as Herr.
  { apply Webhook.Webhook.conflictErrors_in. exists other. split; [done|].
    split_and!; [done..|]. by apply clash_agree. }
  apply nonempty_true in Herr. rewrite Herr in Hv. done.
Qed.

(** C30: the list of conflicts is sorted, without repetition, the same
    whatever order the API lists the Routes in, and non-empty exactly when
    the Route gives way to some other one. *)
Theorem routeConflicts_correct route items items' :
  StronglySorted String.le (routeConflicts route items) ∧
  NoDup (routeConflicts route items) ∧
  (items ≡ₚ items' → routeConflicts route items = routeConflicts route items') ∧
  (routeConflicts route items = [] ↔ ∀ other, other ∈ items → ¬ loses_to route other).
Proof.
  split_and!.
  - apply sort_Strings_sorted.
  - unfold routeConflicts. rewrite sort_Strings_perm. apply NoDup_elements.
  - intros Hp. unfold routeConflicts. f_equal. f_equal. apply set_eq. intros s.
    rewrite !conflictsFold_spec. setoid_rewrite Hp. done.
  - apply routeConflicts_nil.
Qed.
End claims.

(** ** Concrete runs *)

Definition ex_a : Route := Webhook.Webhook.ex_route "a" "api.example.com" 1 None.
Definition ex_b : Route := Webhook.Webhook.ex_route "b" "api.example.com" 2 None.

Lemma ex_clash : clash ex_a ex_b.
Proof. do 2 eexists. split_and!; [left|left|]; by vm_compute. Qed.

Lemma conflict_arbitration_witness :
  ¬ (routeConflicts ex_a [ex_a; ex_b] = [] ∧ routeConflicts ex_b [ex_a; ex_b] = []) ∧
  (loses_to ex_a ex_b ↔ ¬ loses_to ex_b ex_a).
Proof.
  apply conflict_arbitration; [left|right; left|by vm_compute|reflexivity|reflexivity|
    apply ex_clash].
Defined.

Lemma conflict_progress_witness :
  (∃ w, w ∈ [ex_a; ex_b] ∧ routeConflicts w [ex_a; ex_b] = []) ∧
  (∀ r, (∀ o, o ∈ [ex_a; ex_b] → r_NN o ≠ r_NN r → routePrecedes r o = true) →
    routeConflicts r [ex_a; ex_b] = []).
Proof. apply conflict_progress; [apply (bool_decide_unpack _); by vm_compute|done]. Defined.

Definition ex_web : Route := Webhook.Webhook.ex_route "web" "web.example.com" 0 None.
Lemma webhook_stronger_than_runtime_witness : routeConflicts ex_a [ex_web] = [].
Proof.
  apply (webhook_stronger_than_runtime ex_a [ex_web] (Webhook.Webhook.ex_cluster ∅ [ex_web])
    (Webhook.Webhook.ex_cluster ∅ [ex_web])); by vm_compute.
Defined.

Lemma routePrecedes_strict_total_witness :
  routePrecedes ex_a ex_a = false ∧
  (routePrecedes ex_a ex_b = true → routePrecedes ex_b ex_a = true →
   routePrecedes ex_a ex_a = true) ∧
  (r_NN ex_a ≠ r_NN ex_b → routePrecedes ex_a ex_b = negb (routePrecedes ex_b ex_a)).
Proof. apply routePrecedes_strict_total. Defined.

Example ex_conflicts :
  routeConflicts ex_b [ex_a; ex_b] =
    ["demo/a host=api.example.com path=/ gateway=istio-system/istio-gateway"] ∧
  routeConflicts ex_a [ex_a; ex_b] = [].
Proof. by vm_compute. Qed.
End Conflicts.
