(* ===== verification/Headers.v ===== *)
(** * Header manipulation

    A rule's header operations are rendered twice: as Gateway API filters
    (lists of headers, sorted by name) and as Istio header operations (maps).
    The theorems show that the two renderings denote the operations of the
    spec. *)
From S2P Require Import Prelude GoStd RouteTypes Objects.

Module Headers.

(** [len(m) > 0] of a map. *)
Definition map_nonempty (m : gmap string string) : bool := negb (bool_decide (size m = 0)).

Definition hasHeaderOperations (ops : option RouteHeaderOperations) : bool :=
  match ops with
  | None => false
  | Some ops =>
      map_nonempty (ho_Set ops) || map_nonempty (ho_Add ops) || nonempty (ho_Remove ops)
  end.

Definition sortedMapKeys (m : gmap string string) : list string :=
  if bool_decide (size m = 0) then [] else sort_Strings (map_to_list m).*1.

(** [m[k]]: the zero value when the key is absent. *)
Definition map_index (m : gmap string string) (k : string) : string := default "" (m !! k).

Definition buildGatewayHTTPHeaderFilter (ops : option RouteHeaderOperations)
    : option HTTPHeaderFilter :=
  if negb (hasHeaderOperations ops) then None
  else
    match ops with
    | None => None
    | Some ops =>
        Some (mkHeaderFilter
          ((λ k, mkHTTPHeader k (map_index (ho_Set ops) k)) <$> sortedMapKeys (ho_Set ops))
          ((λ k, mkHTTPHeader k (map_index (ho_Add ops) k)) <$> sortedMapKeys (ho_Add ops))
          (if nonempty (ho_Remove ops) then ho_Remove ops else []))
    end.

Definition buildGatewayHTTPHeaderFilters (headers : option RouteHeaders) : list HTTPRouteFilter :=
  match headers with
  | None => []
  | Some headers =>
      (match buildGatewayHTTPHeaderFilter (rh_Request headers) with
       | Some requestFilter =>
           [mkFilter HTTPRouteFilterRequestHeaderModifier (Some requestFilter) None None]
       | None => []
       end) ++
      (match buildGatewayHTTPHeaderFilter (rh_Response headers) with
       | Some responseFilter =>
           [mkFilter HTTPRouteFilterResponseHeaderModifier None (Some responseFilter) None]
       | None => []
       end)
  end.

(** The copying loop [for k, v := range m { out[k] = v }]. *)
Definition copy_map (m : gmap string string) : gmap string string :=
  foldl (λ out '(k, v), <[k:=v]> out) ∅ (map_to_list m).

Definition buildIstioHeaderOperations (ops : option RouteHeaderOperations)
    : option HeaderOperations :=
  if negb (hasHeaderOperations ops) then None
  else
    match ops with
    | None => None
    | Some ops =>
        Some (mkIstioHeaderOps
          (if map_nonempty (ho_Set ops) then copy_map (ho_Set ops) else ∅)
          (if map_nonempty (ho_Add ops) then copy_map (ho_Add ops) else ∅)
          (if nonempty (ho_Remove ops) then ho_Remove ops else []))
    end.

Definition buildIstioHeaders (headers : option RouteHeaders) : option Headers :=
  match headers with
  | None => None
  | Some headers =>
      let requestOps := buildIstioHeaderOperations (rh_Request headers) in
      let responseOps := buildIstioHeaderOperations (rh_Response headers) in
      match requestOps, responseOps with
      | None, None => None
      | _, _ => Some (mkIstioHeaders requestOps responseOps)
      end
  end.

(** ** What the renderings denote *)

Definition headers_map (l : list HTTPHeader) : gmap string string :=
  list_to_map ((λ h, (hh_Name h, hh_Value h)) <$> l).
Definition denote_filter (f : HTTPHeaderFilter) : RouteHeaderOperations :=
  mkHeaderOps (headers_map (hf_Set f)) (headers_map (hf_Add f)) (hf_Remove f).
Definition denote_istio (o : HeaderOperations) : RouteHeaderOperations :=
  mkHeaderOps (io_Set o) (io_Add o) (io_Remove o).

(** What the data plane does to requests and to responses, read from the
    finished renderings: the filters of an HTTPRoute rule act by their type,
    the operations of a VirtualService route by their field. *)
Definition gateway_request_ops (fs : list HTTPRouteFilter) : list RouteHeaderOperations :=
  denote_filter <$> omap (λ f, match fi_Type f with
    | HTTPRouteFilterRequestHeaderModifier => fi_RequestHeaderModifier f | _ => None end) fs.
Definition gateway_response_ops (fs : list HTTPRouteFilter) : list RouteHeaderOperations :=
  denote_filter <$> omap (λ f, match fi_Type f with
    | HTTPRouteFilterResponseHeaderModifier => fi_ResponseHeaderModifier f | _ => None end) fs.
Definition istio_request_ops (h : option Headers) : list RouteHeaderOperations :=
  denote_istio <$> option_list (h ≫= ih_Request).
Definition istio_response_ops (h : option Headers) : list RouteHeaderOperations :=
  denote_istio <$> option_list (h ≫= ih_Response).

(** The operations one side of a rule's [headers] asks for, if any. *)
Definition asked_ops (side : RouteHeaders → option RouteHeaderOperations)
    (headers : option RouteHeaders) : list RouteHeaderOperations :=
  match headers ≫= side with
  | None => []
  | Some (mkHeaderOps s a r as ops) => if decide (s = ∅ ∧ a = ∅ ∧ r = []) then [] else [ops]
  end.

(** ** Lemmas *)

Lemma sortedMapKeys_perm m : sortedMapKeys m ≡ₚ (map_to_list m).*1.
Proof.
  unfold sortedMapKeys. case_bool_decide as Hs; [|apply sort_Strings_perm].
  apply map_size_empty_inv in Hs as ->. by rewrite map_to_list_empty.
Qed.

Lemma sortedMapKeys_spec m :
  StronglySorted String.le (sortedMapKeys m) ∧ NoDup (sortedMapKeys m) ∧
  (∀ k, k ∈ sortedMapKeys m ↔ is_Some (m !! k)).
Proof.
  split_and!.
  - unfold sortedMapKeys. case_bool_decide; [constructor|apply sort_Strings_sorted].
  - rewrite sortedMapKeys_perm. apply NoDup_fst_map_to_list.
  - intros k. rewrite sortedMapKeys_perm, list_elem_of_fmap. split.
    + intros ([k' v] & -> & Hin). apply elem_of_map_to_list in Hin. by eexists.
    + intros [v Hv]. exists (k, v). by rewrite elem_of_map_to_list.
Qed.

Lemma headers_map_sorted m :
  headers_map ((λ k, mkHTTPHeader k (map_index m k)) <$> sortedMapKeys m) = m.
Proof.
  unfold headers_map. rewrite <-list_fmap_compose. apply map_eq. intros k.
  destruct (sortedMapKeys_spec m) as (_ & Hnd & Hin). unfold compose; simpl.
  destruct (m !! k) as [v|] eqn:Hk.
  - apply elem_of_list_to_map_1.
    + by rewrite <-list_fmap_compose, (list_fmap_ext _ id), list_fmap_id.
    + apply list_elem_of_fmap. exists k. unfold map_index. rewrite Hk. split; [done|].
      apply Hin. by eexists.
  - apply not_elem_of_list_to_map_1. rewrite <-list_fmap_compose. intros Hk'.
    apply list_elem_of_fmap in Hk' as (k' & -> & Hk'). apply Hin in Hk' as [? ?].
    simpl in Hk. congruence.
Qed.

Lemma copy_map_from out (l : list (string * string)) :
  NoDup l.*1 →
  foldl (λ (out : gmap string string) '(k, v), <[k:=v]> out) out l = list_to_map l ∪ out.
Proof.
  revert out. induction l as [|[k v] l IH]; intros out Hnd; simpl.
  { by rewrite (left_id_L ∅ (∪)). }
  apply NoDup_cons in Hnd as [Hk Hnd]. rewrite IH by done.
  rewrite <-insert_union_r, insert_union_l; [done|]. by apply not_elem_of_list_to_map_1.
Qed.

Lemma copy_map_id m : copy_map m = m.
Proof.
  unfold copy_map. rewrite copy_map_from by apply NoDup_fst_map_to_list.
  by rewrite list_to_map_to_list, (right_id_L ∅ (∪)).
Qed.

Lemma map_nonempty_false m : map_nonempty m = false → m = ∅.
Proof.
  unfold map_nonempty. rewrite negb_false_iff, bool_decide_eq_true. apply map_size_empty_inv.
Qed.

Lemma buildGatewayHTTPHeaderFilter_denote ops :
  denote_filter <$> buildGatewayHTTPHeaderFilter ops =
  if hasHeaderOperations ops then ops else None.
Proof.
  unfold buildGatewayHTTPHeaderFilter. destruct (hasHeaderOperations ops); [|done].
  destruct ops as [[s a r]|]; [|done]. unfold denote_filter. simpl.
  rewrite !headers_map_sorted. do 2 f_equal. destruct (nonempty r) eqn:Hr; [done|].
  by apply nonempty_false in Hr.
Qed.

Lemma buildIstioHeaderOperations_denote ops :
  denote_istio <$> buildIstioHeaderOperations ops =
  if hasHeaderOperations ops then ops else None.
Proof.
  unfold buildIstioHeaderOperations. destruct (hasHeaderOperations ops); [|done].
  destruct ops as [[s a r]|]; [|done]. unfold denote_istio. simpl. rewrite !copy_map_id.
  destruct (nonempty r) eqn:Hr, (map_nonempty s) eqn:Hs, (map_nonempty a) eqn:Ha;
    try apply nonempty_false in Hr; try apply map_nonempty_false in Hs;
    try apply map_nonempty_false in Ha; by subst.
Qed.

Lemma hasHeaderOperations_asked side headers :
  option_list (if hasHeaderOperations (headers ≫= side) then headers ≫= side else None)
    = asked_ops side headers.
Proof.
  unfold asked_ops. destruct (headers ≫= side) as [[s a r]|]; [|done]. simpl.
  destruct (map_nonempty s) eqn:Hs; [|destruct (map_nonempty a) eqn:Ha;
    [|destruct (nonempty r) eqn:Hr]]; simpl; (case_decide as Hd; [|done || idtac]).
  - destruct Hd as (-> & _). by vm_compute in Hs.
  - destruct Hd as (_ & -> & _). by vm_compute in Ha.
  - destruct Hd as (_ & _ & ->). done.
  - done.
  - apply map_nonempty_false in Hs, Ha. apply nonempty_false in Hr. by destruct Hd.
Qed.

Lemma option_list_fmap {A B} (f : A → B) (o : option A) :
  f <$> option_list o = option_list (f <$> o).
Proof. by destruct o. Qed.

(** The filters of a rule, type by type. *)
Lemma buildGatewayHTTPHeaderFilters_ops headers :
  gateway_request_ops (buildGatewayHTTPHeaderFilters headers) = asked_ops rh_Request headers ∧
  gateway_response_ops (buildGatewayHTTPHeaderFilters headers) = asked_ops rh_Response headers.
Proof.
  rewrite <-!hasHeaderOperations_asked, <-!buildGatewayHTTPHeaderFilter_denote,
    <-!option_list_fmap.
  destruct headers as [[rq rs]|]; [|done]. simpl.
  by destruct (buildGatewayHTTPHeaderFilter rq), (buildGatewayHTTPHeaderFilter rs).
Qed.

(** The operations of a route, field by field. *)
Lemma buildIstioHeaders_ops headers :
  istio_request_ops (buildIstioHeaders headers) = asked_ops rh_Request headers ∧
  istio_response_ops (buildIstioHeaders headers) = asked_ops rh_Response headers.
Proof.
  rewrite <-!hasHeaderOperations_asked, <-!buildIstioHeaderOperations_denote,
    <-!option_list_fmap.
  destruct headers as [[rq rs]|]; [|done]. simpl.
  by destruct (buildIstioHeaderOperations rq), (buildIstioHeaderOperations rs).
Qed.

(** C36: for every pair of header operations, the Gateway API filters and the
    Istio operations denote the same thing, namely the operations of the spec
    (nothing when the spec asks for nothing); the Gateway filter lists its
    headers sorted by name and without repetition. *)
Theorem header_renderings_agree (ops : option RouteHeaderOperations) :
  denote_filter <$> buildGatewayHTTPHeaderFilter ops =
    (if hasHeaderOperations ops then ops else None) ∧
  denote_istio <$> buildIstioHeaderOperations ops =
    (if hasHeaderOperations ops then ops else None) ∧
  (∀ f, buildGatewayHTTPHeaderFilter ops = Some f →
    StronglySorted String.le (hh_Name <$> hf_Set f) ∧ NoDup (hh_Name <$> hf_Set f) ∧
    StronglySorted String.le (hh_Name <$> hf_Add f) ∧ NoDup (hh_Name <$> hf_Add f)).
Proof.
  split_and!; [apply buildGatewayHTTPHeaderFilter_denote|
    apply buildIstioHeaderOperations_denote|].
  unfold buildGatewayHTTPHeaderFilter. intros f.
  destruct (negb _); [done|]. destruct ops as [ops|]; [|done]. intros [= <-]; simpl.
  rewrite <-!list_fmap_compose, !(list_fmap_ext (hh_Name ∘ _) id), !list_fmap_id by done.
  destruct (sortedMapKeys_spec (ho_Set ops)) as (? & ? & _).
  destruct (sortedMapKeys_spec (ho_Add ops)) as (? & ? & _). done.
Qed.

Lemma header_renderings_agree_witness :
  let ops := Some (mkHeaderOps {[ "x-b" := "2"; "x-a" := "1" ]} ∅ ["x-hide"]) in
  denote_filter <$> buildGatewayHTTPHeaderFilter ops =
    (if hasHeaderOperations ops then ops else None) ∧
  denote_istio <$> buildIstioHeaderOperations ops =
    (if hasHeaderOperations ops then ops else None) ∧
  (∀ f, buildGatewayHTTPHeaderFilter ops = Some f →
    StronglySorted String.le (hh_Name <$> hf_Set f) ∧ NoDup (hh_Name <$> hf_Set f) ∧
    StronglySorted String.le (hh_Name <$> hf_Add f) ∧ NoDup (hh_Name <$> hf_Add f)).
Proof. intros ops. apply (header_renderings_agree ops). Defined.

Example ex_filter_sorted :
  buildGatewayHTTPHeaderFilter
    (Some (mkHeaderOps {[ "x-b" := "2"; "x-a" := "1" ]} ∅ ["x-hide"])) =
  Some (mkHeaderFilter [mkHTTPHeader "x-a" "1"; mkHTTPHeader "x-b" "2"] [] ["x-hide"]).
Proof. by vm_compute. Qed.
Example ex_headers_empty :
  buildIstioHeaders (Some (mkHeaders (Some (mkHeaderOps ∅ ∅ [])) None)) = None ∧
  length (buildGatewayHTTPHeaderFilters (Some (mkHeaders
    (Some (mkHeaderOps {[ "x-foo" := "bar" ]} {[ "x-add" := "v1" ]} []))
    (Some (mkHeaderOps ∅ ∅ ["x-hide"]))))) = 2.
Proof. by vm_compute. Qed.
End Headers.
