(* ===== verification/Builders.v ===== *)
(** * The generated objects

    One definition per object the reconciler writes: the literal the source
    builds, with the integer conversions, string formats and error paths of the
    code.  [mustStruct] panics when the protobuf library refuses a value, so
    the objects that need it are computed in [M].  The theorems about nested
    literals read them back leaf by leaf ([leaves]), those about headers by
    what the finished renderings do to requests and responses (Headers.v). *)
From S2P Require Import Prelude GoStd GoTime RouteTypes Objects Env Mem Common.
From S2P Require Headers.
Local Open Scope Z_scope.

Module Builders.

Section builders.
Context {St : Type} `{GoLibs}.

(** ** helpers.go *)

(** [parseDuration]: [None] is its error, whose text no caller looks at. *)
Definition parseDuration (s : string) : option pbDuration :=
  d ← ParseDuration s; Some (durationpb_New d).

Definition mustStruct (m : goMap) : M St pbStruct :=
  match structpb_NewStruct m with
  | Ok s => mret s
  | Err e => panic (err_text e)
  end.

(** ** HTTPRoutes *)

Definition backendRefs (rule : RouteRule) (canary : option RouteCanary)
    : list HTTPBackendRef :=
  let primary weight :=
    mkBackendRef (be_ServiceName (rr_Backend rule))
      (Some (be_ServicePort (rr_Backend rule))) weight in
  match canary with
  | None => [primary None]
  | Some canary =>
      let canaryWeight := ca_Weight canary in
      let primaryWeight := int32 (100 - canaryWeight) in
      [primary (Some primaryWeight);
       mkBackendRef (be_ServiceName (ca_Backend canary))
         (Some (be_ServicePort (ca_Backend canary))) (Some canaryWeight)]
  end.

Definition newHTTPRoute (route : Route) (index : nat) (rule : RouteRule)
    (canary : option RouteCanary) : Child :=
  let '(gwName, gwNs) := gatewayRef route in
  let path := if bool_decide (rr_Path rule = "") then "/" else rr_Path rule in
  mkChild
    (newMeta (r_Name route +:+ "-" +:+ fmt_d (Z.of_nat index)) (r_Namespace route)
      (managedLabels route))
    (SHTTPRoute (mkHTTPRouteSpec
      [mkParentRef gwName (Some gwNs) (Some "https")]
      [rr_Host rule]
      [mkHTTPRouteRule
        [mkPathMatch (Some PathMatchPathPrefix) (Some path)]
        (Headers.Headers.buildGatewayHTTPHeaderFilters (rr_Headers rule))
        (backendRefs rule canary)])).

Definition newRedirectHTTPRoute (route : Route) (index : nat) (host : string) : Child :=
  let '(gwName, gwNs) := gatewayRef route in
  mkChild
    (newMeta (r_Name route +:+ "-redirect-" +:+ fmt_d (Z.of_nat index)) (r_Namespace route)
      (managedLabels route))
    (SHTTPRoute (mkHTTPRouteSpec
      [mkParentRef gwName (Some gwNs) (Some "http")]
      [host]
      [mkHTTPRouteRule []
        [mkFilter HTTPRouteFilterRequestRedirect None None
          (Some (mkRedirect (Some "https") (Some 301)))]
        []])).

(** ** VirtualService *)

Definition buildIstioRouteDestinations (routeNamespace : string) (primary : RouteBackend)
    (canary : option RouteCanary) : list HTTPRouteDestination :=
  let dest (b : RouteBackend) weight :=
    mkDestination (be_ServiceName b +:+ "." +:+ routeNamespace +:+ ".svc.cluster.local")
      (Some (uint32 (be_ServicePort b))) weight in
  match canary with
  | None => [dest primary 0]
  | Some canary =>
      let primaryWeight := int32 (100 - ca_Weight canary) in
      [dest primary primaryWeight; dest (ca_Backend canary) (ca_Weight canary)]
  end.

Definition buildIstioHTTPRetry (retries : option RouteRetries) : option HTTPRetry :=
  match retries with
  | None => None
  | Some retries =>
      Some (mkHTTPRetry (re_Attempts retries)
        (if bool_decide (re_PerTryTimeout retries ≠ "")
         then parseDuration (re_PerTryTimeout retries) else None)
        (if bool_decide (re_RetryOn retries ≠ "") then re_RetryOn retries else ""))
  end.

(** The [corsPolicy] of the loop body. *)
Definition buildCorsPolicy (cors : RouteCORS) : CorsPolicy :=
  mkCorsPolicy
    (if nonempty (co_AllowOrigins cors)
     then StringMatch_Regex <$> co_AllowOrigins cors else [])
    (if nonempty (co_AllowMethods cors) then co_AllowMethods cors else [])
    (if nonempty (co_AllowHeaders cors) then co_AllowHeaders cors else [])
    (if bool_decide (co_MaxAge cors ≠ "") then parseDuration (co_MaxAge cors) else None).

(** The body of the loop over the rules. *)
Definition istioHTTPRoute (route : Route) (canary : option RouteCanary) (rule : RouteRule)
    : IstioHTTPRoute :=
  let path := if bool_decide (rr_Path rule = "") then "/" else rr_Path rule in
  mkIstioHTTPRoute
    [mkMatchRequest (Some (StringMatch_Prefix path))
      {[ ":authority" := StringMatch_Exact (rr_Host rule) ]}]
    (buildIstioRouteDestinations (r_Namespace route) (rr_Backend rule) canary)
    (if bool_decide (rs_Timeout (r_Spec route) ≠ "")
     then parseDuration (rs_Timeout (r_Spec route)) else None)
    (buildIstioHTTPRetry (rs_Retries (r_Spec route)))
    (buildCorsPolicy <$> rs_CORS (r_Spec route))
    (Headers.Headers.buildIstioHeaders (rr_Headers rule)).

Definition newVirtualService (route : Route) (canary : option RouteCanary) : Child :=
  let '(gwName, gwNs) := gatewayRef route in
  mkChild (newMeta (r_Name route) (r_Namespace route) (managedLabels route))
    (SVirtualService (mkVirtualServiceSpec
      (uniqueHostsFromRules (rs_Rules (r_Spec route)))
      [gwNs +:+ "/" +:+ gwName]
      (istioHTTPRoute route canary <$> rs_Rules (r_Spec route)))).

(** ** DestinationRule *)

Definition newDestinationRule (route : Route) (index : nat) (backend : RouteBackend) : Child :=
  let '(_, gwNs) := gatewayRef route in
  mkChild
    (newMeta (r_Name route +:+ "-tls-" +:+ fmt_d (Z.of_nat index)) gwNs
      (managedLabels route))
    (SDestinationRule (mkDestinationRuleSpec
      (be_ServiceName backend +:+ "." +:+ r_Namespace route +:+ ".svc.cluster.local")
      [mkPortPolicy (Some (uint32 (be_ServicePort backend)))
        (Some (mkTLSSettings ClientTLSSettings_SIMPLE (Some true)))])).

(** ** EnvoyFilters *)

Definition gatewayNameLabel : string := "gateway.networking.k8s.io/gateway-name".

(** The text of the [*strconv.NumError] that [ParseUint] returns. *)
Definition numErrorText (s : string) (e : numErr) : string :=
  "strconv.ParseUint: parsing " +:+ strconv_Quote s +:+ ": " +:+
  match e with ErrSyntax => "invalid syntax" | ErrRange => "value out of range" end.

(** The patch value: the buffer filter's per-route limit. *)
Definition bodySizeConfig (maxBytes : Z) : goMap :=
  [("per_filter_config", AMap
     [("envoy.filters.http.buffer", AMap
        [("@type", AString "type.googleapis.com/envoy.extensions.filters.http.buffer.v3.BufferPerRoute");
         ("buffer", AMap [("max_request_bytes", AUint64 maxBytes)])])])].

(** The object of [reconcileEnvoyFilter], or its error. *)
Definition newEnvoyFilter (route : Route) (index : nat) (rule : RouteRule)
    : M St (result Child) :=
  let '(gwName, gwNs) := gatewayRef route in
  match ParseUint (rs_MaxBodySize (r_Spec route)) 32 with
  | inl err =>
      mret (Err (Errorf ("invalid maxBodySize " +:+
        strconv_Quote (rs_MaxBodySize (r_Spec route)) +:+ ": " +:+
        numErrorText (rs_MaxBodySize (r_Spec route)) err)))
  | inr maxBytes =>
      value ← mustStruct (bodySizeConfig maxBytes);
      mret (Ok (mkChild
        (newMeta (r_Name route +:+ "-body-size-" +:+ fmt_d (Z.of_nat index)) gwNs
          (managedLabels route))
        (SEnvoyFilter (mkEnvoyFilterSpec {[ gatewayNameLabel := gwName ]}
          [mkPatch EnvoyFilter_HTTP_ROUTE EnvoyFilter_GATEWAY
            (MatchRouteConfiguration (rr_Host rule +:+ ":443")) Patch_MERGE value]))))
  end.

Definition rateLimitFillInterval (unit : string) : result string :=
  if bool_decide (unit = "Second") then Ok "1s"
  else if bool_decide (unit = "Minute") then Ok "60s"
  else if bool_decide (unit = "Hour") then Ok "3600s"
  else Err (Errorf ("unsupported rateLimit.unit " +:+ strconv_Quote unit)).

Definition buildRateLimitHTTPFilterPatch (routeName : string) : M St EnvoyConfigObjectPatch :=
  value ← mustStruct
    [("name", AString "envoy.filters.http.local_ratelimit");
     ("typed_config", AMap
        [("@type", AString "type.googleapis.com/envoy.extensions.filters.http.local_ratelimit.v3.LocalRateLimit");
         ("stat_prefix", AString (routeName +:+ "_local_rate_limiter"))])];
  mret (mkPatch EnvoyFilter_HTTP_FILTER EnvoyFilter_GATEWAY
    (MatchListener "envoy.filters.network.http_connection_manager"
      "envoy.filters.http.router") Patch_INSERT_BEFORE value).

(** [strings.NewReplacer(".", "_", "-", "_")] *)
Definition statPrefix (host : string) : string :=
  str_map (λ c, if bool_decide (c = "."%char) || bool_decide (c = "-"%char)
                then "_"%char else c) host.

(** The patch value: the token bucket of one virtual host. *)
Definition rateLimitConfig (routeName host : string) (maxTokens tokensPerFill : Z)
    (fillInterval : string) : goMap :=
  [("typed_per_filter_config", AMap
     [("envoy.filters.http.local_ratelimit", AMap
        [("@type", AString "type.googleapis.com/envoy.extensions.filters.http.local_ratelimit.v3.LocalRateLimit");
         ("stat_prefix", AString (routeName +:+ "_" +:+ statPrefix host));
         ("token_bucket", AMap
            [("max_tokens", AInt64 maxTokens);
             ("tokens_per_fill", AInt64 tokensPerFill);
             ("fill_interval", AString fillInterval)])])])].

Definition buildRateLimitRoutePatch (routeName host : string) (maxTokens tokensPerFill : Z)
    (fillInterval : string) : M St EnvoyConfigObjectPatch :=
  value ← mustStruct (rateLimitConfig routeName host maxTokens tokensPerFill fillInterval);
  mret (mkPatch EnvoyFilter_HTTP_ROUTE EnvoyFilter_GATEWAY
    (MatchRouteConfiguration (host +:+ ":443")) Patch_MERGE value).

(** [(tokensPerFill, maxTokens)] *)
Definition rateLimitTokens (rl : RouteRateLimit) : Z * Z :=
  let tokensPerFill := rl_RequestsPerUnit rl in
  (tokensPerFill, match rl_Burst rl with Some b => b | None => tokensPerFill end).

Definition newRateLimitEnvoyFilter (route : Route) (rl : RouteRateLimit) : M St (result Child) :=
  let '(gwName, gwNs) := gatewayRef route in
  match rateLimitFillInterval (rl_Unit rl) with
  | Err err => mret (Err err)
  | Ok fillInterval =>
      let '(tokensPerFill, maxTokens) := rateLimitTokens rl in
      first ← buildRateLimitHTTPFilterPatch (r_Name route);
      patches ← foldM (λ patches host,
        p ← buildRateLimitRoutePatch (r_Name route) host maxTokens tokensPerFill fillInterval;
        mret (patches ++ [p])) [first] (uniqueHostsFromRules (rs_Rules (r_Spec route)));
      mret (Ok (mkChild
        (newMeta (r_Name route +:+ "-rate-limit") gwNs (managedLabels route))
        (SEnvoyFilter (mkEnvoyFilterSpec {[ gatewayNameLabel := gwName ]} patches))))
  end.

(** ** Authentication *)

Definition newRequestAuthentication (route : Route) (auth : RouteAuth) : Child :=
  let '(gwName, gwNs) := gatewayRef route in
  let forwardToken := default true (au_ForwardOriginalToken auth) in
  mkChild (newMeta (r_Name route +:+ "-jwt") gwNs (managedLabels route))
    (SRequestAuthentication (mkRequestAuthenticationSpec {[ gatewayNameLabel := gwName ]}
      [mkJWTRule (au_Issuer auth) (au_JWKSURI auth) (au_Audiences auth) forwardToken])).

Definition authzPathPattern (path : string) : string :=
  if bool_decide (path = "") || bool_decide (path = "/") then "/*"
  else if HasSuffix path "*" then path
  else if HasSuffix path "/" then path +:+ "*"
  else path +:+ "*".

Definition buildAuthorizationPolicyRules (rules : list RouteRule) : list AuthzRule :=
  (λ rule, mkAuthzRule [["*"]] [([rr_Host rule], [authzPathPattern (rr_Path rule)])]) <$> rules.

Definition newAuthorizationPolicy (route : Route) : Child :=
  let '(gwName, gwNs) := gatewayRef route in
  mkChild (newMeta (r_Name route +:+ "-authz") gwNs (managedLabels route))
    (SAuthorizationPolicy (mkAuthorizationPolicySpec {[ gatewayNameLabel := gwName ]}
      AuthorizationPolicy_ALLOW
      (buildAuthorizationPolicyRules (rs_Rules (r_Spec route))))).
End builders.

(** ** Laws of the protobuf library

    structpb.NewStruct fails only on strings that are not valid UTF-8 and on
    types the source does not use. *)
Class StructLaws `{GoLibs} : Prop := {
  NewStruct_valid m : goAny_valid (AMap m) = true → ∃ s, structpb_NewStruct m = Ok s
}.

(** ** Reading generated configuration

    A nested literal is read back as the list of its leaves, each under the
    path of keys that leads to it, in the order they are written. *)
Fixpoint leaves (v : goAny) : list (list string * goAny) :=
  match v with
  | AMap m => flat_map (λ '(k, x), (λ l : list string * goAny, (k :: l.1, l.2)) <$> leaves x) m
  | leaf => [([], leaf)]
  end.

(** The configuration a patch carries: the message structpb makes of a
    literal with exactly these leaves. *)
Definition carries `{GoLibs} (v : pbStruct) (ls : list (list string * goAny)) : Prop :=
  ∃ m, structpb_NewStruct m = Ok v ∧ leaves (AMap m) = ls.

Definition bufferType : string :=
  "type.googleapis.com/envoy.extensions.filters.http.buffer.v3.BufferPerRoute".
Definition rateLimitType : string :=
  "type.googleapis.com/envoy.extensions.filters.http.local_ratelimit.v3.LocalRateLimit".

(** The patch that limits the request bodies of a virtual host to [n] bytes. *)
Definition limits_bodies `{GoLibs} (host : string) (n : Z) (p : EnvoyConfigObjectPatch) : Prop :=
  let path := ["per_filter_config"; "envoy.filters.http.buffer"] in
  p = mkPatch EnvoyFilter_HTTP_ROUTE EnvoyFilter_GATEWAY
        (MatchRouteConfiguration (host +:+ ":443")) Patch_MERGE (ep_Value p) ∧
  carries (ep_Value p) [
    (path ++ ["@type"], AString bufferType);
    (path ++ ["buffer"; "max_request_bytes"], AUint64 n)].

(** The patch that adds the local rate limiter to the gateway's HTTP filters,
    ahead of the router. *)
Definition inserts_limiter `{GoLibs} (name : string) (p : EnvoyConfigObjectPatch) : Prop :=
  p = mkPatch EnvoyFilter_HTTP_FILTER EnvoyFilter_GATEWAY
        (MatchListener "envoy.filters.network.http_connection_manager"
          "envoy.filters.http.router") Patch_INSERT_BEFORE (ep_Value p) ∧
  carries (ep_Value p) [
    (["name"], AString "envoy.filters.http.local_ratelimit");
    (["typed_config"; "@type"], AString rateLimitType);
    (["typed_config"; "stat_prefix"], AString (name +:+ "_local_rate_limiter"))].

(** A host as a metric name: dots and dashes become underscores. *)
Fixpoint underscored (host : string) : string :=
  match host with
  | EmptyString => ""
  | String "." host => String "_" (underscored host)
  | String "-" host => String "_" (underscored host)
  | String c host => String c (underscored host)
  end.

(** The patch of one host: its virtual host and its token bucket, which holds
    [mx] tokens and gains [tpf] of them every [fi]. *)
Definition host_patch `{GoLibs} (name : string) (mx tpf : Z) (fi host : string)
    (p : EnvoyConfigObjectPatch) : Prop :=
  let path := ["typed_per_filter_config"; "envoy.filters.http.local_ratelimit"] in
  p = mkPatch EnvoyFilter_HTTP_ROUTE EnvoyFilter_GATEWAY
        (MatchRouteConfiguration (host +:+ ":443")) Patch_MERGE (ep_Value p) ∧
  carries (ep_Value p) [
    (path ++ ["@type"], AString rateLimitType);
    (path ++ ["stat_prefix"], AString (name +:+ "_" +:+ underscored host));
    (path ++ ["token_bucket"; "max_tokens"], AInt64 mx);
    (path ++ ["token_bucket"; "tokens_per_fill"], AInt64 tpf);
    (path ++ ["token_bucket"; "fill_interval"], AString fi)].

Section lemmas.
Context {St : Type} `{GoLibs}.
Implicit Types s : St.

Lemma mustStruct_ok `{!StructLaws} m s :
  goAny_valid (AMap m) = true →
  ∃ v, mustStruct m s = (Ret v, s) ∧ structpb_NewStruct m = Ok v.
Proof.
  intros Hv. unfold mustStruct. destruct (NewStruct_valid m Hv) as [v ->]. by exists v.
Qed.

Lemma statPrefix_underscored host : statPrefix host = underscored host.
Proof.
  induction host as [|c host IH]; [done|]. unfold statPrefix in *. simpl. rewrite IH.
  by destruct c as [[] [] [] [] [] [] [] []].
Qed.

Lemma statPrefix_valid host : ValidString host = true → ValidString (statPrefix host) = true.
Proof.
  apply ValidString_str_map. intros c. destruct (_ || _) eqn:Hc; [right|by left].
  apply orb_true_iff in Hc as [->%bool_decide_eq_true| ->%bool_decide_eq_true]; by vm_compute.
Qed.

Lemma newEnvoyFilter_spec `{!StructLaws} route index rule s :
  match ParseUint (rs_MaxBodySize (r_Spec route)) 32 with
  | inr n => ∃ c p, newEnvoyFilter route index rule s = (Ret (Ok c), s) ∧
      limits_bodies (rr_Host rule) n p ∧
      c_Key c = (KEnvoyFilter, mkNN (gatewayRef route).2
        (r_Name route +:+ "-body-size-" +:+ fmt_d (Z.of_nat index))) ∧
      c_Spec c = SEnvoyFilter (mkEnvoyFilterSpec {[ gatewayNameLabel := (gatewayRef route).1 ]} [p])
  | inl _ => ∃ e, newEnvoyFilter route index rule s = (Ret (Err e), s) ∧ IsNotFound e = false
  end.
Proof.
  unfold newEnvoyFilter. destruct (gatewayRef route) as [gwName gwNs].
  destruct (ParseUint (rs_MaxBodySize (r_Spec route)) 32) as [err|n]; [by eexists|].
  unfold mbind, M_bind.
  destruct (mustStruct_ok (bodySizeConfig n) s) as (v & -> & Hv); [by vm_compute|].
  eexists _, _. split; [done|]. split; [|done]. split; [done|]. by exists (bodySizeConfig n).
Qed.

Lemma buildRateLimitHTTPFilterPatch_ok `{!StructLaws} name s :
  ValidString name = true →
  ∃ p, buildRateLimitHTTPFilterPatch name s = (Ret p, s) ∧ inserts_limiter name p.
Proof.
  intros Hn. unfold buildRateLimitHTTPFilterPatch, mbind, M_bind.
  match goal with |- context [mustStruct ?m s] =>
    destruct (mustStruct_ok m s) as (v & -> & Hv); [|eexists; split; [done|];
      split; [done|]; by exists m] end.
  simpl. by rewrite ValidString_app.
Qed.

Lemma buildRateLimitRoutePatch_ok `{!StructLaws} name host mx tpf fi s :
  ValidString name = true → ValidString host = true → ValidString fi = true →
  ∃ p, buildRateLimitRoutePatch name host mx tpf fi s = (Ret p, s) ∧
    host_patch name mx tpf fi host p.
Proof.
  intros Hn Hh Hf. unfold buildRateLimitRoutePatch, mbind, M_bind.
  destruct (mustStruct_ok (rateLimitConfig name host mx tpf fi) s) as (v & -> & Hv);
    [|eexists; split; [done|]; split; [done|]; exists (rateLimitConfig name host mx tpf fi);
      split; [done|]; by rewrite <-statPrefix_underscored].
  simpl. rewrite Hf, ValidString_app; [done|done|].
  apply (ValidString_app "_"); [done|]. by apply statPrefix_valid.
Qed.

Lemma rateLimitFillInterval_valid unit fi :
  rateLimitFillInterval unit = Ok fi → ValidString fi = true.
Proof. unfold rateLimitFillInterval. repeat case_bool_decide; by intros [= <-]. Qed.

(** The loop over the hosts appends one patch per host, in order. *)
Lemma rateLimitPatches_ok `{!StructLaws} name mx tpf fi hosts acc s :
  ValidString name = true → ValidString fi = true →
  Forall (λ h, ValidString h = true) hosts →
  ∃ ps, foldM (λ patches host,
      p ← buildRateLimitRoutePatch name host mx tpf fi; mret (patches ++ [p])) acc hosts s
      = (Ret (acc ++ ps), s) ∧
    Forall2 (host_patch name mx tpf fi) hosts ps.
Proof.
  intros Hn Hf Hall. revert acc. induction Hall as [|h hosts Hh _ IH]; intros acc; simpl.
  { exists []. by rewrite app_nil_r. }
  destruct (buildRateLimitRoutePatch_ok name h mx tpf fi s Hn Hh Hf) as (p & Hp & Hm).
  destruct (IH (acc ++ [p])) as (ps & Hps & Hms). exists (p :: ps).
  unfold mbind, M_bind in *. rewrite Hp. simpl. rewrite Hps, <-app_assoc.
  split; [done|]. by constructor.
Qed.

Lemma newRateLimitEnvoyFilter_spec `{!StructLaws} route rl s :
  ValidString (r_Name route) = true →
  (∀ r, r ∈ rs_Rules (r_Spec route) → ValidString (rr_Host r) = true) →
  match rateLimitFillInterval (rl_Unit rl) with
  | Ok fi => ∃ c first ps, newRateLimitEnvoyFilter route rl s = (Ret (Ok c), s) ∧
      c_Key c = (KEnvoyFilter, mkNN (gatewayRef route).2 (r_Name route +:+ "-rate-limit")) ∧
      c_Spec c = SEnvoyFilter
        (mkEnvoyFilterSpec {[ gatewayNameLabel := (gatewayRef route).1 ]} (first :: ps)) ∧
      inserts_limiter (r_Name route) first ∧
      Forall2 (host_patch (r_Name route) (rateLimitTokens rl).2 (rateLimitTokens rl).1 fi)
        (uniqueHostsFromRules (rs_Rules (r_Spec route))) ps
  | Err e => newRateLimitEnvoyFilter route rl s = (Ret (Err e), s) ∧ IsNotFound e = false
  end.
Proof.
  intros Hn Hh. unfold newRateLimitEnvoyFilter. destruct (gatewayRef route) as [gwName gwNs].
  destruct (rateLimitFillInterval (rl_Unit rl)) as [fi|e] eqn:Hfi.
  2:{ split; [done|]. revert Hfi. unfold rateLimitFillInterval.
      repeat case_bool_decide; try done. by intros [= <-]. }
  destruct (rateLimitTokens rl) as [tpf mx].
  destruct (buildRateLimitHTTPFilterPatch_ok (r_Name route) s Hn) as (first & Hfirst & ?).
  destruct (rateLimitPatches_ok (r_Name route) mx tpf fi
    (uniqueHostsFromRules (rs_Rules (r_Spec route))) [first] s Hn) as (ps & Hps & Hm).
  { by eapply rateLimitFillInterval_valid. }
  { apply Forall_forall. intros h Hin.
    apply (uniqueHostsFromRules_spec (rs_Rules (r_Spec route))) in Hin as (r & Hr & <-). auto. }
  unfold mbind, M_bind in *. rewrite Hfirst. simpl. rewrite Hps. simpl.
  eexists _, first, ps. by split_and!.
Qed.
End lemmas.

(** ** Specifications *)

(** Istio's matching of a request path against an AuthorizationPolicy path:
    exact, prefix ["abc*"], suffix ["*abc"] and presence ["*"]. *)
Definition str_init (s : string) : string := String.substring 0 (String.length s - 1) s.
Definition istio_path_match (pattern uri : string) : bool :=
  if HasSuffix pattern "*" then HasPrefix uri (str_init pattern)
  else if HasPrefix pattern "*" then HasSuffix uri (TrimPrefix pattern "*")
  else bool_decide (pattern = uri).

Lemma str_init_app s c : str_init (s +:+ String c "") = s.
Proof.
  unfold str_init. rewrite string_length_app. simpl.
  replace (String.length s + 1 - 1)%nat with (String.length s) by lia.
  induction s as [|d s IH]; [done|]. rewrite string_app_cons. simpl. by rewrite IH.
Qed.

Lemma HasSuffix_app s suf : HasSuffix (s +:+ suf) suf = true.
Proof. apply HasSuffix_spec. eauto. Qed.

Lemma authzPathPattern_match path uri :
  HasSuffix path "*" = false →
  istio_path_match (authzPathPattern path) uri =
    HasPrefix uri (if bool_decide (path = "") then "/" else path).
Proof.
  intros Hs. unfold authzPathPattern, istio_path_match.
  destruct (bool_decide (path = "") || bool_decide (path = "/")) eqn:Hp.
  - apply orb_true_iff in Hp as [->%bool_decide_eq_true| ->%bool_decide_eq_true]; done.
  - apply orb_false_iff in Hp as [Hp1 _]. rewrite Hp1, Hs.
    destruct (HasSuffix path "/"); by rewrite HasSuffix_app, str_init_app.
Qed.

Section claims.
Context {St : Type} `{GoLibs}.

(** C37: for a canary weight the CRD admits (1 to 99), the Gateway API and
    the Istio renderings of every rule carry the same two weights, each
    between 1 and 99 and summing to 100; for an arbitrary int32 weight the
    sum is 100 modulo 2^32. Without canary no weight is set. *)
Theorem canary_weights ns rule canary :
  let w := ca_Weight canary in
  br_Weight <$> backendRefs rule (Some canary) = [Some (int32 (100 - w)); Some w] ∧
  de_Weight <$> buildIstioRouteDestinations ns (rr_Backend rule) (Some canary)
    = [int32 (100 - w); w] ∧
  br_Weight <$> backendRefs rule None = [None] ∧
  de_Weight <$> buildIstioRouteDestinations ns (rr_Backend rule) None = [0] ∧
  (1 ≤ w ≤ 99 → int32 (100 - w) + w = 100 ∧ 1 ≤ int32 (100 - w) ≤ 99) ∧
  (int32 (100 - w) + w - 100) mod 2 ^ 32 = 0.
Proof.
  intros w. split_and!; try done.
  - intros Hw. rewrite int32_id; [lia|]. unfold isInt32. lia.
  - replace (int32 (100 - w) + w - 100) with (int32 (100 - w) - (100 - w)) by lia.
    apply int32_mod.
Qed.

(** C38: [reconcileRateLimitEnvoyFilter]'s object exists exactly for the units
    Second, Minute and Hour.  Its first patch inserts the local rate limiter
    into the gateway's HTTP filters ahead of the router; one patch per distinct
    host of the route follows, in order of first use, merged into the route
    configuration of that virtual host, with a bucket of [burst] tokens
    ([requestsPerUnit] by default) that gains [requestsPerUnit] tokens every
    unit: the patches are given leaf by leaf. *)
Theorem rateLimit_correct `{!StructLaws} route rl (s : St) :
  ValidString (r_Name route) = true →
  (∀ r, r ∈ rs_Rules (r_Spec route) → ValidString (rr_Host r) = true) →
  (∀ fi, (rl_Unit rl, fi) ∈ [("Second", "1s"); ("Minute", "60s"); ("Hour", "3600s")] →
    ∃ c first ps, newRateLimitEnvoyFilter route rl s = (Ret (Ok c), s) ∧
      c_Spec c = SEnvoyFilter
        (mkEnvoyFilterSpec {[ gatewayNameLabel := (gatewayRef route).1 ]} (first :: ps)) ∧
      inserts_limiter (r_Name route) first ∧
      Forall2 (host_patch (r_Name route)
          (default (rl_RequestsPerUnit rl) (rl_Burst rl)) (rl_RequestsPerUnit rl) fi)
        (first_uses (rr_Host <$> rs_Rules (r_Spec route))) ps) ∧
  (rl_Unit rl ∉ ["Second"; "Minute"; "Hour"] →
    ∃ e, newRateLimitEnvoyFilter route rl s = (Ret (Err e), s)).
Proof.
  intros Hn Hh. pose proof (newRateLimitEnvoyFilter_spec route rl s Hn Hh) as Hs. split.
  - intros fi Hu. assert (rateLimitFillInterval (rl_Unit rl) = Ok fi) as Hfi.
    { rewrite !elem_of_cons, elem_of_nil in Hu.
      destruct Hu as [[= Hu ->]|[[= Hu ->]|[[= Hu ->]|[]]]];
        unfold rateLimitFillInterval; by rewrite Hu. }
    rewrite Hfi, uniqueHostsFromRules_first_uses in Hs. destruct Hs as (c & first & ps & ? & _ & ? & ? & Hps).
    exists c, first, ps. by split_and!.
  - intros Hu. destruct (rateLimitFillInterval (rl_Unit rl)) as [fi|e] eqn:Hfi.
    + exfalso. revert Hfi. unfold rateLimitFillInterval.
      repeat case_bool_decide; try done; set_solver.
    + destruct Hs as [Hs _]. eauto.
Qed.

(** C39: the body-size filter of a rule is built exactly when [maxBodySize]
    is a non-empty string of decimal digits below 2^32, and then patches the
    rule's virtual host with that limit under the buffer filter's
    [max_request_bytes]; any other text is an error and never a panic. *)
Theorem bodySize_correct `{!StructLaws} route index rule (s : St) :
  let size := rs_MaxBodySize (r_Spec route) in
  let valid := size ≠ "" ∧ all_digits size = true ∧ decimal_from 0 size < 2 ^ 32 in
  (valid → ∃ c p, newEnvoyFilter route index rule s = (Ret (Ok c), s) ∧
      limits_bodies (rr_Host rule) (decimal_from 0 size) p ∧
      c_Spec c = SEnvoyFilter
        (mkEnvoyFilterSpec {[ gatewayNameLabel := (gatewayRef route).1 ]} [p])) ∧
  (¬ valid → ∃ e, newEnvoyFilter route index rule s = (Ret (Err e), s)).
Proof.
  intros size valid. pose proof (newEnvoyFilter_spec route index rule s) as Hs.
  fold size in Hs. split; intros Hv.
  - assert (ParseUint size 32 = inr (decimal_from 0 size)) as Hp.
    { apply ParseUint_spec; [lia|]. destruct Hv as (? & ? & ?). split_and!; try done. lia. }
    rewrite Hp in Hs. destruct Hs as (c & p & ? & ? & _ & ?). eauto 10.
  - destruct (ParseUint size 32) as [err|n] eqn:Hp.
    + destruct Hs as (e & ? & _). eauto.
    + exfalso. apply Hv. apply ParseUint_spec in Hp; [|lia]. unfold valid.
      destruct Hp as (? & ? & <- & ?). split_and!; try done. lia.
Qed.

(** Unless the rule's path already ends in ["*"], the path pattern of
    the AuthorizationPolicy matches exactly the request paths that start with
    the rule's path (["/"] when it is empty). *)
Theorem authzPathPattern_correct path uri :
  HasSuffix path "*" = false →
  istio_path_match (authzPathPattern path) uri =
    HasPrefix uri (if bool_decide (path = "") then "/" else path).
Proof. apply authzPathPattern_match. Qed.

(** C35: the HTTPRoute and the VirtualService render each rule alike: same
    host, same path prefix (["/"] by default), the same services (the rule's
    backend, then the canary's) with the same weights in the same order, and the same operations on the headers of
    requests and of responses, those the spec asks for.  The ports are the same
    number for every port in 0..65535, and for any other [int32] the
    VirtualService's is the HTTPRoute's modulo 2^32. *)
Theorem rule_renderings_agree route index rule canary :
  let path := if bool_decide (rr_Path rule = "") then "/" else rr_Path rule in
  let ir := istioHTTPRoute route canary rule in
  let svcHost name := name +:+ "." +:+ r_Namespace route +:+ ".svc.cluster.local" in
  ∃ hr r, c_Spec (newHTTPRoute route index rule canary) = SHTTPRoute hr ∧
    hr_Hostnames hr = [rr_Host rule] ∧
    hr_Rules hr = [r] ∧
    hrr_Matches r = [mkPathMatch (Some PathMatchPathPrefix) (Some path)] ∧
    ir_Match ir = [mkMatchRequest (Some (StringMatch_Prefix path))
      {[ ":authority" := StringMatch_Exact (rr_Host rule) ]}] ∧
    (λ b, (br_Name b, br_Port b)) <$> hrr_BackendRefs r
      = (λ b, (be_ServiceName b, Some (be_ServicePort b))) <$>
          rr_Backend rule :: option_list (ca_Backend <$> canary) ∧
    (λ b, (svcHost (br_Name b), uint32 <$> br_Port b, default 0 (br_Weight b))) <$>
        hrr_BackendRefs r
      = (λ d, (de_Host d, de_Port d, de_Weight d)) <$> ir_Route ir ∧
    (Forall (λ b, 0 ≤ be_ServicePort b ≤ 65535)
        (rr_Backend rule :: option_list (ca_Backend <$> canary)) →
      br_Port <$> hrr_BackendRefs r = de_Port <$> ir_Route ir) ∧
    Headers.Headers.gateway_request_ops (hrr_Filters r)
      = Headers.Headers.asked_ops rh_Request (rr_Headers rule) ∧
    Headers.Headers.istio_request_ops (ir_Headers ir)
      = Headers.Headers.asked_ops rh_Request (rr_Headers rule) ∧
    Headers.Headers.gateway_response_ops (hrr_Filters r)
      = Headers.Headers.asked_ops rh_Response (rr_Headers rule) ∧
    Headers.Headers.istio_response_ops (ir_Headers ir)
      = Headers.Headers.asked_ops rh_Response (rr_Headers rule).
Proof.
  intros path ir svcHost. unfold newHTTPRoute.
  destruct (gatewayRef route) as [gwName gwNs]. eexists _, _. split; [done|]. simpl.
  destruct (Headers.Headers.buildGatewayHTTPHeaderFilters_ops (rr_Headers rule)).
  destruct (Headers.Headers.buildIstioHeaders_ops (rr_Headers rule)).
  split_and!; try done; unfold ir, istioHTTPRoute, backendRefs, buildIstioRouteDestinations.
  - by destruct canary.
  - by destruct canary.
  - intros Hp. apply Forall_cons in Hp as [Hp Hc].
    destruct canary as [c|]; simpl in *; rewrite !uint32_id; try done; try lia.
    apply Forall_cons in Hc as [Hc _]. lia.
Qed.

(** Durations are best effort: a [timeout] (or [perTryTimeout], or CORS
    [maxAge]) is rendered when it parses and silently left out when it does
    not; no text makes the VirtualService fail. *)
Theorem durations_best_effort route canary rule :
  ir_Timeout (istioHTTPRoute route canary rule) =
    (if bool_decide (rs_Timeout (r_Spec route) = "") then None
     else durationpb_New <$> ParseDuration (rs_Timeout (r_Spec route))) ∧
  (∀ re, buildIstioHTTPRetry (Some re) = Some (mkHTTPRetry (re_Attempts re)
    (if bool_decide (re_PerTryTimeout re = "") then None
     else durationpb_New <$> ParseDuration (re_PerTryTimeout re)) (re_RetryOn re))) ∧
  (∀ co, cp_MaxAge (buildCorsPolicy co) =
    if bool_decide (co_MaxAge co = "") then None
    else durationpb_New <$> ParseDuration (co_MaxAge co)) ∧
  (∀ s d, ParseDuration s = Some d → isInt64 d).
Proof.
  split_and!.
  - simpl. unfold parseDuration. by rewrite if_ne.
  - intros re. unfold buildIstioHTTPRetry, parseDuration. by rewrite !if_ne, if_empty_id.
  - intros co. unfold buildCorsPolicy, parseDuration. simpl. by rewrite if_ne.
  - apply ParseDuration_isInt64.
Qed.
End claims.

(** ** Concrete runs *)

#[export] Instance memStructLaws : StructLaws.
Proof. split. intros m Hm. cbn [structpb_NewStruct memLibs]. rewrite Hm. eauto. Qed.

Definition ex_rule (host path : string) : RouteRule :=
  mkRule host path (mkBackend "stable" 8080 "") None.
Definition ex_spec (rules : list RouteRule) (size : string) (rl : option RouteRateLimit)
    : RouteSpec :=
  mkSpec rules None "" size None None None None rl None.
Definition ex_route (spec : RouteSpec) : Route :=
  mkRoute (newMeta "app" "demo" ∅) spec (mkStatus "" [] 0).
Definition ex_limited : Route :=
  ex_route (ex_spec [ex_rule "a.example.com" "/"; ex_rule "b.example.com" "";
    ex_rule "a.example.com" "/x"] "1048576" None).

Lemma rateLimit_correct_witness :
  let rl := mkRateLimit 10 "Minute" (Some 20) in
  ValidString (r_Name ex_limited) = true ∧
  (∀ fi, (rl_Unit rl, fi) ∈ [("Second", "1s"); ("Minute", "60s"); ("Hour", "3600s")] →
    ∃ c first ps, newRateLimitEnvoyFilter ex_limited rl tt = (Ret (Ok c), tt) ∧
      c_Spec c = SEnvoyFilter
        (mkEnvoyFilterSpec {[ gatewayNameLabel := (gatewayRef ex_limited).1 ]} (first :: ps)) ∧
      inserts_limiter "app" first ∧
      Forall2 (host_patch "app" 20 10 fi)
        ["a.example.com"; "b.example.com"] ps).
Proof.
  intros rl. split; [by vm_compute|]. apply (rateLimit_correct ex_limited rl tt).
  - by vm_compute.
  - apply Forall_forall. repeat constructor.
Defined.

Lemma bodySize_correct_witness :
  let size := rs_MaxBodySize (r_Spec ex_limited) in
  (size ≠ "" ∧ all_digits size = true ∧ decimal_from 0 size < 2 ^ 32) ∧
  ∃ c p, newEnvoyFilter ex_limited 0 (ex_rule "a.example.com" "/") tt = (Ret (Ok c), tt) ∧
    limits_bodies "a.example.com" 1048576 p ∧
    c_Spec c = SEnvoyFilter
      (mkEnvoyFilterSpec {[ gatewayNameLabel := (gatewayRef ex_limited).1 ]} [p]).
Proof.
  intros size.
  assert (size ≠ "" ∧ all_digits size = true ∧ decimal_from 0 size < 2 ^ 32) as Hv
    by (by vm_compute).
  split; [exact Hv|].
  apply (bodySize_correct ex_limited 0 (ex_rule "a.example.com" "/") tt). exact Hv.
Defined.

Lemma authzPathPattern_correct_witness :
  istio_path_match (authzPathPattern "/api") "/api/v1" = HasPrefix "/api/v1" "/api".
Proof. apply (authzPathPattern_correct "/api" "/api/v1"). by vm_compute. Defined.

Lemma rule_renderings_agree_witness :
  let canary := Some (mkCanary (mkBackend "canary" 8081 "") 20 None) in
  let ops := mkHeaderOps {[ "x-env" := "prod" ]} ∅ ["x-debug"] in
  let rule := mkRule "a.example.com" "" (mkBackend "stable" 8080 "")
    (Some (mkHeaders (Some ops) (Some (mkHeaderOps ∅ ∅ [])))) in
  let ir := istioHTTPRoute ex_limited canary rule in
  ∃ hr r, c_Spec (newHTTPRoute ex_limited 0 rule canary) = SHTTPRoute hr ∧
    hr_Rules hr = [r] ∧
    br_Port <$> hrr_BackendRefs r = de_Port <$> ir_Route ir ∧
    Headers.Headers.gateway_request_ops (hrr_Filters r) = [ops] ∧
    Headers.Headers.istio_request_ops (ir_Headers ir) = [ops] ∧
    Headers.Headers.gateway_response_ops (hrr_Filters r) = [] ∧
    Headers.Headers.istio_response_ops (ir_Headers ir) = [].
Proof.
  intros canary ops rule ir.
  assert (Headers.Headers.asked_ops rh_Request (rr_Headers rule) = [ops]) as Hq
    by (by vm_compute).
  assert (Headers.Headers.asked_ops rh_Response (rr_Headers rule) = []) as Hs
    by (by vm_compute).
  destruct (rule_renderings_agree ex_limited 0 rule canary)
    as (hr & r & Hhr & _ & Hr & _ & _ & _ & _ & Hp & Hgq & Hiq & Hgs & His).
  rewrite Hq in Hgq, Hiq. rewrite Hs in Hgs, His. exists hr, r. split_and!; [exact Hhr|
    exact Hr| |exact Hgq|exact Hiq|exact Hgs|exact His].
  apply Hp. repeat constructor; by vm_compute.
Defined.

(** A port outside 0..65535 is accepted by the schema and rendered twice. *)
Example ex_ports :
  let rule := mkRule "a.example.com" "" (mkBackend "stable" (-1) "") None in
  br_Port <$> backendRefs rule None = [Some (-1)] ∧
  de_Port <$> buildIstioRouteDestinations "demo" (rr_Backend rule) None = [Some 4294967295].
Proof. by vm_compute. Qed.

Example ex_destinations :
  (λ d, (de_Host d, de_Weight d)) <$> buildIstioRouteDestinations "demo"
    (mkBackend "stable" 8080 "") (Some (mkCanary (mkBackend "canary" 8081 "") 20 None)) =
  [("stable.demo.svc.cluster.local", 80); ("canary.demo.svc.cluster.local", 20)].
Proof. by vm_compute. Qed.
Example ex_retry :
  buildIstioHTTPRetry (Some (mkRetries 3 "2s" "gateway-error")) =
    Some (mkHTTPRetry 3 (Some (mkPbDuration 2 0)) "gateway-error") ∧
  buildIstioHTTPRetry (Some (mkRetries 2 "bad-duration" "")) = Some (mkHTTPRetry 2 None "").
Proof. by vm_compute. Qed.
Example ex_authz : authzPathPattern "" = "/*" ∧ authzPathPattern "/api" = "/api*" ∧
  authzPathPattern "/api/" = "/api/*" ∧ authzPathPattern "/api/*" = "/api/*".
Proof. by vm_compute. Qed.
End Builders.
