(* ===== verification/Conditions.v ===== *)
(** * Status conditions (findCondition, setCondition, conditionTransitioned) *)
From S2P Require Import Prelude GoStd GoTime RouteTypes Objects Env Mem Common.
Local Open Scope Z_scope.

Module Conditions.

Fixpoint find_condition (cs : list Condition) (condType : string) : option Condition :=
  match cs with
  | [] => None
  | c :: cs' => if bool_decide (cond_Type c = condType) then Some c
                else find_condition cs' condType
  end.
Definition findCondition (route : Route) (condType : string) : option Condition :=
  find_condition (st_Conditions (r_Status route)) condType.

Definition conditionTransitioned (previous : option Condition) (newStatus newReason : string)
    : bool :=
  match previous with
  | None => true
  | Some previous => bool_decide (cond_Status previous ≠ newStatus)
                     || bool_decide (cond_Reason previous ≠ newReason)
  end.

(** The loop of [setCondition] over the conditions, and its final append. *)
Fixpoint set_condition (now generation : Z) (condType status reason message : string)
    (cs : list Condition) : list Condition :=
  match cs with
  | [] => [mkCondition condType status reason message now generation]
  | c :: cs' =>
      if bool_decide (cond_Type c = condType) then
        (if bool_decide (cond_Status c ≠ status) || bool_decide (cond_Reason c ≠ reason)
         then mkCondition (cond_Type c) status reason message now generation else c) :: cs'
      else c :: set_condition now generation condType status reason message cs'
  end.
Definition setCondition {E} `{KubeEnv E} (route : Route) (condType status reason message : string)
    : M (St E) Route :=
  now ← Now;
  mret (set_Conditions
    (set_condition now (m_Generation (r_Meta route)) condType status reason message
      (st_Conditions (r_Status route))) route).

(** ** Lemmas *)

Lemma find_set_same now gen ty status reason msg cs :
  ∃ c, find_condition (set_condition now gen ty status reason msg cs) ty = Some c ∧
    cond_Type c = ty ∧ cond_Status c = status ∧ cond_Reason c = reason.
Proof.
  induction cs as [|c cs IH]; simpl.
  { rewrite bool_decide_eq_true_2 by done. eauto. }
  case_bool_decide as Hty; simpl.
  - destruct (_ || _) eqn:Hch; simpl; rewrite bool_decide_eq_true_2 by done.
    + eauto.
    + apply orb_false_iff in Hch as [?%bool_decide_eq_false ?%bool_decide_eq_false].
      exists c. split_and!; [done|done|by apply dec_stable..].
  - by rewrite bool_decide_eq_false_2.
Qed.

Lemma find_set_other now gen ty ty' status reason msg cs :
  ty' ≠ ty →
  find_condition (set_condition now gen ty status reason msg cs) ty' = find_condition cs ty'.
Proof.
  intros Hne. induction cs as [|c cs IH]; simpl.
  { by rewrite bool_decide_eq_false_2 by congruence. }
  case_bool_decide as Hty; simpl; [|by rewrite IH].
  destruct (_ || _); simpl; [|done]. rewrite !bool_decide_eq_false_2 by congruence. done.
Qed.

Lemma types_set now gen ty status reason msg cs :
  cond_Type <$> set_condition now gen ty status reason msg cs =
  if bool_decide (ty ∈ cond_Type <$> cs) then cond_Type <$> cs else (cond_Type <$> cs) ++ [ty].
Proof.
  induction cs as [|c cs IH]; [done|]. cbn [set_condition]. rewrite !fmap_cons.
  destruct (decide (cond_Type c = ty)) as [<-|Hty].
  - rewrite (bool_decide_eq_true_2 (cond_Type c = _)) by done.
    rewrite (bool_decide_eq_true_2 (_ ∈ _)) by left.
    rewrite fmap_cons. by destruct (_ || _).
  - rewrite (bool_decide_eq_false_2 (cond_Type c = ty)) by done. rewrite fmap_cons, IH.
    destruct (decide (ty ∈ cond_Type <$> cs)).
    + by rewrite !bool_decide_eq_true_2 by (done || by right).
    + rewrite !bool_decide_eq_false_2; [done| |done].
      intros [->|?]%elem_of_cons; done.
Qed.

Lemma types_set_NoDup now gen ty status reason msg cs :
  NoDup (cond_Type <$> cs) →
  NoDup (cond_Type <$> set_condition now gen ty status reason msg cs).
Proof.
  intros Hnd. rewrite types_set. case_bool_decide as Hin; [done|].
  apply NoDup_app. split_and!; [done| |apply NoDup_singleton]. set_solver.
Qed.

Lemma set_condition_stable now gen ty status reason msg cs c :
  find_condition cs ty = Some c → cond_Status c = status → cond_Reason c = reason →
  set_condition now gen ty status reason msg cs = cs.
Proof.
  intros Hf Hs Hr. induction cs as [|d cs IH]; simpl in *; [done|].
  case_bool_decide; [|by rewrite IH].
  simplify_eq. by rewrite !bool_decide_eq_false_2 by (intros []; done).
Qed.

Lemma set_condition_changed now gen ty status reason msg cs :
  conditionTransitioned (find_condition cs ty) status reason = true →
  find_condition (set_condition now gen ty status reason msg cs) ty =
    Some (mkCondition ty status reason msg now gen).
Proof.
  induction cs as [|c cs IH]; simpl.
  { intros _. by rewrite bool_decide_eq_true_2. }
  case_bool_decide as Hty; simpl; intros Ht.
  - rewrite Ht. simpl. by rewrite bool_decide_eq_true_2, Hty.
  - rewrite bool_decide_eq_false_2 by done. auto.
Qed.

Section wp.
Context {E : Type} `{KubeEnv E}.

Lemma setCondition_run route ty status reason msg (s : St E) :
  let now := (env_now (s_env s)).1 in
  setCondition route ty status reason msg s =
  (Ret (set_Conditions (set_condition now (m_Generation (r_Meta route)) ty status reason msg
      (st_Conditions (r_Status route))) route),
   mkSt (env_now (s_env s)).2 (s_rec s) (s_log s ++ [CNow now])).
Proof.
  unfold setCondition, Now, kcall, mbind, M_bind. by destruct (env_now (s_env s)).
Qed.
End wp.

Section claims.
Context {E : Type} `{KubeEnv E}.

(** C40: [setCondition] establishes the requested status and reason for its
    type, leaves the conditions of every other type and everything else of the
    Route as they are, and keeps the condition types distinct and in order. *)
Theorem setCondition_correct route ty status reason msg (s : St E) :
  ∃ route' s', setCondition route ty status reason msg s = (Ret route', s') ∧
    (∃ c, findCondition route' ty = Some c ∧ cond_Status c = status ∧ cond_Reason c = reason) ∧
    (∀ ty', ty' ≠ ty → findCondition route' ty' = findCondition route ty') ∧
    set_Conditions (st_Conditions (r_Status route)) route' = route ∧
    (NoDup (cond_Type <$> st_Conditions (r_Status route)) →
     NoDup (cond_Type <$> st_Conditions (r_Status route'))) ∧
    (∃ new, cond_Type <$> st_Conditions (r_Status route') =
      (cond_Type <$> st_Conditions (r_Status route)) ++ new).
Proof.
  rewrite setCondition_run. do 2 eexists. split; [done|]. unfold findCondition. simpl.
  split_and!.
  - destruct (find_set_same (env_now (s_env s)).1 (m_Generation (r_Meta route)) ty status
      reason msg (st_Conditions (r_Status route))) as (c & ? & _ & ? & ?). eauto.
  - intros ty' Hne. by apply find_set_other.
  - by destruct route as [? ? []].
  - apply types_set_NoDup.
  - rewrite types_set. case_bool_decide; [exists []; by rewrite app_nil_r|by eexists].
Qed.

(** A condition is rewritten, transition time, generation and message
    included, exactly when its status or reason changes; otherwise the Route
    is unchanged, so a new message under the same reason is dropped and
    [observedGeneration] keeps its old value. *)
Theorem setCondition_transition route ty status reason msg (s : St E) :
  let now := (env_now (s_env s)).1 in
  let run := setCondition route ty status reason msg s in
  (conditionTransitioned (findCondition route ty) status reason = true →
    ∃ route', run.1 = Ret route' ∧ findCondition route' ty =
      Some (mkCondition ty status reason msg now (m_Generation (r_Meta route)))) ∧
  (conditionTransitioned (findCondition route ty) status reason = false →
    run.1 = Ret route).
Proof.
  intros now run. unfold run. rewrite setCondition_run. simpl.
  split; intros Ht.
  - eexists. split; [done|]. by apply set_condition_changed.
  - unfold findCondition in Ht.
    destruct (find_condition _ ty) as [c|] eqn:Hf; [|done].
    apply orb_false_iff in Ht as [Hs%bool_decide_eq_false Hr%bool_decide_eq_false].
    rewrite (set_condition_stable _ _ _ _ _ _ _ c); [|done|by apply dec_stable..].
    by destruct route as [? ? []].
Qed.
End claims.

Example ex_stale_message :
  let s := mkSt (mem_empty 7) (mkReconciler false false None None) [] in
  let r := mkRoute (newMeta "app" "demo" ∅) (mkSpec [] None "" "" None None None None None None)
    (mkStatus "" [mkCondition "Ready" "False" "RouteConflict" "conflict with a" 1 1] 0) in
  (setCondition r "Ready" "False" "RouteConflict" "conflict with b" s).1 = Ret r.
Proof. by vm_compute. Qed.
End Conditions.
