(* ===== verification/Metrics.v ===== *)
(** * Prometheus metrics (internal/controller/metrics.go)

    The metric functions only call the Prometheus vectors; the calls are in the
    log, and [gauge_value] reads from a log what a gauge shows: the value of
    the last [Set] of its label values, unless they were deleted since. *)
From S2P Require Import Prelude GoStd GoTime RouteTypes Objects Env Common.
Local Open Scope Z_scope.

Module Metrics.

Definition phaseValues : list string :=
  [RoutePhasePending; RoutePhaseProvisioning; RoutePhaseActive; RoutePhaseDegraded].
Definition backendStates : list string :=
  ["healthy"; "missing_service"; "zero_endpoints"; "conflict"; "unknown"].

Section metrics.
Context {E : Type} `{KubeEnv E}.

Definition setRoutePhaseMetric (route : Route) (current : string) : M (St E) unit :=
  foldM (λ _ phase,
    let value := if bool_decide (phase = current) then 1 else 0 in
    emit (CGaugeSet routeStatusPhase [r_Namespace route; r_Name route; phase] value))
    tt phaseValues.

Definition setRouteBackendHealthState (route : Route) (state : string) : M (St E) unit :=
  foldM (λ _ s,
    let value := if bool_decide (s = state) then 1 else 0 in
    emit (CGaugeSet routeBackendHealth [r_Namespace route; r_Name route; s] value))
    tt backendStates.

Definition setManagedResourcesMetric (route : Route) (count : Z) : M (St E) unit :=
  emit (CGaugeSet routeManagedResources [r_Namespace route; r_Name route] count).

Definition clearRouteMetrics (route : Route) : M (St E) unit :=
  foldM (λ _ phase,
    emit (CGaugeDelete routeStatusPhase [r_Namespace route; r_Name route; phase]))
    tt phaseValues;;
  foldM (λ _ state,
    emit (CGaugeDelete routeBackendHealth [r_Namespace route; r_Name route; state]))
    tt backendStates;;
  emit (CGaugeDelete routeManagedResources [r_Namespace route; r_Name route]).

(** Only metric calls are logged. *)
Definition is_metric (c : Call) : Prop :=
  match c with CGaugeSet _ _ _ | CGaugeDelete _ _ | CCounterInc _ => True | _ => False end.

Lemma foldM_emit {A} (f : A → Call) l (s : St E) :
  foldM (λ _ x, emit (f x)) tt l s =
  (Ret tt, mkSt (s_env s) (s_rec s) (s_log s ++ map f l)).
Proof.
  revert s. induction l as [|x l IH]; intros s; simpl.
  - rewrite app_nil_r. by destruct s.
  - unfold mbind, M_bind, emit at 1. rewrite IH. simpl. by rewrite <-app_assoc.
Qed.
End metrics.

(** ** What the gauges show *)

Definition gauge_step (v : GaugeVec) (labels : list string) (acc : option Z) (c : Call)
    : option Z :=
  match c with
  | CGaugeSet v' labels' value =>
      if bool_decide (v = v') && bool_decide (labels = labels') then Some value else acc
  | CGaugeDelete v' labels' =>
      if bool_decide (v = v') && bool_decide (labels = labels') then None else acc
  | _ => acc
  end.
Definition gauge_value (v : GaugeVec) (labels : list string) (log : list Call) : option Z :=
  foldl (gauge_step v labels) None log.

Lemma gauge_value_app v labels l1 l2 :
  gauge_value v labels (l1 ++ l2) = foldl (gauge_step v labels) (gauge_value v labels l1) l2.
Proof. apply foldl_app. Qed.

(** The series of a route: every gauge whose labels start with its name. *)
Definition series_of (route : Route) (labels : list string) : Prop :=
  ∃ rest, labels = r_Namespace route :: r_Name route :: rest.

Lemma not_series_of route labels rest :
  ¬ series_of route labels →
  bool_decide (labels = r_Namespace route :: r_Name route :: rest) = false.
Proof. intros Hno. apply bool_decide_eq_false_2. intros ->. apply Hno. by eexists. Qed.

(** Reads a gauge off the last entries of a log. *)
Ltac read_gauge := simpl; repeat (case_bool_decide; simplify_eq/=); done.
Ltac each_label H :=
  repeat (apply elem_of_cons in H as [->|H]; [read_gauge|]); by apply elem_of_nil in H.

Section claims.
Context {E : Type} `{KubeEnv E}.

(** After a route's phase is recorded, exactly the gauge of that phase
    shows 1 and those of the three other phases 0 (likewise for the five
    backend health states), and the gauges of other routes are untouched. *)
Theorem phase_gauges_one_hot route current (s : St E) :
  let s' := (setRoutePhaseMetric route current s).2 in
  let s'' := (setRouteBackendHealthState route current s).2 in
  (∀ phase, phase ∈ phaseValues →
    gauge_value routeStatusPhase [r_Namespace route; r_Name route; phase] (s_log s') =
      Some (if bool_decide (phase = current) then 1 else 0)) ∧
  (∀ state, state ∈ backendStates →
    gauge_value routeBackendHealth [r_Namespace route; r_Name route; state] (s_log s'') =
      Some (if bool_decide (state = current) then 1 else 0)) ∧
  (∀ v labels, ¬ series_of route labels →
    gauge_value v labels (s_log s') = gauge_value v labels (s_log s) ∧
    gauge_value v labels (s_log s'') = gauge_value v labels (s_log s)).
Proof.
  unfold setRoutePhaseMetric, setRouteBackendHealthState. rewrite !foldM_emit. simpl s_log.
  split_and!.
  - intros phase Hp. rewrite gauge_value_app. simpl map. unfold phaseValues in Hp. each_label Hp.
  - intros state Hp. rewrite gauge_value_app. simpl map. unfold backendStates in Hp. each_label Hp.
  - intros v labels Hno. rewrite !gauge_value_app.
    split; simpl; by rewrite !not_series_of, !andb_false_r.
Qed.

(** Clearing a route's metrics removes each of its series and nothing
    else. *)
Theorem clearRouteMetrics_correct route (s : St E) :
  let s' := (clearRouteMetrics route s).2 in
  (∀ phase, phase ∈ phaseValues →
    gauge_value routeStatusPhase [r_Namespace route; r_Name route; phase] (s_log s') = None) ∧
  (∀ state, state ∈ backendStates →
    gauge_value routeBackendHealth [r_Namespace route; r_Name route; state] (s_log s') = None) ∧
  gauge_value routeManagedResources [r_Namespace route; r_Name route] (s_log s') = None ∧
  (∀ v labels, ¬ series_of route labels →
    gauge_value v labels (s_log s') = gauge_value v labels (s_log s)).
Proof.
  unfold clearRouteMetrics, mbind, M_bind. rewrite !foldM_emit. unfold emit. simpl s_log.
  split_and!.
  - intros phase Hp. rewrite !gauge_value_app. unfold phaseValues in Hp. each_label Hp.
  - intros state Hp. rewrite !gauge_value_app. unfold backendStates in Hp. each_label Hp.
  - rewrite !gauge_value_app. read_gauge.
  - intros v labels Hno. rewrite !gauge_value_app. simpl.
    by rewrite !not_series_of, !andb_false_r.
Qed.
End claims.
End Metrics.
