(* ===== verification/Health.v ===== *)
(** * Backend health (evaluateBackendHealth, backendHealthSummary) *)
From S2P Require Import Prelude GoStd GoTime RouteTypes Objects Env Mem Common.

Module Health.

Record backendHealthSummary := mkSummary {
  MissingServices : list string;
  ZeroEndpoints : list string
}.

Definition allReady (s : backendHealthSummary) : bool :=
  bool_decide (length (MissingServices s) = 0) && bool_decide (length (ZeroEndpoints s) = 0).

(** [(phase, reason, message)] *)
Definition phaseReasonAndMessage (s : backendHealthSummary) : string * string * string :=
  if nonempty (MissingServices s) then
    (RoutePhasePending, "BackendServiceMissing",
     "Waiting for backend Services: " +:+ Join (MissingServices s) ", ")
  else if nonempty (ZeroEndpoints s) then
    (RoutePhaseDegraded, "BackendNoEndpoints",
     "Backends have zero ready endpoints: " +:+ Join (ZeroEndpoints s) ", ")
  else (RoutePhaseProvisioning, "BackendsReady", "All backend dependencies are ready").

Fixpoint hasReadyEndpoints_in (subsets : list (list string)) : bool :=
  match subsets with
  | [] => false
  | addresses :: subsets' =>
      if nonempty addresses then true else hasReadyEndpoints_in subsets'
  end.
Definition hasReadyEndpoints (ep : Endpoints) : bool := hasReadyEndpoints_in (ep_Subsets ep).

Definition addMissing (name : string) (s : backendHealthSummary) : backendHealthSummary :=
  mkSummary (MissingServices s ++ [name]) (ZeroEndpoints s).
Definition addZero (name : string) (s : backendHealthSummary) : backendHealthSummary :=
  mkSummary (MissingServices s) (ZeroEndpoints s ++ [name]).

Section health.
Context {E : Type} `{KubeEnv E}.

(** [seenServices] and [summary], or the error that ended the loops. *)
Definition health_acc : Type := result (gset string * backendHealthSummary).

(** The body of the two loops, for one backend. *)
Definition checkBackend (route : Route) (acc : health_acc) (backend : RouteBackend)
    : M (St E) health_acc :=
  match acc with
  | Err err => mret (Err err)
  | Ok (seenServices, summary) =>
      let serviceName := be_ServiceName backend in
      let serviceKey := r_Namespace route +:+ "/" +:+ serviceName in
      if bool_decide (serviceKey ∈ seenServices) then mret acc
      else
        let seenServices := {[serviceKey]} ∪ seenServices in
        svc ← getService (mkNN (r_Namespace route) serviceName);
        match svc with
        | Err err =>
            if IsNotFound err then mret (Ok (seenServices, addMissing serviceName summary))
            else mret (Err err)
        | Ok _ =>
            ep ← getEndpoints (mkNN (r_Namespace route) serviceName);
            match ep with
            | Err err =>
                if IsNotFound err then mret (Ok (seenServices, addZero serviceName summary))
                else mret (Err err)
            | Ok ep =>
                if negb (hasReadyEndpoints ep)
                then mret (Ok (seenServices, addZero serviceName summary))
                else mret (Ok (seenServices, summary))
            end
        end
  end.

Definition evaluateBackendHealth (route : Route) : M (St E) (result backendHealthSummary) :=
  acc ← foldM (λ acc rule,
      foldM (checkBackend route) acc (routeRuleBackends rule (rs_Canary (r_Spec route))))
    (Ok (∅, mkSummary [] [])) (rs_Rules (r_Spec route));
  match acc with
  | Err err => mret (Err err)
  | Ok (_, summary) => mret (Ok summary)
  end.
End health.

(** ** Specification: what the calls made say about a service *)

Inductive health := HMissing | HNoEndpoints | HReady.

(** [log] holds the answers that put service [n] in state [h]. *)
Definition observed (log : list Call) (n : NamespacedName) (h : health) : Prop :=
  match h with
  | HMissing => ∃ err, IsNotFound err = true ∧ CGetService n (Err err) ∈ log
  | HNoEndpoints =>
      (∃ svc, CGetService n (Ok svc) ∈ log) ∧
      ((∃ err, IsNotFound err = true ∧ CGetEndpoints n (Err err) ∈ log) ∨
       (∃ ep, hasReadyEndpoints ep = false ∧ CGetEndpoints n (Ok ep) ∈ log))
  | HReady =>
      (∃ svc, CGetService n (Ok svc) ∈ log) ∧
      (∃ ep, hasReadyEndpoints ep = true ∧ CGetEndpoints n (Ok ep) ∈ log)
  end.

(** The services a route depends on: those of its rules and of its canary. *)
Definition backends_of (route : Route) : list string :=
  be_ServiceName <$>
    (rs_Rules (r_Spec route) ≫= λ rule, routeRuleBackends rule (rs_Canary (r_Spec route))).

(** [summary] classifies the services [names] of a namespace as observed. *)
Definition classifies (log : list Call) (ns : string) (names : list string)
    (summary : backendHealthSummary) : Prop :=
  (∀ n, n ∈ MissingServices summary ∨ n ∈ ZeroEndpoints summary → n ∈ names) ∧
  (∀ n, n ∈ MissingServices summary → observed log (mkNN ns n) HMissing) ∧
  (∀ n, n ∈ ZeroEndpoints summary → observed log (mkNN ns n) HNoEndpoints) ∧
  (∀ n, n ∈ names → n ∉ MissingServices summary → n ∉ ZeroEndpoints summary →
     observed log (mkNN ns n) HReady).

(** ** Lemmas *)

Lemma observed_grow log k n h : observed log n h → observed (log ++ k) n h.
Proof. destruct h; simpl; setoid_rewrite elem_of_app; naive_solver. Qed.

Lemma classifies_grow log k ns names summary :
  classifies log ns names summary → classifies (log ++ k) ns names summary.
Proof.
  intros (? & ? & ? & ?). split_and!; auto using observed_grow.
Qed.

Lemma serviceKey_inj ns n n' : ns +:+ "/" +:+ n = ns +:+ "/" +:+ n' → n = n'.
Proof. intros Heq. by apply (inj (String.append ns)), (inj (String.append "/")) in Heq. Qed.

Section lemmas.
Context {E : Type} `{KubeEnv E}.

(** The loops' invariant: what was logged since the start classifies the
    services visited, and [seenServices] holds their keys. *)
Definition health_inv (route : Route) (log0 : list Call) (names : list string)
    (acc : health_acc) (s : St E) : Prop :=
  ∃ k, s_log s = log0 ++ k ∧
    match acc with
    | Err err => IsNotFound err = false
    | Ok (seen, summary) =>
        classifies k (r_Namespace route) names summary ∧
        (∀ x, x ∈ seen ↔ ∃ n, n ∈ names ∧ x = r_Namespace route +:+ "/" +:+ n)
    end.

Lemma classifies_add k ns names summary name h summary' :
  classifies k ns names summary → name ∉ names → observed k (mkNN ns name) h →
  summary' = match h with
             | HMissing => addMissing name summary
             | HNoEndpoints => addZero name summary
             | HReady => summary
             end →
  classifies k ns (names ++ [name]) summary'.
Proof.
  intros (Hsub & Hm & Hz & Hr) Hnew Hobs ->. unfold classifies.
  destruct h; simpl; split_and!; intros n; rewrite ?elem_of_app, ?list_elem_of_singleton;
    try set_solver; naive_solver.
Qed.

Lemma checkBackend_inv route log0 names acc backend (s : St E) :
  health_inv route log0 names acc s →
  wp (checkBackend route acc backend)
    (health_inv route log0 (names ++ [be_ServiceName backend])) (λ _, False) s.
Proof.
  intros (k & Hk & Hacc). unfold checkBackend.
  destruct acc as [[seen summary]|err]; [|apply wp_ret; by exists k].
  destruct Hacc as [Hcl Hseen]. set (name := be_ServiceName backend).
  set (ns := r_Namespace route) in *. case_bool_decide as Hin.
  { apply wp_ret. exists k. split; [done|]. apply Hseen in Hin as (n & Hn & Heq).
    apply serviceKey_inj in Heq as <-. split.
    - destruct Hcl as (? & ? & ? & ?). split_and!; set_solver.
    - intros x. rewrite Hseen. set_solver. }
  assert (name ∉ names) as Hnew by (intros Hn; apply Hin, Hseen; eauto).
  assert (∀ x, x ∈ {[ns +:+ "/" +:+ name]} ∪ seen ↔
    ∃ n, n ∈ names ++ [name] ∧ x = ns +:+ "/" +:+ n) as Hseen'.
  { intros x. rewrite elem_of_union, elem_of_singleton, Hseen. set_solver. }
  assert (∀ k' h summary', observed (k ++ k') (mkNN ns name) h →
    summary' = match h with HMissing => addMissing name summary
               | HNoEndpoints => addZero name summary | HReady => summary end →
    classifies (k ++ k') ns (names ++ [name]) summary') as Hadd.
  { intros k' h summary' Hobs Hs. eapply classifies_add; [by apply classifies_grow|done..]. }
  apply wp_bind, wp_kcall. intros svc e1 _. destruct svc as [svc|err].
  2:{ destruct (IsNotFound err) eqn:Hnf; apply wp_ret; eexists; simpl;
        rewrite Hk, <-app_assoc; (split; [done|]); [|done].
      split; [|exact Hseen']. eapply (Hadd _ HMissing); [|done].
      exists err. set_solver. }
  apply wp_bind, wp_kcall. intros ep e2 _. simpl.
  assert (CGetService (mkNN ns name) (Ok svc) ∈
    k ++ [CGetService (mkNN ns name) (Ok svc); CGetEndpoints (mkNN ns name) ep]) as Hsvc
    by set_solver.
  assert (CGetEndpoints (mkNN ns name) ep ∈
    k ++ [CGetService (mkNN ns name) (Ok svc); CGetEndpoints (mkNN ns name) ep]) as Hep
    by set_solver.
  destruct ep as [ep|err].
  - destruct (hasReadyEndpoints ep) eqn:Hre; simpl; apply wp_ret; eexists; simpl;
      rewrite Hk, <-!app_assoc; (split; [done|]); (split; [|exact Hseen']).
    + eapply (Hadd _ HReady); [|done]. split; eauto.
    + eapply (Hadd _ HNoEndpoints); [|done]. split; eauto.
  - destruct (IsNotFound err) eqn:Hnf; apply wp_ret; eexists; simpl;
      rewrite Hk, <-!app_assoc; (split; [done|]); [|done].
    split; [|exact Hseen']. eapply (Hadd _ HNoEndpoints); [|done]. split; eauto.
Qed.

Lemma checkBackends_inv route log0 names bs acc (s : St E) :
  health_inv route log0 names acc s →
  wp (foldM (checkBackend route) acc bs)
    (health_inv route log0 (names ++ (be_ServiceName <$> bs))) (λ _, False) s.
Proof.
  intros HI.
  apply (wp_foldM _ (λ done, health_inv route log0 (names ++ (be_ServiceName <$> done)))).
  - intros dn x todo b s' _ HI'. rewrite fmap_app, app_assoc. by apply checkBackend_inv.
  - by rewrite app_nil_r.
Qed.

Lemma evaluateBackendHealth_wp route (s : St E) :
  wp (evaluateBackendHealth route) (λ res s',
    ∃ k, s_log s' = s_log s ++ k ∧
      match res with
      | Ok summary => classifies k (r_Namespace route) (backends_of route) summary
      | Err err => IsNotFound err = false
      end) (λ _, False) s.
Proof.
  unfold evaluateBackendHealth. apply wp_bind.
  eapply wp_mono; [apply (wp_foldM _ (λ done, health_inv route (s_log s)
    (be_ServiceName <$> (done ≫= λ rule,
      routeRuleBackends rule (rs_Canary (r_Spec route))))) (λ _, False))| |done].
  - intros dn x todo b s' _ HI. rewrite bind_app, fmap_app. simpl. rewrite app_nil_r.
    by apply (checkBackends_inv route _ _ (routeRuleBackends x _)).
  - exists []. rewrite app_nil_r. split; [done|]. split; [|set_solver].
    split_and!; set_solver.
  - intros acc s' (k & Hk & Hacc). destruct acc as [[seen summary]|err]; apply wp_ret;
      exists k; naive_solver.
Qed.
End lemmas.

Section claims.
Context {E : Type} `{KubeEnv E}.

(** C15: [evaluateBackendHealth] never panics and only fails on an API error
    other than not-found; its summary lists exactly the services of the rules
    and of the canary that the calls it made found missing, or found without
    a ready endpoint, and every service it does not list was found with one. *)
Theorem evaluateBackendHealth_correct route (s : St E) :
  ∃ res s' k, evaluateBackendHealth route s = (Ret res, s') ∧ s_log s' = s_log s ++ k ∧
    match res with
    | Ok summary =>
        classifies k (r_Namespace route) (backends_of route) summary ∧
        (allReady summary = true ↔
           ∀ n, n ∈ backends_of route → n ∉ MissingServices summary ++ ZeroEndpoints summary) ∧
        (allReady summary = true → ∀ n, n ∈ backends_of route →
           observed k (mkNN (r_Namespace route) n) HReady)
    | Err err => IsNotFound err = false
    end.
Proof.
  pose proof (evaluateBackendHealth_wp route s) as Hwp. unfold wp in Hwp.
  destruct (evaluateBackendHealth route s) as [[res|msg] s']; [|done].
  destruct Hwp as (k & Hk & Hres). exists res, s', k. split_and!; [done..|].
  destruct res as [summary|err]; [|done]. split; [done|].
  destruct Hres as (Hsub & Hm & Hz & Hr).
  assert (allReady summary = true ↔
    MissingServices summary = [] ∧ ZeroEndpoints summary = []) as Hall.
  { unfold allReady. rewrite andb_true_iff, !bool_decide_eq_true, !length_zero_iff_nil. done. }
  split.
  - rewrite Hall. split; [intros [-> ->]; set_solver|]. intros Hno.
    destruct (MissingServices summary) as [|m ms]; [|exfalso; apply (Hno m); set_solver].
    destruct (ZeroEndpoints summary) as [|z zs]; [done|exfalso; apply (Hno z); set_solver].
  - rewrite Hall. intros [Hm0 Hz0] n Hn. apply Hr; [done|rewrite Hm0|rewrite Hz0]; set_solver.
Qed.
End claims.
End Health.
