(* ===== verification/Certs.v ===== *)
(** * Gateway certificates (evaluateGatewayCertificate, helpers.go)

    The certificate condition of a Route: the Secrets of the Gateway's HTTPS
    listeners are read and parsed, and the earliest expiry decides. *)
From S2P Require Import Prelude GoStd GoTime RouteTypes Objects Env Mem Common.
Local Open Scope Z_scope.

Module Certs.

(** [(status, reason, message)] *)
Definition verdict : Type := string * string * string.

Definition certificateExpiryState (now notAfter warnBefore : Z) : verdict :=
  if negb (Before now notAfter) then
    (ConditionFalse, "CertificateExpired",
     "Gateway TLS certificate expired at " +:+ FormatRFC3339 notAfter)
  else
    let remaining := Sub notAfter now in
    if remaining <=? warnBefore then
      (ConditionFalse, "CertificateExpiring",
       "Gateway TLS certificate expires in " +:+ Duration_String (Round remaining Hour) +:+
       " at " +:+ FormatRFC3339 notAfter)
    else
      (ConditionTrue, "CertificateHealthy",
       "Gateway TLS certificate valid until " +:+ FormatRFC3339 notAfter).

Section certs.
Context {E : Type} `{GoLibs, KubeEnv E}.

Definition parseTLSCertNotAfter (secret : Secret) : result Z :=
  let name := "secret " +:+ se_Namespace secret +:+ "/" +:+ se_Name secret in
  match se_Data secret !! "tls.crt" with
  | None => Err (Errorf (name +:+ " has no tls.crt data"))
  | Some data =>
      if bool_decide (String.length data = 0%nat)
      then Err (Errorf (name +:+ " has no tls.crt data"))
      else
        match pem_Decode data with
        | None => Err (Errorf (name +:+ " tls.crt is not valid PEM"))
        | Some block =>
            match x509_ParseCertificate block with
            | Err err => Err (Errorf (name +:+ " tls.crt parse failed: " +:+ err_text err))
            | Ok notAfter => Ok notAfter
            end
        end
  end.

(** Where the loops over listeners and references stand: returned already,
    or running with [earliestExpiry] and [hasTLSRef]. *)
Inductive certLoop :=
| Returned (v : verdict) (err : option error)
| Running (earliestExpiry : option Z) (hasTLSRef : bool).

(** The [continue] guards on a reference. *)
Definition skipRef (ref : SecretObjectReference) : bool :=
  match sr_Group ref with Some g => bool_decide (g ≠ "") | None => false end ||
  match sr_Kind ref with Some k => bool_decide (k ≠ "Secret") | None => false end.

(** The Secret a reference names. *)
Definition refSecret (gwNs : string) (ref : SecretObjectReference) : NamespacedName :=
  let secretNs :=
    match sr_Namespace ref with
    | Some ns => if bool_decide (ns ≠ "") then ns else gwNs
    | None => gwNs
    end in
  mkNN secretNs (sr_Name ref).

(** The body of the inner loop. *)
Definition checkRef (gwNs : string) (acc : certLoop) (ref : SecretObjectReference)
    : M (St E) certLoop :=
  match acc with
  | Returned _ _ => mret acc
  | Running earliestExpiry hasTLSRef =>
      if skipRef ref then mret acc
      else
        let n := refSecret gwNs ref in
        let shown := nn_Namespace n +:+ "/" +:+ nn_Name n in
        secret ← getSecret n;
        match secret with
        | Err err =>
            if IsNotFound err then
              mret (Returned (ConditionFalse, "CertificateSecretMissing",
                "TLS secret " +:+ shown +:+ " not found") None)
            else
              mret (Returned (ConditionUnknown, "CertificateCheckFailed",
                "failed to get TLS secret " +:+ shown +:+ ": " +:+ err_text err) (Some err))
        | Ok secret =>
            match parseTLSCertNotAfter secret with
            | Err err =>
                mret (Returned (ConditionFalse, "CertificateParseError", err_text err) None)
            | Ok notAfter =>
                let earlier :=
                  match earliestExpiry with
                  | None => true
                  | Some t => Before notAfter t
                  end in
                mret (Running (if earlier then Some notAfter else earliestExpiry) true)
            end
        end
  end.

(** The references of a listener that the loop visits. *)
Definition listenerRefs (listener : Listener) : list SecretObjectReference :=
  if bool_decide (li_Protocol listener ≠ "HTTPS") then []
  else match li_TLS listener with None => [] | Some refs => refs end.

Definition evaluateGatewayCertificate (route : Route) : M (St E) (verdict * option error) :=
  let '(gwName, gwNs) := gatewayRef route in
  let shown := gwNs +:+ "/" +:+ gwName in
  gw ← getGateway (mkNN gwNs gwName);
  match gw with
  | Err err =>
      if IsNotFound err then
        mret ((ConditionFalse, "GatewayNotFound",
          "Gateway " +:+ shown +:+ " not found for certificate check"), None)
      else
        mret ((ConditionUnknown, "CertificateCheckFailed",
          "failed to get Gateway " +:+ shown +:+ ": " +:+ err_text err), Some err)
  | Ok gw =>
      acc ← foldM (λ acc listener, foldM (checkRef gwNs) acc (listenerRefs listener))
        (Running None false) (gw_Listeners gw);
      match acc with
      | Returned v err => mret (v, err)
      | Running earliestExpiry hasTLSRef =>
          if negb hasTLSRef then
            mret ((ConditionTrue, "CertificateNotConfigured",
              "Gateway has no HTTPS TLS certificateRefs to monitor"), None)
          else
            match earliestExpiry with
            | None =>
                mret ((ConditionTrue, "CertificateNotConfigured",
                  "Gateway has no supported Secret certificateRefs to monitor"), None)
            | Some earliestExpiry =>
                now ← Now;
                mret (certificateExpiryState now earliestExpiry certWarnBefore, None)
            end
      end
  end.

(** ** Specification *)

(** The Secrets to monitor. *)
Definition monitored (gwNs : string) (gw : Gateway) : list NamespacedName :=
  refSecret gwNs <$> filter (λ ref, skipRef ref = false) (gw_Listeners gw ≫= listenerRefs).

(** [log] holds an answer for Secret [n] whose certificate expires at [t]. *)
Definition expires_at (log : list Call) (n : NamespacedName) (t : Z) : Prop :=
  ∃ secret, CGetSecret n (Ok secret) ∈ log ∧ parseTLSCertNotAfter secret = Ok t.

(** ** Lemmas *)

Lemma expires_at_grow log k n t : expires_at log n t → expires_at (log ++ k) n t.
Proof. unfold expires_at. setoid_rewrite elem_of_app. naive_solver. Qed.

(** The running loop knows the minimum over the Secrets of the references
    visited. *)
Definition is_earliest (log : list Call) (names : list NamespacedName) (m : option Z) : Prop :=
  match m with
  | None => names = []
  | Some t => (∃ n, n ∈ names ∧ expires_at log n t) ∧
      ∀ n, n ∈ names → ∃ t', expires_at log n t' ∧ t ≤ t'
  end.

Definition loop_inv (gwNs : string) (log0 : list Call) (refs : list SecretObjectReference)
    (acc : certLoop) (s : St E) : Prop :=
  ∃ k, s_log s = log0 ++ k ∧
    match acc with
    | Returned (status, reason, _) err =>
        status ≠ ConditionTrue ∧
        match err with Some err => IsNotFound err = false | None => status = ConditionFalse end
    | Running earliest has =>
        let names := refSecret gwNs <$> filter (λ ref, skipRef ref = false) refs in
        is_earliest k names earliest ∧ (has = true ↔ names ≠ [])
    end.

Lemma checkRef_inv gwNs log0 refs acc ref (s : St E) :
  loop_inv gwNs log0 refs acc s →
  wp (checkRef gwNs acc ref) (loop_inv gwNs log0 (refs ++ [ref])) (λ _, False) s.
Proof.
  intros (k & Hk & Hacc). unfold checkRef.
  destruct acc as [v err|earliest has]; [apply wp_ret; by exists k|].
  destruct Hacc as [He Hh]. destruct (skipRef ref) eqn:Hskip.
  { apply wp_ret. exists k. split; [done|].
    rewrite filter_app, (filter_cons_False _ ref) by congruence. by rewrite filter_nil, app_nil_r. }
  apply wp_bind, wp_kcall. intros secret e1 _.
  assert (refSecret gwNs <$> filter (λ ref, skipRef ref = false) (refs ++ [ref]) =
    (refSecret gwNs <$> filter (λ ref, skipRef ref = false) refs) ++ [refSecret gwNs ref])
    as Hnames.
  { by rewrite filter_app, (filter_cons_True _ ref), filter_nil, fmap_app by done. }
  destruct secret as [secret|err].
  2:{ destruct (IsNotFound err) eqn:Hnf; apply wp_ret; eexists; simpl;
        rewrite Hk, <-app_assoc; by split_and!. }
  destruct (parseTLSCertNotAfter secret) as [t|err] eqn:Hp; apply wp_ret; eexists; simpl;
    rewrite Hk, <-app_assoc; (split; [done|]); [|done].
  set (names := refSecret gwNs <$> _) in *. rewrite Hnames. clear Hnames.
  assert (expires_at (k ++ [CGetSecret (refSecret gwNs ref) (Ok secret)])
    (refSecret gwNs ref) t) as Hnew by (exists secret; set_solver).
  split; [|split; [intros _; by destruct names|done]].
  destruct earliest as [m|]; simpl in He.
  - destruct He as [(n & Hn & Hnm) Hall]. unfold Before.
    destruct (Z.ltb_spec t m); simpl; split.
    + exists (refSecret gwNs ref). set_solver.
    + intros n' [Hn'|Hn']%elem_of_app.
      * destruct (Hall n' Hn') as (t' & Ht' & ?). exists t'.
        split; [by apply expires_at_grow|lia].
      * apply list_elem_of_singleton in Hn' as ->. exists t. split; [done|lia].
    + exists n. split; [set_solver|by apply expires_at_grow].
    + intros n' [Hn'|Hn']%elem_of_app.
      * destruct (Hall n' Hn') as (t' & Ht' & ?). exists t'. split; [by apply expires_at_grow|lia].
      * apply list_elem_of_singleton in Hn' as ->. exists t. split; [done|lia].
  - rewrite He. simpl. split; [exists (refSecret gwNs ref); set_solver|].
    intros n Hn. apply list_elem_of_singleton in Hn as ->. exists t. split; [done|lia].
Qed.

Lemma checkListener_inv gwNs log0 refs acc refs' (s : St E) :
  loop_inv gwNs log0 refs acc s →
  wp (foldM (checkRef gwNs) acc refs') (loop_inv gwNs log0 (refs ++ refs')) (λ _, False) s.
Proof.
  intros HI.
  apply (wp_foldM _ (λ done, loop_inv gwNs log0 (refs ++ done))).
  - intros dn x todo b s' _ HI'. rewrite app_assoc. by apply checkRef_inv.
  - by rewrite app_nil_r.
Qed.

Lemma Sub_le t now w :
  0 ≤ w < maxDuration → now < t → (Sub t now <=? w) = (t - now <=? w).
Proof.
  intros Hw Ht. unfold Sub, maxDuration, minDuration in *.
  destruct (Z.leb_spec (t - now) w); [apply Z.leb_le|apply Z.leb_gt]; lia.
Qed.

(** The three verdicts, by the time left. *)
Lemma certificateExpiryState_cases now t w :
  0 ≤ w < maxDuration →
  certificateExpiryState now t w =
    if t <=? now then
      (ConditionFalse, "CertificateExpired",
       "Gateway TLS certificate expired at " +:+ FormatRFC3339 t)
    else if t - now <=? w then
      (ConditionFalse, "CertificateExpiring",
       "Gateway TLS certificate expires in " +:+ Duration_String (Round (Sub t now) Hour) +:+
       " at " +:+ FormatRFC3339 t)
    else
      (ConditionTrue, "CertificateHealthy",
       "Gateway TLS certificate valid until " +:+ FormatRFC3339 t).
Proof.
  intros Hw. unfold certificateExpiryState, Before.
  destruct (Z.ltb_spec now t), (Z.leb_spec t now); simpl; try lia; [|done].
  by rewrite Sub_le.
Qed.

(** What a call of [evaluateGatewayCertificate] guarantees of its answer. *)
Definition cert_answer (route : Route) (k : list Call) (res : verdict * option error) : Prop :=
  let gwNs := (gatewayRef route).2 in
  match res with
  | (_, Some err) => IsNotFound err = false
  | ((status, _, _), None) =>
      (status = ConditionTrue ∨ status = ConditionFalse) ∧
      (status = ConditionTrue →
        ∃ gw, CGetGateway (mkNN gwNs (gatewayRef route).1) (Ok gw) ∈ k ∧
          (monitored gwNs gw = [] ∨
           ∃ now, CNow now ∈ k ∧ ∀ n, n ∈ monitored gwNs gw →
             ∃ t, expires_at k n t ∧ now + certWarnBefore < t))
  end.

Lemma evaluateGatewayCertificate_wp route (s : St E) :
  wp (evaluateGatewayCertificate route)
    (λ res s', ∃ k, s_log s' = s_log s ++ k ∧ cert_answer route k res) (λ _, False) s.
Proof.
  unfold evaluateGatewayCertificate, cert_answer.
  destruct (gatewayRef route) as [gwName gwNs]. simpl.
  apply wp_bind, wp_kcall. intros gw e1 _. destruct gw as [gw|err].
  2:{ destruct (IsNotFound err) eqn:Hnf; apply wp_ret; eexists; simpl; split_and!; try done;
        auto. }
  set (s1 := mkSt _ _ _). apply wp_bind.
  eapply wp_mono; [apply (wp_foldM _ (λ done, loop_inv gwNs (s_log s1) (done ≫= listenerRefs))
    (λ _, False))| |done].
  - intros dn x todo b s' _ HI. rewrite bind_app. simpl. rewrite app_nil_r.
    by apply checkListener_inv.
  - exists []. by rewrite app_nil_r.
  - intros acc s' (k & Hk & Hacc). simpl in Hk. rewrite <-app_assoc in Hk. simpl in Hk.
    assert (∀ k', CGetGateway (mkNN gwNs gwName) (Ok gw) ∈
      (CGetGateway (mkNN gwNs gwName) (Ok gw) :: k) ++ k') as Hgw by set_solver.
    destruct acc as [[[status reason] msg] err|earliest has].
    { apply wp_ret. eexists. split; [exact Hk|]. destruct err as [err|]; naive_solver. }
    destruct Hacc as [He Hh]. destruct has; simpl.
    2:{ apply wp_ret. eexists. split; [exact Hk|]. split; [by left|]. intros _.
        exists gw. split; [set_solver|]. left. unfold monitored.
        destruct (refSecret gwNs <$> _); [done|]. naive_solver. }
    destruct earliest as [t|]; [|by apply Hh in He].
    apply wp_bind, wp_kcall. intros now e2 _. apply wp_ret.
    eexists. split; [by rewrite Hk, <-app_assoc|].
    rewrite certificateExpiryState_cases by done.
    destruct (Z.leb_spec t now); [split; [by right|done]|].
    destruct (Z.leb_spec (t - now) certWarnBefore); [split; [by right|done]|].
    split; [by left|]. intros _. exists gw. split; [apply Hgw|]. right. exists now.
    split; [set_solver|]. intros n Hn. destruct He as [_ Hall].
    destruct (Hall n Hn) as (t' & Ht' & Hle). exists t'. split; [|lia].
    apply expires_at_grow. destruct Ht' as (sec & Hin & Hp). exists sec. set_solver.
Qed.
End certs.

Section claims.
Context {E : Type} `{GoLibs, KubeEnv E}.

(** C16: [evaluateGatewayCertificate] never panics, and fails only on an API
    error other than not-found; it answers True only when, by the answers it
    got from the API, every TLS Secret of the Gateway's HTTPS listeners was
    read, parsed, and expires later than thirty days after the time it read
    (or there is none). *)
Theorem evaluateGatewayCertificate_correct route (s : St E) :
  ∃ res s' k, evaluateGatewayCertificate route s = (Ret res, s') ∧
    s_log s' = s_log s ++ k ∧ cert_answer route k res.
Proof.
  pose proof (evaluateGatewayCertificate_wp route s) as Hwp. unfold wp in Hwp.
  destruct (evaluateGatewayCertificate route s) as [[res|msg] s']; [|done].
  destruct Hwp as (k & Hk & Hres). eauto 10.
Qed.
End claims.

(** ** A concrete run: two certificates, the earlier one about to expire *)

Definition ex_secret (name : string) (expiry : string) : Secret :=
  mkSecret "istio-system" name {[ "tls.crt" := "pem:" +:+ expiry ]}.
Definition ex_listener (names : list string) : Listener :=
  mkListener None "HTTPS" (Some ((λ n, mkSecretRef None (Some "Secret") n None) <$> names)).
Definition ex_world (now : Z) : Mem :=
  mkMem ∅ ∅ ∅ {[ mkNN "istio-system" "istio-gateway" := mkGw [ex_listener ["late"; "soon"]] ]}
    {[ mkNN "istio-system" "late" := ex_secret "late" "9000000";
       mkNN "istio-system" "soon" := ex_secret "soon" "8000000" ]} ∅ now [] 1 ∅ ∅.
Definition ex_route : Route :=
  mkRoute (newMeta "app" "demo" ∅) (mkSpec [] None "" "" None None None None None None)
    (mkStatus "" [] 0).

Example ex_cert_expiring :
  (λ r : verdict * option error, r.1.1.2) <$>
    match (evaluateGatewayCertificate ex_route
      (mkSt (ex_world (7740800 * Second)) (mkReconciler false false None None) [])).1 with
    | Ret r => Some r | Panic _ => None end = Some "CertificateExpiring".
Proof. by vm_compute. Qed.
Example ex_cert_message :
  certificateExpiryState (7740800 * Second) (8000000 * Second) certWarnBefore =
  (ConditionFalse, "CertificateExpiring",
   "Gateway TLS certificate expires in 72h0m0s at 0001-04-03T14:13:20Z").
Proof. by vm_compute. Qed.
End Certs.
