(* ===== verification/Canary.v ===== *)
(** * Canary rollback (evaluateCanaryRollback, probeCanaryBackend, clearCanaryRuntimeState)

    The only state the controller keeps between reconciles: per route, the
    number of consecutive failed probes and the end of the running cooldown,
    in two maps shared by all routes and guarded by a mutex.
    [evaluateCanaryRollback] enters two critical sections, before and after
    the probe; other routes' sections may run between them, so the theorems on
    histories are about sequences of critical sections of any routes. *)
From S2P Require Import Prelude GoStd GoTime RouteTypes Objects Env Mem Common.
Local Open Scope Z_scope.

Module Canary.

Definition normalizeCanaryProbePath (path : string) : string :=
  if bool_decide (path = "") then "/"
  else if negb (HasPrefix path "/") then "/" +:+ path
  else path.

Definition canaryBackendProbeURL (namespace : string) (backend : RouteBackend)
    (probePath : string) : string :=
  "http://" +:+ be_ServiceName backend +:+ "." +:+ namespace +:+ ".svc.cluster.local:" +:+
  fmt_d (be_ServicePort backend) +:+ normalizeCanaryProbePath probePath.

(** ** The two maps: reads of a nil map find nothing, writes to it panic *)

(** [r.canaryFailureCounts[key]] *)
Definition failureCount (rc : RouteReconciler) (key : string) : Z :=
  match rc_canaryFailureCounts rc with
  | Some counts => default 0 (counts !! key)
  | None => 0
  end.
(** [until, ok := r.canaryRollbackUntil[key]] *)
Definition rollbackUntil (rc : RouteReconciler) (key : string) : option Z :=
  untils ← rc_canaryRollbackUntil rc; untils !! key.

Definition setCounts (m : option (gmap string Z)) (rc : RouteReconciler) : RouteReconciler :=
  mkReconciler (rc_Recorder rc) (rc_canaryStateMu rc) m (rc_canaryRollbackUntil rc).
Definition setUntils (m : option (gmap string Z)) (rc : RouteReconciler) : RouteReconciler :=
  mkReconciler (rc_Recorder rc) (rc_canaryStateMu rc) (rc_canaryFailureCounts rc) m.

(** The two [if m == nil { m = make(...) }]. *)
Definition makeCanaryMaps (rc : RouteReconciler) : RouteReconciler :=
  setUntils (Some (default ∅ (rc_canaryRollbackUntil rc)))
    (setCounts (Some (default ∅ (rc_canaryFailureCounts rc))) rc).

Section canary.
Context {E : Type} `{KubeEnv E} `{GoLibs}.

Definition assignCount (key : string) (v : Z) : M (St E) unit :=
  rc ← gets s_rec;
  match rc_canaryFailureCounts rc with
  | None => panic "assignment to entry in nil map"
  | Some counts => modifyRec (setCounts (Some (<[key := v]> counts)))
  end.
Definition assignUntil (key : string) (v : Z) : M (St E) unit :=
  rc ← gets s_rec;
  match rc_canaryRollbackUntil rc with
  | None => panic "assignment to entry in nil map"
  | Some untils => modifyRec (setUntils (Some (<[key := v]> untils)))
  end.
Definition deleteCount (key : string) : M (St E) unit :=
  modifyRec (λ rc, setCounts (delete key <$> rc_canaryFailureCounts rc) rc).
Definition deleteUntil (key : string) : M (St E) unit :=
  modifyRec (λ rc, setUntils (delete key <$> rc_canaryRollbackUntil rc) rc).

Definition probeCanaryBackend (route : Route) (backend : RouteBackend) (probePath : string)
    : M (St E) (result Z) :=
  let url := canaryBackendProbeURL (r_Namespace route) backend probePath in
  match http_NewRequest url with
  | Some err => mret (Err err)
  | None => httpDo url
  end.

(** The first critical section: is a rollback still running? *)
Definition canaryEnter (key : string) (now : Z) : M (St E) bool :=
  Lock;;
  modifyRec makeCanaryMaps;;
  rc ← gets s_rec;
  match rollbackUntil rc key with
  | Some until => if After until now then Unlock;; mret true else Unlock;; mret false
  | None => Unlock;; mret false
  end.

(** The second: [(triggeredRollback, rollbackActive, recovered)]. *)
Definition canaryCommit (key : string) (threshold cooldown now : Z) (isFiveXX : bool)
    : M (St E) (bool * bool * bool) :=
  Lock;;
  rc ← gets s_rec;
  let count := if isFiveXX then int64 (failureCount rc key + 1) else 0 in
  assignCount key count;;
  triggeredRollback ← (if threshold <=? count then
      assignUntil key (Add now cooldown);;
      assignCount key 0;;
      mret true
    else mret false);
  rc ← gets s_rec;
  '(rollbackActive, recovered) ← match rollbackUntil rc key with
    | Some until =>
        if After until now then mret (true, false)
        else deleteUntil key;; mret (false, true)
    | None => mret (false, false)
    end;
  Unlock;;
  mret (triggeredRollback, rollbackActive, recovered).

Definition secondsOr (seconds : option Z) (dflt : Z) : Z :=
  match seconds with Some s => int64 (s * Second) | None => dflt end.

(** [(rollbackActive, probeInterval, err)] *)
Definition evaluateCanaryRollback (route : Route) : M (St E) (bool * Z * option error) :=
  match rs_Canary (r_Spec route) with
  | None => mret (false, 0, None)
  | Some canary =>
      match ca_RollbackOn5xx canary with
      | None => mret (false, 0, None)
      | Some policy =>
          let probeInterval := secondsOr (rb_IntervalSeconds policy) defaultCanaryProbeInterval in
          let cooldown := secondsOr (rb_CooldownSeconds policy) defaultCanaryCooldown in
          let key := routeKey route in
          now ← Now;
          cooling ← canaryEnter key now;
          if (cooling : bool) then mret (true, probeInterval, None)
          else
            probe ← probeCanaryBackend route (ca_Backend canary) (rb_ProbePath policy);
            let isFiveXX := match probe with
                            | Err _ => true
                            | Ok statusCode => 500 <=? statusCode
                            end in
            '(triggeredRollback, rollbackActive, recovered) ←
              canaryCommit key (rb_FiveXXThreshold policy) cooldown now isFiveXX;
            (if (triggeredRollback : bool) then
               recordEvent EventTypeWarning "CanaryRollback"
                 ("Canary rollback activated: " +:+ fmt_d (rb_FiveXXThreshold policy) +:+
                  " consecutive 5xx probe failures")
             else mret tt);;
            (if (recovered : bool) then
               recordEvent EventTypeNormal "CanaryRecovered"
                 "Canary rollback cooldown elapsed; re-enabling canary traffic"
             else mret tt);;
            mret (rollbackActive, probeInterval, None)
      end
  end.

Definition clearCanaryRuntimeState (route : Route) : M (St E) unit :=
  let key := routeKey route in
  Lock;;
  rc ← gets s_rec;
  (match rc_canaryFailureCounts rc with Some _ => deleteCount key | None => mret tt end);;
  (match rc_canaryRollbackUntil rc with Some _ => deleteUntil key | None => mret tt end);;
  Unlock.
End canary.

(** ** Specification: one route's entry in the maps *)

Definition free (rc : RouteReconciler) : Prop := rc_canaryStateMu rc = false.
Definition made (rc : RouteReconciler) : Prop :=
  is_Some (rc_canaryFailureCounts rc) ∧ is_Some (rc_canaryRollbackUntil rc).

Definition entry (rc : RouteReconciler) (key : string) : Z * option Z :=
  (failureCount rc key, rollbackUntil rc key).

(** A rollback whose cooldown is not over at [now]. *)
Definition cooling (now : Z) (e : Z * option Z) : bool :=
  match e.2 with Some until => now <? until | None => false end.

(** What one probe result makes of an entry, with [(triggered, active, recovered)]. *)
Definition entry_commit (threshold cooldown now : Z) (fail : bool) (e : Z * option Z)
    : (Z * option Z) * (bool * bool * bool) :=
  let count := if fail then int64 (e.1 + 1) else 0 in
  let '(count, until, triggered) :=
    if threshold <=? count then (0, Some (now + cooldown), true) else (count, e.2, false) in
  if cooling now (count, until) then ((count, until), (triggered, true, false))
  else ((count, None), (triggered, false, bool_decide (is_Some until))).

Lemma entry_commit_active T cd now fail e e' trig active recov :
  entry_commit T cd now fail e = (e', (trig, active, recov)) → active = cooling now e'.
Proof.
  unfold entry_commit. destruct (T <=? _); (destruct (cooling now _) eqn:Hc);
    intros [= <- <- <- <-]; by rewrite ?Hc.
Qed.

(** [rc'] is [rc] with the entry of [key] replaced and the mutex free. *)
Definition updates (key : string) (e : Z * option Z) (rc rc' : RouteReconciler) : Prop :=
  rc_Recorder rc' = rc_Recorder rc ∧ free rc' ∧ (made rc → made rc') ∧
  entry rc' key = e ∧ ∀ k, k ≠ key → entry rc' k = entry rc k.

(** ** Lemmas *)

Lemma secondsOr_exact s dflt : isInt32 s → secondsOr (Some s) dflt = s * Second.
Proof.
  intros Hs. apply int64_id. unfold isInt32, isInt64, Second in *. lia.
Qed.

Section lemmas.
Context {E : Type} `{KubeEnv E} `{GoLibs}.
Implicit Types (s : St E).

Lemma wp_Lock (Q : unit → St E → Prop) X s :
  free (s_rec s) →
  Q tt (mkSt (s_env s) (mkReconciler (rc_Recorder (s_rec s)) true
    (rc_canaryFailureCounts (s_rec s)) (rc_canaryRollbackUntil (s_rec s))) (s_log s)) →
  wp Lock Q X s.
Proof. intros Hf HQ. unfold Lock. wp_steps. by rewrite Hf. Qed.

Lemma wp_Unlock (Q : unit → St E → Prop) X s :
  rc_canaryStateMu (s_rec s) = true →
  Q tt (mkSt (s_env s) (mkReconciler (rc_Recorder (s_rec s)) false
    (rc_canaryFailureCounts (s_rec s)) (rc_canaryRollbackUntil (s_rec s))) (s_log s)) →
  wp Unlock Q X s.
Proof. intros Hf HQ. unfold Unlock. wp_steps. by rewrite Hf. Qed.

Lemma entry_mk r mu counts untils k :
  entry (mkReconciler r mu (Some counts) (Some untils)) k =
  (default 0 (counts !! k), untils !! k).
Proof. done. Qed.

Lemma canaryEnter_wp key now s :
  free (s_rec s) →
  wp (canaryEnter key now) (λ cool s',
    cool = cooling now (entry (s_rec s) key) ∧ s_env s' = s_env s ∧ s_log s' = s_log s ∧
    made (s_rec s') ∧ updates key (entry (s_rec s) key) (s_rec s) (s_rec s')) (λ _, False) s.
Proof.
  destruct s as [env [r mu counts untils] lg]. intros Hf. unfold canaryEnter.
  apply wp_bind, wp_Lock; [done|]. apply wp_bind, wp_modifyRec. wp_steps.
  cbn [s_rec s_env s_log rc_Recorder rc_canaryStateMu rc_canaryFailureCounts
    rc_canaryRollbackUntil].
  set (rc0 := mkReconciler r mu counts untils).
  assert (∀ b k, entry (mkReconciler r b (Some (default ∅ counts)) (Some (default ∅ untils))) k
    = entry rc0 k) as Hent.
  { intros b k. unfold entry, failureCount, rollbackUntil. simpl.
    destruct counts, untils; simpl; by rewrite ?lookup_empty. }
  assert (∀ b : bool, b = cooling now (entry rc0 key) →
    wp (Unlock;; mret b) (λ cool s', cool = cooling now (entry rc0 key) ∧
      s_env s' = env ∧ s_log s' = lg ∧ made (s_rec s') ∧
      updates key (entry rc0 key) rc0 (s_rec s')) (λ _, False)
      (mkSt env (makeCanaryMaps (mkReconciler r true counts untils)) lg)) as Hout.
  { intros b Hb. apply wp_bind, wp_Unlock; [done|]. apply wp_ret. simpl.
    split_and!; [done..|split; eauto|]. split_and!; [done|done|split; eauto|apply Hent|].
    intros k _. apply Hent. }
  pose proof (f_equal snd (Hent true key)) as Hk.
  change (rollbackUntil (makeCanaryMaps (mkReconciler r true counts untils)) key =
    rollbackUntil rc0 key) in Hk. 
  rewrite Hk.
  unfold After. destruct (rollbackUntil rc0 key) as [u|] eqn:Hu.
  - destruct (now <? u) eqn:Hnu; apply Hout; unfold cooling; simpl; by rewrite Hu.
  - apply Hout. unfold cooling. simpl. by rewrite Hu.
Qed.

Lemma canaryCommit_wp key T cd now fail s :
  free (s_rec s) → made (s_rec s) →
  wp (canaryCommit key T cd now fail) (λ flags s',
    s_env s' = s_env s ∧ s_log s' = s_log s ∧ ∃ e,
    entry_commit T cd now fail (entry (s_rec s) key) = (e, flags) ∧
    updates key e (s_rec s) (s_rec s')) (λ _, False) s.
Proof.
  destruct s as [env [r mu [counts|] [untils|]] lg]; intros Hf [Hc Hu];
    try (by destruct Hc); try (by destruct Hu). clear Hc Hu.
  unfold canaryCommit. apply wp_bind, wp_Lock; [done|]. wp_steps.
  unfold assignCount at 1. wp_steps. simpl. apply wp_modifyRec. simpl.
  rewrite entry_mk. unfold failureCount. simpl.
  set (c := if fail then int64 (default 0 (counts !! key) + 1) else 0).
  unfold entry_commit. simpl. fold c. unfold setCounts. simpl.
  (* the state after the two optional writes *)
  set (e := if T <=? c then (0, Some (now + cd), true) else (c, untils !! key, false)).
  apply wp_bind. apply wp_mono with (X := λ _, False) (Q := λ trig s', ∃ counts' untils',
    s' = mkSt env (mkReconciler r true (Some counts') (Some untils')) lg ∧
    e = (default 0 (counts' !! key), untils' !! key, trig) ∧
    ∀ k, k ≠ key → counts' !! k = counts !! k ∧ untils' !! k = untils !! k); [| |done].
  { unfold e. destruct (T <=? c).
    - apply wp_bind. unfold assignUntil. wp_steps. simpl. apply wp_modifyRec.
      apply wp_bind. unfold assignCount. wp_steps. simpl. apply wp_modifyRec. apply wp_ret.
      eexists _, _. split; [done|]. rewrite !lookup_insert_eq. split; [done|].
      intros k Hk. by rewrite !lookup_insert_ne by done.
    - apply wp_ret. eexists _, _. split; [done|]. rewrite !lookup_insert_eq.
      split; [done|]. intros k Hk. by rewrite !lookup_insert_ne by done. }
  intros trig s' (counts' & untils' & -> & -> & Hoth). wp_steps. unfold rollbackUntil. simpl.
  unfold cooling, After. simpl.
  assert (∀ k, k ≠ key → entry (mkReconciler r false (Some counts') (Some untils')) k =
    entry (mkReconciler r mu (Some counts) (Some untils)) k) as Hfr.
  { intros k Hk. rewrite !entry_mk. by destruct (Hoth k Hk) as [-> ->]. }
  destruct (untils' !! key) as [u|] eqn:Hu; simpl.
  - destruct (now <? u).
    + wp_steps. apply wp_bind, wp_Unlock; [done|]. apply wp_ret. simpl. split_and!; [done..|].
      eexists. split; [done|]. split_and!; [done|done|split; eauto|by rewrite entry_mk, Hu|done].
    + apply wp_bind. unfold deleteUntil. apply wp_modifyRec. wp_steps.
      apply wp_bind, wp_Unlock; [done|]. apply wp_ret. simpl. split_and!; [done..|].
      eexists. split; [done|]. split_and!; [done|done|split; eauto| |].
      * by rewrite entry_mk, lookup_delete_eq.
      * intros k Hk. rewrite entry_mk, lookup_delete_ne by done. by apply Hfr.
  - wp_steps. apply wp_bind, wp_Unlock; [done|]. apply wp_ret. simpl. split_and!; [done..|].
    eexists. split; [done|]. split_and!; [done|done|split; eauto|by rewrite entry_mk, Hu|done].
Qed.

Lemma clearCanaryRuntimeState_wp route s :
  free (s_rec s) →
  wp (clearCanaryRuntimeState route) (λ _ s',
    s_env s' = s_env s ∧ s_log s' = s_log s ∧
    updates (routeKey route) (0, None) (s_rec s) (s_rec s')) (λ _, False) s.
Proof.
  destruct s as [env [r mu counts untils] lg]. intros Hf. unfold clearCanaryRuntimeState.
  apply wp_bind, wp_Lock; [done|]. wp_steps. simpl.
  apply wp_mono with (X := λ _, False) (Q := λ _ s', s' = mkSt env (mkReconciler r true
    (delete (routeKey route) <$> counts) untils) lg); [| |done].
  { destruct counts; [apply wp_modifyRec|apply wp_ret]; done. }
  intros _ s' ->. apply wp_bind.
  apply wp_mono with (X := λ _, False) (Q := λ _ s', s' = mkSt env (mkReconciler r true
    (delete (routeKey route) <$> counts) (delete (routeKey route) <$> untils)) lg); [| |done].
  { destruct untils; [apply wp_modifyRec|apply wp_ret]; done. }
  intros _ s' ->. apply wp_Unlock; [done|]. simpl. split_and!; [done..|].
  unfold updates, made, entry, failureCount, rollbackUntil. simpl. split_and!; [done|done| | |].
  - rewrite !fmap_is_Some. done.
  - destruct counts, untils; simpl; by rewrite ?lookup_delete_eq.
  - intros k Hk. destruct counts, untils; simpl; by rewrite ?lookup_delete_ne by done.
Qed.

Lemma updates_trans key e1 e2 rc1 rc2 rc3 :
  updates key e1 rc1 rc2 → updates key e2 rc2 rc3 → updates key e2 rc1 rc3.
Proof.
  intros (Hr1 & _ & Hm1 & _ & Ho1) (Hr2 & Hf2 & Hm2 & He2 & Ho2). split_and!; [|done|auto|done|].
  - by rewrite Hr2.
  - intros k Hk. by rewrite Ho2, Ho1 by done.
Qed.

(** The probe's result and the calls it took: none if the URL is rejected. *)
Definition probed (route : Route) (canary : RouteCanary) (policy : RouteCanaryRollback)
    (probe : result Z) (calls : list Call) : Prop :=
  let url := canaryBackendProbeURL (r_Namespace route) (ca_Backend canary)
               (rb_ProbePath policy) in
  match http_NewRequest url with
  | Some err => probe = Err err ∧ calls = []
  | None => calls = [CHttp url probe]
  end.

(** A failed probe: no answer, or a 5xx status. *)
Definition probe_failed (probe : result Z) : bool :=
  match probe with Err _ => true | Ok code => 500 <=? code end.

Definition canary_events (T : Z) (trig recov : bool) : list Call :=
  (if trig then [CEvent EventTypeWarning "CanaryRollback"
     ("Canary rollback activated: " +:+ fmt_d T +:+ " consecutive 5xx probe failures")] else [])
  ++ (if recov then [CEvent EventTypeNormal "CanaryRecovered"
     "Canary rollback cooldown elapsed; re-enabling canary traffic"] else []).

Definition rollback_policy (route : Route) : option (RouteCanary * RouteCanaryRollback) :=
  canary ← rs_Canary (r_Spec route); policy ← ca_RollbackOn5xx canary; Some (canary, policy).

(** The answer of [evaluateCanaryRollback], branch by branch. *)
Definition canary_answer (route : Route) (s : St E) (active : bool) (interval : Z) (s' : St E)
    : Prop :=
  match rollback_policy route with
  | None => s' = s ∧ active = false ∧ interval = 0
  | Some (canary, policy) =>
      interval = secondsOr (rb_IntervalSeconds policy) defaultCanaryProbeInterval ∧
      ∃ now, (env_now (s_env s)).1 = now ∧
      let e := entry (s_rec s) (routeKey route) in
      if cooling now e then
        active = true ∧ s_log s' = s_log s ++ [CNow now] ∧
        updates (routeKey route) e (s_rec s) (s_rec s')
      else ∃ probe calls e' trig recov,
        probed route canary policy probe calls ∧
        entry_commit (rb_FiveXXThreshold policy)
          (secondsOr (rb_CooldownSeconds policy) defaultCanaryCooldown)
          now (probe_failed probe) e = (e', (trig, active, recov)) ∧
        s_log s' = s_log s ++ CNow now :: calls ++
          (if rc_Recorder (s_rec s) then canary_events (rb_FiveXXThreshold policy) trig recov
           else []) ∧
        updates (routeKey route) e' (s_rec s) (s_rec s')
  end.

Lemma probeCanaryBackend_wp route canary policy s :
  wp (probeCanaryBackend route (ca_Backend canary) (rb_ProbePath policy)) (λ probe s',
    s_rec s' = s_rec s ∧ ∃ calls, probed route canary policy probe calls ∧
    s_log s' = s_log s ++ calls) (λ _, False) s.
Proof.
  unfold probeCanaryBackend, probed. destruct (http_NewRequest _).
  - apply wp_ret. split; [done|]. exists []. by rewrite app_nil_r.
  - apply wp_kcall. intros a e _. split; [done|]. by eexists.
Qed.

Lemma canary_events_wp (T : Z) (trig recov active : bool) (iv : Z) s :
  wp ((if trig then recordEvent EventTypeWarning "CanaryRollback"
         ("Canary rollback activated: " +:+ fmt_d T +:+ " consecutive 5xx probe failures")
       else mret tt);;
      (if recov then recordEvent EventTypeNormal "CanaryRecovered"
         "Canary rollback cooldown elapsed; re-enabling canary traffic" else mret tt);;
      mret (active, iv, None : option error))
    (λ res s', res = (active, iv, None) ∧ s_rec s' = s_rec s ∧ s_log s' = s_log s ++
       if rc_Recorder (s_rec s) then canary_events T trig recov else []) (λ _, False) s.
Proof.
  apply wp_bind. unfold canary_events.
  destruct trig, recov; repeat first [apply wp_recordEvent|wp_step]; simpl;
    split_and!; try done; destruct (rc_Recorder (s_rec s)); simpl;
    rewrite ?app_nil_r, <-?app_assoc; done.
Qed.

Lemma evaluateCanaryRollback_wp route s :
  free (s_rec s) →
  wp (evaluateCanaryRollback route) (λ res s', ∃ active interval,
    res = (active, interval, None) ∧ canary_answer route s active interval s') (λ _, False) s.
Proof.
  intros Hf. unfold evaluateCanaryRollback, canary_answer, rollback_policy.
  destruct (rs_Canary (r_Spec route)) as [canary|]; simpl; [|apply wp_ret; eauto 10].
  destruct (ca_RollbackOn5xx canary) as [policy|]; simpl; [|apply wp_ret; eauto 10].
  apply wp_bind, wp_kcall. intros now env Hnow. rewrite Hnow. simpl.
  apply wp_bind. eapply wp_mono; [by apply canaryEnter_wp| |done]. simpl.
  intros cool s1 (-> & He1 & Hl1 & Hm1 & Hup1).
  destruct (cooling now (entry (s_rec s) (routeKey route))) eqn:Hcool.
  { apply wp_ret. eexists _, _. split; [done|]. split; [done|]. exists now.
    split; [done|]. rewrite Hcool. done. }
  apply wp_bind. eapply wp_mono; [apply probeCanaryBackend_wp| |done].
  intros probe s2 (Hr2 & calls & Hcalls & Hl2). apply wp_bind.
  destruct Hup1 as (Hrec1 & Hf1 & ? & Hen1 & Ho1).
  eapply wp_mono; [apply canaryCommit_wp; by rewrite Hr2| |done].
  intros [[trig active] recov] s3 (He3 & Hl3 & e & Hcommit & Hup3). rewrite Hr2, Hen1 in Hcommit.
  eapply wp_mono; [apply canary_events_wp| |done]. intros res s4 (-> & Hr4 & Hl4).
  eexists _, _. split; [done|]. split; [done|]. exists now. split; [done|]. rewrite Hcool.
  exists probe, calls, e, trig, recov. split_and!; [done|done| |].
  - rewrite Hl4, Hl3, Hl2, Hl1. destruct Hup3 as [-> _]. rewrite Hr2, Hrec1.
    by rewrite <-!app_assoc.
  - rewrite Hr4. rewrite Hr2 in Hup3. eapply updates_trans; [|exact Hup3]. by split_and!.
Qed.
End lemmas.

(** ** Histories: critical sections of any routes, in any order *)

Inductive section_op :=
| OpEnter (key : string) (now : Z)
| OpCommit (key : string) (threshold cooldown now : Z) (fail : bool)
| OpClear (route : Route).

Definition op_key (op : section_op) : string :=
  match op with
  | OpEnter key _ => key
  | OpCommit key _ _ _ _ => key
  | OpClear route => routeKey route
  end.

(** The probe results a route committed since its state was last cleared. *)
Definition own_outcome (key : string) (acc : list bool) (op : section_op) : list bool :=
  match op with
  | OpEnter _ _ => acc
  | OpCommit k _ _ _ fail => if bool_decide (k = key) then acc ++ [fail] else acc
  | OpClear route => if bool_decide (routeKey route = key) then [] else acc
  end.
Definition own_outcomes (key : string) (ops : list section_op) : list bool :=
  fold_left (own_outcome key) ops [].

(** The number of failures at the end of a list of results. *)
Fixpoint leading_failures (l : list bool) : Z :=
  match l with true :: l' => 1 + leading_failures l' | _ => 0 end.
Definition trailing_failures (l : list bool) : Z := leading_failures (reverse l).

Definition uses_threshold (key : string) (T : Z) (op : section_op) : Prop :=
  match op with OpCommit k T' _ _ _ => k = key → T' = T | _ => True end.

(** A step that leaves the entry of [key] as it is. *)
Definition harmless (key : string) (op : section_op) : Prop :=
  match op with OpEnter _ _ => True | _ => op_key op ≠ key end.

Lemma leading_failures_nonneg l : 0 ≤ leading_failures l.
Proof. induction l as [|[] l IH]; simpl; lia. Qed.
Lemma trailing_failures_nonneg l : 0 ≤ trailing_failures l.
Proof. apply leading_failures_nonneg. Qed.
Lemma trailing_failures_snoc l fail :
  trailing_failures (l ++ [fail]) = if fail then 1 + trailing_failures l else 0.
Proof. unfold trailing_failures. rewrite reverse_snoc. by destruct fail. Qed.

Lemma streak_step n T : 1 ≤ T → 0 ≤ n →
  (if T <=? n mod T + 1 then 0 else n mod T + 1) = (1 + n) mod T.
Proof.
  intros HT Hn. pose proof (Z.mod_pos_bound n T ltac:(lia)). destruct (Z.leb_spec T (n mod T + 1)).
  - symmetry. apply Z.mod_divide; [lia|]. exists (n / T + 1).
    pose proof (Z.div_mod n T ltac:(lia)). lia.
  - apply (Z.mod_unique_pos _ _ (n / T)); [lia|].
    pose proof (Z.div_mod n T ltac:(lia)). lia.
Qed.
Lemma streak_trigger n T : 1 ≤ T → 0 ≤ n →
  (T <=? n mod T + 1) = bool_decide ((1 + n) mod T = 0).
Proof.
  intros HT Hn. pose proof (streak_step n T HT Hn) as Hs.
  pose proof (Z.mod_pos_bound n T ltac:(lia)).
  destruct (Z.leb_spec T (n mod T + 1)); case_bool_decide; lia.
Qed.

Section histories.
Context {E : Type} `{KubeEnv E} `{GoLibs}.
Implicit Types (s : St E).

Definition op_run (op : section_op) : M (St E) unit :=
  match op with
  | OpEnter key now => canaryEnter key now;; mret tt
  | OpCommit key T cd now fail => canaryCommit key T cd now fail;; mret tt
  | OpClear route => clearCanaryRuntimeState route
  end.
Definition run_ops (ops : list section_op) : M (St E) unit :=
  foldM (λ _ op, op_run op) tt ops.

(** What one critical section does to the entry of [key]. *)
Definition op_entry (key : string) (e : Z * option Z) (op : section_op) : Z * option Z :=
  match op with
  | OpEnter _ _ => e
  | OpCommit k T cd now fail =>
      if bool_decide (k = key) then (entry_commit T cd now fail e).1 else e
  | OpClear route => if bool_decide (routeKey route = key) then (0, None) else e
  end.

Lemma updates_entry k key e rc rc' :
  updates k e rc rc' → entry rc' key = if bool_decide (k = key) then e else entry rc key.
Proof. intros (_ & _ & _ & He & Ho). case_bool_decide; [by subst|by apply Ho]. Qed.

Lemma op_run_wp key op s :
  free (s_rec s) → made (s_rec s) →
  wp (op_run op) (λ _ s', free (s_rec s') ∧ made (s_rec s') ∧ s_env s' = s_env s ∧
    s_log s' = s_log s ∧ entry (s_rec s') key = op_entry key (entry (s_rec s) key) op)
    (λ _, False) s.
Proof.
  intros Hf Hm. destruct op as [k now|k T cd now fail|route]; simpl.
  - apply wp_bind. eapply wp_mono; [by apply canaryEnter_wp| |done].
    intros _ s' (_ & ? & ? & ? & Hup). apply wp_ret. pose proof (updates_entry _ key _ _ _ Hup).
    destruct Hup as (_ & ? & _). split_and!; [done..|]. by case_bool_decide; subst.
  - apply wp_bind. eapply wp_mono; [by apply canaryCommit_wp| |done].
    intros flags s' (? & ? & e & He & Hup). apply wp_ret.
    pose proof (updates_entry _ key _ _ _ Hup) as Hk.
    destruct Hup as (_ & ? & Hm' & _). split_and!; [done|auto|done|done|].
    rewrite Hk. case_bool_decide; subst; [by rewrite He|done].
  - eapply wp_mono; [by apply clearCanaryRuntimeState_wp| |done].
    intros _ s' (? & ? & Hup). pose proof (updates_entry _ key _ _ _ Hup).
    destruct Hup as (_ & ? & Hm' & _). split_and!; auto.
Qed.

Lemma run_ops_wp key ops s :
  free (s_rec s) → made (s_rec s) →
  wp (run_ops ops) (λ _ s', free (s_rec s') ∧ made (s_rec s') ∧ s_env s' = s_env s ∧
    s_log s' = s_log s ∧
    entry (s_rec s') key = fold_left (op_entry key) ops (entry (s_rec s) key)) (λ _, False) s.
Proof.
  intros Hf Hm. unfold run_ops.
  apply (wp_foldM _ (λ dn _ s', free (s_rec s') ∧ made (s_rec s') ∧ s_env s' = s_env s ∧
    s_log s' = s_log s ∧
    entry (s_rec s') key = fold_left (op_entry key) dn (entry (s_rec s) key))); [|done].
  intros dn op todo [] s' _ (Hf' & Hm' & He' & Hl' & Hen').
  eapply wp_mono; [by apply (op_run_wp key)| |done].
  intros _ s'' (? & ? & ? & ? & Hen''). split_and!; [done|done|congruence|congruence|].
  by rewrite fold_left_app, Hen'', Hen'.
Qed.

Lemma run_ops_ret key ops s :
  free (s_rec s) → made (s_rec s) →
  ∃ s', run_ops ops s = (Ret tt, s') ∧ free (s_rec s') ∧ made (s_rec s') ∧
    s_env s' = s_env s ∧ s_log s' = s_log s ∧
    entry (s_rec s') key = fold_left (op_entry key) ops (entry (s_rec s) key).
Proof.
  intros Hf Hm. pose proof (run_ops_wp key ops s Hf Hm) as Hwp. unfold wp in Hwp.
  destruct (run_ops ops s) as [[[]|] s']; [eauto|done].
Qed.

Lemma canaryCommit_ret key T cd now fail s :
  free (s_rec s) → made (s_rec s) →
  ∃ e flags s', canaryCommit key T cd now fail s = (Ret flags, s') ∧
    entry_commit T cd now fail (entry (s_rec s) key) = (e, flags) ∧
    updates key e (s_rec s) (s_rec s').
Proof.
  intros Hf Hm. pose proof (canaryCommit_wp key T cd now fail s Hf Hm) as Hwp. unfold wp in Hwp.
  destruct (canaryCommit key T cd now fail s) as [[flags|] s']; [|done].
  destruct Hwp as (_ & _ & e & He & Hup). eauto 10.
Qed.

(** The count of an entry is its failure streak modulo the threshold. *)
Lemma entry_commit_streak T cd now fail n u :
  1 ≤ T → isInt32 T → 0 ≤ n →
  let r := entry_commit T cd now fail (n mod T, u) in
  r.1.1 = (if fail then 1 + n else 0) mod T ∧
  r.2.1.1 = fail && bool_decide ((1 + n) mod T = 0).
Proof.
  intros HT HT32 Hn. pose proof (Z.mod_pos_bound n T ltac:(lia)) as Hb. unfold entry_commit.
  destruct fail; simpl.
  - rewrite int64_id by (unfold isInt32, isInt64 in *; lia).
    pose proof (streak_step n T HT Hn) as Hs. pose proof (streak_trigger n T HT Hn) as Ht.
    rewrite <-Ht, <-Hs. destruct (T <=? n mod T + 1); unfold cooling; simpl.
    + by destruct (now <? now + cd).
    + by destruct u as [u|]; [destruct (now <? u)|].
  - rewrite (proj2 (Z.leb_gt T 0)) by lia. rewrite Z.mod_0_l by lia. unfold cooling. simpl.
    by destruct u as [u|]; [destruct (now <? u)|].
Qed.

Lemma streak_fold key T ops e :
  1 ≤ T → isInt32 T → Forall (uses_threshold key T) ops → e.1 = 0 →
  (fold_left (op_entry key) ops e).1 = trailing_failures (own_outcomes key ops) mod T.
Proof.
  intros HT HT32 Hall He. induction ops as [|op ops IH] using rev_ind; simpl.
  { by rewrite Z.mod_0_l by lia. }
  apply Forall_app in Hall as [Hall [Hop _]%Forall_cons]. specialize (IH Hall).
  unfold own_outcomes in *. rewrite !fold_left_app. simpl.
  destruct (fold_left (op_entry key) ops e) as [c u]. simpl in IH. subst c.
  destruct op as [k now|k T' cd now fail|route]; simpl; [done| |].
  - case_bool_decide as Hk; [|done]. rewrite (Hop Hk), trailing_failures_snoc.
    apply (entry_commit_streak T cd now fail _ u HT HT32), trailing_failures_nonneg.
  - case_bool_decide; [|done]. simpl. by rewrite Z.mod_0_l by lia.
Qed.

Lemma harmless_fold key ops e :
  Forall (harmless key) ops → fold_left (op_entry key) ops e = e.
Proof.
  intros Hall. induction ops as [|op ops IH] using rev_ind; [done|].
  apply Forall_app in Hall as [Hall [Hop _]%Forall_cons].
  rewrite fold_left_app, IH by done. simpl.
  destruct op; simpl in *; [done|by rewrite bool_decide_eq_false_2..].
Qed.
End histories.

Section claims.
Context {E : Type} `{KubeEnv E} `{GoLibs}.
Implicit Types (s : St E).

(** C28: [evaluateCanaryRollback] never panics, never fails, always leaves the
    mutex free and never touches another route's entry.  Without a rollback
    policy it does nothing.  While a cooldown runs it answers active without
    probing.  Otherwise it probes once (unless the URL is rejected), counts
    the result into the route's entry as [entry_commit] says, emits the
    events of what happened, and answers whether a rollback is now active. *)
Theorem evaluateCanaryRollback_correct route s :
  free (s_rec s) →
  ∃ active interval s', evaluateCanaryRollback route s = (Ret (active, interval, None), s') ∧
    canary_answer route s active interval s' ∧ free (s_rec s') ∧
    ∀ k, k ≠ routeKey route → entry (s_rec s') k = entry (s_rec s) k.
Proof.
  intros Hf. pose proof (evaluateCanaryRollback_wp route s Hf) as Hwp. unfold wp in Hwp.
  destruct (evaluateCanaryRollback route s) as [[res|] s']; [|done].
  destruct Hwp as (active & interval & -> & Hans). eexists _, _, _. split; [done|].
  split; [done|]. unfold canary_answer in Hans.
  destruct (rollback_policy route) as [[canary policy]|]; [|destruct Hans as [-> _]; auto].
  destruct Hans as (_ & now & _ & Hans).
  destruct (cooling _ _); [destruct Hans as (_ & _ & _ & ? & _ & _ & ?); auto|].
  destruct Hans as (? & ? & ? & ? & ? & _ & _ & _ & _ & ? & _ & _ & ?). auto.
Qed.

(** C13: whatever critical sections of other routes run in between, a route's
    failure count is the number of consecutive failed probes at the end of
    its own history, modulo the threshold; so the next commit triggers a
    rollback exactly when it fails and completes a streak of a multiple of
    the threshold.  None of these sections deadlocks or writes to a nil map. *)
Theorem canary_streak key T ops s :
  free (s_rec s) → made (s_rec s) → failureCount (s_rec s) key = 0 →
  1 ≤ T → isInt32 T → Forall (uses_threshold key T) ops →
  let n := trailing_failures (own_outcomes key ops) in
  ∃ s', run_ops ops s = (Ret tt, s') ∧ failureCount (s_rec s') key = n mod T ∧
    ∀ cd now fail, ∃ active recovered s'',
      canaryCommit key T cd now fail s' =
      (Ret (fail && bool_decide ((n + 1) mod T = 0), active, recovered), s'').
Proof.
  intros Hf Hm H0' HT HT32 Hall n.
  destruct (run_ops_ret key ops s Hf Hm) as (s' & Hrun & Hf' & Hm' & _ & _ & Hen).
  pose proof (streak_fold key T ops (entry (s_rec s) key) HT HT32 Hall H0') as Hs.
  rewrite <-Hen in Hs. exists s'. split_and!; [done|exact Hs|].
  intros cd now fail.
  destruct (canaryCommit_ret key T cd now fail s' Hf' Hm') as (e & flags & s'' & Hc & He & _).
  destruct (entry (s_rec s') key) as [c u]. simpl in Hs. subst c. fold n in He.
  destruct (entry_commit_streak T cd now fail n u HT HT32 (trailing_failures_nonneg _))
    as [_ Htrig].
  rewrite He in Htrig. destruct flags as [[trig active] recov]. simpl in Htrig. subst trig.
  rewrite (Z.add_comm n 1). eauto.
Qed.

(** C14: after a commit that triggers a rollback at [now] with a positive
    cooldown, and any critical
    sections of other routes (or first sections of this one), an evaluation
    at a clock reading before [now + cooldown] answers active and makes no
    HTTP call, and one at a later reading probes the canary again. *)
Theorem rollback_lasts_its_cooldown route canary policy cd now fail s active recov s1 ops :
  free (s_rec s) → made (s_rec s) → rollback_policy route = Some (canary, policy) → 0 < cd →
  canaryCommit (routeKey route) (rb_FiveXXThreshold policy) cd now fail s =
    (Ret (true, active, recov), s1) →
  Forall (harmless (routeKey route)) ops →
  ∃ s2, run_ops ops s1 = (Ret tt, s2) ∧
  let later := (env_now (s_env s2)).1 in
  ∃ active' interval s3,
    evaluateCanaryRollback route s2 = (Ret (active', interval, None), s3) ∧
    (later < now + cd → active' = true ∧ s_log s3 = s_log s2 ++ [CNow later]) ∧
    (now + cd ≤ later → ∃ probe calls events, probed route canary policy probe calls ∧
       s_log s3 = s_log s2 ++ CNow later :: calls ++ events).
Proof.
  intros Hf Hm Hpol Hcd Hc Hops.
  destruct (canaryCommit_ret (routeKey route) (rb_FiveXXThreshold policy) cd now fail s Hf Hm)
    as (e & flags & s1' & Hc' & He & Hup). rewrite Hc in Hc'. simplify_eq.
  pose proof (updates_entry _ (routeKey route) _ _ _ Hup) as Hen1.
  rewrite bool_decide_eq_true_2 in Hen1 by done.
  destruct Hup as (_ & Hf1 & Hm1 & _). specialize (Hm1 Hm).
  destruct (run_ops_ret (routeKey route) ops s1' Hf1 Hm1)
    as (s2 & Hrun & Hf2 & _ & _ & _ & Hen2).
  rewrite harmless_fold, Hen1 in Hen2 by done. exists s2. split; [done|].
  pose proof (evaluateCanaryRollback_wp route s2 Hf2) as Hwp. unfold wp in Hwp.
  destruct (evaluateCanaryRollback route s2) as [[res|] s3]; [|done].
  destruct Hwp as (active' & interval & -> & Hans). eexists _, _, _. split; [done|].
  unfold canary_answer in Hans. rewrite Hpol in Hans.
  destruct Hans as (_ & later & -> & Hans). rewrite Hen2 in Hans.
  unfold entry_commit in He.
  destruct (rb_FiveXXThreshold policy <=? _); [|by destruct (cooling _ _)].
  assert (e = (0, Some (now + cd))) as ->.
  { unfold cooling in He. simpl in He. destruct (Z.ltb_spec now (now + cd)); [by simplify_eq|lia]. }
  unfold cooling in Hans. simpl in Hans.
  destruct (Z.ltb_spec later (now + cd)).
  - destruct Hans as (-> & Hl & _). split; [done|lia].
  - split; [lia|]. intros _.
    destruct Hans as (probe & calls & ? & ? & ? & Hpr & _ & Hl & _). eauto.
Qed.
End claims.

(** ** Witnesses *)

Definition ex_policy : RouteCanaryRollback := mkRollback 2 "healthz" (Some 5) (Some 10).
Definition ex_canary : RouteCanary := mkCanary (mkBackend "app-canary" 8080 "HTTP") 20 (Some ex_policy).
Definition ex_route (name : string) : Route :=
  mkRoute (newMeta name "demo" ∅)
    (mkSpec [] None "" "" None None None None None (Some ex_canary)) (mkStatus "" [] 0).
Definition ex_rec : RouteReconciler := mkReconciler true false (Some ∅) (Some ∅).
Definition ex_state : St Mem := mkSt (with_http [Ok 503; Ok 502; Ok 200] (mem_empty 0)) ex_rec [].

Example ex_url :
  canaryBackendProbeURL "demo" (ca_Backend ex_canary) "healthz" =
  "http://app-canary.demo.svc.cluster.local:8080/healthz".
Proof. by vm_compute. Qed.

(** Two failures activate the rollback; the third run does not probe. *)
Example ex_three_runs :
  let ev := evaluateCanaryRollback (ex_route "app") in
  match (a ← ev; b ← ev; c ← ev; mret (a.1.1, b.1.1, c.1.1)) ex_state with
  | (Ret r, s) => r = (false, true, true) ∧ mem_http (s_env s) = [Ok 200]
  | _ => False
  end.
Proof. by vm_compute. Qed.

Lemma evaluateCanaryRollback_correct_witness :
  ∃ active interval s',
    evaluateCanaryRollback (ex_route "app") ex_state = (Ret (active, interval, None), s') ∧
    canary_answer (ex_route "app") ex_state active interval s' ∧ free (s_rec s') ∧
    ∀ k, k ≠ "demo/app" → entry (s_rec s') k = entry ex_rec k.
Proof. exact (evaluateCanaryRollback_correct (ex_route "app") ex_state eq_refl). Defined.

Definition ex_ops : list section_op :=
  [OpEnter "demo/app" 0; OpCommit "demo/app" 2 10 0 true; OpCommit "demo/web" 1 10 1 true;
   OpClear (ex_route "web")].

Lemma canary_streak_witness :
  ∃ s', run_ops ex_ops ex_state = (Ret tt, s') ∧ failureCount (s_rec s') "demo/app" = 1 ∧
    ∀ cd now fail, ∃ active recovered s'',
      canaryCommit "demo/app" 2 cd now fail s' = (Ret (fail && true, active, recovered), s'').
Proof.
  refine (canary_streak "demo/app" 2 ex_ops ex_state eq_refl _ eq_refl _ _ _).
  - split; eexists; reflexivity.
  - lia.
  - unfold isInt32. lia.
  - repeat constructor; simpl; done.
Defined.

Definition ex_before : St Mem :=
  mkSt (mem_empty 0) (mkReconciler true false (Some {["demo/app" := 1]}) (Some ∅)) [].
Definition ex_after : St Mem := (canaryCommit "demo/app" 2 10 0 true ex_before).2.

Lemma rollback_lasts_its_cooldown_witness :
  canaryCommit "demo/app" 2 10 0 true ex_before = (Ret (true, true, false), ex_after) ∧
  ∃ s2, run_ops [OpCommit "demo/web" 1 10 1 true] ex_after = (Ret tt, s2) ∧
  let later := (env_now (s_env s2)).1 in
  ∃ active' interval s3,
    evaluateCanaryRollback (ex_route "app") s2 = (Ret (active', interval, None), s3) ∧
    (later < 0 + 10 → active' = true ∧ s_log s3 = s_log s2 ++ [CNow later]) ∧
    (0 + 10 <= later → ∃ probe calls events,
       probed (ex_route "app") ex_canary ex_policy probe calls ∧
       s_log s3 = s_log s2 ++ CNow later :: calls ++ events).
Proof.
  split; [by vm_compute|].
  apply (rollback_lasts_its_cooldown (ex_route "app") ex_canary ex_policy 10 0 true ex_before
    true false).
  - reflexivity.
  - split; eexists; reflexivity.
  - reflexivity.
  - lia.
  - by vm_compute.
  - repeat constructor; simpl; done.
Defined.
End Canary.
