(* ===== verification/Children.v ===== *)
(** * Writing the generated objects (createOrUpdate, the reconcile* and delete* functions)

    Objects in the route's namespace are owned by it; those in the Gateway's
    namespace only carry labels.  [desired] lists what a route and its
    effective canary call for, in the order the reconciler writes it. *)
From S2P Require Import Prelude GoStd GoTime RouteTypes Objects Env Trace Mem Store Common.
From S2P Require Import Builders.

Module Children.
Import Builders.Builders.

Section children.
Context {E : Type} `{KubeEnv E} `{GoLibs}.

(** [r.Create] and [r.Update] return an error or nil. *)
Definition errOf (r : result unit) : option error :=
  match r with Ok _ => None | Err err => Some err end.

(** [createOrUpdateCrossNS] *)
Definition createOrUpdateCrossNS (obj : Child) : M (St E) (option error) :=
  existing ← getChild (c_Kind obj) (c_NN obj);
  match existing with
  | Err err =>
      if IsNotFound err then r ← createChild obj; mret (errOf r)
      else mret (Some err)
  | Ok existing =>
      let obj := SetResourceVersion (m_ResourceVersion (c_Meta existing)) obj in
      r ← updateChild obj;
      mret (errOf r)
  end.

Definition createOrUpdate (route : Route) (obj : Child) : M (St E) (option error) :=
  match SetControllerReference route obj with
  | Err err => mret (Some err)
  | Ok obj =>
      existing ← getChild (c_Kind obj) (c_NN obj);
      match existing with
      | Err err =>
          if IsNotFound err then r ← createChild obj; mret (errOf r)
          else mret (Some err)
      | Ok existing =>
          let obj := SetResourceVersion (m_ResourceVersion (c_Meta existing)) obj in
          r ← updateChild obj;
          mret (errOf r)
      end
  end.

Definition reconcileHTTPRoute (route : Route) (index : nat) (rule : RouteRule)
    (canary : option RouteCanary) : M (St E) (option error) :=
  createOrUpdate route (newHTTPRoute route index rule canary).

Definition reconcileRedirectHTTPRoute (route : Route) (index : nat) (host : string)
    : M (St E) (option error) :=
  createOrUpdate route (newRedirectHTTPRoute route index host).

Definition reconcileVirtualService (route : Route) (canary : option RouteCanary)
    : M (St E) (option error) :=
  createOrUpdate route (newVirtualService route canary).

Definition reconcileDestinationRule (route : Route) (index : nat) (backend : RouteBackend)
    : M (St E) (option error) :=
  createOrUpdateCrossNS (newDestinationRule route index backend).

Definition reconcileEnvoyFilter (route : Route) (index : nat) (rule : RouteRule)
    : M (St E) (option error) :=
  ef ← newEnvoyFilter route index rule;
  match ef with
  | Err err => mret (Some err)
  | Ok ef => createOrUpdateCrossNS ef
  end.

Definition reconcileRequestAuthentication (route : Route) : M (St E) (option error) :=
  match rs_Auth (r_Spec route) with
  | None => mret None
  | Some auth => createOrUpdateCrossNS (newRequestAuthentication route auth)
  end.

Definition reconcileAuthorizationPolicy (route : Route) : M (St E) (option error) :=
  match rs_Auth (r_Spec route) with
  | None => mret None
  | Some _ => createOrUpdateCrossNS (newAuthorizationPolicy route)
  end.

Definition reconcileRateLimitEnvoyFilter (route : Route) : M (St E) (option error) :=
  match rs_RateLimit (r_Spec route) with
  | None => mret None
  | Some rl =>
      ef ← newRateLimitEnvoyFilter route rl;
      match ef with
      | Err err => mret (Some err)
      | Ok ef => createOrUpdateCrossNS ef
      end
  end.

(** [if err := r.Delete(ctx, obj); err != nil && !errors.IsNotFound(err)] *)
Definition deleteIgnoringNotFound (k : Kind) (n : NamespacedName) : M (St E) (option error) :=
  r ← deleteChild k n;
  match r with
  | Err err => if IsNotFound err then mret None else mret (Some err)
  | Ok _ => mret None
  end.

Definition deleteAuthResources (route : Route) : M (St E) (option error) :=
  let '(_, gwNs) := gatewayRef route in
  foldM (λ err '(k, n),
      match err with
      | Some err => mret (Some err)
      | None => deleteIgnoringNotFound k n
      end) None
    [(KRequestAuthentication, mkNN gwNs (r_Name route +:+ "-jwt"));
     (KAuthorizationPolicy, mkNN gwNs (r_Name route +:+ "-authz"))].

Definition deleteRateLimitEnvoyFilter (route : Route) : M (St E) (option error) :=
  let '(_, gwNs) := gatewayRef route in
  deleteIgnoringNotFound KEnvoyFilter (mkNN gwNs (r_Name route +:+ "-rate-limit")).

(** One of the four blocks: list, then delete each item, ignoring errors. *)
Definition cleanupKind (labels : gmap string string) (gwNs : string) (k : Kind)
    : M (St E) unit :=
  items ← listChildren k labels gwNs;
  match items with
  | Err _ => mret tt
  | Ok items => foldM (λ _ item, deleteChild k (c_NN item);; mret tt) tt items
  end.

Definition cleanupOwnedResources (route : Route) : M (St E) (option error) :=
  let labels := managedLabels route in
  let '(_, gwNs) := gatewayRef route in
  cleanupKind labels gwNs KDestinationRule;;
  cleanupKind labels gwNs KEnvoyFilter;;
  cleanupKind labels gwNs KRequestAuthentication;;
  cleanupKind labels gwNs KAuthorizationPolicy;;
  mret None.
End children.

(** ** Specification: the objects a route calls for *)

Section desired.
Context `{GoLibs}.

Definition wantsRedirect (route : Route) : bool :=
  match rs_SSLRedirect (r_Spec route) with None => true | Some b => b end.

Definition wantsVirtualService (route : Route) (canary : option RouteCanary) : bool :=
  bool_decide (rs_Timeout (r_Spec route) ≠ "") ||
  match rs_CORS (r_Spec route) with Some _ => true | None => false end ||
  match rs_Retries (r_Spec route) with Some _ => true | None => false end ||
  match canary with Some _ => true | None => false end.

Definition isHTTPS (backend : RouteBackend) : bool :=
  let protocol := if bool_decide (be_Protocol backend = "") then "HTTP"
                  else be_Protocol backend in
  bool_decide (protocol = "HTTPS").

Definition httpsBackends (route : Route) (canary : option RouteCanary) : list RouteBackend :=
  filter (λ b, isHTTPS b = true)
    (rs_Rules (r_Spec route) ≫= λ rule, routeRuleBackends rule canary).

(** What a builder answers; the pure ones always build an object. *)
Definition built {A} (m : M unit A) : outcome A := (m tt).1.
Definition object (c : Child) : outcome (result Child) := Ret (Ok c).
(** An object with its owner reference. *)
Definition owned (route : Route) (c : Child) : outcome (result Child) :=
  Ret (SetControllerReference route c).

Definition want_routes (route : Route) (canary : option RouteCanary) :=
  (λ '(i, rule), owned route (newHTTPRoute route i rule canary)) <$>
    indexed (rs_Rules (r_Spec route)).
Definition want_redirects (route : Route) :=
  if wantsRedirect route then
    (λ '(i, host), owned route (newRedirectHTTPRoute route i host)) <$>
      indexed (uniqueHostsFromRules (rs_Rules (r_Spec route)))
  else [].
Definition want_virtualService (route : Route) (canary : option RouteCanary) :=
  if wantsVirtualService route canary then [owned route (newVirtualService route canary)] else [].
Definition want_destinationRules (route : Route) (canary : option RouteCanary) :=
  (λ '(i, b), object (newDestinationRule route i b)) <$> indexed (httpsBackends route canary).
Definition want_bodySizes (route : Route) :=
  if bool_decide (rs_MaxBodySize (r_Spec route) ≠ "") then
    (λ '(i, rule), built (newEnvoyFilter route i rule)) <$> indexed (rs_Rules (r_Spec route))
  else [].
Definition want_auth (route : Route) :=
  match rs_Auth (r_Spec route) with
  | Some auth => [object (newRequestAuthentication route auth);
                  object (newAuthorizationPolicy route)]
  | None => []
  end.
Definition want_rateLimit (route : Route) :=
  match rs_RateLimit (r_Spec route) with
  | Some rl => [built (newRateLimitEnvoyFilter route rl)]
  | None => []
  end.

Definition desired (route : Route) (canary : option RouteCanary)
    : list (outcome (result Child)) :=
  want_routes route canary ++ want_redirects route ++ want_virtualService route canary ++
  want_destinationRules route canary ++ want_bodySizes route ++ want_auth route ++
  want_rateLimit route.

(** The objects a route without auth, or without rate limit, deletes. *)
Definition retired_auth (route : Route) : list ObjKey :=
  let gwNs := (gatewayRef route).2 in
  match rs_Auth (r_Spec route) with
  | Some _ => []
  | None => [(KRequestAuthentication, mkNN gwNs (r_Name route +:+ "-jwt"));
             (KAuthorizationPolicy, mkNN gwNs (r_Name route +:+ "-authz"))]
  end.
Definition retired_rateLimit (route : Route) : list ObjKey :=
  let gwNs := (gatewayRef route).2 in
  match rs_RateLimit (r_Spec route) with
  | Some _ => []
  | None => [(KEnvoyFilter, mkNN gwNs (r_Name route +:+ "-rate-limit"))]
  end.
Definition retired (route : Route) : list ObjKey := retired_auth route ++ retired_rateLimit route.
End desired.

(** Two versions of one generated object: they differ in nothing but the
    resource version. *)
Definition same_object (c c' : Child) : Prop :=
  SetResourceVersion "" c' = SetResourceVersion "" c.

#[export] Instance same_object_equiv : Equivalence same_object.
Proof.
  split.
  - by intros c.
  - by intros c c' ?.
  - intros c1 c2 c3 ? ?. unfold same_object. by etransitivity.
Qed.

Lemma same_object_key c c' : same_object c c' → c_Key c' = c_Key c.
Proof. intros Hs. exact (f_equal c_Key Hs). Qed.
Lemma same_object_owners c c' :
  same_object c c' → m_OwnerReferences (c_Meta c') = m_OwnerReferences (c_Meta c).
Proof. intros Hs. exact (f_equal (m_OwnerReferences ∘ c_Meta) Hs). Qed.

(** The reference that makes [route] the controller of an object. *)
Definition controllerRef (route : Route) : OwnerReference :=
  mkOwnerRef "Route" (r_Name route) true.

(** controllerutil.SetControllerReference changes the owner references only,
    to the one of the Route if there are none; it goes by the name of the Route
    (and its UID, which is not modelled) and by the two namespaces. *)
Class OwnerLaws `{GoLibs} : Prop := {
  SetControllerReference_sets r c c' : SetControllerReference r c = Ok c' →
    ∃ os, c' = set_Owners os c ∧ (m_OwnerReferences (c_Meta c) = [] → os = [controllerRef r]);
  SetControllerReference_nn r r' c : r_NN r' = r_NN r →
    SetControllerReference r' c = SetControllerReference r c
}.

#[export] Instance memOwnerLaws : OwnerLaws.
Proof.
  constructor.
  - intros r c c'. simpl. unfold mem_SetControllerReference.
    destruct (m_OwnerReferences (c_Meta c)); [|done]. intros [= <-]. by eexists.
  - intros r r' c [= _ Hn]. simpl. unfold mem_SetControllerReference. by rewrite Hn.
Qed.

Lemma SetControllerReference_key `{OwnerLaws} r c c' :
  SetControllerReference r c = Ok c' → c_Key c' = c_Key c.
Proof. by intros (os & -> & _)%SetControllerReference_sets. Qed.

(** ** What the calls of a run may write, and what an error-free run wrote *)

(** [D]: the objects called for; [R]: the keys that may be deleted. *)
Definition allowed (D : list (outcome (result Child))) (R : list ObjKey) (c : Call) : Prop :=
  match c with
  | CGetChild k n _ => ∃ d, Ret (Ok d) ∈ D ∧ c_Key d = (k, n)
  | CCreateChild c _ | CUpdateChild c _ => ∃ d, Ret (Ok d) ∈ D ∧ same_object d c
  | CDeleteChild k n _ => (k, n) ∈ R
  | _ => False
  end.

Definition applied (k : list Call) (d : Child) : Prop :=
  ∃ call c, call ∈ k ∧ accepted call = Some c ∧ same_object d c.

Definition all_applied (k : list Call) (D : list (outcome (result Child))) : Prop :=
  ∀ o, o ∈ D → ∃ d, o = Ret (Ok d) ∧ applied k d.

Definition handled (k : list Call) (D : list (outcome (result Child))) (R : list ObjKey) : Prop :=
  all_applied k D ∧ ∀ key, key ∈ R → removed k key.

(** How many objects the API server accepted. *)
Definition accepts (k : list Call) : nat := length (omap accepted k).

(** A call on a generated object that the API server answered with [err]. *)
Definition failing (err : error) (c : Call) : Prop :=
  match c with
  | CGetChild _ _ (Err e) | CDeleteChild _ _ (Err e) => e = err ∧ IsNotFound e = false
  | CCreateChild _ (Err e) | CUpdateChild _ (Err e) => e = err
  | _ => False
  end.

(** The error [err] of a run over [D] and [R]: an object could not be built,
    or one of the calls for them failed. *)
Definition failed (k : list Call) (D : list (outcome (result Child))) (R : list ObjKey)
    (err : error) : Prop :=
  Ret (Err err) ∈ D ∨ ∃ c, c ∈ k ∧ failing err c ∧ allowed D R c.

Lemma accepts_app k k' : accepts (k ++ k') = (accepts k + accepts k')%nat.
Proof. unfold accepts. by rewrite omap_app, length_app. Qed.

Lemma handled_nil k : handled k [] [].
Proof. split; intros ?; by rewrite elem_of_nil. Qed.

Lemma handled_incl k k' D R : k ⊆ k' → handled k D R → handled k' D R.
Proof.
  intros Hk [Ha Hr]. split.
  - intros o Ho. destruct (Ha o Ho) as (d & -> & call & c & Hin & ?).
    exists d. split; [done|]. exists call, c. auto.
  - intros key Hkey. destruct (Hr key Hkey) as (r & ? & ?). exists r. auto.
Qed.

Lemma handled_app k1 k2 D1 D2 R1 R2 :
  handled k1 D1 R1 → handled k2 D2 R2 → handled (k1 ++ k2) (D1 ++ D2) (R1 ++ R2).
Proof.
  intros [Ha1 Hr1]%(handled_incl _ (k1 ++ k2)) [Ha2 Hr2]%(handled_incl _ (k1 ++ k2)); [|set_solver..].
  split; intros x [?|?]%elem_of_app; auto.
Qed.

Lemma allowed_mono D R D' R' c : D ⊆ D' → R ⊆ R' → allowed D R c → allowed D' R' c.
Proof. intros HD HR. destruct c; simpl; try done; [..|set_solver]; intros (d & ? & ?); eauto. Qed.

Lemma failed_mono k k' D D' R R' err :
  k ⊆ k' → D ⊆ D' → R ⊆ R' → failed k D R err → failed k' D' R' err.
Proof.
  intros Hk HD HR [Hin|(c & Hc & He & Ha)]; [left; auto|right].
  exists c. eauto using allowed_mono.
Qed.

(** The verdict of a run that made the calls [k]. *)
Definition verdict (k : list Call) (D : list (outcome (result Child))) (R : list ObjKey)
    (e : option error) : Prop :=
  match e with
  | None => accepts k = length D ∧ handled k D R
  | Some err => accepts k = 0%nat ∧ failed k D R err
  end.
Arguments verdict : simpl never.

Section lemmas.
Context {E : Type} `{KubeEnv E} `{GoLibs}.
Implicit Types (s : St E).

(** A run that writes [D] and removes [R]: it only makes allowed calls, leaves
    the reconciler's own state alone, reports no error when it has handled all
    of [D] and [R] and the error that stopped it otherwise, and only panics if
    a builder did.  ([D] has at most one object.) *)
Definition writes (D : list (outcome (result Child))) (R : list ObjKey)
    (m : M (St E) (option error)) : Prop :=
  ∀ s, wp m (λ e s', s_rec s' = s_rec s ∧ ∃ k, s_log s' = s_log s ++ k ∧
      Forall (allowed D R) k ∧ verdict k D R e)
    (λ s', s_rec s' = s_rec s ∧ (∃ k, s_log s' = s_log s ++ k ∧ Forall (allowed D R) k) ∧
      ∃ msg, Panic msg ∈ D) s.

Lemma writes_nothing : writes [] [] (mret None).
Proof.
  intros s. apply wp_ret. split; [done|]. exists []. rewrite app_nil_r.
  split_and!; [done|by constructor|]. split; [done|]. apply handled_nil.
Qed.
Lemma writes_error e R : writes [Ret (Err e)] R (mret (Some e)).
Proof.
  intros s. apply wp_ret. split; [done|]. exists []. rewrite app_nil_r.
  split_and!; [done|by constructor|]. split; [done|]. left. by left.
Qed.

(** A call that fails gives its error. *)
Lemma verdict_failing k D R c err :
  c ∈ k → accepts k = 0%nat → allowed D R c → failing err c → verdict k D R (Some err).
Proof. intros Hc Hz Ha He. split; [done|]. right. by exists c. Qed.

Lemma writes_CrossNS d c : same_object d c → writes [object d] [] (createOrUpdateCrossNS c).
Proof.
  intros Hsame s. unfold createOrUpdateCrossNS. apply wp_bind, wp_kcall. intros existing e1 _.
  assert (Ret (Ok d) ∈ [object d]) as Hin by (by left).
  assert (∀ v, same_object d (SetResourceVersion v c)) as Hver by done.
  assert (allowed [object d] [] (CGetChild (c_Kind c) (c_NN c) existing)) as Hget.
  { exists d. split; [done|]. symmetry. by apply same_object_key. }
  assert (∀ call c', allowed [object d] [] call → accepted call = Some c' → same_object d c' →
    verdict [CGetChild (c_Kind c) (c_NN c) existing; call] [object d] [] None) as Hdone.
  { intros call c' _ Hacc Hs. split; [unfold accepts; simpl; by rewrite Hacc|].
    split; [|intros ?; by rewrite elem_of_nil].
    intros o ->%list_elem_of_singleton. exists d. split; [done|]. exists call, c'.
    split_and!; [set_solver|done..]. }
  destruct existing as [existing|err]; [|destruct (IsNotFound err) eqn:Hnf].
  - apply wp_bind, wp_kcall. intros r e2 _. apply wp_ret. simpl. split; [done|].
    set (up := CUpdateChild _ r).
    assert (allowed [object d] [] up) as Hup by (exists d; auto).
    eexists. rewrite <-app_assoc. split_and!; [done|by apply Forall_cons; rewrite Forall_singleton|].
    destruct r as [u|err]; [by eapply (Hdone up)|].
    apply (verdict_failing _ _ _ up); [set_solver|done..].
  - apply wp_bind, wp_kcall. intros r e2 _. apply wp_ret. simpl. split; [done|].
    set (up := CCreateChild _ r).
    assert (allowed [object d] [] up) as Hup by (exists d; auto).
    eexists. rewrite <-app_assoc. split_and!; [done|by apply Forall_cons; rewrite Forall_singleton|].
    destruct r as [u|err']; [by eapply (Hdone up)|].
    apply (verdict_failing _ _ _ up); [set_solver|done..].
  - apply wp_ret. simpl. split; [done|]. eexists. split_and!; [done|by apply Forall_singleton|].
    eapply verdict_failing; [by left|done..].
Qed.

Lemma writes_owned route c : writes [owned route c] [] (createOrUpdate route c).
Proof.
  unfold createOrUpdate, owned. destruct (SetControllerReference route c) as [c'|err].
  - by apply (writes_CrossNS c' c').
  - apply writes_error.
Qed.

(** An object that a builder computes first. *)
Lemma writes_built (b : ∀ St, M St (result Child)) :
  (∀ s, b (St E) s = (built (b unit), s)) →
  writes [built (b unit)] []
    (o ← b (St E); match o with Err err => mret (Some err) | Ok c => createOrUpdateCrossNS c end).
Proof.
  intros Hb s. apply wp_bind. unfold wp at 1. rewrite Hb.
  destruct (built (b unit)) as [[c|err]|msg].
  - by apply writes_CrossNS.
  - apply writes_error.
  - split; [done|]. split; [|exists msg; by left]. exists []. rewrite app_nil_r.
    split; [done|by constructor].
Qed.

Lemma mustStruct_pure m s :
  mustStruct m s = (built (mustStruct m), s).
Proof. unfold mustStruct, built. by destruct (structpb_NewStruct m). Qed.

Lemma newEnvoyFilter_pure route i rule s :
  newEnvoyFilter route i rule s = (built (newEnvoyFilter route i rule), s).
Proof.
  unfold newEnvoyFilter, built. destruct (gatewayRef route).
  destruct (ParseUint _ _) as [|n]; [done|]. unfold mbind, M_bind.
  rewrite (mustStruct_pure _ s). unfold built. by destruct (mustStruct _ tt) as [[] []].
Qed.

Lemma routePatch_pure name h mx tpf fi s :
  buildRateLimitRoutePatch name h mx tpf fi s =
  (built (buildRateLimitRoutePatch name h mx tpf fi), s).
Proof.
  unfold buildRateLimitRoutePatch, built, mbind, M_bind. rewrite (mustStruct_pure _ s).
  unfold built. by destruct (mustStruct _ tt) as [[] []].
Qed.

Lemma newRateLimitEnvoyFilter_pure route rl s :
  newRateLimitEnvoyFilter route rl s = (built (newRateLimitEnvoyFilter route rl), s).
Proof.
  unfold newRateLimitEnvoyFilter, built. destruct (gatewayRef route) as [gwName gwNs].
  destruct (rateLimitFillInterval _) as [fi|]; [|done].
  destruct (rateLimitTokens rl) as [tpf mx].
  unfold buildRateLimitHTTPFilterPatch, mbind, M_bind. rewrite (mustStruct_pure _ s).
  unfold built. destruct (mustStruct _ tt) as [[v|] []]; [|done]. simpl.
  match goal with |- context [foldM ?f1 ?acc ?l s] =>
    match goal with |- context [foldM ?f2 acc l tt] =>
      assert (∀ a, foldM f1 a l s = ((foldM f2 a l tt).1, s)) as Hl end end.
  { induction (uniqueHostsFromRules _) as [|h hs IH]; intros a; [done|]. simpl.
    unfold mbind, M_bind. rewrite (routePatch_pure _ _ _ _ _ s). unfold built.
    destruct (buildRateLimitRoutePatch _ _ _ _ _ tt) as [[] []]; [|done]. apply IH. }
  rewrite Hl. destruct (foldM _ _ _ tt) as [[] []]; done.
Qed.

(** ** The writers *)

Lemma writes_EnvoyFilter route i rule :
  writes [built (newEnvoyFilter route i rule)] [] (reconcileEnvoyFilter route i rule).
Proof.
  apply (writes_built (λ St, @newEnvoyFilter St _ route i rule)), newEnvoyFilter_pure.
Qed.
Lemma writes_rateLimit route rl :
  rs_RateLimit (r_Spec route) = Some rl →
  writes [built (newRateLimitEnvoyFilter route rl)] [] (reconcileRateLimitEnvoyFilter route).
Proof.
  intros Hrl. unfold reconcileRateLimitEnvoyFilter. rewrite Hrl.
  apply (writes_built (λ St, @newRateLimitEnvoyFilter St _ route rl)), newRateLimitEnvoyFilter_pure.
Qed.

Lemma writes_delete k n : writes [] [(k, n)] (deleteIgnoringNotFound k n).
Proof.
  intros s. unfold deleteIgnoringNotFound. apply wp_bind, wp_kcall. intros r e _.
  assert (Forall (allowed [] [(k, n)]) [CDeleteChild k n r]) as Hk
    by (repeat constructor; simpl; set_solver).
  assert (match r with Ok _ => True | Err err => IsNotFound err = true end →
    verdict [CDeleteChild k n r] [] [(k, n)] None) as Hrem.
  { intros Hr. split; [done|]. split; intros x; [by rewrite elem_of_nil|]. intros ->%list_elem_of_singleton.
    exists r. split; [by left|done]. }
  destruct r as [|err]; [|destruct (IsNotFound err) eqn:Hnf]; apply wp_ret;
    (split; [done|]); eexists; (split_and!; [done|exact Hk|auto]).
  eapply verdict_failing; [by left|done|by apply Forall_singleton|done].
Qed.

(** Deletions in sequence, the first error ending it. *)
Lemma writes_seq R1 R2 (m : M (St E) (option error)) f :
  writes [] R1 m → writes [] R2 (f None) → (∀ err s, f (Some err) s = (Ret (Some err), s)) →
  writes [] (R1 ++ R2) (m ≫= f).
Proof.
  intros H1 H2 Hf s. apply wp_bind. eapply wp_mono; [apply H1| |].
  2:{ by intros s1 (_ & _ & msg & ?%elem_of_nil). }
  intros e1 s1 (Hr1 & k1 & Hk1 & Ha1 & Hd1).
  assert (Forall (allowed [] (R1 ++ R2)) k1) as Ha1'
    by (eapply Forall_impl; [exact Ha1|intros c; apply allowed_mono; set_solver]).
  destruct e1 as [err|].
  { unfold wp. rewrite Hf. split; [done|]. exists k1. split_and!; [done..|].
    destruct Hd1 as [Hz Hd1]. split; [done|]. eapply failed_mono; [..|exact Hd1]; set_solver. }
  eapply wp_mono; [apply H2| |by intros s2 (_ & _ & msg & ?%elem_of_nil)].
  intros e2 s2 (Hr2 & k2 & Hk2 & Ha2 & Hd2). split; [congruence|]. exists (k1 ++ k2).
  rewrite Hk2, Hk1, app_assoc. split_and!; [done| |].
  - apply Forall_app. split; [done|].
    eapply Forall_impl; [exact Ha2|intros c; apply allowed_mono; set_solver].
  - destruct Hd1 as [Hz Hd1]. destruct e2 as [err|]; destruct Hd2 as [Hz2 Hd2];
      (split; [by rewrite accepts_app, Hz, Hz2|]).
    + eapply failed_mono; [..|exact Hd2]; set_solver.
    + by apply (handled_app _ _ [] []).
Qed.

Lemma writes_deletes l :
  writes [] l (foldM (λ err '(k, n), match err with
    | Some err => mret (Some err) | None => deleteIgnoringNotFound k n end) None l).
Proof.
  induction l as [|[k n] l IH]; [apply writes_nothing|].
  apply (writes_seq [(k, n)] l); [apply writes_delete|done|]. intros err.
  clear IH. induction l as [|[k' n'] l IHl]; intros s; [done|]. apply IHl.
Qed.

Lemma writes_deleteAuth route :
  rs_Auth (r_Spec route) = None → writes [] (retired_auth route) (deleteAuthResources route).
Proof.
  intros Ha. unfold deleteAuthResources, retired_auth. rewrite Ha.
  destruct (gatewayRef route) as [gwName gwNs]. apply writes_deletes.
Qed.
Lemma writes_deleteRateLimit route :
  rs_RateLimit (r_Spec route) = None →
  writes [] (retired_rateLimit route) (deleteRateLimitEnvoyFilter route).
Proof.
  intros Hr. unfold deleteRateLimitEnvoyFilter, retired_rateLimit. rewrite Hr.
  destruct (gatewayRef route) as [gwName gwNs]. apply writes_delete.
Qed.
End lemmas.

(** ** Traces *)

Section traces.
Context {E : Type} `{KubeEnv E} `{GoLibs}.

Lemma traces_createOrUpdateCrossNS c : respects traces (createOrUpdateCrossNS (E:=E) c).
Proof. unfold createOrUpdateCrossNS. trace_steps. Qed.
Lemma traces_createOrUpdate route c : respects traces (createOrUpdate (E:=E) route c).
Proof. unfold createOrUpdate. trace_steps. Qed.
Lemma traces_deleteIgnoringNotFound k n :
  respects traces (deleteIgnoringNotFound (E:=E) k n).
Proof. unfold deleteIgnoringNotFound. trace_steps. Qed.
Lemma traces_cleanupKind labels ns k : respects traces (cleanupKind (E:=E) labels ns k).
Proof. unfold cleanupKind. trace_steps. Qed.

(** A builder does not reach the environment. *)
Lemma traces_built (b : M (St E) (result Child)) o :
  (∀ s, b s = (o, s)) → respects traces b.
Proof. intros Hb s. rewrite Hb. simpl. reflexivity. Qed.
Lemma traces_newEnvoyFilter route i rule :
  respects traces (newEnvoyFilter (St:=St E) route i rule).
Proof. eapply traces_built, newEnvoyFilter_pure. Qed.
Lemma traces_newRateLimit route rl :
  respects traces (newRateLimitEnvoyFilter (St:=St E) route rl).
Proof. eapply traces_built, newRateLimitEnvoyFilter_pure. Qed.
End traces.
#[export] Hint Resolve traces_createOrUpdateCrossNS traces_createOrUpdate
  traces_deleteIgnoringNotFound traces_cleanupKind traces_newEnvoyFilter
  traces_newRateLimit : traces.

Section more_traces.
Context {E : Type} `{KubeEnv E} `{GoLibs}.

Lemma traces_reconcileEnvoyFilter route i rule :
  respects traces (reconcileEnvoyFilter (E:=E) route i rule).
Proof. unfold reconcileEnvoyFilter. trace_steps. Qed.
Lemma traces_reconcileRequestAuthentication route :
  respects traces (reconcileRequestAuthentication (E:=E) route).
Proof. unfold reconcileRequestAuthentication. trace_steps. Qed.
Lemma traces_reconcileAuthorizationPolicy route :
  respects traces (reconcileAuthorizationPolicy (E:=E) route).
Proof. unfold reconcileAuthorizationPolicy. trace_steps. Qed.
Lemma traces_reconcileRateLimitEnvoyFilter route :
  respects traces (reconcileRateLimitEnvoyFilter (E:=E) route).
Proof. unfold reconcileRateLimitEnvoyFilter. trace_steps. Qed.
Lemma traces_deleteAuthResources route : respects traces (deleteAuthResources (E:=E) route).
Proof. unfold deleteAuthResources. destruct (gatewayRef route). trace_steps. Qed.
Lemma traces_deleteRateLimitEnvoyFilter route :
  respects traces (deleteRateLimitEnvoyFilter (E:=E) route).
Proof. unfold deleteRateLimitEnvoyFilter. destruct (gatewayRef route). trace_steps. Qed.
Lemma traces_cleanupOwnedResources route :
  respects traces (cleanupOwnedResources (E:=E) route).
Proof. unfold cleanupOwnedResources. destruct (gatewayRef route). trace_steps. Qed.
End more_traces.
#[export] Hint Resolve traces_reconcileEnvoyFilter traces_reconcileRequestAuthentication
  traces_reconcileAuthorizationPolicy traces_reconcileRateLimitEnvoyFilter
  traces_deleteAuthResources traces_deleteRateLimitEnvoyFilter
  traces_cleanupOwnedResources : traces.

(** ** The store after a cleanup *)

(** What the cleanup of a route selects. *)
Definition cleanable (labels : gmap string string) (gwNs : string) (kinds : list Kind) (c : Child)
    : Prop :=
  c_Kind c ∈ kinds ∧ nn_Namespace (c_NN c) = gwNs ∧ labels ⊆ m_Labels (c_Meta c).

(** A list or delete that was refused. *)
Definition refused (c : Call) : Prop :=
  match c with
  | CListChildren _ _ _ (Err _) => True
  | CDeleteChild _ _ (Err err) => IsNotFound err = false
  | _ => False
  end.

(** From [m] to [m'] only objects that satisfy [P] disappear. *)
Definition shrinks (P : Child → Prop) (m m' : gmap ObjKey Child) : Prop :=
  ∀ key, m' !! key = m !! key ∨
    (m' !! key = None ∧ ∃ c, m !! key = Some c ∧ c_Key c = key ∧ P c).

#[export] Instance shrinks_preorder P : PreOrder (shrinks P).
Proof.
  split.
  - intros m key. by left.
  - intros m1 m2 m3 H12 H23 key.
    destruct (H12 key) as [E12|[E12 ?]], (H23 key) as [E23|[E23 (c & Hc & ?)]];
      rewrite ?E12 in *; eauto; congruence.
Qed.
Lemma shrinks_mono (P Q : Child → Prop) m m' :
  (∀ c, P c → Q c) → shrinks P m m' → shrinks Q m m'.
Proof. intros HPQ Hs key. destruct (Hs key) as [?|(? & c & ? & ? & ?)]; eauto 10. Qed.

Lemma shrinks_lookup P m m' key c : shrinks P m m' → m' !! key = Some c → m !! key = Some c.
Proof. intros Hs Hc. destruct (Hs key) as [<-|[Hn _]]; [done|congruence]. Qed.

Section cleanup.
Context {E : Type} `{ChildStore E} `{GoLibs}.
Implicit Types (s : St E).

(** The state of a cleanup: the log grew by [k], the store shrank, and
    unless a call was refused no object of [kinds] remains. *)
Definition cleaned labels ns kinds (done : Child → Prop) s0 s : Prop :=
  s_rec s = s_rec s0 ∧ shrinks (cleanable labels ns kinds) (children (s_env s0)) (children (s_env s)) ∧
  ∃ k, s_log s = s_log s0 ++ k ∧
    (Forall (λ c, ¬ refused c) k →
     ∀ c, done c → children (s_env s) !! c_Key c ≠ Some c).

Lemma cleanupItems_wp labels ns kd items s :
  (∀ c, c ∈ items → children (s_env s) !! c_Key c = Some c ∧
     cleanable labels ns [kd] c) →
  wp (foldM (λ _ item, deleteChild kd (c_NN item);; mret tt) tt items)
    (λ _ s', cleaned labels ns [kd] (λ c, c ∈ items) s s') (λ _, False) s.
Proof.
  intros Hitems.
  apply (wp_foldM _ (λ dn _ s', cleaned labels ns [kd] (λ c, c ∈ dn) s s')).
  2:{ split_and!; [done|reflexivity|]. exists []. rewrite app_nil_r. split; [done|].
      intros _ c. by rewrite elem_of_nil. }
  intros dn c todo [] s' -> (Hr & Hsh & k & Hk & Hdone).
  apply wp_bind, wp_kcall. intros r e Hop. apply wp_ret. apply deleteChild_law in Hop.
  destruct (Hitems c) as [Hc Hcl]; [set_solver|].
  assert (c_Key c = (kd, c_NN c)) as Hkey.
  { unfold c_Key. f_equal. destruct Hcl as [Hkd _]. by apply list_elem_of_singleton in Hkd. }
  assert (shrinks (cleanable labels ns [kd]) (children (s_env s')) (children e)) as Hstep.
  { destruct r as [u|err]; [|destruct Hop as [-> _]; reflexivity]. rewrite Hop. intros key.
    destruct (decide (key = (kd, c_NN c))) as [->|Hne].
    - rewrite lookup_delete_eq. destruct (children (s_env s') !! (kd, c_NN c)) as [c'|] eqn:Hc'.
      + right. split; [done|]. eapply shrinks_lookup in Hc'; [|exact Hsh].
        rewrite <-Hkey, Hc in Hc'. injection Hc' as <-. eauto.
      + by left.
    - left. by apply lookup_delete_ne. }
  split_and!; [done|by etransitivity|]. simpl. exists (k ++ [CDeleteChild kd (c_NN c) r]).
  rewrite Hk, <-app_assoc. split; [done|].
  intros [Hf Hf1]%Forall_app c' [Hc'|Hc'%list_elem_of_singleton]%elem_of_app Hlk.
  - eapply (Hdone Hf c' Hc'), shrinks_lookup; [exact Hstep|exact Hlk].
  - subst c'. rewrite Hkey in Hlk. apply Forall_cons in Hf1 as [Hnr _]. simpl in Hnr.
    destruct r as [u|err]; [by rewrite Hop, lookup_delete_eq in Hlk|].
    destruct Hop as [Heq Hnf]. rewrite Heq in Hlk.
    destruct (IsNotFound err); [|done]. by rewrite Hnf in Hlk.
Qed.

Lemma cleanupKind_wp labels ns kd s :
  wp (cleanupKind labels ns kd)
    (λ _ s', cleaned labels ns [kd] (cleanable labels ns [kd]) s s') (λ _, False) s.
Proof.
  unfold cleanupKind. apply wp_bind, wp_kcall. intros r e Hop.
  apply listChildren_law in Hop as [He Hr]. destruct r as [items|err].
  - eapply wp_mono; [apply (cleanupItems_wp labels ns)| |done].
    + simpl. rewrite He. intros c [? (? & ? & ?)]%Hr. split; [done|]. unfold cleanable.
      by rewrite list_elem_of_singleton.
    + simpl. intros _ s' (Hrec & Hsh & k & Hk & Hdone). simpl in *. rewrite He in Hsh.
      split_and!; [done|done|]. eexists (_ :: k). rewrite Hk, <-app_assoc. split; [done|].
      intros [_ Hf]%Forall_cons c (Hkd & Hns & Hl) Hlk. apply list_elem_of_singleton in Hkd.
      eapply Hdone; [done| |exact Hlk]. apply Hr. split_and!; [|done..].
      by eapply shrinks_lookup.
  - apply wp_ret. split_and!; simpl; [done|by rewrite He|]. eexists. split; [done|].
    intros [Hnr _]%Forall_cons. by destruct Hnr.
Qed.

Lemma cleaned_seq labels ns ks1 ks2 s0 s1 s2 :
  cleaned labels ns ks1 (cleanable labels ns ks1) s0 s1 →
  cleaned labels ns ks2 (cleanable labels ns ks2) s1 s2 →
  cleaned labels ns (ks1 ++ ks2) (cleanable labels ns (ks1 ++ ks2)) s0 s2.
Proof.
  intros (Hr1 & Hs1 & k1 & Hk1 & Hd1) (Hr2 & Hs2 & k2 & Hk2 & Hd2). split_and!.
  - congruence.
  - etransitivity; eapply shrinks_mono; [|exact Hs1| |exact Hs2]; unfold cleanable; set_solver.
  - exists (k1 ++ k2). rewrite Hk2, Hk1, app_assoc. split; [done|].
    intros [Hf1 Hf2]%Forall_app c ([Hkd|Hkd]%elem_of_app & ? & ?) Hlk.
    + apply (Hd1 Hf1 c); [done|]. by eapply shrinks_lookup.
    + by apply (Hd2 Hf2 c).
Qed.

Lemma cleanupOwnedResources_wp route s :
  wp (cleanupOwnedResources route) (λ e s', e = None ∧
    cleaned (managedLabels route) (gatewayRef route).2
      [KDestinationRule; KEnvoyFilter; KRequestAuthentication; KAuthorizationPolicy]
      (cleanable (managedLabels route) (gatewayRef route).2
        [KDestinationRule; KEnvoyFilter; KRequestAuthentication; KAuthorizationPolicy]) s s')
    (λ _, False) s.
Proof.
  unfold cleanupOwnedResources. destruct (gatewayRef route) as [gwName gwNs]. simpl.
  apply wp_bind. eapply wp_mono; [apply cleanupKind_wp| |done]. intros [] s1 Hs1.
  apply wp_bind. eapply wp_mono; [apply cleanupKind_wp| |done]. intros [] s2 Hs2.
  apply wp_bind. eapply wp_mono; [apply cleanupKind_wp| |done]. intros [] s3 Hs3.
  apply wp_bind. eapply wp_mono; [apply cleanupKind_wp| |done]. intros [] s4 Hs4.
  apply wp_ret. split; [done|].
  apply (cleaned_seq _ _ [_; _; _] [_] _ s3); [|done].
  apply (cleaned_seq _ _ [_; _] [_] _ s2); [|done].
  by apply (cleaned_seq _ _ [_] [_] _ s1).
Qed.
End cleanup.

(** ** One object *)

Section upsert.
Context {E : Type} `{ChildStore E} `{GoLibs}.
Implicit Types (s : St E).

(** The store after an attempt to write [d] with outcome [e]: nothing but the
    key of [d] changed, and it holds [d] unless an error was reported, in
    which case nothing changed; an update carries the version just read. *)
Definition upserted (d : Child) (e : option error) s s' : Prop :=
  s_rec s' = s_rec s ∧
  (∀ key, key ≠ c_Key d → children (s_env s') !! key = children (s_env s) !! key) ∧
  match e with
  | None => ∃ c c', same_object d c ∧ stored_as c c' ∧ children (s_env s') !! c_Key d = Some c'
  | Some _ => children (s_env s') = children (s_env s)
  end ∧
  ∃ k, s_log s' = s_log s ++ k ∧ ∀ c r, CUpdateChild c r ∈ k →
    ∃ old, children (s_env s) !! c_Key d = Some old ∧
      m_ResourceVersion (c_Meta c) = m_ResourceVersion (c_Meta old).

Lemma upserted_nothing d e s : upserted d (Some e) s s.
Proof.
  split_and!; [done..|]. exists []. rewrite app_nil_r. split; [done|].
  by intros c r ?%elem_of_nil.
Qed.

Lemma stored_upserted (d c : Child) (e : option error) (m m' : gmap ObjKey Child) :
  same_object d c →
  match e with
  | None => ∃ c', stored_as c c' ∧ m' = <[c_Key c := c']> m
  | Some _ => m' = m
  end →
  (∀ key, key ≠ c_Key d → m' !! key = m !! key) ∧
  match e with
  | None => ∃ c c', same_object d c ∧ stored_as c c' ∧ m' !! c_Key d = Some c'
  | Some _ => m' = m
  end.
Proof.
  intros Hs. destruct e; [by intros ->|]. intros (c' & Hst & ->).
  rewrite (same_object_key d c) by done. split.
  - intros key Hk. by rewrite lookup_insert_ne.
  - exists c, c'. by rewrite lookup_insert_eq.
Qed.

Lemma createOrUpdateCrossNS_wp d c s :
  same_object d c → wp (createOrUpdateCrossNS c) (λ e s', upserted d e s s') (λ _, False) s.
Proof.
  intros Hsame. unfold createOrUpdateCrossNS. apply wp_bind, wp_kcall.
  intros existing e1 Hget. apply getChild_law in Hget as [He1 Hget].
  assert (∀ c2 entry (r : result unit) e2, same_object d c2 →
    match r with
    | Ok _ => ∃ c', stored_as c2 c' ∧ children e2 = <[c_Key c2 := c']> (children e1)
    | Err _ => children e2 = children e1
    end →
    (∀ c0 r0, CUpdateChild c0 r0 = entry → ∃ old, children (s_env s) !! c_Key d = Some old ∧
       m_ResourceVersion (c_Meta c0) = m_ResourceVersion (c_Meta old)) →
    upserted d (errOf r) s (mkSt e2 (s_rec s)
      ((s_log s ++ [CGetChild (c_Kind c) (c_NN c) existing]) ++ [entry]))) as Hout.
  { intros c2 entry r e2 Hs2 Hr Hup.
    assert (match errOf r with
            | None => ∃ c', stored_as c2 c' ∧ children e2 = <[c_Key c2 := c']> (children (s_env s))
            | Some _ => children e2 = children (s_env s) end) as Hr'
      by (rewrite <-He1; by destruct r).
    destruct (stored_upserted d c2 _ _ _ Hs2 Hr') as [Hfr Hw]. split_and!; [done..|].
    eexists. rewrite <-app_assoc. split; [done|]. intros c0 r0.
    rewrite elem_of_app, !list_elem_of_singleton. intros [?|Heq]; [done|eauto]. }
  destruct existing as [existing|err]; [|destruct (IsNotFound err)].
  - apply wp_bind, wp_kcall. intros r e2 Hop. apply wp_ret. apply updateChild_law in Hop.
    eapply Hout; [|exact Hop|].
    + by etransitivity; [exact Hsame|].
    + intros c0 r0 [= -> ->]. exists existing. split; [|done].
      change (children (s_env s) !! c_Key c = Some existing) in Hget.
      by rewrite <-(same_object_key d c).
  - apply wp_bind, wp_kcall. intros r e2 Hop. apply wp_ret. apply createChild_law in Hop.
    eapply Hout; [exact Hsame|exact Hop|done].
  - apply wp_ret. split_and!; simpl; [done|by rewrite He1|done|]. eexists. split; [done|].
    by intros c0 r0 ?%list_elem_of_singleton.
Qed.
End upsert.

Section claims.
Context {E : Type} `{ChildStore E} `{GoLibs}.
Implicit Types (s : St E).

(** C23: [createOrUpdate] and [createOrUpdateCrossNS] never panic.  When they
    return nil the cluster holds the object, for [createOrUpdate] with the
    owner reference of the route, under its key; when they return an error the
    cluster is as before; no other object ever changes, and an update carries
    the resource version of the object it replaces.  If the reference cannot be
    set, [createOrUpdate] returns that error and calls nothing. *)
Theorem createOrUpdate_correct `{!OwnerLaws} route obj s :
  (∃ e s', createOrUpdateCrossNS obj s = (Ret e, s') ∧ upserted obj e s s') ∧
  match SetControllerReference route obj with
  | Ok c =>
      c_Key c = c_Key obj ∧
      ∃ e s', createOrUpdate route obj s = (Ret e, s') ∧ upserted c e s s'
  | Err err => createOrUpdate route obj s = (Ret (Some err), s)
  end.
Proof.
  assert (∀ c, ∃ e s', createOrUpdateCrossNS c s = (Ret e, s') ∧ upserted c e s s') as Hwrite.
  { intros c. pose proof (createOrUpdateCrossNS_wp c c s (reflexivity c)) as Hwp. unfold wp in Hwp.
    destruct (createOrUpdateCrossNS c s) as [[e|] s']; [eauto|done]. }
  split; [apply Hwrite|]. unfold createOrUpdate.
  destruct (SetControllerReference route obj) as [c|err] eqn:Hset; [|done].
  split; [by eapply SetControllerReference_key|apply Hwrite].
Qed.

(** C24: [cleanupOwnedResources] never panics and always returns nil; it
    only removes objects of the four cross-namespace kinds, in the Gateway's
    namespace, with the route's labels, and touches nothing else; and if the
    API server refused none of its calls, none of those objects remains.
    (After refused calls it still returns nil: [ex_cleanup_refused].) *)
Theorem cleanupOwnedResources_correct route s :
  let kinds := [KDestinationRule; KEnvoyFilter; KRequestAuthentication; KAuthorizationPolicy] in
  let doomed := cleanable (managedLabels route) (gatewayRef route).2 kinds in
  ∃ s' k, cleanupOwnedResources route s = (Ret None, s') ∧ s_log s' = s_log s ++ k ∧
    s_rec s' = s_rec s ∧
    shrinks doomed (children (s_env s)) (children (s_env s')) ∧
    (Forall (λ c, ¬ refused c) k →
     ∀ c, doomed c → children (s_env s') !! c_Key c ≠ Some c).
Proof.
  intros kinds doomed. pose proof (cleanupOwnedResources_wp route s) as Hwp. unfold wp in Hwp.
  destruct (cleanupOwnedResources route s) as [[e|] s']; [|done].
  destruct Hwp as (-> & Hr & Hs & k & Hk & Hd). eauto 10.
Qed.
End claims.

(** ** Witnesses *)

Definition ex_route : Route :=
  mkRoute (newMeta "app" "demo" ∅) (mkSpec [] None "" "" None None None None None None)
    (mkStatus "" [] 0).
Definition ex_rule : Child := newDestinationRule ex_route 0 (mkBackend "app" 443 "HTTPS").
Definition ex_state (denied : gset ObjKey) : St Mem :=
  mkSt (mkMem ∅ ∅ ∅ ∅ ∅ {[c_Key ex_rule := ex_rule]} 0 [] 1 denied ∅)
    (mkReconciler false false None None) [].

Example ex_cleanup :
  mem_children (s_env (cleanupOwnedResources ex_route (ex_state ∅)).2) = ∅.
Proof. by vm_compute. Qed.
(** A refused delete: nil is returned, and the object stays. *)
Example ex_cleanup_refused :
  let run := cleanupOwnedResources ex_route (ex_state {[c_Key ex_rule]}) in
  run.1 = Ret None ∧ bool_decide (is_Some (mem_children (s_env run.2) !! c_Key ex_rule)) = true.
Proof. vm_compute. by split. Qed.

Lemma createOrUpdate_correct_witness :
  let c := set_Owners [controllerRef ex_route] ex_rule in
  (∃ e s', createOrUpdateCrossNS ex_rule (ex_state ∅) = (Ret e, s') ∧
     upserted ex_rule e (ex_state ∅) s') ∧
  c_Key c = c_Key ex_rule ∧
  ∃ e s', createOrUpdate ex_route ex_rule (ex_state ∅) = (Ret e, s') ∧
    upserted c e (ex_state ∅) s'.
Proof. exact (createOrUpdate_correct ex_route ex_rule (ex_state ∅)). Defined.
End Children.
