(* ===== verification/Schema.v ===== *)
(** * The schema of the custom resource (the markers of route_types.go)

    The [+kubebuilder] markers say which specs the API server accepts and which
    omitted fields it fills in.  Here they are as functions, and two theorems
    connect them with the controller: what the schema accepts can be built, and
    the controller reads an omitted field as its default. *)
From S2P Require Import Prelude GoStd GoTime RouteTypes Objects Env Mem Store Common.
From S2P Require Import Conflicts Builders Canary Children.
Local Open Scope Z_scope.

Module Schema.
Import Builders.Builders Canary.Canary Children.Children.

(** ** Validation: [Enum], [Minimum], [Maximum], [MinItems], and int32

    Of a spec with its defaults, which the API server fills in first. *)

Definition is_int32 (n : Z) : bool := (- 2 ^ 31 <=? n) && (n <? 2 ^ 31).
Definition int32_from (lo n : Z) : bool := is_int32 n && (lo <=? n).
Definition optional {A} (p : A → bool) (o : option A) : bool :=
  match o with Some x => p x | None => true end.

Definition valid_backend (b : RouteBackend) : bool :=
  is_int32 (be_ServicePort b) && bool_decide (be_Protocol b ∈ ["HTTP"; "HTTPS"]).
Definition valid_rule (rule : RouteRule) : bool := valid_backend (rr_Backend rule).
Definition valid_retries (retries : RouteRetries) : bool := int32_from 0 (re_Attempts retries).
Definition valid_rateLimit (rl : RouteRateLimit) : bool :=
  int32_from 1 (rl_RequestsPerUnit rl) &&
  bool_decide (rl_Unit rl ∈ ["Second"; "Minute"; "Hour"]) && optional (int32_from 1) (rl_Burst rl).
Definition valid_rollback (policy : RouteCanaryRollback) : bool :=
  int32_from 1 (rb_FiveXXThreshold policy) &&
  optional (int32_from 5) (rb_IntervalSeconds policy) &&
  optional (int32_from 10) (rb_CooldownSeconds policy).
Definition valid_canary (canary : RouteCanary) : bool :=
  valid_backend (ca_Backend canary) && int32_from 1 (ca_Weight canary) &&
  (ca_Weight canary <=? 99) && optional valid_rollback (ca_RollbackOn5xx canary).
Definition valid_spec (spec : RouteSpec) : bool :=
  nonempty (rs_Rules spec) && forallb valid_rule (rs_Rules spec) &&
  optional valid_retries (rs_Retries spec) && optional valid_rateLimit (rs_RateLimit spec) &&
  optional valid_canary (rs_Canary spec).

(** ** Defaulting: [+kubebuilder:default]

    A field without value is the empty string here, as in the Go structs, whose
    [omitempty] leaves it out of the request. *)

Definition or_default (s dflt : string) : string := if bool_decide (s = "") then dflt else s.

Definition default_backend (b : RouteBackend) : RouteBackend :=
  mkBackend (be_ServiceName b) (be_ServicePort b) (or_default (be_Protocol b) "HTTP").
Definition default_rule (rule : RouteRule) : RouteRule :=
  mkRule (rr_Host rule) (or_default (rr_Path rule) "/") (default_backend (rr_Backend rule))
    (rr_Headers rule).
Definition default_cors (cors : RouteCORS) : RouteCORS :=
  mkCORS (co_AllowOrigins cors) (co_AllowMethods cors) (co_AllowHeaders cors)
    (or_default (co_MaxAge cors) "24h").
Definition default_gateway (gw : RouteGateway) : RouteGateway :=
  mkGateway (or_default (rg_Name gw) "istio-gateway") (or_default (rg_Namespace gw) "istio-system").
Definition default_canary (canary : RouteCanary) : RouteCanary :=
  mkCanary (default_backend (ca_Backend canary)) (ca_Weight canary) (ca_RollbackOn5xx canary).
Definition default_spec (spec : RouteSpec) : RouteSpec :=
  mkSpec (default_rule <$> rs_Rules spec) (Some (default true (rs_SSLRedirect spec)))
    (rs_Timeout spec) (rs_MaxBodySize spec) (default_cors <$> rs_CORS spec)
    (default_gateway <$> rs_Gateway spec) (rs_Retries spec) (rs_Auth spec) (rs_RateLimit spec)
    (default_canary <$> rs_Canary spec).
Definition with_defaults (r : Route) : Route :=
  mkRoute (r_Meta r) (default_spec (r_Spec r)) (r_Status r).

(** A policy whose [maxAge] is given. *)
Definition has_maxAge (spec : RouteSpec) : bool :=
  optional (λ cors, negb (bool_decide (co_MaxAge cors = ""))) (rs_CORS spec).

(** ** Lemmas *)

Lemma int32_from_spec lo n : int32_from lo n = true ↔ isInt32 n ∧ lo <= n.
Proof. unfold int32_from, is_int32, isInt32. rewrite !andb_true_iff. lia. Qed.

Lemma or_default_idem s d : d ≠ "" → or_default (or_default s d) d = or_default s d.
Proof. intros Hd. unfold or_default. repeat case_bool_decide; congruence. Qed.

(** Defaulting completes what validation requires of omitted fields, and
    changes nothing the second time. *)
Lemma default_spec_idem spec : default_spec (default_spec spec) = default_spec spec.
Proof.
  destruct spec as [rules ssl t mb cors gw re au rl ca]. unfold default_spec. simpl. f_equal.
  - rewrite <-list_fmap_compose. apply list_fmap_ext. intros _ rule _. simpl.
    unfold default_rule, default_backend. simpl. by rewrite !or_default_idem.
  - destruct cors as [c|]; [|done]. simpl. unfold default_cors. simpl. by rewrite or_default_idem.
  - destruct gw as [g|]; [|done]. simpl. unfold default_gateway. simpl. by rewrite !or_default_idem.
  - destruct ca as [c|]; [|done]. simpl. unfold default_canary, default_backend. simpl.
    by rewrite or_default_idem.
Qed.

Lemma gatewayRef_defaults r : gatewayRef (with_defaults r) = gatewayRef r.
Proof.
  unfold gatewayRef, with_defaults. simpl. destruct (rs_Gateway (r_Spec r)) as [gw|]; [|done].
  simpl. unfold or_default. repeat case_bool_decide; naive_solver.
Qed.

Lemma path_defaults rule :
  (if bool_decide (rr_Path (default_rule rule) = "") then "/" else rr_Path (default_rule rule)) =
  (if bool_decide (rr_Path rule = "") then "/" else rr_Path rule).
Proof. simpl. unfold or_default. repeat case_bool_decide; done. Qed.
Lemma authzPathPattern_defaults path : authzPathPattern (or_default path "/") = authzPathPattern path.
Proof. unfold or_default. by case_bool_decide; subst. Qed.
Lemma isHTTPS_defaults b : isHTTPS (default_backend b) = isHTTPS b.
Proof. unfold isHTTPS, default_backend, or_default. simpl. by repeat case_bool_decide. Qed.

Lemma uniqueHosts_defaults rules :
  uniqueHostsFromRules (default_rule <$> rules) = uniqueHostsFromRules rules.
Proof.
  unfold uniqueHostsFromRules. generalize (∅ : gset string), ([] : list string).
  induction rules as [|rule rules IH]; intros seen hosts; [done|]. simpl. by case_bool_decide.
Qed.

Lemma httpsBackends_defaults r canary :
  httpsBackends (with_defaults r) (default_canary <$> canary) =
  default_backend <$> httpsBackends r canary.
Proof.
  unfold httpsBackends. simpl. induction (rs_Rules (r_Spec r)) as [|rule rules IH]; [done|].
  rewrite fmap_cons, !bind_cons, !filter_app, fmap_app, IH. f_equal.
  transitivity (filter (λ b, isHTTPS b = true) (default_backend <$> routeRuleBackends rule canary)).
  { by destruct canary. }
  induction (routeRuleBackends rule canary) as [|b bs IHb]; [done|].
  rewrite fmap_cons, !filter_cons, isHTTPS_defaults. case_decide; [|done].
  by rewrite fmap_cons, IHb.
Qed.

(** Loops over the rules, or over what is computed from them. *)
Lemma indexed_fmap {A B C} (f : nat → B → C) (g : A → B) (l : list A) :
  (λ '(i, x), f i x) <$> indexed (g <$> l) = (λ '(i, x), f i (g x)) <$> indexed l.
Proof.
  unfold indexed. rewrite !fmap_imap, imap_fmap. by apply imap_ext.
Qed.
Lemma indexed_ext {A C} (f g : nat → A → C) (l : list A) :
  (∀ i x, f i x = g i x) → (λ '(i, x), f i x) <$> indexed l = (λ '(i, x), g i x) <$> indexed l.
Proof. intros Hfg. apply list_fmap_ext. intros _ [i x] _. apply Hfg. Qed.

Section builders.
Context `{GoLibs}.

Lemma HTTPRoute_defaults r i rule canary :
  newHTTPRoute (with_defaults r) i (default_rule rule) (default_canary <$> canary) =
  newHTTPRoute r i rule canary.
Proof.
  unfold newHTTPRoute. rewrite gatewayRef_defaults, path_defaults.
  destruct (gatewayRef r). by destruct canary.
Qed.
Lemma redirect_defaults r i host :
  newRedirectHTTPRoute (with_defaults r) i host = newRedirectHTTPRoute r i host.
Proof. unfold newRedirectHTTPRoute. rewrite gatewayRef_defaults. by destruct (gatewayRef r). Qed.

Lemma istioHTTPRoute_defaults r canary rule :
  has_maxAge (r_Spec r) = true →
  istioHTTPRoute (with_defaults r) (default_canary <$> canary) (default_rule rule) =
  istioHTTPRoute r canary rule.
Proof.
  intros Hage. unfold istioHTTPRoute. rewrite path_defaults. f_equal.
  - by destruct canary.
  - unfold has_maxAge in Hage. simpl. destruct (rs_CORS (r_Spec r)) as [cors|]; [|done].
    simpl in *. f_equal. apply negb_true_iff, bool_decide_eq_false in Hage.
    unfold buildCorsPolicy, default_cors, or_default. simpl.
    by rewrite (bool_decide_eq_false_2 (co_MaxAge cors = "")) by done.
Qed.
Lemma VirtualService_defaults r canary :
  has_maxAge (r_Spec r) = true →
  newVirtualService (with_defaults r) (default_canary <$> canary) = newVirtualService r canary.
Proof.
  intros Hage. unfold newVirtualService. rewrite gatewayRef_defaults.
  destruct (gatewayRef r) as [gwName gwNs]. simpl. rewrite uniqueHosts_defaults.
  do 3 f_equal. rewrite <-list_fmap_compose. apply list_fmap_ext. intros _ rule _.
  by apply istioHTTPRoute_defaults.
Qed.
Lemma DestinationRule_defaults r i b :
  newDestinationRule (with_defaults r) i (default_backend b) = newDestinationRule r i b.
Proof. unfold newDestinationRule. rewrite gatewayRef_defaults. by destruct (gatewayRef r). Qed.
Lemma EnvoyFilter_defaults {St} r i rule :
  newEnvoyFilter (St:=St) (with_defaults r) i (default_rule rule) = newEnvoyFilter r i rule.
Proof. unfold newEnvoyFilter. rewrite gatewayRef_defaults. by destruct (gatewayRef r). Qed.
Lemma RequestAuthentication_defaults r auth :
  newRequestAuthentication (with_defaults r) auth = newRequestAuthentication r auth.
Proof. unfold newRequestAuthentication. rewrite gatewayRef_defaults. by destruct (gatewayRef r). Qed.
Lemma AuthorizationPolicy_defaults r :
  newAuthorizationPolicy (with_defaults r) = newAuthorizationPolicy r.
Proof.
  unfold newAuthorizationPolicy. rewrite gatewayRef_defaults.
  destruct (gatewayRef r). do 3 f_equal. unfold buildAuthorizationPolicyRules. simpl.
  rewrite <-list_fmap_compose. apply list_fmap_ext. intros _ rule _. simpl.
  by rewrite authzPathPattern_defaults.
Qed.
Lemma rateLimit_defaults {St} r rl :
  newRateLimitEnvoyFilter (St:=St) (with_defaults r) rl = newRateLimitEnvoyFilter r rl.
Proof.
  unfold newRateLimitEnvoyFilter. rewrite gatewayRef_defaults. simpl.
  by rewrite uniqueHosts_defaults.
Qed.
Lemma wantsVirtualService_defaults r canary :
  wantsVirtualService (with_defaults r) (default_canary <$> canary) = wantsVirtualService r canary.
Proof. unfold wantsVirtualService. simpl. by destruct (rs_CORS _), canary. Qed.

Context `{!OwnerLaws}.
Lemma owned_defaults r c : owned (with_defaults r) c = owned r c.
Proof. unfold owned. f_equal. by apply SetControllerReference_nn. Qed.

(** C22: the controller reads an omitted field as the default that the schema
    declares for it: with the defaults of [+kubebuilder:default] filled in, a
    Route calls for exactly the same objects, owner references included, and
    retires the same, provided that a CORS policy states its [maxAge].  (With
    a policy that does not, the controller sets no max age where the schema
    says a day: [ex_maxAge].) *)
Theorem schema_defaults_agree r canary :
  has_maxAge (r_Spec r) = true →
  desired (with_defaults r) (default_canary <$> canary) = desired r canary ∧
  retired (with_defaults r) = retired r ∧ gatewayRef (with_defaults r) = gatewayRef r.
Proof.
  intros Hage. split_and!; [|unfold retired, retired_auth, retired_rateLimit;
    by rewrite gatewayRef_defaults|apply gatewayRef_defaults].
  unfold desired. f_equal; [|f_equal; [|f_equal; [|f_equal; [|f_equal; [|f_equal]]]]].
  - unfold want_routes. simpl. rewrite (indexed_fmap (λ i rule, owned _ (newHTTPRoute _ i rule _))).
    apply indexed_ext. intros i rule. by rewrite owned_defaults, HTTPRoute_defaults.
  - unfold want_redirects. simpl. rewrite uniqueHosts_defaults.
    replace (wantsRedirect (with_defaults r)) with (wantsRedirect r)
      by (unfold wantsRedirect; simpl; by destruct (rs_SSLRedirect _)).
    destruct (wantsRedirect r); [|done]. apply (indexed_ext (λ i host, owned _ _)).
    intros i host. by rewrite owned_defaults, redirect_defaults.
  - unfold want_virtualService. rewrite wantsVirtualService_defaults.
    by rewrite owned_defaults, VirtualService_defaults.
  - unfold want_destinationRules. rewrite httpsBackends_defaults.
    rewrite (indexed_fmap (λ i b, object (newDestinationRule _ i b))).
    apply indexed_ext. intros i b. by rewrite DestinationRule_defaults.
  - unfold want_bodySizes. simpl. case_bool_decide; [|done].
    rewrite (indexed_fmap (λ i rule, built (newEnvoyFilter _ i rule))).
    apply indexed_ext. intros i rule. by rewrite EnvoyFilter_defaults.
  - unfold want_auth. simpl. destruct (rs_Auth _); [|done].
    by rewrite RequestAuthentication_defaults, AuthorizationPolicy_defaults.
  - unfold want_rateLimit. simpl. destruct (rs_RateLimit _); [|done]. by rewrite rateLimit_defaults.
Qed.

Lemma valid_spec_canary r canary :
  valid_spec (r_Spec r) = true → rs_Canary (r_Spec r) = Some canary →
  (int32 (100 - ca_Weight canary) = 100 - ca_Weight canary ∧ 1 <= 100 - ca_Weight canary <= 99) ∧
  ∀ policy, ca_RollbackOn5xx canary = Some policy →
    1 <= rb_FiveXXThreshold policy ∧
    (∀ n, rb_IntervalSeconds policy = Some n →
       secondsOr (Some n) defaultCanaryProbeInterval = n * Second ∧ 5 <= n) ∧
    (∀ n, rb_CooldownSeconds policy = Some n →
       secondsOr (Some n) defaultCanaryCooldown = n * Second ∧ 10 <= n).
Proof.
  unfold valid_spec. intros [_ Hv]%andb_true_iff Hca. rewrite Hca in Hv. simpl in Hv.
  unfold valid_canary in Hv. rewrite !andb_true_iff in Hv. destruct Hv as [[[_ Hlo] Hhi] Hp].
  apply int32_from_spec in Hlo as [_ Hlo]. apply Z.leb_le in Hhi. split.
  { rewrite int32_id by (unfold isInt32; lia). lia. }
  intros policy Hpol. rewrite Hpol in Hp. simpl in Hp. unfold valid_rollback in Hp.
  rewrite !andb_true_iff in Hp. destruct Hp as [[[_ Ht]%int32_from_spec Hi] Hc]. split; [done|].
  split; intros n Hs; [rewrite Hs in Hi; apply int32_from_spec in Hi as []
    |rewrite Hs in Hc; apply int32_from_spec in Hc as []];
    (split; [by apply secondsOr_exact|done]).
Qed.

(** [maxBodySize] is omitted, or the decimal digits of a number below 2^32. *)
Definition good_bodySize (size : string) : Prop :=
  size = "" ∨ all_digits size = true ∧ decimal_from 0 size < 2 ^ 32.

Lemma valid_rateLimit_unit rl :
  valid_rateLimit rl = true → ∃ fi, rateLimitFillInterval (rl_Unit rl) = Ok fi.
Proof.
  unfold valid_rateLimit. rewrite !andb_true_iff. intros [[_ Hu%bool_decide_eq_true] _].
  unfold rateLimitFillInterval. repeat (case_bool_decide; [by eexists|]). set_solver.
Qed.

(** The builders that can fail do not. *)
Lemma valid_builds `{!StructLaws} r canary o :
  valid_spec (r_Spec r) = true → ValidString (r_Name r) = true →
  (∀ rule, rule ∈ rs_Rules (r_Spec r) → ValidString (rr_Host rule) = true) →
  good_bodySize (rs_MaxBodySize (r_Spec r)) →
  o ∈ desired r canary → ∃ d, o = Ret (Ok d) ∨ o = owned r d.
Proof.
  intros Hv Hn Hh Hb Hin. unfold desired, want_routes, want_redirects, want_virtualService,
    want_destinationRules, want_bodySizes, want_auth, want_rateLimit in Hin.
  rewrite !elem_of_app in Hin. destruct_or! Hin.
  - apply list_elem_of_fmap in Hin as ([i x] & -> & _). eauto.
  - destruct (wantsRedirect r); [|by apply elem_of_nil in Hin].
    apply list_elem_of_fmap in Hin as ([i x] & -> & _). eauto.
  - destruct (wantsVirtualService r canary); [|by apply elem_of_nil in Hin].
    apply list_elem_of_singleton in Hin as ->. eauto.
  - apply list_elem_of_fmap in Hin as ([i x] & -> & _). unfold object. eauto.
  - case_bool_decide as Hs; [|by apply elem_of_nil in Hin].
    apply list_elem_of_fmap in Hin as ([i rule] & -> & _). destruct Hb as [Hb|[Hd Hb]]; [done|].
    pose proof (newEnvoyFilter_spec (St:=unit) r i rule tt) as Hspec.
    assert (ParseUint (rs_MaxBodySize (r_Spec r)) 32 =
      inr (decimal_from 0 (rs_MaxBodySize (r_Spec r)))) as Hp
      by (apply ParseUint_spec; [lia|split_and!; [done..|lia]]).
    rewrite Hp in Hspec. destruct Hspec as (c & v & Hrun & _). unfold built. rewrite Hrun. eauto.
  - destruct (rs_Auth (r_Spec r)); [|by apply elem_of_nil in Hin].
    apply elem_of_cons in Hin as [->| ->%list_elem_of_singleton]; unfold object; eauto.
  - destruct (rs_RateLimit (r_Spec r)) as [rl|] eqn:Hrl; [|by apply elem_of_nil in Hin].
    apply list_elem_of_singleton in Hin as ->. unfold valid_spec in Hv.
    rewrite Hrl, !andb_true_iff in Hv. destruct Hv as [[_ Hu] _].
    destruct (valid_rateLimit_unit rl Hu) as [fi Hfi].
    pose proof (newRateLimitEnvoyFilter_spec (St:=unit) r rl tt Hn Hh) as Hspec.
    rewrite Hfi in Hspec. destruct Hspec as (c & first & ps & Hrun & _).
    unfold built. rewrite Hrun. eauto.
Qed.

(** C21: of a spec that the schema accepts, whose Route's name and hosts are
    valid UTF-8 and whose [maxBodySize] is a number (which the schema does not
    check: [ex_bodySize]), every object can be built, under any canary: none
    of the builders panics or returns an error, and only setting an owner
    reference is left to the library.  And the percentages and seconds of its
    canary fit the arithmetic of the controller: the primary backend keeps
    between 1 and 99 percent, and interval and cooldown are the seconds given. *)
Theorem valid_spec_builds `{!StructLaws} r :
  valid_spec (r_Spec r) = true →
  ValidString (r_Name r) = true →
  (∀ rule, rule ∈ rs_Rules (r_Spec r) → ValidString (rr_Host rule) = true) →
  good_bodySize (rs_MaxBodySize (r_Spec r)) →
  (∀ canary o, o ∈ desired r canary → ∃ d, o = Ret (Ok d) ∨ o = owned r d) ∧
  ∀ canary, rs_Canary (r_Spec r) = Some canary →
    (int32 (100 - ca_Weight canary) = 100 - ca_Weight canary ∧
     1 <= 100 - ca_Weight canary <= 99) ∧
    ∀ policy, ca_RollbackOn5xx canary = Some policy →
      1 <= rb_FiveXXThreshold policy ∧
      (∀ n, rb_IntervalSeconds policy = Some n →
         secondsOr (Some n) defaultCanaryProbeInterval = n * Second ∧ 5 <= n) ∧
      (∀ n, rb_CooldownSeconds policy = Some n →
         secondsOr (Some n) defaultCanaryCooldown = n * Second ∧ 10 <= n).
Proof.
  intros Hv Hn Hh Hb. split; [intros canary o Ho; by eapply valid_builds|].
  intros canary Hca. by apply (valid_spec_canary r).
Qed.
End builders.

(** ** Witnesses *)

Definition ex_route (size maxAge : string) : Route :=
  mkRoute (newMeta "app" "demo" ∅)
    (mkSpec [mkRule "a.example" "" (mkBackend "app" 443 "HTTPS") None] None "" size
      (Some (mkCORS ["https://.*"] [] [] maxAge)) None None None (Some (mkRateLimit 5 "Second" None))
      (Some (mkCanary (mkBackend "next" 80 "HTTP") 10 (Some (mkRollback 3 "" (Some 5) None)))))
    (mkStatus "" [] 0).

(** The schema does not look at [maxBodySize]. *)
Example ex_bodySize :
  valid_spec (r_Spec (ex_route "1Mi" "24h")) = true ∧
  existsb (λ o, match o with Ret (Err _) => true | _ => false end)
    (desired (ex_route "1Mi" "24h") None) = true.
Proof. by vm_compute. Qed.

(** A CORS policy without [maxAge]: none, or the default's day. *)
Definition max_ages (c : Child) : list (option pbDuration) :=
  match c_Spec c with
  | SVirtualService vs => (λ h, ir_CorsPolicy h ≫= cp_MaxAge) <$> vs_Http vs
  | _ => []
  end.
Example ex_maxAge :
  max_ages (newVirtualService (ex_route "" "") None) = [None] ∧
  max_ages (newVirtualService (with_defaults (ex_route "" "")) None) = [Some (mkPbDuration 86400 0)].
Proof. by vm_compute. Qed.

Lemma schema_defaults_agree_witness :
  has_maxAge (r_Spec (ex_route "1024" "12h")) = true ∧
  desired (with_defaults (ex_route "1024" "12h")) None = desired (ex_route "1024" "12h") None ∧
  retired (with_defaults (ex_route "1024" "12h")) = retired (ex_route "1024" "12h") ∧
  gatewayRef (with_defaults (ex_route "1024" "12h")) = gatewayRef (ex_route "1024" "12h").
Proof.
  split; [reflexivity|]. exact (schema_defaults_agree (ex_route "1024" "12h") None eq_refl).
Defined.

Lemma valid_spec_builds_witness :
  let r := with_defaults (ex_route "1024" "12h") in
  valid_spec (r_Spec r) = true ∧
  (∀ canary o, o ∈ desired r canary → ∃ d, o = Ret (Ok d) ∨ o = owned r d) ∧
  ∀ canary, rs_Canary (r_Spec r) = Some canary →
    (int32 (100 - ca_Weight canary) = 100 - ca_Weight canary ∧
     1 <= 100 - ca_Weight canary <= 99) ∧
    ∀ policy, ca_RollbackOn5xx canary = Some policy →
      1 <= rb_FiveXXThreshold policy ∧
      (∀ n, rb_IntervalSeconds policy = Some n →
         secondsOr (Some n) defaultCanaryProbeInterval = n * Second ∧ 5 <= n) ∧
      (∀ n, rb_CooldownSeconds policy = Some n →
         secondsOr (Some n) defaultCanaryCooldown = n * Second ∧ 10 <= n).
Proof.
  split; [by vm_compute|].
  apply (valid_spec_builds (with_defaults (ex_route "1024" "12h"))).
  - by vm_compute.
  - by vm_compute.
  - intros rule Hr. apply list_elem_of_singleton in Hr as ->. by vm_compute.
  - right. split; [by vm_compute|vm_compute; reflexivity].
Defined.
End Schema.
