(* ===== verification/Keys.v ===== *)
(** * Names of the generated objects

    Every object a route generates has a role, which with the route determines
    its kind, namespace and name.  Within a route no two roles share a key;
    between routes the theorem [key_ownership] says exactly when they do. *)
From S2P Require Import Prelude GoStd GoTime RouteTypes Objects Env Mem Common.
From S2P Require Import Builders Children.

Module Keys.
Import Builders.Builders Children.Children.

Inductive role :=
| RRule (i : nat) | RRedirect (i : nat) | RVirtualService | RTLS (i : nat)
| RBodySize (i : nat) | RRateLimit | RJwt | RAuthz.

Definition role_kind (x : role) : Kind :=
  match x with
  | RRule _ | RRedirect _ => KHTTPRoute
  | RVirtualService => KVirtualService
  | RTLS _ => KDestinationRule
  | RBodySize _ | RRateLimit => KEnvoyFilter
  | RJwt => KRequestAuthentication
  | RAuthz => KAuthorizationPolicy
  end.
Definition role_name (name : string) (x : role) : string :=
  match x with
  | RRule i => name +:+ "-" +:+ fmt_d (Z.of_nat i)
  | RRedirect i => name +:+ "-redirect-" +:+ fmt_d (Z.of_nat i)
  | RVirtualService => name
  | RTLS i => name +:+ "-tls-" +:+ fmt_d (Z.of_nat i)
  | RBodySize i => name +:+ "-body-size-" +:+ fmt_d (Z.of_nat i)
  | RRateLimit => name +:+ "-rate-limit"
  | RJwt => name +:+ "-jwt"
  | RAuthz => name +:+ "-authz"
  end.
(** Whether objects of a kind live in the Gateway's namespace. *)
Definition crossNS (k : Kind) : bool :=
  match k with KHTTPRoute | KVirtualService => false | _ => true end.
Definition role_key (route : Route) (x : role) : ObjKey :=
  (role_kind x,
   mkNN (if crossNS (role_kind x) then (gatewayRef route).2 else r_Namespace route)
     (role_name (r_Name route) x)).

Definition desired_roles (route : Route) (canary : option RouteCanary) : list role :=
  let rules := rs_Rules (r_Spec route) in
  (RRule <$> seq 0 (length rules)) ++
  (if wantsRedirect route then RRedirect <$> seq 0 (length (uniqueHostsFromRules rules)) else []) ++
  (if wantsVirtualService route canary then [RVirtualService] else []) ++
  (RTLS <$> seq 0 (length (httpsBackends route canary))) ++
  (if bool_decide (rs_MaxBodySize (r_Spec route) ≠ "")
   then RBodySize <$> seq 0 (length rules) else []) ++
  match rs_Auth (r_Spec route) with Some _ => [RJwt; RAuthz] | None => [] end ++
  match rs_RateLimit (r_Spec route) with Some _ => [RRateLimit] | None => [] end.

(** ** Names *)

Lemma all_digits_fmt_d (i : nat) : all_digits (fmt_d (Z.of_nat i)) = true.
Proof. apply fmt_d_decimal. lia. Qed.

Lemma string_app_eq_app (s1 u1 s2 u2 : string) :
  s1 +:+ u1 = s2 +:+ u2 →
  (∃ w, s1 = s2 +:+ w ∧ u2 = w +:+ u1) ∨ (∃ w, s2 = s1 +:+ w ∧ u1 = w +:+ u2).
Proof.
  revert s2. induction s1 as [|c s1 IH]; intros [|c2 s2] Heq.
  - left. by exists "".
  - right. by exists (String c2 s2).
  - left. by exists (String c s1).
  - rewrite !string_app_cons in Heq. injection Heq as -> Heq.
    destruct (IH s2 Heq) as [(w & -> & ->)|(w & -> & ->)]; [left|right]; by exists w.
Qed.

(** The last dash of a name that ends in digits. *)
Lemma dash_digits_inj s1 d1 s2 d2 :
  s1 +:+ "-" +:+ d1 = s2 +:+ "-" +:+ d2 → all_digits d1 = true → all_digits d2 = true →
  s1 = s2 ∧ d1 = d2.
Proof.
  assert (∀ w d d', "-" +:+ d' = w +:+ "-" +:+ d → all_digits d' = true → w = "" ∧ d' = d) as Hw.
  { intros [|c w] d d' Heq Hd; [by injection Heq|]. rewrite string_app_cons in Heq.
    injection Heq as _ Heq. rewrite string_app_nil in Heq. subst d'.
    rewrite all_digits_app in Hd. by destruct (all_digits w). }
  intros Heq Hd1 Hd2. apply string_app_eq_app in Heq as [(w & -> & Heq)|(w & -> & Heq)].
  - apply Hw in Heq as [-> ->]; [|done]. by rewrite string_app_nil_r.
  - apply Hw in Heq as [-> ->]; [|done]. by rewrite string_app_nil_r.
Qed.

Lemma fmt_d_nat_inj (i j : nat) : fmt_d (Z.of_nat i) = fmt_d (Z.of_nat j) → i = j.
Proof. intros Heq. apply (inj pretty) in Heq. lia. Qed.

(** A name with an infix: its prefix and number. *)
Lemma infix_inj inf n1 n2 (i j : nat) :
  n1 +:+ inf +:+ "-" +:+ fmt_d (Z.of_nat i) = n2 +:+ inf +:+ "-" +:+ fmt_d (Z.of_nat j) →
  n1 = n2 ∧ i = j.
Proof.
  rewrite <-!(string_app_assoc _ inf). intros Heq.
  apply dash_digits_inj in Heq as [Hn Hi]; [|apply all_digits_fmt_d..].
  apply string_app_inj_r in Hn. by apply fmt_d_nat_inj in Hi.
Qed.

(** No number ends a name that ends in ["-rate-limit"]. *)
Lemma digits_not_limit n1 n2 (i : nat) :
  n1 +:+ fmt_d (Z.of_nat i) ≠ n2 +:+ "-rate-limit".
Proof.
  destruct (fmt_d_decimal (Z.of_nat i)) as (Hne & Hd & _); [lia|].
  intros [(w & _ & Hw)|(w & _ & Hw)]%string_app_eq_app.
  - do 11 (destruct w as [|? w]; [rewrite string_app_nil in Hw; rewrite <-Hw in Hd; by vm_compute in Hd|
      rewrite string_app_cons in Hw; injection Hw as _ Hw]).
    destruct w; [|done]. by rewrite string_app_nil in Hw.
  - rewrite Hw, all_digits_app in Hd. apply andb_true_iff in Hd as [_ Hd]. by vm_compute in Hd.
Qed.

(** ** Roles of one route, and of two *)

(** When two roles of two routes name the same object. *)
Definition collide (r1 : Route) (x : role) (r2 : Route) (y : role) : Prop :=
  (x = y ∧ r_Name r1 = r_Name r2 ∧
   if crossNS (role_kind x) then (gatewayRef r1).2 = (gatewayRef r2).2
   else r_Namespace r1 = r_Namespace r2) ∨
  (r_Namespace r1 = r_Namespace r2 ∧ ∃ i,
    (x = RRule i ∧ y = RRedirect i ∧ r_Name r1 = r_Name r2 +:+ "-redirect") ∨
    (x = RRedirect i ∧ y = RRule i ∧ r_Name r2 = r_Name r1 +:+ "-redirect")).

Lemma role_name_redirect n i : role_name n (RRedirect i) = role_name (n +:+ "-redirect") (RRule i).
Proof. simpl. by rewrite string_app_assoc. Qed.

Lemma role_key_collide r1 x r2 y : role_key r1 x = role_key r2 y → collide r1 x r2 y.
Proof.
  unfold role_key, collide. intros [= Hk Hns Hn].
  assert (∀ n n' i j, role_name n (RRule i) = role_name n' (RRule j) → n = n' ∧ i = j) as Hrule.
  { intros n n' i j Heq. apply dash_digits_inj in Heq as [-> Heq]; [|apply all_digits_fmt_d..].
    by apply fmt_d_nat_inj in Heq. }
  destruct x as [i|i| |i|i| | |], y as [j|j| |j|j| | |]; try discriminate Hk; simpl in Hns.
  - apply Hrule in Hn as [? ->]. by left.
  - rewrite role_name_redirect in Hn. apply Hrule in Hn as [? ->]. right. eauto 10.
  - rewrite role_name_redirect in Hn. apply Hrule in Hn as [? ->]. right. eauto 10.
  - rewrite !role_name_redirect in Hn. apply Hrule in Hn as [?%string_app_inj_r ->]. by left.
  - by left.
  - apply (infix_inj "-tls") in Hn as [? ->]. by left.
  - apply (infix_inj "-body-size") in Hn as [? ->]. by left.
  - simpl in Hn. rewrite <-string_app_assoc in Hn. by apply digits_not_limit in Hn.
  - simpl in Hn. rewrite <-string_app_assoc in Hn. symmetry in Hn. by apply digits_not_limit in Hn.
  - apply string_app_inj_r in Hn. by left.
  - apply string_app_inj_r in Hn. by left.
  - apply string_app_inj_r in Hn. by left.
Qed.

Lemma role_key_inj r x y : role_key r x = role_key r y → x = y.
Proof.
  intros [[? _]|(_ & i & [(_ & _ & Hn)|(_ & _ & Hn)])]%role_key_collide; [done|..];
    apply (f_equal String.length) in Hn; rewrite string_length_app in Hn; simpl in Hn; lia.
Qed.

Section desired.
Context `{GoLibs} `{!OwnerLaws}.

(** How an object is built: with the route's labels; of a cross-namespace kind
    it is stored as built, else in the route's namespace, with its owner set. *)
Definition built_for (route : Route) (d : Child) : Prop :=
  ∃ c name ns, c_Meta c = newMeta name ns (managedLabels route) ∧
    if crossNS (c_Kind c) then d = c
    else ns = r_Namespace route ∧ Ret (Ok d) = owned route c.

Lemma built_for_plain route c name ns :
  c_Meta c = newMeta name ns (managedLabels route) → crossNS (c_Kind c) = true →
  built_for route c.
Proof. intros Hm Hk. exists c, name, ns. by rewrite Hk. Qed.
Lemma built_for_owned route c d name :
  c_Meta c = newMeta name (r_Namespace route) (managedLabels route) →
  crossNS (c_Kind c) = false → Ret (Ok d) = owned route c → built_for route d.
Proof. intros Hm Hk Hd. exists c, name, (r_Namespace route). by rewrite Hk. Qed.

Lemma built_EnvoyFilter route i rule c :
  built (newEnvoyFilter route i rule) = Ret (Ok c) →
  c_Key c = role_key route (RBodySize i) ∧ built_for route c.
Proof.
  unfold built, newEnvoyFilter, role_key. destruct (gatewayRef route) as [gwName gwNs].
  destruct (ParseUint _ _) as [|n]; [done|]. unfold mbind, M_bind.
  destruct (mustStruct _ tt) as [[] []]; [|done]. intros [= <-]. split; [done|]. by eapply built_for_plain.
Qed.
Lemma built_RateLimit route rl c :
  built (newRateLimitEnvoyFilter route rl) = Ret (Ok c) →
  c_Key c = role_key route RRateLimit ∧ built_for route c.
Proof.
  unfold built, newRateLimitEnvoyFilter, role_key. destruct (gatewayRef route) as [gwName gwNs].
  destruct (rateLimitFillInterval _); [|done]. destruct (rateLimitTokens rl).
  unfold mbind, M_bind. destruct (buildRateLimitHTTPFilterPatch _ tt) as [[] []]; [|done].
  destruct (foldM _ _ _ _) as [[] []]; [|done]. intros [= <-]. split; [done|]. by eapply built_for_plain.
Qed.

Lemma desired_built_for route canary d : Ret (Ok d) ∈ desired route canary → built_for route d.
Proof.
  intros Hin. unfold desired, want_routes, want_redirects, want_virtualService,
    want_destinationRules, want_bodySizes, want_auth, want_rateLimit in Hin.
  rewrite !elem_of_app in Hin. destruct_or! Hin;
    repeat match type of Hin with
    | _ ∈ (if ?b then _ else _) => destruct b
    | _ ∈ match ?o with Some _ => _ | None => _ end => destruct o
    | _ ∈ [] => by apply elem_of_nil in Hin
    | _ ∈ [_] => apply list_elem_of_singleton in Hin
    | _ ∈ _ <$> _ => apply list_elem_of_fmap in Hin as ([i x] & Hin & _)
    | _ ∈ _ :: _ => apply elem_of_cons in Hin as [Hin|Hin]
    end;
    try (symmetry in Hin; apply built_EnvoyFilter in Hin; apply Hin);
    try (symmetry in Hin; apply built_RateLimit in Hin; apply Hin).
  1-3: eapply built_for_owned; [| |exact Hin];
    unfold newHTTPRoute, newRedirectHTTPRoute, newVirtualService; by destruct (gatewayRef route).
  all: injection Hin as ->; eapply (built_for_plain _ _ _ (gatewayRef route).2);
    unfold newDestinationRule, newRequestAuthentication, newAuthorizationPolicy;
    by destruct (gatewayRef route).
Qed.

Definition has_role (route : Route) (o : outcome (result Child)) (x : role) : Prop :=
  ∀ c, o = Ret (Ok c) → c_Key c = role_key route x.

Lemma has_role_object route c x : c_Key c = role_key route x → has_role route (object c) x.
Proof. by intros Hc c' [= <-]. Qed.
Lemma has_role_owned route c x : c_Key c = role_key route x → has_role route (owned route c) x.
Proof. intros Hc c' [= Hset]. rewrite <-Hc. by eapply SetControllerReference_key. Qed.

Lemma roles_indexed {A} route (f : nat * A → outcome (result Child)) (g : nat → role) l :
  (∀ i a, has_role route (f (i, a)) (g i)) →
  Forall2 (has_role route) (f <$> indexed l) (g <$> seq 0 (length l)).
Proof.
  intros Hf. apply Forall2_fmap, Forall2_lookup. intros i. unfold indexed.
  rewrite list_lookup_imap. destruct (l !! i) as [a|] eqn:Hi; simpl.
  - rewrite lookup_seq_lt by by eapply lookup_lt_Some. constructor. apply Hf.
  - rewrite lookup_seq_ge by by apply lookup_ge_None. constructor.
Qed.

Lemma desired_has_roles route canary :
  Forall2 (has_role route) (desired route canary) (desired_roles route canary).
Proof.
  unfold desired, desired_roles. repeat apply Forall2_app.
  - apply (roles_indexed route _ RRule). intros i rule. apply has_role_owned.
    unfold newHTTPRoute, role_key. by destruct (gatewayRef route).
  - unfold want_redirects. destruct (wantsRedirect route); [|constructor].
    apply (roles_indexed route _ RRedirect). intros i host. apply has_role_owned.
    unfold newRedirectHTTPRoute, role_key. by destruct (gatewayRef route).
  - unfold want_virtualService. destruct (wantsVirtualService _ _); repeat constructor.
    apply has_role_owned. unfold newVirtualService, role_key. by destruct (gatewayRef route).
  - apply (roles_indexed route _ RTLS). intros i b. apply has_role_object.
    unfold newDestinationRule, role_key. by destruct (gatewayRef route).
  - unfold want_bodySizes. case_bool_decide; [|constructor].
    apply (roles_indexed route _ RBodySize). intros i rule c. apply built_EnvoyFilter.
  - unfold want_auth. destruct (rs_Auth _); repeat constructor; apply has_role_object;
      [unfold newRequestAuthentication|unfold newAuthorizationPolicy]; unfold role_key;
      by destruct (gatewayRef route).
  - unfold want_rateLimit. destruct (rs_RateLimit _); repeat constructor.
    intros c. apply built_RateLimit.
Qed.

Lemma desired_roles_NoDup route canary : NoDup (desired_roles route canary).
Proof.
  unfold desired_roles.
  assert (∀ f : nat → role, Inj (=) (=) f → ∀ n, NoDup (f <$> seq 0 n)) as Hseq.
  { intros f Hf n. apply (NoDup_fmap_2 f), NoDup_seq. }
  assert (Inj (=) (=) RRule ∧ Inj (=) (=) RRedirect ∧ Inj (=) (=) RTLS ∧ Inj (=) (=) RBodySize)
    as (? & ? & ? & ?) by (split_and!; intros ?? [=]; done).
  repeat (apply NoDup_app; split_and!);
    repeat match goal with
    | |- NoDup (_ <$> _) => by auto
    | |- NoDup (if ?b then _ else _) => destruct b
    | |- NoDup match ?o with Some _ => _ | None => _ end => destruct o
    | |- NoDup [] => constructor
    | |- NoDup [_] => apply NoDup_singleton
    | |- NoDup [_; _] => apply NoDup_cons; split; [by intros ?%list_elem_of_singleton|]
    end;
    intros x Hx Hy; rewrite ?elem_of_app in Hy; destruct_or? Hy;
    repeat match goal with
    | H' : x ∈ (if ?b then _ else _) |- _ => destruct b
    | H' : x ∈ match ?o with Some _ => _ | None => _ end |- _ => destruct o
    end; set_solver.
Qed.

(** An object called for has a role, at the same position. *)
Lemma desired_role route canary i c :
  desired route canary !! i = Some (Ret (Ok c)) →
  ∃ x, desired_roles route canary !! i = Some x ∧ c_Key c = role_key route x.
Proof.
  intros Hi. pose proof (desired_has_roles route canary) as Hall. rewrite Forall2_lookup in Hall.
  specialize (Hall i). rewrite Hi in Hall. inversion Hall as [? x Hx Heq Heq'|]; subst.
  exists x. split; [done|]. by apply Hx.
Qed.

Lemma desired_roles_optional route canary :
  (RJwt ∈ desired_roles route canary ∨ RAuthz ∈ desired_roles route canary →
     rs_Auth (r_Spec route) ≠ None) ∧
  (RRateLimit ∈ desired_roles route canary → rs_RateLimit (r_Spec route) ≠ None).
Proof.
  unfold desired_roles. split; [intros [Hin|Hin]|intros Hin]; intros Hnone;
    rewrite Hnone in Hin; rewrite !elem_of_app in Hin; decompose [or] Hin; clear Hin;
    repeat match goal with
    | Hx : _ ∈ _ <$> _ |- _ => apply list_elem_of_fmap in Hx as (? & ? & _); discriminate
    | Hx : _ ∈ [] |- _ => by apply elem_of_nil in Hx
    | Hx : _ ∈ [_] |- _ => apply list_elem_of_singleton in Hx; discriminate
    | Hx : _ ∈ _ :: _ |- _ => apply elem_of_cons in Hx as [Hx|Hx]; [discriminate|]
    | Hx : _ ∈ (if ?b then _ else _) |- _ => destruct b
    | Hx : _ ∈ match ?o with Some _ => _ | None => _ end |- _ => destruct o
    end.
Qed.

Lemma retired_role route key canary :
  key ∈ retired route → ∃ x, key = role_key route x ∧ x ∉ desired_roles route canary.
Proof.
  destruct (desired_roles_optional route canary) as [Ha Hr].
  unfold retired, retired_auth, retired_rateLimit. intros [Hin|Hin]%elem_of_app.
  - destruct (rs_Auth (r_Spec route)); [by apply elem_of_nil in Hin|].
    apply elem_of_cons in Hin as [->| ->%list_elem_of_singleton]; [exists RJwt|exists RAuthz];
      (split; [done|]); intros Hx; apply Ha; auto.
  - destruct (rs_RateLimit (r_Spec route)); [by apply elem_of_nil in Hin|].
    apply list_elem_of_singleton in Hin as ->. exists RRateLimit. split; [done|].
    intros Hx. by apply Hr.
Qed.

Lemma desired_key_inj route canary c d :
  Ret (Ok c) ∈ desired route canary → Ret (Ok d) ∈ desired route canary →
  c_Key c = c_Key d → c = d.
Proof.
  intros [i Hi]%list_elem_of_lookup [j Hj]%list_elem_of_lookup Heq.
  destruct (desired_role _ _ _ _ Hi) as (x & Hx & Hcx).
  destruct (desired_role _ _ _ _ Hj) as (y & Hy & Hdy).
  rewrite Hcx, Hdy in Heq. apply role_key_inj in Heq as ->.
  assert (i = j) as -> by by eapply NoDup_lookup; [apply desired_roles_NoDup|..].
  rewrite Hi in Hj. by injection Hj.
Qed.

Lemma desired_not_retired route canary c :
  Ret (Ok c) ∈ desired route canary → c_Key c ∉ retired route.
Proof.
  intros [i Hi]%list_elem_of_lookup Hret.
  destruct (desired_role _ _ _ _ Hi) as (x & Hx & Hcx).
  destruct (retired_role _ _ canary Hret) as (y & Hy & Hno).
  rewrite Hcx in Hy. apply role_key_inj in Hy as ->. by apply Hno, (list_elem_of_lookup_2 _ i).
Qed.
End desired.

Section claims.
Context `{GoLibs} `{!OwnerLaws}.

(** C19: the objects a route generates never overwrite each other, and are
    never the ones its reconcile deletes: two positions of the list of
    desired objects never hold objects with the same kind, namespace and
    name, and no retired key is that of a desired object. *)
Theorem desired_objects_distinct route canary i j c d :
  desired route canary !! i = Some (Ret (Ok c)) →
  desired route canary !! j = Some (Ret (Ok d)) →
  (c_Key c = c_Key d → i = j) ∧ c_Key c ∉ retired route.
Proof.
  intros Hi Hj. split; [|by eapply desired_not_retired, list_elem_of_lookup_2].
  destruct (desired_role _ _ _ _ Hi) as (x & Hx & ->).
  destruct (desired_role _ _ _ _ Hj) as (y & Hy & ->).
  intros ->%role_key_inj. by eapply NoDup_lookup; [apply desired_roles_NoDup|..].
Qed.

(** C20: two routes generate an object with the same key only if they have
    the same name, and either the same namespace or an object of a
    cross-namespace kind and the same Gateway namespace; or if, in one
    namespace, the name of one is that of the other followed by
    ["-redirect"] and the object is an HTTPRoute. *)
Theorem key_ownership r1 canary1 r2 canary2 c1 c2 :
  Ret (Ok c1) ∈ desired r1 canary1 → Ret (Ok c2) ∈ desired r2 canary2 →
  c_Key c1 = c_Key c2 →
  (r_Name r1 = r_Name r2 ∧
     (r_Namespace r1 = r_Namespace r2 ∨
      crossNS (c_Kind c1) = true ∧ (gatewayRef r1).2 = (gatewayRef r2).2)) ∨
  (c_Kind c1 = KHTTPRoute ∧ r_Namespace r1 = r_Namespace r2 ∧
     (r_Name r1 = r_Name r2 +:+ "-redirect" ∨ r_Name r2 = r_Name r1 +:+ "-redirect")).
Proof.
  intros [i Hi]%list_elem_of_lookup [j Hj]%list_elem_of_lookup Heq.
  destruct (desired_role _ _ _ _ Hi) as (x & _ & Hx).
  destruct (desired_role _ _ _ _ Hj) as (y & _ & Hy). rewrite Hy, Hx in Heq.
  assert (c_Kind c1 = role_kind x) as -> by exact (f_equal fst Hx).
  apply role_key_collide in Heq as [(-> & Hn & Hns)|(Hns & k & [(-> & -> & Hn)|(-> & -> & Hn)])].
  - left. destruct (crossNS (role_kind y)); auto.
  - right. auto.
  - right. auto.
Qed.
End claims.

(** ** Witnesses, and the two collisions the theorem leaves *)

Definition ex_rule : RouteRule := mkRule "a.example" "/" (mkBackend "app" 80 "HTTPS") None.
Definition ex_auth : RouteAuth := mkAuth "https://issuer" "https://issuer/keys" [] None.
Definition ex_route (ns name : string) (auth : option RouteAuth) : Route :=
  mkRoute (newMeta name ns ∅)
    (mkSpec [ex_rule] None "" "1024" None None None auth None None) (mkStatus "" [] 0).

(** Routes of the same name in two namespaces write the same DestinationRule,
    and the one without auth deletes the other's policies. *)
Example ex_homonyms :
  let r1 := ex_route "team-a" "app" (Some ex_auth) in
  let r2 := ex_route "team-b" "app" None in
  c_Key (newDestinationRule r1 0 (rr_Backend ex_rule)) =
    c_Key (newDestinationRule r2 0 (rr_Backend ex_rule)) ∧
  newDestinationRule r1 0 (rr_Backend ex_rule) ≠ newDestinationRule r2 0 (rr_Backend ex_rule) ∧
  c_Key (newAuthorizationPolicy r1) ∈ retired r2.
Proof. split_and!; [done|done|]. right. by left. Qed.

Example ex_redirect_collision :
  c_Key (newRedirectHTTPRoute (ex_route "demo" "app" None) 0 "a.example") =
  c_Key (newHTTPRoute (ex_route "demo" "app-redirect" None) 0 ex_rule None).
Proof. by vm_compute. Qed.

Definition ex_owned : Child :=
  set_Owners [controllerRef (ex_route "demo" "app" (Some ex_auth))]
    (newHTTPRoute (ex_route "demo" "app" (Some ex_auth)) 0 ex_rule None).
Lemma desired_objects_distinct_witness :
  let r := ex_route "demo" "app" (Some ex_auth) in
  (c_Key ex_owned = c_Key (newAuthorizationPolicy r) → 0%nat = 5%nat) ∧ c_Key ex_owned ∉ retired r.
Proof.
  apply (desired_objects_distinct (ex_route "demo" "app" (Some ex_auth)) None 0 5 ex_owned
    (newAuthorizationPolicy (ex_route "demo" "app" (Some ex_auth)))); reflexivity.
Defined.

Lemma key_ownership_witness :
  let r1 := ex_route "team-a" "app" None in
  let r2 := ex_route "team-b" "app" None in
  let c := newDestinationRule r1 0 (rr_Backend ex_rule) in
  (r_Name r1 = r_Name r2 ∧
     (r_Namespace r1 = r_Namespace r2 ∨
      crossNS (c_Kind c) = true ∧ (gatewayRef r1).2 = (gatewayRef r2).2)) ∨
  (c_Kind c = KHTTPRoute ∧ r_Namespace r1 = r_Namespace r2 ∧
     (r_Name r1 = r_Name r2 +:+ "-redirect" ∨ r_Name r2 = r_Name r1 +:+ "-redirect")).
Proof.
  apply (key_ownership (ex_route "team-a" "app" None) None (ex_route "team-b" "app" None) None
    (newDestinationRule (ex_route "team-a" "app" None) 0 (rr_Backend ex_rule))
    (newDestinationRule (ex_route "team-b" "app" None) 0 (rr_Backend ex_rule))).
  - apply (list_elem_of_lookup_2 _ 2). reflexivity.
  - apply (list_elem_of_lookup_2 _ 2). reflexivity.
  - by vm_compute.
Defined.
End Keys.
