(* ===== verification/Main.v ===== *)
(** * The operator's entry point (main)

    The decisions [main] takes between the flags and [mgr.Start]: which TLS
    options the webhook and the metrics server get, which certificate files
    are watched, what the manager is told, and where start-up stops.  The two
    servers' option slices share [tlsOpts], so slices are modelled with their
    arrays and capacities.  The libraries started are the operations of
    [Operator]. *)
From S2P Require Import Prelude GoStd RouteTypes Objects Env.
Local Open Scope nat_scope.

Module Main.

(** ** filepath.Join *)

Fixpoint split_on (sep : ascii) (s : string) : list string :=
  match s with
  | "" => [""]
  | String c s' =>
      if bool_decide (c = sep) then "" :: split_on sep s'
      else match split_on sep s' with
           | [] => [String c ""]
           | w :: ws => String c w :: ws
           end
  end.

(** The elements of a cleaned path; [acc] holds those kept so far, last first. *)
Fixpoint clean_elements (rooted : bool) (acc elems : list string) : list string :=
  match elems with
  | [] => reverse acc
  | e :: elems' =>
      if bool_decide (e = "") || bool_decide (e = ".") then clean_elements rooted acc elems'
      else if bool_decide (e = "..") then
        match acc with
        | [] => clean_elements rooted (if rooted then [] else [e]) elems'
        | top :: rest =>
            clean_elements rooted (if bool_decide (top = "..") then e :: acc else rest) elems'
        end
      else clean_elements rooted (e :: acc) elems'
  end.

Definition filepath_Clean (path : string) : string :=
  let rooted := HasPrefix path "/" in
  let body := Join (clean_elements rooted [] (split_on "/" path)) "/" in
  if rooted then "/" +:+ body else if bool_decide (body = "") then "." else body.

Definition filepath_Join (a b : string) : string :=
  if bool_decide (a = "") then if bool_decide (b = "") then "" else filepath_Clean b
  else filepath_Clean (a +:+ "/" +:+ b).

Example filepath_Join_examples :
  filepath_Join "/tmp/k8s/serving-certs/" "tls.crt" = "/tmp/k8s/serving-certs/tls.crt" ∧
  filepath_Join "certs/./a/.." "../tls.key" = "tls.key" ∧
  filepath_Join "/.." "x" = "/x" ∧ filepath_Join "" "tls.crt" = "tls.crt" ∧
  filepath_Join "." "" = ".".
Proof. by vm_compute. Qed.

(** ** Flags *)

Record Flags := mkFlags {
  metricsAddr : string;
  probeAddr : string;
  enableLeaderElection : bool;
  secureMetrics : bool;
  webhookCertPath : string;
  webhookCertName : string;
  webhookCertKey : string;
  metricsCertPath : string;
  metricsCertName : string;
  metricsCertKey : string;
  enableHTTP2 : bool
}.

Definition defaultFlags : Flags :=
  mkFlags "0" ":8081" false true "" "tls.crt" "tls.key" "" "tls.crt" "tls.key" false.

(** ** Slices of TLS options *)

(** The closures of the source, functions on a [tls.Config]. *)
Inductive tlsOption (W : Type) := disableHTTP2 | getCertificate (w : W).
Arguments disableHTTP2 {W}.
Arguments getCertificate {W} w.

(** What the closures assign of a [tls.Config]. *)
Record tlsConfig (W : Type) := mkTLSConfig {
  NextProtos : list string;
  GetCertificate : option W
}.
Arguments mkTLSConfig {W}.
Arguments NextProtos {W}.
Arguments GetCertificate {W}.

Definition applyOption {W} (config : tlsConfig W) (o : tlsOption W) : tlsConfig W :=
  match o with
  | disableHTTP2 => mkTLSConfig ["http/1.1"] (GetCertificate config)
  | getCertificate w => mkTLSConfig (NextProtos config) (Some w)
  end.
Definition configure {W} (opts : list (tlsOption W)) (config : tlsConfig W) : tlsConfig W :=
  foldl applyOption config opts.

(** A slice that starts at its array: nil, or the array and the length. *)
Inductive slice := nilSlice | mkSlice (array len : nat).
(** Arrays by number, a slot that holds no closure yet is nil. *)
Definition heap (W : Type) : Type := list (list (option (tlsOption W))).

(** The elements a reader of the slice finds now. *)
Definition options_of {W} (h : heap W) (s : slice) : list (tlsOption W) :=
  match s with
  | nilSlice => []
  | mkSlice a n => omap id (take n (default [] (h !! a)))
  end.

(** How much [append] allocates is the runtime's choice. *)
Class GoRuntime := {
  newcap : nat → nat → nat;
  newcap_enough oldCap needed : needed ≤ newcap oldCap needed
}.

(** ** The libraries that main starts *)

Record ManagerOptions := mkManagerOptions {
  BindAddress : string;
  SecureServing : bool;
  FilterProvider : bool;
  HealthProbeBindAddress : string;
  LeaderElection : bool;
  LeaderElectionID : string
}.

(** The calls of main: the last one serves with the TLS options that the
    slices given to the webhook and the metrics server hold at that time. *)
Inductive Op (W : Type) :=
| OCertwatcherNew (cert key : string) (w : option W)
| OGetConfig
| ONewManager (opts : ManagerOptions)
| OSetupController
| OSetupWebhook
| OAddWatcher (w : W)
| OAddHealthzCheck
| OAddReadyzCheck
| OStart (webhookTLS metricsTLS : list (tlsOption W)).
Arguments OCertwatcherNew {W}.
Arguments OGetConfig {W}.
Arguments ONewManager {W}.
Arguments OSetupController {W}.
Arguments OSetupWebhook {W}.
Arguments OAddWatcher {W}.
Arguments OAddHealthzCheck {W}.
Arguments OAddReadyzCheck {W}.
Arguments OStart {W}.

Class Operator (W E : Type) := {
  op_certwatcher_New : string → string → E → option W * E;
  (** whether the call succeeds *)
  op_run : Op W → E → bool * E
}.
Record MainSt (W E : Type) := mkMainSt {
  ms_env : E;
  ms_heap : heap W;
  (** the calls made, and whether each succeeded *)
  ms_calls : list (Op W * bool)
}.
Arguments mkMainSt {W E}.
Arguments ms_env {W E}.
Arguments ms_heap {W E}.
Arguments ms_calls {W E}.

(** [&controller.RouteReconciler{Client: ..., Scheme: ..., Recorder: ...}] *)
Definition newRouteReconciler : RouteReconciler := mkReconciler true false None None.

Section main.
Context {W E : Type} `{Operator W E} `{GoRuntime}.

(** [append(s, x)]: in place if there is room, else to a new array. *)
Definition append (s : slice) (x : tlsOption W) : M (MainSt W E) slice := λ st,
  let h := ms_heap st in
  let to_heap h := mkMainSt (ms_env st) h (ms_calls st) in
  let alloc (old : list (option (tlsOption W))) (cap : nat) :=
    (Ret (mkSlice (length h) (S (length old))),
     to_heap (h ++ [old ++ Some x :: replicate (cap - S (length old)) None])) in
  match s with
  | nilSlice => alloc [] (newcap 0 1)
  | mkSlice a n =>
      let array := default [] (h !! a) in
      if bool_decide (n < length array)
      then (Ret (mkSlice a (S n)), to_heap (<[a := <[n := Some x]> array]> h))
      else alloc (take n array) (newcap (length array) (S n))
  end.

Definition call (op : Op W) : M (MainSt W E) bool := λ st,
  let '(ok, e) := op_run op (ms_env st) in
  (Ret ok, mkMainSt e (ms_heap st) (ms_calls st ++ [(op, ok)])).

Definition certwatcher_New (cert key : string) : M (MainSt W E) (option W) := λ st,
  let '(w, e) := op_certwatcher_New cert key (ms_env st) in
  (Ret w, mkMainSt e (ms_heap st)
     (ms_calls st ++ [(OCertwatcherNew cert key w, match w with Some _ => true | None => false end)])).

(** [if err != nil { ...; os.Exit(1) }] around the rest of main. *)
Definition orExit (m : M (MainSt W E) bool) (rest : M (MainSt W E) Z) : M (MainSt W E) Z :=
  ok ← m; if (ok : bool) then rest else mret 1%Z.

(** The two blocks that create a watcher and extend a slice; [None] is exit. *)
Definition watchCertificate (path name key : string) (opts : slice)
    : M (MainSt W E) (option (option W * slice)) :=
  if bool_decide (path ≠ "") then
    w ← certwatcher_New (filepath_Join path name) (filepath_Join path key);
    match w with
    | None => mret None
    | Some w => opts ← append opts (getCertificate w); mret (Some (Some w, opts))
    end
  else mret (Some (None, opts)).

(** [if watcher != nil { if err := mgr.Add(watcher); ... }] *)
Definition addWatcher (w : option W) (rest : M (MainSt W E) Z) : M (MainSt W E) Z :=
  match w with
  | None => rest
  | Some w => orExit (call (OAddWatcher w)) rest
  end.

(** Serving: both servers configure TLS from their slices. *)
Definition start (webhookTLSOpts metricsTLSOpts : slice) : M (MainSt W E) bool :=
  h ← gets ms_heap;
  call (OStart (options_of h webhookTLSOpts) (options_of h metricsTLSOpts)).

Definition managerOptions (f : Flags) : ManagerOptions :=
  mkManagerOptions (metricsAddr f) (secureMetrics f) (secureMetrics f) (probeAddr f)
    (enableLeaderElection f) "fdaa7a0e.istio-gateway-api-operator.io".

(** From the manager to the exit code. *)
Definition serve (f : Flags) (webhookCertWatcher : option W) (webhookTLSOpts : slice)
    (metricsCertWatcher : option W) (metricsTLSOpts : slice) : M (MainSt W E) Z :=
  orExit (call OGetConfig) $
  orExit (call (ONewManager (managerOptions f))) $
  orExit (call OSetupController) $
  orExit (call OSetupWebhook) $
  addWatcher metricsCertWatcher $
  addWatcher webhookCertWatcher $
  orExit (call OAddHealthzCheck) $
  orExit (call OAddReadyzCheck) $
  orExit (start webhookTLSOpts metricsTLSOpts) $
  mret 0%Z.

(** main, from the parsed flags to its exit code. *)
Definition main (f : Flags) : M (MainSt W E) Z :=
  tlsOpts ← (if negb (enableHTTP2 f) then append nilSlice disableHTTP2 else mret nilSlice);
  webhook ← watchCertificate (webhookCertPath f) (webhookCertName f) (webhookCertKey f) tlsOpts;
  match webhook with None => mret 1%Z | Some (webhookCertWatcher, webhookTLSOpts) =>
  metrics ← watchCertificate (metricsCertPath f) (metricsCertName f) (metricsCertKey f) tlsOpts;
  match metrics with None => mret 1%Z | Some (metricsCertWatcher, metricsTLSOpts) =>
  serve f webhookCertWatcher webhookTLSOpts metricsCertWatcher metricsTLSOpts
  end end.

(** ** Specification *)

Definition watching (path name key : string) (w : option W) : list (Op W) :=
  if bool_decide (path ≠ "")
  then [OCertwatcherNew (filepath_Join path name) (filepath_Join path key) w] else [].
Definition serverTLS (f : Flags) (w : option W) : list (tlsOption W) :=
  (if enableHTTP2 f then [] else [disableHTTP2]) ++ from_option (λ w, [getCertificate w]) [] w.

(** The calls of a start-up in which nothing fails. *)
Definition plan (f : Flags) (wW wM : option W) : list (Op W) :=
  watching (webhookCertPath f) (webhookCertName f) (webhookCertKey f) wW ++
  watching (metricsCertPath f) (metricsCertName f) (metricsCertKey f) wM ++
  [OGetConfig; ONewManager (managerOptions f); OSetupController; OSetupWebhook] ++
  from_option (λ w, [OAddWatcher w]) [] wM ++ from_option (λ w, [OAddWatcher w]) [] wW ++
  [OAddHealthzCheck; OAddReadyzCheck; OStart (serverTLS f wW) (serverTLS f wM)].

(** [k] carries the plan out: to its end with exit code 0, or up to a call
    that failed with exit code 1. *)
Definition carries_out (ops : list (Op W)) (k : list (Op W * bool)) (code : Z) : Prop :=
  (code = 0%Z ∧ k = (λ op, (op, true)) <$> ops) ∨
  (code = 1%Z ∧ ∃ before op after, ops = before ++ op :: after ∧
     k = ((λ op, (op, true)) <$> before) ++ [(op, false)]).

(** Appending twice to [tlsOpts] is safe if it has no spare slot. *)
Definition unshared (f : Flags) : Prop :=
  newcap 0 1 = 1 ∨ enableHTTP2 f = true ∨ webhookCertPath f = "" ∨ metricsCertPath f = "".

(** ** Lemmas *)

Definition runs_plan (m : M (MainSt W E) Z) (st : MainSt W E) (ops : list (Op W)) : Prop :=
  ∃ code st' k, m st = (Ret code, st') ∧ ms_calls st' = ms_calls st ++ k ∧ carries_out ops k code.

Lemma runs_done st : runs_plan (mret 0%Z) st [].
Proof. exists 0%Z, st, []. rewrite app_nil_r. split_and!; [done..|]. by left. Qed.

Lemma carries_out_cons op ops k code :
  carries_out ops k code → carries_out (op :: ops) ((op, true) :: k) code.
Proof.
  intros [[-> ->]|(-> & before & o & after & -> & ->)]; [by left|right].
  split; [done|]. by exists (op :: before), o, after.
Qed.
Lemma carries_out_failed op ops : carries_out (op :: ops) [(op, false)] 1.
Proof. right. split; [done|]. by exists [], op, ops. Qed.

Lemma runs_orExit op rest st ops :
  (∀ st', ms_heap st' = ms_heap st → runs_plan rest st' ops) →
  runs_plan (orExit (call op) rest) st (op :: ops).
Proof.
  intros Hrest. unfold runs_plan, orExit, mbind, M_bind, call.
  destruct (op_run op (ms_env st)) as [[|] e].
  - edestruct (Hrest (mkMainSt e (ms_heap st) (ms_calls st ++ [(op, true)])) eq_refl)
      as (code & st' & k & -> & Hk & Hc).
    exists code, st', ((op, true) :: k). rewrite Hk. simpl. rewrite <-app_assoc.
    split_and!; [done..|by apply carries_out_cons].
  - eexists 1%Z, _, [(op, false)]. split_and!; [done..|apply carries_out_failed].
Qed.

Lemma runs_addWatcher w rest st ops :
  (∀ st', ms_heap st' = ms_heap st → runs_plan rest st' ops) →
  runs_plan (addWatcher w rest) st (from_option (λ w, [OAddWatcher w]) [] w ++ ops).
Proof. intros Hrest. destruct w; simpl; [by apply runs_orExit|by apply Hrest]. Qed.

Lemma runs_start wt mt st web met :
  options_of (ms_heap st) wt = web → options_of (ms_heap st) mt = met →
  runs_plan (orExit (start wt mt) (mret 0%Z)) st [OStart web met].
Proof.
  intros <- <-. apply (runs_orExit (OStart _ _) (mret 0%Z) st []). intros st' _. apply runs_done.
Qed.

(** The outcome of creating a watcher. *)
Inductive watched (path name key : string) (opts : slice) (st : MainSt W E) :
    option (option W * slice) → MainSt W E → Prop :=
| watched_off : path = "" → watched path name key opts st (Some (None, opts)) st
| watched_failed e : path ≠ "" →
    watched path name key opts st None
      (mkMainSt e (ms_heap st) (ms_calls st ++
         [(OCertwatcherNew (filepath_Join path name) (filepath_Join path key) None, false)]))
| watched_on w e s' st' : path ≠ "" →
    append opts (getCertificate w) (mkMainSt e (ms_heap st) (ms_calls st ++
      [(OCertwatcherNew (filepath_Join path name) (filepath_Join path key) (Some w), true)]))
      = (Ret s', st') →
    watched path name key opts st (Some (Some w, s')) st'.

Lemma append_ret s x st :
  ∃ s' h, append s x st = (Ret s', mkMainSt (ms_env st) h (ms_calls st)).
Proof. unfold append. repeat case_match; eauto. Qed.

Lemma watchCertificate_watched path name key opts st :
  ∃ r st', watchCertificate path name key opts st = (Ret r, st') ∧
    watched path name key opts st r st'.
Proof.
  unfold watchCertificate. case_bool_decide as Hp.
  2:{ eexists _, _. split; [done|]. apply watched_off. by destruct (decide (path = "")). }
  unfold mbind, M_bind, certwatcher_New.
  destruct (op_certwatcher_New _ _ (ms_env st)) as [[w|] e].
  - destruct (append_ret opts (getCertificate w) (mkMainSt e (ms_heap st) (ms_calls st ++
      [(OCertwatcherNew (filepath_Join path name) (filepath_Join path key) (Some w), true)])))
      as (s' & h & Happ).
    rewrite Happ. eexists _, _. split; [done|]. by eapply watched_on.
  - eexists _, _. split; [done|]. by apply watched_failed.
Qed.

Lemma append_nil x e h k :
  append nilSlice x (mkMainSt e h k) =
    (Ret (mkSlice (length h) 1), mkMainSt e (h ++ [Some x :: replicate (newcap 0 1 - 1) None]) k).
Proof. done. Qed.
(** A slice of one option: a new array if there is no spare slot. *)
Lemma append_one x d e c h k :
  append (mkSlice 0 1) x (mkMainSt e ((Some d :: replicate c None) :: h) k) =
  match c with
  | 0 => (Ret (mkSlice (S (length h)) 2), mkMainSt e ([Some d] ::
            h ++ [Some d :: Some x :: replicate (newcap 1 2 - 2) None]) k)
  | S c' => (Ret (mkSlice 0 2), mkMainSt e ((Some d :: Some x :: replicate c' None) :: h) k)
  end.
Proof. by destruct c. Qed.

Lemma serve_runs f wW wt wM mt st :
  options_of (ms_heap st) wt = serverTLS f wW → options_of (ms_heap st) mt = serverTLS f wM →
  runs_plan (serve f wW wt wM mt) st ([OGetConfig; ONewManager (managerOptions f);
    OSetupController; OSetupWebhook] ++ from_option (λ w, [OAddWatcher w]) [] wM ++
    from_option (λ w, [OAddWatcher w]) [] wW ++
    [OAddHealthzCheck; OAddReadyzCheck; OStart (serverTLS f wW) (serverTLS f wM)]).
Proof.
  intros Hwt Hmt. unfold serve.
  do 4 (apply runs_orExit; intros ? Hh; rewrite <-Hh in Hwt, Hmt; clear Hh).
  do 2 (apply runs_addWatcher; intros ? Hh; rewrite <-Hh in Hwt, Hmt; clear Hh).
  do 2 (apply runs_orExit; intros ? Hh; rewrite <-Hh in Hwt, Hmt; clear Hh).
  by apply runs_start.
Qed.

Lemma carries_out_app before ops k code :
  carries_out ops k code →
  carries_out (before ++ ops) (((λ op, (op, true)) <$> before) ++ k) code.
Proof. intros Hc. induction before as [|op before IH]; [done|]. by apply carries_out_cons. Qed.

#[local] Arguments append : simpl never.

(** The options both servers start from. *)
Inductive base_options (f : Flags) : slice → heap W → Prop :=
| base_http2 : enableHTTP2 f = true → base_options f nilSlice []
| base_http1 : enableHTTP2 f = false →
    base_options f (mkSlice 0 1) [Some disableHTTP2 :: replicate (newcap 0 1 - 1) None].

(** The four ways to pass the two watcher blocks. *)
Lemma options_ready f opts e h k wt mt st1 st2 wW wM :
  unshared f → base_options f opts h →
  watched (webhookCertPath f) (webhookCertName f) (webhookCertKey f) opts (mkMainSt e h k)
    (Some (wW, wt)) st1 →
  watched (metricsCertPath f) (metricsCertName f) (metricsCertKey f) opts st1
    (Some (wM, mt)) st2 →
  options_of (ms_heap st2) wt = serverTLS f wW ∧ options_of (ms_heap st2) mt = serverTLS f wM.
Proof.
  intros Hun Hbase HW HM. unfold unshared in Hun.
  inversion HW as [Hp1| |w1 e1 s1 st1' Hp1 Happ1]; subst;
    inversion HM as [Hp2| |w2 e2 s2 st2' Hp2 Happ2]; subst;
    destruct Hbase as [Hh|Hh]; unfold serverTLS; rewrite Hh; simpl in *.
  all: repeat match goal with
    | Ha : append nilSlice _ _ = _ |- _ => rewrite append_nil in Ha; simplify_eq; simpl in *
    end; try done.
  - rewrite append_one in Happ2. by destruct (newcap 0 1 - 1); simplify_eq.
  - rewrite append_one in Happ1. by destruct (newcap 0 1 - 1); simplify_eq.
  - destruct Hun as [Hcap|[?|[?|?]]]; [|congruence..]. rewrite Hcap in *.
    rewrite append_one in Happ1. simpl in Happ1. simplify_eq. simpl in Happ2.
    change [Some disableHTTP2] with (Some disableHTTP2 :: replicate 0 (@None (tlsOption W))) in Happ2.
    rewrite append_one in Happ2. by simplify_eq.
Qed.

Lemma main_eq f st :
  main f st = (opts ← (if negb (enableHTTP2 f) then append nilSlice disableHTTP2 else mret nilSlice);
    r ← watchCertificate (webhookCertPath f) (webhookCertName f) (webhookCertKey f) opts;
    match r with None => mret 1%Z | Some (wW, wt) =>
    r ← watchCertificate (metricsCertPath f) (metricsCertName f) (metricsCertKey f) opts;
    match r with None => mret 1%Z | Some (wM, mt) => serve f wW wt wM mt end end) st.
Proof. done. Qed.

Lemma main_base f e :
  ∃ opts h, base_options f opts h ∧
    main f (mkMainSt e [] []) = (
      r ← watchCertificate (webhookCertPath f) (webhookCertName f) (webhookCertKey f) opts;
      match r with None => mret 1%Z | Some (wW, wt) =>
      r ← watchCertificate (metricsCertPath f) (metricsCertName f) (metricsCertKey f) opts;
      match r with None => mret 1%Z | Some (wM, mt) => serve f wW wt wM mt end end)
      (mkMainSt e h []).
Proof.
  destruct (enableHTTP2 f) eqn:Hh; rewrite main_eq, Hh.
  - exists nilSlice, []. split; [by constructor|done].
  - eexists _, _. split; [by constructor 2|done].
Qed.

(** The calls of a watcher block that goes on. *)
Lemma watched_calls path name key opts st w s' st' :
  watched path name key opts st (Some (w, s')) st' →
  ms_calls st' = ms_calls st ++ ((λ op, (op, true)) <$> watching path name key w) ∧
  (is_Some w ↔ path ≠ "").
Proof.
  unfold watching. inversion 1 as [->| |w' e s1 st1 Hp Happ]; subst.
  - rewrite app_nil_r. split; [done|]. rewrite is_Some_alt. done.
  - destruct (append_ret opts (getCertificate w') (mkMainSt e (ms_heap st) (ms_calls st ++
      [(OCertwatcherNew (filepath_Join path name) (filepath_Join path key) (Some w'), true)])))
      as (s2 & h & Happ'). rewrite Happ' in Happ. injection Happ as <- <-.
    rewrite bool_decide_true by done. split; [done|]. split; [done|by eexists].
Qed.
Lemma watched_failure path name key opts st st' :
  watched path name key opts st None st' →
  ∀ rest, ∃ k, ms_calls st' = ms_calls st ++ k ∧
    carries_out (watching path name key None ++ rest) k 1.
Proof.
  inversion 1 as [|e Hp|]; subst. unfold watching. rewrite bool_decide_true by done.
  intros rest. eexists. split; [done|]. apply carries_out_failed.
Qed.

(** C34: from any flags, [main] makes the calls of its plan, in order and with
    the arguments of the plan, until one of them fails, and exits with 0 or
    1 accordingly; in particular it serves only after the controller, the
    webhook and the certificate watchers are in place, and the webhook and
    metrics servers each get their own certificate, and HTTP/1.1 alone unless
    the flag enables HTTP/2.  (Both servers' options grow from one slice:
    this needs that slice to be full, see [unshared].) *)
Theorem main_correct f e :
  unshared f →
  ∃ wW wM code st', main f (mkMainSt e [] []) = (Ret code, st') ∧
    carries_out (plan f wW wM) (ms_calls st') code ∧
    (code = 0%Z → (is_Some wW ↔ webhookCertPath f ≠ "") ∧ (is_Some wM ↔ metricsCertPath f ≠ "")) ∧
    ∀ w config, configure (serverTLS f w) config =
      mkTLSConfig (if enableHTTP2 f then NextProtos config else ["http/1.1"])
        (match w with Some _ => w | None => GetCertificate config end).
Proof.
  intros Hun. destruct (main_base f e) as (opts & h & Hbase & ->).
  assert (∀ w config, configure (serverTLS f w) config =
    mkTLSConfig (if enableHTTP2 f then NextProtos config else ["http/1.1"])
      (match w with Some _ => w | None => GetCertificate config end)) as Hconf.
  { intros w [np gc]. unfold serverTLS. by destruct (enableHTTP2 f), w. }
  destruct (watchCertificate_watched (webhookCertPath f) (webhookCertName f) (webhookCertKey f)
    opts (mkMainSt e h [])) as (rW & st1 & HrW & HW).
  unfold mbind at 1, M_bind. rewrite HrW. destruct rW as [[wW wt]|].
  2:{ pose proof (watched_failure _ _ _ _ _ _ HW) as Hf.
      edestruct Hf as (k & Hk & Hc). exists None, None, 1%Z, st1. split; [done|].
      simpl in Hk. rewrite Hk. split_and!; [exact Hc|done|done]. }
  destruct (watchCertificate_watched (metricsCertPath f) (metricsCertName f) (metricsCertKey f)
    opts st1) as (rM & st2 & HrM & HM).
  unfold mbind at 1, M_bind. rewrite HrM.
  destruct (watched_calls _ _ _ _ _ _ _ _ HW) as [HkW HsW]. simpl in HkW.
  destruct rM as [[wM mt]|].
  2:{ pose proof (watched_failure _ _ _ _ _ _ HM) as Hf.
      edestruct Hf as (k & Hk & Hc). exists wW, None, 1%Z, st2. split; [done|].
      rewrite Hk, HkW. split_and!; [by apply carries_out_app|done|done]. }
  destruct (watched_calls _ _ _ _ _ _ _ _ HM) as [HkM HsM].
  destruct (options_ready _ _ _ _ _ _ _ _ _ _ _ Hun Hbase HW HM) as [Hwt Hmt].
  destruct (serve_runs f wW wt wM mt st2 Hwt Hmt) as (code & st3 & k & Hrun & Hk & Hc).
  exists wW, wM, code, st3. rewrite Hk, HkM, HkW, <-app_assoc.
  split_and!; [exact Hrun|by do 2 apply carries_out_app|done|done].
Qed.
End main.

(** ** Concrete start-ups *)

(** The gc runtime doubles small slices. *)
Definition gcRuntime : GoRuntime.
Proof. refine {| newcap oldCap needed := Nat.max needed (2 * oldCap) |}. lia. Defined.
(** A runtime that allocates a spare slot, as the language allows. *)
Definition spareRuntime : GoRuntime.
Proof. refine {| newcap oldCap needed := S needed |}. lia. Defined.

(** Calls succeed until the counter is used up; a watcher is its file. *)
Definition exOperator : Operator string nat := {|
  op_certwatcher_New cert key n := (if n is S _ then Some cert else None, pred n);
  op_run op n := (if n is S _ then true else false, pred n)
|}.

Definition ex_flags : Flags :=
  mkFlags ":8443" ":8081" true true "/certs/webhook" "tls.crt" "tls.key" "/certs/metrics"
    "tls.crt" "tls.key" false.
Definition ex_main (rt : GoRuntime) (n : nat) : outcome Z * list (Op string * bool) :=
  let '(code, st) := @main string nat exOperator rt ex_flags (mkMainSt n [] []) in
  (code, ms_calls st).

(** Eleven calls serve with one certificate each; the third fails. *)
Example ex_main_gc :
  (ex_main gcRuntime 11).1 = Ret 0%Z ∧
  last (ex_main gcRuntime 11).2 =
    Some (OStart [disableHTTP2; getCertificate "/certs/webhook/tls.crt"]
            [disableHTTP2; getCertificate "/certs/metrics/tls.crt"], true) ∧
  ex_main gcRuntime 2 = (Ret 1%Z,
    [(OCertwatcherNew "/certs/webhook/tls.crt" "/certs/webhook/tls.key"
        (Some "/certs/webhook/tls.crt"), true);
     (OCertwatcherNew "/certs/metrics/tls.crt" "/certs/metrics/tls.key"
        (Some "/certs/metrics/tls.crt"), true);
     (OGetConfig, false)]).
Proof. by vm_compute. Qed.

(** With a spare slot the second append overwrites the first: the webhook
    server would present the metrics server's certificate. *)
Example ex_main_spare :
  last (ex_main spareRuntime 11).2 =
    Some (OStart [disableHTTP2; getCertificate "/certs/metrics/tls.crt"]
            [disableHTTP2; getCertificate "/certs/metrics/tls.crt"], true).
Proof. by vm_compute. Qed.

Lemma main_correct_witness :
  let m := @main string nat exOperator gcRuntime in
  ∃ wW wM code st', m ex_flags (mkMainSt 11 [] []) = (Ret code, st') ∧
    carries_out (plan ex_flags wW wM) (ms_calls st') code ∧
    (code = 0%Z → (is_Some wW ↔ webhookCertPath ex_flags ≠ "") ∧
                  (is_Some wM ↔ metricsCertPath ex_flags ≠ "")) ∧
    ∀ (w : option string) config, configure (serverTLS ex_flags w) config =
      mkTLSConfig (if enableHTTP2 ex_flags then NextProtos config else ["http/1.1"])
        (match w with Some _ => w | None => GetCertificate config end).
Proof.
  exact (@main_correct string nat exOperator gcRuntime ex_flags 11 (or_introl eq_refl)).
Defined.
End Main.
