(* ===== verification/Reconcile.v ===== *)
(** * The reconcile loop (RouteReconciler.Reconcile)

    One definition per stage of [Reconcile], composed in the order of the
    source, and the deferred increment of the outcome counter around them.  A
    stage that ends the run answers [Done]; one that lets it go on answers
    [Next]. *)
From S2P Require Import Prelude GoStd GoTime RouteTypes Objects Env Trace Mem Store Common.
From S2P Require Import Conflicts Builders Conditions Metrics Health Certs Canary Children.
Local Open Scope Z_scope.

Module Reconcile.
Import Conflicts.Conflicts Conditions.Conditions Metrics.Metrics Health.Health Certs.Certs.
Import Canary.Canary Children.Children.

(** [ctrl.Result] *)
Record Result := mkResult { RequeueAfter : Z }.

(** The [outcome] label, and what [Reconcile] returns. *)
Definition answer : Type := string * Result * option error.
Inductive step (A : Type) := Done (a : answer) | Next (x : A).
Arguments Done {A} a.
Arguments Next {A} x.

Definition fails (outcome : string) (err : error) : answer := (outcome, mkResult 0, Some err).

Section reconcile.
Context {E : Type} `{KubeEnv E} `{GoLibs}.

(** ** Deletion *)

Definition handleDeletion (route : Route) : M (St E) answer :=
  removed ←
    (if ContainsFinalizer route routeFinalizer then
       err ← cleanupOwnedResources route;
       match err with
       | Some err => mret (Done (fails "cleanup_error" err))
       | None =>
           r ← updateRoute (RemoveFinalizer route routeFinalizer);
           match r with
           | Err err => mret (Done (fails "finalizer_update_error" err))
           | Ok route => mret (Next route)
           end
       end
     else mret (Next route));
  match removed with
  | Done a => mret a
  | Next route =>
      clearCanaryRuntimeState route;;
      clearRouteMetrics route;;
      mret ("deleted", mkResult 0, None)
  end.

(** ** The stages of a live route *)

Definition ensureFinalizer (route : Route) : M (St E) (step Route) :=
  if negb (ContainsFinalizer route routeFinalizer) then
    r ← updateRoute (AddFinalizer route routeFinalizer);
    match r with
    | Err err => mret (Done (fails "finalizer_add_error" err))
    | Ok route => mret (Next route)
    end
  else mret (Next route).

Definition checkCertificate (route : Route) : M (St E) (step Route) :=
  let prevCertCond := findCondition route RouteConditionCertificateHealthy in
  '((certStatus, certReason, certMessage), err) ← evaluateGatewayCertificate route;
  match err with
  | Some err => mret (Done (fails "cert_check_error" err))
  | None =>
      route ← setCondition route RouteConditionCertificateHealthy certStatus certReason
                certMessage;
      (if conditionTransitioned prevCertCond certStatus certReason then
         recordEvent
           (if bool_decide (certStatus ≠ ConditionTrue) then EventTypeWarning else EventTypeNormal)
           certReason certMessage
       else mret tt);;
      mret (Next route)
  end.

(** [Status().Update], then the three gauges from the object it returned,
    which the later statements of the source read; on an error the run ends. *)
Definition publishStatus (route : Route) (state : string) : M (St E) (step Route) :=
  r ← updateRouteStatus route;
  match r with
  | Err err => mret (Done (fails "status_update_error" err))
  | Ok route =>
      setRoutePhaseMetric route (st_Phase (r_Status route));;
      setRouteBackendHealthState route state;;
      setManagedResourcesMetric route (st_ManagedResources (r_Status route));;
      mret (Next route)
  end.

Definition blockOnConflicts (route : Route) (conflicts : list string) : M (St E) answer :=
  let msg := "Conflicting route rules detected: " +:+ Join conflicts "; " in
  let route := set_ManagedResources 0 (set_Phase RoutePhaseDegraded route) in
  route ← setCondition route RouteConditionSynced ConditionFalse "RouteConflict" msg;
  route ← setCondition route RouteConditionReady ConditionFalse "RouteConflict" msg;
  r ← publishStatus route "conflict";
  match r with
  | Done a => mret a
  | Next _ =>
      recordEvent EventTypeWarning "RouteConflict" msg;;
      mret ("conflict", mkResult requeueDelay, None)
  end.

Definition blockOnBackends (route : Route) (health : backendHealthSummary)
    : M (St E) answer :=
  let '(phase, reason, message) := phaseReasonAndMessage health in
  let route := set_ManagedResources 0 (set_Phase phase route) in
  route ← setCondition route RouteConditionSynced ConditionFalse reason message;
  route ← setCondition route RouteConditionReady ConditionFalse reason message;
  r ← publishStatus route
        (if bool_decide (phase = RoutePhasePending) then "missing_service" else "zero_endpoints");
  match r with
  | Done a => mret a
  | Next _ =>
      recordEvent EventTypeWarning reason message;;
      mret ("backend_blocked", mkResult requeueDelay, None)
  end.

(** [(effectiveCanary, canaryProbeRequeue)] *)
Definition decideCanary (route : Route) : M (St E) (step (option RouteCanary * Z)) :=
  let effectiveCanary := rs_Canary (r_Spec route) in
  match effectiveCanary with
  | Some canary =>
      match ca_RollbackOn5xx canary with
      | Some _ =>
          '(rollbackActive, probeRequeue, err) ← evaluateCanaryRollback route;
          match err with
          | Some err => mret (Done (fails "error" err))
          | None =>
              if (rollbackActive : bool) then mret (Next (None, probeRequeue))
              else mret (Next (effectiveCanary, probeRequeue))
          end
      | None => mret (Next (effectiveCanary, 0))
      end
  | None => mret (Next (effectiveCanary, 0))
  end.

(** ** The generated objects *)

(** [(managedCount, reconcileErr)] *)
Definition progress : Type := Z * option error.

(** [if err := ...; err != nil { reconcileErr = err } else { managedCount++ }] *)
Definition track (acc : progress) (m : M (St E) (option error)) : M (St E) progress :=
  err ← m;
  match err with
  | Some err => mret (acc.1, Some err)
  | None => mret (acc.1 + 1, acc.2)
  end.
(** The same without the count. *)
Definition trackErr (acc : progress) (m : M (St E) (option error)) : M (St E) progress :=
  err ← m;
  match err with
  | Some err => mret (acc.1, Some err)
  | None => mret acc
  end.

Definition reconcileHTTPRoutes (route : Route) (canary : option RouteCanary) (acc : progress)
    : M (St E) progress :=
  foldM (λ acc '(i, rule), track acc (reconcileHTTPRoute route i rule canary)) acc
    (indexed (rs_Rules (r_Spec route))).

Definition reconcileRedirects (route : Route) (acc : progress) : M (St E) progress :=
  if match rs_SSLRedirect (r_Spec route) with None => true | Some b => b end then
    foldM (λ acc '(i, host), track acc (reconcileRedirectHTTPRoute route i host)) acc
      (indexed (uniqueHostsFromRules (rs_Rules (r_Spec route))))
  else mret acc.

Definition reconcileTrafficPolicy (route : Route) (canary : option RouteCanary) (acc : progress)
    : M (St E) progress :=
  if bool_decide (rs_Timeout (r_Spec route) ≠ "") ||
     match rs_CORS (r_Spec route) with Some _ => true | None => false end ||
     match rs_Retries (r_Spec route) with Some _ => true | None => false end ||
     match canary with Some _ => true | None => false end
  then track acc (reconcileVirtualService route canary)
  else mret acc.

(** The loops of step 4 thread [drIndex]. *)
Definition reconcileBackendTLS (route : Route) (st : progress * nat) (backend : RouteBackend)
    : M (St E) (progress * nat) :=
  let '(acc, drIndex) := st in
  let protocol := if bool_decide (be_Protocol backend = "") then "HTTP"
                  else be_Protocol backend in
  if bool_decide (protocol = "HTTPS") then
    acc ← track acc (reconcileDestinationRule route drIndex backend);
    mret (acc, S drIndex)
  else mret st.
Definition reconcileDestinationRules (route : Route) (canary : option RouteCanary)
    (acc : progress) : M (St E) progress :=
  st ← foldM (λ st rule,
      foldM (reconcileBackendTLS route) st (routeRuleBackends rule canary))
    (acc, O) (rs_Rules (r_Spec route));
  mret st.1.

Definition reconcileBodySizes (route : Route) (acc : progress) : M (St E) progress :=
  if bool_decide (rs_MaxBodySize (r_Spec route) ≠ "") then
    foldM (λ acc '(i, rule), track acc (reconcileEnvoyFilter route i rule)) acc
      (indexed (rs_Rules (r_Spec route)))
  else mret acc.

Definition reconcileAuth (route : Route) (acc : progress) : M (St E) progress :=
  match rs_Auth (r_Spec route) with
  | Some _ =>
      acc ← track acc (reconcileRequestAuthentication route);
      track acc (reconcileAuthorizationPolicy route)
  | None => trackErr acc (deleteAuthResources route)
  end.

Definition reconcileRateLimit (route : Route) (acc : progress) : M (St E) progress :=
  match rs_RateLimit (r_Spec route) with
  | Some _ => track acc (reconcileRateLimitEnvoyFilter route)
  | None => trackErr acc (deleteRateLimitEnvoyFilter route)
  end.

Definition reconcileChildren (route : Route) (canary : option RouteCanary)
    : M (St E) progress :=
  acc ← reconcileHTTPRoutes route canary (0, None);
  acc ← reconcileRedirects route acc;
  acc ← reconcileTrafficPolicy route canary acc;
  acc ← reconcileDestinationRules route canary acc;
  acc ← reconcileBodySizes route acc;
  acc ← reconcileAuth route acc;
  reconcileRateLimit route acc.

(** ** The final status *)

Definition concludeStatus (route : Route) (acc : progress) : M (St E) Route :=
  let '(managedCount, reconcileErr) := acc in
  let route := set_ManagedResources managedCount route in
  match reconcileErr with
  | Some err =>
      let route := set_Phase RoutePhaseDegraded route in
      route ← setCondition route RouteConditionSynced ConditionFalse "ReconcileError"
                (err_text err);
      route ← setCondition route RouteConditionReady ConditionFalse "NotReady"
                "Some resources failed to reconcile";
      recordEvent EventTypeWarning "ReconcileError" (err_text err);;
      mret route
  | None =>
      let route := set_Phase RoutePhaseActive route in
      route ← setCondition route RouteConditionSynced ConditionTrue "ReconcileSuccess"
                "All resources synced";
      route ← setCondition route RouteConditionReady ConditionTrue "Available"
                "All resources available";
      recordEvent EventTypeNormal "RouteActive"
        "All resources synced and backend dependencies are healthy";;
      mret route
  end.

Definition finish (route : Route) (acc : progress) (canaryProbeRequeue : Z) : M (St E) answer :=
  route ← concludeStatus route acc;
  r ← publishStatus route "healthy";
  match r with
  | Done a => mret a
  | Next _ =>
      match acc.2 with
      | Some err => mret (fails "reconcile_error" err)
      | None =>
          if 0 <? canaryProbeRequeue
          then mret ("success", mkResult canaryProbeRequeue, None)
          else mret ("success", mkResult 0, None)
      end
  end.

(** ** Reconcile *)

(** Backends are ready: the canary decision, the objects, the status. *)
Definition provision (route : Route) : M (St E) answer :=
  let route := set_Phase RoutePhaseProvisioning route in
  canary ← decideCanary route;
  match canary with
  | Done a => mret a
  | Next (effectiveCanary, canaryProbeRequeue) =>
      acc ← reconcileChildren route effectiveCanary;
      finish route acc canaryProbeRequeue
  end.

Definition reconcileLive (route : Route) : M (St E) answer :=
  route ← ensureFinalizer route;
  match route with Done a => mret a | Next route =>
  route ← checkCertificate route;
  match route with Done a => mret a | Next route =>
  conflicts ← evaluateRouteConflicts route;
  match conflicts with
  | Err err => mret (fails "error" err)
  | Ok conflicts =>
      if nonempty conflicts then blockOnConflicts route conflicts
      else
        health ← evaluateBackendHealth route;
        match health with
        | Err err => mret (fails "error" err)
        | Ok health =>
            if negb (allReady health) then blockOnBackends route health
            else provision route
        end
  end end end.

Definition reconcileBody (req : NamespacedName) : M (St E) answer :=
  route ← getRoute req;
  match route with
  | Err err =>
      if IsNotFound err then mret ("not_found", mkResult 0, None)
      else mret (fails "get_error" err)
  | Ok route =>
      if negb (deletionIsZero route) then handleDeletion route else reconcileLive route
  end.

(** The deferred function increments the counter on every way out; a panic
    finds [outcome] at its initial value. *)
Definition Reconcile (req : NamespacedName) : M (St E) (Result * option error) := λ s,
  match reconcileBody req s with
  | (Ret (outcome, res, err), s') => (emit (CCounterInc outcome);; mret (res, err)) s'
  | (Panic msg, s') => (emit (CCounterInc "error");; panic msg) s'
  end.
End reconcile.
End Reconcile.
