(* ===== verification/Stages.v ===== *)
(** * What each stage of a reconcile does

    The stages before the writes are [quiet]: they only read, count and record
    events.  Each lemma gives a stage's answer, the calls it made, and what it
    leaves of the Route: [revised r r'] says that [r'] is [r] up to its status. *)
From S2P Require Import Prelude GoStd GoTime RouteTypes Objects Env Trace Mem Store Common.
From S2P Require Import Conflicts Builders Conditions Metrics Health Certs Canary Children Keys.
From S2P Require Import Reconcile.
Local Open Scope Z_scope.

Module Stages.
Import Conflicts.Conflicts Conditions.Conditions Metrics.Metrics Health.Health Certs.Certs.
Import Builders.Builders Canary.Canary Children.Children Reconcile.Reconcile.

Definition child_write (c : Call) : Prop :=
  match c with CCreateChild _ _ | CUpdateChild _ _ | CDeleteChild _ _ _ => True | _ => False end.

Definition quiet (c : Call) : Prop :=
  match c with
  | CCreateChild _ _ | CUpdateChild _ _ | CDeleteChild _ _ _ | CUpdateRoute _ _
  | CUpdateRouteStatus _ _ | CCounterInc _ => False
  | _ => True
  end.

(** The same Route but for its status. *)
Definition revised (r r' : Route) : Prop := r_Meta r' = r_Meta r ∧ r_Spec r' = r_Spec r.
#[export] Instance revised_preorder : PreOrder revised.
Proof.
  split; [by intros r|]. intros r1 r2 r3 [H1 H2] [H3 H4]. split; congruence.
Qed.

Lemma revised_eq r r' : revised r r' → ∃ st, r' = mkRoute (r_Meta r) (r_Spec r) st.
Proof. intros [<- <-]. exists (r_Status r'). by destruct r'. Qed.

Section quiet.
Context {E : Type} `{KubeEnv E} `{GoLibs}.
Implicit Types (s : St E).

(** A quiet run leaves the reconciler's own state alone. *)
Definition quietly s s' : Prop := s_rec s' = s_rec s ∧ logs quiet s s'.

#[export] Instance quietly_preorder : PreOrder quietly.
Proof.
  split.
  - by intros s.
  - intros s1 s2 s3 [H1' H2] [H3 H4]. split; [congruence|by etransitivity].
Qed.

Lemma quietly_kcall {A} op (entry : A → Call) :
  (∀ a, quiet (entry a)) → respects quietly (kcall op entry).
Proof.
  intros Hq s. split; [|by apply respects_kcall]. unfold kcall. by destruct (op (s_env s)).
Qed.
Lemma quietly_emit c : quiet c → respects quietly (emit (E:=E) c).
Proof. intros Hq s. split; [done|by apply respects_emit]. Qed.
Lemma quietly_recordEvent t reason msg : respects quietly (recordEvent (E:=E) t reason msg).
Proof.
  intros s. split; [|by apply respects_recordEvent].
  unfold recordEvent, mbind, M_bind, gets. by destruct (rc_Recorder (s_rec s)).
Qed.

(** A run that returns, and the relation it respects. *)
Lemma wp_respects {A} (R : relation (St E)) (m : M (St E) A) (Q : A → St E → Prop) s :
  respects R m → wp m Q (λ _, False) s → wp m (λ a s', Q a s' ∧ R s s') (λ _, False) s.
Proof. intros HR. specialize (HR s). unfold wp. by destruct (m s) as [[] ?]. Qed.
End quiet.

Create HintDb quiet.
#[export] Hint Resolve quietly_recordEvent : quiet.
Ltac quiet_steps :=
  follow ltac:(eauto with quiet nocore)
    ltac:(first [apply quietly_emit; exact I|apply quietly_kcall; intros ?; exact I]).

Section quiet_components.
Context {E : Type} `{KubeEnv E} `{GoLibs}.

Lemma quietly_setCondition r ty st re msg : respects quietly (setCondition (E:=E) r ty st re msg).
Proof. unfold setCondition. quiet_steps. Qed.
Lemma quietly_evaluateRouteConflicts r : respects quietly (evaluateRouteConflicts (E:=E) r).
Proof. unfold evaluateRouteConflicts. quiet_steps. Qed.
Lemma quietly_checkBackend r acc b : respects quietly (checkBackend (E:=E) r acc b).
Proof. unfold checkBackend. quiet_steps. Qed.
Lemma quietly_checkRef ns acc ref : respects quietly (checkRef (E:=E) ns acc ref).
Proof. unfold checkRef. quiet_steps. Qed.
Lemma quietly_phaseMetric r p : respects quietly (setRoutePhaseMetric (E:=E) r p).
Proof. unfold setRoutePhaseMetric. quiet_steps. Qed.
Lemma quietly_healthMetric r p : respects quietly (setRouteBackendHealthState (E:=E) r p).
Proof. unfold setRouteBackendHealthState. quiet_steps. Qed.
Lemma quietly_managedMetric r p : respects quietly (setManagedResourcesMetric (E:=E) r p).
Proof. unfold setManagedResourcesMetric. quiet_steps. Qed.
Lemma quietly_clearMetrics r : respects quietly (clearRouteMetrics (E:=E) r).
Proof. unfold clearRouteMetrics. quiet_steps. Qed.
End quiet_components.
#[export] Hint Resolve quietly_setCondition quietly_evaluateRouteConflicts quietly_checkBackend
  quietly_checkRef quietly_phaseMetric quietly_healthMetric quietly_managedMetric
  quietly_clearMetrics : quiet.

Section stages.
Context {E : Type} `{KubeEnv E} `{GoLibs}.
Implicit Types (s : St E).

Lemma quietly_evaluateBackendHealth r : respects quietly (evaluateBackendHealth (E:=E) r).
Proof. unfold evaluateBackendHealth. quiet_steps. Qed.
Lemma quietly_evaluateGatewayCertificate r :
  respects quietly (evaluateGatewayCertificate (E:=E) r).
Proof.
  unfold evaluateGatewayCertificate. destruct (gatewayRef r) as [gwName gwNs]. quiet_steps.
Qed.

Lemma quiet_canary r : respects (logs quiet) (evaluateCanaryRollback (E:=E) r).
Proof.
  unfold evaluateCanaryRollback, canaryEnter, probeCanaryBackend, canaryCommit, assignCount,
    assignUntil, deleteUntil.
  follow ltac:(eauto with logs nocore)
    ltac:(first [apply respects_emit; exact I|apply respects_kcall; intros ?; exact I]).
  all: try (apply respects_recordEvent; exact I).
Qed.

(** ** Before the writes *)

Lemma ensureFinalizer_wp route s :
  wp (ensureFinalizer route) (λ r s', s_rec s' = s_rec s ∧
    match r with
    | Done a => ∃ err, a = fails "finalizer_add_error" err ∧
        ContainsFinalizer route routeFinalizer = false ∧ s_log s' = s_log s ++
        [CUpdateRoute (AddFinalizer route routeFinalizer) (Err err)]
    | Next route' =>
        (ContainsFinalizer route routeFinalizer = true ∧ route' = route ∧ s_log s' = s_log s) ∨
        (ContainsFinalizer route routeFinalizer = false ∧ s_log s' = s_log s ++
          [CUpdateRoute (AddFinalizer route routeFinalizer) (Ok route')])
    end) (λ _, False) s.
Proof.
  unfold ensureFinalizer. destruct (ContainsFinalizer route routeFinalizer) eqn:Hf; simpl.
  - apply wp_ret. auto.
  - apply wp_bind, wp_kcall. intros r e _. destruct r as [route'|err]; apply wp_ret; eauto.
Qed.

Lemma checkCertificate_wp route s :
  wp (checkCertificate route) (λ r s', match r with
    | Done a => ∃ err, a = fails "cert_check_error" err
    | Next route' => revised route route'
    end ∧ quietly s s') (λ _, False) s.
Proof.
  apply wp_respects.
  { pose proof (quietly_evaluateGatewayCertificate route). unfold checkCertificate. quiet_steps. }
  unfold checkCertificate. apply wp_bind.
  eapply wp_mono; [apply evaluateGatewayCertificate_wp| |done].
  intros [[[status reason] msg] err] s1 _. destruct err as [err|]; [apply wp_ret; eauto|].
  apply wp_bind. unfold wp at 1. rewrite setCondition_run. apply wp_bind.
  destruct (conditionTransitioned _ _ _); [apply wp_recordEvent|apply wp_ret]; by apply wp_ret.
Qed.

Lemma evaluateRouteConflicts_wp route s :
  wp (evaluateRouteConflicts route) (λ r s', s_rec s' = s_rec s ∧ ∃ items,
    s_log s' = s_log s ++ [CListRoutes items] ∧
    r = match items with Ok items => Ok (routeConflicts route items) | Err err => Err err end)
    (λ _, False) s.
Proof.
  unfold evaluateRouteConflicts. apply wp_bind, wp_kcall. intros r e _.
  destruct r; apply wp_ret; eauto.
Qed.

(** The canary that the objects are built for: the spec's, unless it has a
    rollback policy whose cooldown runs at the time that was read. *)
Definition in_effect (rc : RouteReconciler) (k : list Call) (r : Route)
    (canary : option RouteCanary) : Prop :=
  match rollback_policy r with
  | None => canary = rs_Canary (r_Spec r)
  | Some _ => ∃ now, CNow now ∈ k ∧
      canary = if cooling now (entry rc (routeKey r)) then None else rs_Canary (r_Spec r)
  end.

(** The interval at which the canary of [r] is probed; 0 without policy. *)
Definition canary_interval (r : Route) : Z :=
  match rollback_policy r with
  | Some (_, policy) => secondsOr (rb_IntervalSeconds policy) defaultCanaryProbeInterval
  | None => 0
  end.

Lemma decideCanary_wp route s :
  free (s_rec s) →
  wp (decideCanary route) (λ r s', ∃ canary k, r = Next (canary, canary_interval route) ∧
    in_effect (s_rec s') k route canary ∧
    free (s_rec s') ∧ s_log s' = s_log s ++ k ∧ Forall quiet k) (λ _, False) s.
Proof.
  intros Hf. unfold decideCanary, in_effect, canary_interval, rollback_policy.
  destruct (rs_Canary (r_Spec route)) as [canary|] eqn:Hc; simpl.
  2:{ apply wp_ret. exists None, []. rewrite app_nil_r. by repeat constructor. }
  destruct (ca_RollbackOn5xx canary) as [policy|] eqn:Hrb; simpl.
  2:{ apply wp_ret. exists (Some canary), []. rewrite app_nil_r. by repeat constructor. }
  apply wp_bind. eapply wp_mono.
  { apply (wp_and _ _ (λ _ s', logs quiet s s') _ (λ _, True) s
      (evaluateCanaryRollback_wp route s Hf)).
    pose proof (quiet_canary route s) as Hq. unfold wp.
    by destruct (evaluateCanaryRollback route s) as [[] ?]. }
  2:{ by intros s' [? _]. }
  intros res s' [(active & iv & -> & Hans) (k & Hk & Hq)].
  assert (free (s_rec s') ∧ iv = secondsOr (rb_IntervalSeconds policy)
      defaultCanaryProbeInterval ∧ ∃ now, CNow now ∈ k ∧
    active = cooling now (entry (s_rec s') (routeKey route))) as (Hf' & -> & now & Hnow & Hact).
  { unfold canary_answer, rollback_policy in Hans. rewrite Hc in Hans. simpl in Hans.
    rewrite Hrb in Hans. simpl in Hans. destruct Hans as (-> & now & _ & Hans).
    destruct (cooling now (entry (s_rec s) _)) eqn:Hcool.
    - destruct Hans as (-> & Hl & _ & ? & _ & -> & _). split; [done|]. split; [done|]. exists now.
      rewrite Hk in Hl. apply app_inv_head in Hl as ->. split; [by left|done].
    - destruct Hans as (p & calls & e' & trig & recov & _ & Hcommit & Hl & _ & ? & _ & -> & _).
      split; [done|]. split; [done|]. exists now. rewrite Hk in Hl.
      apply app_inv_head in Hl as ->. split; [by left|]. by eapply entry_commit_active. }
  destruct active; apply wp_ret; eexists _, k; (split_and!; [done| |done..]); exists now;
    by rewrite <-Hact.
Qed.

(** ** Status *)

Definition cond_is (r : Route) (ty status : string) : Prop :=
  ∃ c, findCondition r ty = Some c ∧ cond_Status c = status.

Lemma setCondition_wp route ty status reason msg s :
  wp (setCondition route ty status reason msg) (λ r s', quietly s s' ∧
    (∃ cs, r = set_Conditions cs route) ∧ cond_is r ty status ∧
    ∀ ty' st, ty' ≠ ty → cond_is route ty' st → cond_is r ty' st) (λ _, False) s.
Proof.
  pose proof (quietly_setCondition route ty status reason msg s) as Hq. unfold wp.
  rewrite setCondition_run in *. split_and!; [exact Hq|by eexists| |].
  - destruct (find_set_same (env_now (s_env s)).1 (m_Generation (r_Meta route)) ty status
      reason msg (st_Conditions (r_Status route))) as (c & ? & _ & ? & _). by exists c.
  - intros ty' st Hne (c & Hc & Hst). exists c. split; [|done].
    unfold findCondition in *. simpl. by rewrite find_set_other.
Qed.

(** The status of the blocking stages, and of the last. *)
Definition status_is (r : Route) (phase : string) (managed : Z) (synced ready : string) : Prop :=
  st_Phase (r_Status r) = phase ∧ st_ManagedResources (r_Status r) = managed ∧
  cond_is r RouteConditionSynced synced ∧ cond_is r RouteConditionReady ready.

(** Both conditions set in turn, on a route whose phase and count are set. *)
Lemma setConditions_wp {A} route st1 re1 msg1 st2 re2 msg2 (f : Route → M (St E) A) Q X s :
  (∀ r s', quietly s s' → revised route r →
     status_is r (st_Phase (r_Status route)) (st_ManagedResources (r_Status route)) st1 st2 →
     wp (f r) Q X s') →
  wp (route ← setCondition route RouteConditionSynced st1 re1 msg1;
      route ← setCondition route RouteConditionReady st2 re2 msg2; f route) Q X s.
Proof.
  intros Hf. apply wp_bind. eapply wp_mono; [apply setCondition_wp| |done].
  intros r1 s1 (Hq1 & [cs1 ->] & Hc1 & _).
  apply wp_bind. eapply wp_mono; [apply setCondition_wp| |done].
  intros r2 s2 (Hq2 & [cs2 ->] & Hc2 & Hother).
  apply Hf; [by etransitivity|done|]. split_and!; [done|done| |done]. by apply Hother.
Qed.

Lemma publishStatus_wp route state s :
  wp (publishStatus route state) (λ r s', s_rec s' = s_rec s ∧ ∃ res k,
    s_log s' = s_log s ++ CUpdateRouteStatus route res :: k ∧ Forall quiet k ∧
    match res with
    | Ok route' => r = Next route'
    | Err err => r = Done (fails "status_update_error" err)
    end) (λ _, False) s.
Proof.
  unfold publishStatus. apply wp_bind, wp_kcall. intros res e _. destruct res as [route'|err].
  2:{ apply wp_ret. simpl. eauto 10. }
  set (s1 := mkSt e _ _).
  assert (∀ m : M (St E) (step Route), respects quietly m →
    wp m (λ r _, r = Next route') (λ _, False) s1 →
    wp m (λ r s', s_rec s' = s_rec s ∧ ∃ res k,
      s_log s' = s_log s ++ CUpdateRouteStatus route res :: k ∧ Forall quiet k ∧
      match res with
      | Ok route' => r = Next route'
      | Err err => r = Done (fails "status_update_error" err)
      end) (λ _, False) s1) as Hm.
  { intros m HR Hwp. eapply wp_mono; [apply (wp_respects _ _ _ _ HR Hwp)| |done].
    intros r s' (-> & Hr & k & Hk & Hqk). split; [done|]. exists (Ok route'), k.
    rewrite Hk. unfold s1. simpl. by rewrite <-app_assoc. }
  apply Hm; [quiet_steps|]. unfold setRoutePhaseMetric, setRouteBackendHealthState.
  do 2 (apply wp_bind; unfold wp at 1; rewrite foldM_emit). apply wp_bind, wp_emit.
  by apply wp_ret.
Qed.

(** A stage that publishes a status that satisfies [P] and answers [ok]. *)
Definition publishes (route : Route) (P : Route → Prop) (ok a : answer) s s' : Prop :=
  s_rec s' = s_rec s ∧ ∃ route' res k1 k2,
    s_log s' = s_log s ++ k1 ++ CUpdateRouteStatus route' res :: k2 ∧
    Forall quiet k1 ∧ Forall quiet k2 ∧ revised route route' ∧ P route' ∧
    a = match res with Ok _ => ok | Err err => fails "status_update_error" err end.

Lemma publishes_event route P ok state t reason msg s0 s route' :
  revised route route' → P route' → quietly s0 s →
  wp (r ← publishStatus route' state;
      match r with
      | Done a => mret a
      | Next _ => recordEvent t reason msg;; mret ok
      end) (λ a s', publishes route P ok a s0 s') (λ _, False) s.
Proof.
  intros Hrev HP (Hr0 & k1 & Hk1 & Hq1). apply wp_bind.
  eapply wp_mono; [apply publishStatus_wp| |done].
  intros r s1 (Hr1 & res & k & Hk & Hq & Hres). destruct res as [route''|err]; subst r.
  - apply wp_bind, wp_recordEvent, wp_ret. simpl. split; [simpl; congruence|].
    exists route', (Ok route''), k1. eexists. simpl. rewrite Hk, Hk1, <-!app_assoc. simpl.
    split_and!; [done|done| |done..]. apply Forall_app. split; [done|].
    destruct (rc_Recorder (s_rec s1)); repeat constructor.
  - apply wp_ret. split; [congruence|]. exists route', (Err err), k1, k.
    rewrite Hk, Hk1, <-!app_assoc. done.
Qed.

Lemma blockOnConflicts_wp route conflicts s :
  wp (blockOnConflicts route conflicts) (λ a s', publishes route
    (λ r, status_is r RoutePhaseDegraded 0 ConditionFalse ConditionFalse)
    ("conflict", mkResult requeueDelay, None) a s s') (λ _, False) s.
Proof.
  unfold blockOnConflicts. apply setConditions_wp. intros r s' Hq Hrev Hst.
  by apply publishes_event.
Qed.

Lemma blockOnBackends_wp route health s :
  wp (blockOnBackends route health) (λ a s', publishes route
    (λ r, status_is r (phaseReasonAndMessage health).1.1 0 ConditionFalse ConditionFalse)
    ("backend_blocked", mkResult requeueDelay, None) a s s') (λ _, False) s.
Proof.
  unfold blockOnBackends. destruct (phaseReasonAndMessage health) as [[phase reason] msg].
  apply setConditions_wp. intros r s' Hq Hrev Hst. by apply publishes_event.
Qed.

(** The final status, from the objects' outcome. *)
Definition final_status (acc : progress) (r : Route) : Prop :=
  match acc.2 with
  | None => status_is r RoutePhaseActive acc.1 ConditionTrue ConditionTrue
  | Some _ => status_is r RoutePhaseDegraded acc.1 ConditionFalse ConditionFalse
  end.
Definition final_answer (acc : progress) (requeue : Z) : answer :=
  match acc.2 with
  | None => ("success", mkResult (if 0 <? requeue then requeue else 0), None)
  | Some err => fails "reconcile_error" err
  end.

Lemma concludeStatus_wp route acc s :
  wp (concludeStatus route acc) (λ r s', quietly s s' ∧ revised route r ∧ final_status acc r)
    (λ _, False) s.
Proof.
  unfold concludeStatus, final_status. destruct acc as [n [err|]];
    apply setConditions_wp; intros r s' Hq Hrev Hst; apply wp_bind;
    (eapply wp_mono; [apply (wp_respects quietly _ (λ _ _, True))| |done];
      [apply quietly_recordEvent|by apply wp_recordEvent|]);
    intros _ s'' [_ Hq']; apply wp_ret; (split_and!; [by etransitivity|done|done]).
Qed.

Lemma finish_wp route acc requeue s :
  wp (finish route acc requeue) (λ a s', publishes route (final_status acc)
    (final_answer acc requeue) a s s') (λ _, False) s.
Proof.
  unfold finish. apply wp_bind. eapply wp_mono; [apply concludeStatus_wp| |done].
  intros r s1 ((Hr1 & k1 & Hk1 & Hq1) & Hrev & Hst).
  apply wp_bind. eapply wp_mono; [apply publishStatus_wp| |done].
  intros res s2 (Hr2 & upd & k & Hk & Hq & Hres).
  assert (∀ a, a = match upd with Ok _ => final_answer acc requeue
                   | Err err => fails "status_update_error" err end →
    publishes route (final_status acc) (final_answer acc requeue) a s s2) as Hout.
  { intros a Ha. split; [congruence|]. exists r, upd, k1, k.
    rewrite Hk, Hk1, <-!app_assoc. done. }
  unfold final_answer in *. destruct upd; subst res; [|by apply wp_ret, Hout].
  destruct acc as [n [err|]]; simpl in *; [by apply wp_ret, Hout|].
  destruct (0 <? requeue); by apply wp_ret, Hout.
Qed.

(** ** The objects *)

(** The counter and the error after the calls [k] for [D] and [R], from those
    before: the count grows with the accepted objects; no error is left when
    everything was handled, and one that is left is the last failure. *)
Definition advances (k : list Call) (D : list (outcome (result Child))) (R : list ObjKey)
    (acc acc' : progress) : Prop :=
  acc'.1 = acc.1 + Z.of_nat (accepts k) ∧ (accepts k ≤ length D)%nat ∧
  match acc'.2 with
  | None => acc.2 = None ∧ accepts k = length D ∧ handled k D R
  | Some err => acc.2 = Some err ∨ failed k D R err
  end.

(** A run that handles [D] and [R]. *)
Definition progresses (D : list (outcome (result Child))) (R : list ObjKey) (acc : progress)
    (m : M (St E) progress) : Prop :=
  ∀ s, wp m (λ acc' s', s_rec s' = s_rec s ∧ ∃ k, s_log s' = s_log s ++ k ∧
      Forall (allowed D R) k ∧ advances k D R acc acc')
    (λ s', s_rec s' = s_rec s ∧ (∃ k, s_log s' = s_log s ++ k ∧ Forall (allowed D R) k) ∧
      ∃ msg, Panic msg ∈ D) s.

Lemma advances_refl acc : advances [] [] [] acc acc.
Proof.
  split; [unfold accepts; simpl; lia|]. split; [done|].
  destruct acc as [n [err|]]; simpl; [by left|]. split_and!; [done..|apply handled_nil].
Qed.

Lemma advances_app k1 k2 D1 D2 R1 R2 acc acc1 acc2 :
  advances k1 D1 R1 acc acc1 → advances k2 D2 R2 acc1 acc2 →
  advances (k1 ++ k2) (D1 ++ D2) (R1 ++ R2) acc acc2.
Proof.
  intros (Hn1 & Hl1 & He1) (Hn2 & Hl2 & He2). unfold advances.
  rewrite accepts_app, length_app. split; [lia|]. split; [lia|].
  destruct (acc2.2) as [err|].
  - destruct He2 as [He2|He2]; [rewrite He2 in He1; destruct He1 as [He1|He1]|].
    + by left.
    + right. eapply failed_mono; [..|exact He1]; set_solver.
    + right. eapply failed_mono; [..|exact He2]; set_solver.
  - destruct He2 as (He2 & Ha2 & Hh2). rewrite He2 in He1. destruct He1 as (He1 & Ha1 & Hh1).
    split_and!; [done|lia|by apply handled_app].
Qed.

Lemma progresses_ret acc : progresses [] [] acc (mret acc).
Proof.
  intros s. apply wp_ret. split; [done|]. exists []. rewrite app_nil_r.
  split_and!; [done|constructor|apply advances_refl].
Qed.

Lemma progresses_track o R acc m : writes [o] R m → progresses [o] R acc (track acc m).
Proof.
  intros Hw s. apply wp_bind. eapply wp_mono; [apply Hw| |done].
  intros e s' (Hr & k & Hk & Ha & Hv).
  destruct e as [err|]; destruct Hv as [Hv He]; apply wp_ret; simpl;
    (split; [done|]); exists k; (split_and!; [done..|]); unfold advances; rewrite Hv;
    (split_and!; [simpl; lia|simpl; lia|]); [by right|].
  destruct acc as [n [err|]]; simpl; [by left|done].
Qed.

Lemma progresses_trackErr R acc m : writes [] R m → progresses [] R acc (trackErr acc m).
Proof.
  intros Hw s. apply wp_bind. eapply wp_mono; [apply Hw| |done].
  intros e s' (Hr & k & Hk & Ha & Hv).
  destruct e as [err|]; destruct Hv as [Hv He]; apply wp_ret; simpl;
    (split; [done|]); exists k; (split_and!; [done..|]); unfold advances; rewrite Hv;
    (split_and!; [simpl; lia|done|]); [by right|].
  destruct acc as [n [err|]]; simpl; [by left|done].
Qed.

Lemma allowed_l D1 D2 R1 R2 k :
  Forall (allowed D1 R1) k → Forall (allowed (D1 ++ D2) (R1 ++ R2)) k.
Proof. intros Hk. eapply Forall_impl; [exact Hk|]. intros c. apply allowed_mono; set_solver. Qed.
Lemma allowed_r D1 D2 R1 R2 k :
  Forall (allowed D2 R2) k → Forall (allowed (D1 ++ D2) (R1 ++ R2)) k.
Proof. intros Hk. eapply Forall_impl; [exact Hk|]. intros c. apply allowed_mono; set_solver. Qed.

Lemma progresses_bind D1 D2 R1 R2 acc m f :
  progresses D1 R1 acc m → (∀ acc', progresses D2 R2 acc' (f acc')) →
  progresses (D1 ++ D2) (R1 ++ R2) acc (m ≫= f).
Proof.
  intros H1' H2 s. apply wp_bind. eapply wp_mono; [apply H1'| |].
  - intros acc1 s1 (Hr1 & k1 & Hk1 & Ha1 & Hc1). eapply wp_mono; [apply H2| |].
    + intros acc2 s2 (Hr2 & k2 & Hk2 & Ha2 & Hc2). split; [congruence|].
      exists (k1 ++ k2). rewrite Hk2, Hk1, app_assoc.
      split_and!; [done| |by eapply advances_app].
      apply Forall_app. split; [by apply allowed_l|by apply allowed_r].
    + intros s2 (Hr2 & (k2 & Hk2 & Ha2) & msg & Hmsg). split; [congruence|]. split.
      * exists (k1 ++ k2). rewrite Hk2, Hk1, app_assoc. split; [done|].
        apply Forall_app. split; [by apply allowed_l|by apply allowed_r].
      * exists msg. set_solver.
  - intros s1 (Hr1 & (k1 & Hk1 & Ha1) & msg & Hmsg). split; [done|]. split.
    + exists k1. split; [done|by apply allowed_l].
    + exists msg. set_solver.
Qed.

Lemma progresses_fold {A} (F : A → outcome (result Child)) f l acc :
  (∀ acc x, progresses [F x] [] acc (f acc x)) → progresses (F <$> l) [] acc (foldM f acc l).
Proof.
  intros Hf. revert acc. induction l as [|x l IH]; intros acc; [apply progresses_ret|].
  rewrite fmap_cons. apply (progresses_bind [F x] _ [] []); auto.
Qed.

Lemma progresses_ext D R acc m m' :
  (∀ s, m s = m' s) → progresses D R acc m → progresses D R acc m'.
Proof. intros Heq Hm s. specialize (Hm s). unfold wp in *. by rewrite <-Heq. Qed.

Lemma backendTLS_run route (acc : progress) i b :
  reconcileBackendTLS (E:=E) route (acc, i) b =
  if isHTTPS b then
    acc ← track acc (reconcileDestinationRule route i b); mret (acc, S i)
  else mret (acc, i).
Proof. done. Qed.

Lemma foldM_cons {A B} (f : B → A → M (St E) B) c x l :
  foldM f c (x :: l) = (c' ← f c x; foldM f c' l).
Proof. done. Qed.

(** The loop over the backends counts the HTTPS ones from [i]. *)
Lemma backendTLS_progresses route bs acc i :
  progresses (imap (λ j b, object (newDestinationRule route (i + j) b))
      (filter (λ b, isHTTPS b = true) bs)) [] acc
    (st ← foldM (reconcileBackendTLS route) (acc, i) bs; mret st.1).
Proof.
  revert acc i. induction bs as [|b bs IH]; intros acc i; [apply progresses_ret|].
  rewrite foldM_cons, backendTLS_run, filter_cons. destruct (isHTTPS b) eqn:Hb.
  - rewrite decide_True by done. rewrite imap_cons.
    eapply progresses_ext; [|apply (progresses_bind [_] _ [] [] acc
      (track acc (reconcileDestinationRule route i b))
      (λ acc, st ← foldM (reconcileBackendTLS route) (acc, S i) bs; mret st.1))].
    + intros s. unfold mbind, M_bind.
      by destruct (track acc (reconcileDestinationRule route i b) s) as [[] ?].
    + rewrite Nat.add_0_r. apply progresses_track. by apply writes_CrossNS.
    + intros acc'. rewrite (imap_ext _ (λ j b, object (newDestinationRule route (S i + j) b))).
      * apply IH.
      * intros j x _. simpl. by rewrite Nat.add_succ_r.
  - rewrite decide_False by congruence. eapply progresses_ext; [|apply IH]. done.
Qed.

Lemma foldM_bind {A B C} (f : C → B → M (St E) C) (g : A → list B) l c s :
  foldM (λ c x, foldM f c (g x)) c l s = foldM f c (l ≫= g) s.
Proof.
  revert c s. induction l as [|x l IH]; intros c s; [done|].
  simpl. generalize (g x). intros ys. revert c s. induction ys as [|y ys IHy]; intros c s.
  - simpl. apply IH.
  - simpl. unfold mbind, M_bind in *. destruct (f c y s) as [[c'|] s']; [apply IHy|done].
Qed.

Lemma fmap_indexed {A B} (f : nat → A → B) (l : list A) :
  (λ '(i, x), f i x) <$> indexed l = imap f l.
Proof. unfold indexed. by rewrite fmap_imap. Qed.

Lemma destinationRules_progresses route canary acc :
  progresses (want_destinationRules route canary) [] acc
    (reconcileDestinationRules route canary acc).
Proof.
  unfold want_destinationRules, httpsBackends. rewrite fmap_indexed.
  eapply progresses_ext; [|apply (backendTLS_progresses route _ acc 0)].
  intros s. unfold reconcileDestinationRules, mbind at 1 3, M_bind.
  by rewrite (foldM_bind (reconcileBackendTLS route)).
Qed.

(** Loops whose elements carry their index. *)
Lemma indexed_progresses {A} (F : nat → A → outcome (result Child))
    (f : progress → nat → A → M (St E) progress) l acc :
  (∀ acc i x, progresses [F i x] [] acc (f acc i x)) →
  progresses ((λ '(i, x), F i x) <$> indexed l) [] acc
    (foldM (λ acc '(i, x), f acc i x) acc (indexed l)).
Proof. intros Hf. apply progresses_fold. intros acc' [i x]. apply Hf. Qed.

Lemma reconcileChildren_progresses route canary :
  progresses (desired route canary) (retired route) (0, None) (reconcileChildren route canary).
Proof.
  unfold reconcileChildren, desired, retired.
  apply (progresses_bind _ _ [] _).
  { apply (indexed_progresses (λ i rule, owned route (newHTTPRoute route i rule canary))).
    intros acc i rule. apply progresses_track, writes_owned. }
  intros acc1. apply (progresses_bind _ _ [] _).
  { unfold reconcileRedirects, want_redirects. fold (wantsRedirect route).
    destruct (wantsRedirect route); [|apply progresses_ret].
    apply (indexed_progresses (λ i host, owned route (newRedirectHTTPRoute route i host))).
    intros acc i host. apply progresses_track, writes_owned. }
  intros acc2. apply (progresses_bind _ _ [] _).
  { unfold reconcileTrafficPolicy, want_virtualService. fold (wantsVirtualService route canary).
    destruct (wantsVirtualService route canary); [|apply progresses_ret]. apply progresses_track, writes_owned. }
  intros acc3. apply (progresses_bind _ _ [] _); [apply destinationRules_progresses|].
  intros acc4. apply (progresses_bind _ _ [] _).
  { unfold reconcileBodySizes, want_bodySizes. case_bool_decide; [|apply progresses_ret].
    apply (indexed_progresses (λ i rule, built (newEnvoyFilter route i rule))).
    intros acc i rule. apply progresses_track, writes_EnvoyFilter. }
  intros acc5. apply progresses_bind.
  { unfold reconcileAuth, want_auth. destruct (rs_Auth (r_Spec route)) as [auth|] eqn:Ha.
    - unfold retired_auth. rewrite Ha. apply (progresses_bind [_] [_] [] []); [|intros acc']; apply progresses_track.
      + unfold reconcileRequestAuthentication. rewrite Ha. by apply writes_CrossNS.
      + unfold reconcileAuthorizationPolicy. rewrite Ha. by apply writes_CrossNS.
    - by apply progresses_trackErr, writes_deleteAuth. }
  intros acc6. unfold reconcileRateLimit, want_rateLimit.
  destruct (rs_RateLimit (r_Spec route)) as [rl|] eqn:Hr.
  - unfold retired_rateLimit. rewrite Hr. by apply progresses_track, writes_rateLimit.
  - by apply progresses_trackErr, writes_deleteRateLimit.
Qed.

(** ** Provisioning *)

Context `{!OwnerLaws}.

Lemma desired_revised r r' canary :
  revised r r' → desired r' canary = desired r canary.
Proof.
  intros [st ->]%revised_eq. destruct r as [m sp st0].
  assert (∀ c, owned (mkRoute m sp st) c = owned (mkRoute m sp st0) c) as Hown
    by (intros c; unfold owned; f_equal; by apply SetControllerReference_nn).
  unfold desired, want_routes, want_redirects, want_virtualService. f_equal; [|f_equal; [|f_equal]].
  - apply list_fmap_ext. intros _ [i rule] _. apply Hown.
  - change (wantsRedirect (mkRoute m sp st)) with (wantsRedirect (mkRoute m sp st0)).
    destruct (wantsRedirect _); [|done]. apply list_fmap_ext. intros _ [i host] _. apply Hown.
  - change (wantsVirtualService (mkRoute m sp st)) with (wantsVirtualService (mkRoute m sp st0)).
    destruct (wantsVirtualService _ _); [|done]. f_equal. apply Hown.
Qed.
Lemma retired_revised r r' : revised r r' → retired r' = retired r.
Proof. intros [st ->]%revised_eq. by destruct r. Qed.

(** The calls of [provision]: a quiet part, the writes of the objects for
    the canary in effect, and the publication of the outcome. *)
Definition provisions (route : Route) (a : answer) s s' : Prop :=
  free (s_rec s') ∧ ∃ canary acc k1 k2 k3 route' upd k4,
    s_log s' = s_log s ++ k1 ++ k2 ++ k3 ++ CUpdateRouteStatus route' upd :: k4 ∧
    in_effect (s_rec s') k1 route canary ∧
    Forall quiet k1 ∧ Forall (allowed (desired route canary) (retired route)) k2 ∧
    Forall quiet k3 ∧ Forall quiet k4 ∧
    advances k2 (desired route canary) (retired route) (0, None) acc ∧
    revised route route' ∧ final_status acc route' ∧
    a = match upd with
        | Ok _ => final_answer acc (canary_interval route)
        | Err err => fails "status_update_error" err
        end.

(** A panic happens among the writes, because a builder panicked. *)
Definition provision_panics (route : Route) s s' : Prop :=
  free (s_rec s') ∧ ∃ canary k1 k2,
    s_log s' = s_log s ++ k1 ++ k2 ∧
    in_effect (s_rec s') k1 route canary ∧
    Forall quiet k1 ∧ Forall (allowed (desired route canary) (retired route)) k2 ∧
    ∃ msg, Panic msg ∈ desired route canary.

Lemma provision_wp route s :
  free (s_rec s) →
  wp (provision route) (λ a s', provisions route a s s') (λ s', provision_panics route s s') s.
Proof.
  intros Hf. unfold provision. apply wp_bind.
  eapply wp_mono; [by apply decideCanary_wp| |done].
  intros r s1 (canary & k1 & -> & Hcan & Hf1 & Hk1 & Hq1). apply wp_bind.
  assert (revised route (set_Phase RoutePhaseProvisioning route)) as Hph by done.
  eapply wp_mono; [apply reconcileChildren_progresses| |]; cbn [fst snd];
    rewrite (desired_revised route), (retired_revised route) by done.
  - intros acc s2 (Hr2 & k2 & Hk2 & Ha2 & Hc2).
    eapply wp_mono; [apply finish_wp| |done].
    intros a s3 (Hr3 & route' & upd & k3 & k4 & Hk3 & Hq3 & Hq4 & Hrev & Hst & ->).
    split; [by rewrite Hr3, Hr2|]. exists canary, acc, k1, k2, k3, route', upd, k4.
    rewrite Hk3, Hk2, Hk1, <-!app_assoc. split_and!; try done.
    by rewrite Hr3, Hr2.
  - intros s2 (Hr2 & (k2 & Hk2 & Ha2) & Hmsg). split; [by rewrite Hr2|].
    exists canary, k1, k2. rewrite Hk2, Hk1, Hr2, <-!app_assoc. done.
Qed.
End stages.
End Stages.
