(* ===== verification/Runs.v ===== *)
(** * The runs of Reconcile as traces

    [body_run req k a] is the specification of a run that ends: an inductive
    description of the sequences of calls [k] that a reconcile of [req] may
    make and of the answer [a] each of them ends with.  [body_panic] describes
    the only runs that do not end.  [reconcileBody_wp] is the refinement: every
    run of the model is one of these. *)
From S2P Require Import Prelude GoStd GoTime RouteTypes Objects Env Trace Mem Store Common.
From S2P Require Import Conflicts Builders Conditions Metrics Health Certs Canary Children Keys.
From S2P Require Import Reconcile Stages.
Local Open Scope Z_scope.

Module Runs.
Import Conflicts.Conflicts Conditions.Conditions Metrics.Metrics Health.Health.
Import Canary.Canary Children.Children Reconcile.Reconcile Stages.Stages.

Section runs.
Context `{GoLibs}.

(** ** Specification *)

(** A deletion lists and deletes objects of the cross-namespace kinds. *)
Definition deleting (c : Call) : Prop :=
  match c with
  | CListChildren k _ _ _ | CDeleteChild k _ _ => Keys.Keys.crossNS k = true
  | _ => False
  end.

(** One block of the cleanup: the listed objects of a kind, each deleted in
    its turn whatever became of the others, or a list that failed. *)
Inductive sweep (labels : gmap string string) (ns : string) (kd : Kind) : list Call → Prop :=
| sweep_items items rs :
    length rs = length items →
    sweep labels ns kd (CListChildren kd labels ns (Ok items) ::
      zip_with (λ item r, CDeleteChild kd (c_NN item) r) items rs)
| sweep_failed err : sweep labels ns kd [CListChildren kd labels ns (Err err)].

(** The whole cleanup: the objects of the four cross-namespace kinds that
    carry the labels of [route] in the namespace of its Gateway. *)
Definition cleanup (route : Route) (k : list Call) : Prop :=
  ∃ k1 k2 k3 k4, k = k1 ++ k2 ++ k3 ++ k4 ∧
    let sweep := sweep (managedLabels route) (gatewayRef route).2 in
    sweep KDestinationRule k1 ∧ sweep KEnvoyFilter k2 ∧
    sweep KRequestAuthentication k3 ∧ sweep KAuthorizationPolicy k4.

Definition deleted_answer : answer := ("deleted", mkResult 0, None).

Inductive deletion_run (route : Route) : list Call → answer → Prop :=
| dr_no_finalizer k :
    ContainsFinalizer route routeFinalizer = false → Forall quiet k →
    deletion_run route k deleted_answer
| dr_removed k1 upd k2 :
    ContainsFinalizer route routeFinalizer = true → cleanup route k1 → Forall quiet k2 →
    deletion_run route (k1 ++ CUpdateRoute (RemoveFinalizer route routeFinalizer) (Ok upd) :: k2)
      deleted_answer
| dr_failed k1 err :
    ContainsFinalizer route routeFinalizer = true → cleanup route k1 →
    deletion_run route (k1 ++ [CUpdateRoute (RemoveFinalizer route routeFinalizer) (Err err)])
      (fails "finalizer_update_error" err).

(** [r] carries the finalizer: [route] did, or [kf] stored it. *)
Definition finalized (route : Route) (kf : list Call) (r : Route) : Prop :=
  (kf = [] ∧ r = route ∧ ContainsFinalizer route routeFinalizer = true) ∨
  (kf = [CUpdateRoute (AddFinalizer route routeFinalizer) (Ok r)] ∧
   ContainsFinalizer route routeFinalizer = false).

(** A status that satisfies [P] is published, and the answer is [ok] unless
    that is refused. *)
Definition published (r : Route) (P : Route → Prop) (ok : answer) (k : list Call) (a : answer)
    : Prop :=
  ∃ r' upd k1 k2, k = k1 ++ CUpdateRouteStatus r' upd :: k2 ∧ Forall quiet k1 ∧
    Forall quiet k2 ∧ revised r r' ∧ P r' ∧
    a = match upd with Ok _ => ok | Err err => fails "status_update_error" err end.

(** Why a route is held back, with the phase and outcome that says so. *)
Inductive held_back (k : list Call) (r : Route) : string → string → Prop :=
| hb_conflict items :
    CListRoutes (Ok items) ∈ k → routeConflicts r items ≠ [] →
    held_back k r RoutePhaseDegraded "conflict"
| hb_missing items n :
    CListRoutes (Ok items) ∈ k → routeConflicts r items = [] →
    n ∈ backends_of r → observed k (mkNN (r_Namespace r) n) HMissing →
    held_back k r RoutePhasePending "backend_blocked"
| hb_zero items n :
    CListRoutes (Ok items) ∈ k → routeConflicts r items = [] →
    n ∈ backends_of r → observed k (mkNN (r_Namespace r) n) HNoEndpoints →
    (∀ n', n' ∈ backends_of r → observed k (mkNN (r_Namespace r) n') HNoEndpoints ∨
       observed k (mkNN (r_Namespace r) n') HReady) →
    held_back k r RoutePhaseDegraded "backend_blocked".

(** [r] may be provisioned: finalizer stored, no conflict, backends ready. *)
Definition cleared (route : Route) (k : list Call) (r : Route) : Prop :=
  ∃ kf r1 kc items kh, k = kf ++ kc ++ CListRoutes (Ok items) :: kh ∧
    finalized route kf r1 ∧ Forall quiet kc ∧ revised r1 r ∧
    routeConflicts r items = [] ∧ Forall quiet kh ∧
    ∀ n, n ∈ backends_of r → observed kh (mkNN (r_Namespace r) n) HReady.

Definition writing (r : Route) (canary : option RouteCanary) : Call → Prop :=
  allowed (desired r canary) (retired r).

(** [rc]: the reconciler's state after the run. *)
Inductive live_run (rc : RouteReconciler) (route : Route) : list Call → answer → Prop :=
| lr_unfinalized err :
    ContainsFinalizer route routeFinalizer = false →
    live_run rc route [CUpdateRoute (AddFinalizer route routeFinalizer) (Err err)]
      (fails "finalizer_add_error" err)
| lr_stopped kf r k outcome err :
    finalized route kf r → Forall quiet k → outcome ∈ ["cert_check_error"; "error"] →
    live_run rc route (kf ++ k) (fails outcome err)
| lr_held kf r1 k r phase outcome kp a :
    finalized route kf r1 → Forall quiet k → revised r1 r →
    held_back k r phase outcome →
    published r (λ r', status_is r' phase 0 ConditionFalse ConditionFalse)
      (outcome, mkResult requeueDelay, None) kp a →
    live_run rc route (kf ++ k ++ kp) a
| lr_provisioned k0 r canary k1 k2 acc kp a :
    cleared route k0 r → in_effect rc k1 r canary → Forall quiet k1 →
    Forall (writing r canary) k2 →
    advances k2 (desired r canary) (retired r) (0, None) acc →
    published r (final_status acc) (final_answer acc (canary_interval r)) kp a →
    live_run rc route (k0 ++ k1 ++ k2 ++ kp) a.

Inductive body_run (rc : RouteReconciler) (req : NamespacedName) : list Call → answer → Prop :=
| br_get_failed err :
    body_run rc req [CGetRoute req (Err err)]
      (if IsNotFound err then ("not_found", mkResult 0, None) else fails "get_error" err)
| br_deletion route k a :
    deletionIsZero route = false → deletion_run route k a →
    body_run rc req (CGetRoute req (Ok route) :: k) a
| br_live route k a :
    deletionIsZero route = true → live_run rc route k a →
    body_run rc req (CGetRoute req (Ok route) :: k) a.

(** A builder panicked, while the objects of [r] were being written. *)
Inductive body_panic (rc : RouteReconciler) (req : NamespacedName) : list Call → Prop :=
| bp_builder route k0 r canary k1 k2 msg :
    deletionIsZero route = true → cleared route k0 r → in_effect rc k1 r canary →
    Forall quiet k1 → Forall (writing r canary) k2 → Panic msg ∈ desired r canary →
    body_panic rc req (CGetRoute req (Ok route) :: k0 ++ k1 ++ k2).
End runs.

(** ** Lemmas *)

Section refinement.
Context {E : Type} `{KubeEnv E} `{GoLibs}.
Implicit Types (s : St E).

(** The calls between two states. *)
Definition spans (P : list Call → Prop) s s' : Prop :=
  free (s_rec s') ∧ ∃ k, s_log s' = s_log s ++ k ∧ P k.

(** A stage that leaves the reconciler's own state alone. *)
Definition does (P : list Call → Prop) s s' : Prop :=
  s_rec s' = s_rec s ∧ ∃ k, s_log s' = s_log s ++ k ∧ P k.

Lemma cleanupKind_sweeps labels ns kd s :
  wp (cleanupKind labels ns kd) (λ _ s', does (sweep labels ns kd) s s') (λ _, False) s.
Proof.
  unfold cleanupKind. apply wp_bind, wp_kcall. intros [items|err] e _.
  2:{ apply wp_ret. split; [done|]. eexists. split; [done|constructor]. }
  set (s1 := mkSt e _ _).
  eapply wp_mono; [apply (wp_foldM _ (λ dn _ s', s_rec s' = s_rec s ∧ ∃ rs,
    length rs = length dn ∧ s_log s' = s_log s1 ++
      zip_with (λ item r, CDeleteChild kd (c_NN item) r) dn rs) (λ _, False))| |done].
  - intros dn x todo [] s' _ (Hr & rs & Hlen & Hl). apply wp_bind, wp_kcall. intros r e' _.
    apply wp_ret. split; [done|]. exists (rs ++ [r]). rewrite !length_app, Hlen.
    split; [done|]. simpl. by rewrite Hl, zip_with_app, app_assoc by done.
  - split; [done|]. exists []. by rewrite app_nil_r.
  - intros [] s' (Hr & rs & Hlen & Hl). split; [done|]. eexists. split.
    + rewrite Hl. unfold s1. simpl. by rewrite <-app_assoc.
    + by apply sweep_items.
Qed.

Lemma cleanup_wp route s :
  wp (cleanupOwnedResources route) (λ e s', e = None ∧ does (cleanup route) s s') (λ _, False) s.
Proof.
  unfold cleanupOwnedResources, cleanup. destruct (gatewayRef route) as [gwName gwNs]. simpl.
  do 4 (apply wp_bind; eapply wp_mono; [apply cleanupKind_sweeps| |done];
    intros []; intros ? (? & ? & ? & ?)).
  apply wp_ret. split; [done|]. split; [congruence|]. eexists. split; [|by repeat eexists].
  repeat match goal with Hl : s_log _ = _ |- _ => rewrite Hl; clear Hl end.
  by rewrite <-!app_assoc.
Qed.

Lemma clearMetrics_wp route s :
  wp (clearRouteMetrics route) (λ _ s', True ∧ quietly s s') (λ _, False) s.
Proof.
  apply wp_respects; [quiet_steps|]. unfold clearRouteMetrics.
  do 2 (apply wp_bind; unfold wp at 1; rewrite foldM_emit). by apply wp_emit.
Qed.

(** The tail of a deletion. *)
Lemma forget_wp route s :
  free (s_rec s) →
  wp (clearCanaryRuntimeState route;; clearRouteMetrics route;; mret deleted_answer)
    (λ a s', a = deleted_answer ∧ entry (s_rec s') (routeKey route) = (0, None) ∧
      spans (Forall quiet) s s') (λ _, False) s.
Proof.
  intros Hf. apply wp_bind. eapply wp_mono; [by apply clearCanaryRuntimeState_wp| |done].
  intros [] s1 (_ & Hl1 & _ & Hf1 & _ & Hen & _).
  apply wp_bind. eapply wp_mono; [apply clearMetrics_wp| |done].
  intros [] s2 [_ (Hr2 & k & Hk & Hq)]. apply wp_ret. split; [done|]. split; [by rewrite Hr2|].
  split; [by rewrite Hr2|]. exists k. by rewrite Hk, Hl1.
Qed.

(** A completed deletion has forgotten the canary state of the route, as the
    API server last returned it. *)
Definition forgotten (route : Route) (k : list Call) (a : answer) s' : Prop :=
  a = deleted_answer → ∃ r',
    (r' = route ∨ CUpdateRoute (RemoveFinalizer route routeFinalizer) (Ok r') ∈ k) ∧
    entry (s_rec s') (routeKey r') = (0, None).

Lemma handleDeletion_wp route s :
  free (s_rec s) →
  wp (handleDeletion route)
    (λ a s', spans (λ k, deletion_run route k a ∧ forgotten route k a s') s s') (λ _, False) s.
Proof.
  intros Hf. unfold handleDeletion. apply wp_bind.
  destruct (ContainsFinalizer route routeFinalizer) eqn:Hfin.
  2:{ apply wp_ret. eapply wp_mono; [by apply forget_wp| |done].
      intros a s' (-> & Hen & Hf' & k & Hk & Hq). split; [done|]. exists k. split; [done|].
      split; [by constructor|]. intros _. eauto. }
  apply wp_bind. eapply wp_mono; [apply cleanup_wp| |done].
  intros e s1 (-> & Hr1 & k1 & Hk1 & Hd1). apply wp_bind, wp_kcall. intros upd env _.
  destruct upd as [route'|err].
  - apply wp_ret. eapply wp_mono; [apply forget_wp; simpl; by rewrite Hr1| |done].
    intros a s' (-> & Hen & Hf' & k & Hk & Hq). split; [done|]. eexists. split.
    + rewrite Hk. simpl. rewrite Hk1, <-!app_assoc. reflexivity.
    + split; [by apply dr_removed|]. intros _. exists route'. split; [|done]. right.
      apply elem_of_app. right. by left.
  - apply wp_ret, wp_ret. split; [simpl; by rewrite Hr1|]. eexists. simpl. split.
    + rewrite Hk1, <-app_assoc. reflexivity.
    + split; [by apply dr_failed|done].
Qed.

(** ** A live route *)

Lemma publishes_published route P ok a s s' :
  free (s_rec s) → publishes route P ok a s s' → spans (λ k, published route P ok k a) s s'.
Proof.
  intros Hf (Hr & r' & upd & k1 & k2 & Hk & Hq1 & Hq2 & Hrev & HP & Ha).
  split; [by rewrite Hr|]. eexists. split; [exact Hk|]. by exists r', upd, k1, k2.
Qed.

Lemma spans_app P Q s1 s2 s3 k :
  s_log s2 = s_log s1 ++ k → spans P s2 s3 → (∀ k', P k' → Q (k ++ k')) → spans Q s1 s3.
Proof.
  intros Hk (Hf & k' & Hk' & HP) HPQ. split; [done|]. exists (k ++ k').
  rewrite Hk', Hk, app_assoc. split; [done|]. by apply HPQ.
Qed.

(** The panic of [provision], as calls. *)
Definition builder_panic (rc : RouteReconciler) (route : Route) (k : list Call) : Prop :=
  ∃ k0 r canary k1 k2 msg, k = k0 ++ k1 ++ k2 ∧ cleared route k0 r ∧ in_effect rc k1 r canary ∧
    Forall quiet k1 ∧ Forall (writing r canary) k2 ∧ Panic msg ∈ desired r canary.

Lemma observed_incl (k k' : list Call) n h : k ⊆ k' → observed k n h → observed k' n h.
Proof. intros Hk. destruct h; simpl; naive_solver. Qed.
Lemma held_back_incl k k' r phase outcome :
  k ⊆ k' → held_back k r phase outcome → held_back k' r phase outcome.
Proof.
  intros Hk [items Hi Hc|items n Hi Hc Hn Ho|items n Hi Hc Hn Ho Hall].
  - apply (hb_conflict _ _ items); [by apply Hk|done].
  - apply (hb_missing _ _ items n); [by apply Hk|done|done|by eapply observed_incl].
  - apply (hb_zero _ _ items n); [by apply Hk|done|done|by eapply observed_incl|].
    intros n' Hn'. destruct (Hall n' Hn'); [left|right]; by eapply observed_incl.
Qed.

Lemma classifies_incl k k' ns names summary :
  k ⊆ k' → classifies k ns names summary → classifies k' ns names summary.
Proof. intros Hk (? & ? & ? & ?). split_and!; eauto using observed_incl. Qed.

(** A blocked route is held back for a reason that was observed. *)
Lemma blocked_reason items k r summary :
  CListRoutes (Ok items) ∈ k → routeConflicts r items = [] →
  classifies k (r_Namespace r) (backends_of r) summary → allReady summary = false →
  held_back k r (phaseReasonAndMessage summary).1.1 "backend_blocked".
Proof.
  intros Hi Hc (Hsub & Hm & Hz & Hr) Hnot. unfold phaseReasonAndMessage.
  destruct (MissingServices summary) as [|m ms] eqn:HM.
  - destruct (ZeroEndpoints summary) as [|z zs] eqn:HZ.
    + exfalso. revert Hnot. unfold allReady. rewrite HM, HZ. done.
    + simpl. apply (hb_zero _ _ items z); [done|done|apply Hsub; set_solver|apply Hz; set_solver|].
      intros n' Hn'. destruct (decide (n' ∈ z :: zs)) as [Hin|Hin]; [left; auto|].
      right. apply Hr; [done| |done]. apply not_elem_of_nil.
  - simpl. apply (hb_missing _ _ items m); [done|done|apply Hsub; set_solver|apply Hm; set_solver].
Qed.

Lemma ready_backends k ns names summary n :
  classifies k ns names summary → allReady summary = true → n ∈ names →
  observed k (mkNN ns n) HReady.
Proof.
  intros (_ & _ & _ & Hr) Hall Hn. unfold allReady in Hall.
  apply andb_true_iff in Hall as [Hm Hz].
  apply bool_decide_eq_true, length_zero_iff_nil in Hm, Hz.
  apply Hr; [done|rewrite Hm|rewrite Hz]; set_solver.
Qed.

Context `{!OwnerLaws}.

Lemma provision_run_wp route k0 r s :
  free (s_rec s) → cleared route k0 r →
  wp (provision r) (λ a s', spans (λ k, live_run (s_rec s') route (k0 ++ k) a) s s')
    (λ s', spans (λ k, builder_panic (s_rec s') route (k0 ++ k)) s s') s.
Proof.
  intros Hf Hcl. eapply wp_mono; [apply (provision_wp r s Hf)| |].
  - intros a s' (Hf' & canary & acc & k1 & k2 & k3 & rt & upd & k4 & Hk & Hcan & Hq1 &
      Ha2 & Hq3 & Hq4 & Hc & Hrev & Hst & ->).
    split; [done|]. eexists. split; [exact Hk|].
    eapply (lr_provisioned _ _ _ r canary); eauto. by exists rt, upd, k3, k4.
  - intros s' (Hf' & canary & k1 & k2 & Hk & Hcan & Hq1 & Ha2 & msg & Hmsg).
    split; [done|]. eexists. split; [exact Hk|]. by exists k0, r, canary, k1, k2, msg.
Qed.

Lemma held_wp route kf r1 k r phase outcome s0 s (m : M (St E) answer) :
  free (s_rec s) → s_log s = s_log s0 ++ kf ++ k →
  finalized route kf r1 → Forall quiet k → revised r1 r → held_back k r phase outcome →
  wp m (λ a s', publishes r (λ r', status_is r' phase 0 ConditionFalse ConditionFalse)
      (outcome, mkResult requeueDelay, None) a s s') (λ _, False) s →
  wp m (λ a s', spans (λ k, live_run (s_rec s') route k a) s0 s')
    (λ s', spans (builder_panic (s_rec s') route) s0 s') s.
Proof.
  intros Hf Hk Hfin Hq Hrev Hheld Hm. eapply wp_mono; [exact Hm| |done].
  intros a s' Hp%publishes_published; [|done]. eapply spans_app; [exact Hk|exact Hp|].
  intros kp Hkp. rewrite <-app_assoc. by eapply lr_held.
Qed.

Lemma reconcileLive_wp route s :
  free (s_rec s) →
  wp (reconcileLive route) (λ a s', spans (λ k, live_run (s_rec s') route k a) s s')
    (λ s', spans (builder_panic (s_rec s') route) s s') s.
Proof.
  intros Hf. unfold reconcileLive. apply wp_bind.
  eapply wp_mono; [apply ensureFinalizer_wp| |done]. intros rf s1 [Hr1 Hfin].
  destruct rf as [a|r1].
  { destruct Hfin as (err & -> & Hc & Hk). apply wp_ret. split; [by rewrite Hr1|].
    eexists. split; [exact Hk|]. by apply lr_unfinalized. }
  assert (∃ kf, s_log s1 = s_log s ++ kf ∧ finalized route kf r1) as (kf & Hkf & Hfr).
  { destruct Hfin as [(Hc & -> & Hk)|(Hc & Hk)].
    - exists []. split; [by rewrite app_nil_r|]. by left.
    - eexists. split; [exact Hk|]. by right. }
  apply wp_bind. eapply wp_mono; [apply checkCertificate_wp| |done].
  intros rc s2 (Hrc & Hr2 & k2 & Hk2 & Hq2).
  assert (free (s_rec s2)) as Hf2 by (by rewrite Hr2, Hr1).
  assert (∀ k outcome err s', outcome ∈ ["cert_check_error"; "error"] → Forall quiet k →
    s_rec s' = s_rec s2 → s_log s' = s_log s ++ kf ++ k →
    wp (mret (fails outcome err)) (λ a s', spans (λ k, live_run (s_rec s') route k a) s s')
      (λ s', spans (builder_panic (s_rec s') route) s s') s') as Hstop.
  { intros k outcome err s' Ho Hq Hr Hk. apply wp_ret. split; [by rewrite Hr|].
    eexists. split; [exact Hk|]. by apply (lr_stopped _ _ _ r1). }
  destruct rc as [a|r2].
  { destruct Hrc as [err ->]. eapply (Hstop k2); [set_solver|done..|].
    by rewrite Hk2, Hkf, app_assoc. }
  apply wp_bind. eapply wp_mono; [apply evaluateRouteConflicts_wp| |done].
  intros res s3 (Hr3 & items & Hk3 & ->).
  assert (s_log s3 = s_log s ++ kf ++ k2 ++ [CListRoutes items]) as Hlog3
    by (by rewrite Hk3, Hk2, Hkf, <-!app_assoc).
  destruct items as [items|err].
  2:{ eapply (Hstop (k2 ++ [CListRoutes (Err err)])); [set_solver| |done|done].
      apply Forall_app. split; [done|by repeat constructor]. }
  destruct (nonempty (routeConflicts r2 items)) eqn:Hconf.
  { eapply (held_wp _ kf r1 (k2 ++ [CListRoutes (Ok items)]) r2); [by rewrite Hr3|done|done| |done| |
      apply blockOnConflicts_wp].
    - apply Forall_app. split; [done|by repeat constructor].
    - apply (hb_conflict _ _ items); [set_solver|by apply nonempty_true]. }
  apply nonempty_false in Hconf.
  apply wp_bind. eapply wp_mono;
    [apply (wp_respects quietly _ _ _ (quietly_evaluateBackendHealth r2)
       (evaluateBackendHealth_wp r2 s3))| |done].
  intros health s4 ((kh & Hkh & Hcl) & Hr4 & kh' & Hkh' & Hqh).
  assert (kh' = kh) as -> by (rewrite Hkh in Hkh'; by apply app_inv_head in Hkh').
  assert (s_log s4 = s_log s ++ kf ++ k2 ++ CListRoutes (Ok items) :: kh) as Hlog4
    by (by rewrite Hkh, Hlog3, <-!app_assoc).
  assert (Forall quiet (k2 ++ CListRoutes (Ok items) :: kh)) as Hq4
    by (apply Forall_app; split; [done|by constructor]).
  assert (free (s_rec s4)) as Hf4 by (by rewrite Hr4, Hr3).
  destruct health as [summary|err].
  2:{ eapply (Hstop (k2 ++ CListRoutes (Ok items) :: kh)); [set_solver|done| |done].
      by rewrite Hr4, Hr3. }
  destruct (allReady summary) eqn:Hall; simpl.
  - eapply wp_mono; [apply (provision_run_wp route (kf ++ k2 ++ CListRoutes (Ok items) :: kh) r2);
      [done|]| |].
    + exists kf, r1, k2, items, kh. split_and!; try done.
      intros n Hn. by eapply ready_backends.
    + intros a s' Hsp. eapply spans_app; [exact Hlog4|exact Hsp|]. auto.
    + intros s' Hsp. eapply spans_app; [exact Hlog4|exact Hsp|]. auto.
  - eapply (held_wp _ kf r1 (k2 ++ CListRoutes (Ok items) :: kh) r2); [done..| |
      apply blockOnBackends_wp].
    apply (held_back_incl ([CListRoutes (Ok items)] ++ kh)); [set_solver|].
    apply (blocked_reason items); [set_solver|done| |done].
    by apply (classifies_incl kh); [set_solver|].
Qed.

Lemma reconcileBody_wp req s :
  free (s_rec s) →
  wp (reconcileBody req) (λ a s', spans (λ k, body_run (s_rec s') req k a) s s')
    (λ s', spans (body_panic (s_rec s') req) s s') s.
Proof.
  intros Hf. unfold reconcileBody. apply wp_bind, wp_kcall. intros got e _.
  destruct got as [route|err].
  2:{ assert (∀ a, a = (if IsNotFound err then ("not_found", mkResult 0, None)
                        else fails "get_error" err) →
        wp (mret a) (λ a s', spans (λ k, body_run (s_rec s') req k a) s s')
          (λ s', spans (body_panic (s_rec s') req) s s')
          (mkSt e (s_rec s) (s_log s ++ [CGetRoute req (Err err)]))) as Hret.
      { intros a ->. apply wp_ret. split; [done|]. eexists. split; [done|]. constructor. }
      revert Hret. destruct (IsNotFound err); intros Hret; by apply Hret. }
  set (s1 := mkSt e (s_rec s) (s_log s ++ [CGetRoute req (Ok route)])).
  assert (free (s_rec s1)) as Hf1 by done.
  destruct (deletionIsZero route) eqn:Hz; simpl.
  - eapply wp_mono; [by apply reconcileLive_wp| |].
    + intros a s' Hsp. eapply (spans_app _ _ _ s1); [done|exact Hsp|].
      intros k Hk. by eapply br_live.
    + intros s' Hsp. eapply (spans_app _ _ _ s1); [done|exact Hsp|].
      intros k (k0 & r & canary & k1 & k2 & msg & -> & ? & ? & ? & ? & ?). by apply (bp_builder _ _ route k0 r canary k1 k2 msg).
  - eapply wp_mono; [by apply handleDeletion_wp| |done].
    intros a s' Hsp. eapply (spans_app _ _ _ s1); [done|exact Hsp|].
    intros k [Hk _]. by eapply br_deletion.
Qed.

(** [Reconcile]: such a run, then the increment of its outcome. *)
Lemma Reconcile_runs req s :
  free (s_rec s) →
  match Reconcile req s with
  | (Ret (res, err), s') => free (s_rec s') ∧ ∃ outcome k,
      s_log s' = s_log s ++ k ++ [CCounterInc outcome] ∧ body_run (s_rec s') req k (outcome, res, err)
  | (Panic _, s') => free (s_rec s') ∧ ∃ k,
      s_log s' = s_log s ++ k ++ [CCounterInc "error"] ∧ body_panic (s_rec s') req k
  end.
Proof.
  intros Hf. pose proof (reconcileBody_wp req s Hf) as Hwp. unfold wp in Hwp. unfold Reconcile.
  destruct (reconcileBody req s) as [[[[outcome res] err]|msg] s'].
  - destruct Hwp as (Hf' & k & Hk & Hrun). simpl. split; [done|]. exists outcome, k.
    by rewrite Hk, <-app_assoc.
  - destruct Hwp as (Hf' & k & Hk & Hrun). simpl. split; [done|]. exists k.
    by rewrite Hk, <-app_assoc.
Qed.
End refinement.

(** ** What runs look like *)

Definition is_status (c : Call) : bool :=
  match c with CUpdateRouteStatus _ _ => true | _ => false end.
Definition status_writes (k : list Call) : list Call := filter (λ c, is_status c = true) k.

Definition is_counter (c : Call) : bool := match c with CCounterInc _ => true | _ => false end.

Section shape.
Context `{GoLibs}.

Lemma status_writes_app k k' : status_writes (k ++ k') = status_writes k ++ status_writes k'.
Proof. apply filter_app. Qed.

Lemma status_writes_cons c k : is_status c = false → status_writes (c :: k) = status_writes k.
Proof. intros Hc. unfold status_writes. by rewrite filter_cons, decide_False by (by rewrite Hc). Qed.

Lemma no_status (P : Call → Prop) k :
  (∀ c, P c → is_status c = false) → Forall P k → status_writes k = [].
Proof.
  intros HP Hall. induction Hall as [|c k Hc _ IH]; [done|]. unfold status_writes in *.
  rewrite filter_cons, decide_False by (rewrite (HP c Hc); done). done.
Qed.
Lemma quiet_no_status k : Forall quiet k → status_writes k = [].
Proof. apply no_status. by intros []. Qed.
Lemma writing_no_status r canary k : Forall (writing r canary) k → status_writes k = [].
Proof. apply no_status. by intros []. Qed.
Lemma deleting_no_status k : Forall deleting k → status_writes k = [].
Proof. apply no_status. by intros []. Qed.
Lemma sweep_deleting labels ns kd k :
  Keys.Keys.crossNS kd = true → sweep labels ns kd k → Forall deleting k.
Proof.
  intros Hx [items rs Hlen|err]; constructor; try done.
  revert rs Hlen. induction items as [|item items IH]; intros [|r rs] Hlen; try done.
  constructor; [done|]. apply IH. by injection Hlen.
Qed.
Lemma cleanup_deleting route k : cleanup route k → Forall deleting k.
Proof.
  intros (k1 & k2 & k3 & k4 & -> & H1 & H2 & H3 & H4).
  repeat apply Forall_app_2; (eapply sweep_deleting; [|eassumption]); done.
Qed.
Lemma deletion_run_no_status route k a : deletion_run route k a → status_writes k = [].
Proof.
  intros [ka ? Hq|ka upd kb ? Hd%cleanup_deleting Hq|ka e ? Hd%cleanup_deleting];
    [by apply quiet_no_status|..]; rewrite status_writes_app, (deleting_no_status ka), status_writes_cons by done;
    [by apply quiet_no_status|done].
Qed.
Lemma finalized_no_status route k r : finalized route k r → status_writes k = [].
Proof. by intros [(-> & _)|(-> & _)]. Qed.

(** Calls that are not writes of generated objects. *)
Definition harmless_calls (k : list Call) : Prop := Forall (λ c, ¬ child_write c) k.

Lemma quiet_harmless k : Forall quiet k → harmless_calls k.
Proof. intros Hk. eapply Forall_impl; [exact Hk|]. intros []; simpl; tauto. Qed.
Lemma finalized_harmless route k r : finalized route k r → harmless_calls k.
Proof. intros [(-> & _)|(-> & _)]; repeat constructor; auto. Qed.
Lemma cleared_harmless route k r : cleared route k r → harmless_calls k.
Proof.
  intros (kf & r1 & kc & items & kh & -> & Hf & Hc & _ & _ & Hh & _).
  repeat apply Forall_app_2; [by eapply finalized_harmless|by apply quiet_harmless|].
  constructor; [tauto|by apply quiet_harmless].
Qed.
Lemma published_harmless r P ok k a : published r P ok k a → harmless_calls k.
Proof.
  intros (r' & upd & k1 & k2 & -> & H1 & H2 & _).
  apply Forall_app_2; [by apply quiet_harmless|].
  constructor; [tauto|by apply quiet_harmless].
Qed.

Lemma harmless_nil : harmless_calls [].
Proof. constructor. Qed.
Lemma harmless_cons c k : ¬ child_write c → harmless_calls k → harmless_calls (c :: k).
Proof. by constructor. Qed.
Lemma harmless_app k k' : harmless_calls k → harmless_calls k' → harmless_calls (k ++ k').
Proof. apply Forall_app_2. Qed.

(** The first write of a list comes after its harmless prefix. *)
Lemma write_after ka kb k1 c k2 :
  ka ++ kb = k1 ++ c :: k2 → harmless_calls ka → child_write c →
  ∃ k1', k1 = ka ++ k1' ∧ kb = k1' ++ c :: k2.
Proof.
  intros Heq Hka Hc. apply app_eq_inv in Heq as [(l & -> & Hl)|(l & -> & ->)]; [|by exists l].
  destruct l as [|d l]; [exists []; by rewrite !app_nil_r|].
  simpl in Hl. injection Hl as -> Hl. exfalso.
  apply Forall_app in Hka as [_ [Hka _]%Forall_cons]. by apply Hka.
Qed.
Lemma no_write_in k k1 c k2 : k = k1 ++ c :: k2 → harmless_calls k → child_write c → False.
Proof.
  intros -> [_ [Hc _]%Forall_cons]%Forall_app Hw. by apply Hc.
Qed.
End shape.

(** Proves that calls are harmless from what describes their segments. *)
Ltac harmless :=
  repeat first
    [ assumption
    | apply harmless_nil
    | apply harmless_cons; [solve [intros []]|]
    | apply harmless_app
    | solve [eauto using quiet_harmless, finalized_harmless, cleared_harmless, published_harmless] ].
End Runs.
