(* ===== verification/ReconcileProps.v ===== *)
(** * Properties of Reconcile

    All of them follow from the description of the runs in Runs.v, the two
    about the cluster also from the log being a trace of the environment. *)
From S2P Require Import Prelude GoStd GoTime RouteTypes Objects Env Trace Mem Store Common.
From S2P Require Import Conflicts Builders Conditions Metrics Health Certs Canary Children Keys.
From S2P Require Import Reconcile Stages Runs.
From S2P Require Main.
Local Open Scope Z_scope.

Module ReconcileProps.
Import Builders.Builders Conflicts.Conflicts Conditions.Conditions Metrics.Metrics Health.Health.
Import Certs.Certs Canary.Canary Children.Children Keys.Keys Reconcile.Reconcile Stages.Stages
  Runs.Runs.

Section specs.
Context `{GoLibs} `{!OwnerLaws}.

(** ** Specifications *)

(** The Route that a run of [req] read, stored with its finalizer if it had
    none, and cleared for provisioning. *)
Definition cleared_in (req : NamespacedName) (k : list Call) (r : Route) : Prop :=
  ∃ route k0, (CGetRoute req (Ok route) :: k0) `prefix_of` k ∧ cleared route k0 r.

(** When a provisioned Route is looked at again: after the interval of the
    rollback policy, 30 s if it names none, and never without policy. *)
Definition next_probe (r : Route) (after : Z) : Prop :=
  match rollback_policy r with
  | None => after = 0
  | Some (_, policy) =>
      match rb_IntervalSeconds policy with
      | None => after = 30 * Second
      | Some seconds => isInt32 seconds → after = Z.max 0 (seconds * Second)
      end
  end.

(** The outcome labels, with what [Reconcile] returns under each. *)
Definition outcome_ok (req : NamespacedName) (k : list Call) (outcome : string) (res : Result)
    (err : option error) : Prop :=
  (outcome ∈ ["not_found"; "deleted"] ∧ err = None ∧ RequeueAfter res = 0) ∨
  (outcome ∈ ["conflict"; "backend_blocked"] ∧ err = None ∧ RequeueAfter res = requeueDelay) ∨
  (outcome = "success" ∧ err = None ∧
   ∃ r, cleared_in req k r ∧ next_probe r (RequeueAfter res)) ∨
  (outcome ∈ ["error"; "get_error"; "finalizer_update_error"; "finalizer_add_error";
              "cert_check_error"; "status_update_error"; "reconcile_error"] ∧
   is_Some err ∧ RequeueAfter res = 0).

(** The Route a run works on: delivered by the API server, up to status. *)
Definition delivered (k : list Call) (r : Route) : Prop :=
  ∃ r0, revised r0 r ∧
    ((∃ n, CGetRoute n (Ok r0) ∈ k) ∨ (∃ sent, CUpdateRoute sent (Ok r0) ∈ k)).

(** The strings the generated protobuf structs are built from. *)
Definition route_utf8 (r : Route) : Prop :=
  ValidString (r_Name r) = true ∧
  ∀ rule, rule ∈ rs_Rules (r_Spec r) → ValidString (rr_Host rule) = true.

(** A status that tells what the run found and did. *)
Inductive status_sound (rc : RouteReconciler) (k : list Call) (r : Route) : Prop :=
| ss_active canary :
    in_effect rc k r canary → handled k (desired r canary) (retired r) →
    accepts k = length (desired r canary) →
    status_is r RoutePhaseActive (Z.of_nat (length (desired r canary)))
      ConditionTrue ConditionTrue → status_sound rc k r
| ss_failed canary err :
    in_effect rc k r canary → failed k (desired r canary) (retired r) err →
    (accepts k ≤ length (desired r canary))%nat →
    status_is r RoutePhaseDegraded (Z.of_nat (accepts k)) ConditionFalse ConditionFalse →
    status_sound rc k r
| ss_held phase outcome :
    held_back k r phase outcome → status_is r phase 0 ConditionFalse ConditionFalse →
    status_sound rc k r.

(** ** Lemmas *)

Lemma cleared_delivered req route k r :
  cleared route k r → delivered (CGetRoute req (Ok route) :: k) r.
Proof.
  intros (kf & r1 & kc & items & kh & -> & Hf & _ & Hrev & _). exists r1. split; [done|].
  destruct Hf as [(-> & -> & _)|(-> & _)]; [left|right].
  - exists req. by left.
  - exists (AddFinalizer route routeFinalizer). right. by left.
Qed.

Lemma delivered_mono k k' r : k ⊆ k' → delivered k r → delivered k' r.
Proof. intros Hk (r0 & Hr & [(n & Hn)|(sent & Hs)]); exists r0; eauto. Qed.

Lemma in_effect_revised rc k r r' canary :
  revised r r' → in_effect rc k r canary → in_effect rc k r' canary.
Proof. intros [st ->]%revised_eq. by destruct r. Qed.
Lemma in_effect_incl rc k k' r canary :
  k ⊆ k' → in_effect rc k r canary → in_effect rc k' r canary.
Proof. unfold in_effect. destruct (rollback_policy r); [|done]. intros Hk (now & ? & ?). eauto. Qed.

Lemma held_back_revised k r r' phase outcome :
  revised r r' → held_back k r phase outcome → held_back k r' phase outcome.
Proof.
  intros [st ->]%revised_eq. destruct r as [m sp st0]. simpl.
  intros [items ? ?|items n ? ? ? ?|items n ? ? ? ? ?].
  - by apply (hb_conflict _ _ items).
  - by apply (hb_missing _ _ items n).
  - by apply (hb_zero _ _ items n).
Qed.

(** A run publishes at most one status, and it is sound. *)
Lemma published_status r P ok k a :
  published r P ok k a →
  ∃ r' upd, status_writes k = [CUpdateRouteStatus r' upd] ∧ revised r r' ∧ P r'.
Proof.
  intros (r' & upd & k1 & k2 & -> & H1 & H2 & Hrev & HP & _). exists r', upd.
  rewrite status_writes_app, (quiet_no_status k1) by done.
  change (CUpdateRouteStatus r' upd :: k2) with ([CUpdateRouteStatus r' upd] ++ k2).
  by rewrite status_writes_app, (quiet_no_status k2) by done.
Qed.

Lemma cleared_no_status route k r : cleared route k r → status_writes k = [].
Proof.
  intros (kf & r1 & kc & items & kh & -> & Hf & Hc & _ & _ & Hh & _).
  rewrite !status_writes_app, (finalized_no_status _ _ _ Hf), (quiet_no_status kc) by done.
  by apply (quiet_no_status (_ :: _)), Forall_cons.
Qed.

(** Only writes of generated objects are accepted. *)
Lemma harmless_accepts k : harmless_calls k → accepts k = 0%nat.
Proof.
  unfold accepts. intros Hk. induction Hk as [|c k Hc _ IH]; [done|].
  by destruct c; simpl in *; try (destruct Hc; exact I).
Qed.

Lemma live_run_status rc route k0 k a :
  harmless_calls k0 → live_run rc route k a → status_writes k = [] ∨
  ∃ r' upd, status_writes k = [CUpdateRouteStatus r' upd] ∧ status_sound rc (k0 ++ k) r'.
Proof.
  intros Hk0 [err _|kf r k1 outcome err Hf Hq _
    |kf r1 k1 r phase outcome kp a0 Hf Hq Hrev Hheld Hp
    |kc r canary k1 k2 acc kp a0 Hcl Hcan Hq1 Hw (Hn & Hle & He) Hp].
  - by left.
  - left. by rewrite status_writes_app, (finalized_no_status _ _ _ Hf), quiet_no_status.
  - right. apply published_status in Hp as (r' & upd & Hs & Hrev' & HP). exists r', upd.
    rewrite !status_writes_app, (finalized_no_status _ _ _ Hf), (quiet_no_status k1), Hs by done.
    split; [done|]. eapply ss_held; [|exact HP].
    eapply held_back_incl; [|by eapply held_back_revised]. set_solver.
  - right. assert (accepts (k0 ++ kc ++ k1 ++ k2 ++ kp) = accepts k2) as Hacc.
    { rewrite !accepts_app, (harmless_accepts k0), (harmless_accepts kc), (harmless_accepts k1),
        (harmless_accepts kp) by harmless. lia. }
    apply published_status in Hp as (r' & upd & Hs & Hrev' & HP). exists r', upd.
    rewrite !status_writes_app, (cleared_no_status _ _ _ Hcl), (quiet_no_status k1),
      (writing_no_status r canary k2), Hs by done.
    split; [done|]. rewrite <-(desired_revised r r' canary) in * by done.
    rewrite <-(retired_revised r r') in He by done. simpl in Hn.
    assert (in_effect rc (k0 ++ kc ++ k1 ++ k2 ++ kp) r' canary) as Hin
      by (eapply in_effect_incl; [|by eapply in_effect_revised]; set_solver).
    unfold final_status in HP. rewrite Hn in HP. destruct (acc.2) as [err|].
    + destruct He as [[=]|He]. eapply ss_failed; [exact Hin| |by rewrite Hacc|by rewrite Hacc].
      eapply failed_mono; [..|exact He]; set_solver.
    + destruct He as (_ & Hall & Hd). eapply ss_active; [exact Hin| |by rewrite Hacc|].
      * eapply handled_incl; [|exact Hd]. set_solver.
      * by rewrite <-Hall.
Qed.

Lemma status_sound_snoc rc k c r :
  ¬ child_write c → status_sound rc k r → status_sound rc (k ++ [c]) r.
Proof.
  intros Hc Hs. assert (k ⊆ k ++ [c]) as Hk by set_solver.
  assert (accepts (k ++ [c]) = accepts k) as Hacc
    by (rewrite accepts_app, (harmless_accepts [c]) by (by repeat constructor); lia).
  destruct Hs as [canary ? ? ? ?|canary err ? ? ? ?|phase outcome ? ?].
  - eapply ss_active; [by eapply in_effect_incl|by eapply handled_incl|by rewrite Hacc|done].
  - eapply ss_failed; [by eapply in_effect_incl|by eapply failed_mono|by rewrite Hacc..].
  - eapply ss_held; [by eapply held_back_incl|done].
Qed.

(** Counters: no call of a run but the deferred one. *)
Definition no_counter (k : list Call) : Prop := Forall (λ c, is_counter c = false) k.
Lemma quiet_no_counter k : Forall quiet k → no_counter k.
Proof. intros Hk. eapply Forall_impl; [exact Hk|]. by intros []. Qed.
Lemma deleting_no_counter k : Forall deleting k → no_counter k.
Proof. intros Hk. eapply Forall_impl; [exact Hk|]. by intros []. Qed.
Lemma cleanup_no_counter route k : cleanup route k → no_counter k.
Proof. intros Hk%cleanup_deleting. by apply deleting_no_counter. Qed.
Lemma writing_no_counter r canary k : Forall (writing r canary) k → no_counter k.
Proof. intros Hk. eapply Forall_impl; [exact Hk|]. by intros []. Qed.
Lemma finalized_no_counter route k r : finalized route k r → no_counter k.
Proof. intros [(-> & _)|(-> & _)]; by repeat constructor. Qed.
Lemma published_no_counter r P ok k a : published r P ok k a → no_counter k.
Proof.
  intros (r' & upd & k1 & k2 & -> & H1 & H2 & _).
  apply Forall_app_2; [by apply quiet_no_counter|constructor; [done|by apply quiet_no_counter]].
Qed.
Lemma cleared_no_counter route k r : cleared route k r → no_counter k.
Proof.
  intros (kf & r1 & kc & items & kh & -> & Hf & Hc & _ & _ & Hh & _).
  repeat apply Forall_app_2; [by eapply finalized_no_counter|by apply quiet_no_counter|].
  constructor; [done|by apply quiet_no_counter].
Qed.

Lemma no_counter_app k k' : no_counter k → no_counter k' → no_counter (k ++ k').
Proof. apply Forall_app_2. Qed.
Lemma no_counter_cons c k : is_counter c = false → no_counter k → no_counter (c :: k).
Proof. by constructor. Qed.
Lemma no_counter_nil : no_counter [].
Proof. constructor. Qed.

#[local] Hint Resolve no_counter_app no_counter_cons no_counter_nil quiet_no_counter
  cleanup_no_counter writing_no_counter finalized_no_counter published_no_counter
  cleared_no_counter : core.

Lemma body_run_no_counter rc req k a : body_run rc req k a → no_counter k.
Proof.
  intros [err|route k0 a0 _ Hd|route k0 a0 _ Hl]; [auto|..]; apply no_counter_cons; try done.
  - destruct Hd as [| |]; eauto 10.
  - destruct Hl; eauto 10.
Qed.
Lemma body_panic_no_counter rc req k : body_panic rc req k → no_counter k.
Proof. intros []. eauto 10. Qed.

Lemma published_answer r P ok k a :
  published r P ok k a → a = ok ∨ ∃ err, a = fails "status_update_error" err.
Proof. intros (? & upd & ? & ? & _ & _ & _ & _ & _ & ->). destruct upd; eauto. Qed.

Lemma fails_ok req k outcome err :
  outcome ∈ ["error"; "get_error"; "finalizer_update_error"; "finalizer_add_error";
             "cert_check_error"; "status_update_error"; "reconcile_error"] →
  outcome_ok req k outcome (mkResult 0) (Some err).
Proof. intros Ho. do 3 right. eauto. Qed.

Lemma canary_interval_next r :
  next_probe r (if 0 <? canary_interval r then canary_interval r else 0).
Proof.
  unfold next_probe, canary_interval. destruct (rollback_policy r) as [[c policy]|]; [|done].
  destruct (rb_IntervalSeconds policy) as [seconds|]; [|done].
  intros Hs. rewrite secondsOr_exact by done. destruct (Z.ltb_spec 0 (seconds * Second)); lia.
Qed.

Lemma live_run_outcome rc req route k outcome res err :
  live_run rc route k (outcome, res, err) →
  outcome_ok req (CGetRoute req (Ok route) :: k) outcome res err.
Proof.
  inversion 1 as [e _|kf r k0 o e Hf Hq Ho|kf r1 k0 r phase o kp a0 Hf Hq Hrev Hheld Hp
    |k0 r canary k1 k2 acc kp a0 Hcl Hcan Hq1 Hw Hadv Hp]; subst.
  - apply fails_ok. set_solver.
  - apply fails_ok. set_solver.
  - apply published_answer in Hp as [[= -> -> ->]|[e [= -> -> ->]]]; [|apply fails_ok; set_solver].
    right. left. destruct Hheld; (split; [set_solver|done]).
  - apply published_answer in Hp as [Hp|[e [= -> -> ->]]]; [|apply fails_ok; set_solver].
    unfold final_answer in Hp. destruct (acc.2) as [e|]; injection Hp as -> -> ->.
    + apply fails_ok. set_solver.
    + do 2 right. left. split; [done|]. split; [done|]. exists r. split.
      * exists route, k0. split; [by eexists|done].
      * apply canary_interval_next.
Qed.

Lemma body_run_outcome rc req k outcome res err :
  body_run rc req k (outcome, res, err) → outcome_ok req k outcome res err.
Proof.
  intros Hrun. remember (outcome, res, err) as a eqn:Ha.
  destruct Hrun as [e|route k0 a0 _ Hd|route k0 a0 _ Hl]; subst.
  - destruct (IsNotFound e); injection Ha as <- <- <-.
    + left. split; [set_solver|done].
    + apply fails_ok. set_solver.
  - inversion Hd; subst; [left; split; [set_solver|done]..|]. apply fails_ok. set_solver.
  - by eapply live_run_outcome.
Qed.

(** A run that counts success has provisioned its Route. *)
Lemma success_run rc req k res err :
  body_run rc req k ("success", res, err) →
  ∃ route k0 r canary k1 k2 kp, k = CGetRoute req (Ok route) :: k0 ++ k1 ++ k2 ++ kp ∧
    cleared route k0 r ∧ in_effect rc k1 r canary ∧ Forall quiet k1 ∧
    Forall (writing r canary) k2 ∧ handled k2 (desired r canary) (retired r) ∧ harmless_calls kp.
Proof.
  intros Hrun. remember ("success", res, err) as a eqn:Ha.
  destruct Hrun as [e|route k0 a0 _ Hd|route k0 a0 _ Hl].
  - by destruct (IsNotFound e).
  - by destruct Hd.
  - destruct Hl as [e _|kf r k0 o e Hf Hq Ho|kf r1 k0 r phase o kp a0 Hf Hq Hrev Hheld Hp
      |k0 r canary k1 k2 acc kp a0 Hcl Hcan Hq1 Hw (_ & _ & Hd) Hp].
    + done.
    + injection Ha as -> _ _. set_solver.
    + apply published_answer in Hp as [->|[e ->]]; [|done]. by destruct Hheld.
    + exists route, k0, r, canary, k1, k2, kp. split_and!; try done; [|harmless].
      apply published_answer in Hp as [->|[e ->]]; [|done]. unfold final_answer in Ha.
      destruct (acc.2); [done|]. by apply Hd.
Qed.
End specs.

(** ** Reconcile as a trace *)

Section traces.
Context {E : Type} `{KubeEnv E} `{GoLibs}.

Lemma traces_setCondition r ty st re msg : respects traces (setCondition (E:=E) r ty st re msg).
Proof. unfold setCondition. trace_steps. Qed.
Lemma traces_checkBackend r acc b : respects traces (checkBackend (E:=E) r acc b).
Proof. unfold checkBackend. trace_steps. Qed.
Lemma traces_checkRef ns acc ref : respects traces (checkRef (E:=E) ns acc ref).
Proof. unfold checkRef. trace_steps. Qed.
Lemma traces_evaluateRouteConflicts r : respects traces (evaluateRouteConflicts (E:=E) r).
Proof. unfold evaluateRouteConflicts. trace_steps. Qed.
Lemma traces_evaluateCanaryRollback r : respects traces (evaluateCanaryRollback (E:=E) r).
Proof.
  unfold evaluateCanaryRollback, canaryEnter, probeCanaryBackend, canaryCommit, assignCount,
    assignUntil, deleteUntil. trace_steps.
Qed.
Lemma traces_clearCanary r : respects traces (clearCanaryRuntimeState (E:=E) r).
Proof. unfold clearCanaryRuntimeState, deleteCount, deleteUntil. trace_steps. Qed.
Lemma traces_phaseMetric r p : respects traces (setRoutePhaseMetric (E:=E) r p).
Proof. unfold setRoutePhaseMetric. trace_steps. Qed.
Lemma traces_healthMetric r p : respects traces (setRouteBackendHealthState (E:=E) r p).
Proof. unfold setRouteBackendHealthState. trace_steps. Qed.
Lemma traces_managedMetric r p : respects traces (setManagedResourcesMetric (E:=E) r p).
Proof. unfold setManagedResourcesMetric. trace_steps. Qed.
Lemma traces_clearMetrics r : respects traces (clearRouteMetrics (E:=E) r).
Proof. unfold clearRouteMetrics. trace_steps. Qed.
End traces.
#[export] Hint Resolve traces_setCondition traces_checkBackend traces_checkRef
  traces_evaluateRouteConflicts traces_evaluateCanaryRollback traces_clearCanary
  traces_phaseMetric traces_healthMetric traces_managedMetric traces_clearMetrics : traces.

Section reconcile_traces.
Context {E : Type} `{KubeEnv E} `{GoLibs}.

Lemma traces_evaluateBackendHealth r : respects traces (evaluateBackendHealth (E:=E) r).
Proof. unfold evaluateBackendHealth. trace_steps. Qed.
Lemma traces_evaluateGatewayCertificate r :
  respects traces (evaluateGatewayCertificate (E:=E) r).
Proof. unfold evaluateGatewayCertificate. destruct (gatewayRef r). trace_steps. Qed.
#[local] Hint Resolve traces_evaluateBackendHealth traces_evaluateGatewayCertificate : traces.

Lemma traces_publishStatus r state : respects traces (publishStatus (E:=E) r state).
Proof. unfold publishStatus. trace_steps. Qed.
#[local] Hint Resolve traces_publishStatus : traces.

Lemma traces_track acc m : respects traces m → respects traces (track (E:=E) acc m).
Proof. intros Hm. unfold track. trace_steps. Qed.
Lemma traces_trackErr acc m : respects traces m → respects traces (trackErr (E:=E) acc m).
Proof. intros Hm. unfold trackErr. trace_steps. Qed.
#[local] Hint Resolve traces_track traces_trackErr : traces.

Lemma traces_reconcileChildren r canary : respects traces (reconcileChildren (E:=E) r canary).
Proof.
  unfold reconcileChildren, reconcileHTTPRoutes, reconcileRedirects, reconcileTrafficPolicy,
    reconcileDestinationRules, reconcileBackendTLS, reconcileBodySizes, reconcileAuth,
    reconcileRateLimit, reconcileHTTPRoute, reconcileRedirectHTTPRoute, reconcileVirtualService,
    reconcileDestinationRule. trace_steps.
Qed.
#[local] Hint Resolve traces_reconcileChildren : traces.

Lemma traces_reconcileBody req : respects traces (reconcileBody (E:=E) req).
Proof.
  unfold reconcileBody, handleDeletion, reconcileLive, ensureFinalizer, checkCertificate,
    blockOnConflicts, blockOnBackends, provision, decideCanary, finish, concludeStatus.
  trace_steps.
Qed.

Lemma traces_Reconcile req : respects traces (Reconcile (E:=E) req).
Proof.
  intros s. pose proof (traces_reconcileBody req s) as Hb. unfold Reconcile.
  assert (∀ c s', (∀ e : E, call_step c e e) → traces s' (mkSt (s_env s') (s_rec s') (s_log s' ++ [c])))
    as Hemit by (intros c s' Hc; by apply (traces_emit c Hc s')).
  destruct (reconcileBody req s) as [[[[o r] err]|msg] s']; simpl in *;
    (etransitivity; [exact Hb|]); by apply Hemit.
Qed.
End reconcile_traces.

(** ** Helpers of the claims *)

Section panics.
Context `{GoLibs} `{!StructLaws}.

(** No builder panics on valid strings. *)
Lemma desired_no_panic r canary msg : route_utf8 r → Panic msg ∉ desired r canary.
Proof.
  intros [Hn Hh] Hin. unfold desired, want_routes, want_redirects, want_virtualService,
    want_destinationRules, want_bodySizes, want_auth, want_rateLimit in Hin.
  rewrite !elem_of_app in Hin. destruct_or! Hin.
  - by apply list_elem_of_fmap in Hin as ([? ?] & ? & _).
  - destruct (wantsRedirect r); [|by apply elem_of_nil in Hin].
    by apply list_elem_of_fmap in Hin as ([? ?] & ? & _).
  - destruct (wantsVirtualService r canary); [|by apply elem_of_nil in Hin].
    by apply list_elem_of_singleton in Hin.
  - by apply list_elem_of_fmap in Hin as ([? ?] & ? & _).
  - case_bool_decide; [|by apply elem_of_nil in Hin].
    apply list_elem_of_fmap in Hin as ([i rule] & Heq & _). unfold built in Heq.
    pose proof (newEnvoyFilter_spec (St:=unit) r i rule tt) as Hspec.
    destruct (ParseUint _ _); [destruct Hspec as (? & Hs & _)|destruct Hspec as (? & ? & Hs & _)];
      by rewrite Hs in Heq.
  - destruct (rs_Auth (r_Spec r)); [|by apply elem_of_nil in Hin].
    by apply elem_of_cons in Hin as [?|?%list_elem_of_singleton].
  - destruct (rs_RateLimit (r_Spec r)) as [rl|]; [|by apply elem_of_nil in Hin].
    apply list_elem_of_singleton in Hin. unfold built in Hin.
    pose proof (newRateLimitEnvoyFilter_spec (St:=unit) r rl tt Hn Hh) as Hspec.
    destruct (rateLimitFillInterval _); [destruct Hspec as (? & ? & ? & Heq & _)|
      destruct Hspec as [Heq _]]; by rewrite Heq in Hin.
Qed.
End panics.

Section present.
Context {E : Type} `{ChildStore E} `{GoLibs} `{!OwnerLaws}.

Lemma accepted_write c o : accepted c = Some o → child_write c.
Proof. by destruct c. Qed.
Lemma deleted_write c key : deleted c = Some key → child_write c.
Proof. by destruct c. Qed.
Lemma writing_accepted r canary c o :
  writing r canary c → accepted c = Some o → ∃ d, Ret (Ok d) ∈ desired r canary ∧ same_object d o.
Proof.
  destruct c as [| | | | | | | | | | | |x []|x []| | | | |]; simpl; try done;
    intros (d & ? & ?) [= <-]; eauto.
Qed.
Lemma writing_deleted r canary c key :
  writing r canary c → deleted c = Some key → key ∈ retired r.
Proof. destruct c as [| | | | | | | | | | | | | |kd n []| | | |]; simpl; try done. by intros ? [= <-]. Qed.

(** The cluster [e1] is [e0] with every object that [r] calls for, none that
    it retires, and the others untouched. *)
Definition realizes (r : Route) (canary : option RouteCanary) (e0 e1 : E) : Prop :=
  (∀ o, o ∈ desired r canary → ∃ d c c', o = Ret (Ok d) ∧ same_object d c ∧ stored_as c c' ∧
    children e1 !! c_Key d = Some c') ∧
  (∀ key, key ∈ retired r → children e1 !! key = None) ∧
  (∀ key, key ∉ retired r → (∀ d, Ret (Ok d) ∈ desired r canary → c_Key d ≠ key) →
    children e1 !! key = children e0 !! key).

Section written.
Context (r : Route) (canary : option RouteCanary) (k0 k2 kp : list Call) (e e' : E).
Hypothesis Ht : trace (k0 ++ k2 ++ kp) e e'.
Hypothesis Hbefore : harmless_calls k0.
Hypothesis Hafter : harmless_calls kp.
Hypothesis Hw : Forall (writing r canary) k2.

Lemma written_calls c : c ∈ k0 ++ k2 ++ kp → child_write c → writing r canary c.
Proof.
  intros Hc Hcw. rewrite !elem_of_app in Hc. unfold harmless_calls in *.
  rewrite Forall_forall in Hbefore, Hafter, Hw.
  destruct Hc as [Hc|[Hc|Hc]]; [by destruct (Hbefore c Hc)|auto|by destruct (Hafter c Hc)].
Qed.

Lemma written_accepted c o :
  c ∈ k0 ++ k2 ++ kp → accepted c = Some o → ∃ d, Ret (Ok d) ∈ desired r canary ∧ same_object d o.
Proof. intros Hc Ha. eapply writing_accepted; [|done]. by eapply written_calls, accepted_write. Qed.
Lemma written_deleted c key :
  c ∈ k0 ++ k2 ++ kp → deleted c = Some key → key ∈ retired r.
Proof. intros Hc Hd. eapply writing_deleted; [|done]. by eapply written_calls, deleted_write. Qed.

Lemma applied_present d :
  all_applied k2 (desired r canary) → Ret (Ok d) ∈ desired r canary →
  ∃ c c', same_object d c ∧ stored_as c c' ∧ children e' !! c_Key d = Some c'.
Proof.
  intros Hall Hd.
  destruct (store_written _ _ _ (c_Key d) Ht) as (call & o & o' & Hcall & Hacc & Hkey & Hst & Hlk).
  - destruct (Hall _ Hd) as (d' & [= <-] & call & c & Hc & Hacc & Hsame).
    exists call, c. split_and!; [rewrite !elem_of_app; auto|done|by apply same_object_key].
  - apply Forall_forall. intros c Hc Hdel.
    eapply (Keys.Keys.desired_not_retired r canary d); [done|]. by eapply written_deleted.
  - destruct (written_accepted call o) as (d' & Hd' & Hsame); [done..|].
    assert (d' = d) as ->.
    { eapply Keys.Keys.desired_key_inj; [done..|]. rewrite <-Hkey. symmetry.
      by apply same_object_key. }
    eauto.
Qed.

Lemma removed_absent key : removed k2 key → key ∈ retired r → children e' !! key = None.
Proof.
  intros (res & Hin & Hres) Hret. eapply (store_removed _ _ _ key Ht).
  - exists res. rewrite !elem_of_app. auto.
  - apply Forall_forall. intros c Hc o Ho <-.
    destruct (written_accepted c o) as (d & Hd & Hsame); [done..|].
    rewrite (same_object_key d o) in Hret by done.
    by eapply Keys.Keys.desired_not_retired.
Qed.

Lemma others_untouched key :
  key ∉ retired r → (∀ d, Ret (Ok d) ∈ desired r canary → c_Key d ≠ key) →
  children e' !! key = children e !! key.
Proof.
  intros Hret Hdes. apply (store_untouched _ _ _ key Ht), Forall_forall. intros c Hc Htouch.
  assert (writing r canary c) as Hwc by (apply written_calls; [done|]; by destruct c).
  destruct c; try done; injection Htouch as <-; [destruct Hwc as (d & Hd & Hsame)..|done];
    apply (Hdes d Hd); symmetry; by apply same_object_key.
Qed.

Lemma written_realizes : handled k2 (desired r canary) (retired r) → realizes r canary e e'.
Proof.
  intros [Hall Hrem]. split_and!; [|intros key Hkey; apply removed_absent; auto|apply others_untouched].
  intros o Ho. destruct (Hall o Ho) as (d & -> & _).
  destruct (applied_present d) as (c & c' & ? & ? & ?); [done..|]. by exists d, c, c'.
Qed.
End written.
End present.

Section gating.
Context `{GoLibs} `{!OwnerLaws}.

(** A write that a Route under deletion, or a cleared one, accounts for. *)
Definition gated (rc : RouteReconciler) (req : NamespacedName) (k1 : list Call) (c : Call) : Prop :=
  (∃ route kd n r, CGetRoute req (Ok route) ∈ k1 ∧ deletionIsZero route = false ∧
     c = CDeleteChild kd n r ∧ Keys.Keys.crossNS kd = true) ∨
  (∃ route k0 r canary, (CGetRoute req (Ok route) :: k0) `prefix_of` k1 ∧
     deletionIsZero route = true ∧ cleared route k0 r ∧ in_effect rc k1 r canary ∧
     writing r canary c).

(** After the first call and a cleared prefix, writes are those of the route. *)
Lemma cleared_gated rc req route k0 r canary ka kb kc k1 c k2 :
  (CGetRoute req (Ok route) :: k0) ++ ka ++ kb ++ kc = k1 ++ c :: k2 → child_write c →
  deletionIsZero route = true → cleared route k0 r → in_effect rc ka r canary →
  harmless_calls ka → Forall (writing r canary) kb → harmless_calls kc → gated rc req k1 c.
Proof.
  intros Heq Hc Hz Hcl Hcan Ha Hb Hkc.
  apply write_after in Heq as (k1' & -> & Heq); [| |done].
  2:{ harmless. }
  apply write_after in Heq as (k1'' & -> & Heq); [|done..].
  right. exists route, k0, r, canary. split_and!; [by eexists|done..| |].
  { eapply in_effect_incl; [|exact Hcan]. set_solver. }
  assert (c ∈ kb ++ kc) as [Hin|Hin]%elem_of_app by (rewrite Heq; set_solver).
  - rewrite Forall_forall in Hb. by apply Hb.
  - unfold harmless_calls in Hkc. rewrite Forall_forall in Hkc. by destruct (Hkc c Hin).
Qed.

Lemma deletion_gated rc req route k a tail k1 c k2 :
  CGetRoute req (Ok route) :: k ++ tail = k1 ++ c :: k2 → child_write c →
  deletionIsZero route = false → deletion_run route k a → harmless_calls tail → gated rc req k1 c.
Proof.
  intros Heq Hc Hz Hrun Htail. left.
  apply (write_after [CGetRoute req (Ok route)]) in Heq as (k1' & -> & Heq);
    [|harmless|done].
  assert (∃ kd n r, c = CDeleteChild kd n r ∧ Keys.Keys.crossNS kd = true) as (kd & n & r & ? & ?).
  { assert (c ∈ k ++ tail) as [Hin|Hin]%elem_of_app by (rewrite Heq; set_solver).
    2:{ unfold harmless_calls in Htail. rewrite Forall_forall in Htail. by destruct (Htail c Hin). }
    assert (∀ k', Forall deleting k' → c ∈ k' →
      ∃ kd n r, c = CDeleteChild kd n r ∧ Keys.Keys.crossNS kd = true) as Hdel.
    { intros k' Hk' Hin'. rewrite Forall_forall in Hk'. specialize (Hk' c Hin').
      destruct c; try done. eauto. }
    assert (∀ k', Forall quiet k' → c ∈ k' → False) as Hq.
    { intros k' Hk' Hin'. rewrite Forall_forall in Hk'. specialize (Hk' c Hin'). by destruct c. }
    destruct Hrun as [k ? Hk|ka upd kb ? Hka%cleanup_deleting Hkb|ka err ? Hka%cleanup_deleting].
    - by destruct (Hq k).
    - apply elem_of_app in Hin as [Hin|[->|Hin]%elem_of_cons]; [eauto|done|by destruct (Hq kb)].
    - apply elem_of_app in Hin as [Hin| ->%list_elem_of_singleton]; [eauto|done]. }
  exists route, kd, n, r. split_and!; [set_solver|done..].
Qed.

Lemma body_gated rc req k outcome k1 c k2 :
  k ++ [CCounterInc outcome] = k1 ++ c :: k2 → child_write c →
  (∃ a, body_run rc req k a) ∨ body_panic rc req k → gated rc req k1 c.
Proof.
  intros Heq Hc Hrun. assert (harmless_calls [CCounterInc outcome]) as Hctr
    by harmless.
  destruct Hrun as [[a Hrun]|Hrun].
  2:{ destruct Hrun as [route k0 r canary ka kb msg Hz Hcl Hcan Ha Hb _].
      eapply (cleared_gated rc req route k0 r canary ka kb [CCounterInc outcome]);
        [|done..|by apply quiet_harmless|done|done].
      rewrite <-Heq. simpl. by rewrite <-!app_assoc. }
  destruct Hrun as [err|route k' a' Hz Hd|route k' a' Hz Hl].
  - exfalso. eapply no_write_in; [exact Heq|harmless|done].
  - by eapply deletion_gated.
  - destruct Hl as [err _|kf r k0 o err Hf Hq _|kf r1 k0 r phase o kp a0 Hf Hq Hrev Hheld Hp
      |k0 r canary ka kb acc kp a0 Hcl Hcan Ha Hb _ Hp].
    + exfalso. eapply no_write_in; [exact Heq|harmless|done].
    + exfalso. eapply no_write_in; [exact Heq|harmless|done].
    + exfalso. eapply no_write_in; [exact Heq|harmless|done].
    + eapply (cleared_gated rc req route k0 r canary ka kb (kp ++ [CCounterInc outcome]));
        [|done..|by apply quiet_harmless|done|].
      * rewrite <-Heq. simpl. by rewrite <-!app_assoc.
      * harmless.
Qed.
End gating.

Section claims.
Context {E : Type} `{KubeEnv E} `{GoLibs} `{!OwnerLaws}.
Implicit Types (s : St E).

(** The states between reconciles: [main]'s reconciler to start with, any
    changes of the cluster by others, and the reconciles themselves (the
    worker recovers from a panic). *)
Inductive reachable : St E → Prop :=
| reach_start e : reachable (mkSt e Main.Main.newRouteReconciler [])
| reach_others e s : reachable s → reachable (mkSt e (s_rec s) (s_log s))
| reach_reconcile req s : reachable s → reachable (Reconcile req s).2.

Lemma Reconcile_free req s : free (s_rec s) → free (s_rec (Reconcile req s).2).
Proof.
  intros Hf. pose proof (Reconcile_runs req s Hf) as Hrun.
  by destruct (Reconcile req s) as [[[res err]|msg] s']; destruct Hrun.
Qed.
Lemma reachable_free s : reachable s → free (s_rec s).
Proof. induction 1; [done|done|by apply Reconcile_free]. Qed.

(** C7: every run of [Reconcile] is one of those [body_run] describes, or
    panics as [body_panic] does; the outcome counter is incremented exactly
    once, at the end and also on a panic, and the canary mutex is free again. *)
Theorem Reconcile_refines req s :
  free (s_rec s) →
  let '(out, s') := Reconcile req s in
  free (s_rec s') ∧ ∃ k outcome,
    s_log s' = s_log s ++ k ++ [CCounterInc outcome] ∧ no_counter k ∧
    match out with
    | Ret (res, err) => body_run (s_rec s') req k (outcome, res, err)
    | Panic _ => outcome = "error" ∧ body_panic (s_rec s') req k
    end.
Proof.
  intros Hf. pose proof (Reconcile_runs req s Hf) as Hrun.
  destruct (Reconcile req s) as [[[res err]|msg] s'].
  - destruct Hrun as (? & outcome & k & ? & ?). split; [done|]. exists k, outcome.
    split_and!; [done|by eapply body_run_no_counter|done].
  - destruct Hrun as (? & k & ? & ?). split; [done|]. exists k, "error".
    split_and!; [done|by eapply body_panic_no_counter|done..].
Qed.

(** C27: however many reconciles ran since the operator started, returned
    or panicked, and whatever changed in the cluster between them, the canary
    mutex is free before and after the next one, which panics only on a Route
    that the API server delivered to it with a name or host that is not valid
    UTF-8: it never deadlocks and never writes to a nil map. *)
Theorem Reconcile_panics_only_on_bad_utf8 `{!StructLaws} req s :
  reachable s →
  free (s_rec s) ∧ free (s_rec (Reconcile req s).2) ∧
  ∀ msg, (Reconcile req s).1 = Panic msg →
    ∃ k r, s_log (Reconcile req s).2 = s_log s ++ k ∧ delivered k r ∧ ¬ route_utf8 r.
Proof.
  intros Hf%reachable_free. split; [done|]. split; [by apply Reconcile_free|]. intros msg Hp.
  pose proof (Reconcile_runs req s Hf) as Hrun.
  destruct (Reconcile req s) as [out s']. simpl in *. subst out.
  destruct Hrun as (_ & k & Hk & Hpanic). eexists _.
  destruct Hpanic as [route k0 r canary k1 k2 m _ Hcl _ _ _ Hin]. exists r.
  split_and!; [exact Hk| |].
  - eapply delivered_mono; [|by eapply (cleared_delivered req)]. set_solver.
  - intros Hutf. by eapply desired_no_panic.
Qed.

(** C26: the outcome counted and what [Reconcile] returns agree: nil and no
    requeue for a missing or deleted Route, nil and a 15 s requeue for a
    blocked one, and an error without requeue under every failure label.  On
    success there is no error and the requeue is the probe interval of the
    rollback policy of the Route that the run cleared (30 s by default), and
    none when it has no such policy. *)
Theorem Reconcile_outcomes req s res err :
  free (s_rec s) → (Reconcile req s).1 = Ret (res, err) →
  ∃ outcome k, s_log (Reconcile req s).2 = s_log s ++ k ++ [CCounterInc outcome] ∧
    outcome_ok req k outcome res err.
Proof.
  intros Hf Hr. pose proof (Reconcile_runs req s Hf) as Hrun.
  destruct (Reconcile req s) as [out s']. simpl in *. subst out.
  destruct Hrun as (_ & outcome & k & Hk & Hb). exists outcome, k.
  split; [done|]. by eapply body_run_outcome.
Qed.

(** C4: [Reconcile] writes or deletes a generated object only in two
    situations: it handles a Route under deletion and deletes an object of a
    cross-namespace kind; or before that call the log already holds a stored
    finalizer, a list of Routes without a winning conflict, and the ready
    endpoints of every backend, and the call concerns an object that Route
    calls for, or retires. *)
Theorem Reconcile_writes_gated req s k1 c k2 :
  free (s_rec s) → s_log (Reconcile req s).2 = s_log s ++ k1 ++ c :: k2 → child_write c →
  gated (s_rec (Reconcile req s).2) req k1 c.
Proof.
  intros Hf Hlog Hc. pose proof (Reconcile_runs req s Hf) as Hrun.
  assert (∃ k outcome, k ++ [CCounterInc outcome] = k1 ++ c :: k2 ∧
    ((∃ a, body_run (s_rec (Reconcile req s).2) req k a) ∨
     body_panic (s_rec (Reconcile req s).2) req k)) as (k & outcome & Hk & Hb).
  { destruct (Reconcile req s) as [[[res err]|msg] s']; simpl in *.
    - destruct Hrun as (_ & o & k & Hk & Hb). rewrite Hk in Hlog. apply app_inv_head in Hlog.
      exists k, o. eauto.
    - destruct Hrun as (_ & k & Hk & Hb). rewrite Hk in Hlog. apply app_inv_head in Hlog.
      exists k, "error". auto. }
  clear Hrun Hlog.
  by eapply body_gated.
Qed.

(** C6: a run publishes at most one status, and it is sound: phase Active
    with both conditions True only after every desired object was applied,
    their number as [managedResources]; phase Degraded with both False and a
    the number of accepted objects only after a failure, which the log shows:
    an object that could not be built or a call for one of the objects that the
    API server refused; and otherwise count 0, both conditions False, and the
    phase of the conflict, missing Service or empty Endpoints that the run
    observed.  (Provisioning is never published.) *)
Theorem Reconcile_status_sound req s :
  free (s_rec s) →
  ∃ k, s_log (Reconcile req s).2 = s_log s ++ k ∧
    (status_writes k = [] ∨
     ∃ r upd, status_writes k = [CUpdateRouteStatus r upd] ∧
       status_sound (s_rec (Reconcile req s).2) k r).
Proof.
  intros Hf. pose proof (Reconcile_runs req s Hf) as Hrun.
  destruct (Reconcile req s) as [[[res err]|msg] s']; simpl in *.
  - destruct Hrun as (_ & outcome & k & Hk & Hb). eexists. split; [exact Hk|].
    rewrite status_writes_app, (status_writes_cons (CCounterInc _)), app_nil_r by done.
    destruct Hb as [e|route k' a' Hz Hd|route k' a' Hz Hl]; [by left|..];
      rewrite status_writes_cons by done.
    + left. by eapply deletion_run_no_status.
    + destruct (live_run_status _ _ [CGetRoute req (Ok route)] _ _ ltac:(harmless) Hl)
        as [->|(r & upd & -> & Hs)]; [by left|].
      right. exists r, upd. split; [done|].
      apply (status_sound_snoc _ (CGetRoute req (Ok route) :: k')); [tauto|exact Hs].
  - destruct Hrun as (_ & k & Hk & Hb). eexists. split; [exact Hk|]. left.
    rewrite status_writes_app, (status_writes_cons (CCounterInc _)), app_nil_r by done.
    destruct Hb as [route k0 r canary ka kb m Hz Hcl Hcan Hq Hw _].
    rewrite status_writes_cons, !status_writes_app, (cleared_no_status _ _ _ Hcl),
      (quiet_no_status ka), (writing_no_status r canary kb) by done. done.
Qed.

(** C25: handling a Route under deletion never panics.  With the finalizer it
    lists the objects of each of the four cross-namespace kinds that carry the
    route's labels in the namespace of its Gateway and deletes every one it was
    given, whatever calls fail, before the one Update that removes the
    finalizer; without it it writes nothing.  No object is created or updated
    and no status written, and a completed deletion has dropped the route's
    canary state. *)
Theorem handleDeletion_correct route s :
  free (s_rec s) →
  ∃ a s' k, handleDeletion route s = (Ret a, s') ∧ free (s_rec s') ∧
    s_log s' = s_log s ++ k ∧ deletion_run route k a ∧ forgotten route k a s'.
Proof.
  intros Hf. pose proof (handleDeletion_wp route s Hf) as Hwp. unfold wp in Hwp.
  destruct (handleDeletion route s) as [[a|msg] s']; [|done].
  destruct Hwp as (Hf' & k & Hk & Hd & Hfo). exists a, s', k. auto.
Qed.
End claims.

Section convergence.
Context {E : Type} `{ChildStore E} `{GoLibs} `{!OwnerLaws}.
Implicit Types (s : St E).

Lemma converged req s :
  free (s_rec s) → last (s_log (Reconcile req s).2) = Some (CCounterInc "success") →
  let s' := (Reconcile req s).2 in
  ∃ k r canary, s_log s' = s_log s ++ k ∧ delivered k r ∧
    in_effect (s_rec s') k r canary ∧ realizes r canary (s_env s) (s_env s').
Proof.
  intros Hf Hlast. pose proof (Reconcile_runs req s Hf) as Hrun.
  pose proof (traces_Reconcile req s) as Htr.
  destruct (Reconcile req s) as [[[res err]|msg] s']; simpl in *.
  2:{ destruct Hrun as (_ & k & Hk & _). rewrite Hk, app_assoc, last_snoc in Hlast. done. }
  destruct Hrun as (_ & outcome & k & Hk & Hb).
  rewrite Hk, app_assoc, last_snoc in Hlast. injection Hlast as ->.
  destruct (success_run _ _ _ _ _ Hb) as (route & k0 & r & canary & k1 & k2 & kp & -> & Hcl &
    Hcan & Hq & Hw & Hall & Hp).
  destruct Htr as (kt & Hkt & Htr). rewrite Hk in Hkt. apply app_inv_head in Hkt as <-.
  eexists _, r, canary. split_and!; [exact Hk| | |].
  - eapply delivered_mono; [|by eapply (cleared_delivered req)]. set_solver.
  - eapply in_effect_incl; [|exact Hcan]. set_solver.
  - eapply (written_realizes r canary (CGetRoute req (Ok route) :: k0 ++ k1) k2
      (kp ++ [CCounterInc "success"])); [|harmless|harmless|done..].
    simpl. rewrite <-!app_assoc in *. simpl in Htr. by rewrite <-!app_assoc in Htr.
Qed.

(** C5: after a run that counts success, the cluster holds every object the
    Route calls for under the canary in effect, as last written by this run,
    holds none of the objects the Route retires, and every other generated
    object is as before the run. *)
Theorem Reconcile_converges req s :
  free (s_rec s) → last (s_log (Reconcile req s).2) = Some (CCounterInc "success") →
  let s' := (Reconcile req s).2 in
  ∃ k r canary, s_log s' = s_log s ++ k ∧ delivered k r ∧
    in_effect (s_rec s') k r canary ∧ realizes r canary (s_env s) (s_env s').
Proof. exact (converged req s). Qed.

(** The optional objects that [deleteAuthResources] and
    [deleteRateLimitEnvoyFilter] delete. *)
Definition retirable (x : role) : bool :=
  match x with RJwt | RAuthz | RRateLimit => true | _ => false end.

Lemma retired_iff r canary x :
  x ∉ desired_roles r canary → role_key r x ∈ retired r ↔ retirable x = true.
Proof.
  intros Hx. unfold retired, retired_auth, retired_rateLimit. split.
  - by intros [Hin|Hin]%elem_of_app; case_match; decompose_list_elem_of;
      match goal with Hk : role_key _ _ = _ |- _ => first
        [ apply (role_key_inj r x RJwt) in Hk as -> | apply (role_key_inj r x RAuthz) in Hk as ->
        | apply (role_key_inj r x RRateLimit) in Hk as -> ] end.
  - revert Hx. unfold desired_roles. destruct x; simpl; try done; intros Hx _;
      destruct (rs_Auth (r_Spec r)), (rs_RateLimit (r_Spec r)); set_solver.
Qed.

(** C10: what a successful run does with the objects that the Route's spec no
    longer calls for: the two authentication policies and the rate-limit
    filter are gone, but an HTTPRoute, a redirect, the VirtualService, a
    DestinationRule or a body-size filter stays as it was. *)
Theorem leftovers_stay req s :
  free (s_rec s) → last (s_log (Reconcile req s).2) = Some (CCounterInc "success") →
  let s' := (Reconcile req s).2 in
  ∃ k r canary, s_log s' = s_log s ++ k ∧ delivered k r ∧ in_effect (s_rec s') k r canary ∧
    ∀ x, x ∉ desired_roles r canary →
      children (s_env s') !! role_key r x =
      if retirable x then None else children (s_env s) !! role_key r x.
Proof.
  intros Hf Hlast s'. destruct (converged req s Hf Hlast) as (k & r & canary & Hk & Hd & Hc & Hr).
  exists k, r, canary. split_and!; [done..|]. intros x Hx. destruct Hr as (_ & Hgone & Hkept).
  pose proof (retired_iff r canary x Hx) as Hiff. destruct (retirable x) eqn:Hret.
  - apply Hgone. by apply Hiff.
  - apply Hkept; [by intros Hin%Hiff|]. intros d [i Hi]%list_elem_of_lookup Heq.
    destruct (desired_role _ _ _ _ Hi) as (y & Hy & Hdy). rewrite Hdy in Heq.
    apply role_key_inj in Heq as ->. by apply Hx, (list_elem_of_lookup_2 _ i).
Qed.
End convergence.

(** ** A concrete cluster *)

Definition ex_rule (host : string) : RouteRule := mkRule host "/api" (mkBackend "app" 443 "HTTPS") None.
Definition ex_spec (host : string) : RouteSpec :=
  mkSpec [ex_rule host] None "30s" "1048576" None None None
    (Some (mkAuth "https://issuer" "https://issuer/keys" ["app"] None)) None None.
Definition ex_route (name host : string) : Route :=
  mkRoute (newMeta name "demo" ∅) (ex_spec host) (mkStatus "" [] 0).
Definition ex_req : NamespacedName := mkNN "demo" "app".
Definition ex_mem (rs : list Route) (ready : list string) : Mem :=
  mkMem (list_to_map ((λ r, (r_NN r, r)) <$> rs))
    {[ mkNN "demo" "app" := mkService "app" ]}
    {[ mkNN "demo" "app" := mkEndpoints [ready] ]}
    {[ mkNN "istio-system" "istio-gateway" := mkGw [] ]} ∅ ∅ (Second * 100) [] 1 ∅ ∅.
Definition ex_state (m : Mem) : St Mem := mkSt m (mkReconciler true false None None) [].
Definition ex_good : St Mem := ex_state (ex_mem [ex_route "app" "app.example.com"] ["10.0.0.1"]).
Definition ex_bad_host : string := String "255"%char "".
Definition ex_bad_route : Route :=
  mkRoute (newMeta "app" "demo" ∅)
    (mkSpec [ex_rule ex_bad_host] None "" "" None None None None
      (Some (mkRateLimit 10 "Second" None)) None) (mkStatus "" [] 0).
Definition ex_bad : St Mem := ex_state (ex_mem [ex_bad_route] ["10.0.0.1"]).
Definition ex_log (s : St Mem) : list Call := s_log (Reconcile ex_req s).2.
Definition published_phase (s : St Mem) : list (string * Z) :=
  omap (λ c, match c with
             | CUpdateRouteStatus r _ => Some (st_Phase (r_Status r), st_ManagedResources (r_Status r))
             | _ => None end) (ex_log s).

(** One HTTPRoute, a redirect, a VirtualService, a DestinationRule, an
    EnvoyFilter and the two policies. *)
Example ex_success :
  last (ex_log ex_good) = Some (CCounterInc "success") ∧ published_phase ex_good = [("Active", 7)] ∧
  size (mem_children (s_env (Reconcile ex_req ex_good).2)) = 7%nat.
Proof. by vm_compute. Qed.
(** No ready endpoint, no Service, an older route with the same rule. *)
Example ex_blocked :
  published_phase (ex_state (ex_mem [ex_route "app" "a.example"] [])) = [("Degraded", 0)] ∧
  last (ex_log (ex_state (ex_mem [ex_route "app" "a.example"; ex_route "aaa" "a.example"] ["x"])))
    = Some (CCounterInc "conflict").
Proof. by vm_compute. Qed.

Lemma Reconcile_refines_witness :
  let '(out, s') := Reconcile ex_req ex_good in
  free (s_rec s') ∧ ∃ k outcome, s_log s' = s_log ex_good ++ k ++ [CCounterInc outcome] ∧ no_counter k ∧
    match out with
    | Ret (res, err) => body_run (s_rec s') ex_req k (outcome, res, err)
    | Panic _ => outcome = "error" ∧ body_panic (s_rec s') ex_req k
    end.
Proof. pose proof (Reconcile_refines ex_req ex_good eq_refl) as Hw. exact Hw. Defined.

Definition ex_panic : string := "proto: string field contains invalid UTF-8".
Lemma Reconcile_panics_only_on_bad_utf8_witness :
  (Reconcile ex_req ex_bad).1 = Panic ex_panic ∧
  free (s_rec ex_bad) ∧ free (s_rec (Reconcile ex_req ex_bad).2) ∧
  ∀ msg, (Reconcile ex_req ex_bad).1 = Panic msg → ∃ k r,
    s_log (Reconcile ex_req ex_bad).2 = s_log ex_bad ++ k ∧ delivered k r ∧ ¬ route_utf8 r.
Proof.
  split; [by vm_compute|].
  exact (Reconcile_panics_only_on_bad_utf8 ex_req ex_bad (reach_start (s_env ex_bad))).
Defined.

(** A Route whose canary is probed every 45 s. *)
Definition ex_probed_route : Route :=
  mkRoute (newMeta "app" "demo" ∅)
    (mkSpec [ex_rule "app.example.com"] None "30s" "" None None None None None
      (Some (mkCanary (mkBackend "app" 443 "HTTPS") 20
        (Some (mkRollback 3 "" (Some 45) None))))) (mkStatus "" [] 0).
Definition ex_probed : St Mem := ex_state (ex_mem [ex_probed_route] ["10.0.0.1"]).
Lemma Reconcile_outcomes_witness :
  (Reconcile ex_req ex_probed).1 = Ret (mkResult (45 * Second), None) ∧
  ∃ outcome k, s_log (Reconcile ex_req ex_probed).2 = s_log ex_probed ++ k ++ [CCounterInc outcome] ∧
    outcome_ok ex_req k outcome (mkResult (45 * Second)) None.
Proof.
  assert ((Reconcile ex_req ex_probed).1 = Ret (mkResult (45 * Second), None)) as Hr
    by (by vm_compute).
  split; [exact Hr|].
  exact (Reconcile_outcomes ex_req ex_probed (mkResult (45 * Second)) None eq_refl Hr).
Defined.

(** The first write of the successful run. *)
Definition ex_is_write (c : Call) : bool :=
  match c with CCreateChild _ _ | CUpdateChild _ _ | CDeleteChild _ _ _ => true | _ => false end.
Definition ex_index : nat :=
  match list_find (λ c, ex_is_write c = true) (ex_log ex_good) with Some (i, _) => i | None => 0 end.
Definition ex_write : Call := default (CNow 0) (ex_log ex_good !! ex_index).

Lemma split_at {A} (l0 l : list A) i x :
  l0 = [] → l !! i = Some x → l = l0 ++ take i l ++ x :: drop (S i) l.
Proof. intros -> Hi. symmetry. by apply take_drop_middle. Qed.

Lemma Reconcile_writes_gated_witness :
  let log := s_log (Reconcile ex_req ex_good).2 in
  log !! ex_index = Some ex_write ∧ child_write ex_write ∧
  gated (s_rec (Reconcile ex_req ex_good).2) ex_req (take ex_index log) ex_write.
Proof.
  assert (s_log (Reconcile ex_req ex_good).2 !! ex_index = Some ex_write) as Hi by (by vm_compute).
  assert (child_write ex_write) as Hw by (by vm_compute).
  split; [exact Hi|]. split; [exact Hw|].
  exact (Reconcile_writes_gated ex_req ex_good _ _ _ eq_refl
    (split_at (s_log ex_good) (s_log (Reconcile ex_req ex_good).2) ex_index ex_write eq_refl Hi)
    Hw).
Defined.

(** The API server refuses to write the VirtualService. *)
Definition ex_denied : St Mem :=
  let m := s_env ex_good in
  ex_state (mkMem (mem_routes m) (mem_services m) (mem_endpoints m) (mem_gateways m)
    (mem_secrets m) (mem_children m) (mem_clock m) (mem_http m) (mem_version m)
    {[ role_key (ex_route "app" "app.example.com") RVirtualService ]} (mem_deniedLists m)).
Lemma Reconcile_status_sound_witness :
  published_phase ex_denied = [("Degraded", 6)] ∧
  ∃ k, s_log (Reconcile ex_req ex_denied).2 = s_log ex_denied ++ k ∧
    (status_writes k = [] ∨
     ∃ r upd, status_writes k = [CUpdateRouteStatus r upd] ∧
       status_sound (s_rec (Reconcile ex_req ex_denied).2) k r).
Proof.
  split; [by vm_compute|]. exact (Reconcile_status_sound ex_req ex_denied eq_refl).
Defined.

Lemma handleDeletion_correct_witness :
  let route := set_DeletionTimestamp (Some 5) (ex_route "app" "app.example.com") in
  ∃ a s' k, handleDeletion route ex_good = (Ret a, s') ∧ free (s_rec s') ∧
    s_log s' = s_log ex_good ++ k ∧ deletion_run route k a ∧ forgotten route k a s'.
Proof.
  exact (handleDeletion_correct (set_DeletionTimestamp (Some 5) (ex_route "app" "app.example.com"))
    ex_good eq_refl).
Defined.

Lemma Reconcile_converges_witness :
  last (s_log (Reconcile ex_req ex_good).2) = Some (CCounterInc "success") ∧
  let s' := (Reconcile ex_req ex_good).2 in
  ∃ k r canary, s_log s' = s_log ex_good ++ k ∧ delivered k r ∧
    in_effect (s_rec s') k r canary ∧ realizes r canary (s_env ex_good) (s_env s').
Proof.
  assert (last (s_log (Reconcile ex_req ex_good).2) = Some (CCounterInc "success")) as Hl
    by (by vm_compute).
  split; [exact Hl|]. exact (Reconcile_converges ex_req ex_good eq_refl Hl).
Defined.

(** The provisioned Route after an edit that drops its timeout, its body
    limit and its authentication: the next reconcile deletes the two policies
    but leaves the VirtualService and the EnvoyFilter. *)
Definition ex_edit (r : Route) : Route :=
  mkRoute (r_Meta r) (mkSpec (rs_Rules (r_Spec r)) None "" "" None None None None None None)
    (r_Status r).
Definition ex_edited : St Mem :=
  let s := (Reconcile ex_req ex_good).2 in
  let m := s_env s in
  mkSt (mkMem (ex_edit <$> mem_routes m) (mem_services m) (mem_endpoints m) (mem_gateways m)
    (mem_secrets m) (mem_children m) (mem_clock m) (mem_http m) (mem_version m)
    (mem_denied m) (mem_deniedLists m)) (s_rec s) [].
Example ex_leftovers :
  last (ex_log ex_edited) = Some (CCounterInc "success") ∧
  published_phase ex_edited = [("Active", 3)] ∧
  size (mem_children (s_env (Reconcile ex_req ex_edited).2)) = 5%nat ∧
  is_Some (mem_children (s_env (Reconcile ex_req ex_edited).2) !!
    role_key (ex_route "app" "app.example.com") RVirtualService).
Proof. split_and!; [by vm_compute..|]. apply (bool_decide_unpack _). by vm_compute. Qed.

Lemma leftovers_stay_witness :
  last (s_log (Reconcile ex_req ex_edited).2) = Some (CCounterInc "success") ∧
  let s' := (Reconcile ex_req ex_edited).2 in
  ∃ k r canary, s_log s' = s_log ex_edited ++ k ∧ delivered k r ∧ in_effect (s_rec s') k r canary ∧
    ∀ x, x ∉ desired_roles r canary →
      children (s_env s') !! role_key r x =
      if retirable x then None else children (s_env ex_edited) !! role_key r x.
Proof.
  assert (last (s_log (Reconcile ex_req ex_edited).2) = Some (CCounterInc "success")) as Hl
    by (by vm_compute).
  assert (free (s_rec ex_edited)) as Hf by (by vm_compute).
  split; [exact Hl|]. exact (leftovers_stay ex_req ex_edited Hf Hl).
Defined.
End ReconcileProps.
