(* ===== verification/Watches.v ===== *)
(** * What wakes the controller (SetupWithManager)

    [SetupWithManager] says of which kinds the controller hears, and
    controller-runtime turns each event into requests.  Which generated objects
    carry an owner reference decides which of their changes come back to their
    Route: of all that a reconcile leaves in the cluster, the HTTPRoutes. *)
From S2P Require Import Prelude GoStd GoTime RouteTypes Objects Env Trace Mem Store Common.
From S2P Require Import Builders Canary Children Keys Reconcile Stages Runs ReconcileProps.

Module Watches.
Import Builders.Builders Canary.Canary Children.Children Reconcile.Reconcile Stages.Stages.
Import Runs.Runs ReconcileProps.ReconcileProps.

(** ** The controller *)

(** The kinds of the API server that can be watched. *)
Inductive Watched := WRoute | WChild (k : Kind) | WOther (kind : string).
#[export] Instance Watched_eq_dec : EqDecision Watched.
Proof. solve_decision. Defined.

(** What the builder of a controller collects. *)
Record Builder := mkBuilder { b_For : option Watched; b_Owns : list Watched; b_Named : string }.
Definition NewControllerManagedBy : Builder := mkBuilder None [] "".
Definition For (w : Watched) (b : Builder) : Builder := mkBuilder (Some w) (b_Owns b) (b_Named b).
Definition Owns (w : Watched) (b : Builder) : Builder :=
  mkBuilder (b_For b) (b_Owns b ++ [w]) (b_Named b).
Definition Named (name : string) (b : Builder) : Builder := mkBuilder (b_For b) (b_Owns b) name.

Definition SetupWithManager : Builder :=
  Named "route"
    (Owns (WChild KAuthorizationPolicy)
      (Owns (WChild KRequestAuthentication)
        (Owns (WChild KHTTPRoute) (For WRoute NewControllerManagedBy)))).

(** ** Events *)

(** An event about an object, with its metadata, on an update before and after. *)
Inductive Event :=
| Created (w : Watched) (m : ObjectMeta)
| Updated (w : Watched) (old new : ObjectMeta)
| Deleted (w : Watched) (m : ObjectMeta).
Definition event_kind (ev : Event) : Watched :=
  match ev with Created w _ | Updated w _ _ | Deleted w _ => w end.
Definition event_metas (ev : Event) : list ObjectMeta :=
  match ev with Created _ m | Deleted _ m => [m] | Updated _ old new => [old; new] end.

(** controller-runtime's handlers: of the object itself, and of the owners of a
    kind, with the option to look at the controller only. *)
Class Handlers := {
  EnqueueRequestForObject : ObjectMeta → list NamespacedName;
  EnqueueRequestForOwner : string → bool → ObjectMeta → list NamespacedName
}.
Class HandlerLaws `{Handlers} : Prop := {
  forObject_law m : EnqueueRequestForObject m = [mkNN (m_Namespace m) (m_Name m)];
  forOwner_law kind m n : n ∈ EnqueueRequestForOwner kind true m ↔
    ∃ o, o ∈ m_OwnerReferences m ∧ or_Kind o = kind ∧ or_Controller o = true ∧
      n = mkNN (m_Namespace m) (or_Name o)
}.

Section requests.
Context `{Handlers}.

(** [For] watches with the first handler, [Owns] with the second one, for the
    controller of the kind given to [For], a Route. *)
Definition handle (b : Builder) (w : Watched) (m : ObjectMeta) : list NamespacedName :=
  (if bool_decide (b_For b = Some w) then EnqueueRequestForObject m else []) ++
  (if bool_decide (w ∈ b_Owns b) then EnqueueRequestForOwner "Route" true m else []).
Definition requests (b : Builder) (ev : Event) : list NamespacedName :=
  event_metas ev ≫= handle b (event_kind ev).
End requests.

(** The server keeps the owner references of what it stores. *)
Class OwnersStored (E : Type) `{ChildStore E} : Prop := {
  stored_as_owners (c c' : Child) :
    stored_as c c' → m_OwnerReferences (c_Meta c') = m_OwnerReferences (c_Meta c)
}.

(** ** The owners of the generated objects *)

Section owners.
Context `{GoLibs} `{!OwnerLaws}.

(** An object of a cross-namespace kind has no owner; the others are owned by
    the Route and live in its namespace. *)
Definition well_owned (r : Route) (d : Child) : Prop :=
  if Keys.Keys.crossNS (c_Kind d) then m_OwnerReferences (c_Meta d) = []
  else m_OwnerReferences (c_Meta d) = [controllerRef r] ∧
       m_Namespace (c_Meta d) = r_Namespace r.

Lemma desired_well_owned r canary d : Ret (Ok d) ∈ desired r canary → well_owned r d.
Proof.
  intros (c & name & ns & Hm & Hc)%Keys.Keys.desired_built_for. unfold well_owned.
  destruct (Keys.Keys.crossNS (c_Kind c)) eqn:Hk; [by subst d; rewrite Hk, Hm|].
  destruct Hc as [-> [= Hset]]. symmetry in Hset.
  apply SetControllerReference_sets in Hset as (os & -> & Hos).
  change (c_Kind (set_Owners os c)) with (c_Kind c). rewrite Hk. simpl.
  split; [by apply Hos; rewrite Hm|by rewrite Hm].
Qed.
End owners.

(** ** Which drift comes back *)

(** The object is deleted, or changed in anything but its namespace and owners. *)
Definition disturbs (c : Child) (ev : Event) : Prop :=
  ev = Deleted (WChild (c_Kind c)) (c_Meta c) ∨
  ∃ m, ev = Updated (WChild (c_Kind c)) (c_Meta c) m ∧
    m_Namespace m = m_Namespace (c_Meta c) ∧ m_OwnerReferences m = m_OwnerReferences (c_Meta c).

Section wakes.
Context `{HandlerLaws}.

Lemma handle_child k m n :
  n ∈ handle SetupWithManager (WChild k) m ↔
  k ∈ [KHTTPRoute; KRequestAuthentication; KAuthorizationPolicy] ∧
  n ∈ EnqueueRequestForOwner "Route" true m.
Proof.
  unfold handle, SetupWithManager. simpl.
  case_bool_decide as Hin.
  - split; [|by intros [_ ?]]. split; [|done]. set_solver.
  - rewrite elem_of_nil. split; [done|]. intros [Hk _]. apply Hin. set_solver.
Qed.

Lemma requests_disturbs c ev n :
  disturbs c ev →
  n ∈ requests SetupWithManager ev ↔
  c_Kind c ∈ [KHTTPRoute; KRequestAuthentication; KAuthorizationPolicy] ∧
  ∃ o, o ∈ m_OwnerReferences (c_Meta c) ∧ or_Kind o = "Route" ∧ or_Controller o = true ∧
    n = mkNN (m_Namespace (c_Meta c)) (or_Name o).
Proof.
  intros [->|(m & -> & Hn & Ho)]; unfold requests; simpl;
    rewrite ?app_nil_r, ?elem_of_app, !handle_child, !forOwner_law; [done|].
  rewrite Hn, Ho. naive_solver.
Qed.
End wakes.

Section drift.
Context {E : Type} `{ChildStore E} `{GoLibs} `{!OwnerLaws} `{!OwnersStored E} `{HandlerLaws}.
Implicit Types (s : St E).

(** C9: after a run that counts success the cluster holds every object [d]
    that the Route calls for; and whoever then deletes the stored object, or
    changes it, wakes the controller for exactly that Route if it is an
    HTTPRoute, and for no Route at all if it is of another kind: although
    [SetupWithManager] names RequestAuthentications and
    AuthorizationPolicies, those have no owner, and VirtualServices, which
    have one, are not named. *)
Theorem drift_wakes_by_kind req s :
  free (s_rec s) → last (s_log (Reconcile req s).2) = Some (CCounterInc "success") →
  let s' := (Reconcile req s).2 in
  ∃ k r canary, s_log s' = s_log s ++ k ∧ delivered k r ∧ in_effect (s_rec s') k r canary ∧
    ∀ o, o ∈ desired r canary → ∃ d c, o = Ret (Ok d) ∧
      children (s_env s') !! c_Key d = Some c ∧
      ∀ ev, disturbs c ev → ∀ n,
        n ∈ requests SetupWithManager ev ↔ c_Kind d = KHTTPRoute ∧ n = r_NN r.
Proof.
  intros Hf Hlast s'. destruct (converged req s Hf Hlast) as (k & r & canary & Hk & Hd & Hc & Hr).
  exists k, r, canary. split_and!; [done..|]. intros o Ho.
  destruct Hr as [Hr _]. destruct (Hr o Ho) as (d & c0 & c & -> & Hsame & Hst & Hlk).
  exists d, c. split_and!; [done|done|]. intros ev Hev n. rewrite (requests_disturbs c ev n Hev).
  assert (m_OwnerReferences (c_Meta c) = m_OwnerReferences (c_Meta d)) as ->.
  { rewrite (stored_as_owners _ _ Hst). by apply same_object_owners. }
  assert (c_Key c = c_Key d) as Hkey.
  { rewrite (stored_as_key _ _ Hst). by apply same_object_key. }
  assert (c_Kind c = c_Kind d) as -> by exact (f_equal fst Hkey).
  assert (m_Namespace (c_Meta c) = m_Namespace (c_Meta d)) as ->
    by exact (f_equal (nn_Namespace ∘ snd) Hkey).
  pose proof (desired_well_owned r canary d Ho) as Hw. unfold well_owned in Hw.
  destruct (c_Kind d); simpl in Hw; try (rewrite Hw; set_solver);
    destruct Hw as [-> ->]; [|set_solver].
  split.
  - intros (_ & o & ->%list_elem_of_singleton & _ & _ & ->). by destruct r as [[] ? ?].
  - intros [_ ->]. split; [by left|]. exists (controllerRef r). split_and!; [by left|done..].
Qed.
End drift.
(** ** The in-memory cluster *)

#[export] Instance memOwnersStored : OwnersStored Mem.
Proof. constructor. by intros c c' [v ->]. Qed.

#[export] Instance memHandlers : Handlers := {|
  EnqueueRequestForObject m := [mkNN (m_Namespace m) (m_Name m)];
  EnqueueRequestForOwner kind only m :=
    (λ o, mkNN (m_Namespace m) (or_Name o)) <$>
      filter (λ o, or_Kind o = kind ∧ (only = true → or_Controller o = true))
        (m_OwnerReferences m)
|}.
#[export] Instance memHandlerLaws : HandlerLaws.
Proof.
  constructor; [done|]. intros kind m n. simpl. rewrite list_elem_of_fmap. split.
  - intros (o & -> & ((Hk & Hc) & Ho)%list_elem_of_filter). exists o. auto.
  - intros (o & Ho & Hk & Hc & ->). exists o. split; [done|]. by apply list_elem_of_filter.
Qed.

(** What the deletion of each object of a provisioned Route wakes. *)
Definition ex_wakes : list (Kind * list NamespacedName) :=
  (λ x, (c_Kind x.2, requests SetupWithManager (Deleted (WChild (c_Kind x.2)) (c_Meta x.2)))) <$>
    map_to_list (mem_children (s_env (Reconcile ex_req ex_good).2)).
Example ex_drift :
  filter (λ x, x.2 ≠ []) ex_wakes = [(KHTTPRoute, [ex_req]); (KHTTPRoute, [ex_req])] ∧
  length ex_wakes = 7.
Proof. by vm_compute. Qed.

Lemma drift_wakes_by_kind_witness :
  last (s_log (Reconcile ex_req ex_good).2) = Some (CCounterInc "success") ∧
  ∃ k r canary, s_log (Reconcile ex_req ex_good).2 = s_log ex_good ++ k ∧ delivered k r ∧
    in_effect (s_rec (Reconcile ex_req ex_good).2) k r canary ∧
    ∀ o, o ∈ desired r canary → ∃ d c, o = Ret (Ok d) ∧
      children (s_env (Reconcile ex_req ex_good).2) !! c_Key d = Some c ∧
      ∀ ev, disturbs c ev → ∀ n,
        n ∈ requests SetupWithManager ev ↔ c_Kind d = KHTTPRoute ∧ n = r_NN r.
Proof.
  assert (last (s_log (Reconcile ex_req ex_good).2) = Some (CCounterInc "success")) as Hl
    by (by vm_compute).
  split; [exact Hl|]. exact (drift_wakes_by_kind ex_req ex_good eq_refl Hl).
Defined.
End Watches.
