(* ===== verification/Fleet.v ===== *)
(** * Several Routes over time

    [Cluster] states what the API server promises about Routes, Services and
    Endpoints.  With it the traces of Runs.v become facts about the cluster: a
    reconcile that returns nil leaves its Route in the phase that is due, and
    disturbs no other; so once all live Routes were reconciled, each shows the
    phase due to it, and of two that clash at most one is Active. *)
From S2P Require Import Prelude GoStd GoTime RouteTypes Objects Env Trace Mem Store Common.
From S2P Require Import Conflicts Conditions Health Canary Children Reconcile Stages Runs.
From S2P Require Import ReconcileProps.
From S2P Require Webhook.
Local Open Scope Z_scope.

Module Fleet.
Import Conflicts.Conflicts Health.Health Canary.Canary Children.Children Reconcile.Reconcile.
Import Stages.Stages Runs.Runs ReconcileProps.ReconcileProps.

(** ** The interface *)

(** The spec without its Gateway. *)
Definition spec_rest (r : Route) : RouteSpec := r_Spec (set_Spec_Gateway None r).

(** What the server keeps of a Route that it stores: all that its conflicts,
    backends and objects depend on.  Admission may add the defaults. *)
Definition same_route (r r' : Route) : Prop :=
  r_NN r' = r_NN r ∧ m_CreationTimestamp (r_Meta r') = m_CreationTimestamp (r_Meta r) ∧
  deletionIsZero r' = deletionIsZero r ∧ gatewayRef r' = gatewayRef r ∧ spec_rest r' = spec_rest r.

#[export] Instance same_route_equiv : Equivalence same_route.
Proof.
  split.
  - by intros r.
  - intros r r' (? & ? & ? & ? & ?). by split_and!.
  - intros r1 r2 r3 (? & ? & ? & ? & ?) (? & ? & ? & ? & ?).
    split_and!; by etransitivity.
Qed.

Lemma same_route_rules r r' : same_route r r' → rs_Rules (r_Spec r') = rs_Rules (r_Spec r).
Proof. intros (_ & _ & _ & _ & Hs). exact (f_equal rs_Rules Hs). Qed.
Lemma same_route_canary r r' : same_route r r' → rs_Canary (r_Spec r') = rs_Canary (r_Spec r).
Proof. intros (_ & _ & _ & _ & Hs). exact (f_equal rs_Canary Hs). Qed.

Lemma Default_same_route r : same_route r (Webhook.Webhook.Default r).
Proof.
  split_and!; try done. unfold gatewayRef, Webhook.Webhook.Default. simpl.
  destruct (rs_Gateway (r_Spec r)) as [[name ns]|]; simpl; [|done].
  unfold Webhook.Webhook.defaultGatewayName, Webhook.Webhook.defaultGatewayNamespace.
  by repeat case_bool_decide; simplify_eq/=.
Qed.
Lemma revised_same_route r r' : revised r r' → same_route r r'.
Proof. intros [st ->]%revised_eq. by destruct r. Qed.

(** Routes, Services and Endpoints. *)
Definition View : Type :=
  gmap NamespacedName Route * gmap NamespacedName Service * gmap NamespacedName Endpoints.

Class Cluster (E : Type) `{KubeEnv E} := {
  view : E → View;
  view_keyed e n r : (view e).1.1 !! n = Some r → r_NN r = n;
  (** reads tell what is stored and change nothing *)
  getRoute_law n e r e' : env_getRoute n e = (r, e') → view e' = view e ∧
    match r with
    | Ok r => (view e).1.1 !! n = Some r
    | Err err => IsNotFound err = true → (view e).1.1 !! n = None
    end;
  listRoutes_law e r e' : env_listRoutes e = (r, e') → view e' = view e ∧
    match r with
    | Ok items => ∀ r, r ∈ items ↔ (view e).1.1 !! r_NN r = Some r
    | Err _ => True
    end;
  getService_law n e r e' : env_getService n e = (r, e') → view e' = view e ∧
    match r with
    | Ok _ => is_Some ((view e).1.2 !! n)
    | Err err => IsNotFound err = true → (view e).1.2 !! n = None
    end;
  getEndpoints_law n e r e' : env_getEndpoints n e = (r, e') → view e' = view e ∧
    match r with
    | Ok ep => (view e).2 !! n = Some ep
    | Err err => IsNotFound err = true → (view e).2 !! n = None
    end;
  (** an update stores the Route, or completes its deletion; a status update
      replaces the status; a refused one changes nothing *)
  updateRoute_law r e res e' : env_updateRoute r e = (res, e') →
    match res with
    | Ok r' => same_route r r' ∧
        (view e' = (<[r_NN r := r']> (view e).1.1, (view e).1.2, (view e).2) ∨
         deletionIsZero r = false ∧
         view e' = (delete (r_NN r) (view e).1.1, (view e).1.2, (view e).2))
    | Err _ => view e' = view e
    end;
  updateRouteStatus_law r e res e' : env_updateRouteStatus r e = (res, e') →
    match res with
    | Ok r' => (∃ old, (view e).1.1 !! r_NN r = Some old ∧ same_route old r') ∧
        r_Status r' = r_Status r ∧
        view e' = (<[r_NN r := r']> (view e).1.1, (view e).1.2, (view e).2)
    | Err _ => view e' = view e
    end;
  (** the other calls do not concern these objects *)
  now_view e : view (env_now e).2 = view e;
  httpDo_view url e : view (env_httpDo url e).2 = view e;
  getGateway_view n e : view (env_getGateway n e).2 = view e;
  getSecret_view n e : view (env_getSecret n e).2 = view e;
  getChild_view k n e : view (env_getChild k n e).2 = view e;
  listChildren_view k ls ns e : view (env_listChildren k ls ns e).2 = view e;
  createChild_view c e : view (env_createChild c e).2 = view e;
  updateChild_view c e : view (env_updateChild c e).2 = view e;
  deleteChild_view k n e : view (env_deleteChild k n e).2 = view e
}.

(** controllerutil's finalizer functions only change the finalizers. *)
Class FinalizerLaws `{GoLibs} : Prop := {
  AddFinalizer_same r f : same_route r (AddFinalizer r f);
  RemoveFinalizer_same r f : same_route r (RemoveFinalizer r f)
}.

Section view.
Context {E : Type} `{Cluster E}.

Definition routes (e : E) : gmap NamespacedName Route := (view e).1.1.
Definition services (e : E) : gmap NamespacedName Service := (view e).1.2.
Definition endpoints (e : E) : gmap NamespacedName Endpoints := (view e).2.

(** A stored Route that is not being deleted. *)
Definition live (e : E) (n : NamespacedName) (r : Route) : Prop :=
  routes e !! n = Some r ∧ deletionIsZero r = true.

(** ** The phase due to a Route *)

Definition service_missing (e : E) (r : Route) (name : string) : bool :=
  bool_decide (services e !! mkNN (r_Namespace r) name = None).
Definition service_ready (e : E) (r : Route) (name : string) : bool :=
  match endpoints e !! mkNN (r_Namespace r) name with
  | Some ep => hasReadyEndpoints ep
  | None => false
  end.

Definition due_phase (e : E) (r : Route) : string :=
  if nonempty (routeConflicts r (map_to_list (routes e)).*2) then RoutePhaseDegraded
  else if existsb (service_missing e r) (backends_of r) then RoutePhasePending
  else if forallb (service_ready e r) (backends_of r) then RoutePhaseActive
  else RoutePhaseDegraded.

(** ** Facts about the cluster from facts about the log *)

Definition neutral (c : Call) : Prop :=
  match c with CUpdateRoute _ _ | CUpdateRouteStatus _ _ => False | _ => True end.

Lemma neutral_view c (e e' : E) : call_step c e e' → neutral c → view e' = view e.
Proof.
  destruct c; simpl; intros Hc Hn; try done; try (by subst);
    try (apply (f_equal snd) in Hc; simpl in Hc; subst e';
         first [apply now_view|apply httpDo_view|apply getGateway_view|apply getSecret_view
               |apply getChild_view|apply listChildren_view|apply createChild_view
               |apply updateChild_view|apply deleteChild_view]).
  - by apply getRoute_law in Hc as [-> _].
  - by apply listRoutes_law in Hc as [-> _].
  - by apply getService_law in Hc as [-> _].
  - by apply getEndpoints_law in Hc as [-> _].
Qed.

Lemma trace_neutral k (e e' : E) : trace k e e' → Forall neutral k → view e' = view e.
Proof.
  induction 1 as [|c k e e1 e' Hc _ IH]; [done|]. intros [Hn Hall]%Forall_cons.
  rewrite IH by done. by eapply neutral_view.
Qed.

Lemma trace_split k1 k2 (e e' : E) :
  trace (k1 ++ k2) e e' → ∃ e1, trace k1 e e1 ∧ trace k2 e1 e'.
Proof.
  revert e. induction k1 as [|c k1 IH]; intros e Ht; [exists e; split; [constructor|done]|].
  inversion Ht; subst. edestruct IH as (e2 & ? & ?); [done|]. exists e2.
  split; [by econstructor|done].
Qed.

(** Among neutral calls every one is made in a state with the same view. *)
Lemma trace_reads k (e e' : E) c :
  trace k e e' → Forall neutral k → c ∈ k →
  ∃ e1 e2, call_step c e1 e2 ∧ view e1 = view e.
Proof.
  intros Ht Hk (k1 & k2 & ->)%list_elem_of_split. apply trace_split in Ht as (e1 & Ht1 & Ht2).
  apply Forall_app in Hk as [Hk1 _]. inversion Ht2; subst. eexists e1, _.
  split; [done|]. by eapply trace_neutral.
Qed.

(** A complete and correct list of the stored Routes. *)
Definition lists (e : E) (items : list Route) : Prop :=
  ∀ r, r ∈ items ↔ routes e !! r_NN r = Some r.

Lemma listed_routes k (e e' : E) items :
  trace k e e' → Forall neutral k → CListRoutes (Ok items) ∈ k → lists e items.
Proof.
  intros Ht Hk Hin. destruct (trace_reads _ _ _ _ Ht Hk Hin) as (e1 & e2 & Hc & Hv).
  simpl in Hc. apply listRoutes_law in Hc as [_ Hc]. unfold lists, routes. by rewrite <-Hv.
Qed.
Lemma map_lists (e : E) : lists e (map_to_list (routes e)).*2.
Proof.
  intros r. rewrite list_elem_of_fmap. split.
  - intros ([n r'] & -> & Hin). apply elem_of_map_to_list in Hin. simpl.
    by rewrite (view_keyed e n r').
  - intros Hr. exists (r_NN r, r). split; [done|]. by apply elem_of_map_to_list.
Qed.

Lemma observed_service k (e e' : E) n h :
  trace k e e' → Forall neutral k → observed k n h →
  match h with
  | HMissing => services e !! n = None
  | HNoEndpoints => is_Some (services e !! n) ∧
      ∀ ep, endpoints e !! n = Some ep → hasReadyEndpoints ep = false
  | HReady => is_Some (services e !! n) ∧
      ∃ ep, endpoints e !! n = Some ep ∧ hasReadyEndpoints ep = true
  end.
Proof.
  intros Ht Hk. pose proof (λ c, trace_reads k e e' c Ht Hk) as Hread.
  assert (∀ svc, CGetService n (Ok svc) ∈ k → is_Some (services e !! n)) as Hsvc.
  { intros svc (e1 & e2 & Hc & Hv)%Hread. simpl in Hc. apply getService_law in Hc as [_ Hc].
    unfold services. by rewrite <-Hv. }
  unfold services, endpoints. destruct h; simpl.
  - intros (err & Hnf & (e1 & e2 & Hc & Hv)%Hread). simpl in Hc.
    apply getService_law in Hc as [_ Hc]. rewrite <-Hv. auto.
  - intros ((svc & Hs) & Hep). split; [by eapply Hsvc|]. intros ep Hlk.
    destruct Hep as [(err & Hnf & (e1 & e2 & Hc & Hv)%Hread)|(ep' & Hr & (e1 & e2 & Hc & Hv)%Hread)];
      simpl in Hc; apply getEndpoints_law in Hc as [_ Hc]; rewrite Hv in Hc.
    + rewrite Hc in Hlk; done.
    + by simplify_eq.
  - intros ((svc & Hs) & ep & Hr & (e1 & e2 & Hc & Hv)%Hread). split; [by eapply Hsvc|].
    simpl in Hc. apply getEndpoints_law in Hc as [_ Hc]. rewrite Hv in Hc. eauto.
Qed.

(** ** The due phase, case by case *)

Definition contested (e : E) (r : Route) : Prop :=
  ∃ n other, live e n other ∧ loses_to r other.

Lemma conflicts_contested e items r :
  lists e items → routeConflicts r items = [] ↔ ¬ contested e r.
Proof.
  intros Hl. rewrite routeConflicts_nil. split.
  - intros Hno (n & other & [Hn Hz] & Hlose). apply (Hno other); [|done]. apply Hl.
    by rewrite (view_keyed e n other).
  - intros Hno other Hin%Hl Hlose. apply Hno. exists (r_NN other), other.
    split; [|done]. split; [done|]. by destruct Hlose as (_ & ? & _).
Qed.

Lemma due_contested e r : contested e r → due_phase e r = RoutePhaseDegraded.
Proof.
  intros Hc. unfold due_phase. destruct (nonempty _) eqn:Hn; [done|].
  apply nonempty_false in Hn. by apply (conflicts_contested e _ r (map_lists e)) in Hn.
Qed.
Lemma due_uncontested e r : ¬ contested e r → due_phase e r =
  if existsb (service_missing e r) (backends_of r) then RoutePhasePending
  else if forallb (service_ready e r) (backends_of r) then RoutePhaseActive
  else RoutePhaseDegraded.
Proof.
  intros Hc%(conflicts_contested e _ r (map_lists e)). unfold due_phase. by rewrite Hc.
Qed.

Lemma due_missing e r n :
  ¬ contested e r → n ∈ backends_of r → services e !! mkNN (r_Namespace r) n = None →
  due_phase e r = RoutePhasePending.
Proof.
  intros Hc Hn Hs. rewrite due_uncontested by done.
  assert (existsb (service_missing e r) (backends_of r) = true) as ->; [|done].
  apply existsb_exists. exists n. split; [by apply list_elem_of_In|]. by apply bool_decide_eq_true.
Qed.

Lemma none_missing e r :
  (∀ n, n ∈ backends_of r → is_Some (services e !! mkNN (r_Namespace r) n)) →
  existsb (service_missing e r) (backends_of r) = false.
Proof.
  intros Hall. apply not_true_is_false. intros (n & Hn & Hm)%existsb_exists.
  apply bool_decide_eq_true in Hm. apply list_elem_of_In, Hall in Hn as [svc Hsvc]. congruence.
Qed.

Lemma due_no_endpoints e r n :
  ¬ contested e r →
  (∀ n', n' ∈ backends_of r → is_Some (services e !! mkNN (r_Namespace r) n')) →
  n ∈ backends_of r →
  (∀ ep, endpoints e !! mkNN (r_Namespace r) n = Some ep → hasReadyEndpoints ep = false) →
  due_phase e r = RoutePhaseDegraded.
Proof.
  intros Hc Hall Hn Hep. rewrite due_uncontested, none_missing by done.
  destruct (forallb _ _) eqn:Hf; [|done]. rewrite forallb_forall in Hf.
  apply list_elem_of_In, Hf in Hn. unfold service_ready in Hn.
  destruct (endpoints e !! _) as [ep|]; [|done]. by rewrite (Hep ep) in Hn.
Qed.

Lemma due_active e r :
  ¬ contested e r →
  (∀ n, n ∈ backends_of r → is_Some (services e !! mkNN (r_Namespace r) n) ∧
     ∃ ep, endpoints e !! mkNN (r_Namespace r) n = Some ep ∧ hasReadyEndpoints ep = true) →
  due_phase e r = RoutePhaseActive.
Proof.
  intros Hc Hall. rewrite due_uncontested, none_missing by naive_solver.
  assert (forallb (service_ready e r) (backends_of r) = true) as ->; [|done].
  apply forallb_forall. intros n Hn%list_elem_of_In. apply Hall in Hn as (_ & ep & Hep & Hr).
  unfold service_ready. by rewrite Hep.
Qed.

(** ** Clusters with the same live Routes, up to status and finalizers *)

Definition similar (e e' : E) : Prop :=
  services e' = services e ∧ endpoints e' = endpoints e ∧
  (∀ n r, live e n r → ∃ r', live e' n r' ∧ same_route r r') ∧
  (∀ n r', live e' n r' → ∃ r, live e n r ∧ same_route r r').

#[export] Instance similar_equiv : Equivalence similar.
Proof.
  split.
  - intros e. split_and!; [done|done|intros n r ?; by exists r..].
  - intros e e' (? & ? & H1 & H2). split_and!; [done|done| |].
    + intros n r Hr. destruct (H2 n r Hr) as (r' & ? & ?). by exists r'.
    + intros n r Hr. destruct (H1 n r Hr) as (r' & ? & ?). by exists r'.
  - intros e1 e2 e3 (? & ? & Hab & Hba) (? & ? & Hbc & Hcb). split_and!; [congruence..| |].
    + intros n r Hr. destruct (Hab n r Hr) as (r' & Hr' & ?).
      destruct (Hbc n r' Hr') as (r'' & ? & ?). exists r''. split; [done|by etransitivity].
    + intros n r Hr. destruct (Hcb n r Hr) as (r' & Hr' & ?).
      destruct (Hba n r' Hr') as (r'' & ? & ?). exists r''. split; [done|by etransitivity].
Qed.

Lemma view_similar e e' : view e' = view e → similar e e'.
Proof.
  intros Hv. unfold similar, live, services, endpoints, routes. rewrite Hv.
  split_and!; [done|done|intros n r ?; by exists r..].
Qed.
End view.

(** ** What depends on a Route only up to [same_route] *)

Lemma ruleIdentity_gateway r rule :
  ruleIdentity r rule = mkIdentity (gatewayRef r).2 (gatewayRef r).1 (rr_Host rule)
    (normalizeRoutePath (rr_Path rule)).
Proof. unfold ruleIdentity, gatewayRef. by destruct (rs_Gateway (r_Spec r)). Qed.

#[export] Instance clash_proper : Proper (same_route ==> same_route ==> iff) clash.
Proof.
  assert (∀ a a' b b', same_route a a' → same_route b b' → clash a b → clash a' b') as Himp.
  { intros a a' b b' Hsa Hsb (ra & rb & Hra & Hrb & Heq). exists ra, rb.
    rewrite (same_route_rules _ _ Hsa), (same_route_rules _ _ Hsb).
    destruct Hsa as (_ & _ & _ & Hga & _), Hsb as (_ & _ & _ & Hgb & _).
    split_and!; [done|done|]. rewrite !ruleIdentity_gateway in *. by rewrite Hga, Hgb. }
  intros a a' Ha b b' Hb. split; apply Himp; done.
Qed.

Lemma same_route_nn r r' : same_route r r' → r_Namespace r' = r_Namespace r ∧ r_Name r' = r_Name r.
Proof. intros (Hn & _). unfold r_NN in Hn. by injection Hn. Qed.

#[export] Instance routePrecedes_proper : Proper (same_route ==> same_route ==> eq) routePrecedes.
Proof.
  intros a a' Ha b b' Hb. destruct (same_route_nn _ _ Ha) as [Hna Hma],
    (same_route_nn _ _ Hb) as [Hnb Hmb]. destruct Ha as (_ & Hca & _), Hb as (_ & Hcb & _).
  unfold routePrecedes. by rewrite Hna, Hma, Hnb, Hmb, Hca, Hcb.
Qed.

#[export] Instance r_NN_proper : Proper (same_route ==> eq) r_NN.
Proof. by intros a a' (-> & _). Qed.
#[export] Instance deletionIsZero_proper : Proper (same_route ==> eq) deletionIsZero.
Proof. by intros a a' (_ & _ & -> & _). Qed.

#[export] Instance loses_to_proper : Proper (same_route ==> same_route ==> iff) loses_to.
Proof. intros a a' Ha b b' Hb. unfold loses_to. by rewrite Ha, Hb. Qed.

Lemma backends_of_same r r' : same_route r r' → backends_of r' = backends_of r.
Proof.
  intros Hs. unfold backends_of. by rewrite (same_route_rules _ _ Hs), (same_route_canary _ _ Hs).
Qed.

Section due.
Context {E : Type} `{Cluster E}.

Lemma contested_similar (e e' : E) r r' :
  similar e e' → same_route r r' → contested e r → contested e' r'.
Proof.
  intros (_ & _ & Hto & _) Hr (n & other & Ho & Hl). destruct (Hto n other Ho) as (o' & Ho' & Hs).
  exists n, o'. split; [done|]. by rewrite <-Hr, <-Hs.
Qed.

Lemma due_phase_similar (e e' : E) r r' :
  similar e e' → same_route r r' → due_phase e' r' = due_phase e r.
Proof.
  intros Hsim Hr. pose proof (conflicts_contested e _ r (map_lists e)) as Hc.
  pose proof (conflicts_contested e' _ r' (map_lists e')) as Hc'.
  assert (contested e r ↔ contested e' r') as Hiff.
  { split; [by apply contested_similar|].
    apply contested_similar; by symmetry. }
  unfold due_phase. rewrite (backends_of_same r r') by done.
  assert (nonempty (routeConflicts r' (map_to_list (routes e')).*2) =
          nonempty (routeConflicts r (map_to_list (routes e)).*2)) as ->.
  { apply eq_true_iff_eq. rewrite !nonempty_true. tauto. }
  destruct (same_route_nn _ _ Hr) as [Hns _]. destruct Hsim as (Hs & He & _).
  unfold service_missing, service_ready. by rewrite Hs, He, Hns.
Qed.
End due.

(** ** What one reconcile does to the stored Routes *)

Section runs.
Context {E : Type} `{Cluster E} `{GoLibs} `{!FinalizerLaws}.
Implicit Types (e : E) (s : St E).

(** The other Routes are untouched, and the live ones still the same. *)
Definition undisturbed (req : NamespacedName) e e' : Prop :=
  similar e e' ∧ ∀ m, m ≠ req → routes e' !! m = routes e !! m.

#[export] Instance undisturbed_preorder req : PreOrder (undisturbed req).
Proof.
  split; [by intros e; split|]. intros e1 e2 e3 [Hs1 Hm1] [Hs2 Hm2].
  split; [by etransitivity|]. intros m Hm. by rewrite Hm2, Hm1.
Qed.

Lemma view_undisturbed req e e' : view e' = view e → undisturbed req e e'.
Proof. intros Hv. split; [by apply view_similar|]. intros m _. unfold routes. by rewrite Hv. Qed.

Lemma neutral_undisturbed req k e e' : trace k e e' → Forall neutral k → undisturbed req e e'.
Proof. intros. eapply view_undisturbed, trace_neutral; eauto. Qed.

(** Writing a live Route back. *)
Lemma insert_undisturbed req e e' old r' :
  live e req old → same_route old r' →
  view e' = (<[req := r']> (view e).1.1, (view e).1.2, (view e).2) →
  undisturbed req e e' ∧ live e' req r'.
Proof.
  intros Hold Hsame Hv.
  assert (services e' = services e ∧ endpoints e' = endpoints e ∧
    routes e' = <[req := r']> (routes e)) as (Hs & He & Hr)
    by (unfold services, endpoints, routes; by rewrite Hv).
  assert (live e' req r') as Hlive.
  { split; [by rewrite Hr, lookup_insert_eq|]. rewrite <-Hsame. apply Hold. }
  split; [|done]. split; [split_and!; [done|done| |]|].
  - intros n r Hn. destruct (decide (n = req)) as [->|Hne].
    + exists r'. split; [done|]. destruct Hn as [Hn _], Hold as [Ho _]. by simplify_eq.
    + exists r. split; [|done]. unfold live in *. by rewrite Hr, lookup_insert_ne.
  - intros n r Hn. destruct (decide (n = req)) as [->|Hne].
    + exists old. split; [done|]. destruct Hn as [Hn _], Hlive as [Hl _]. by simplify_eq.
    + exists r. split; [|done]. unfold live in *. by rewrite Hr, lookup_insert_ne in Hn.
  - intros m Hm. by rewrite Hr, lookup_insert_ne.
Qed.

(** Changing or dropping a Route under deletion. *)
Lemma dying_undisturbed req e e' old (new : option Route) :
  routes e !! req = Some old → deletionIsZero old = false →
  (∀ r, new = Some r → deletionIsZero r = false) →
  services e' = services e → endpoints e' = endpoints e →
  routes e' = partial_alter (λ _, new) req (routes e) →
  undisturbed req e e'.
Proof.
  intros Hold Hz Hnew Hs He Hr. split; [split_and!; [done|done| |]|].
  - intros n r [Hn Hzn]. exists r. split; [|done]. split; [|done].
    rewrite Hr, lookup_partial_alter_ne; [done|]. intros ->. congruence.
  - intros n r [Hn Hzn]. exists r. split; [|done]. split; [|done].
    rewrite Hr in Hn. destruct (decide (n = req)) as [->|Hne].
    + rewrite lookup_partial_alter_eq in Hn. apply Hnew in Hn. congruence.
    + by rewrite lookup_partial_alter_ne in Hn.
  - intros m Hm. by rewrite Hr, lookup_partial_alter_ne.
Qed.

Lemma quiet_neutral k : Forall quiet k → Forall neutral k.
Proof. intros Hk. eapply Forall_impl; [exact Hk|by intros []]. Qed.
Lemma writing_neutral r canary k : Forall (writing r canary) k → Forall neutral k.
Proof. intros Hk. eapply Forall_impl; [exact Hk|by intros []]. Qed.
Lemma deleting_neutral k : Forall deleting k → Forall neutral k.
Proof. intros Hk. eapply Forall_impl; [exact Hk|by intros []]. Qed.

(** ** The parts of a run *)

Lemma finalized_cluster req route kf r1 e e1 :
  finalized route kf r1 → trace kf e e1 → live e req route →
  undisturbed req e e1 ∧ live e1 req r1 ∧ same_route route r1.
Proof.
  intros [(-> & -> & _)|(-> & _)] Ht Hlive; inversion Ht as [|c k ? e2 ? Hc Ht']; subst.
  { split_and!; [done|done|reflexivity]. }
  inversion Ht'; subst. simpl in Hc. apply updateRoute_law in Hc as [Hsame Hv].
  pose proof (AddFinalizer_same route routeFinalizer) as Hadd.
  assert (r_NN (AddFinalizer route routeFinalizer) = req) as Hnn.
  { rewrite <-Hadd. eapply view_keyed, Hlive. }
  assert (same_route route r1) as Hs by (by etransitivity).
  rewrite Hnn in Hv. destruct Hv as [Hv|[Hz _]].
  - destruct (insert_undisturbed req e e1 route r1) as [? ?]; [done..|]. done.
  - rewrite <-Hadd in Hz. destruct Hlive. congruence.
Qed.

Lemma published_cluster req r P ok k a e e' r0 :
  published r P ok k a → trace k e e' → live e req r0 → same_route r0 r →
  undisturbed req e e' ∧
  (a.2 = None → ∃ r' sent, live e' req r' ∧ same_route r0 r' ∧ P sent ∧ r_Status r' = r_Status sent).
Proof.
  intros (sent & upd & k1 & k2 & -> & Hq1 & Hq2 & Hrev & HP & Ha) Ht Hlive Hsame.
  apply trace_split in Ht as (e1 & Ht1 & Ht2). inversion Ht2 as [|c k ? e2 ? Hc Ht3]; subst c k.
  apply quiet_neutral in Hq1, Hq2.
  pose proof (trace_neutral _ _ _ Ht1 Hq1) as Hv1. pose proof (trace_neutral _ _ _ Ht3 Hq2) as Hv3.
  assert (r_NN sent = req) as Hnn.
  { rewrite <-(revised_same_route r sent) by done. rewrite <-Hsame.
    eapply view_keyed, Hlive. }
  simpl in Hc. apply updateRouteStatus_law in Hc. destruct upd as [r'|err].
  - destruct Hc as ((old & Hold & Hs) & Hst & Hv2). rewrite Hnn, Hv1 in *.
    assert (old = r0) as -> by (destruct Hlive as [Hl _]; unfold routes in Hl; by simplify_eq).
    destruct (insert_undisturbed req e e' r0 r') as [Hun Hl']; [done|done| |].
    { by rewrite Hv3, Hv2. }
    split; [done|]. intros _. by exists r', sent.
  - split; [apply view_undisturbed; congruence|]. by rewrite Ha.
Qed.

Lemma deletion_cluster req route k a e e' :
  deletion_run route k a → trace k e e' → routes e !! req = Some route →
  deletionIsZero route = false → undisturbed req e e'.
Proof.
  assert (∀ upd k1 k2 e e', Forall deleting k1 → Forall quiet k2 →
    trace (k1 ++ CUpdateRoute (RemoveFinalizer route routeFinalizer) upd :: k2) e e' →
    routes e !! req = Some route → deletionIsZero route = false → undisturbed req e e') as Hupd.
  { clear k e e'. intros upd k1 k2 e e' Hk1 Hk2 Ht Hreq Hz.
    apply trace_split in Ht as (e1 & Ht1 & Ht2). inversion Ht2 as [|c k ? e2 ? Hc Ht3]; subst c k.
    pose proof (trace_neutral _ _ _ Ht1 (deleting_neutral _ Hk1)) as Hv1.
    etransitivity; [|by eapply neutral_undisturbed, quiet_neutral].
    simpl in Hc. apply updateRoute_law in Hc.
    pose proof (RemoveFinalizer_same route routeFinalizer) as Hrm.
    assert (r_NN (RemoveFinalizer route routeFinalizer) = req) as Hnn
      by (rewrite <-Hrm; by eapply view_keyed).
    destruct upd as [r'|err]; [|apply view_undisturbed; congruence].
    destruct Hc as [Hsame Hv2]. rewrite Hnn, Hv1 in Hv2.
    destruct Hv2 as [Hv2|[_ Hv2]].
    - eapply (dying_undisturbed req e e2 route (Some r')); [done|done| | | |];
        unfold services, endpoints, routes; rewrite ?Hv2; try done.
      intros ? [= <-]. by rewrite <-Hsame, <-Hrm.
    - eapply (dying_undisturbed req e e2 route None); [done|done|done| | |];
        unfold services, endpoints, routes; by rewrite Hv2. }
  intros [k0 ? Hk|k1 upd k2 ? Hk1%cleanup_deleting Hk2|k1 err ? Hk1%cleanup_deleting] Ht Hreq Hz.
  - by eapply neutral_undisturbed, quiet_neutral.
  - by eapply Hupd.
  - by eapply (Hupd (Err err) k1 []).
Qed.

(** A route is held back in the phase that is due. *)
Lemma held_back_due k r phase outcome e e' :
  held_back k r phase outcome → trace k e e' → Forall neutral k → due_phase e r = phase.
Proof.
  intros [items Hi Hc|items n Hi Hc Hn Ho|items n Hi Hc Hn Ho Hall] Ht Hk;
    pose proof (conflicts_contested e items r (listed_routes _ _ _ _ Ht Hk Hi)) as Hiff.
  - destruct (nonempty (routeConflicts r (map_to_list (routes e)).*2)) eqn:Hne.
    + unfold due_phase. by rewrite Hne.
    + apply nonempty_false, (conflicts_contested e _ r (map_lists e)), Hiff in Hne. done.
  - apply (due_missing e r n); [by apply Hiff|done|]. apply (observed_service k e e' _ _ Ht Hk Ho).
  - apply (due_no_endpoints e r n); [by apply Hiff| |done|
      apply (observed_service k e e' _ _ Ht Hk Ho)].
    intros n' Hn'. destruct (Hall n' Hn') as [Ho'|Ho'];
      apply (observed_service k e e' _ _ Ht Hk Ho').
Qed.

(** A cleared route is due to be Active. *)
Lemma cleared_cluster req route k r e e' :
  cleared route k r → trace k e e' → live e req route →
  ∃ r1, undisturbed req e e' ∧ live e' req r1 ∧ same_route r1 r ∧
    due_phase e' r = RoutePhaseActive.
Proof.
  intros (kf & r1 & kc & items & kh & -> & Hf & Hqc & Hrev & Hconf & Hqh & Hready) Ht Hlive.
  apply trace_split in Ht as (e1 & Ht1 & Ht2).
  destruct (finalized_cluster _ _ _ _ _ _ Hf Ht1 Hlive) as (Hun & Hl1 & _).
  assert (Forall neutral (kc ++ CListRoutes (Ok items) :: kh)) as Hk
    by (apply Forall_app; split; [by apply quiet_neutral|constructor; [done|by apply quiet_neutral]]).
  pose proof (trace_neutral _ _ _ Ht2 Hk) as Hv.
  assert (CListRoutes (Ok items) ∈ kc ++ CListRoutes (Ok items) :: kh) as Hin by set_solver.
  pose proof (conflicts_contested e1 items r (listed_routes _ _ _ _ Ht2 Hk Hin)) as Hiff.
  exists r1. split_and!.
  - etransitivity; [exact Hun|by apply view_undisturbed].
  - unfold live, routes. by rewrite Hv.
  - by apply revised_same_route.
  - rewrite (due_phase_similar e1 e' r r); [|by apply view_similar|done].
    apply due_active; [by apply Hiff|]. intros n Hn.
    apply (observed_service _ e1 e' _ HReady Ht2 Hk). eapply observed_incl; [|by apply Hready].
    set_solver.
Qed.

Lemma live_run_cluster req route rc k a e e' :
  live_run rc route k a → trace k e e' → live e req route →
  undisturbed req e e' ∧
  (a.2 = None → ∃ r', live e' req r' ∧ st_Phase (r_Status r') = due_phase e' r').
Proof.
  intros Hrun Ht Hlive. destruct Hrun as [err _|kf r k0 outcome err Hf Hq _
    |kf r1 k0 r phase outcome kp a Hf Hq Hrev Hheld Hp
    |k0 r canary k1 k2 acc kp a Hcl _ Hq1 Hw _ Hp].
  - split; [|done]. inversion Ht as [|c k ? e2 ? Hc Ht']; subst. inversion Ht'; subst.
    simpl in Hc. apply updateRoute_law in Hc. by apply view_undisturbed.
  - split; [|done]. apply trace_split in Ht as (e1 & Ht1 & Ht2).
    destruct (finalized_cluster _ _ _ _ _ _ Hf Ht1 Hlive) as (Hun & _).
    etransitivity; [exact Hun|by eapply neutral_undisturbed, quiet_neutral].
  - apply trace_split in Ht as (e1 & Ht1 & Ht). apply trace_split in Ht as (e2 & Ht2 & Ht3).
    apply quiet_neutral in Hq. pose proof (trace_neutral _ _ _ Ht2 Hq) as Hv2.
    destruct (finalized_cluster _ _ _ _ _ _ Hf Ht1 Hlive) as (Hun1 & Hl1 & _).
    apply revised_same_route in Hrev.
    assert (live e2 req r1) as Hl2 by (unfold live, routes; by rewrite Hv2).
    destruct (published_cluster _ _ _ _ _ _ _ _ _ Hp Ht3 Hl2 Hrev) as [Hun3 Hok].
    split; [do 2 (etransitivity; [eassumption || by eapply neutral_undisturbed|]); done|].
    intros Hn. destruct (Hok Hn) as (r' & sent & Hl' & Hs' & [Hph _] & Hst). exists r'.
    split; [done|]. rewrite Hst, Hph, <-(held_back_due _ _ _ _ _ _ Hheld Ht2 Hq). symmetry.
    apply due_phase_similar.
    + etransitivity; [by apply view_similar|apply Hun3].
    + by rewrite <-Hrev.
  - apply trace_split in Ht as (e1 & Ht1 & Ht). apply trace_split in Ht as (e2 & Ht2 & Ht).
    apply trace_split in Ht as (e3 & Ht3 & Ht4).
    destruct (cleared_cluster _ _ _ _ _ _ Hcl Ht1 Hlive) as (r1 & Hun1 & Hl1 & Hrev & Hdue).
    pose proof (trace_neutral _ _ _ Ht2 (quiet_neutral _ Hq1)) as Hv2.
    pose proof (trace_neutral _ _ _ Ht3 (writing_neutral _ _ _ Hw)) as Hv3. rewrite Hv2 in Hv3.
    assert (live e3 req r1) as Hl3 by (unfold live, routes; by rewrite Hv3).
    destruct (published_cluster _ _ _ _ _ _ _ _ _ Hp Ht4 Hl3 Hrev) as [Hun4 Hok].
    split; [do 2 (etransitivity; [eassumption || by apply view_undisturbed|]); done|].
    intros Hn. destruct (Hok Hn) as (r' & sent & Hl' & Hs' & Hfin & Hst). exists r'.
    split; [done|].
    assert (st_Phase (r_Status sent) = RoutePhaseActive) as Hph.
    { apply published_answer in Hp as [->|[err ->]]; [|done]. unfold final_answer in Hn.
      unfold final_status in Hfin. destruct (acc.2); [done|]. apply Hfin. }
    rewrite Hst, Hph, <-Hdue. symmetry. apply due_phase_similar.
    + etransitivity; [by apply view_similar|apply Hun4].
    + by rewrite <-Hrev.
Qed.

Context `{!OwnerLaws}.

Lemma live_unique e n r r' : live e n r → routes e !! n = Some r' → r = r'.
Proof. intros [Hr _] Hr'. by simplify_eq. Qed.

(** Any reconcile, panics included, and one that returns nil. *)
Lemma Reconcile_cluster req s :
  free (s_rec s) →
  let '(out, s') := Reconcile req s in
  undisturbed req (s_env s) (s_env s') ∧
  ∀ res, out = Ret (res, None) → ∀ r, live (s_env s) req r →
    ∃ r', live (s_env s') req r' ∧ st_Phase (r_Status r') = due_phase (s_env s') r'.
Proof.
  intros Hf. pose proof (Reconcile_runs req s Hf) as Hrun. pose proof (traces_Reconcile req s) as Htr.
  destruct (Reconcile req s) as [out s']. simpl in Htr.
  assert (∃ k outcome, trace (k ++ [CCounterInc outcome]) (s_env s) (s_env s') ∧
    match out with
    | Ret (res, err) => body_run (s_rec s') req k (outcome, res, err)
    | Panic _ => body_panic (s_rec s') req k
    end) as (k & outcome & Ht & Hb).
  { destruct Htr as (kt & Hkt & Ht).
    destruct out as [[res err]|msg].
    - destruct Hrun as (_ & outcome & k & Hk & Hb). rewrite Hk in Hkt.
      apply app_inv_head in Hkt as <-. eauto.
    - destruct Hrun as (_ & k & Hk & Hb). rewrite Hk in Hkt.
      apply app_inv_head in Hkt as <-. eauto. }
  clear Hrun Htr. apply trace_split in Ht as (e2 & Ht & Hctr).
  inversion Hctr as [|c kc ? e3 ? Hend Hnil]; subst. inversion Hnil; subst. simpl in Hend.
  rewrite <-Hend in Ht. clear Hend Hctr Hnil.
  assert (∀ route k e, trace (CGetRoute req (Ok route) :: k) (s_env s) e →
    routes (s_env s) !! req = Some route ∧
    ∃ e1, view e1 = view (s_env s) ∧ trace k e1 e) as Hget.
  { intros route k' e Htk. inversion Htk as [|c k0 ? e1 ? Hc Htk']; subst. simpl in Hc.
    apply getRoute_law in Hc as [Hv Hr]. split; [done|]. by exists e1. }
  assert (∀ route e1, view e1 = view (s_env s) → routes (s_env s) !! req = Some route →
    deletionIsZero route = true → live e1 req route) as Hlive.
  { intros route e1 Hv Hr Hz. split; [|done]. unfold routes in *. by rewrite Hv. }
  assert (∀ e1, view e1 = view (s_env s) → undisturbed req e1 (s_env s') →
    undisturbed req (s_env s) (s_env s')) as Hstart.
  { intros e1 Hv Hun. etransitivity; [by apply view_undisturbed|exact Hun]. }
  destruct out as [[res err]|msg].
  - remember (outcome, res, err) as a eqn:Ha. destruct Hb as [e|route k a Hz Hd|route k a Hz Hl].
    + inversion Ht as [|c k0 ? e1 ? Hc Ht']; subst c k0. inversion Ht'; subst. simpl in Hc.
      apply getRoute_law in Hc as [Hv Hr]. split; [by apply view_undisturbed|].
      intros res' [= -> ->] r [Hlr _]. destruct (IsNotFound e); [|done].
      unfold routes in Hlr. by rewrite Hr in Hlr.
    + apply Hget in Ht as (Hr & e1 & Hv & Ht). split.
      * apply (Hstart e1 Hv). eapply deletion_cluster; [done..| |done].
        unfold routes in *. by rewrite Hv.
      * intros res' _ r Hlr. rewrite (live_unique _ _ _ _ Hlr Hr) in Hlr.
        destruct Hlr. congruence.
    + apply Hget in Ht as (Hr & e1 & Hv & Ht).
      destruct (live_run_cluster req route _ k a e1 (s_env s') Hl Ht) as [Hun Hok]; [auto|].
      split; [by apply (Hstart e1)|]. intros res' Hout r _. apply Hok. subst a. by injection Hout.
  - split; [|done]. destruct Hb as [route k0 r canary k1 k2 m Hz Hcl _ Hq1 Hw _].
    apply Hget in Ht as (Hr & e1 & Hv & Ht). apply (Hstart e1 Hv).
    apply trace_split in Ht as (e3 & Ht1 & Ht2).
    destruct (cleared_cluster req route k0 r e1 e3 Hcl Ht1) as (r1 & Hun & _); [auto|].
    etransitivity; [exact Hun|]. eapply neutral_undisturbed; [done|].
    apply Forall_app. split; [by apply quiet_neutral|by eapply writing_neutral].
Qed.

(** ** Rounds of reconciles *)

(** Reconciles in sequence, and which of them returned nil; the others
    returned an error or panicked. *)
Definition returned_nil (out : outcome (Result * option error)) : bool :=
  match out with Ret (_, None) => true | _ => false end.
Fixpoint reconcile_all (reqs : list NamespacedName) s : list (NamespacedName * bool) * St E :=
  match reqs with
  | [] => ([], s)
  | req :: reqs' =>
      let '(out, s1) := Reconcile req s in
      let '(h, s2) := reconcile_all reqs' s1 in
      ((req, returned_nil out) :: h, s2)
  end.

(** The last reconcile of [n] returned nil. *)
Definition served (h : list (NamespacedName * bool)) (n : NamespacedName) : Prop :=
  last (filter (λ x, x.1 = n) h) = Some (n, true).

(** A set of names, after a history: the reconciled ones go by their result. *)
Definition after_one (x : NamespacedName * bool) (P : NamespacedName → Prop) (n : NamespacedName) : Prop :=
  if decide (n = x.1) then x.2 = true else P n.
Definition after (h : list (NamespacedName * bool)) (P : NamespacedName → Prop) :
    NamespacedName → Prop := foldl (λ P x, after_one x P) P h.

Lemma served_after h P n : served h n → after h P n.
Proof.
  unfold served, after. induction h as [|x h IH] using rev_ind; [done|].
  rewrite foldl_app, filter_app. cbn [foldl]. unfold after_one at 1.
  destruct (decide (x.1 = n)) as [Hx|Hx].
  - rewrite filter_cons_True, filter_nil, last_snoc by done. intros [= ->]. by rewrite decide_True.
  - rewrite filter_cons_False, filter_nil, app_nil_r by done. rewrite decide_False by congruence.
    apply IH.
Qed.

(** An invariant of rounds that each reconcile preserves. *)
Lemma reconcile_all_ind (I : (NamespacedName → Prop) → St E → Prop) :
  (∀ P req s, I P s → I (after_one (req, returned_nil (Reconcile req s).1) P) (Reconcile req s).2) →
  ∀ reqs P s h s', I P s → reconcile_all reqs s = (h, s') → I (after h P) s'.
Proof.
  intros Hstep reqs. induction reqs as [|req reqs IH]; intros P s h s' HI Hrun; simpl in Hrun.
  { by injection Hrun as <- <-. }
  specialize (Hstep P req s HI). destruct (Reconcile req s) as [out s1]. simpl in Hstep.
  destruct (reconcile_all reqs s1) as [h1 s2] eqn:Hr. injection Hrun as <- <-.
  exact (IH _ s1 h1 s2 Hstep Hr).
Qed.

(** The live Routes of a set of names show the phase that is due. *)
Definition settled (P : NamespacedName → Prop) e : Prop :=
  ∀ n r, P n → live e n r → st_Phase (r_Status r) = due_phase e r.

Lemma Reconcile_settled P req s :
  free (s_rec s) → settled P (s_env s) →
  free (s_rec (Reconcile req s).2) ∧ similar (s_env s) (s_env (Reconcile req s).2) ∧
  settled (after_one (req, returned_nil (Reconcile req s).1) P) (s_env (Reconcile req s).2).
Proof.
  intros Hf Hset. pose proof (Reconcile_free req s Hf) as Hf'.
  pose proof (Reconcile_cluster req s Hf) as Hc. destruct (Reconcile req s) as [out s'].
  destruct Hc as [[Hsim Hother] Hdue]. split_and!; [done|done|]. simpl.
  intros n r Hn Hr. unfold after_one in Hn. simpl in Hn. case_decide as Hnr.
  - subst n. destruct out as [[res [err|]]|msg]; try done.
    pose proof Hsim as (_ & _ & _ & Hback). destruct (Hback req r Hr) as (r0 & Hr0 & _).
    destruct (Hdue res eq_refl r0 Hr0) as (r' & [Hl _] & Hph).
    by rewrite (live_unique _ _ _ _ Hr Hl).
  - assert (live (s_env s) n r) as Hr0 by (unfold live in *; by rewrite Hother in Hr).
    rewrite (Hset n r Hn Hr0). symmetry. by apply due_phase_similar.
Qed.

Lemma reconcile_all_settled reqs s h s' :
  free (s_rec s) → reconcile_all reqs s = (h, s') →
  similar (s_env s) (s_env s') ∧ settled (served h) (s_env s').
Proof.
  intros Hf Hrun.
  destruct (reconcile_all_ind
    (λ P s1, free (s_rec s1) ∧ similar (s_env s) (s_env s1) ∧ settled P (s_env s1)))
    with (3 := Hrun) (P := λ _ : NamespacedName, False) as (_ & Hsim & Hset).
  - intros P req s1 (Hf1 & Hsim & Hset).
    destruct (Reconcile_settled P req s1 Hf1 Hset) as (? & ? & ?).
    split_and!; [done|by etransitivity|done].
  - split_and!; [done|done|by intros n r []].
  - split; [done|]. intros n r Hn. by apply Hset, served_after.
Qed.

Lemma rivals_not_both_active e n m a b :
  live e n a → live e m b → n ≠ m → clash a b →
  due_phase e a = RoutePhaseActive → due_phase e b = RoutePhaseActive → False.
Proof.
  intros Ha Hb Hne Hc Hda Hdb.
  assert (r_NN a = n) as Hna by (eapply view_keyed, Ha).
  assert (r_NN b = m) as Hnb by (eapply view_keyed, Hb).
  assert (r_NN a ≠ r_NN b) as Hnn by congruence.
  destruct (routePrecedes a b) eqn:Hp.
  - assert (contested e b) as Hcb.
    { exists n, a. split; [done|]. split_and!; [done|apply Ha| |by apply clash_sym].
      by rewrite routePrecedes_total, Hp. }
    apply due_contested in Hcb. by rewrite Hcb in Hdb.
  - assert (contested e a) as Hca.
    { exists m, b. split; [done|]. split_and!; [by apply not_eq_sym|apply Hb|done|done]. }
    apply due_contested in Hca. by rewrite Hca in Hda.
Qed.

(** C2: let the operator run from its start with any history, then let it
    reconcile, without other changes to the cluster, some sequence of requests,
    in which reconciles may also fail or panic and be repeated, until the last
    one of every live Route has returned nil.  Then every live Route shows the
    phase due to it by the Routes, Services and Endpoints that are stored, no
    two live Routes that clash are Active, and the live Routes are those of
    before. *)
Theorem fleet_settles reqs s h s' :
  reachable s → reconcile_all reqs s = (h, s') →
  (∀ n r, live (s_env s) n r → served h n) →
  (∀ n r, live (s_env s') n r → st_Phase (r_Status r) = due_phase (s_env s') r) ∧
  (∀ n m a b, live (s_env s') n a → live (s_env s') m b → n ≠ m → clash a b →
     ¬ (st_Phase (r_Status a) = RoutePhaseActive ∧ st_Phase (r_Status b) = RoutePhaseActive)) ∧
  similar (s_env s) (s_env s').
Proof.
  intros Hf%reachable_free Hrun Hall.
  destruct (reconcile_all_settled reqs s h s' Hf Hrun) as [Hsim Hset].
  assert (∀ n r, live (s_env s') n r → st_Phase (r_Status r) = due_phase (s_env s') r) as Hdue.
  { intros n r Hr. apply (Hset n r); [|done]. pose proof Hsim as (_ & _ & _ & Hback).
    destruct (Hback n r Hr) as (r0 & Hr0 & _). by eapply Hall. }
  split_and!; [done| |done]. intros n m a b Ha Hb Hne Hc [Hpa Hpb].
  rewrite (Hdue n a Ha) in Hpa. rewrite (Hdue m b Hb) in Hpb.
  by eapply (rivals_not_both_active _ n m a b).
Qed.

End runs.

(** ** The in-memory cluster keeps its promises *)

#[export] Instance memFinalizerLaws : FinalizerLaws.
Proof.
  constructor; intros r f; simpl; [|done]. unfold mem_AddFinalizer. by case_match.
Qed.

Lemma known_insert (m : gmap NamespacedName Route) n r :
  r_NN r = n →
  filter (λ x, r_NN x.2 = x.1) (<[n := r]> m) = <[n := r]> (filter (λ x, r_NN x.2 = x.1) m).
Proof. intros <-. by apply map_filter_insert_True. Qed.

#[export] Instance memCluster : Cluster Mem.
Proof.
  refine {| view m := (mem_known m, mem_services m, mem_endpoints m) |}; try done.
  - intros m n r [_ Hn]%map_lookup_filter_Some. done.
  - intros n e r e' [= <- <-]. split; [done|]. unfold found. simpl.
    destruct (mem_known e !! n) eqn:Hk; [done|]. by intros _.
  - intros e r e' [= <- <-]. split; [done|]. intros r. rewrite list_elem_of_fmap. simpl. split.
    + intros ([n r'] & -> & Hin). apply elem_of_map_to_list in Hin. simpl.
      pose proof Hin as [_ Hn]%map_lookup_filter_Some. simpl in Hn. by rewrite Hn.
    + intros Hr. exists (r_NN r, r). split; [done|]. by apply elem_of_map_to_list.
  - intros n e r e' [= <- <-]. split; [done|]. unfold found.
    simpl. destruct (mem_services e !! n); [by eexists|done].
  - intros n e r e' [= <- <-]. split; [done|]. unfold found.
    simpl. by destruct (mem_endpoints e !! n).
  - intros r e res e'. simpl. unfold mem_updateRoute. intros Hc.
    destruct (mem_known e !! r_NN r); [|by simplify_eq].
    match type of Hc with (if ?b then _ else _) = _ => destruct b eqn:Hb end; simplify_eq.
    + split; [done|]. right. apply andb_true_iff in Hb as [Hz%negb_true_iff _]. split; [done|].
      unfold mem_known. simpl. by rewrite map_filter_delete.
    + split; [done|]. left. unfold mem_known. simpl. by rewrite known_insert.
  - intros r e res e'. simpl. unfold mem_updateRouteStatus. intros Hc.
    destruct (mem_known e !! r_NN r) as [old|] eqn:Ho; simplify_eq; [|done].
    pose proof Ho as [_ Hn]%map_lookup_filter_Some. simpl in Hn.
    split_and!; [by exists old|done|]. unfold mem_known. simpl.
    by rewrite known_insert.
  - intros url e. simpl. by destruct (mem_http e).
  - intros k ls ns e. simpl. unfold mem_listChildren. by case_match.
  - intros c e. simpl. unfold mem_createChild. by repeat case_match.
  - intros c e. simpl. unfold mem_updateChild. by repeat case_match.
  - intros k n e. simpl. unfold mem_deleteChild. by repeat case_match.
Defined.

(** Two Routes claim one host and path: after a round the one that precedes
    is Active and the other one Degraded.  The first reconcile fails. *)
Definition ex_fleet : St Mem :=
  let s := ex_state (ex_mem [ex_route "app" "a.example"; ex_route "aaa" "a.example"] ["10.0.0.1"]) in
  mkSt (s_env s) Main.Main.newRouteReconciler [].
Definition ex_reqs : list NamespacedName :=
  [mkNN "demo" "gone"; mkNN "demo" "app"; mkNN "demo" "aaa"; mkNN "demo" "app"].
Definition ex_history : list (NamespacedName * bool) := (reconcile_all ex_reqs ex_fleet).1.
Definition ex_end : St Mem := (reconcile_all ex_reqs ex_fleet).2.

Example ex_round :
  (λ r, (r_Name r, st_Phase (r_Status r))) <$> (map_to_list (routes (s_env ex_end))).*2 =
    [("aaa", "Active"); ("app", "Degraded")].
Proof. by vm_compute. Qed.

Lemma ex_served n r : live (s_env ex_fleet) n r → served ex_history n.
Proof.
  intros [Hr _]. apply elem_of_map_to_list in Hr.
  assert (Forall (served ex_history) (map_to_list (routes (s_env ex_fleet))).*1) as Hall.
  { unfold served. apply (bool_decide_unpack _). by vm_compute. }
  rewrite Forall_forall in Hall. apply Hall, list_elem_of_fmap. by exists (n, r).
Qed.

Lemma fleet_settles_witness :
  reconcile_all ex_reqs ex_fleet = (ex_history, ex_end) ∧
  (∀ n r, live (s_env ex_end) n r → st_Phase (r_Status r) = due_phase (s_env ex_end) r) ∧
  (∀ n m a b, live (s_env ex_end) n a → live (s_env ex_end) m b → n ≠ m → clash a b →
     ¬ (st_Phase (r_Status a) = RoutePhaseActive ∧ st_Phase (r_Status b) = RoutePhaseActive)) ∧
  similar (s_env ex_fleet) (s_env ex_end).
Proof.
  assert (reconcile_all ex_reqs ex_fleet = (ex_history, ex_end)) as Hrun by apply surjective_pairing.
  split; [exact Hrun|].
  exact (fleet_settles ex_reqs ex_fleet ex_history ex_end (reach_start (s_env ex_fleet)) Hrun
    ex_served).
Defined.
End Fleet.
