(* ===== verification/Deletions.v ===== *)
(** * What the deletion of one Route does to the objects of others

    [cleanupOwnedResources] finds the objects of a dying Route by kind,
    namespace and labels, not by key.  Every object that a Route calls for
    carries its labels, so a deletion spares the objects of the Routes that
    have another name or another Gateway namespace. *)
From S2P Require Import Prelude GoStd GoTime RouteTypes Objects Env Trace Mem Store Common.
From S2P Require Import Builders Conflicts Metrics Canary Children Keys Reconcile Stages Runs.
From S2P Require Import ReconcileProps Fleet.

Module Deletions.
Import Builders.Builders Metrics.Metrics Canary.Canary Children.Children Keys.Keys.
Import Reconcile.Reconcile Stages.Stages Runs.Runs ReconcileProps.ReconcileProps Fleet.Fleet.

(** The server keeps the labels of what it stores. *)
Class LabelsStored (E : Type) `{ChildStore E} : Prop := {
  stored_as_labels (c c' : Child) :
    stored_as c c' → m_Labels (c_Meta c') = m_Labels (c_Meta c)
}.
#[export] Instance memLabelsStored : LabelsStored Mem.
Proof. constructor. by intros c c' [v ->]. Qed.

(** ** The labels of the generated objects *)

Section labels.
Context `{GoLibs} `{!OwnerLaws}.

Definition labelled (r : Route) (d : Child) : Prop := m_Labels (c_Meta d) = managedLabels r.

Lemma desired_labelled r canary d : Ret (Ok d) ∈ desired r canary → labelled r d.
Proof.
  intros (c & name & ns & Hm & Hc)%desired_built_for. unfold labelled.
  destruct (crossNS (c_Kind c)); [by subst d; rewrite Hm|]. destruct Hc as [_ [= Hset]].
  symmetry in Hset. apply SetControllerReference_sets in Hset as (os & -> & _). simpl. by rewrite Hm.
Qed.

Lemma same_object_labels c c' : same_object c c' → m_Labels (c_Meta c') = m_Labels (c_Meta c).
Proof. intros Hs. exact (f_equal (m_Labels ∘ c_Meta) Hs). Qed.

Lemma managedLabels_name r r' : managedLabels r ⊆ managedLabels r' → r_Name r = r_Name r'.
Proof.
  intros Hs. assert (managedLabels r' !! routeNameLabel = Some (r_Name r)) as Hl.
  { eapply lookup_weaken; [|exact Hs]. unfold managedLabels. by simplify_map_eq. }
  unfold managedLabels in Hl. by simplify_map_eq.
Qed.
End labels.

(** ** A reconcile of a Route under deletion *)

(** The objects its cleanup selects. *)
Definition doomed (route : Route) : Child → Prop :=
  cleanable (managedLabels route) (gatewayRef route).2
    [KDestinationRule; KEnvoyFilter; KRequestAuthentication; KAuthorizationPolicy].

Section deletion.
Context {E : Type} `{KubeEnv E} `{!Cluster E} `{!ChildStore E}.
Context `{GoLibs} `{!FinalizerLaws}.
Implicit Types (e : E) (s : St E).

(** From one state to the next only objects that satisfy [P] disappear. *)
Definition shrinking (P : Child → Prop) s s' : Prop :=
  shrinks P (children (s_env s)) (children (s_env s')).
#[export] Instance shrinking_preorder P : PreOrder (shrinking P).
Proof.
  unfold shrinking. split; [intros s; reflexivity|]. intros s1 s2 s3 H12 H23. by etransitivity.
Qed.

Lemma shrinking_same P s s' : children (s_env s') = children (s_env s) → shrinking P s s'.
Proof. intros Heq. unfold shrinking. rewrite Heq. reflexivity. Qed.

Lemma shrinking_emit P c : respects (shrinking P) (emit (E:=E) c).
Proof. intros s. by apply shrinking_same. Qed.
Lemma shrinking_modifyRec P f : respects (shrinking P) (modifyRec (E:=E) f).
Proof. intros s. by apply shrinking_same. Qed.
Lemma shrinking_Lock P : respects (shrinking P) (Lock (E:=E)).
Proof. unfold Lock. follow ltac:(apply shrinking_modifyRec) fail. Qed.
Lemma shrinking_Unlock P : respects (shrinking P) (Unlock (E:=E)).
Proof. unfold Unlock. follow ltac:(apply shrinking_modifyRec) fail. Qed.
Lemma shrinking_updateRoute P r : respects (shrinking P) (updateRoute (E:=E) r).
Proof.
  intros s. apply shrinking_same. unfold updateRoute, kcall.
  pose proof (updateRoute_frame r (s_env s)) as Hf.
  by destruct (env_updateRoute r (s_env s)) as [res e].
Qed.
Lemma shrinking_cleanup route :
  respects (shrinking (doomed route)) (cleanupOwnedResources (E:=E) route).
Proof.
  intros s. pose proof (cleanupOwnedResources_wp route s) as Hwp. unfold wp in Hwp.
  destruct (cleanupOwnedResources route s) as [[err|] s']; [|done]. apply Hwp.
Qed.

Lemma shrinking_handleDeletion route :
  respects (shrinking (doomed route)) (handleDeletion (E:=E) route).
Proof.
  unfold handleDeletion, clearCanaryRuntimeState, clearRouteMetrics.
  follow ltac:(first [apply shrinking_cleanup|apply shrinking_updateRoute|apply shrinking_Lock
    |apply shrinking_Unlock|apply shrinking_modifyRec]) ltac:(apply shrinking_emit).
Qed.

(** A reconcile of a Route under deletion. *)
Lemma Reconcile_dying req s route :
  routes (s_env s) !! req = Some route → deletionIsZero route = false →
  shrinking (doomed route) s (Reconcile req s).2.
Proof.
  intros Hr Hz. unfold Reconcile, reconcileBody, getRoute, kcall, mbind, M_bind.
  pose proof (getRoute_frame req (s_env s)) as Hf.
  destruct (env_getRoute req (s_env s)) as [x e] eqn:Hget. simpl in Hf.
  apply getRoute_law in Hget as [_ Hlaw]. destruct x as [r|err].
  2:{ destruct (IsNotFound err); by apply shrinking_same. }
  unfold routes in Hr. rewrite Hr in Hlaw. injection Hlaw as <-. rewrite Hz. cbn [negb].
  set (s1 := mkSt e _ _). assert (shrinking (doomed route) s s1) as Hs1 by by apply shrinking_same.
  pose proof (shrinking_handleDeletion route s1) as Hd.
  destruct (handleDeletion route s1) as [[[[outcome res] err]|msg] s2];
    (etransitivity; [exact Hs1|exact Hd]).
Qed.

(** ** The stored Routes *)

(** Every stored Route was stored before, up to status and finalizers. *)
Definition descends e e' : Prop :=
  ∀ n r', routes e' !! n = Some r' → ∃ r, routes e !! n = Some r ∧ same_route r r'.
#[export] Instance descends_preorder : PreOrder descends.
Proof.
  split; [intros e n r Hr; by exists r|]. intros e1 e2 e3 H12 H23 n r3 H3.
  destruct (H23 n r3 H3) as (r2 & H2 & Hs2). destruct (H12 n r2 H2) as (r1 & H1' & Hs1).
  exists r1. split; [done|by etransitivity].
Qed.
Lemma view_descends e e' : view e' = view e → descends e e'.
Proof. intros Hv n r Hr. exists r. unfold routes in *. by rewrite <-Hv. Qed.

Lemma deletion_descends req route k a e e' :
  deletion_run route k a → trace k e e' → routes e !! req = Some route → descends e e'.
Proof.
  assert (∀ upd k1 k2 e e', Forall deleting k1 → Forall quiet k2 →
    trace (k1 ++ CUpdateRoute (RemoveFinalizer route routeFinalizer) upd :: k2) e e' →
    routes e !! req = Some route → descends e e') as Hupd.
  { clear k e e'. intros upd k1 k2 e e' Hk1 Hk2 Ht Hreq.
    apply trace_split in Ht as (e1 & Ht1 & Ht2). inversion Ht2 as [|c k ? e2 ? Hc Ht3]; subst c k.
    pose proof (trace_neutral _ _ _ Ht1 (deleting_neutral _ Hk1)) as Hv1.
    pose proof (trace_neutral _ _ _ Ht3 (quiet_neutral _ Hk2)) as Hv3.
    simpl in Hc. apply updateRoute_law in Hc.
    pose proof (RemoveFinalizer_same route routeFinalizer) as Hrm.
    assert (r_NN (RemoveFinalizer route routeFinalizer) = req) as Hnn
      by (rewrite <-Hrm; by eapply view_keyed).
    intros n r. unfold routes in *. rewrite Hv3. destruct upd as [r'|err].
    2:{ rewrite Hc, Hv1. intros Hr. by exists r. }
    destruct Hc as [Hsame Hv2]. rewrite Hnn, Hv1 in Hv2.
    destruct Hv2 as [->|[_ ->]]; simpl.
    - intros [(<- & <-)|[_ Hr]]%lookup_insert_Some; [|by exists r].
      exists route. split; [done|by etransitivity].
    - intros [_ Hr]%lookup_delete_Some. by exists r. }
  intros [k0 ? Hk|k1 upd k2 ? Hk1%cleanup_deleting Hk2|k1 err ? Hk1%cleanup_deleting] Ht Hreq.
  - eapply view_descends, trace_neutral; [done|]. by apply quiet_neutral.
  - by eapply Hupd.
  - by eapply (Hupd (Err err) k1 []).
Qed.
End deletion.
End Deletions.
