(* ===== verification/Provision.v ===== *)
(** * What the fleet leaves in the cluster

    Fleet.v says which phase each Route ends up with; this file says what an
    Active one then has: all its objects, and none that it retires, whatever
    the other Routes of the fleet did in between.  It combines the interfaces
    to the stores of Routes and of generated objects, and needs that names keep
    the Routes apart (Keys.v). *)
From S2P Require Import Prelude GoStd GoTime RouteTypes Objects Env Trace Mem Store Common.
From S2P Require Import Builders Conflicts Canary Children Keys Reconcile Stages Runs.
From S2P Require Import ReconcileProps Schema Fleet Deletions.

Module Provision.
Import Builders.Builders Canary.Canary Children.Children Keys.Keys Reconcile.Reconcile.
Import Stages.Stages Runs.Runs ReconcileProps.ReconcileProps Fleet.Fleet Deletions.Deletions.

(** ** Objects and keys depend on a Route only up to [same_route] *)

Lemma role_key_same r r' x : same_route r r' → role_key r' x = role_key r x.
Proof.
  intros Hs. destruct (same_route_nn _ _ Hs) as [Hns Hn]. destruct Hs as (_ & _ & _ & Hg & _).
  unfold role_key. by rewrite Hg, Hns, Hn.
Qed.

Section same.
Context `{GoLibs} `{!OwnerLaws}.
Context (r r' : Route) (Hsame : same_route r r').

Let Hns : r_Namespace r' = r_Namespace r := proj1 (same_route_nn _ _ Hsame).
Let Hn : r_Name r' = r_Name r := proj2 (same_route_nn _ _ Hsame).
Let Hg : gatewayRef r' = gatewayRef r := proj1 (proj2 (proj2 (proj2 Hsame))).
Let Hrest : spec_rest r' = spec_rest r := proj2 (proj2 (proj2 (proj2 Hsame))).
Let Hrules : rs_Rules (r_Spec r') = rs_Rules (r_Spec r) := f_equal rs_Rules Hrest.
Let Hssl : rs_SSLRedirect (r_Spec r') = rs_SSLRedirect (r_Spec r) := f_equal rs_SSLRedirect Hrest.
Let Htime : rs_Timeout (r_Spec r') = rs_Timeout (r_Spec r) := f_equal rs_Timeout Hrest.
Let Hsize : rs_MaxBodySize (r_Spec r') = rs_MaxBodySize (r_Spec r) := f_equal rs_MaxBodySize Hrest.
Let Hcors : rs_CORS (r_Spec r') = rs_CORS (r_Spec r) := f_equal rs_CORS Hrest.
Let Hret : rs_Retries (r_Spec r') = rs_Retries (r_Spec r) := f_equal rs_Retries Hrest.
Let Hauth : rs_Auth (r_Spec r') = rs_Auth (r_Spec r) := f_equal rs_Auth Hrest.
Let Hrl : rs_RateLimit (r_Spec r') = rs_RateLimit (r_Spec r) := f_equal rs_RateLimit Hrest.

#[local] Ltac by_parts :=
  unfold newHTTPRoute, newRedirectHTTPRoute, newVirtualService, istioHTTPRoute,
    newDestinationRule, newEnvoyFilter, newRateLimitEnvoyFilter, newRequestAuthentication,
    newAuthorizationPolicy, wantsRedirect, wantsVirtualService, httpsBackends, managedLabels;
  by rewrite ?Hg, ?Hn, ?Hns, ?Hrules, ?Hssl, ?Htime, ?Hsize, ?Hcors, ?Hret, ?Hrl.

Lemma owned_same c : owned r' c = owned r c.
Proof. unfold owned. f_equal. apply SetControllerReference_nn, Hsame. Qed.

Lemma desired_same canary : desired r' canary = desired r canary.
Proof.
  clearbody Hns Hn Hg Hrules Hssl Htime Hsize Hcors Hret Hauth Hrl Hrest.
  unfold desired, want_routes, want_redirects, want_virtualService, want_destinationRules,
    want_bodySizes, want_auth, want_rateLimit.
  rewrite Hrules, Hsize, Hauth, Hrl.
  replace (wantsRedirect r') with (wantsRedirect r) by by_parts.
  replace (wantsVirtualService r' canary) with (wantsVirtualService r canary) by by_parts.
  replace (httpsBackends r' canary) with (httpsBackends r canary) by by_parts.
  f_equal; [|f_equal; [|f_equal; [|f_equal; [|f_equal; [|f_equal]]]]].
  - apply (Schema.Schema.indexed_ext (λ i rule, owned r' (newHTTPRoute r' i rule canary))).
    intros i rule. rewrite owned_same. f_equal. by_parts.
  - destruct (wantsRedirect r); [|done].
    apply (Schema.Schema.indexed_ext (λ i host, owned r' (newRedirectHTTPRoute r' i host))).
    intros i host. rewrite owned_same. f_equal. by_parts.
  - destruct (wantsVirtualService r canary); [|done]. rewrite owned_same. do 2 f_equal.
    unfold newVirtualService. rewrite Hg, Hn, Hns, Hrules. destruct (gatewayRef r).
    unfold managedLabels. rewrite Hn. do 3 f_equal. apply list_fmap_ext. intros _ rule _. by_parts.
  - apply (Schema.Schema.indexed_ext (λ i b, object (newDestinationRule r' i b))).
    intros i b. f_equal. by_parts.
  - case_bool_decide; [|done].
    apply (Schema.Schema.indexed_ext (λ i rule, built (newEnvoyFilter r' i rule))).
    intros i rule. f_equal. by_parts.
  - destruct (rs_Auth (r_Spec r)) as [auth|]; [|done].
    f_equal; [|f_equal]; f_equal; by_parts.
  - destruct (rs_RateLimit (r_Spec r)) as [rl|]; [|done]. do 2 f_equal. by_parts.
Qed.

Lemma retired_same : retired r' = retired r.
Proof. unfold retired, retired_auth, retired_rateLimit. by rewrite Hg, Hn, Hauth, Hrl. Qed.
End same.

(** ** What one reconcile does to the generated objects *)

Section runs.
Context {E : Type} `{KubeEnv E} `{!Cluster E} `{!ChildStore E}.
Context `{!LabelsStored E} `{GoLibs} `{!FinalizerLaws} `{!OwnerLaws}.
Implicit Types (e : E) (s : St E).

(** Nothing but objects with a key of [route] changes. *)
Definition keeps_others (route : Route) e e' : Prop :=
  ∀ key, (∀ x, key ≠ role_key route x) → children e' !! key = children e !! key.

Lemma writing_touches route r canary c key :
  same_route route r → writing r canary c → touches c = Some key → ∃ x, key = role_key route x.
Proof.
  intros Hs Hw Ht. assert (∀ d c', Ret (Ok d) ∈ desired r canary → same_object d c' →
    c_Key c' = key → ∃ x, key = role_key route x) as Hobj.
  { intros d c' [i Hi]%list_elem_of_lookup Hd <-. destruct (desired_role _ _ _ _ Hi) as (x & _ & Hx).
    exists x. by rewrite (same_object_key d c'), Hx, (role_key_same route r). }
  destruct c; try done; injection Ht as Ht; simpl in Hw; [destruct Hw as (d & ? & ?); eauto..|].
  subst key. destruct (retired_role r _ canary Hw) as (x & -> & _). exists x.
  by rewrite (role_key_same route r).
Qed.

Lemma harmless_untouched k key :
  harmless_calls k → Forall (λ c, touches c ≠ Some key) k.
Proof. intros Hk. eapply Forall_impl; [exact Hk|]. intros c Hc Ht. apply Hc. by destruct c. Qed.

(** A trace that writes for a version of [route], and else harms nothing. *)
Lemma trace_keeps route r canary k0 k2 kp e e' :
  trace (k0 ++ k2 ++ kp) e e' → same_route route r → harmless_calls k0 →
  Forall (writing r canary) k2 → harmless_calls kp → keeps_others route e e'.
Proof.
  intros Ht Hs Hbefore Hw Hp key Hkey. apply (store_untouched _ _ _ key Ht).
  apply Forall_app_2; [by apply harmless_untouched|].
  apply Forall_app_2; [|by apply harmless_untouched].
  eapply Forall_impl; [exact Hw|]. intros c Hc Htk.
  destruct (writing_touches route r canary c key Hs Hc Htk) as [x ->]. by apply (Hkey x).
Qed.

Lemma harmless_keeps route k e e' : trace k e e' → harmless_calls k → keeps_others route e e'.
Proof.
  intros Ht Hk. apply (trace_keeps route route None k [] []); [by rewrite app_nil_r|done|done| |];
    by constructor.
Qed.

Lemma cleared_same req route k r e e' :
  cleared route k r → trace k e e' → live e req route → same_route route r.
Proof.
  intros (kf & r1 & kc & items & kh & -> & Hf & _ & Hrev & _) Ht Hlive.
  apply trace_split in Ht as (e1 & Ht1 & _).
  destruct (finalized_cluster _ _ _ _ _ _ Hf Ht1 Hlive) as (_ & _ & Hs).
  etransitivity; [exact Hs|]. by apply revised_same_route.
Qed.

Lemma live_run_keeps req route rc k a e e' :
  live_run rc route k a → trace k e e' → live e req route → keeps_others route e e'.
Proof.
  intros Hrun Ht Hlive. destruct Hrun as [err _|kf r k0 outcome err Hf Hq _
    |kf r1 k0 r phase outcome kp a Hf Hq Hrev Hheld Hp
    |k0 r canary k1 k2 acc kp a Hcl _ Hq1 Hw _ Hp];
    [eapply harmless_keeps; [done|harmless]..|].
  pose proof Ht as (e1 & Ht1 & _)%trace_split.
  eapply (trace_keeps route r canary (k0 ++ k1) k2 kp); [by rewrite <-app_assoc| | |done|].
  - by eapply cleared_same.
  - harmless.
  - harmless.
Qed.

(** A canary that may be in effect: the spec's, or none during a rollback. *)
Definition possible (r : Route) (canary : option RouteCanary) : Prop :=
  canary = rs_Canary (r_Spec r) ∨ canary = None ∧ is_Some (rollback_policy r).

Lemma in_effect_possible rc k r canary : in_effect rc k r canary → possible r canary.
Proof.
  unfold in_effect, possible. destruct (rollback_policy r) as [p|]; [|by left].
  intros (now & _ & ->). destruct (cooling _ _); [right|by left]. split; [done|by eexists].
Qed.
Lemma possible_same r r' canary : same_route r r' → possible r canary → possible r' canary.
Proof.
  intros Hs. unfold possible, rollback_policy. by rewrite (same_route_canary _ _ Hs).
Qed.

(** The Route has its objects, and none that it retires. *)
Definition provisioned e (r : Route) (canary : option RouteCanary) : Prop :=
  (∀ o, o ∈ desired r canary → ∃ d c c', o = Ret (Ok d) ∧ same_object d c ∧ stored_as c c' ∧
     children e !! c_Key d = Some c') ∧
  (∀ key, key ∈ retired r → children e !! key = None).

Lemma provisioned_same e r r' canary :
  same_route r r' → provisioned e r canary → provisioned e r' canary.
Proof.
  intros Hs. unfold provisioned. by rewrite (desired_same r r' Hs), (retired_same r r' Hs).
Qed.

(** A reconcile that returns nil and leaves its Route Active. *)
Lemma live_run_provisions req route rc k a e e' r' :
  live_run rc route k a → trace k e e' → live e req route → a.2 = None →
  live e' req r' → st_Phase (r_Status r') = RoutePhaseActive →
  ∃ canary, possible r' canary ∧ provisioned e' r' canary.
Proof.
  intros Hrun Ht Hlive Ha Hr' Hact. destruct Hrun as [err _|kf r k0 outcome err Hf Hq _
    |kf r1 k0 r phase outcome kp a Hf Hq Hrev Hheld Hp
    |k0 r canary k1 k2 acc kp a Hcl Hcan Hq1 Hw (_ & _ & Hd) Hp]; [done|done|exfalso|].
  - apply trace_split in Ht as (e1 & Ht1 & Ht). apply trace_split in Ht as (e2 & Ht2 & Ht3).
    pose proof (trace_neutral _ _ _ Ht2 (quiet_neutral _ Hq)) as Hv2.
    destruct (finalized_cluster _ _ _ _ _ _ Hf Ht1 Hlive) as (_ & Hl1 & _).
    assert (live e2 req r1) as Hl2 by (unfold live, routes; by rewrite Hv2).
    destruct (published_cluster _ _ _ _ _ _ _ _ _ Hp Ht3 Hl2 (revised_same_route _ _ Hrev))
      as [_ Hok].
    destruct (Hok Ha) as (r2 & sent & [Hl _] & _ & [Hph _] & Hst).
    rewrite (live_unique _ _ _ _ Hr' Hl), Hst, Hph in Hact. by destruct Hheld.
  - pose proof Ht as (e1 & Ht1 & Ht2)%trace_split.
    assert (same_route route r) as Hs by by eapply cleared_same.
    apply trace_split in Ht2 as (e2 & Ht2 & Ht3). apply trace_split in Ht3 as (e3 & Ht3 & Ht4).
    assert (same_route r r') as Hs'.
    { destruct (cleared_cluster _ _ _ _ _ _ Hcl Ht1 Hlive) as (r1 & _ & Hl1 & Hs1 & _).
      assert (live e3 req r1) as Hl3.
      { pose proof (trace_neutral _ _ _ Ht2 (quiet_neutral _ Hq1)) as Hv2.
        pose proof (trace_neutral _ _ _ Ht3 (writing_neutral _ _ _ Hw)) as Hv3.
        rewrite Hv2 in Hv3. unfold live, routes. by rewrite Hv3. }
      destruct (published_cluster _ _ _ _ _ _ _ _ _ Hp Ht4 Hl3 Hs1) as [_ Hok].
      destruct (Hok Ha) as (r2 & _ & [Hl _] & Hs2 & _).
      rewrite (live_unique _ _ _ _ Hr' Hl). etransitivity; [symmetry; exact Hs1|exact Hs2]. }
    exists canary. split; [eapply possible_same, in_effect_possible; done|].
    eapply provisioned_same; [exact Hs'|].
    assert (acc.2 = None) as Hacc.
    { apply published_answer in Hp as [->|[err ->]]; [|done]. unfold final_answer in Ha.
      by destruct (acc.2). }
    rewrite Hacc in Hd. destruct Hd as (_ & _ & Hall).
    destruct (written_realizes r canary (k0 ++ k1) k2 kp e e') as (Hp1 & Hp2 & _);
      [by rewrite <-app_assoc|harmless|harmless|done|done|]. by split.
Qed.
(** A reconcile: the Route was not read, and nothing was done; or it is being
    deleted; or it is live, and this is a run of it. *)
Lemma Reconcile_cases req s :
  free (s_rec s) →
  let '(out, s') := Reconcile req s in
  (view (s_env s') = view (s_env s) ∧ children (s_env s') = children (s_env s) ∧
   (returned_nil out = true → routes (s_env s) !! req = None)) ∨
  (∃ route k a e1, routes (s_env s) !! req = Some route ∧ deletionIsZero route = false ∧
    view e1 = view (s_env s) ∧ trace k e1 (s_env s') ∧ deletion_run route k a) ∨
  ∃ route k e1, live (s_env s) req route ∧ view e1 = view (s_env s) ∧
    children e1 = children (s_env s) ∧ trace k e1 (s_env s') ∧
    ((∃ outcome res err, out = Ret (res, err) ∧ live_run (s_rec s') route k (outcome, res, err)) ∨
     ∃ msg k0 r canary k1 k2, out = Panic msg ∧ k = k0 ++ k1 ++ k2 ∧ cleared route k0 r ∧
       Forall quiet k1 ∧ Forall (writing r canary) k2).
Proof.
  intros Hf. pose proof (Reconcile_runs req s Hf) as Hrun.
  pose proof (traces_Reconcile req s) as Htr. destruct (Reconcile req s) as [out s'].
  simpl in Htr. destruct Htr as (kt & Hkt & Ht).
  assert (∀ k outcome, s_log s' = s_log s ++ k ++ [CCounterInc outcome] →
    trace k (s_env s) (s_env s')) as Hlog.
  { intros k outcome Hk. rewrite Hk in Hkt. apply app_inv_head in Hkt as <-.
    apply trace_split in Ht as (e2 & Ht1 & Ht2). inversion Ht2 as [|c k' ? e3 ? Hc Hnil]; subst.
    inversion Hnil; subst. simpl in Hc. by subst. }
  assert (∀ route k, trace (CGetRoute req (Ok route) :: k) (s_env s) (s_env s') →
    routes (s_env s) !! req = Some route ∧ ∃ e1, view e1 = view (s_env s) ∧
      children e1 = children (s_env s) ∧ trace k e1 (s_env s')) as Hget.
  { intros route k Htk. inversion Htk as [|c k0 ? e1 ? Hc Htk']; subst. simpl in Hc.
    pose proof (getRoute_law _ _ _ _ Hc) as [Hv Hr]. split; [done|]. exists e1.
    split_and!; [done| |done]. pose proof (getRoute_frame req (s_env s)) as Hfr.
    by rewrite Hc in Hfr. }
  destruct out as [[res err]|msg].
  - destruct Hrun as (_ & outcome & k & Hk & Hb). apply Hlog in Hk.
    remember (outcome, res, err) as a eqn:Ha. destruct Hb as [e|route k a Hz Hd|route k a Hz Hl].
    + left. inversion Hk as [|c k0 ? e1 ? Hc Hnil]; subst c k0. inversion Hnil; subst. simpl in Hc.
      pose proof (getRoute_law _ _ _ _ Hc) as [Hv Hr]. split; [done|].
      pose proof (getRoute_frame req (s_env s)) as Hfr. rewrite Hc in Hfr. split; [done|].
      intros Hnilr. apply Hr. destruct (IsNotFound e) eqn:Hnf; [done|].
      injection Ha as <- <- <-. done.
    + right; left. apply Hget in Hk as (Hr & e1 & ? & _ & ?). by exists route, k, a, e1.
    + right; right. apply Hget in Hk as (Hr & e1 & ? & ? & ?). exists route, k, e1.
      split_and!; [by split|done..|]. left. subst a. eauto 10.
  - destruct Hrun as (_ & k & Hk & Hb). apply Hlog in Hk. right; right.
    destruct Hb as [route k0 r canary k1 k2 m Hz Hcl _ Hq1 Hw _].
    apply Hget in Hk as (Hr & e1 & ? & ? & ?). exists route, (k0 ++ k1 ++ k2), e1.
    split_and!; [by split|done..|]. right. eauto 15.
Qed.

Lemma Reconcile_descends req s :
  free (s_rec s) → descends (s_env s) (s_env (Reconcile req s).2).
Proof.
  intros Hf. pose proof (Reconcile_cases req s Hf) as Hc.
  pose proof (Reconcile_cluster req s Hf) as Hcl. destruct (Reconcile req s) as [out s'].
  destruct Hcl as [[Hsim Hother] _]. simpl.
  destruct Hc as [(Hv & _)|[(route & k & a & e1 & Hr & _ & Hv & Ht & Hd)|(route & k & e1 & Hl & _)]].
  - by apply view_descends.
  - transitivity e1; [by apply view_descends|]. eapply deletion_descends; [done..|].
    unfold routes in *. by rewrite Hv.
  - intros n r' Hr'. destruct (decide (n = req)) as [->|Hne].
    2:{ exists r'. split; [|done]. by rewrite <-Hother. }
    destruct Hsim as (_ & _ & Hto & _). destruct (Hto req route Hl) as (r & Hlr & Hs).
    exists route. split; [apply Hl|]. by rewrite <-(live_unique _ _ _ _ Hlr Hr').
Qed.

(** ** Rounds *)

(** Two Routes that no generated object belongs to both of, by their names. *)
Definition apart (a b : Route) : Prop :=
  (r_Name a = r_Name b → r_Namespace a ≠ r_Namespace b ∧ (gatewayRef a).2 ≠ (gatewayRef b).2) ∧
  (r_Namespace a = r_Namespace b →
     r_Name a ≠ r_Name b +:+ "-redirect" ∧ r_Name b ≠ r_Name a +:+ "-redirect").

Lemma apart_keys a b x y : apart a b → role_key a x ≠ role_key b y.
Proof.
  intros [Hname Hred] Heq. apply role_key_collide in Heq as [(-> & Hn & Hns)|(Hns & i & Hc)].
  - apply Hname in Hn as [Hn1 Hn2]. by destruct (crossNS (role_kind y)).
  - apply Hred in Hns as [Hr1 Hr2]. destruct Hc as [(_ & _ & ?)|(_ & _ & ?)]; done.
Qed.
Lemma apart_same a b a' b' : same_route a a' → same_route b b' → apart a b → apart a' b'.
Proof.
  intros Ha Hb. unfold apart. destruct (same_route_nn _ _ Ha) as [-> ->].
  destruct (same_route_nn _ _ Hb) as [-> ->].
  destruct Ha as (_ & _ & _ & -> & _), Hb as (_ & _ & _ & -> & _). done.
Qed.
(** All stored Routes, those under deletion included. *)
Definition all_apart e : Prop :=
  ∀ n m a b, routes e !! n = Some a → routes e !! m = Some b → n ≠ m → apart a b.

Lemma all_apart_descends e e' : descends e e' → all_apart e → all_apart e'.
Proof.
  intros Hd Hap n m a b Ha Hb Hne. destruct (Hd n a Ha) as (a0 & Ha0 & Hsa).
  destruct (Hd m b Hb) as (b0 & Hb0 & Hsb).
  eapply apart_same; [exact Hsa|exact Hsb|]. by apply (Hap n m).
Qed.

(** The Active Routes of a set of names are provisioned. *)
Definition equipped (P : NamespacedName → Prop) e : Prop :=
  ∀ n r, P n → live e n r → st_Phase (r_Status r) = RoutePhaseActive →
    ∃ canary, possible r canary ∧ provisioned e r canary.

Lemma provisioned_kept e e' r route canary :
  apart r route → keeps_others route e e' → provisioned e r canary → provisioned e' r canary.
Proof.
  intros Hap Hkeep [Hdes Hret]. split.
  - intros o Ho. destruct (Hdes o Ho) as (d & c & c' & -> & Hs & Hst & Hlk).
    exists d, c, c'. split_and!; [done..|]. rewrite Hkeep; [done|]. intros x.
    apply list_elem_of_lookup in Ho as [i Hi]. destruct (desired_role _ _ _ _ Hi) as (y & _ & ->).
    by apply apart_keys.
  - intros key Hkey. rewrite Hkeep; [by apply Hret|]. intros x.
    destruct (retired_role r _ canary Hkey) as (y & -> & _). by apply apart_keys.
Qed.

(** A deletion spares the objects of a Route apart from the dying one. *)
Lemma provisioned_spared e e' r route canary :
  apart r route → shrinks (doomed route) (children e) (children e') →
  provisioned e r canary → provisioned e' r canary.
Proof.
  intros Hap Hsh [Hdes Hret]. split.
  2:{ intros key Hkey. destruct (Hsh key) as [->|[Hn _]]; [by apply Hret|done]. }
  intros o Ho. destruct (Hdes o Ho) as (d & c & c' & -> & Hs & Hst & Hlk).
  exists d, c, c'. split_and!; [done..|]. destruct (Hsh (c_Key d)) as [->|(_ & x & Hx & _ & Hdoom)];
    [done|exfalso]. rewrite Hlk in Hx. injection Hx as <-. destruct Hdoom as (Hk & Hns & Hl).
  rewrite (stored_as_labels _ _ Hst), (same_object_labels _ _ Hs), (desired_labelled _ _ _ Ho) in Hl.
  apply managedLabels_name in Hl. destruct Hap as [Hname _].
  destruct Hname as [_ Hgw]; [done|]. apply Hgw. rewrite <-Hns.
  assert (c_Key c' = c_Key d) as Hkey.
  { rewrite (stored_as_key _ _ Hst). by apply same_object_key. }
  apply list_elem_of_lookup in Ho as [i Hi]. destruct (desired_role _ _ _ _ Hi) as (y & _ & Hy).
  rewrite Hy in Hkey. pose proof (f_equal fst Hkey) as Hkd. simpl in Hkd. rewrite Hkd in Hk.
  rewrite (f_equal (nn_Namespace ∘ snd) Hkey : nn_Namespace (c_NN c') = _). simpl.
  destruct (role_kind y); simpl; set_solver.
Qed.

Lemma Reconcile_equipped P req s :
  free (s_rec s) → all_apart (s_env s) → equipped P (s_env s) →
  equipped (after_one (req, returned_nil (Reconcile req s).1) P) (s_env (Reconcile req s).2).
Proof.
  intros Hf Hap Heq. pose proof (Reconcile_cases req s Hf) as Hc.
  pose proof (λ route, Reconcile_dying req s route) as Hdying.
  pose proof (Reconcile_cluster req s Hf) as Hcl. destruct (Reconcile req s) as [out s'].
  destruct Hcl as [[Hsim Hother] _]. simpl in *.
  intros n r Hn Hr Hact. unfold after_one in Hn. simpl in Hn. case_decide as Hnr.
  - subst n. destruct Hc as [(Hv & _ & Hnone)|[(route & k & a & e1 & Hl & Hz & _)
      |(route & k & e1 & Hl & Hv & _ & Ht & Hout)]].
    + specialize (Hnone Hn). destruct Hr as [Hr _]. unfold routes in *. by rewrite Hv, Hnone in Hr.
    + exfalso. destruct Hsim as (_ & _ & _ & Hback). destruct (Hback req r Hr) as (r0 & [Hr0 Hz0] & _).
      congruence.
    + destruct Hout as [(outcome & res & err & -> & Hrun)|(msg & _ & _ & _ & _ & _ & -> & _)]; [|done].
      destruct err as [err|]; [done|].
      eapply (live_run_provisions req route); [exact Hrun|exact Ht| |done..].
      unfold live, routes. by rewrite Hv.
  - assert (live (s_env s) n r) as Hr0 by (unfold live in *; by rewrite Hother in Hr).
    destruct (Heq n r Hn Hr0 Hact) as (canary & Hpos & Hprov). exists canary. split; [done|].
    destruct Hc as [(_ & Hch & _)|[(route & k & a & e1 & Hl & Hz & _)
      |(route & k & e1 & Hl & Hv & Hch & Ht & Hout)]].
    + unfold provisioned in *. by rewrite Hch.
    + eapply provisioned_spared; [|exact (Hdying route Hl Hz)|exact Hprov].
      by eapply (Hap n req); [apply Hr0|..].
    + apply (provisioned_kept e1 _ r route);
        [by eapply (Hap n req); [apply Hr0|apply Hl|]| |by unfold provisioned in *; rewrite Hch].
      assert (live e1 req route) as Hl1 by (unfold live, routes; by rewrite Hv).
      destruct Hout as [(outcome & res & err & _ & Hrun)
        |(msg & k0 & rt & canary' & k1 & k2 & _ & -> & Hcl & Hq & Hw)].
      * by eapply live_run_keeps.
      * pose proof Ht as (e2 & Ht1 & _)%trace_split.
        eapply (trace_keeps route rt canary' (k0 ++ k1) k2 []);
          [by rewrite app_nil_r, <-app_assoc|by eapply cleared_same|harmless|done|harmless].
Qed.

Lemma reconcile_all_equipped reqs s h s' :
  free (s_rec s) → reconcile_all reqs s = (h, s') → all_apart (s_env s) →
  equipped (served h) (s_env s').
Proof.
  intros Hf Hrun Hap.
  destruct (reconcile_all_ind (λ P s1, free (s_rec s1) ∧ all_apart (s_env s1) ∧ equipped P (s_env s1)))
    with (3 := Hrun) (P := λ _ : NamespacedName, False) as (_ & _ & Heq).
  - intros P req s1 (Hf1 & Hap1 & Heq). split_and!.
    + by apply Reconcile_free.
    + by eapply all_apart_descends, Hap1; apply Reconcile_descends.
    + by apply Reconcile_equipped.
  - split_and!; [done|done|by intros ? ? []].
  - intros n r Hn. by apply Heq, served_after.
Qed.

(** C3: in a cluster where names keep the stored Routes apart, after any
    sequence of reconciles (failures, panics and deletions included) in which
    the last one of every live Route returned nil, every live Route that shows
    Active has all the objects its spec calls for, with the spec's canary or,
    if it has a rollback policy, perhaps without, and none of those it retires:
    neither the reconciles nor the deletions of other Routes have undone it. *)
Theorem fleet_provisions reqs s h s' :
  reachable s → reconcile_all reqs s = (h, s') → all_apart (s_env s) →
  (∀ n r, live (s_env s) n r → served h n) →
  ∀ n r, live (s_env s') n r → st_Phase (r_Status r) = RoutePhaseActive →
  ∃ canary, possible r canary ∧ provisioned (s_env s') r canary.
Proof.
  intros Hf%reachable_free Hrun Hap Hall n r Hr.
  apply (reconcile_all_equipped reqs s h s' Hf Hrun Hap n r); [|done].
  destruct (reconcile_all_settled reqs s h s' Hf Hrun) as [(_ & _ & _ & Hback) _].
  destruct (Hback n r Hr) as (r0 & Hr0 & _). by eapply Hall.
Qed.
End runs.

(** ** A witness in the in-memory cluster *)

(** Two live Routes, and one under deletion that is reconciled in between. *)
Definition ex_app : Route := ex_route "app" "a.example".
Definition ex_web : Route := ex_route "web" "b.example".
Definition ex_old : Route :=
  set_DeletionTimestamp (Some 5%Z) (AddFinalizer (ex_route "old" "c.example") routeFinalizer).
Definition ex_fleet : St Mem :=
  mkSt (ex_mem [ex_app; ex_web; ex_old] ["10.0.0.1"]) Main.Main.newRouteReconciler [].
Definition ex_reqs : list NamespacedName := [mkNN "demo" "app"; mkNN "demo" "old"; mkNN "demo" "web"].
Definition ex_history : list (NamespacedName * bool) := (reconcile_all ex_reqs ex_fleet).1.
Definition ex_end : St Mem := (reconcile_all ex_reqs ex_fleet).2.

(** Two times seven objects. *)
Example ex_provisioned :
  (st_Phase ∘ r_Status <$> (map_to_list (routes (s_env ex_end))).*2) = ["Active"; "Active"] ∧
  size (mem_children (s_env ex_end)) = 14%nat.
Proof. by vm_compute. Qed.

Lemma ex_routes n r :
  routes (s_env ex_fleet) !! n = Some r →
  (n = mkNN "demo" "app" ∧ r = ex_app) ∨ (n = mkNN "demo" "web" ∧ r = ex_web) ∨
  (n = mkNN "demo" "old" ∧ r = ex_old).
Proof.
  intros [Hr _]%map_lookup_filter_Some. simpl in Hr.
  rewrite !lookup_insert_Some, lookup_empty in Hr. naive_solver.
Qed.
Lemma ex_all_apart : all_apart (s_env ex_fleet).
Proof.
  intros n m a b [[-> ->]|[[-> ->]|[-> ->]]]%ex_routes [[-> ->]|[[-> ->]|[-> ->]]]%ex_routes Hne;
    try done.
  all: split; [done|]; intros _; split; by vm_compute.
Qed.
Lemma ex_all_served n r : live (s_env ex_fleet) n r → served ex_history n.
Proof. intros [[[-> _]|[[-> _]|[-> ->]]]%ex_routes Hz]; [by vm_compute..|done]. Qed.

Lemma fleet_provisions_witness :
  reconcile_all ex_reqs ex_fleet = (ex_history, ex_end) ∧
  ∀ n r, live (s_env ex_end) n r → st_Phase (r_Status r) = RoutePhaseActive →
  ∃ canary, possible r canary ∧ provisioned (s_env ex_end) r canary.
Proof.
  assert (reconcile_all ex_reqs ex_fleet = (ex_history, ex_end)) as Hrun by apply surjective_pairing.
  split; [exact Hrun|].
  exact (fleet_provisions ex_reqs ex_fleet ex_history ex_end (reach_start (s_env ex_fleet)) Hrun
    ex_all_apart ex_all_served).
Defined.
End Provision.
