(* ===== verification/Quiesce.v ===== *)
(** * The operator does not wake itself for ever

    The controller watches the Routes whose status it writes, so every status
    that differs from the stored one makes it reconcile again.  [setCondition]
    keeps a condition whose status and reason are unchanged, transition time
    included; this file proves what that is for: a reconcile that comes to the
    verdict the Route already shows sends back the very Route it read. *)
From S2P Require Import Prelude GoStd GoTime RouteTypes Objects Env Trace Mem Store Common.
From S2P Require Import Conflicts Conditions Metrics Health Certs Canary Children.
From S2P Require Import Reconcile Stages Runs ReconcileProps Fleet.

Local Open Scope Z_scope.

Module Quiesce.
Import Conflicts.Conflicts Conditions.Conditions Metrics.Metrics Health.Health Certs.Certs.
Import Canary.Canary Children.Children Reconcile.Reconcile Stages.Stages Runs.Runs.
Import ReconcileProps.ReconcileProps Fleet.Fleet.

(** ** The verdict a status shows *)

(** Status and reason of a condition. *)
Definition report (cs : list Condition) (ty : string) : option (string * string) :=
  (λ c, (cond_Status c, cond_Reason c)) <$> find_condition cs ty.

Lemma report_set_same now gen ty status reason msg cs :
  report (set_condition now gen ty status reason msg cs) ty = Some (status, reason).
Proof.
  unfold report. destruct (find_set_same now gen ty status reason msg cs)
    as (c & Hc & _ & Hs & Hr). by rewrite Hc, <-Hs, <-Hr.
Qed.
Lemma report_set_other now gen ty ty' status reason msg cs :
  ty' ≠ ty → report (set_condition now gen ty status reason msg cs) ty' = report cs ty'.
Proof. intros Hne. unfold report. by rewrite find_set_other. Qed.

Lemma set_condition_reported now gen ty status reason msg cs :
  report cs ty = Some (status, reason) → set_condition now gen ty status reason msg cs = cs.
Proof.
  intros (c & Hc & [= -> ->])%fmap_Some. by apply (set_condition_stable _ _ _ _ _ _ _ c).
Qed.

(** All that a status says, but for messages, times and generations. *)
Definition same_report (r r' : Route) : Prop :=
  st_Phase (r_Status r') = st_Phase (r_Status r) ∧
  st_ManagedResources (r_Status r') = st_ManagedResources (r_Status r) ∧
  Forall (λ ty, report (st_Conditions (r_Status r')) ty = report (st_Conditions (r_Status r)) ty)
    [RouteConditionCertificateHealthy; RouteConditionSynced; RouteConditionReady].
#[export] Instance same_report_dec r r' : Decision (same_report r r').
Proof. apply _. Defined.
#[export] Instance same_report_equiv : Equivalence same_report.
Proof.
  split.
  - intros r. by repeat constructor.
  - intros r r' (? & ? & Hc). split_and!; [done|done|]. by eapply Forall_impl.
  - intros r1 r2 r3 (? & ? & H12) (? & ? & H23). split_and!; [congruence..|].
    rewrite Forall_forall in *. intros ty Hty. rewrite H23, H12; done.
Qed.

(** What [setCondition] makes of a Route. *)
Definition conditioned (ty : string) (r r' : Route) : Prop := ∃ now status reason msg,
  r' = set_Conditions (set_condition now (m_Generation (r_Meta r)) ty status reason msg
    (st_Conditions (r_Status r))) r.

(** A Route with its certificate condition set. *)
Definition certified : Route → Route → Prop := conditioned RouteConditionCertificateHealthy.

(** Then with a phase and a count, and the two others. *)
Definition concluded (r r' : Route) : Prop :=
  ∃ phase managed now1 gen1 st1 re1 msg1 now2 gen2 st2 re2 msg2,
    r' = mkRoute (r_Meta r) (r_Spec r) (mkStatus phase
      (set_condition now2 gen2 RouteConditionReady st2 re2 msg2
        (set_condition now1 gen1 RouteConditionSynced st1 re1 msg1 (st_Conditions (r_Status r))))
      managed).

(** What any stage may publish for [r]. *)
Definition steady (r sent : Route) : Prop := ∃ r1, certified r r1 ∧ concluded r1 sent.

Lemma steady_meta r sent : steady r sent → r_Meta sent = r_Meta r.
Proof.
  by intros (r1 & (n & s & re & m & ->) & ph & mg & ? & ? & ? & ? & ? & ? & ? & ? & ? & ? & ->).
Qed.

(** The three conditions are set in turn; if none shows a new verdict, none
    was rewritten. *)
Lemma steady_same r sent : steady r sent → same_report r sent → sent = r.
Proof.
  intros (r1 & (n0 & s0 & re0 & m0 & ->) & ph & mg & n1 & g1 & s1 & re1 & m1 & n2 & g2 & s2 &
    re2 & m2 & ->) (Hph & Hmg & Hall). simpl in *. subst ph mg.
  apply Forall_cons in Hall as [Hc Hall]. apply Forall_cons in Hall as [Hs Hall].
  apply Forall_cons in Hall as [Hr _].
  rewrite !report_set_other, report_set_same in Hc by done. symmetry in Hc.
  rewrite (set_condition_reported _ _ _ _ _ _ _ Hc) in Hs, Hr |- *.
  rewrite report_set_other, report_set_same in Hs by done. symmetry in Hs.
  rewrite (set_condition_reported _ _ _ _ _ _ _ Hs) in Hr |- *.
  rewrite report_set_same in Hr. symmetry in Hr.
  rewrite (set_condition_reported _ _ _ _ _ _ _ Hr). by destruct r as [? ? []].
Qed.

(** ** What a run publishes *)

(** A call that writes no other status of [r] than its stages make of it. *)
Definition tame (r : Route) (c : Call) : Prop :=
  match c with
  | CUpdateRouteStatus sent _ => steady r sent
  | CUpdateRoute _ _ => False
  | _ => True
  end.

Section stages.
Context {E : Type} `{KubeEnv E} `{GoLibs} `{!OwnerLaws}.
Implicit Types (s : St E).
Context (base : Route).

Lemma quietly_tame {A} (m : M (St E) A) : respects quietly m → respects (logs (tame base)) m.
Proof.
  intros Hm s. destruct (Hm s) as [_ Hl]. revert Hl. apply logs_mono. by intros [].
Qed.
Lemma canary_tame r : respects (logs (tame base)) (decideCanary (E:=E) r).
Proof.
  assert (respects (logs (tame base)) (evaluateCanaryRollback (E:=E) r)) as Hc.
  { intros s. generalize (quiet_canary r s). apply logs_mono. by intros []. }
  unfold decideCanary. follow ltac:(exact Hc) fail.
Qed.
Lemma children_tame r canary : respects (logs (tame base)) (reconcileChildren (E:=E) r canary).
Proof.
  intros s. generalize (reconcileChildren_progresses r canary s). unfold wp.
  assert (∀ s', (∃ k, s_log s' = s_log s ++ k ∧
    Forall (allowed (desired r canary) (retired r)) k) → logs (tame base) s s') as Hal.
  { intros s' (k & Hk & Ha). exists k. split; [done|]. eapply Forall_impl; [exact Ha|by intros []]. }
  destruct (reconcileChildren r canary s) as [[acc|msg] s'].
  - intros (_ & k & Hk & Ha & _). apply Hal. eauto.
  - intros (_ & Hk & _). by apply Hal.
Qed.

(** Publishing a Route that the stages made. *)
Lemma publish_tame r state : steady base r → respects (logs (tame base)) (publishStatus r state).
Proof.
  intros Hr. unfold publishStatus.
  follow ltac:(eauto using quietly_tame with quiet nocore)
    ltac:(apply respects_kcall; intros ?; exact Hr).
Qed.

Lemma setCondition_conditioned r ty st re msg s :
  wp (setCondition (E:=E) r ty st re msg) (λ r' _, conditioned ty r r') (λ _, True) s.
Proof. unfold wp. rewrite setCondition_run. by do 4 eexists. Qed.
Lemma setCondition_tame r ty st re msg :
  respects (logs (tame base)) (setCondition (E:=E) r ty st re msg).
Proof. apply quietly_tame. auto with quiet. Qed.

(** [r] is [r1] with perhaps another phase and count. *)
Definition rephased (r1 r : Route) : Prop :=
  ∃ phase managed, r = mkRoute (r_Meta r1) (r_Spec r1)
    (mkStatus phase (st_Conditions (r_Status r1)) managed).

Lemma two_conditions_steady r1 r r' r'' :
  certified base r1 → rephased r1 r → conditioned RouteConditionSynced r r' →
  conditioned RouteConditionReady r' r'' → steady base r''.
Proof.
  intros Hc (ph & mg & ->) (n1 & s1 & re1 & m1 & ->) (n2 & s2 & re2 & m2 & ->).
  exists r1. split; [done|]. by do 12 eexists.
Qed.

Lemma conditions_tame {A} r1 r st1 re1 msg1 st2 re2 msg2 (f : Route → M (St E) A) :
  certified base r1 → rephased r1 r →
  (∀ r', steady base r' → respects (logs (tame base)) (f r')) →
  respects (logs (tame base))
    (r ← setCondition r RouteConditionSynced st1 re1 msg1;
     r ← setCondition r RouteConditionReady st2 re2 msg2; f r).
Proof.
  intros Hc Hr Hf.
  apply (respects_bind_wp _ (conditioned RouteConditionSynced r));
    [apply setCondition_tame|intros s; apply setCondition_conditioned|intros r' Hr'].
  apply (respects_bind_wp _ (conditioned RouteConditionReady r'));
    [apply setCondition_tame|intros s; apply setCondition_conditioned|intros r'' Hr''].
  by eapply Hf, two_conditions_steady.
Qed.

Lemma rephased_set r1 ph mg : rephased r1 (set_ManagedResources mg (set_Phase ph r1)).
Proof. by exists ph, mg. Qed.

Lemma blockOnConflicts_tame r1 conflicts :
  certified base r1 → respects (logs (tame base)) (blockOnConflicts r1 conflicts).
Proof.
  intros Hc. unfold blockOnConflicts. apply (conditions_tame r1); [done|apply rephased_set|].
  intros r Hr. follow ltac:(eauto using publish_tame, quietly_tame with quiet nocore) fail.
Qed.
Lemma blockOnBackends_tame r1 health :
  certified base r1 → respects (logs (tame base)) (blockOnBackends r1 health).
Proof.
  intros Hc. unfold blockOnBackends. destruct (phaseReasonAndMessage health) as [[ph re] msg].
  apply (conditions_tame r1); [done|apply rephased_set|].
  intros r Hr. follow ltac:(eauto using publish_tame, quietly_tame with quiet nocore) fail.
Qed.

Lemma concludeStatus_steady r1 r acc s :
  certified base r1 → rephased r1 r →
  wp (concludeStatus (E:=E) r acc) (λ r' _, steady base r') (λ _, True) s.
Proof.
  intros Hc (ph & mg & ->). unfold concludeStatus. destruct acc as [n [err|]].
  all: apply wp_bind; eapply wp_mono; [apply setCondition_conditioned|intros r' s1 Hr'|done].
  all: apply wp_bind; eapply wp_mono; [apply setCondition_conditioned|intros r'' s2 Hr''|done].
  all: apply wp_bind, wp_recordEvent, wp_ret; eapply (two_conditions_steady r1);
    [done| |exact Hr'|exact Hr'']; by do 2 eexists.
Qed.
Lemma finish_tame r1 r acc requeue :
  certified base r1 → rephased r1 r → respects (logs (tame base)) (finish (E:=E) r acc requeue).
Proof.
  intros Hc Hr. unfold finish. apply (respects_bind_wp _ (steady base)).
  - unfold concludeStatus. follow ltac:(eauto using quietly_tame with quiet nocore) fail.
  - intros s. by apply (concludeStatus_steady r1).
  - intros r' Hr'. follow ltac:(eauto using publish_tame with nocore) fail.
Qed.
Lemma provision_tame r1 : certified base r1 → respects (logs (tame base)) (provision (E:=E) r1).
Proof.
  intros Hc. unfold provision.
  follow ltac:(first [apply canary_tame|apply children_tame
    |eapply finish_tame; [exact Hc|by do 2 eexists]]) fail.
Qed.

(** The certificate stage never touches another condition. *)
Lemma checkCertificate_certified r s :
  wp (checkCertificate (E:=E) r)
    (λ x _, match x with Next r' => certified r r' | Done _ => True end) (λ _, True) s.
Proof.
  unfold checkCertificate. apply wp_bind. eapply wp_mono; [apply evaluateGatewayCertificate_wp| |done].
  intros [[[status reason] msg] err] s1 _. destruct err as [err|]; [by apply wp_ret|].
  apply wp_bind. eapply wp_mono; [apply setCondition_conditioned| |done]. intros r' s2 Hr'.
  apply wp_bind. destruct (conditionTransitioned _ _ _); [apply wp_recordEvent|apply wp_ret];
    by apply wp_ret.
Qed.
End stages.

Section reconcile.
Context {E : Type} `{KubeEnv E} `{GoLibs} `{!OwnerLaws}.
Implicit Types (s : St E).

Lemma reconcileLive_tame route :
  ContainsFinalizer route routeFinalizer = true →
  respects (logs (tame route)) (reconcileLive (E:=E) route).
Proof.
  intros Hfin. unfold reconcileLive, ensureFinalizer. rewrite Hfin.
  change (respects (logs (tame route)) (route' ← checkCertificate route;
    match route' with Done a => mret a | Next r1 =>
    conflicts ← evaluateRouteConflicts r1;
    match conflicts with
    | Err err => mret (fails "error" err)
    | Ok conflicts =>
        if nonempty conflicts then blockOnConflicts r1 conflicts
        else
          health ← evaluateBackendHealth r1;
          match health with
          | Err err => mret (fails "error" err)
          | Ok health =>
              if negb (allReady health) then blockOnBackends r1 health else provision r1
          end
    end end)).
  eapply respects_bind_wp; [apply _| |intros s; apply checkCertificate_certified|].
  { apply quietly_tame. pose proof (quietly_evaluateGatewayCertificate (E:=E) route).
    unfold checkCertificate. quiet_steps. }
  intros [a|r1] Hc; [apply respects_ret; apply _|].
  follow ltac:(first [by apply blockOnConflicts_tame|by apply blockOnBackends_tame
    |by apply provision_tame|apply quietly_tame, quietly_evaluateRouteConflicts
    |apply quietly_tame, quietly_evaluateBackendHealth]) fail.
Qed.

Lemma Reconcile_tame req s r :
  match (env_getRoute req (s_env s)).1 with Ok r0 => r0 = r | Err _ => True end →
  deletionIsZero r = true →
  ContainsFinalizer r routeFinalizer = true → logs (tame r) s (Reconcile req s).2.
Proof.
  intros Hget Hz Hfin. unfold Reconcile, reconcileBody, getRoute, kcall, mbind, M_bind.
  destruct (env_getRoute req (s_env s)) as [[r0|err] e]; simpl in Hget.
  2:{ destruct (IsNotFound err); eexists; split;
      [simpl; rewrite <-app_assoc; reflexivity|by repeat constructor
      |simpl; rewrite <-app_assoc; reflexivity|by repeat constructor]. }
  subst r0. rewrite Hz. simpl.
  set (s1 := mkSt e _ _). assert (logs (tame r) s s1) as Hs1.
  { exists [CGetRoute req (Ok r)]. split; [done|]. by repeat constructor. }
  pose proof (reconcileLive_tame r Hfin s1) as Hl.
  destruct (reconcileLive r s1) as [[[[outcome res] err]|msg] s2]; simpl in *;
    (etransitivity; [exact Hs1|]; etransitivity; [exact Hl|]);
    eexists; (split; [reflexivity|by repeat constructor]).
Qed.
End reconcile.

(** ** The stored Routes *)

(** A status update that changes nothing leaves the object as it is, its
    resource version included, and no watch reports it; and none changes the
    finalizers. *)
Class StatusUpdates (E : Type) `{Cluster E} `{GoLibs} : Prop := {
  updateRouteStatus_noop r e r' e' :
    env_updateRouteStatus r e = (Ok r', e') → routes e !! r_NN r = Some r → view e' = view e;
  updateRouteStatus_finalizer r e r' e' old f :
    env_updateRouteStatus r e = (Ok r', e') → routes e !! r_NN r = Some old →
    ContainsFinalizer r' f = ContainsFinalizer old f
}.

(** The status updates of a run. *)
Definition status_sent (k : list Call) (sent : Route) : Prop :=
  ∃ res, CUpdateRouteStatus sent res ∈ k.

Lemma status_sent_cons c k sent : status_sent k sent → status_sent (c :: k) sent.
Proof. intros [res Hin]. exists res. by right. Qed.

Section feedback.
Context {E : Type} `{StatusUpdates E} `{!OwnerLaws}.
Implicit Types (s : St E).

(** Every status that the reconcile of [req] from [s] sends says what [v] does. *)
Definition comes_to (v : Route) (req : NamespacedName) s : Prop :=
  ∀ k, s_log (Reconcile req s).2 = s_log s ++ k →
  ∀ sent, status_sent k sent → same_report v sent.

(** A reconcile that changes the Route it is for, which brings the next one. *)
Definition wakes (req : NamespacedName) s s' : Prop :=
  s' = (Reconcile req s).2 ∧ routes (s_env s') !! req ≠ routes (s_env s) !! req.

(** A live Route that carries the finalizer. *)
Definition held (e : E) (n : NamespacedName) (r : Route) : Prop :=
  live e n r ∧ ContainsFinalizer r routeFinalizer = true.

Lemma run_tame req s r :
  held (s_env s) req r →
  ∃ k, s_log (Reconcile req s).2 = s_log s ++ k ∧
    trace k (s_env s) (s_env (Reconcile req s).2) ∧ Forall (tame r) k.
Proof.
  intros [[Hr Hz] Hfin]. destruct (traces_Reconcile req s) as (k & Hk & Ht).
  assert (logs (tame r) s (Reconcile req s).2) as (k' & Hk' & Htame).
  { apply Reconcile_tame; [|done..]. destruct (env_getRoute req (s_env s)) as [x e1] eqn:Hget.
    apply getRoute_law in Hget as [_ Hlaw]. unfold routes in Hr. simpl.
    destruct x; [|done]. rewrite Hr in Hlaw. by injection Hlaw. }
  exists k. split_and!; [done|done|]. rewrite Hk in Hk'. by apply app_inv_head in Hk' as ->.
Qed.

Lemma tame_unchanged r k (e e' : E) :
  trace k e e' → routes e !! r_NN r = Some r → Forall (tame r) k →
  (∀ sent, status_sent k sent → sent = r) → view e' = view e.
Proof.
  induction 1 as [|c k e e1 e' Hc _ IH]; intros Hr Ht Hsent; [done|].
  apply Forall_cons in Ht as [Ht Hts].
  assert (view e1 = view e) as Hv.
  { destruct c; try (eapply neutral_view; [exact Hc|exact I]); [done|].
    match type of Hc with call_step (CUpdateRouteStatus ?sent ?res) _ _ =>
      assert (sent = r) as -> by (apply Hsent; exists res; by left);
      simpl in Hc; destruct res as [r'|err] end.
    - by eapply updateRouteStatus_noop.
    - by apply updateRouteStatus_law in Hc. }
  rewrite <-Hv. apply IH; [|done|].
  - unfold routes in *. by rewrite Hv.
  - intros sent Hs. by apply Hsent, status_sent_cons.
Qed.

(** What a run leaves stored: the same, or a Route with a status it sent. *)
Lemma tame_stored r k (e e' : E) :
  trace k e e' → Forall (tame r) k → ∀ x, held e (r_NN r) x →
  ∃ x', held e' (r_NN r) x' ∧
    (x' = x ∨ ∃ sent, status_sent k sent ∧ r_Status x' = r_Status sent).
Proof.
  induction 1 as [|c k e e1 e' Hc _ IH]; intros Ht x Hx; [eauto|].
  apply Forall_cons in Ht as [Ht Hts].
  assert (∃ x1, held e1 (r_NN r) x1 ∧
    (x1 = x ∨ ∃ sent, status_sent (c :: k) sent ∧ r_Status x1 = r_Status sent))
    as (x1 & Hx1 & Hor1).
  { assert (view e1 = view e → held e1 (r_NN r) x) as Hsame
      by (intros Hv; unfold held, live, routes; by rewrite Hv).
    destruct c as [| | | |st res| | | | | | | | | | | | | |];
      try (exists x; split; [apply Hsame; by eapply neutral_view|by left]).
    simpl in Hc, Ht. destruct res as [r'|err].
    2:{ exists x. split; [|by left]. apply Hsame. by apply updateRouteStatus_law in Hc. }
    assert (r_NN st = r_NN r) as Hnn by (unfold r_NN, r_Namespace, r_Name; by rewrite (steady_meta r st)).
    pose proof Hc as ((old & Hold & Hs) & Hst & Hv)%updateRouteStatus_law.
    destruct Hx as [[Hx Hz] Hfin]. rewrite Hnn in Hold, Hv. unfold routes in Hx.
    rewrite Hx in Hold. injection Hold as <-.
    exists r'. split; [split; [split|]|].
    - unfold routes. rewrite Hv. apply lookup_insert_eq.
    - by rewrite <-Hs.
    - erewrite updateRouteStatus_finalizer; [exact Hfin|exact Hc|]. unfold routes. by rewrite Hnn.
    - right. exists st. split; [|done]. by exists (Ok r'); left. }
  destruct (IH Hts x1 Hx1) as (x' & Hx' & Hor). exists x'. split; [done|].
  destruct Hor as [->|(sent & Hs & Heq)]; [done|right]. exists sent.
  split; [by apply status_sent_cons|done].
Qed.

(** A run that comes to the verdict the Route shows sends the Route it read. *)
Lemma verdict_shown v req s r :
  held (s_env s) req r → comes_to v req s → same_report v r →
  (∀ k, s_log (Reconcile req s).2 = s_log s ++ k → ∀ sent, status_sent k sent → sent = r) ∧
  routes (s_env (Reconcile req s).2) = routes (s_env s).
Proof.
  intros Hr Hv Hshow. pose proof (view_keyed _ _ _ (proj1 (proj1 Hr))) as Hnn.
  destruct (run_tame req s r Hr) as (k & Hk & Ht & Htame).
  assert (∀ sent, status_sent k sent → sent = r) as Hsent.
  { intros sent Hs. apply steady_same.
    - destruct Hs as [res Hin]. rewrite Forall_forall in Htame. apply (Htame _ Hin).
    - rewrite <-Hshow. by apply (Hv k). }
  split; [intros k' Hk'; rewrite Hk in Hk'; by apply app_inv_head in Hk' as <-|].
  unfold routes. rewrite (tame_unchanged r k (s_env s) _ Ht); [done| |done|done].
  rewrite Hnn. apply Hr.
Qed.

(** C8: the operator's own status writes do not keep it awake.  Let two
    reconciles of a live Route that carries the finalizer come to one verdict
    [v] (phase, count, and status and reason of the three conditions).  Then
    the chain of reconciles, each brought about by the Route that the previous
    one changed, is finite.  And one that comes to the verdict the Route
    already shows ends it at once: it sends back exactly the Route it read,
    transition times and messages included, and changes no stored Route. *)
Theorem status_feedback_ends v req s r :
  live (s_env s) req r → ContainsFinalizer r routeFinalizer = true →
  comes_to v req s → comes_to v req (Reconcile req s).2 →
  Acc (λ s2 s1, wakes req s1 s2) s ∧
  (same_report v r →
    (∀ k, s_log (Reconcile req s).2 = s_log s ++ k → ∀ sent, status_sent k sent → sent = r) ∧
    routes (s_env (Reconcile req s).2) = routes (s_env s)).
Proof.
  intros Hl Hfin Hv1 Hv2. assert (held (s_env s) req r) as Hr by done.
  split; [|by apply verdict_shown].
  pose proof (view_keyed _ _ _ (proj1 Hl)) as Hnn.
  destruct (run_tame req s r Hr) as (k & Hk & Ht & Htame).
  rewrite <-Hnn in Hr. destruct (tame_stored r k _ _ Ht Htame r Hr) as (x & Hx & Hor).
  rewrite Hnn in Hx. constructor. intros s1 [-> Hch]. constructor. intros s2 [-> Hch2].
  destruct Hor as [->|(sent & Hs & Hst)].
  - exfalso. apply Hch. destruct Hx as [[-> _] _], Hl as [-> _]. done.
  - exfalso. apply Hch2. assert (same_report v x) as Hshow.
    { pose proof (Hv1 k Hk sent Hs) as Hrep. unfold same_report in *. by rewrite Hst. }
    destruct (verdict_shown v req _ x Hx Hv2 Hshow) as [_ ->]. done.
Qed.
End feedback.

(** ** The in-memory cluster *)

#[export] Instance memStatusUpdates : StatusUpdates Mem.
Proof.
  constructor; intros r e r' e'.
  - intros Hc Hr. simpl in *. unfold mem_updateRouteStatus in Hc.
    unfold routes in Hr. simpl in Hr. rewrite Hr in Hc. simplify_eq. unfold mem_known. simpl.
    rewrite known_insert by done. fold (mem_known e). rewrite insert_id; [done|].
    by destruct r as [? ? ?].
  - intros old f Hc Hr. simpl in *. unfold mem_updateRouteStatus in Hc.
    unfold routes in Hr. simpl in Hr. rewrite Hr in Hc. by simplify_eq.
Qed.

(** A Route before and after its first reconcile, and what the second sends:
    the clock has moved on, but the Route is the same. *)
Definition ex_fresh : Route := AddFinalizer (ex_route "app" "app.example.com") routeFinalizer.
Definition ex_first : St Mem := ex_state (ex_mem [ex_fresh] ["10.0.0.1"]).
Definition ex_second : St Mem := (Reconcile ex_req ex_first).2.
Definition ex_stored : Route :=
  default (ex_route "" "") (routes (s_env ex_second) !! ex_req).
Example ex_sent :
  published_phase ex_first = [("Active", 7)] ∧
  mem_clock (s_env (Reconcile ex_req ex_second).2) ≠ mem_clock (s_env ex_second) ∧
  r_Status ex_stored ≠ r_Status ex_fresh.
Proof. by vm_compute. Qed.

(** The Routes a log sends. *)
Definition sent_routes (k : list Call) : list Route :=
  omap (λ c, match c with CUpdateRouteStatus r _ => Some r | _ => None end) k.
Lemma status_sent_routes k sent : status_sent k sent → sent ∈ sent_routes k.
Proof.
  intros [res Hin]. apply list_elem_of_omap. by exists (CUpdateRouteStatus sent res).
Qed.

Lemma comes_to_sent v s :
  Forall (same_report v) (sent_routes (drop (length (s_log s)) (s_log (Reconcile ex_req s).2))) →
  comes_to (E:=Mem) v ex_req s.
Proof.
  intros Hall k Hk sent Hs%status_sent_routes. rewrite Hk, drop_app_length in Hall.
  rewrite Forall_forall in Hall. by apply Hall.
Qed.

(** The first reconcile wakes the second, which is the last. *)
Lemma status_feedback_ends_witness :
  wakes ex_req ex_first ex_second ∧ Acc (λ s2 s1, wakes ex_req s1 s2) ex_first.
Proof.
  split; [split; [done|by vm_compute]|].
  apply (status_feedback_ends ex_stored ex_req ex_first ex_fresh).
  - split; by vm_compute.
  - by vm_compute.
  - apply comes_to_sent, (bool_decide_unpack _). by vm_compute.
  - apply comes_to_sent, (bool_decide_unpack _). by vm_compute.
Defined.
End Quiesce.
