(* ===== verification/System.v ===== *)
(** * The whole system: admission, controller and cluster

    A step relation for the cluster with the operator in it: users create,
    change and delete Routes past the webhook, Services and all else change
    freely, and the controller reconciles, in any order.  The webhook answers
    for the Routes stored when it is asked; what it admitted is stored in a
    later step, and anything may happen in between, other admissions included.

    In every such state ([operating]) the controller's own guard decides: a
    Route that must give way to an older one ends up Degraded, and every other
    in the phase its backends call for.  Where the cluster starts without
    clashing Routes and admissions do not overlap ([serialized]), no two live
    Routes ever clash, and the guard has nothing to do; [ex_overlapping] shows
    that two admissions that overlap can both be stored and clash. *)
From S2P Require Import Prelude GoStd GoTime RouteTypes Objects Env Trace Mem Store Common.
From S2P Require Import Conflicts Health Canary Children Reconcile Stages Runs ReconcileProps.
From S2P Require Import Fleet Deletions Provision.
From S2P Require Webhook Main.
Local Open Scope Z_scope.

Module System.
Import Conflicts.Conflicts Health.Health Canary.Canary Children.Children Reconcile.Reconcile.
Import Stages.Stages Runs.Runs ReconcileProps.ReconcileProps Fleet.Fleet Deletions.Deletions.
Import Provision.Provision.
Import Webhook.Webhook (Default, ValidateCreate, ValidateUpdate, ValidateDelete).

Section system.
Context {E : Type} `{KubeEnv E} `{!Cluster E} `{!ChildStore E}.
Context `{!LabelsStored E} `{GoLibs} `{!FinalizerLaws} `{!OwnerLaws}.
Implicit Types (e : E) (s : St E).

(** ** Steps *)

(** The cluster becomes [e] between two reconciles. *)
Definition with_env e s : St E := mkSt e (s_rec s) (s_log s).

(** A request the webhook admitted and the API server has yet to store. *)
Inductive Admission : Type :=
| AdmittedCreate (r : Route)
| AdmittedUpdate (r : Route).
Definition admitted_route (p : Admission) : Route :=
  match p with AdmittedCreate r | AdmittedUpdate r => r end.

(** The API server creates what is not there and updates what is; an update
    does not change whether a Route is being deleted. *)
Definition storable (p : Admission) (m : gmap NamespacedName Route) : Prop :=
  match p with
  | AdmittedCreate r => m !! r_NN r = None
  | AdmittedUpdate r => ∃ cur, m !! r_NN r = Some cur ∧ deletionIsZero r = deletionIsZero cur
  end.

(** The controller with its cluster, and the admissions in flight. *)
Record Sys := mkSys { sy_state : St E; sy_inflight : list Admission }.

(** What is not a Route may change in every step that is not a reconcile. *)
Inductive step : Sys → Sys → Prop :=
| step_reconcile req s l : step (mkSys s l) (mkSys (Reconcile req s).2 l)
| step_admit_create haveClient r e1 e' s l :
    ValidateCreate haveClient (Default r) (s_env s) = (Ret None, e1) →
    routes e' = routes (s_env s) →
    step (mkSys s l) (mkSys (with_env e' s) (AdmittedCreate (Default r) :: l))
| step_admit_update haveClient old r e1 e' s l :
    routes (s_env s) !! r_NN r = Some old →
    ValidateUpdate haveClient old (Default r) (s_env s) = (Ret None, e1) →
    routes e' = routes (s_env s) →
    step (mkSys s l) (mkSys (with_env e' s) (AdmittedUpdate (Default r) :: l))
| step_store p e' s l1 l2 :
    storable p (routes (s_env s)) →
    routes e' = <[r_NN (admitted_route p) := admitted_route p]> (routes (s_env s)) →
    step (mkSys s (l1 ++ p :: l2)) (mkSys (with_env e' s) (l1 ++ l2))
| step_abandon p s l1 l2 : step (mkSys s (l1 ++ p :: l2)) (mkSys s (l1 ++ l2))
| step_delete n old t e1 e' s l :
    routes (s_env s) !! n = Some old → t ≠ 0 →
    ValidateDelete old (s_env s) = (Ret None, e1) →
    routes e' = <[n := set_DeletionTimestamp (Some t) old]> (routes (s_env s)) ∨
    routes e' = delete n (routes (s_env s)) →
    step (mkSys s l) (mkSys (with_env e' s) l)
| step_others e' s l :
    routes e' = routes (s_env s) → step (mkSys s l) (mkSys (with_env e' s) l).

(** No two live Routes claim the same gateway, host and path. *)
Definition compatible e : Prop :=
  ∀ n m a b, live e n a → live e m b → n ≠ m → ¬ clash a b.

(** The operator starts on whatever cluster there is. *)
Definition started e : Sys := mkSys (mkSt e Main.Main.newRouteReconciler []) [].

(** The states of the system. *)
Inductive operating : Sys → Prop :=
| op_start e : operating (started e)
| op_step y y' : operating y → step y y' → operating y'.

(** Those of a cluster that starts without clashing Routes and has at most one
    admission in flight at any time. *)
Inductive serialized : Sys → Prop :=
| se_start e : compatible e → serialized (started e)
| se_step y y' : serialized y → step y y' → (length (sy_inflight y') ≤ 1)%nat → serialized y'.

Lemma serialized_operating y : serialized y → operating y.
Proof. induction 1; [constructor|by eapply op_step]. Qed.

Lemma operating_reachable y : operating y → reachable (sy_state y).
Proof.
  induction 1 as [e|y y' _ IH Hst]; [constructor|].
  destruct Hst; simpl in *; first [exact IH|by constructor|by apply (reach_others e')].
Qed.
Lemma operating_free y : operating y → free (s_rec (sy_state y)).
Proof. intros Hop. by apply reachable_free, operating_reachable. Qed.

(** ** Admission *)

(** What the webhook lets pass does not clash with a live Route stored. *)
Lemma admitted_compatible haveClient r e e1 n b :
  Webhook.Webhook.validateRoute haveClient r e = (Ret None, e1) →
  live e n b → n ≠ r_NN r → ¬ clash r b.
Proof.
  unfold Webhook.Webhook.validateRoute. destruct haveClient; [|done]. simpl.
  unfold mbind, M_bind. intros Hv Hb Hne Hc.
  destruct (Webhook.Webhook.validateGatewayHostnames r e) as [[[err|]|msg] e2] eqn:Hg; [done| |done].
  assert (view e2 = view e) as Hview.
  { revert Hg. unfold Webhook.Webhook.validateGatewayHostnames.
    destruct (Webhook.Webhook.gatewayRefFromSpec _) as [name ns].
    unfold mbind, M_bind, Webhook.Webhook.client.
    pose proof (getGateway_view (mkNN ns name) e) as Hgv.
    destruct (env_getGateway (mkNN ns name) e) as [[gw|err] e3]; simpl in Hgv.
    - destruct (bool_decide _); [|destruct (nonempty _)]; by intros [= <-].
    - by destruct (IsNotFound err). }
  revert Hv. unfold Webhook.Webhook.validateRouteConflicts, mbind, M_bind, Webhook.Webhook.client.
  destruct (env_listRoutes e2) as [[items|err] e3] eqn:Hl; [|done].
  apply listRoutes_law in Hl as [_ Hl].
  destruct (nonempty (Webhook.Webhook.conflictErrors r items)) eqn:Hno; [done|]. intros _.
  apply nonempty_false in Hno.
  assert (Webhook.Webhook.conflictErrors r items ≠ []) as Herr; [|done].
  apply Webhook.Webhook.conflictErrors_in. pose proof (view_keyed _ _ _ (proj1 Hb)) as Hnb.
  exists b. split.
  - apply Hl. rewrite Hview, Hnb. apply Hb.
  - split_and!; [congruence|apply Hb|by apply clash_agree].
Qed.

(** ** The invariant *)

Lemma compatible_similar e e' : similar e e' → compatible e → compatible e'.
Proof.
  intros (_ & _ & _ & Hback) Hc n m a b Ha Hb Hne.
  destruct (Hback n a Ha) as (a0 & Ha0 & Hsa). destruct (Hback m b Hb) as (b0 & Hb0 & Hsb).
  rewrite <-Hsa, <-Hsb. by apply (Hc n m).
Qed.

(** Storing a live Route that clashes with no other, or one that is not live. *)
Lemma compatible_insert e e' n r :
  compatible e → routes e' = <[n := r]> (routes e) →
  (deletionIsZero r = true → ∀ m b, live e m b → m ≠ n → ¬ clash r b) → compatible e'.
Proof.
  intros Hc Hr Hnew.
  assert (∀ m b, live e' m b → m = n ∧ b = r ∨ m ≠ n ∧ live e m b) as Hold.
  { intros m b [Hb Hz]. rewrite Hr in Hb. apply lookup_insert_Some in Hb as [[<- <-]|[Hm Hb]].
    - by left.
    - right. split; [by apply not_eq_sym|done]. }
  intros m1 m2 a b Ha Hb Hne.
  destruct (Hold m1 a Ha) as [[-> ->]|[Hm1 Ha0]], (Hold m2 b Hb) as [[-> ->]|[Hm2 Hb0]].
  - done.
  - apply (Hnew (proj2 Ha) m2); done.
  - intros Hcl%clash_sym. by apply (Hnew (proj2 Hb) m1 a Ha0).
  - by apply (Hc m1 m2).
Qed.

(** [r] clashes with no live Route of another name. *)
Definition fits e (r : Route) : Prop := ∀ m b, live e m b → m ≠ r_NN r → ¬ clash r b.

Lemma fits_similar e e' r : similar e e' → fits e r → fits e' r.
Proof.
  intros (_ & _ & _ & Hback) Hfit m b Hb Hne. destruct (Hback m b Hb) as (b0 & Hb0 & Hsb).
  rewrite <-Hsb. by apply (Hfit m).
Qed.
Lemma fits_fewer e e' r :
  (∀ n b, live e' n b → live e n b) → fits e r → fits e' r.
Proof. intros Hsub Hfit m b Hb. by apply Hfit, Hsub. Qed.

Lemma live_same e e' : routes e' = routes e → ∀ n b, live e' n b → live e n b.
Proof. unfold live. by intros ->. Qed.
Lemma live_deleted e e' n old t :
  routes e' = <[n := set_DeletionTimestamp (Some t) old]> (routes e) ∨
  routes e' = delete n (routes e) → t ≠ 0 → ∀ m b, live e' m b → live e m b.
Proof.
  unfold live. intros [->| ->] Ht m b [Hb Hz]; split; try done.
  - apply lookup_insert_Some in Hb as [[_ <-]|[_ Hb]]; [|done].
    apply bool_decide_eq_true in Hz. done.
  - by apply lookup_delete_Some in Hb as [_ Hb].
Qed.

Lemma compatible_live e e' :
  (∀ n b, live e' n b → live e n b) → compatible e → compatible e'.
Proof. intros Hsub Hc n m a b Ha Hb. apply (Hc n m); by apply Hsub. Qed.

(** The live Routes are compatible, with each other and with the admissions. *)
Definition orderly (y : Sys) : Prop :=
  compatible (s_env (sy_state y)) ∧
  Forall (λ p, fits (s_env (sy_state y)) (admitted_route p)) (sy_inflight y).

Lemma orderly_fewer s e' l :
  (∀ n b, live e' n b → live (s_env s) n b) → orderly (mkSys s l) →
  orderly (mkSys (with_env e' s) l).
Proof.
  intros Hsub [Hc Hl]. split; [by eapply compatible_live|].
  eapply Forall_impl; [exact Hl|]. intros p. by apply fits_fewer.
Qed.

Lemma step_orderly y y' :
  free (s_rec (sy_state y)) → (length (sy_inflight y) ≤ 1)%nat →
  step y y' → orderly y → orderly y'.
Proof.
  intros Hf Hone Hst. destruct Hst as [req s l|hc r e1 e' s l Hv Hr|hc old r e1 e' s l Hold Hv Hr
    |p e' s l1 l2 Hp Hr|p s l1 l2|n old t e1 e' s l Hold Ht _ Hr|e' s l Hr]; simpl in *.
  - pose proof (Reconcile_cluster req s Hf) as Hcl. destruct (Reconcile req s) as [out s'].
    destruct Hcl as [[Hsim _] _]. intros [Hc Hl]. simpl in *.
    split; [by eapply compatible_similar|]. eapply Forall_impl; [exact Hl|].
    intros p. by apply fits_similar.
  - intros [Hc Hl]%(orderly_fewer s e'); [|by apply live_same]. split; [done|].
    constructor; [|done]. intros m b Hb%(live_same (s_env s) e' Hr).
    by apply (admitted_compatible hc (Default r) (s_env s) e1 m b).
  - intros [Hc Hl]%(orderly_fewer s e'); [|by apply live_same]. split; [done|].
    constructor; [|done]. intros m b Hb%(live_same (s_env s) e' Hr).
    by apply (admitted_compatible hc (Default r) (s_env s) e1 m b).
  - intros [Hc Hl]. rewrite length_app in Hone. simpl in Hone.
    destruct l1 as [|? l1]; simpl in Hone; [|lia]. destruct l2 as [|? l2]; simpl in Hone; [|lia].
    apply Forall_cons in Hl as [Hl _]. split; [|constructor].
    eapply compatible_insert; [exact Hc|exact Hr|intros _; exact Hl].
  - intros [Hc Hl]. split; [done|]. apply Forall_app in Hl as [? [_ ?]%Forall_cons].
    by apply Forall_app.
  - apply orderly_fewer. by eapply live_deleted.
  - apply orderly_fewer. by apply live_same.
Qed.

Lemma serialized_orderly y : serialized y → (length (sy_inflight y) ≤ 1)%nat ∧ orderly y.
Proof.
  induction 1 as [e Hc|y y' Hy [Hone IH] Hst Hone'].
  - split; [simpl; lia|]. split; [done|constructor].
  - split; [done|]. eapply step_orderly; [|exact Hone|exact Hst|exact IH].
    by apply operating_free, serialized_operating.
Qed.

(** ** The controller in a compatible cluster *)

Lemma compatible_uncontested e n r : compatible e → live e n r → ¬ contested e r.
Proof.
  intros Hc Hr (m & other & Ho & Hne & _ & _ & Hcl). pose proof (view_keyed _ _ _ (proj1 Hr)) as Hnr.
  pose proof (view_keyed _ _ _ (proj1 Ho)) as Hno. apply (Hc n m r other Hr Ho); [congruence|done].
Qed.

(** The phase that a Route's own backends call for. *)
Definition backend_phase e (r : Route) : string :=
  if existsb (service_missing e r) (backends_of r) then RoutePhasePending
  else if forallb (service_ready e r) (backends_of r) then RoutePhaseActive
  else RoutePhaseDegraded.

Lemma held_without_conflict req e e' route kf k kp r1 r phase outcome :
  compatible e → live e req route → finalized route kf r1 → Forall quiet k → revised r1 r →
  trace (kf ++ k ++ kp) e e' → held_back k r phase outcome → outcome = "backend_blocked".
Proof.
  intros Hc Hl Hf Hq Hrev Ht Hheld. destruct Hheld as [items Hi Hconf| |]; [exfalso|done..].
  apply trace_split in Ht as (e1 & Ht1 & Ht). apply trace_split in Ht as (e2 & Ht2 & _).
  destruct (finalized_cluster _ _ _ _ _ _ Hf Ht1 Hl) as ([Hsim _] & Hl1 & _).
  apply Hconf. apply (conflicts_contested e1 items r).
  - eapply listed_routes; [exact Ht2|by apply quiet_neutral|done].
  - intros (m & other & Ho & Hlose). rewrite <-(revised_same_route r1 r) in Hlose by done.
    eapply (compatible_uncontested e1 req r1); [by eapply compatible_similar|done|].
    by exists m, other.
Qed.

Lemma live_run_no_conflict req e e' rc route k outcome res err :
  compatible e → live e req route → trace k e e' →
  live_run rc route k (outcome, res, err) → outcome ≠ "conflict".
Proof.
  intros Hc Hl Ht Hrun. remember (outcome, res, err) as a eqn:Ha.
  destruct Hrun as [err0 _|kf r k outcome0 err0 _ _ Ho|kf r1 k r phase outcome0 kp a Hf Hq Hrev Hheld Hp
    |k0 r canary k1 k2 acc kp a _ _ _ _ _ Hp].
  - by injection Ha as <- _ _.
  - injection Ha as <- _ _. set_solver.
  - rewrite (held_without_conflict req e e' route kf k kp r1 r phase outcome0) in Hp by done.
    apply published_answer in Hp as [->|[err0 ->]]; by injection Ha as <- _ _.
  - apply published_answer in Hp as [->|[err0 ->]]; [|by injection Ha as <- _ _].
    unfold final_answer in Ha. destruct (acc.2); by injection Ha as <- _ _.
Qed.

Lemma Reconcile_no_conflict req s :
  free (s_rec s) → compatible (s_env s) →
  last (s_log (Reconcile req s).2) ≠ Some (CCounterInc "conflict").
Proof.
  intros Hf Hc. pose proof (Reconcile_runs req s Hf) as Hrun.
  pose proof (traces_Reconcile req s) as (kt & Hkt & Ht).
  destruct (Reconcile req s) as [[[res err]|msg] s']; simpl in *.
  2:{ destruct Hrun as (_ & k & -> & _). by rewrite app_assoc, last_snoc. }
  destruct Hrun as (_ & outcome & k & Hk & Hb). rewrite Hk in Hkt. apply app_inv_head in Hkt as <-.
  rewrite Hk, app_assoc, last_snoc. apply trace_split in Ht as (e2 & Ht & _).
  enough (outcome ≠ "conflict") by congruence.
  remember (outcome, res, err) as a eqn:Ha. destruct Hb as [err0|route k a _ Hd|route k a Hz Hl].
  - destruct (IsNotFound err0); by injection Ha as <- _ _.
  - destruct Hd; by injection Ha as <- _ _.
  - subst a. inversion Ht as [|c k0 ? e1 ? Hget Ht']; subst. simpl in Hget.
    apply getRoute_law in Hget as [Hv Hr].
    eapply (live_run_no_conflict req e1); [| |exact Ht'|exact Hl].
    + eapply compatible_similar; [by apply view_similar|done].
    + split; [|done]. unfold routes. by rewrite Hv.
Qed.

Lemma backend_phase_active e r :
  (∀ b, b ∈ backends_of r → service_missing e r b = false ∧ service_ready e r b = true) →
  backend_phase e r = RoutePhaseActive.
Proof.
  intros Hready. unfold backend_phase.
  assert (existsb (service_missing e r) (backends_of r) = false) as ->.
  { apply not_true_is_false. intros (b & Hb & Hm)%existsb_exists.
    apply list_elem_of_In, Hready in Hb as [Hb _]. congruence. }
  assert (forallb (service_ready e r) (backends_of r) = true) as ->; [|done].
  apply forallb_forall. intros b Hb%list_elem_of_In. by apply Hready.
Qed.

(** ** The claims *)

(** C11: in a cluster that starts without clashing Routes and where no two
    admissions overlap (each Route the webhook admits is stored or given up
    before the next is admitted, each decided on the Routes stored at that
    time), no two live Routes ever claim the same gateway, host and path and
    no reconcile ends with the outcome conflict, whatever else happens in the
    cluster, deletions and reconciles between an admission and its storage
    included. *)
Theorem admission_keeps_compatible y :
  serialized y →
  compatible (s_env (sy_state y)) ∧
  ∀ req, last (s_log (Reconcile req (sy_state y)).2) ≠ Some (CCounterInc "conflict").
Proof.
  intros Hy. destruct (serialized_orderly y Hy) as (_ & Hc & _). split; [done|]. intros req.
  apply Reconcile_no_conflict; [|done]. by apply operating_free, serialized_operating.
Qed.

(** C1: from any state of the system, whatever Routes it started with and
    however admissions overlapped, after any sequence of reconciles in which
    the last one of every live Route returned nil: a live Route that must give
    way to another is Degraded, and any other is in the phase its own backends
    call for.  If names keep the Routes apart, a Route that gives way to none
    and whose backends all exist with a ready endpoint is Active and has every
    object it calls for and none that it retires.  And if the cluster started
    without clashing Routes and no two admissions overlapped, no live Route
    has to give way. *)
Theorem operator_serves reqs y h s' :
  operating y → reconcile_all reqs (sy_state y) = (h, s') →
  (∀ n r, live (s_env (sy_state y)) n r → served h n) →
  (∀ n r, live (s_env s') n r →
   (contested (s_env s') r → st_Phase (r_Status r) = RoutePhaseDegraded) ∧
   (¬ contested (s_env s') r → st_Phase (r_Status r) = backend_phase (s_env s') r)) ∧
  (all_apart (s_env (sy_state y)) →
   ∀ n r, live (s_env s') n r → ¬ contested (s_env s') r →
   (∀ b, b ∈ backends_of r →
      service_missing (s_env s') r b = false ∧ service_ready (s_env s') r b = true) →
   st_Phase (r_Status r) = RoutePhaseActive ∧
   ∃ canary, possible r canary ∧ provisioned (s_env s') r canary) ∧
  (serialized y → ∀ n r, live (s_env s') n r → ¬ contested (s_env s') r).
Proof.
  intros Hop Hrun Hall. pose proof (operating_free y Hop) as Hf.
  destruct (reconcile_all_settled reqs _ h s' Hf Hrun) as [Hsim Hset].
  assert (∀ n r, live (s_env s') n r → served h n) as Hserved.
  { intros n r Hr. pose proof Hsim as (_ & _ & _ & Hback).
    destruct (Hback n r Hr) as (r0 & Hr0 & _). by eapply Hall. }
  assert (∀ n r, live (s_env s') n r → ¬ contested (s_env s') r →
    st_Phase (r_Status r) = backend_phase (s_env s') r) as Hph.
  { intros n r Hr Hnc. rewrite (Hset n r) by eauto. by apply due_uncontested. }
  split_and!.
  - intros n r Hr. split; [|by eapply Hph]. intros Hc.
    rewrite (Hset n r) by eauto. by apply due_contested.
  - intros Hap n r Hr Hnc Hready.
    assert (st_Phase (r_Status r) = RoutePhaseActive) as Hact
      by (rewrite (Hph n r Hr Hnc); by apply backend_phase_active).
    split; [done|].
    by apply (reconcile_all_equipped reqs _ h s' Hf Hrun Hap n r); [by eapply Hserved|..].
  - intros Hy n r Hr. eapply compatible_uncontested; [|exact Hr].
    eapply compatible_similar; [exact Hsim|]. by apply serialized_orderly.
Qed.
End system.

(** ** A history in the in-memory cluster *)

(** Two Routes are created past the webhook and reconciled. *)
Definition ex_app : Route := Default (ex_route "app" "a.example").
Definition ex_web : Route := Default (ex_route "web" "b.example").
Definition ex_at (rs : list Route) : St Mem :=
  mkSt (ex_mem rs ["10.0.0.1"]) Main.Main.newRouteReconciler [].

Lemma ex_admit r rs l :
  (ValidateCreate true (Default r) (s_env (ex_at rs))).1 = Ret None →
  step (mkSys (ex_at rs) l) (mkSys (ex_at rs) (AdmittedCreate (Default r) :: l)).
Proof.
  intros Hv. change (ex_at rs) with (with_env (s_env (ex_at rs)) (ex_at rs)) at 2.
  apply (step_admit_create true r (ValidateCreate true (Default r) (s_env (ex_at rs))).2); [|done].
  rewrite <-Hv. apply surjective_pairing.
Qed.
Lemma ex_store r rs l :
  routes (s_env (ex_at rs)) !! r_NN r = None →
  step (mkSys (ex_at rs) (AdmittedCreate r :: l)) (mkSys (ex_at (r :: rs)) l).
Proof.
  intros Hnew. apply (step_store (AdmittedCreate r) (ex_mem (r :: rs) ["10.0.0.1"]) (ex_at rs) [] l);
    [exact Hnew|]. unfold routes. simpl. unfold mem_known. simpl. by apply known_insert.
Qed.
Lemma ex_serialized : serialized (mkSys (ex_at [ex_web; ex_app]) []).
Proof.
  apply (se_step (mkSys (ex_at [ex_app]) [AdmittedCreate ex_web])); [|by apply ex_store|simpl; lia].
  apply (se_step (mkSys (ex_at [ex_app]) [])); [|apply ex_admit; by vm_compute|simpl; lia].
  apply (se_step (mkSys (ex_at []) [AdmittedCreate ex_app])); [|by apply ex_store|simpl; lia].
  apply (se_step (mkSys (ex_at []) [])); [|apply ex_admit; by vm_compute|simpl; lia].
  apply (se_start (s_env (ex_at []))). by intros n m a b [[Hn _]%map_lookup_filter_Some _].
Qed.
(** A third one that claims what the first has is turned away. *)
Example ex_refused :
  (ValidateCreate true (Default (ex_route "late" "a.example"))
     (s_env (ex_at [ex_web; ex_app]))).1 ≠ Ret None.
Proof. by vm_compute. Qed.

(** But two that are admitted before either is stored may clash, and then the
    controller lets the one that comes first by creation and name have the host. *)
Definition ex_late : Route := Default (ex_route "late" "a.example").
Lemma ex_overlapping :
  operating (mkSys (ex_at [ex_late; ex_app]) []) ∧
  contested (s_env (ex_at [ex_late; ex_app])) ex_late.
Proof.
  split.
  - apply (op_step (mkSys (ex_at [ex_app]) [AdmittedCreate ex_late])); [|by apply ex_store].
    apply (op_step (mkSys (ex_at []) [AdmittedCreate ex_app; AdmittedCreate ex_late]));
      [|by apply ex_store].
    apply (op_step (mkSys (ex_at []) [AdmittedCreate ex_late]));
      [|apply ex_admit; by vm_compute].
    apply (op_step (mkSys (ex_at []) [])); [|apply ex_admit; by vm_compute].
    apply (op_start (s_env (ex_at []))).
  - exists (mkNN "demo" "app"), ex_app. split; [split; by vm_compute|].
    split; [done|]. split; [done|]. split; [by vm_compute|].
    do 2 eexists. split_and!; [left|left|]; by vm_compute.
Qed.
Example ex_overlap_phases :
  (λ r, (r_Name r, st_Phase (r_Status r))) <$> (map_to_list (routes (s_env
    (reconcile_all [mkNN "demo" "app"; mkNN "demo" "late"] (ex_at [ex_late; ex_app])).2))).*2 =
    [("app", "Active"); ("late", "Degraded")].
Proof. by vm_compute. Qed.

Definition ex_reqs : list NamespacedName := [mkNN "demo" "app"; mkNN "demo" "web"].
Definition ex_history : list (NamespacedName * bool) := (reconcile_all ex_reqs (ex_at [ex_web; ex_app])).1.
Definition ex_end : St Mem := (reconcile_all ex_reqs (ex_at [ex_web; ex_app])).2.
Lemma ex_stored n r :
  routes (s_env (ex_at [ex_web; ex_app])) !! n = Some r →
  (n = mkNN "demo" "app" ∧ r = ex_app) ∨ (n = mkNN "demo" "web" ∧ r = ex_web).
Proof.
  intros [Hr _]%map_lookup_filter_Some. simpl in Hr.
  rewrite !lookup_insert_Some, lookup_empty in Hr. naive_solver.
Qed.
Lemma ex_both_served n r : live (s_env (ex_at [ex_web; ex_app])) n r → served ex_history n.
Proof. intros [[[-> _]|[-> _]]%ex_stored _]; by vm_compute. Qed.
Lemma ex_both_apart : all_apart (s_env (ex_at [ex_web; ex_app])).
Proof.
  intros n m a b [[-> ->]|[-> ->]]%ex_stored [[-> ->]|[-> ->]]%ex_stored Hne; try done.
  all: split; [done|]; intros _; split; by vm_compute.
Qed.
Example ex_phases :
  (λ r, (r_Name r, st_Phase (r_Status r))) <$> (map_to_list (routes (s_env ex_end))).*2 =
    [("web", "Active"); ("app", "Active")].
Proof. by vm_compute. Qed.

Lemma admission_keeps_compatible_witness :
  compatible (s_env (ex_at [ex_web; ex_app])) ∧
  ∀ req, last (s_log (Reconcile req (ex_at [ex_web; ex_app])).2) ≠ Some (CCounterInc "conflict").
Proof.
  exact (admission_keeps_compatible (mkSys (ex_at [ex_web; ex_app]) []) ex_serialized).
Defined.

Lemma operator_serves_witness :
  reconcile_all ex_reqs (ex_at [ex_web; ex_app]) = (ex_history, ex_end) ∧
  (∀ n r, live (s_env ex_end) n r → ¬ contested (s_env ex_end) r) ∧
  (∀ n r, live (s_env ex_end) n r → st_Phase (r_Status r) = backend_phase (s_env ex_end) r) ∧
  ∀ n r, live (s_env ex_end) n r →
    (∀ b, b ∈ backends_of r →
       service_missing (s_env ex_end) r b = false ∧ service_ready (s_env ex_end) r b = true) →
    st_Phase (r_Status r) = RoutePhaseActive ∧
    ∃ canary, possible r canary ∧ provisioned (s_env ex_end) r canary.
Proof.
  assert (reconcile_all ex_reqs (ex_at [ex_web; ex_app]) = (ex_history, ex_end)) as Hrun
    by apply surjective_pairing.
  split; [exact Hrun|].
  destruct (operator_serves ex_reqs (mkSys (ex_at [ex_web; ex_app]) []) ex_history ex_end
    (serialized_operating _ ex_serialized) Hrun ex_both_served) as (Hphase & Hobjects & Hfree).
  specialize (Hfree ex_serialized). split; [exact Hfree|]. split.
  - intros n r Hr. exact (proj2 (Hphase n r Hr) (Hfree n r Hr)).
  - intros n r Hr. exact (Hobjects ex_both_apart n r Hr (Hfree n r Hr)).
Defined.
End System.
